(* ===== verification/_CoqProject ===== *)
-Q . S2P
Prelude.v
UnorderedMap.v
ErrorCodes.v
Grpc.v
Messages.v
NodeDir.v
Table.v
SharedMutex.v
TableLock.v
Registry.v
Health.v
HealthThread.v
RegistrySystem.v
TimedSystem.v
Coro.v
NodeBase.v
NodeThread.v
NodeSystem.v
NodeTime.v
Double.v
Metrics.v
MetricsAtomics.v
Lidar.v
LidarMetrics.v
TimedClient.v
RpcTypes.v
Programs.v
Threads.v
LidarProcess.v
RegistryProcess.v
TableTests.v
