(* ===== verification/Prelude.v ===== *)
(** * D-RoCM: a verification library for the distributed robot middleware

    D-RoCM is a C++20 middleware: nodes (robots, sensors) register with a central
    registry over gRPC, send heartbeats, and find each other by service; a health
    checker in the registry drops the nodes that fall silent.  This library models
    the program's own logic as executable Gallina definitions and proves what they
    promise.  gRPC, protobuf and spdlog are not under src/: what the code uses of
    them is a class parameter with named laws, or an input of the definitions.

    ** The parts and their files

    - Prelude (this file): the scope [drocm_scope], the hint databases [drocm],
      machine integers ([wrap_u32], [wrap_u64], [wrap_i64]), decimal printing,
      strings and lists, [sleep_while], the servers' wait for a signal, and [JThread],
      the state of a [std::jthread].
    - UnorderedMap: [std::unordered_map<std::string, V>] as its sequence of pairs,
      with the order of iteration left to a class ([HashOrder]); every operation
      refines the finite map [to_map].
    - ErrorCodes: src/core/error_codes.h.
    - Grpc: the interface of gRPC's status and of a blocking unary call
      ([GrpcStatusLaws], [UnaryCallLaws]), with a concrete instance.
    - Messages: the messages of src/proto, and [Typed]: a value of its C++ type.
    - NodeDir: the abstract node directory (a finite map from node ids to entries)
      and the interface [NodeDirectory]/[NodeDirectoryLaws] that a table promises
      its users: each operation refines the directory's.
    - Table: src/registry/node_table.{h,cpp}.  [Module NodeTable] is the class; its
      instances discharge [NodeDirectoryLaws].
    - SharedMutex: [std::shared_mutex] and any object whose member functions run
      under it, access by access ([LockedObject]); such calls are linearizable, and
      all return.
    - TableLock: the node table again, as the accesses its functions make and the
      lock they take; an instance of SharedMutex, refining the abstract directory.
    - Registry: src/registry/registry_service.{h,cpp}.  [Module RegistryService]
      has one definition per RPC handler, over any [NodeDirectory].
    - Health: src/registry/health_checker.{h,cpp}.  [Module HealthChecker]: the
      lifecycle ([start], [stop], [destroy]) and the background loop, whose
      iterations carry what the other threads do to the table meanwhile.
    - HealthThread: the checker again, statement by statement: its thread as a step
      machine, in parallel with the statements of [start] and [stop] on any number of
      controlling threads.
    - RegistrySystem: the registry process of src/examples/registry_server.cpp as
      histories of events, each a call that the table's mutex makes atomic
      (TableLock); a registration that was past its check of the running flag is an
      event of its own.
    - TimedSystem: the same process in real time.  Every event has a time, and the
      checker's [sleep_for] spaces its ticks ([tstep]); [prompt] bounds its lateness.
    - Coro: src/core/coro.  Contexts in a heap where a use after free is a [Fault],
      coroutine frames suspended in awaiters, the poller over the answers of
      [AsyncNext], and [Module CoroAdapter], the adapter's life.
    - NodeBase: src/node/node_base.{h,cpp}.  [Module Node]: [start], [stop],
      [calculate_backoff_delay] and the heartbeat loop, over the outcomes of the
      calls it makes.
    - NodeThread: the node's heartbeat thread as a step machine, and in parallel with
      the statements of [stop] and of the destructor on another thread.
    - NodeSystem: a node and the registry through [unary_call].
    - NodeTime: a node's heartbeat loop and the registry process in real time.
    - Double: Binary64 arithmetic and printing as the sources use it.
    - Metrics: src/utils/metrics.{h,cpp}.
    - MetricsAtomics: the same calls as interleaved [fetch_add]s and [load]s.
    - Lidar: src/examples/lidar_emulator.cpp: the node's service, the self-healing
      client, the metrics port and [main].
    - LidarMetrics: any number of concurrent subscriptions, action by action, with the
      loads of the scrapes in their midst.
    - TimedClient: the LIDAR node's heartbeat client and the registry process in real
      time.
    - RpcTypes: the services of src/proto, dispatched to their handlers;
      [Module DirectoryServer], what a caller of the registry can rely on; and the
      types of what the clients send.
    - Programs: src/utils/logger.{h,cpp}, src/core/transport, src/core/version.*,
      src/main.cpp and the [main] of src/examples/registry_server.cpp.
    - Threads: what the programs' step machines share: log statements, gRPC's server
      behind [SyncServer]/[SyncServerLaws], the handlers of its calls, and programs
      that finish under fair schedules ([FairProgram]/[FairProgramLaws]).
    - LidarProcess: the LIDAR process as interleaved threads, log statements
      included: [main], the heartbeat and metrics threads and the handlers.
    - RegistryProcess: the registry server's process likewise: [main], the health
      checker's thread and the handlers, on one registry service.
    - TableTests: src/tests/test_node_table.cpp, run on the model.

    How they interact: Registry and Health are written against the interface of
    NodeDir, so their theorems hold of any table that satisfies its laws, and
    Table's instances provide them; RegistrySystem runs handler calls and checker
    calls on one shared table; NodeSystem and Lidar compose a client with the
    handlers through Grpc's [unary_call].  TimedSystem puts RegistrySystem's events on
    a clock; NodeTime and TimedClient put the clients' loops on the same clock.
    TableLock justifies the atomic calls of Health and RegistrySystem, HealthThread the
    iterations of Health's loop and its atomic [start] and [stop], and MetricsAtomics
    the order-free calls of Metrics; RegistryProcess derives RegistrySystem's histories
    from a schedule of the server's threads, and LidarProcess the histories of Lidar's
    heartbeat loop.

    ** Conventions

    A definition has the name of the function it translates.  A method takes the
    object and returns the new one, with its result first.  What a function reads
    from outside (the clock, [std::rand], a call's outcome, a stop token) is an
    argument; what it does to the outside (a sleep, a message sent, a thread
    spawned) is a list of actions in order, where that order matters.  A thread's
    loop is a structural recursion over the list of its iterations so far, each
    with what it observes: no fuel is needed, and a loop that ends says so in its
    result, so termination is stated as "it has exited exactly when ..." . The loops
    of the table's functions (TableLock) have one turn for each element and one
    more; a loop that wants another is taken to be endless ([Spin]), and none is
    ([table_calls_return]). Where threads interleave within a call, they are step
    machines: a step relation (SharedMutex), or a step function run by a schedule
    (NodeThread, HealthThread, MetricsAtomics, LidarMetrics, LidarProcess,
    RegistryProcess). Times are in milliseconds of a steady clock, apart from the
    system clock's readings that the code stores. [sleep_for] and the calls take at
    least what they are asked to; how much longer is a parameter of the theorems
    that need an upper bound ([delta], [lag], [L]).
    [uint32_t] and [int64_t] values are [Z] with the wrap-around written out; an
    [int] whose overflow would be undefined gives [None]; setters of messages convert
    to the type of their field.  Log statements are left
    out everywhere but in Programs, LidarProcess and RegistryProcess, which are about
    them.

    ** What the theorems show

    - The node table (Table): any history of operations answers as the abstract
      directory does, within the capacity; the hash order shows only in the order
      of lists; what each query and removal returns, exactly.
    - The table's mutex (TableLock): whatever its threads do, access by access, is
      what atomic calls on the abstract directory do; readers share, writers are
      alone; nothing deadlocks, no loop is endless, and every call can return.
    - The registry's handlers (Registry): every branch of every RPC, with status,
      response and effect.
    - The registry process (RegistrySystem): [missed_heartbeats] counts checker
      ticks since the last refresh; a query finds exactly the nodes that offer the
      service and were refreshed since the last tick; a silent node goes within as
      many rounds as the threshold; a node that keeps up stays, with its session;
      counters never wrap; session ids are unique; and the checker's own loop
      produces these rounds.
    - The health checker (Health, HealthThread): it exits exactly when told to, and its
      thread is spawned, stopped and joined strictly in turn; its thread's steps are
      the loop's; with one controlling thread at most one checker thread is at work,
      none after [stop] has returned, and [stop] returns; two controlling threads can
      leave one at work behind the flag's back.
    - The registry in time (TimedSystem): its histories are those of the checker's
      loop; nobody is removed before threshold minus one intervals of silence (2 s with
      the server's numbers), everybody within the threshold's cycles, and nobody is
      listed after one cycle; a node with punctual heartbeats stays.
    - The clients in time (NodeTime, TimedClient): how many lost heartbeats in a row a
      node survives.  The LIDAR client survives one; three outlast the registry's
      patience, and it registers again 16 s after its last heartbeat.  A node of the
      base class survives none for certain, and once dropped never comes back.
    - The coroutine adapter (Coro): no memory fault, one result per operation, no
      leak after the queue's shutdown, under gRPC's contract for [AsyncNext]; and
      what goes wrong when [cancel_with_timeout] is used, or a second adapter.
    - The node (NodeBase, NodeThread, NodeSystem): the backoff delays, the bound on
      attempts, giving up; the thread's steps are the loop's; starting and stopping
      leave the registry as it was; and three defects: it never reconnects, [stop]
      leaves its thread running with a null stub, and it cannot be restarted.
    - The LIDAR node (Lidar): the subscription's backpressure, the control stream's
      echo, the client's backoff, that it heals itself together with the registry,
      and what its [main] has done by when.  A scrape amid
      concurrent subscriptions counts their writes, up to one each (LidarMetrics).
    - The LIDAR process (LidarProcess): no thread ever logs through a null logger, as
      all have returned when it goes down; the process exits within 44 + 4 N rounds of
      its threads once it is told to and N calls were made, if the clients close their
      control streams and one more connects to the metrics port; and it never exits
      while a handler or [accept] waits.  Its heartbeat thread is Lidar's loop.
    - The registry server's process (RegistryProcess): under every schedule the
      service's state is that of one of RegistrySystem's histories, with the checker's
      ticks in their rounds; nothing logs through a null logger; at the end all threads
      have returned and the logged node count is the table's; and it exits within
      20037 + 5 N rounds of its threads once it is told to and N calls were made,
      whatever the clients do.
    - What callers see (RpcTypes): after any history the registry behind gRPC answers
      from the abstract directory, or with an error status alone; and whatever they
      receive, the nodes send and sleep values of their C++ types only.
    - Metrics, MetricsAtomics: totals independent of interleaving down to the single
      atomic access, the text reads back, a timer records once; a concurrent scrape's
      sum covers the recordings its count says, but perhaps more.
    - Programs: the registry server waits for its signal; its shutdown sequence never
      logs through a null logger and reports the exact count, but dereferences null
      when the server could not be built.
    - The unit tests (TableTests): they pass on the model, for every hash order and
      every interleaving of the concurrent one.

    ** What is not modelled

    - The wire format, the code protoc generates, gRPC's transport and threads, and
      spdlog's sinks: third-party, behind the parameters above.
    - Memory models weaker than sequential consistency: the table's mutex and the
      default order of the atomics exclude them where they are used.  The one race on
      plain members that matters, the node's stub, is in NodeThread.
    - The scheduler's fairness: who gets a free mutex, and when, is open.  The table's
      mutex takes no time in TimedSystem, whose events are atomic calls; its lateness
      bound covers the waiting.
    - Comments, includes and declarations without a body: most lines of the headers
      under src/ that no definition corresponds to.
    - Exceptions of the standard library (allocation, [create_directories]).
    - The benchmark directory and the build files. *)

From Stdlib Require Import ZArith Lia Ascii.
From stdpp Require Import prelude gmap strings pretty list.

(** ** Scope, hint database and tactics of the development *)

Declare Scope drocm_scope.
Delimit Scope drocm_scope with drocm.

Create HintDb drocm.
Create Rewrite HintDb drocm.

(** Case analysis on the outermost [match]/[if] of the goal, keeping the
    equation, and closing the impossible branches. *)
Ltac split_guard :=
  match goal with
  | |- context [match ?x with _ => _ end] => destruct x eqn:?
  | H : context [match ?x with _ => _ end] |- _ => destruct x eqn:?
  end; simplify_eq/=.

Ltac split_guards := repeat split_guard.

(** Reflect the boolean comparisons on [Z] that the models use as guards. *)
Ltac reflect_Z :=
  repeat match goal with
  | H : (_ <=? _)%Z = true |- _ => apply Z.leb_le in H
  | H : (_ <=? _)%Z = false |- _ => apply Z.leb_gt in H
  | H : (_ <? _)%Z = true |- _ => apply Z.ltb_lt in H
  | H : (_ <? _)%Z = false |- _ => apply Z.ltb_ge in H
  | H : (_ =? _)%Z = true |- _ => apply Z.eqb_eq in H
  | H : (_ =? _)%Z = false |- _ => apply Z.eqb_neq in H
  end.

(** Split every conjunction, disjunction and existential among the hypotheses. *)
Ltac decompose_hyps :=
  repeat match goal with
  | H : _ ∧ _ |- _ => destruct H
  | H : _ ∨ _ |- _ => destruct H
  | H : ∃ _, _ |- _ => destruct H
  end.

(** ** Machine integers

    [uint32_t] values are integers in [[0, 2^32)] with the wrap-around of
    unsigned arithmetic written out; [int64_t] atomics wrap in two's
    complement, as [std::atomic::fetch_add] is defined to. *)

Definition in_u32 (z : Z) : Prop := (0 ≤ z < 2 ^ 32)%Z.

Definition wrap_u32 (z : Z) : Z := (z mod 2 ^ 32)%Z.

(** [uint64_t] likewise; a negative [int64_t] converts to it modulo 2^64. *)
Definition in_u64 (z : Z) : Prop := (0 ≤ z < 2 ^ 64)%Z.

Definition wrap_u64 (z : Z) : Z := (z mod 2 ^ 64)%Z.

Definition in_i64 (z : Z) : Prop := (- 2 ^ 63 ≤ z < 2 ^ 63)%Z.

Definition wrap_i64 (z : Z) : Z := ((z + 2 ^ 63) mod 2 ^ 64 - 2 ^ 63)%Z.

Notation "x '+u32' y" := (wrap_u32 (x + y)%Z)
  (at level 50, left associativity) : drocm_scope.
Notation "x '*u32' y" := (wrap_u32 (x * y)%Z)
  (at level 40, left associativity) : drocm_scope.

Lemma wrap_u32_range z : in_u32 (wrap_u32 z).
Proof. unfold in_u32, wrap_u32. apply Z.mod_pos_bound. lia. Qed.

Lemma wrap_u32_small z : in_u32 z → wrap_u32 z = z.
Proof. unfold in_u32, wrap_u32. apply Z.mod_small. Qed.

Lemma wrap_u64_range z : in_u64 (wrap_u64 z).
Proof. unfold in_u64, wrap_u64. apply Z.mod_pos_bound. lia. Qed.

Lemma wrap_u64_small z : in_u64 z → wrap_u64 z = z.
Proof. unfold in_u64, wrap_u64. apply Z.mod_small. Qed.

Lemma wrap_u32_mul_l a b : wrap_u32 (wrap_u32 a * b) = wrap_u32 (a * b).
Proof. unfold wrap_u32. apply Z.mul_mod_idemp_l. lia. Qed.

Lemma wrap_u32_add_l a b : wrap_u32 (wrap_u32 a + b) = wrap_u32 (a + b).
Proof. unfold wrap_u32. apply Z.add_mod_idemp_l. lia. Qed.

Lemma wrap_i64_range z : in_i64 (wrap_i64 z).
Proof.
  unfold in_i64, wrap_i64.
  pose proof (Z.mod_pos_bound (z + 2 ^ 63) (2 ^ 64) ltac:(lia)). lia.
Qed.

Lemma wrap_i64_small z : in_i64 z → wrap_i64 z = z.
Proof. unfold in_i64, wrap_i64. intros ?. rewrite Z.mod_small; lia. Qed.

Lemma wrap_i64_add_l a b : wrap_i64 (wrap_i64 a + b) = wrap_i64 (a + b).
Proof.
  unfold wrap_i64. f_equal.
  replace ((a + 2 ^ 63) mod 2 ^ 64 - 2 ^ 63 + b + 2 ^ 63)%Z
    with ((a + 2 ^ 63) mod 2 ^ 64 + b)%Z by lia.
  rewrite Z.add_mod_idemp_l by lia. f_equal. lia.
Qed.

#[export] Hint Resolve wrap_u32_range wrap_u64_range wrap_i64_range : drocm.
#[export] Hint Rewrite wrap_u32_mul_l wrap_u32_add_l wrap_i64_add_l : drocm.

(** ** Decimal printing

    [std::to_string] on an integer is the plain decimal numeral with a
    leading minus sign for negative values: stdpp's [pretty] on [Z]. *)

Definition to_string (z : Z) : string := pretty z.

Lemma to_string_inj z1 z2 : to_string z1 = to_string z2 → z1 = z2.
Proof. unfold to_string. apply (inj pretty). Qed.

(** ** Strings *)

Fixpoint str_all (P : ascii → bool) (s : string) : bool :=
  match s with
  | EmptyString => true
  | String c s' => P c && str_all P s'
  end.

Lemma str_all_app P s1 s2 : str_all P (s1 +:+ s2) = str_all P s1 && str_all P s2.
Proof.
  induction s1 as [|c s1 IH]; simpl; [done|]. by rewrite IH, andb_assoc.
Qed.

Definition is_digit (c : ascii) : bool :=
  let n := N_of_ascii c in (48 <=? n)%N && (n <=? 57)%N.

Definition is_not (c c' : ascii) : bool := negb (Ascii.eqb c c').

Lemma str_all_impl (P Q : ascii → bool) s :
  (∀ c, P c = true → Q c = true) → str_all P s = true → str_all Q s = true.
Proof.
  intros HPQ. induction s as [|c s IH]; simpl; [done|].
  rewrite !andb_true_iff. intros [??]. auto.
Qed.

Lemma pretty_N_char_digit x : is_digit (pretty_N_char x) = true.
Proof. unfold pretty_N_char. by repeat case_match. Qed.

Lemma pretty_N_go_digits x s :
  str_all is_digit s = true → str_all is_digit (pretty_N_go x s) = true.
Proof.
  revert s. induction (N.lt_wf_0 x) as [x _ IH]; intros s Hs.
  destruct (decide (0 < x)%N) as [Hx|Hx].
  - rewrite pretty_N_go_step by done. apply IH; [by apply N.div_lt|].
    simpl. by rewrite pretty_N_char_digit.
  - assert (x = 0%N) as -> by lia. done.
Qed.

Lemma to_string_digits z : (0 ≤ z)%Z → str_all is_digit (to_string z) = true.
Proof.
  intros Hz. unfold to_string, pretty, pretty_Z. destruct z as [|p|p]; [done| |lia].
  unfold pretty, pretty_positive, pretty, pretty_N.
  case_decide; [done|]. by apply pretty_N_go_digits.
Qed.

(** Splitting at the last separator: two strings whose suffix after a
    separator does not contain the separator agree piecewise. *)
Lemma split_at_last c s1 s2 d1 d2 :
  str_all (is_not c) d1 = true →
  str_all (is_not c) d2 = true →
  s1 +:+ String c d1 = s2 +:+ String c d2 →
  s1 = s2 ∧ d1 = d2.
Proof.
  intros Hd1 Hd2. revert s2.
  assert (∀ s d, str_all (is_not c) (s +:+ String c d) = false) as Hsep.
  { intros s d. rewrite str_all_app. simpl. unfold is_not at 2.
    rewrite Ascii.eqb_refl. simpl. apply andb_false_r. }
  induction s1 as [|a s1 IH]; intros [|b s2] Heq; simpl in Heq.
  - by injection Heq as ->.
  - injection Heq as <- ->. by rewrite Hsep in Hd1.
  - injection Heq as -> <-. by rewrite Hsep in Hd2.
  - injection Heq as -> Heq. by destruct (IH s2 Heq) as [-> ->].
Qed.

Lemma digits_no_underscore s :
  str_all is_digit s = true → str_all (is_not "_"%char) s = true.
Proof.
  apply str_all_impl. intros c Hc. unfold is_not.
  destruct (Ascii.eqb_spec "_" c) as [<-|]; [|done]. by vm_compute in Hc.
Qed.

(** ** Lists *)

(** A push-back loop that keeps the elements a test selects is [filter]. *)
Lemma foldl_push_back_filter {A} (P : A → bool) (l acc : list A) :
  foldl (λ r x, if P x then r ++ [x] else r) acc l = acc ++ filter (λ x, P x) l.
Proof.
  revert acc. induction l as [|x l IH]; intros acc; simpl.
  - by rewrite app_nil_r.
  - rewrite IH. destruct (P x) eqn:HP.
    + rewrite filter_cons_True by (by rewrite HP). by rewrite <-app_assoc.
    + rewrite filter_cons_False by (rewrite HP; by intros []). done.
Qed.

Lemma foldl_push_back_id {A} (l acc : list A) :
  foldl (λ r x, r ++ [x]) acc l = acc ++ l.
Proof.
  revert acc. induction l as [|x l IH]; intros acc; simpl.
  - by rewrite app_nil_r.
  - by rewrite IH, <-app_assoc.
Qed.

Lemma filter_sublist_of {A} (P : A → Prop) `{∀ x, Decision (P x)} (l : list A) :
  filter P l `sublist_of` l.
Proof.
  induction l as [|x l IH]; [done|]. rewrite filter_cons.
  case_decide; [by apply sublist_skip|by apply sublist_cons].
Qed.

Lemma Forall_snoc {A} (P : A → Prop) (l : list A) x : Forall P l → P x → Forall P (l ++ [x]).
Proof. intros Hl Hx. apply Forall_app_2; [done|by constructor]. Qed.

(** ** Waiting for a signal

    Both servers' [main] sleep as long as a flag is set: over what the loads of the
    flag give, the sleeps, and whether the loop has been left. *)
Fixpoint sleep_while (ms : Z) (loads : list bool) : list Z * bool :=
  match loads with
  | [] => ([], false)
  | running :: loads =>
      if running then let '(sleeps, exited) := sleep_while ms loads in (ms :: sleeps, exited)
      else ([], true)
  end.

Lemma sleep_while_left ms loads : (sleep_while ms loads).2 = true ↔ false ∈ loads.
Proof.
  induction loads as [|running loads IH]; simpl; [by rewrite elem_of_nil|].
  rewrite elem_of_cons, <-IH. destruct running; simpl; [|naive_solver].
  destruct (sleep_while ms loads). simpl. naive_solver.
Qed.

(** ** Threads

    [std::jthread]: whether it has a thread to join, and the state of its stop
    source. *)
Module JThread.
Record t := mk { joinable : bool; stop_requested : bool }.
(** A default-constructed object. *)
Definition none : t := mk false false.
(** A freshly started thread. *)
Definition spawned : t := mk true false.
Definition request_stop (th : t) : t := mk (joinable th) true.
Definition join (th : t) : t := mk false (stop_requested th).
(** Destroying or overwriting a joinable thread asks it to stop and joins it. *)
Definition destroy (th : t) : t := if joinable th then join (request_stop th) else th.
End JThread.
