(* ===== verification/UnorderedMap.v ===== *)
(** * std::unordered_map<std::string, V> as the registry uses it

    The container is the sequence of its (key, value) pairs in iteration
    order.  Where an insertion lands (and how a rehash permutes the rest) is
    up to the implementation of the standard library: it is the parameter
    [HashOrder], constrained only to be a permutation.  Erasing an element
    keeps the order of the others, as the standard guarantees.

    [to_map] forgets the order: it maps the container to the finite map from
    keys to values, and every operation used by the registry is related to the
    corresponding [gmap] operation.  Two containers with permuted contents
    are the same finite map ([umap_find_Proper] and the like). *)

From Stdlib Require Import ZArith Lia.
From stdpp Require Import prelude gmap strings list.
From S2P Require Import Prelude.

Abbreviation umap V := (list (string * V)).

(** Where [try_emplace] puts a new element in the iteration order. *)
Class HashOrder (V : Type) := {
  insert_order : string → V → umap V → umap V;
  insert_order_perm k v m : insert_order k v m ≡ₚ (k, v) :: m;
}.

(** The simplest order: new elements first. *)
Definition front_order V : HashOrder V :=
  {| insert_order k v m := (k, v) :: m; insert_order_perm k v m := reflexivity _ |}.

(** Another order: new elements last. *)
Definition back_order V : HashOrder V :=
  {| insert_order k v m := m ++ [(k, v)];
     insert_order_perm k v m := symmetry (Permutation_cons_append m (k, v)) |}.

Section umap.
  Context {V : Type}.
  Implicit Types (m : umap V) (k : string) (v : V) (f : V → V) (P : V → bool).

(** [nodes_.find(k)]: the value at [k], or [None] for [end()]. *)
Fixpoint umap_find k m : option V :=
  match m with
  | [] => None
  | (k', v) :: m' => if decide (k = k') then Some v else umap_find k m'
  end.

(** [nodes_.contains(k)]. *)
Definition umap_contains k m : bool :=
  match umap_find k m with Some _ => true | None => false end.

(** [nodes_.size()], a [size_t]. *)
Definition umap_size m : Z := Z.of_nat (length m).

(** [nodes_.try_emplace(k, v)]: the [inserted] flag and the container. *)
Definition umap_try_emplace `{!HashOrder V} k v m : bool * umap V :=
  match umap_find k m with
  | Some _ => (false, m)
  | None => (true, insert_order k v m)
  end.

(** [nodes_.erase(it)] for the iterator [it] that [find(k)] returned. *)
Fixpoint umap_erase k m : umap V :=
  match m with
  | [] => []
  | (k', v) :: m' => if decide (k = k') then m' else (k', v) :: umap_erase k m'
  end.

(** Assigning through the iterator [find(k)] returned: [it->second = f(..)]. *)
Fixpoint umap_update k f m : umap V :=
  match m with
  | [] => []
  | (k', v) :: m' =>
      if decide (k = k') then (k', f v) :: m' else (k', v) :: umap_update k f m'
  end.

(** [for (auto& [id, entry] : nodes_) entry = f(entry)]. *)
Definition umap_for_each f m : umap V := (λ '(k, v), (k, f v)) <$> m.

(** ** The finite map a container represents *)

Definition to_map m : gmap string V := list_to_map m.

Definition umap_wf m : Prop := NoDup m.*1.

Lemma umap_find_to_map k m : umap_find k m = to_map m !! k.
Proof.
  unfold to_map. induction m as [|[k' v] m IH]; simpl; [done|].
  rewrite lookup_insert. by repeat case_decide; simplify_eq.
Qed.

Lemma umap_contains_to_map k m :
  umap_contains k m = bool_decide (is_Some (to_map m !! k)).
Proof.
  unfold umap_contains. rewrite umap_find_to_map.
  destruct (to_map m !! k) eqn:E.
  - by rewrite bool_decide_eq_true_2.
  - rewrite bool_decide_eq_false_2; [done|]. by intros [??].
Qed.

Lemma umap_size_to_map m : umap_wf m → umap_size m = Z.of_nat (size (to_map m)).
Proof.
  intros Hm. unfold umap_size, to_map. rewrite <-length_map_to_list.
  by rewrite map_to_list_to_map.
Qed.

Lemma to_map_update k f m : to_map (umap_update k f m) = alter f k (to_map m).
Proof.
  unfold to_map. induction m as [|[k' v] m IH]; simpl.
  - apply map_eq. intros i. by rewrite lookup_alter, lookup_empty; case_decide.
  - case_decide as Hk; simpl.
    + subst. apply map_eq. intros i. rewrite lookup_alter, !lookup_insert.
      by repeat case_decide.
    + rewrite IH. by rewrite alter_insert_ne.
Qed.

Lemma to_map_for_each f m : to_map (umap_for_each f m) = f <$> to_map m.
Proof.
  unfold to_map. induction m as [|[k v] m IH]; simpl.
  - by rewrite fmap_empty.
  - by rewrite fmap_insert, <-IH.
Qed.

Lemma umap_erase_notin k m : k ∉ m.*1 → umap_erase k m = m.
Proof.
  induction m as [|[k' v] m IH]; simpl; [done|].
  rewrite not_elem_of_cons. intros [??]. rewrite decide_False by done.
  by rewrite IH.
Qed.

Lemma to_map_erase k m :
  umap_wf m → to_map (umap_erase k m) = delete k (to_map m).
Proof.
  unfold to_map, umap_wf. induction m as [|[k' v] m IH]; simpl.
  - by rewrite delete_empty.
  - rewrite NoDup_cons. intros [Hk' Hm]. case_decide; simpl.
    + subst. rewrite delete_insert_eq, delete_id; [done|].
      by apply not_elem_of_list_to_map_1.
    + rewrite IH by done. by rewrite delete_insert_ne.
Qed.

(** ** Keys *)

Lemma umap_find_in k m v : umap_find k m = Some v → (k, v) ∈ m.
Proof.
  induction m as [|[k' v'] m IH]; simpl; [done|]. case_decide; simplify_eq.
  - intros [= ->]. left.
  - right. auto.
Qed.

Lemma umap_in_find k m v : umap_wf m → (k, v) ∈ m → umap_find k m = Some v.
Proof.
  intros Hwf Hin. rewrite umap_find_to_map. by apply elem_of_list_to_map_1.
Qed.

Lemma umap_find_None k m : umap_find k m = None ↔ k ∉ m.*1.
Proof.
  rewrite umap_find_to_map. split.
  - apply not_elem_of_list_to_map_2.
  - apply not_elem_of_list_to_map_1.
Qed.

Lemma umap_update_keys k f m : (umap_update k f m).*1 = m.*1.
Proof.
  induction m as [|[k' v] m IH]; csimpl; [done|]. case_decide; csimpl; congruence.
Qed.

Lemma umap_for_each_keys f m : (umap_for_each f m).*1 = m.*1.
Proof. unfold umap_for_each. induction m as [|[k v] m IH]; csimpl; congruence. Qed.

Lemma umap_erase_submset k m : (umap_erase k m).*1 `sublist_of` m.*1.
Proof.
  induction m as [|[k' v] m IH]; simpl; [done|]. case_decide; simpl.
  - by apply sublist_cons.
  - by apply sublist_skip.
Qed.

(** ** Well-formedness is preserved by every operation *)

Lemma umap_update_wf k f m : umap_wf m → umap_wf (umap_update k f m).
Proof. unfold umap_wf. by rewrite umap_update_keys. Qed.

Lemma umap_for_each_wf f m : umap_wf m → umap_wf (umap_for_each f m).
Proof. unfold umap_wf. by rewrite umap_for_each_keys. Qed.

Lemma umap_sublist_wf m1 m2 : m1.*1 `sublist_of` m2.*1 → umap_wf m2 → umap_wf m1.
Proof. intros ? Hwf. unfold umap_wf in *. exact (sublist_NoDup _ _ Hwf ltac:(done)). Qed.

Lemma umap_erase_wf k m : umap_wf m → umap_wf (umap_erase k m).
Proof. apply umap_sublist_wf, umap_erase_submset. Qed.

Lemma umap_insert_order_wf `{!HashOrder V} k v m :
  umap_find k m = None → umap_wf m → umap_wf (insert_order k v m).
Proof.
  unfold umap_wf. intros Hk Hm. rewrite insert_order_perm. simpl.
  apply NoDup_cons. split; [|done]. by apply umap_find_None.
Qed.

Lemma to_map_insert_order `{!HashOrder V} k v m :
  umap_find k m = None → umap_wf m →
  to_map (insert_order k v m) = <[k:=v]> (to_map m).
Proof.
  intros Hk Hm. unfold to_map.
  rewrite <-list_to_map_cons. apply list_to_map_proper.
  - by apply umap_insert_order_wf.
  - by rewrite insert_order_perm.
Qed.

Lemma umap_try_emplace_wf `{!HashOrder V} k v m :
  umap_wf m → umap_wf (umap_try_emplace k v m).2.
Proof.
  intros Hm. unfold umap_try_emplace. destruct (umap_find k m) eqn:?; simpl; [done|].
  by apply umap_insert_order_wf.
Qed.

(** ** The loop that erases while it iterates

    [for (it = begin; it != end;) if (P(it->second)) { removed.push_back(
    it->first); it = erase(it); } else ++it;] *)

Fixpoint umap_erase_if_loop P (it : umap V) (removed : list string) :
    list string * umap V :=
  match it with
  | [] => (removed, [])
  | (k, v) :: it' =>
      if P v then umap_erase_if_loop P it' (removed ++ [k])
      else let '(r, rest) := umap_erase_if_loop P it' removed in (r, (k, v) :: rest)
  end.

Lemma umap_erase_if_loop_spec P m removed :
  umap_erase_if_loop P m removed =
    (removed ++ (filter (λ kv, P kv.2) m).*1, filter (λ kv, ¬ P kv.2) m).
Proof.
  revert removed. induction m as [|[k v] m IH]; intros removed; simpl.
  - by rewrite app_nil_r.
  - rewrite !filter_cons. simpl. destruct (P v) eqn:HP; rewrite IH.
    + rewrite decide_True by done. rewrite decide_False by naive_solver.
      simpl. by rewrite <-app_assoc.
    + rewrite decide_False by (by intros []). rewrite decide_True by naive_solver. done.
Qed.

Lemma filter_wf (Q : string * V → Prop) `{∀ x, Decision (Q x)} m :
  umap_wf m → umap_wf (filter Q m).
Proof.
  apply umap_sublist_wf, fmap_sublist, filter_sublist_of.
Qed.

Lemma to_map_filter (Q : string * V → Prop) `{∀ x, Decision (Q x)} m :
  umap_wf m → to_map (filter Q m) = filter Q (to_map m).
Proof.
  intros Hm. apply map_eq. intros k. apply option_eq. intros v.
  rewrite map_lookup_filter_Some. unfold to_map.
  rewrite <-!elem_of_list_to_map; [|done|by apply filter_wf].
  rewrite list_elem_of_filter. tauto.
Qed.

(** ** Permuted containers are the same map *)

Lemma to_map_perm m1 m2 : umap_wf m1 → m1 ≡ₚ m2 → to_map m1 = to_map m2.
Proof. intros. by apply list_to_map_proper. Qed.

#[global] Instance umap_wf_Proper : Proper ((≡ₚ) ==> iff) (umap_wf).
Proof. intros m1 m2 Hm. unfold umap_wf. by rewrite Hm. Qed.

#[global] Instance umap_size_Proper : Proper ((≡ₚ) ==> (=)) (umap_size).
Proof. intros m1 m2 Hm. unfold umap_size. by rewrite Hm. Qed.

Lemma umap_find_perm k m1 m2 :
  umap_wf m1 → m1 ≡ₚ m2 → umap_find k m1 = umap_find k m2.
Proof. intros. rewrite !umap_find_to_map. by erewrite to_map_perm. Qed.

(** The pairs of a container are those of its map. *)
Lemma umap_perm_map_to_list m : umap_wf m → m ≡ₚ map_to_list (to_map m).
Proof. intros. unfold to_map. by rewrite map_to_list_to_map. Qed.

Lemma umap_in_iff k v m : umap_wf m → (k, v) ∈ m ↔ to_map m !! k = Some v.
Proof. intros. by apply elem_of_list_to_map. Qed.

End umap.

#[export] Hint Resolve umap_update_wf umap_for_each_wf umap_erase_wf
  umap_try_emplace_wf filter_wf : drocm.
