(* ===== verification/ErrorCodes.v ===== *)
(** * Error codes and results (src/core/error_codes.h)

    [ErrorCode] is an [enum class : int], so an object of that type can hold
    any [int]: the enumerators are named values ([code_value]) and the printing
    function is defined on the underlying integer with its [default] branch. *)

From Stdlib Require Import ZArith Lia.
From stdpp Require Import prelude strings.
From S2P Require Import Prelude.

Inductive ErrorCode :=
  | OK
  | INVALID_ARGUMENT
  | NODE_NOT_FOUND
  | NODE_ALREADY_EXISTS
  | SESSION_EXPIRED
  | SERVICE_UNAVAILABLE
  | RATE_LIMITED
  | INTERNAL_ERROR
  | TABLE_FULL
  | SERIALIZATION_FAILED.

#[global] Instance ErrorCode_eq_dec : EqDecision ErrorCode.
Proof. solve_decision. Defined.

(** The enumerators' values. *)
Definition code_value (c : ErrorCode) : Z :=
  match c with
  | OK => 0
  | INVALID_ARGUMENT => 1001
  | NODE_NOT_FOUND => 1002
  | NODE_ALREADY_EXISTS => 1003
  | SESSION_EXPIRED => 1004
  | SERVICE_UNAVAILABLE => 1005
  | RATE_LIMITED => 1006
  | INTERNAL_ERROR => 2001
  | TABLE_FULL => 2002
  | SERIALIZATION_FAILED => 2003
  end.

Definition all_codes : list ErrorCode :=
  [OK; INVALID_ARGUMENT; NODE_NOT_FOUND; NODE_ALREADY_EXISTS; SESSION_EXPIRED;
   SERVICE_UNAVAILABLE; RATE_LIMITED; INTERNAL_ERROR; TABLE_FULL;
   SERIALIZATION_FAILED].

(** The [switch] on an [ErrorCode] object whose underlying value is [code]. *)
Definition error_code_to_string (code : Z) : string :=
  if (code =? code_value OK)%Z then "OK"
  else if (code =? code_value INVALID_ARGUMENT)%Z then "Invalid argument"
  else if (code =? code_value NODE_NOT_FOUND)%Z then "Node not found"
  else if (code =? code_value NODE_ALREADY_EXISTS)%Z then "Node already registered"
  else if (code =? code_value SESSION_EXPIRED)%Z then "Session expired"
  else if (code =? code_value SERVICE_UNAVAILABLE)%Z then "Service unavailable"
  else if (code =? code_value RATE_LIMITED)%Z then "Rate limited"
  else if (code =? code_value INTERNAL_ERROR)%Z then "Internal error"
  else if (code =? code_value TABLE_FULL)%Z then "Node table full"
  else if (code =? code_value SERIALIZATION_FAILED)%Z then "Serialization failed"
  else "Unknown error".

(** [Result<T>]: no exceptions, a code, a value and a message.  [default] is
    the value-initialised [T{}] of the error constructor. *)
Module Result.

Record t (T : Type) := mk { code : ErrorCode; value : T; message : string }.
Arguments mk {T}.
Arguments code {T}.
Arguments value {T}.
Arguments message {T}.

Definition ok {T} (val : T) (msg : string) : t T := mk OK val msg.

Definition error {T} (default : T) (c : ErrorCode) (msg : string) : t T :=
  mk c default msg.

Definition is_ok {T} (r : t T) : bool := bool_decide (code r = OK).

(** [Result<void>] carries no value. *)
Definition ok_void (msg : string) : t unit := mk OK tt msg.

Definition error_void (c : ErrorCode) (msg : string) : t unit := mk c tt msg.

End Result.

Lemma all_codes_complete c : c ∈ all_codes.
Proof. apply (bool_decide_unpack _). by destruct c. Qed.

#[global] Instance code_value_inj : Inj (=) (=) code_value.
Proof. intros [] []; by vm_compute. Qed.

(** A table of the enumerators: what is printed determines the enumerator. *)
Fixpoint code_of_string (l : list ErrorCode) (s : string) : option ErrorCode :=
  match l with
  | [] => None
  | c :: l' =>
      if decide (error_code_to_string (code_value c) = s) then Some c
      else code_of_string l' s
  end.

(** Every enumerator's description is its own: reading the description
    back through the table of enumerators gives the code, and no enumerator
    prints as the description reserved for values outside the enumeration. *)
Theorem error_code_string_roundtrip c :
  code_of_string all_codes (error_code_to_string (code_value c)) = Some c
  ∧ error_code_to_string (code_value c) ≠ "Unknown error".
Proof. by destruct c. Qed.

(** The [default] branch is taken exactly on the integers that are not
    the value of an enumerator. *)
Theorem error_code_default z :
  error_code_to_string z = "Unknown error" ↔ ∀ c, z ≠ code_value c.
Proof.
  unfold error_code_to_string. split.
  - intros Hs c ->. by destruct c.
  - intros Hz. repeat (case_match; reflect_Z; [by edestruct Hz|]). done.
Qed.
