(* ===== verification/Grpc.v ===== *)
(** * The gRPC interface the sources rely on

    gRPC is a third-party library: its [grpc::Status] and its unary call are
    parameters of the model, given by type classes.  The laws are the documented
    behaviour the sources rely on:
    - [Status::OK] is ok and a status built from an error code is not;
    - a unary call that ends with an ok status carries the server's response,
      and one that ends with a non-ok status (an error the handler returned, or
      one the library raised: unreachable peer, deadline) carries no response
      message, so the caller's response object keeps its initial contents. *)

From Stdlib Require Import ZArith.
From stdpp Require Import prelude strings.
From S2P Require Import Prelude.

(** The enumerators of [grpc::StatusCode] that the sources name. *)
Inductive StatusCode :=
  | CANCELLED
  | INVALID_ARGUMENT
  | DEADLINE_EXCEEDED
  | NOT_FOUND
  | ALREADY_EXISTS
  | UNAVAILABLE.

#[global] Instance StatusCode_eq_dec : EqDecision StatusCode.
Proof. solve_decision. Defined.

Class GrpcStatus := {
  Status : Type;
  Status_OK : Status;
  mkStatus : StatusCode → string → Status;
  status_ok : Status → bool;
}.

Class GrpcStatusLaws `(G : GrpcStatus) : Prop := {
  status_ok_OK : status_ok Status_OK = true;
  status_ok_error c msg : status_ok (mkStatus c msg) = false;
}.

#[export] Hint Rewrite @status_ok_OK @status_ok_error using typeclasses eauto : drocm.

(** What the caller of a blocking unary call holds afterwards, given what the
    handler returned ([None]: the call never reached a handler) and the response
    object the caller passed in. *)
Class UnaryCall `(G : GrpcStatus) := {
  unary_call {Resp : Type} : option (Status * Resp) → Resp → Status * Resp;
}.

Class UnaryCallLaws `(U : UnaryCall) : Prop := {
  unary_call_ok {Resp} st (r init : Resp) :
    status_ok st = true → unary_call (Some (st, r)) init = (st, r);
  unary_call_error {Resp} st (r init : Resp) :
    status_ok st = false → unary_call (Some (st, r)) init = (st, init);
  unary_call_unreachable {Resp} (init : Resp) :
    status_ok (unary_call None init).1 = false ∧ (unary_call None init).2 = init;
}.

(** ** A concrete instance, for evaluating the model on examples *)

Definition concrete_status : GrpcStatus := {|
  Status := option (StatusCode * string);
  Status_OK := None;
  mkStatus c msg := Some (c, msg);
  status_ok st := match st with None => true | Some _ => false end;
|}.

Lemma concrete_status_laws : GrpcStatusLaws concrete_status.
Proof. by split. Qed.

Definition concrete_call : UnaryCall concrete_status := {|
  unary_call Resp reply init :=
    match reply with
    | Some (st, r) => if status_ok st then (st, r) else (st, init)
    | None => (mkStatus UNAVAILABLE "failed to connect to all addresses", init)
    end;
|}.

Lemma concrete_call_laws : UnaryCallLaws concrete_call.
Proof. split; [by intros ? [] | by intros ? [] | done]. Qed.
