(* ===== verification/Messages.v ===== *)
(** * Protocol messages (proto/common.proto, registry.proto, node.proto)

    One Record per message, one field per proto field, in its order.  Proto3
    scalars have the default of their type ([empty] is the default instance); a
    field of message type has presence and is an [option].  [float] and
    [double] fields are only carried around by the messages: their values are
    Stdlib's [spec_float].  A setter per field that the sources assign; an integer
    argument is converted to the field's type.

    [typed] says of a message, and of what the registry stores, that every field
    holds a value of its C++ type; RpcTypes.v proves that of all that the programs
    send. *)

From Stdlib Require Import ZArith SpecFloat.
From stdpp Require Import prelude strings.
From S2P Require Import Prelude.

Abbreviation float32 := spec_float.
Abbreviation double := spec_float.

#[global] Instance spec_float_eq_dec : EqDecision spec_float.
Proof. solve_decision. Defined.

Definition float_zero : spec_float := S754_zero false.

(** A [float] literal whose value is an integer. *)
Definition float_of_Z (n : Z) : float32 := binary_normalize 24 128 n 0 false.

(** A reverse application, so that a handler's writes to a response read in the
    order of the code. *)
Notation "x '|>' f" := (f x) (at level 66, f at next level,
  left associativity, only parsing) : drocm_scope.

(** ** Values of their types

    A [Z] of a field is a value of the field's type when it is in its range, a
    [spec_float] when it has a canonical representation in the format. *)

Class Typed (A : Type) := typed : A → Prop.

Definition is_float32 (f : float32) : Prop := valid_binary 24 128 f = true.
Definition is_double (f : double) : Prop := valid_binary 53 1024 f = true.

#[global] Instance option_typed `{Typed A} : Typed (option A) := from_option typed True.
#[global] Instance list_typed `{Typed A} : Typed (list A) := Forall typed.

Lemma typed_nil `{Typed A} : typed (@nil A).
Proof. apply Forall_nil_2. Qed.

Lemma typed_cons `{Typed A} (x : A) l : typed x → typed l → typed (x :: l).
Proof. apply Forall_cons_2. Qed.

Lemma typed_app `{Typed A} (l1 l2 : list A) : typed l1 → typed l2 → typed (l1 ++ l2).
Proof. apply Forall_app_2. Qed.

#[export] Hint Resolve typed_nil typed_cons typed_app : drocm.

(** ** common.proto *)

Module Vector3.
Record t := mk { x : double; y : double; z : double }.
#[global] Instance t_typed : Typed t :=
  λ r, is_double (x r) ∧ is_double (y r) ∧ is_double (z r).
End Vector3.

Module NodeInfo.
Record t := mk {
  node_id : string;
  ip_address : string;
  port : Z;
  services : list string;
  startup_timestamp : Z;
}.
Definition empty : t := mk "" "" 0 [] 0.
Definition set_node_id v (r : t) : t :=
  mk v (ip_address r) (port r) (services r) (startup_timestamp r).
Definition set_ip_address v (r : t) : t :=
  mk (node_id r) v (port r) (services r) (startup_timestamp r).
Definition set_port v (r : t) : t :=
  mk (node_id r) (ip_address r) (wrap_u32 v) (services r) (startup_timestamp r).
Definition add_services v (r : t) : t :=
  mk (node_id r) (ip_address r) (port r) (services r ++ [v]) (startup_timestamp r).
#[global] Instance t_eq_dec : EqDecision t.
Proof. solve_decision. Defined.
#[global] Instance t_typed : Typed t :=
  λ r, in_u32 (port r) ∧ in_u64 (startup_timestamp r).
End NodeInfo.

Module Pose2D.
Record t := mk { x : double; y : double; theta : double }.
#[global] Instance t_typed : Typed t :=
  λ r, is_double (x r) ∧ is_double (y r) ∧ is_double (theta r).
End Pose2D.

Module Pose3D.
Record t := mk {
  position : option Vector3.t;
  orientation_w : double;
  orientation_x : double;
  orientation_y : double;
  orientation_z : double;
}.
#[global] Instance t_typed : Typed t :=
  λ r, typed (position r) ∧ is_double (orientation_w r) ∧ is_double (orientation_x r)
       ∧ is_double (orientation_y r) ∧ is_double (orientation_z r).
End Pose3D.

Module RobotStatus.
Record t := mk {
  timestamp : Z;
  pose : option Pose2D.t;
  battery_level : float32;
  velocity_linear : float32;
  velocity_angular : float32;
  is_emergency : bool;
  error_code : Z;
}.
#[global] Instance t_typed : Typed t :=
  λ r, in_u64 (timestamp r) ∧ typed (pose r) ∧ is_float32 (battery_level r)
       ∧ is_float32 (velocity_linear r) ∧ is_float32 (velocity_angular r)
       ∧ in_u32 (error_code r).
End RobotStatus.

Module VelocityCommand.
Record t := mk { linear_velocity : float32; angular_velocity : float32 }.
#[global] Instance t_typed : Typed t :=
  λ r, is_float32 (linear_velocity r) ∧ is_float32 (angular_velocity r).
End VelocityCommand.

Module PoseCommand.
Record t := mk {
  target_pose : option Pose2D.t;
  max_velocity : float32;
  tolerance : float32;
}.
#[global] Instance t_typed : Typed t :=
  λ r, typed (target_pose r) ∧ is_float32 (max_velocity r) ∧ is_float32 (tolerance r).
End PoseCommand.

Module StopCommand.
Record t := mk { emergency : bool }.
#[global] Instance t_typed : Typed t := λ _, True.
End StopCommand.

Module RobotCommand.
(** The [oneof]: at most one of the three is present. *)
Inductive command_type :=
  | velocity (c : VelocityCommand.t)
  | pose_target (c : PoseCommand.t)
  | stop (c : StopCommand.t).
#[global] Instance command_type_typed : Typed command_type :=
  λ c, match c with velocity c => typed c | pose_target c => typed c | stop c => typed c end.
Record t := mk {
  timestamp : Z;
  command_id : string;
  command : option command_type;
}.
#[global] Instance t_typed : Typed t :=
  λ r, in_u64 (timestamp r) ∧ typed (command r).
End RobotCommand.

Module CommandResult.
Record t := mk {
  command_id : string;
  success : bool;
  error_message : string;
  execution_time : Z;
}.
#[global] Instance t_typed : Typed t :=
  λ r, in_u64 (execution_time r).
End CommandResult.

(** ** registry.proto *)

Module RegisterRequest.
Record t := mk {
  node_info : option NodeInfo.t;
  cpu_usage : float32;
  memory_usage : float32;
}.
Definition empty : t := mk None float_zero float_zero.
Definition has_node_info (r : t) : bool :=
  match node_info r with Some _ => true | None => false end.
(** [node_info()] of an absent field is the default instance. *)
Definition get_node_info (r : t) : NodeInfo.t := default NodeInfo.empty (node_info r).
Definition set_node_info v (r : t) : t := mk (Some v) (cpu_usage r) (memory_usage r).
#[global] Instance t_typed : Typed t :=
  λ r, typed (node_info r) ∧ is_float32 (cpu_usage r) ∧ is_float32 (memory_usage r).
End RegisterRequest.

Module RegisterResponse.
Record t := mk {
  success : bool;
  session_id : string;
  heartbeat_interval : Z;
  error_message : string;
}.
Definition empty : t := mk false "" 0 "".
Definition set_success v (r : t) : t :=
  mk v (session_id r) (heartbeat_interval r) (error_message r).
Definition set_session_id v (r : t) : t :=
  mk (success r) v (heartbeat_interval r) (error_message r).
Definition set_heartbeat_interval v (r : t) : t :=
  mk (success r) (session_id r) (wrap_u32 v) (error_message r).
Definition set_error_message v (r : t) : t :=
  mk (success r) (session_id r) (heartbeat_interval r) v.
#[global] Instance t_typed : Typed t :=
  λ r, in_u32 (heartbeat_interval r).
End RegisterResponse.

Module HeartbeatRequest.
Record t := mk {
  node_id : string;
  session_id : string;
  timestamp : Z;
  cpu_usage : float32;
  memory_usage : float32;
  active_connections : Z;
}.
Definition empty : t := mk "" "" 0 float_zero float_zero 0.
Definition set_node_id v (r : t) : t :=
  mk v (session_id r) (timestamp r) (cpu_usage r) (memory_usage r) (active_connections r).
Definition set_session_id v (r : t) : t :=
  mk (node_id r) v (timestamp r) (cpu_usage r) (memory_usage r) (active_connections r).
Definition set_timestamp v (r : t) : t :=
  mk (node_id r) (session_id r) (wrap_u64 v) (cpu_usage r) (memory_usage r)
     (active_connections r).
Definition set_cpu_usage v (r : t) : t :=
  mk (node_id r) (session_id r) (timestamp r) v (memory_usage r) (active_connections r).
Definition set_memory_usage v (r : t) : t :=
  mk (node_id r) (session_id r) (timestamp r) (cpu_usage r) v (active_connections r).
Definition set_active_connections v (r : t) : t :=
  mk (node_id r) (session_id r) (timestamp r) (cpu_usage r) (memory_usage r) (wrap_u32 v).
#[global] Instance t_typed : Typed t :=
  λ r, in_u64 (timestamp r) ∧ is_float32 (cpu_usage r) ∧ is_float32 (memory_usage r)
       ∧ in_u32 (active_connections r).
End HeartbeatRequest.

Module HeartbeatResponse.
Record t := mk {
  success : bool;
  missed_heartbeats : Z;
  should_reconnect : bool;
}.
Definition empty : t := mk false 0 false.
Definition set_success v (r : t) : t := mk v (missed_heartbeats r) (should_reconnect r).
Definition set_missed_heartbeats v (r : t) : t :=
  mk (success r) (wrap_u32 v) (should_reconnect r).
Definition set_should_reconnect v (r : t) : t := mk (success r) (missed_heartbeats r) v.
#[global] Instance t_typed : Typed t :=
  λ r, in_u32 (missed_heartbeats r).
End HeartbeatResponse.

Module DeregisterRequest.
Record t := mk { node_id : string; session_id : string; reason : string }.
Definition empty : t := mk "" "" "".
Definition set_node_id v (r : t) : t := mk v (session_id r) (reason r).
#[global] Instance t_typed : Typed t :=
  λ _, True.
End DeregisterRequest.

Module DeregisterResponse.
Record t := mk { success : bool; message : string }.
Definition empty : t := mk false "".
Definition set_success v (r : t) : t := mk v (message r).
Definition set_message v (r : t) : t := mk (success r) v.
#[global] Instance t_typed : Typed t :=
  λ _, True.
End DeregisterResponse.

Module DiscoverRequest.
Record t := mk { service_filter : list string }.
#[global] Instance t_typed : Typed t :=
  λ _, True.
End DiscoverRequest.

Module DiscoverResponse.
Record t := mk { nodes : list NodeInfo.t }.
Definition empty : t := mk [].
(** [add_nodes()->CopyFrom(info)] *)
Definition add_nodes v (r : t) : t := mk (nodes r ++ [v]).
#[global] Instance t_typed : Typed t :=
  λ r, typed (nodes r).
End DiscoverResponse.

(** ** node.proto *)

Module GetStatusRequest.
Record t := mk { requester_id : string; timestamp : Z }.
#[global] Instance t_typed : Typed t :=
  λ r, in_u64 (timestamp r).
End GetStatusRequest.

Module GetStatusResponse.
Record t := mk { status : option RobotStatus.t; response_time : Z }.
Definition empty : t := mk None 0.
Definition set_response_time v (r : t) : t := mk (status r) (wrap_u64 v).
#[global] Instance t_typed : Typed t :=
  λ r, typed (status r) ∧ in_u64 (response_time r).
End GetStatusResponse.

Module SubscribeRequest.
Record t := mk { subscriber_id : string; topic : string; qos : Z }.
#[global] Instance t_typed : Typed t :=
  λ r, in_u32 (qos r).
End SubscribeRequest.

Module TopicData.
Record t := mk {
  topic : string;
  timestamp : Z;
  payload : string;
  payload_type : string;
}.
Definition empty : t := mk "" 0 "" "".
(** [Clear()] restores the default instance. *)
Definition Clear (r : t) : t := empty.
Definition set_topic v (r : t) : t := mk v (timestamp r) (payload r) (payload_type r).
Definition set_timestamp v (r : t) : t := mk (topic r) (wrap_u64 v) (payload r) (payload_type r).
Definition set_payload v (r : t) : t := mk (topic r) (timestamp r) v (payload_type r).
Definition set_payload_type v (r : t) : t := mk (topic r) (timestamp r) (payload r) v.
#[global] Instance t_typed : Typed t :=
  λ r, in_u64 (timestamp r).
End TopicData.

Module ControlStreamRequest.
Record t := mk {
  controller_id : string;
  session_id : string;
  command : option RobotCommand.t;
}.
#[global] Instance t_typed : Typed t :=
  λ r, typed (command r).
End ControlStreamRequest.

Module ControlStreamResponse.
Record t := mk { session_id : string; result : option CommandResult.t }.
Definition empty : t := mk "" None.
Definition set_session_id v (r : t) : t := mk v (result r).
#[global] Instance t_typed : Typed t :=
  λ r, typed (result r).
End ControlStreamResponse.
