(* ===== verification/NodeDir.v ===== *)
(** * Node directories: entries, the abstract directory, the interface

    [NodeEntry] is the data of src/registry/node_table.h.  [Directory] is the
    abstract specification of the registry's node table: a finite map from node
    id to entry.  The class [NodeDirectory] is what the table promises to its
    clients (the registry service and the health checker): its operations and,
    for each, the step of the abstract directory it performs.  Table.v discharges
    it for the C++ class; Registry.v and Health.v are proved against it. *)

From Stdlib Require Import ZArith Lia.
From stdpp Require Import prelude gmap strings list.
From S2P Require Import Prelude Messages.

Local Open Scope drocm_scope.

(** Metadata of one registered node. *)
Module NodeEntry.

Record t := mk {
  info : NodeInfo.t;
  session_id : string;
  last_heartbeat : Z;
  missed_heartbeats : Z;
  cpu_usage : float32;
  memory_usage : float32;
}.

#[global] Instance t_eq_dec : EqDecision t.
Proof. solve_decision. Defined.

(** The entry [register_node] creates. *)
Definition fresh (info : NodeInfo.t) (session_id : string) (now : Z) : t :=
  mk info session_id now 0 float_zero float_zero.

(** What [update_heartbeat] writes to an entry. *)
Definition refresh (cpu_usage memory_usage : float32) (now : Z) (e : t) : t :=
  mk (info e) (session_id e) now 0 cpu_usage memory_usage.

(** [entry.missed_heartbeats++] on a [uint32_t]. *)
Definition miss (e : t) : t :=
  mk (info e) (session_id e) (last_heartbeat e) (missed_heartbeats e +u32 1)
     (cpu_usage e) (memory_usage e).

End NodeEntry.

(** ** The abstract directory *)

Module Directory.

Abbreviation t := (gmap string NodeEntry.t).

(** A node is added when there is room and its id is free. *)
Definition accepts (capacity : Z) (id : string) (d : t) : Prop :=
  (Z.of_nat (size d) < capacity)%Z ∧ d !! id = None.

#[global] Instance accepts_dec capacity id d : Decision (accepts capacity id d).
Proof. apply _. Defined.

Definition register (capacity : Z) (info : NodeInfo.t) (sid : string) (now : Z)
    (d : t) : bool * t :=
  let id := NodeInfo.node_id info in
  if decide (accepts capacity id d)
  then (true, <[id := NodeEntry.fresh info sid now]> d) else (false, d).

Definition known (id : string) (d : t) : bool := bool_decide (is_Some (d !! id)).

Definition deregister (id : string) (d : t) : bool * t := (known id d, delete id d).

Definition heartbeat (id : string) (cpu mem : float32) (now : Z) (d : t) : bool * t :=
  (known id d, alter (NodeEntry.refresh cpu mem now) id d).

Definition tick (d : t) : t := NodeEntry.miss <$> d.

(** Entries at or above the threshold are stale. *)
Definition is_stale (threshold : Z) (kv : string * NodeEntry.t) : Prop :=
  (threshold ≤ NodeEntry.missed_heartbeats kv.2)%Z.

#[global] Instance is_stale_dec threshold kv : Decision (is_stale threshold kv).
Proof. apply Z_le_dec. Defined.

Definition sweep (threshold : Z) (d : t) : t := filter (λ kv, ¬ is_stale threshold kv) d.

Definition stale_ids (threshold : Z) (d : t) : gset string :=
  dom (filter (is_stale threshold) d).

(** The entries a query returns: no missed heartbeat, and a service in common
    with the filter unless the filter is empty. *)
Definition healthy (filter : list string) (e : NodeEntry.t) : Prop :=
  NodeEntry.missed_heartbeats e = 0%Z
  ∧ (filter = [] ∨ Exists (λ s, s ∈ filter) (NodeInfo.services (NodeEntry.info e))).

#[global] Instance healthy_dec filter e : Decision (healthy filter e).
Proof. apply _. Defined.

End Directory.

(** ** The interface *)

Class NodeDirectory (T : Type) := {
  new_directory : Z → T;
  register_node : NodeInfo.t → string → Z → T → bool * T;
  deregister_node : string → T → bool * T;
  update_heartbeat : string → float32 → float32 → Z → Z → T → bool * T;
  get_all_nodes : T → list NodeEntry.t;
  get_nodes_by_service : list string → T → list NodeEntry.t;
  get_node : string → T → option NodeEntry.t;
  get_node_count : T → Z;
  has_node : string → T → bool;
  remove_stale_nodes : Z → T → list string * T;
  increment_all_missed_heartbeats : T → T;

  dir_abs : T → Directory.t;
  dir_wf : T → Prop;
  dir_capacity : T → Z;
}.

(** One operation of the table against one step of the abstract directory: same
    answer, related final states, invariant and capacity kept. *)
Definition refines `{NodeDirectory T} {A} (op : T → A * T)
    (spec : Z → Directory.t → A * Directory.t) : Prop :=
  ∀ tb, dir_wf tb →
    spec (dir_capacity tb) (dir_abs tb) = ((op tb).1, dir_abs (op tb).2)
    ∧ dir_wf (op tb).2 ∧ dir_capacity (op tb).2 = dir_capacity tb.

Class NodeDirectoryLaws (T : Type) `{NodeDirectory T} : Prop := {
  new_directory_spec max_nodes :
    in_u32 max_nodes →
    dir_wf (new_directory max_nodes) ∧ dir_abs (new_directory max_nodes) = ∅
    ∧ dir_capacity (new_directory max_nodes) = max_nodes;
  register_node_refines info sid now :
    refines (register_node info sid now) (λ cap, Directory.register cap info sid now);
  deregister_node_refines id :
    refines (deregister_node id) (λ _, Directory.deregister id);
  update_heartbeat_refines id cpu mem conns now :
    refines (update_heartbeat id cpu mem conns now)
            (λ _, Directory.heartbeat id cpu mem now);
  increment_refines :
    refines (λ tb, (tt, increment_all_missed_heartbeats tb))
            (λ _ d, (tt, Directory.tick d));
  remove_stale_refines threshold :
    refines (λ tb, (tt, (remove_stale_nodes threshold tb).2))
            (λ _ d, (tt, Directory.sweep threshold d));
  remove_stale_removed threshold tb :
    dir_wf tb →
    (remove_stale_nodes threshold tb).1
      ≡ₚ elements (Directory.stale_ids threshold (dir_abs tb));
  get_all_nodes_spec tb :
    dir_wf tb → get_all_nodes tb ≡ₚ (map_to_list (dir_abs tb)).*2;
  get_nodes_by_service_spec filter tb :
    dir_wf tb →
    get_nodes_by_service filter tb
      ≡ₚ base.filter (Directory.healthy filter) (map_to_list (dir_abs tb)).*2;
  get_node_spec id tb : dir_wf tb → get_node id tb = dir_abs tb !! id;
  get_node_count_spec tb :
    dir_wf tb → get_node_count tb = Z.of_nat (size (dir_abs tb));
  has_node_spec id tb : dir_wf tb → has_node id tb = Directory.known id (dir_abs tb);
  dir_wf_capacity tb :
    dir_wf tb → (Z.of_nat (size (dir_abs tb)) ≤ dir_capacity tb)%Z
                ∧ in_u32 (dir_capacity tb);
  dir_wf_entry tb id e :
    dir_wf tb → dir_abs tb !! id = Some e →
    NodeInfo.node_id (NodeEntry.info e) = id ∧ in_u32 (NodeEntry.missed_heartbeats e);
}.

(** ** Histories of operations

    A history is a sequence of operations on one table.  Each member function
    runs under the table's mutex, so every interleaving of threads is one. *)

Inductive table_op :=
  | OpRegister (info : NodeInfo.t) (session_id : string) (now : Z)
  | OpDeregister (id : string)
  | OpHeartbeat (id : string) (cpu mem : float32) (conns now : Z)
  | OpIncrement
  | OpRemoveStale (threshold : Z)
  | OpDiscover (filter : list string)
  | OpAllNodes
  | OpNode (id : string)
  | OpCount
  | OpHas (id : string).

Inductive table_reply :=
  | RFlag (b : bool)
  | RUnit
  | RRemoved (ids : list string)
  | RNodes (entries : list NodeEntry.t)
  | REntry (entry : option NodeEntry.t)
  | RCount (n : Z).

(** Lists in replies are compared up to order. *)
Inductive reply_equiv : table_reply → table_reply → Prop :=
  | reply_flag b : reply_equiv (RFlag b) (RFlag b)
  | reply_unit : reply_equiv RUnit RUnit
  | reply_removed l1 l2 : l1 ≡ₚ l2 → reply_equiv (RRemoved l1) (RRemoved l2)
  | reply_nodes l1 l2 : l1 ≡ₚ l2 → reply_equiv (RNodes l1) (RNodes l2)
  | reply_entry e : reply_equiv (REntry e) (REntry e)
  | reply_count n : reply_equiv (RCount n) (RCount n).

Definition on_reply {A B S} (f : A → B) (r : A * S) : B * S := (f r.1, r.2).

Definition exec `{NodeDirectory T} (op : table_op) (tb : T) : table_reply * T :=
  match op with
  | OpRegister info sid now => on_reply RFlag (register_node info sid now tb)
  | OpDeregister id => on_reply RFlag (deregister_node id tb)
  | OpHeartbeat id cpu mem conns now =>
      on_reply RFlag (update_heartbeat id cpu mem conns now tb)
  | OpIncrement => (RUnit, increment_all_missed_heartbeats tb)
  | OpRemoveStale threshold => on_reply RRemoved (remove_stale_nodes threshold tb)
  | OpDiscover filter => (RNodes (get_nodes_by_service filter tb), tb)
  | OpAllNodes => (RNodes (get_all_nodes tb), tb)
  | OpNode id => (REntry (get_node id tb), tb)
  | OpCount => (RCount (get_node_count tb), tb)
  | OpHas id => (RFlag (has_node id tb), tb)
  end.

Definition dir_exec (cap : Z) (op : table_op) (d : Directory.t) :
    table_reply * Directory.t :=
  match op with
  | OpRegister info sid now => on_reply RFlag (Directory.register cap info sid now d)
  | OpDeregister id => on_reply RFlag (Directory.deregister id d)
  | OpHeartbeat id cpu mem _ now => on_reply RFlag (Directory.heartbeat id cpu mem now d)
  | OpIncrement => (RUnit, Directory.tick d)
  | OpRemoveStale threshold =>
      (RRemoved (elements (Directory.stale_ids threshold d)), Directory.sweep threshold d)
  | OpDiscover f =>
      (RNodes (filter (Directory.healthy f) (map_to_list d).*2), d)
  | OpAllNodes => (RNodes (map_to_list d).*2, d)
  | OpNode id => (REntry (d !! id), d)
  | OpCount => (RCount (Z.of_nat (size d)), d)
  | OpHas id => (RFlag (Directory.known id d), d)
  end.

(** Running a history, collecting the replies. *)
Fixpoint run_with {S} (step : table_op → S → table_reply * S)
    (ops : list table_op) (s : S) : list table_reply * S :=
  match ops with
  | [] => ([], s)
  | op :: ops' =>
      let '(r, s1) := step op s in
      let '(rs, s2) := run_with step ops' s1 in (r :: rs, s2)
  end.

Section histories.
  Context {T} `{NodeDirectoryLaws T}.

Lemma exec_refines op (tb : T) :
  dir_wf tb →
  let '(r, tb') := exec op tb in
  let '(r', d') := dir_exec (dir_capacity tb) op (dir_abs tb) in
  reply_equiv r r' ∧ dir_abs tb' = d' ∧ dir_wf tb' ∧ dir_capacity tb' = dir_capacity tb.
Proof.
  intros Hwf. destruct op; unfold exec, dir_exec, on_reply.
  - destruct (register_node_refines info session_id now tb Hwf) as (Hs & ? & ?).
    cbv beta in Hs. rewrite Hs. split_and!; [constructor|done..].
  - destruct (deregister_node_refines id tb Hwf) as (Hs & ? & ?).
    cbv beta in Hs. rewrite Hs. split_and!; [constructor|done..].
  - destruct (update_heartbeat_refines id cpu mem conns now tb Hwf) as (Hs & ? & ?).
    cbv beta in Hs. rewrite Hs. split_and!; [constructor|done..].
  - destruct (increment_refines tb Hwf) as ([= <-] & ? & ?).
    split_and!; [constructor|done..].
  - destruct (remove_stale_refines threshold tb Hwf) as ([= <-] & ? & ?).
    split_and!; [|done..]. constructor. by apply remove_stale_removed.
  - split_and!; [|done..]. constructor. by apply get_nodes_by_service_spec.
  - split_and!; [|done..]. constructor. by apply get_all_nodes_spec.
  - rewrite get_node_spec by done. split_and!; [constructor|done..].
  - rewrite get_node_count_spec by done. split_and!; [constructor|done..].
  - rewrite has_node_spec by done. split_and!; [constructor|done..].
Qed.

Lemma run_refines ops (tb : T) :
  dir_wf tb →
  Forall2 reply_equiv (run_with exec ops tb).1
    (run_with (dir_exec (dir_capacity tb)) ops (dir_abs tb)).1
  ∧ dir_abs (run_with exec ops tb).2
    = (run_with (dir_exec (dir_capacity tb)) ops (dir_abs tb)).2
  ∧ dir_wf (run_with exec ops tb).2
  ∧ dir_capacity (run_with exec ops tb).2 = dir_capacity tb.
Proof.
  revert tb. induction ops as [|op ops IH]; intros tb Hwf; simpl.
  - split_and!; [constructor|done..].
  - pose proof (exec_refines op tb Hwf) as Hop.
    destruct (exec op tb) as [r tb1].
    destruct (dir_exec (dir_capacity tb) op (dir_abs tb)) as [r' d'].
    destruct Hop as (Hr & <- & Hwf1 & Hcap1).
    destruct (IH tb1 Hwf1) as (Hrs & Habs & Hwf2 & Hcap2). rewrite Hcap1 in *.
    destruct (run_with exec ops tb1) as [rs tb2].
    destruct (run_with _ ops (dir_abs tb1)) as [rs' d2]. simpl in *.
    split_and!; [by constructor|done..].
Qed.

End histories.
