(* ===== verification/Table.v ===== *)
(** * The node table (src/registry/node_table.h, node_table.cpp)

    [Module NodeTable] is the class: its state, one definition per member
    function.  Each member function takes the class's mutex for its whole body
    ([unique_lock] for writers, [shared_lock] for readers), so here it is one
    atomic step on the state; TableLock.v has the lock and the accesses under it, and
    proves that this is what they amount to.  The clock
    reading [steady_clock::now()] is an argument of the functions that take one.
    The log statements have no effect on the state and are left out.

    The second half of the file relates the table to a directory: a finite map
    from node ids to entries ([abs]), under the invariant [wf]. *)

From Stdlib Require Import ZArith Lia.
From stdpp Require Import prelude gmap strings list.
From S2P Require Import Prelude UnorderedMap Messages NodeDir.

Local Open Scope drocm_scope.

Module NodeTable.

Record t := mk {
  nodes_ : umap NodeEntry.t;
  max_nodes_ : Z;
}.

(** The constructor. *)
Definition NodeTable (max_nodes : Z) : t := mk [] max_nodes.

Definition set_nodes (n : umap NodeEntry.t) (tb : t) : t := mk n (max_nodes_ tb).

Definition register_node `{!HashOrder NodeEntry.t} (info : NodeInfo.t)
    (session_id : string) (now : Z) (tb : t) : bool * t :=
  if (max_nodes_ tb <=? umap_size (nodes_ tb))%Z then (false, tb)
  else
    let '(inserted, n) :=
      umap_try_emplace (NodeInfo.node_id info) (NodeEntry.fresh info session_id now) (nodes_ tb) in
    if negb inserted then (false, set_nodes n tb) else (true, set_nodes n tb).

Definition deregister_node (node_id : string) (tb : t) : bool * t :=
  match umap_find node_id (nodes_ tb) with
  | None => (false, tb)
  | Some _ => (true, set_nodes (umap_erase node_id (nodes_ tb)) tb)
  end.

(** The [active_connections] argument is unnamed and unused in the source. *)
Definition update_heartbeat (node_id : string) (cpu_usage memory_usage : float32)
    (active_connections : Z) (now : Z) (tb : t) : bool * t :=
  match umap_find node_id (nodes_ tb) with
  | None => (false, tb)
  | Some _ =>
      (true, set_nodes (umap_update node_id
                          (NodeEntry.refresh cpu_usage memory_usage now) (nodes_ tb)) tb)
  end.

Definition get_all_nodes (tb : t) : list NodeEntry.t :=
  foldl (λ result '(_, entry), result ++ [entry]) [] (nodes_ tb).

(** The inner loop over the node's services: [std::find] in the filter, stop at
    the first hit. *)
Fixpoint provides_any (service_filter services : list string) : bool :=
  match services with
  | [] => false
  | svc :: rest =>
      if bool_decide (svc ∈ service_filter) then true
      else provides_any service_filter rest
  end.

(** The body of the outer loop: whether the entry is pushed to the result. *)
Definition selected (service_filter : list string) (entry : NodeEntry.t) : bool :=
  if (0 <? NodeEntry.missed_heartbeats entry)%Z then false
  else match service_filter with
       | [] => true
       | _ => provides_any service_filter (NodeInfo.services (NodeEntry.info entry))
       end.

Definition get_nodes_by_service (service_filter : list string) (tb : t) :
    list NodeEntry.t :=
  let candidates := foldl (λ c '(_, entry), c ++ [entry]) [] (nodes_ tb) in
  foldl (λ result entry,
           if selected service_filter entry then result ++ [entry] else result)
        [] candidates.

Definition get_node (node_id : string) (tb : t) : option NodeEntry.t :=
  umap_find node_id (nodes_ tb).

(** [static_cast<uint32_t>(nodes_.size())] *)
Definition get_node_count (tb : t) : Z := wrap_u32 (umap_size (nodes_ tb)).

Definition has_node (node_id : string) (tb : t) : bool :=
  umap_contains node_id (nodes_ tb).

Definition stale (max_missed_heartbeats : Z) (e : NodeEntry.t) : bool :=
  (max_missed_heartbeats <=? NodeEntry.missed_heartbeats e)%Z.

Definition remove_stale_nodes (max_missed_heartbeats : Z) (tb : t) : list string * t :=
  let '(removed, n) := umap_erase_if_loop (stale max_missed_heartbeats) (nodes_ tb) [] in
  (removed, set_nodes n tb).

Definition increment_all_missed_heartbeats (tb : t) : t :=
  set_nodes (umap_for_each NodeEntry.miss (nodes_ tb)) tb.

(** ** The directory a table represents *)

Definition abs (tb : t) : Directory.t := to_map (nodes_ tb).

Definition entry_wf (kv : string * NodeEntry.t) : Prop :=
  NodeInfo.node_id (NodeEntry.info kv.2) = kv.1
  ∧ in_u32 (NodeEntry.missed_heartbeats kv.2).

(** Keys are unique and are the ids of their entries, counters are [uint32_t]
    values and the table is within its capacity. *)
Record wf (tb : t) : Prop := {
  wf_keys : umap_wf (nodes_ tb);
  wf_entries : Forall entry_wf (nodes_ tb);
  wf_size : (umap_size (nodes_ tb) ≤ max_nodes_ tb)%Z;
  wf_max : in_u32 (max_nodes_ tb);
}.

Lemma NodeTable_wf max_nodes : in_u32 max_nodes → wf (NodeTable max_nodes).
Proof. split; simpl; try done; [constructor|apply H]. Qed.

Lemma abs_NodeTable max_nodes : abs (NodeTable max_nodes) = ∅.
Proof. done. Qed.

Lemma size_abs tb : wf tb → umap_size (nodes_ tb) = Z.of_nat (size (abs tb)).
Proof. intros. apply umap_size_to_map, wf_keys; done. Qed.

Lemma get_node_abs id tb : get_node id tb = abs tb !! id.
Proof. apply umap_find_to_map. Qed.

(** Replacing the container keeps the invariant when it keeps its parts. *)
Lemma set_nodes_wf n tb :
  wf tb → umap_wf n → Forall entry_wf n → (umap_size n ≤ max_nodes_ tb)%Z →
  wf (set_nodes n tb).
Proof. intros [] ???. by split. Qed.

(** ** register_node *)

Lemma register_node_full `{!HashOrder NodeEntry.t} info sid now tb :
  (max_nodes_ tb ≤ umap_size (nodes_ tb))%Z →
  register_node info sid now tb = (false, tb).
Proof. intros H. unfold register_node. apply Z.leb_le in H. by rewrite H. Qed.

Lemma register_node_dup `{!HashOrder NodeEntry.t} info sid now tb e :
  get_node (NodeInfo.node_id info) tb = Some e →
  register_node info sid now tb = (false, tb).
Proof.
  intros H. unfold register_node, get_node, umap_try_emplace in *. rewrite H.
  case_match; [done|]. by destruct tb.
Qed.

Lemma register_node_new `{!HashOrder NodeEntry.t} info sid now tb :
  (umap_size (nodes_ tb) < max_nodes_ tb)%Z →
  get_node (NodeInfo.node_id info) tb = None →
  register_node info sid now tb =
    (true, set_nodes (insert_order (NodeInfo.node_id info)
                        (NodeEntry.fresh info sid now) (nodes_ tb)) tb).
Proof.
  intros Hs H. unfold register_node, get_node, umap_try_emplace in *. rewrite H.
  by apply Z.leb_gt in Hs as ->.
Qed.

Lemma register_refines `{!HashOrder NodeEntry.t} info sid now tb :
  wf tb →
  Directory.register (max_nodes_ tb) info sid now (abs tb)
    = ((register_node info sid now tb).1, abs (register_node info sid now tb).2)
  ∧ wf (register_node info sid now tb).2
  ∧ max_nodes_ (register_node info sid now tb).2 = max_nodes_ tb.
Proof.
  intros Hwf. pose proof (size_abs tb Hwf) as Hsize. unfold Directory.register.
  case_decide as Hacc.
  - destruct Hacc as [Hlt Hnone]. rewrite <-Hsize in Hlt.
    rewrite <-get_node_abs in Hnone.
    rewrite register_node_new by done. simpl. split_and!; [|apply set_nodes_wf; try done|done].
    + unfold abs. simpl. rewrite to_map_insert_order by (done || by apply wf_keys). done.
    + apply umap_insert_order_wf; [done|by apply wf_keys].
    + rewrite insert_order_perm. constructor; [|by apply wf_entries].
      split; [done|]. unfold in_u32. simpl. lia.
    + rewrite insert_order_perm. unfold umap_size in *. simpl. lia.
  - assert (register_node info sid now tb = (false, tb)) as ->; [|done].
    destruct (get_node (NodeInfo.node_id info) tb) as [e|] eqn:Hget.
    + by eapply register_node_dup.
    + apply register_node_full. apply Z.nlt_ge. intros Hlt. apply Hacc.
      split; [by rewrite <-Hsize|]. by rewrite <-get_node_abs.
Qed.

(** ** deregister_node *)

Lemma erase_entries k m : Forall entry_wf m → Forall entry_wf (umap_erase k m).
Proof.
  induction 1 as [|[k' e] m He Hm IH]; simpl; [done|]. case_decide; [done|by constructor].
Qed.

Lemma erase_size k (m : umap NodeEntry.t) : (umap_size (umap_erase k m) ≤ umap_size m)%Z.
Proof.
  unfold umap_size. induction m as [|[k' e] m IH]; simpl; [done|].
  case_decide; simpl; lia.
Qed.

Lemma deregister_refines id tb :
  wf tb →
  Directory.deregister id (abs tb)
    = ((deregister_node id tb).1, abs (deregister_node id tb).2)
  ∧ wf (deregister_node id tb).2
  ∧ max_nodes_ (deregister_node id tb).2 = max_nodes_ tb.
Proof.
  intros Hwf. unfold Directory.deregister, Directory.known, deregister_node.
  fold (get_node id tb). rewrite get_node_abs. destruct (abs tb !! id) eqn:Hid.
  - rewrite bool_decide_eq_true_2 by done. simpl. split_and!; [|apply set_nodes_wf|]; try done.
    + unfold abs. simpl. rewrite to_map_erase by (by apply wf_keys). done.
    + apply umap_erase_wf, wf_keys. done.
    + apply erase_entries, wf_entries. done.
    + pose proof (erase_size id (nodes_ tb)). pose proof (wf_size tb Hwf). lia.
  - rewrite bool_decide_eq_false_2 by (by intros []). by rewrite delete_id.
Qed.

(** ** Updates in place *)

Definition keeps_id (f : NodeEntry.t → NodeEntry.t) : Prop :=
  ∀ e, NodeEntry.info (f e) = NodeEntry.info e
       ∧ (in_u32 (NodeEntry.missed_heartbeats e) → in_u32 (NodeEntry.missed_heartbeats (f e))).

Lemma refresh_keeps_id cpu mem now : keeps_id (NodeEntry.refresh cpu mem now).
Proof. intros e. split; [done|]. unfold in_u32. simpl. lia. Qed.

Lemma miss_keeps_id : keeps_id NodeEntry.miss.
Proof. intros e. split; [done|]. intros _. simpl. apply wrap_u32_range. Qed.

Lemma entry_wf_map k e f : keeps_id f → entry_wf (k, e) → entry_wf (k, f e).
Proof. intros Hf [Hk He]. destruct (Hf e) as [Hi Hm]. split; simpl in *; [by rewrite Hi|auto]. Qed.

Lemma update_entries k f m :
  keeps_id f → Forall entry_wf m → Forall entry_wf (umap_update k f m).
Proof.
  intros Hf. induction 1 as [|[k' e] m He Hm IH]; simpl; [done|].
  case_decide; constructor; auto using entry_wf_map.
Qed.

Lemma for_each_entries f m :
  keeps_id f → Forall entry_wf m → Forall entry_wf (umap_for_each f m).
Proof.
  intros Hf. induction 1 as [|[k' e] m He Hm IH]; simpl; constructor; auto using entry_wf_map.
Qed.

Lemma umap_size_keys (m1 m2 : umap NodeEntry.t) :
  m1.*1 = m2.*1 → umap_size m1 = umap_size m2.
Proof. intros H. unfold umap_size. by rewrite <-!(length_fmap fst), H. Qed.

Lemma heartbeat_refines id cpu mem conns now tb :
  wf tb →
  Directory.heartbeat id cpu mem now (abs tb)
    = ((update_heartbeat id cpu mem conns now tb).1,
       abs (update_heartbeat id cpu mem conns now tb).2)
  ∧ wf (update_heartbeat id cpu mem conns now tb).2
  ∧ max_nodes_ (update_heartbeat id cpu mem conns now tb).2 = max_nodes_ tb.
Proof.
  intros Hwf. unfold Directory.heartbeat, Directory.known, update_heartbeat.
  fold (get_node id tb). rewrite get_node_abs. destruct (abs tb !! id) eqn:Hid.
  - rewrite bool_decide_eq_true_2 by done. simpl. split_and!; [|apply set_nodes_wf|]; try done.
    + unfold abs. simpl. by rewrite to_map_update.
    + apply umap_update_wf, wf_keys. done.
    + apply update_entries; [apply refresh_keeps_id|by apply wf_entries].
    + erewrite umap_size_keys; [by apply wf_size|apply umap_update_keys].
  - rewrite bool_decide_eq_false_2 by (by intros []). split_and!; try done.
    f_equal. apply map_eq. intros i. rewrite lookup_alter. case_decide; [|done].
    subst. by rewrite Hid.
Qed.

Lemma tick_refines tb :
  wf tb →
  Directory.tick (abs tb) = abs (increment_all_missed_heartbeats tb)
  ∧ wf (increment_all_missed_heartbeats tb)
  ∧ max_nodes_ (increment_all_missed_heartbeats tb) = max_nodes_ tb.
Proof.
  intros Hwf. unfold increment_all_missed_heartbeats. split_and!; [|apply set_nodes_wf|]; try done.
  - unfold abs. simpl. by rewrite to_map_for_each.
  - apply umap_for_each_wf, wf_keys. done.
  - apply for_each_entries; [apply miss_keeps_id|by apply wf_entries].
  - erewrite umap_size_keys; [by apply wf_size|apply umap_for_each_keys].
Qed.

(** ** remove_stale_nodes *)

Lemma remove_stale_eq threshold tb :
  remove_stale_nodes threshold tb =
    ((filter (Directory.is_stale threshold) (nodes_ tb)).*1,
     set_nodes (filter (λ kv, ¬ Directory.is_stale threshold kv) (nodes_ tb)) tb).
Proof.
  unfold remove_stale_nodes. rewrite umap_erase_if_loop_spec. simpl.
  assert (∀ kv : string * NodeEntry.t,
            Is_true (stale threshold kv.2) ↔ Directory.is_stale threshold kv) as Hst.
  { intros kv. unfold stale, Directory.is_stale. rewrite Is_true_true. apply Z.leb_le. }
  f_equal; f_equal; apply list_filter_iff; intros kv; by rewrite Hst.
Qed.

Lemma filter_entries (P : string * NodeEntry.t → Prop) `{∀ x, Decision (P x)} m :
  Forall entry_wf m → Forall entry_wf (filter P m).
Proof.
  rewrite !Forall_forall. intros Hm x [_ Hx]%list_elem_of_filter. by apply Hm.
Qed.

Lemma filter_size (P : string * NodeEntry.t → Prop) `{∀ x, Decision (P x)}
    (m : umap NodeEntry.t) :
  (umap_size (filter P m) ≤ umap_size m)%Z.
Proof. unfold umap_size. pose proof (length_filter P m). lia. Qed.

Lemma sweep_refines threshold tb :
  wf tb →
  Directory.sweep threshold (abs tb) = abs (remove_stale_nodes threshold tb).2
  ∧ wf (remove_stale_nodes threshold tb).2
  ∧ max_nodes_ (remove_stale_nodes threshold tb).2 = max_nodes_ tb.
Proof.
  intros Hwf. rewrite remove_stale_eq. simpl.
  split_and!; [|apply set_nodes_wf; try done|done].
  - unfold abs. simpl. by rewrite to_map_filter by by apply wf_keys.
  - by apply filter_wf, wf_keys.
  - by apply filter_entries, wf_entries.
  - etrans; [apply filter_size|by apply wf_size].
Qed.

Lemma remove_stale_removed_keys threshold tb :
  wf tb →
  (remove_stale_nodes threshold tb).1
    ≡ₚ elements (Directory.stale_ids threshold (abs tb)).
Proof.
  intros Hwf. rewrite remove_stale_eq. simpl. apply NoDup_Permutation.
  - by apply (filter_wf (Directory.is_stale threshold)), wf_keys.
  - apply NoDup_elements.
  - intros id. rewrite elem_of_elements. unfold Directory.stale_ids.
    rewrite elem_of_dom. split.
    + intros [[id' e] [-> Hin]]%list_elem_of_fmap. exists e. simpl.
      rewrite list_elem_of_filter in Hin. destruct Hin as [Hst Hin].
      apply map_lookup_filter_Some_2; [|done].
      apply umap_in_iff; [by apply wf_keys|done].
    + intros [e [Hid Hst]%map_lookup_filter_Some]. apply list_elem_of_fmap.
      exists (id, e). split; [done|]. apply list_elem_of_filter. split; [done|].
      apply umap_in_iff; [by apply wf_keys|done].
Qed.

(** ** Queries *)

Lemma get_all_nodes_eq tb : get_all_nodes tb = (nodes_ tb).*2.
Proof.
  assert (∀ (m : umap NodeEntry.t) (acc : list NodeEntry.t), foldl (λ result '(_, entry), result ++ [entry]) acc m
                   = acc ++ m.*2) as Hloop.
  { intros m. induction m as [|[k e] m IH]; intros acc; csimpl; [by rewrite app_nil_r|].
    rewrite IH. by rewrite <-app_assoc. }
  apply Hloop.
Qed.

Lemma provides_any_Exists filter services :
  provides_any filter services = bool_decide (Exists (λ s, s ∈ filter) services).
Proof.
  induction services as [|s rest IH]; [done|].
  cbn [provides_any]. rewrite IH. destruct (bool_decide (s ∈ filter)) eqn:Hs.
  - apply bool_decide_eq_true in Hs. symmetry. apply bool_decide_eq_true_2. by constructor.
  - apply bool_decide_eq_false in Hs. apply bool_decide_ext. rewrite Exists_cons. tauto.
Qed.

Lemma selected_healthy filter e :
  in_u32 (NodeEntry.missed_heartbeats e) →
  selected filter e = bool_decide (Directory.healthy filter e).
Proof.
  intros [Hlo _]. unfold selected. destruct (0 <? _)%Z eqn:Hm; reflect_Z.
  - rewrite bool_decide_eq_false_2; [done|]. unfold Directory.healthy. lia.
  - destruct filter as [|s0 rest].
    + rewrite bool_decide_eq_true_2; [done|]. split; [lia|by left].
    + rewrite provides_any_Exists. apply bool_decide_ext. unfold Directory.healthy.
      split; [|by intros [_ [?|?]]]. intros Hex. split; [lia|by right].
Qed.

Lemma get_nodes_by_service_eq filter tb :
  wf tb →
  get_nodes_by_service filter tb
    = base.filter (Directory.healthy filter) (get_all_nodes tb).
Proof.
  intros Hwf. unfold get_nodes_by_service. fold (get_all_nodes tb).
  rewrite foldl_push_back_filter. simpl. rewrite get_all_nodes_eq.
  pose proof (wf_entries tb Hwf) as Hall.
  induction Hall as [|[k e] m [_ He] Hm IH]; csimpl; [done|].
  rewrite !filter_cons. rewrite IH.
  pose proof (selected_healthy filter e He) as Hsel.
  repeat case_decide; try done; rewrite Hsel in *; case_bool_decide; naive_solver.
Qed.

Lemma values_perm tb : wf tb → get_all_nodes tb ≡ₚ (map_to_list (abs tb)).*2.
Proof.
  intros Hwf. rewrite get_all_nodes_eq. apply fmap_Permutation.
  by apply umap_perm_map_to_list, wf_keys.
Qed.

Lemma abs_entry tb id e : wf tb → abs tb !! id = Some e → entry_wf (id, e).
Proof.
  intros Hwf Hid. pose proof (wf_entries tb Hwf) as Hall.
  rewrite Forall_forall in Hall. apply Hall.
  by apply umap_in_iff; [apply wf_keys|].
Qed.

(** ** The class is a node directory *)

#[global] Instance node_directory `{!HashOrder NodeEntry.t} : NodeDirectory t := {|
  new_directory := NodeTable;
  NodeDir.register_node := register_node;
  NodeDir.deregister_node := deregister_node;
  NodeDir.update_heartbeat := update_heartbeat;
  NodeDir.get_all_nodes := get_all_nodes;
  NodeDir.get_nodes_by_service := get_nodes_by_service;
  NodeDir.get_node := get_node;
  NodeDir.get_node_count := get_node_count;
  NodeDir.has_node := has_node;
  NodeDir.remove_stale_nodes := remove_stale_nodes;
  NodeDir.increment_all_missed_heartbeats := increment_all_missed_heartbeats;
  dir_abs := abs;
  dir_wf := wf;
  dir_capacity := max_nodes_;
|}.

#[global] Instance node_directory_laws `{!HashOrder NodeEntry.t} : NodeDirectoryLaws t.
Proof.
  split.
  - intros max_nodes Hmax. split_and!; [by apply NodeTable_wf|done|done].
  - intros info sid now tb Hwf. by apply register_refines.
  - intros id tb Hwf. by apply deregister_refines.
  - intros id cpu mem conns now tb Hwf. by apply heartbeat_refines.
  - intros tb Hwf. simpl. by destruct (tick_refines tb Hwf) as (-> & ? & ?).
  - intros threshold tb Hwf. simpl.
    by destruct (sweep_refines threshold tb Hwf) as (-> & ? & ?).
  - intros. by apply remove_stale_removed_keys.
  - intros tb Hwf. by apply values_perm.
  - intros filter tb Hwf. simpl. rewrite get_nodes_by_service_eq by done.
    by rewrite values_perm.
  - intros id tb _. apply get_node_abs.
  - intros tb Hwf. simpl. unfold get_node_count.
    rewrite size_abs by done. apply wrap_u32_small.
    pose proof (wf_size tb Hwf). rewrite (size_abs tb Hwf) in H.
    destruct (wf_max tb Hwf). unfold in_u32. lia.
  - intros id tb _. apply umap_contains_to_map.
  - intros tb Hwf. simpl. rewrite <-size_abs by done.
    split; [by apply wf_size|by apply wf_max].
  - intros tb id e Hwf Hid. by apply (abs_entry tb id e).
Qed.

End NodeTable.

(** * Properties *)

(** Sample data for the examples. *)
Definition sample_info (id : string) (services : list string) : NodeInfo.t :=
  NodeInfo.mk id "127.0.0.1" 50052 services 0.

(** Running a history with new elements placed first. *)
Definition sample_run (ops : list table_op) (max_nodes : Z) :
    list table_reply * NodeTable.t :=
  run_with (exec (H := @NodeTable.node_directory (front_order _))) ops
    (NodeTable.NodeTable max_nodes).

Definition sample_ops : list table_op :=
  [OpRegister (sample_info "lidar_01" ["lidar"]) "s1" 0;
   OpRegister (sample_info "camera_01" ["camera"]) "s2" 1;
   OpRegister (sample_info "fusion_01" ["lidar"; "camera"]) "s3" 2;
   OpIncrement;
   OpHeartbeat "lidar_01" float_zero float_zero 0 3;
   OpDiscover [];
   OpRemoveStale 1;
   OpDeregister "camera_01"].

Lemma sample_run_wf ops max_nodes :
  in_u32 max_nodes → NodeTable.wf (sample_run ops max_nodes).2.
Proof.
  intros Hmax. apply (run_refines (H := @NodeTable.node_directory (front_order _))).
  by apply NodeTable.NodeTable_wf.
Qed.

(** C9: for every history of operations on a new table, the table gives the
    answers the abstract directory gives (lists compared up to order) and ends
    in a well-formed state that represents the directory's final state: ids are
    unique and are the ids of their entries, counters are [uint32_t] values and
    the number of nodes is within the capacity. *)
Theorem table_refines_directory `{!HashOrder NodeEntry.t} max_nodes ops :
  in_u32 max_nodes →
  let impl := run_with exec ops (NodeTable.NodeTable max_nodes) in
  let spec := run_with (dir_exec max_nodes) ops ∅ in
  Forall2 reply_equiv impl.1 spec.1
  ∧ NodeTable.abs impl.2 = spec.2
  ∧ NodeTable.wf impl.2.
Proof.
  intros Hmax.
  destruct (run_refines ops (NodeTable.NodeTable max_nodes)) as (? & ? & ? & _);
    [by apply NodeTable.NodeTable_wf|done].
Qed.

Lemma table_refines_directory_witness :
  (sample_run sample_ops 2).1
    = [RFlag true; RFlag true; RFlag false; RUnit; RFlag true;
       RNodes [NodeEntry.mk (sample_info "lidar_01" ["lidar"]) "s1" 3 0
                 float_zero float_zero];
       RRemoved ["camera_01"]; RFlag false]
  ∧ NodeTable.wf (sample_run sample_ops 2).2.
Proof.
  split; [by vm_compute|].
  apply (@table_refines_directory (front_order _) 2 sample_ops). unfold in_u32; lia.
Defined.

(** The iteration order of the hash table, which the standard library does
    not specify, shows only in the order of the returned lists: two runs of the
    same history under different placement policies answer alike. *)
Theorem table_order_independent (H1 H2 : HashOrder NodeEntry.t) max_nodes ops :
  in_u32 max_nodes →
  let run1 := run_with (exec (H := @NodeTable.node_directory H1)) ops
                (NodeTable.NodeTable max_nodes) in
  let run2 := run_with (exec (H := @NodeTable.node_directory H2)) ops
                (NodeTable.NodeTable max_nodes) in
  Forall2 (λ r1 r2, ∃ r, reply_equiv r1 r ∧ reply_equiv r2 r) run1.1 run2.1
  ∧ NodeTable.nodes_ run1.2 ≡ₚ NodeTable.nodes_ run2.2.
Proof.
  intros Hmax run1 run2.
  destruct (run_refines (H := @NodeTable.node_directory H1) ops
              (NodeTable.NodeTable max_nodes)) as (Hr1 & Ha1 & Hw1 & _);
    [by apply NodeTable.NodeTable_wf|].
  destruct (run_refines (H := @NodeTable.node_directory H2) ops
              (NodeTable.NodeTable max_nodes)) as (Hr2 & Ha2 & Hw2 & _);
    [by apply NodeTable.NodeTable_wf|].
  simpl in *. fold run1 in Hr1, Ha1, Hw1. fold run2 in Hr2, Ha2, Hw2. split.
  - revert Hr2. generalize run2.1 as rs2.
    induction Hr1 as [|r1 r l1 l Hr Hrs IH]; intros rs2 Hr2;
      inversion Hr2; subst; constructor; eauto.
  - rewrite (umap_perm_map_to_list (NodeTable.nodes_ run1.2)),
      (umap_perm_map_to_list (NodeTable.nodes_ run2.2)) by by apply NodeTable.wf_keys.
    fold (NodeTable.abs run1.2) (NodeTable.abs run2.2). by rewrite Ha1, Ha2.
Qed.

Lemma table_order_independent_witness :
  NodeTable.nodes_ (sample_run sample_ops 2).2
    ≡ₚ NodeTable.nodes_ (run_with
         (exec (H := @NodeTable.node_directory (back_order _))) sample_ops
         (NodeTable.NodeTable 2)).2.
Proof.
  apply (table_order_independent (front_order _) (back_order _) 2 sample_ops).
  unfold in_u32; lia.
Defined.

(** The number of nodes, as the registry logs it. *)
Lemma node_count_size tb :
  NodeTable.wf tb → NodeTable.get_node_count tb = Z.of_nat (size (NodeTable.abs tb)).
Proof.
  intros Hwf.
  exact (get_node_count_spec (H := @NodeTable.node_directory (front_order _)) tb Hwf).
Qed.

Lemma has_node_abs id tb :
  NodeTable.has_node id tb = bool_decide (is_Some (NodeTable.get_node id tb)).
Proof.
  unfold NodeTable.has_node. rewrite umap_contains_to_map, NodeTable.get_node_abs. done.
Qed.

(** Registration succeeds exactly when the table has room and the id is
    free; a rejected registration leaves the table as it was, an accepted one
    adds the fresh entry under its id, touches no other node and raises the
    count by one. *)
Theorem register_node_outcomes `{!HashOrder NodeEntry.t} info sid now tb :
  NodeTable.wf tb →
  let id := NodeInfo.node_id info in
  let '(ok, tb') := NodeTable.register_node info sid now tb in
  (ok = true ↔ (NodeTable.get_node_count tb < NodeTable.max_nodes_ tb)%Z
               ∧ NodeTable.has_node id tb = false)
  ∧ (ok = false → tb' = tb)
  ∧ (ok = true →
       NodeTable.get_node id tb' = Some (NodeEntry.fresh info sid now)
       ∧ (∀ id', id' ≠ id → NodeTable.get_node id' tb' = NodeTable.get_node id' tb)
       ∧ NodeTable.get_node_count tb' = (NodeTable.get_node_count tb + 1)%Z).
Proof.
  intros Hwf id. rewrite (node_count_size tb Hwf), has_node_abs.
  pose proof (NodeTable.register_refines info sid now tb Hwf) as (Hspec & Hwf' & _).
  unfold Directory.register in Hspec. case_decide as Hacc.
  - destruct (NodeTable.register_node info sid now tb) as [ok tb'].
    simpl in *. injection Hspec as <- Habs. destruct Hacc as [Hsize Hnone].
    split_and!; [split; [|done]|done|].
    + intros _. split; [done|]. rewrite NodeTable.get_node_abs.
      apply bool_decide_eq_false_2. fold id in Hnone. rewrite Hnone. by intros [].
    + intros _. rewrite (node_count_size tb' Hwf'), <-Habs. split_and!.
      * rewrite NodeTable.get_node_abs, <-Habs. apply lookup_insert_eq.
      * intros id' Hne. rewrite !NodeTable.get_node_abs, <-Habs. by apply lookup_insert_ne.
      * rewrite map_size_insert_None by done. lia.
  - assert (NodeTable.register_node info sid now tb = (false, tb)) as ->.
    { destruct (NodeTable.get_node id tb) as [e|] eqn:Hget.
      - by eapply NodeTable.register_node_dup.
      - apply NodeTable.register_node_full. rewrite (NodeTable.size_abs tb Hwf).
        apply Z.nlt_ge. intros ?. apply Hacc. split; [done|].
        by rewrite <-NodeTable.get_node_abs. }
    split_and!; [split; [done|]|done|done]. intros [Hlt Hfree]. exfalso. apply Hacc.
    split; [done|]. apply bool_decide_eq_false in Hfree. fold id.
    rewrite <-NodeTable.get_node_abs. by apply eq_None_not_Some.
Qed.

Lemma register_node_outcomes_witness :
  NodeTable.get_node_count
    (@NodeTable.register_node (front_order _) (sample_info "lidar_01" ["lidar"]) "s" 0
       (NodeTable.NodeTable 1)).2 = 1%Z.
Proof.
  destruct (@register_node_outcomes (front_order _) (sample_info "lidar_01" ["lidar"])
              "s" 0 (NodeTable.NodeTable 1)) as (_ & _ & H).
  - apply NodeTable.NodeTable_wf. unfold in_u32; lia.
  - by apply H.
Defined.

(** A query returns exactly the entries of the table that missed no
    heartbeat and share a service with the filter (any service when the filter
    is empty), each node once. *)
Theorem get_nodes_by_service_exact filter tb :
  NodeTable.wf tb →
  (∀ e, e ∈ NodeTable.get_nodes_by_service filter tb ↔
     NodeTable.get_node (NodeInfo.node_id (NodeEntry.info e)) tb = Some e
     ∧ NodeEntry.missed_heartbeats e = 0%Z
     ∧ (filter = [] ∨ ∃ s, s ∈ NodeInfo.services (NodeEntry.info e) ∧ s ∈ filter))
  ∧ NoDup ((λ e, NodeInfo.node_id (NodeEntry.info e))
             <$> NodeTable.get_nodes_by_service filter tb).
Proof.
  intros Hwf. rewrite NodeTable.get_nodes_by_service_eq, NodeTable.get_all_nodes_eq by done.
  pose proof (NodeTable.wf_entries tb Hwf) as Hall. rewrite Forall_forall in Hall.
  split.
  - intros e. rewrite list_elem_of_filter, list_elem_of_fmap, NodeTable.get_node_abs.
    unfold Directory.healthy. rewrite Exists_exists.
    assert ((∃ y, e = y.2 ∧ y ∈ NodeTable.nodes_ tb)
            ↔ NodeTable.abs tb !! NodeInfo.node_id (NodeEntry.info e) = Some e) as ->.
    { split.
      - intros [[k e'] [-> Hin]]. destruct (Hall _ Hin) as [Hk _]. simpl in *. subst k.
        by apply umap_in_iff; [apply NodeTable.wf_keys|].
      - intros Hin. eexists (_, e). split; [done|].
        by apply umap_in_iff; [apply NodeTable.wf_keys|]. }
    tauto.
  - pose proof (NodeTable.wf_keys tb Hwf) as Hkeys. unfold umap_wf in Hkeys.
    assert ((NodeTable.nodes_ tb).*1
            = (λ e, NodeInfo.node_id (NodeEntry.info e)) <$> (NodeTable.nodes_ tb).*2) as Heq.
    { rewrite <-list_fmap_compose. apply list_fmap_ext. intros i kv Hkv.
      symmetry. apply Hall. by eapply list_elem_of_lookup_2. }
    rewrite Heq in Hkeys. eapply sublist_NoDup; [exact Hkeys|].
    apply fmap_sublist, filter_sublist_of.
Qed.

Lemma get_nodes_by_service_exact_witness :
  let tb := (sample_run (take 5 sample_ops) 3).2 in
  NodeTable.get_nodes_by_service ["lidar"] tb
    = [NodeEntry.mk (sample_info "lidar_01" ["lidar"]) "s1" 3 0 float_zero float_zero]
  ∧ NoDup ((λ e, NodeInfo.node_id (NodeEntry.info e))
             <$> NodeTable.get_nodes_by_service ["lidar"] tb).
Proof.
  split; [by vm_compute|].
  apply (get_nodes_by_service_exact ["lidar"]).
  apply sample_run_wf. unfold in_u32; lia.
Defined.

(** C33: removal of stale nodes removes exactly the nodes whose counter reached
    the threshold, reports each of them once and leaves every other node as it
    was. *)
Theorem remove_stale_nodes_exact threshold tb :
  NodeTable.wf tb →
  let '(removed, tb') := NodeTable.remove_stale_nodes threshold tb in
  NoDup removed
  ∧ (∀ id, id ∈ removed ↔
       ∃ e, NodeTable.get_node id tb = Some e
            ∧ (threshold ≤ NodeEntry.missed_heartbeats e)%Z)
  ∧ (∀ id, NodeTable.get_node id tb' =
       if decide (id ∈ removed) then None else NodeTable.get_node id tb).
Proof.
  intros Hwf.
  pose proof (NodeTable.remove_stale_removed_keys threshold tb Hwf) as Hperm.
  pose proof (NodeTable.sweep_refines threshold tb Hwf) as (Habs & _ & _).
  destruct (NodeTable.remove_stale_nodes threshold tb) as [removed tb']. simpl in *.
  assert (∀ id, id ∈ removed ↔
       ∃ e, NodeTable.get_node id tb = Some e
            ∧ (threshold ≤ NodeEntry.missed_heartbeats e)%Z) as Hin.
  { intros id. rewrite Hperm, elem_of_elements. unfold Directory.stale_ids.
    rewrite elem_of_dom, NodeTable.get_node_abs.
    unfold is_Some. by setoid_rewrite map_lookup_filter_Some. }
  split_and!; [|done|].
  - rewrite Hperm. apply NoDup_elements.
  - intros id. rewrite !NodeTable.get_node_abs, <-Habs. unfold Directory.sweep.
    destruct (decide (id ∈ removed)) as [Hr|Hr].
    + apply map_lookup_filter_None. right. intros e He. apply Hin in Hr as (e' & He' & Hst).
      rewrite NodeTable.get_node_abs, He in He'. injection He' as <-. auto.
    + apply option_eq. intros e. rewrite map_lookup_filter_Some. split; [by intros []|].
      intros He. split; [done|]. intros Hst. apply Hr, Hin. exists e.
      by rewrite NodeTable.get_node_abs.
Qed.

Lemma remove_stale_nodes_exact_witness :
  let tb := (sample_run (take 5 sample_ops) 3).2 in
  NodeTable.get_node "camera_01" (NodeTable.remove_stale_nodes 1 tb).2 = None
  ∧ NoDup (NodeTable.remove_stale_nodes 1 tb).1.
Proof.
  intros tb.
  assert (NodeTable.wf tb) as Hwf by (apply sample_run_wf; unfold in_u32; lia).
  destruct (remove_stale_nodes_exact 1 tb Hwf) as [? _]. by split; [vm_compute|].
Defined.

(** The [size_t] to [uint32_t] conversion in the node count never loses
    anything: the count is the number of registered ids, which never exceeds the
    capacity, and an id is counted exactly when it can be looked up. *)
Theorem node_count_exact tb :
  NodeTable.wf tb →
  NodeTable.get_node_count tb = umap_size (NodeTable.nodes_ tb)
  ∧ (NodeTable.get_node_count tb ≤ NodeTable.max_nodes_ tb)%Z
  ∧ NodeTable.get_node_count tb = Z.of_nat (length (NodeTable.get_all_nodes tb))
  ∧ (∀ id, NodeTable.has_node id tb = true ↔
       ∃ e, e ∈ NodeTable.get_all_nodes tb
            ∧ NodeInfo.node_id (NodeEntry.info e) = id).
Proof.
  intros Hwf. pose proof (node_count_size tb Hwf) as Hc.
  rewrite <-(NodeTable.size_abs tb Hwf) in Hc. rewrite Hc.
  split_and!; [done|by apply NodeTable.wf_size| |].
  - rewrite NodeTable.get_all_nodes_eq. unfold umap_size. by rewrite length_fmap.
  - intros id. rewrite has_node_abs, bool_decide_eq_true, NodeTable.get_node_abs.
    rewrite NodeTable.get_all_nodes_eq. split.
    + intros [e He]. exists e. split; [|by apply (NodeTable.abs_entry tb id e)].
      apply list_elem_of_fmap. exists (id, e). split; [done|].
      by apply umap_in_iff; [apply NodeTable.wf_keys|].
    + intros (e & [[k e'] [-> Hin]]%list_elem_of_fmap & Hid). simpl in *.
      pose proof (NodeTable.wf_entries tb Hwf) as Hall. rewrite Forall_forall in Hall.
      destruct (Hall _ Hin) as [Hk _]. simpl in Hk. exists e'.
      apply umap_in_iff; [by apply NodeTable.wf_keys|]. congruence.
Qed.

Lemma node_count_exact_witness :
  NodeTable.get_node_count (sample_run (take 3 sample_ops) 3).2
    = umap_size (NodeTable.nodes_ (sample_run (take 3 sample_ops) 3).2).
Proof. apply node_count_exact, sample_run_wf. unfold in_u32; lia. Defined.
