(* ===== verification/SharedMutex.v ===== *)
(** * std::shared_mutex and the calls of the object it protects

    The code of a member function that takes its class's mutex for its whole body
    is a [prog]: a sequence of accesses to the object, each a step of its own, and
    a result; or [Spin], a loop that never ends.  A [config] is the object, the mutex and the threads, each waiting
    for the mutex or somewhere inside its critical section; [step] lets any thread
    go on.  The mutex gives itself to one exclusive owner or to any number of
    sharers, which is what the standard says of it; who gets it is open.

    [linearizable] is the reason why the rest of the library may treat such a call
    as atomic: every trace of calls and returns of the machine is a trace of the
    [atomic] one, where a call takes effect at one instant between the two.
    And no call waits for ever, if the code of every call ends when it runs alone:
    something can always go on, and there is no endless way to go on without a new
    call. *)

From Stdlib Require Import Arith Lia Relation_Operators Lexicographic_Product.
From stdpp Require Import prelude gmap list relations.

(** ** Traces of a machine *)

Section traces.
  Context {X E : Type} (step : X → list E → X → Prop).

Inductive traces : X → list E → X → Prop :=
  | traces_nil x : traces x [] x
  | traces_snoc x1 x2 x3 tr evs :
      traces x1 tr x2 → step x2 evs x3 → traces x1 (tr ++ evs) x3.

Lemma traces_one x evs x' : step x evs x' → traces x evs x'.
Proof. intros Hst. exact (traces_snoc x x x' [] evs (traces_nil x) Hst). Qed.

Lemma traces_app x1 x2 x3 tr1 tr2 :
  traces x1 tr1 x2 → traces x2 tr2 x3 → traces x1 (tr1 ++ tr2) x3.
Proof.
  intros H1 H2. induction H2 as [x|x x' x'' tr evs _ IH Hst]; [by rewrite app_nil_r|].
  rewrite (assoc_L (++)). eapply traces_snoc; [by apply IH|done].
Qed.

End traces.

(** A machine whose every step another one matches has only traces of the other. *)
Lemma simulation {X Y E} (stepX : X → list E → X → Prop) (stepY : Y → list E → Y → Prop)
    (rel : X → Y → Prop) :
  (∀ x evs x' y, rel x y → stepX x evs x' → ∃ y', traces stepY y evs y' ∧ rel x' y') →
  ∀ x tr x' y, rel x y → traces stepX x tr x' → ∃ y', traces stepY y tr y' ∧ rel x' y'.
Proof.
  intros Hsim x tr x' y Hrel Htr. induction Htr as [x|x1 x2 x3 tr evs _ IH Hst].
  - exists y. split; [constructor|done].
  - destruct (IH Hrel) as (y2 & Hy2 & Hrel2). destruct (Hsim _ _ _ _ Hrel2 Hst) as (y3 & Hy3 & ?).
    exists y3. split; [by eapply traces_app|done].
Qed.

(** ** The mutex *)

Inductive lock_mode := Exclusive | Shared.

#[global] Instance lock_mode_eq_dec : EqDecision lock_mode.
Proof. solve_decision. Defined.

Module SharedMutex.

Record t := mk { owner : option nat; sharers : gset nat }.

Definition unlocked : t := mk None ∅.

(** [lock] or [lock_shared] by a thread, when it need not block. *)
Definition acquire (md : lock_mode) (tid : nat) (m : t) : option t :=
  match owner m, md with
  | Some _, _ => None
  | None, Exclusive => if decide (sharers m = ∅) then Some (mk (Some tid) ∅) else None
  | None, Shared => Some (mk None ({[tid]} ∪ sharers m))
  end.

(** [unlock] or [unlock_shared]. *)
Definition release (md : lock_mode) (tid : nat) (m : t) : t :=
  match md with
  | Exclusive => mk None (sharers m)
  | Shared => mk (owner m) (sharers m ∖ {[tid]})
  end.

End SharedMutex.

(** ** Programs *)

Inductive prog (St R : Type) :=
  | Ret (r : R)
  | Access (A : Type) (f : St → A * St) (k : A → prog St R)
  | Spin.
Arguments Ret {St R}.
Arguments Access {St R A}.
Arguments Spin {St R}.

Section progs.
  Context {St R : Type}.
  Implicit Types (p : prog St R) (s : St).

Definition load {A} (f : St → A) (k : A → prog St R) : prog St R := Access (λ s, (f s, s)) k.
Definition store (f : St → St) (k : prog St R) : prog St R := Access (λ s, (tt, f s)) (λ _, k).

(** A program run alone, if it ends. *)
Fixpoint run_alone p s : option (R * St) :=
  match p with
  | Ret r => Some (r, s)
  | Access f k => run_alone (k (f s).1) (f s).2
  | Spin => None
  end.

(** The object as it leaves it. *)
Fixpoint final p s : St :=
  match p with
  | Ret _ | Spin => s
  | Access f k => final (k (f s).1) (f s).2
  end.

Lemma run_alone_final p s r s' : run_alone p s = Some (r, s') → final p s = s'.
Proof. revert s. induction p as [r0|A f k IH|]; intros s; simpl; [congruence|apply IH|done]. Qed.

(** How many accesses it makes then. *)
Fixpoint accesses p s : nat :=
  match p with
  | Ret _ | Spin => 0
  | Access f k => S (accesses (k (f s).1) (f s).2)
  end.

Fixpoint read_only p : Prop :=
  match p with
  | Ret _ | Spin => True
  | Access f k => (∀ s, (f s).2 = s) ∧ ∀ a, read_only (k a)
  end.

Lemma read_only_object p s : read_only p → final p s = s.
Proof.
  revert s. induction p as [r|A f k IH|]; intros s; [done| |done].
  intros [Hf Hk]. simpl. by rewrite Hf, IH.
Qed.

End progs.

(** What the lock protects: how each call takes the mutex, and its code. *)
Class LockedObject (St C R : Type) := {
  mode : C → lock_mode;
  code : C → prog St R;
}.

(** A call that only shares the mutex only reads. *)
Class LockedObjectLaws (St C R : Type) `{LockedObject St C R} : Prop := {
  shared_reads c : mode c = Shared → read_only (code c);
}.

(** ** The threads and their steps *)

Inductive event (C R : Type) :=
  | Invoked (tid : nat) (c : C)
  | Returned (tid : nat) (c : C) (r : R).
Arguments Invoked {C R}.
Arguments Returned {C R}.

Inductive thread (St C R : Type) :=
  | Waiting (c : C)
  | Inside (c : C) (p : prog St R).
Arguments Waiting {St C R}.
Arguments Inside {St C R}.

(** A thread that is in no call is not in the map. *)
Record config (St C R : Type) := mk_config {
  object : St;
  mutex : SharedMutex.t;
  threads : gmap nat (thread St C R);
}.
Arguments mk_config {St C R}.
Arguments object {St C R}.
Arguments mutex {St C R}.
Arguments threads {St C R}.

(** Nobody is in a call. *)
Definition idle {St C R} (s : St) : config St C R := mk_config s SharedMutex.unlocked ∅.

Section machine.
  Context {St C R : Type} `{LockedObject St C R}.
  Implicit Types (cfg : config St C R) (s : St) (c : C) (r : R).

Inductive step : config St C R → list (event C R) → config St C R → Prop :=
  | step_invoke s m ts tid c :
      ts !! tid = None →
      step (mk_config s m ts) [Invoked tid c] (mk_config s m (<[tid := Waiting c]> ts))
  | step_lock s m m' ts tid c :
      ts !! tid = Some (Waiting c) →
      SharedMutex.acquire (mode c) tid m = Some m' →
      step (mk_config s m ts) [] (mk_config s m' (<[tid := Inside c (code c)]> ts))
  | step_access s m ts tid c A (f : St → A * St) k :
      ts !! tid = Some (Inside c (Access f k)) →
      step (mk_config s m ts) []
           (mk_config (f s).2 m (<[tid := Inside c (k (f s).1)]> ts))
  | step_return s m ts tid c r :
      ts !! tid = Some (Inside c (Ret r)) →
      step (mk_config s m ts) [Returned tid c r]
           (mk_config s (SharedMutex.release (mode c) tid m) (delete tid ts))
  | step_spin s m ts tid c :
      ts !! tid = Some (Inside c Spin) →
      step (mk_config s m ts) [] (mk_config s m ts).

(** The steps of calls that have been made, in contrast to new calls. *)
Definition goes_on cfg cfg' : Prop :=
  ∃ evs, step cfg evs cfg' ∧ ∀ tid c, evs ≠ [Invoked tid c].

(** ** The machine as a function, for running schedules *)

Inductive action := Invoke (tid : nat) (c : C) | Go (tid : nat).

Definition act (a : action) cfg : option (list (event C R) * config St C R) :=
  match a with
  | Invoke tid c =>
      match threads cfg !! tid with
      | None => Some ([Invoked tid c],
                      mk_config (object cfg) (mutex cfg) (<[tid := Waiting c]> (threads cfg)))
      | Some _ => None
      end
  | Go tid =>
      match threads cfg !! tid with
      | None => None
      | Some (Waiting c) =>
          m ← SharedMutex.acquire (mode c) tid (mutex cfg);
          Some ([], mk_config (object cfg) m (<[tid := Inside c (code c)]> (threads cfg)))
      | Some (Inside c (Access f k)) =>
          Some ([], mk_config (f (object cfg)).2 (mutex cfg)
                      (<[tid := Inside c (k (f (object cfg)).1)]> (threads cfg)))
      | Some (Inside c (Ret r)) =>
          Some ([Returned tid c r],
                mk_config (object cfg) (SharedMutex.release (mode c) tid (mutex cfg))
                  (delete tid (threads cfg)))
      | Some (Inside c Spin) => Some ([], cfg)
      end
  end.

(** A blocked thread leaves the schedule stuck. *)
Fixpoint run_schedule (sch : list action) (tr : list (event C R)) cfg
    : option (list (event C R) * config St C R) :=
  match sch with
  | [] => Some (tr, cfg)
  | a :: sch => '(evs, cfg') ← act a cfg; run_schedule sch (tr ++ evs) cfg'
  end.

Lemma act_step a cfg evs cfg' : act a cfg = Some (evs, cfg') → step cfg evs cfg'.
Proof.
  destruct cfg as [s m ts], a as [tid c|tid]; simpl.
  - destruct (ts !! tid) eqn:Hth; [done|]. intros [= <- <-]. by constructor.
  - destruct (ts !! tid) as [[c|c [r|A f k|]]|] eqn:Hth; [| | | |done].
    + destruct (SharedMutex.acquire (mode c) tid m) as [m'|] eqn:Hm; [|done].
      intros [= <- <-]. by constructor.
    + intros [= <- <-]. by constructor.
    + intros [= <- <-]. by constructor.
    + intros [= <- <-]. by econstructor.
Qed.

Lemma run_schedule_traces sch cfg0 tr cfg tr' cfg' :
  traces step cfg0 tr cfg → run_schedule sch tr cfg = Some (tr', cfg') →
  traces step cfg0 tr' cfg'.
Proof.
  revert tr cfg. induction sch as [|a sch IH]; intros tr cfg Hst; simpl.
  - by intros [= <- <-].
  - destruct (act a cfg) as [[evs cfg1]|] eqn:Ha; [|done]. simpl. apply IH.
    eapply traces_snoc; [done|]. by eapply act_step.
Qed.

End machine.

Arguments action : clear implicits.
Arguments Invoke {C}.
Arguments Go {C}.

(** ** The atomic machine

    A call takes effect at one instant, as [spec] says, some time after it is made
    and before it returns. *)

Inductive athread (C R : Type) :=
  | Pending (c : C)
  | Finished (c : C) (r : R).
Arguments Pending {C R}.
Arguments Finished {C R}.

Record aconfig (D C R : Type) := mk_aconfig {
  aobject : D;
  athreads : gmap nat (athread C R);
}.
Arguments mk_aconfig {D C R}.
Arguments aobject {D C R}.
Arguments athreads {D C R}.

Definition aidle {D C R} (d : D) : aconfig D C R := mk_aconfig d ∅.

Inductive atomic {D C R} (spec : C → D → R → D → Prop) :
    aconfig D C R → list (event C R) → aconfig D C R → Prop :=
  | atomic_invoke d ts tid c :
      ts !! tid = None →
      atomic spec (mk_aconfig d ts) [Invoked tid c] (mk_aconfig d (<[tid := Pending c]> ts))
  | atomic_effect d d' ts tid c r :
      ts !! tid = Some (Pending c) → spec c d r d' →
      atomic spec (mk_aconfig d ts) [] (mk_aconfig d' (<[tid := Finished c r]> ts))
  | atomic_return d ts tid c r :
      ts !! tid = Some (Finished c r) →
      atomic spec (mk_aconfig d ts) [Returned tid c r] (mk_aconfig d (delete tid ts)).

(** ** The invariant of the lock *)

Section facts.
  Context {St C R : Type} `{LockedObjectLaws St C R}.
  Implicit Types (cfg : config St C R) (s : St) (c : C) (r : R)
    (ts : gmap nat (thread St C R)).

(** How a thread holds the mutex. *)
Definition critical (th : thread St C R) : option lock_mode :=
  match th with Waiting _ => None | Inside c _ => Some (mode c) end.

Definition held ts (tid : nat) : option lock_mode := ts !! tid ≫= critical.

(** The mutex records who is inside; an owner is alone; a sharer only reads. *)
Record inv cfg : Prop := {
  inv_owner tid :
    SharedMutex.owner (mutex cfg) = Some tid ↔ held (threads cfg) tid = Some Exclusive;
  inv_sharers tid :
    tid ∈ SharedMutex.sharers (mutex cfg) ↔ held (threads cfg) tid = Some Shared;
  inv_alone : is_Some (SharedMutex.owner (mutex cfg)) → SharedMutex.sharers (mutex cfg) = ∅;
  inv_reads tid c p :
    threads cfg !! tid = Some (Inside c p) → mode c = Shared → read_only p;
}.

Lemma held_insert ts tid th tid' :
  held (<[tid := th]> ts) tid' = if decide (tid = tid') then critical th else held ts tid'.
Proof. unfold held. rewrite lookup_insert. by case_decide. Qed.

Lemma held_delete ts tid tid' :
  held (delete tid ts) tid' = if decide (tid = tid') then None else held ts tid'.
Proof. unfold held. rewrite lookup_delete. by case_decide. Qed.

Lemma held_at ts tid th : ts !! tid = Some th → held ts tid = critical th.
Proof. unfold held. by intros ->. Qed.

Lemma inv_idle s : inv (idle (C := C) (R := R) s).
Proof. split; simpl; [done|set_solver|done|done]. Qed.

(** A thread's change that keeps how it holds the mutex. *)
Lemma inv_same s s' m ts tid th' :
  inv (mk_config s m ts) → held ts tid = critical th' →
  (∀ c p, th' = Inside c p → mode c = Shared → read_only p) →
  inv (mk_config s' m (<[tid := th']> ts)).
Proof.
  intros [Ho Hs Ha Hr] Hheld Hread. simpl in *. split; simpl; [| |done|].
  - intros tid'. rewrite Ho, held_insert. case_decide; [|done]. subst. by rewrite Hheld.
  - intros tid'. rewrite Hs, held_insert. case_decide; [|done]. subst. by rewrite Hheld.
  - intros tid' c p. rewrite lookup_insert. case_decide; [|apply Hr].
    intros [= ->]. by apply Hread.
Qed.

Lemma inv_lock s m m' ts tid c :
  inv (mk_config s m ts) → ts !! tid = Some (Waiting c) →
  SharedMutex.acquire (mode c) tid m = Some m' →
  inv (mk_config s m' (<[tid := Inside c (code c)]> ts)).
Proof.
  intros [Ho Hs Ha Hr] Hth Hacq. simpl in *. pose proof (held_at _ _ _ Hth) as Hheld.
  unfold SharedMutex.acquire in Hacq. destruct (SharedMutex.owner m) eqn:Hown; [done|].
  assert (∀ tid', held ts tid' ≠ Some Exclusive) as Hnone by (intros tid' Hx; by apply Ho in Hx).
  assert (∀ tid', held (<[tid := Inside c (code c)]> ts) tid'
                  = if decide (tid = tid') then Some (mode c) else held ts tid') as Hins
    by (intros; apply held_insert).
  assert (∀ tid' c' p, <[tid := Inside c (code c)]> ts !! tid' = Some (Inside c' p) →
            mode c' = Shared → read_only p) as Hread.
  { intros tid' c' p. rewrite lookup_insert. destruct (decide (tid = tid')); [|apply Hr].
    intros [= <- <-]. apply shared_reads. }
  destruct (mode c); [case_decide as Hempty; [|done]|]; injection Hacq as <-;
    split; simpl; try done; intros tid'; rewrite ?Hins.
  - case_decide; subst; [done|]. split; [congruence|]. intros Hx. by destruct (Hnone tid').
  - rewrite elem_of_empty. case_decide; subst; [done|]. rewrite <-Hs, Hempty. done.
  - case_decide; subst; [done|]. split; [done|]. intros Hx. by destruct (Hnone tid').
  - rewrite elem_of_union, elem_of_singleton, Hs. case_decide; subst.
    + split; [done|by left].
    + split; [by intros [->|]|by right].
Qed.

Lemma inv_unlock s m ts tid c r :
  inv (mk_config s m ts) → ts !! tid = Some (Inside c (Ret r)) →
  inv (mk_config s (SharedMutex.release (mode c) tid m) (delete tid ts)).
Proof.
  intros [Ho Hs Ha Hr] Hth. simpl in *. pose proof (held_at _ _ _ Hth) as Hheld. simpl in Hheld.
  split; simpl.
  - intros tid'. rewrite held_delete. destruct (mode c) eqn:Hm; simpl.
    + case_decide; [done|]. split; [done|]. intros Hx%Ho. apply Ho in Hheld. congruence.
    + rewrite Ho. case_decide; [|done]. subst. split; congruence.
  - intros tid'. rewrite held_delete. destruct (mode c) eqn:Hm; simpl.
    + rewrite Hs. case_decide; [|done]. subst. split; congruence.
    + rewrite elem_of_difference, elem_of_singleton, Hs. case_decide; subst.
      * split; [by intros [_ []]|done].
      * split; [by intros [? _]|by split; [|intros ->]].
  - destruct (mode c) eqn:Hm; simpl; [by intros []|]. intros Hx%Ha.
    apply subseteq_empty_difference_L. rewrite Hx. apply empty_subseteq.
  - intros tid' c' p. rewrite lookup_delete. case_decide; [done|]. apply Hr.
Qed.

Lemma step_inv cfg evs cfg' : step cfg evs cfg' → inv cfg → inv cfg'.
Proof.
  intros Hst Hinv. destruct Hst as [s m ts tid c Hth|s m m' ts tid c Hth Hacq
    |s m ts tid c A f k Hth|s m ts tid c r Hth|]; [| | | |done].
  - apply (inv_same s s m ts tid (Waiting c)); [done| |done].
    unfold held. by rewrite Hth.
  - by eapply inv_lock.
  - eapply (inv_same s _ m ts tid); [done|by rewrite (held_at _ _ _ Hth)|].
    intros c' p [= <- <-] Hm. destruct (inv_reads _ Hinv _ _ _ Hth Hm) as [_ Hk]. apply Hk.
  - by eapply inv_unlock.
Qed.

Lemma traces_inv s tr cfg : traces step (idle s) tr cfg → inv cfg.
Proof.
  remember (idle s) as cfg0 eqn:Hcfg. induction 1 as [cfg|cfg1 cfg2 cfg3 tr evs _ IH Hst].
  - subst. apply inv_idle.
  - eapply step_inv; eauto.
Qed.

(** Nobody is inside beside an exclusive owner. *)
Lemma inv_excludes cfg tid c p tid' c' p' :
  inv cfg → threads cfg !! tid = Some (Inside c p) → mode c = Exclusive →
  threads cfg !! tid' = Some (Inside c' p') → tid' = tid.
Proof.
  intros Hinv Hth Hm Hth'. apply held_at in Hth, Hth'. simpl in *. rewrite Hm in Hth.
  apply (inv_owner _ Hinv) in Hth as Hown. destruct (mode c').
  - apply (inv_owner _ Hinv) in Hth'. congruence.
  - apply (inv_sharers _ Hinv) in Hth'. rewrite (inv_alone _ Hinv) in Hth' by by rewrite Hown.
    set_solver.
Qed.

(** ** Atomic calls *)

(** What a thread in a call amounts to when the object is [s]: it has not taken
    effect, or it has, and will return what it returns if left alone. *)
Definition abs_thread s (th : thread St C R) : athread C R :=
  match th with
  | Waiting c => Pending c
  | Inside c p =>
      match run_alone p s with Some (r, _) => Finished c r | None => Pending c end
  end.

(** The object when the exclusive call inside, if there is one, is through. *)
Definition settled cfg : St :=
  match SharedMutex.owner (mutex cfg) with
  | None => object cfg
  | Some tid =>
      match threads cfg !! tid with
      | Some (Inside c p) => final p (object cfg)
      | _ => object cfg
      end
  end.

Lemma settled_owner s m ts tid c p :
  inv (mk_config s m ts) → ts !! tid = Some (Inside c p) → mode c = Exclusive →
  settled (mk_config s m ts) = final p s.
Proof.
  intros Hinv Hth Hm. pose proof (held_at _ _ _ Hth) as Hheld. simpl in Hheld. rewrite Hm in Hheld.
  apply (inv_owner _ Hinv) in Hheld. unfold settled. rewrite Hheld. simpl. by rewrite Hth.
Qed.

Lemma settled_sharer s m ts tid c p :
  inv (mk_config s m ts) → ts !! tid = Some (Inside c p) → mode c = Shared →
  SharedMutex.owner m = None ∧ settled (mk_config s m ts) = s.
Proof.
  intros Hinv Hth Hm. pose proof (held_at _ _ _ Hth) as Hheld. simpl in Hheld. rewrite Hm in Hheld.
  apply (inv_sharers _ Hinv) in Hheld. simpl in Hheld. unfold settled. simpl.
  destruct (SharedMutex.owner m) eqn:Hown; [|done].
  pose proof (inv_alone _ Hinv) as Ha. simpl in Ha. rewrite Ha in Hheld by by rewrite Hown.
  set_solver.
Qed.

(** An access changes nothing that counts: the same results are on their way, and
    the same object. *)
Lemma access_invisible s m ts tid c A (f : St → A * St) k :
  inv (mk_config s m ts) → ts !! tid = Some (Inside c (Access f k)) →
  let ts' := <[tid := Inside c (k (f s).1)]> ts in
  abs_thread (f s).2 <$> ts' = abs_thread s <$> ts
  ∧ settled (mk_config (f s).2 m ts') = settled (mk_config s m ts).
Proof.
  intros Hinv Hth ts'.
  assert (inv (mk_config (f s).2 m ts')) as Hinv'
    by (eapply step_inv; [by eapply step_access|done]).
  assert (ts' !! tid = Some (Inside c (k (f s).1))) as Hth' by apply lookup_insert_eq.
  split.
  - apply map_eq. intros tid'. unfold ts'. rewrite !lookup_fmap, lookup_insert.
    case_decide as Htid; [subst; by rewrite Hth|].
    destruct (ts !! tid') as [[c'|c' p']|] eqn:Hts; [done| |done]. simpl.
    destruct (mode c) eqn:Hm.
    + by destruct Htid; rewrite (inv_excludes _ _ _ _ _ _ _ Hinv Hth Hm Hts).
    + by destruct (inv_reads _ Hinv _ _ _ Hth Hm) as [-> _].
  - destruct (mode c) eqn:Hm.
    + by rewrite (settled_owner _ _ _ _ _ _ Hinv Hth Hm), (settled_owner _ _ _ _ _ _ Hinv' Hth' Hm).
    + destruct (settled_sharer _ _ _ _ _ _ Hinv Hth Hm) as [_ ->].
      destruct (settled_sharer _ _ _ _ _ _ Hinv' Hth' Hm) as [_ ->].
      by destruct (inv_reads _ Hinv _ _ _ Hth Hm) as [-> _].
Qed.

End facts.

(** ** Every trace is one of atomic calls *)

Section linearization.
  Context {St C R D : Type} `{LockedObjectLaws St C R}.
  Context (spec : C → D → R → D → Prop) (abs : St → D → Prop).
  Implicit Types (cfg : config St C R) (s : St) (d : D).

(** A program ends when it runs alone, within [turns] accesses. *)
Definition ends (turns : nat) (p : prog St R) s : Prop :=
  is_Some (run_alone p s) ∧ accesses p s ≤ turns.

(** A call run alone ends, and does what the specification says. *)
Context (turns : nat).
Context (code_implements : ∀ c s d, abs s d →
  ∃ r s' d', run_alone (code c) s = Some (r, s') ∧ accesses (code c) s ≤ turns
    ∧ spec c d r d' ∧ abs s' d').

(** Every call inside ends, and the object is on its way to that of [acfg]. *)
Record linked cfg (acfg : aconfig D C R) : Prop := {
  linked_inv : inv cfg;
  linked_threads : athreads acfg = abs_thread (object cfg) <$> threads cfg;
  linked_object : abs (settled cfg) (aobject acfg);
  linked_ends tid c p :
    threads cfg !! tid = Some (Inside c p) → ends turns p (object cfg);
}.

Lemma settled_threads s m ts ts' :
  (∀ tid c p, ts !! tid = Some (Inside c p) → ts' !! tid = ts !! tid) →
  inv (mk_config s m ts) →
  settled (mk_config s m ts') = settled (mk_config s m ts).
Proof.
  intros Hts Hinv. unfold settled. simpl. destruct (SharedMutex.owner m) as [tid|] eqn:Hown; [|done].
  apply (inv_owner _ Hinv) in Hown. unfold held in Hown. simpl in Hown.
  destruct (ts !! tid) as [[c|c p]|] eqn:Hth; try done. by rewrite (Hts _ _ _ Hth), Hth.
Qed.

Lemma lock_settled s m m' ts tid c :
  inv (mk_config s m ts) → ts !! tid = Some (Waiting c) →
  SharedMutex.acquire (mode c) tid m = Some m' →
  settled (mk_config s m ts) = s
  ∧ settled (mk_config s m' (<[tid := Inside c (code c)]> ts)) = final (code c) s.
Proof.
  intros Hinv Hth Hacq. pose proof (inv_lock _ _ _ _ _ _ Hinv Hth Hacq) as Hinv'.
  assert (SharedMutex.owner m = None) as Hown.
  { unfold SharedMutex.acquire in Hacq. by destruct (SharedMutex.owner m). }
  split; [unfold settled; simpl; by rewrite Hown|].
  destruct (mode c) eqn:Hm.
  - by eapply settled_owner; [|apply lookup_insert_eq|].
  - rewrite read_only_object by by apply shared_reads.
    by eapply settled_sharer; [|apply lookup_insert_eq|].
Qed.

Lemma unlock_settled s m ts tid c r :
  inv (mk_config s m ts) → ts !! tid = Some (Inside c (Ret r)) →
  settled (mk_config s (SharedMutex.release (mode c) tid m) (delete tid ts))
  = settled (mk_config s m ts).
Proof.
  intros Hinv Hth. destruct (mode c) eqn:Hm; simpl.
  - by rewrite (settled_owner _ _ _ _ _ _ Hinv Hth Hm).
  - destruct (settled_sharer _ _ _ _ _ _ Hinv Hth Hm) as [Hown ->].
    unfold settled. simpl. by rewrite Hown.
Qed.

(** An access leaves the other calls inside as they are. *)
Lemma access_ends s m ts tid c A (f : St → A * St) k :
  inv (mk_config s m ts) → ts !! tid = Some (Inside c (Access f k)) →
  (∀ tid c p, ts !! tid = Some (Inside c p) → ends turns p s) →
  ∀ tid' c' p, <[tid := Inside c (k (f s).1)]> ts !! tid' = Some (Inside c' p) →
    ends turns p (f s).2.
Proof.
  intros Hinv Hth Hends tid' c' p. rewrite lookup_insert. case_decide as Htid.
  - intros [= <- <-]. destruct (Hends _ _ _ Hth) as [Hsome Hle]. simpl in *. split; [done|lia].
  - intros Hth'. destruct (mode c) eqn:Hm.
    + by destruct Htid; rewrite (inv_excludes _ _ _ _ _ _ _ Hinv Hth Hm Hth').
    + destruct (inv_reads _ Hinv _ _ _ Hth Hm) as [-> _]. by apply (Hends tid' c').
Qed.

Lemma step_linked cfg evs cfg' acfg :
  linked cfg acfg → step cfg evs cfg' →
  ∃ acfg', traces (atomic spec) acfg evs acfg' ∧ linked cfg' acfg'.
Proof.
  intros [Hinv Hths Habs Hends] Hst. pose proof (step_inv _ _ _ Hst Hinv) as Hinv'.
  destruct acfg as [d ats]. simpl in Hths, Habs. subst ats.
  destruct Hst as [s m ts tid c Hth|s m m' ts tid c Hth Hacq
    |s m ts tid c A f k Hth|s m ts tid c r Hth|]; simpl in *.
  - exists (mk_aconfig d (<[tid := Pending c]> (abs_thread s <$> ts))). split.
    + apply traces_one. constructor. by rewrite lookup_fmap, Hth.
    + split; [done|by simpl; rewrite fmap_insert| |].
      * rewrite (settled_threads s m ts); [done| |done]. intros tid' c' p Hth'.
        apply lookup_insert_ne. congruence.
      * intros tid' c' p. simpl. rewrite lookup_insert. case_decide; [done|apply Hends].
  - destruct (lock_settled _ _ _ _ _ _ Hinv Hth Hacq) as [Hbefore Hafter].
    rewrite Hbefore in Habs.
    destruct (code_implements c s d Habs) as (r & s' & d' & Hrun & Hle & Hspec & Habs').
    exists (mk_aconfig d' (<[tid := Finished c r]> (abs_thread s <$> ts))). split.
    + apply traces_one. econstructor; [|done]. by rewrite lookup_fmap, Hth.
    + split; [done|simpl; rewrite fmap_insert; simpl; by rewrite Hrun| |].
      * rewrite Hafter. by rewrite (run_alone_final _ _ _ _ Hrun).
      * intros tid' c' p. simpl. rewrite lookup_insert. case_decide; [|apply Hends].
        intros [= <- <-]. split; [by rewrite Hrun|done].
  - exists (mk_aconfig d (abs_thread s <$> ts)). split; [constructor|].
    destruct (access_invisible _ _ _ _ _ _ _ _ Hinv Hth) as [Heq Hset].
    split; [done|by symmetry|by rewrite Hset|by apply (access_ends s m)].
  - exists (mk_aconfig d (delete tid (abs_thread s <$> ts))). split.
    + apply traces_one. constructor. by rewrite lookup_fmap, Hth.
    + split; [done|by simpl; rewrite fmap_delete| |].
      * by rewrite (unlock_settled _ _ _ _ _ _ Hinv Hth).
      * intros tid' c' p. simpl. rewrite lookup_delete. case_decide; [done|apply Hends].
  - eexists. by split; [constructor|].
Qed.

Lemma idle_linked s d : abs s d → linked (idle s) (aidle d).
Proof. intros Habs. by split; [apply inv_idle|simpl; by rewrite fmap_empty| |]. Qed.

(** From nobody in a call on: the traces are traces of atomic calls, and when all
    have returned the object is what the atomic calls make of it. *)
Lemma linearizable s d tr cfg :
  abs s d → traces step (idle s) tr cfg →
  ∃ acfg, traces (atomic spec) (aidle d) tr acfg
    ∧ abs (settled cfg) (aobject acfg)
    ∧ (threads cfg = ∅ → settled cfg = object cfg ∧ athreads acfg = ∅).
Proof.
  intros Habs Htr.
  destruct (simulation step (atomic spec) linked step_linked (idle s) tr cfg (aidle d))
    as (acfg & Hatr & [Hinv Hths Hset _]); [by apply idle_linked|done|].
  exists acfg. split_and!; [done|done|]. intros Hnone. rewrite Hths, Hnone, fmap_empty.
  split; [|done]. unfold settled. rewrite Hnone.
  by destruct (SharedMutex.owner (mutex cfg)) as [tid|]; rewrite ?lookup_empty.
Qed.

(** What a run can reach: a configuration all of whose calls inside end. *)
Definition sound cfg : Prop := ∃ acfg, linked cfg acfg.

Lemma traces_sound s d tr cfg : abs s d → traces step (idle s) tr cfg → sound cfg.
Proof.
  intros Habs Htr.
  destruct (simulation step (atomic spec) linked step_linked (idle s) tr cfg (aidle d))
    as (acfg & _ & Hlinked); [by apply idle_linked|done|by exists acfg].
Qed.

Lemma sound_step cfg evs cfg' : sound cfg → step cfg evs cfg' → sound cfg'.
Proof.
  intros [acfg Hlinked] Hst. destruct (step_linked _ _ _ _ Hlinked Hst) as (acfg' & _ & ?).
  by exists acfg'.
Qed.

End linearization.

(** ** No call waits for ever *)

Section liveness.
  Context {St C R : Type} `{LockedObjectLaws St C R}.
  Implicit Types (cfg : config St C R) (s : St) (ts : gmap nat (thread St C R)).

(** Somebody in a call can go on. *)
Lemma can_go_on cfg :
  inv cfg → threads cfg ≠ ∅ → ∃ cfg', goes_on cfg cfg'.
Proof.
  destruct cfg as [s m ts]. intros Hinv Hne. simpl in Hne.
  assert (∀ tid c p, ts !! tid = Some (Inside c p) →
            ∃ cfg', goes_on (mk_config s m ts) cfg') as Hinside.
  { intros tid c p Hth. destruct p as [r|A f k|]; eexists _, _; (split; [by econstructor|done]). }
  destruct (map_choose _ Hne) as (tid & [c|c p] & Hth); [|by eapply Hinside].
  destruct (SharedMutex.acquire (mode c) tid m) as [m'|] eqn:Hacq.
  { eexists _, _. split; [by econstructor|done]. }
  assert (∃ tid' md, held ts tid' = Some md) as (tid' & md & Hheld).
  { unfold SharedMutex.acquire in Hacq. destruct (SharedMutex.owner m) as [tid'|] eqn:Hown.
    - exists tid', Exclusive. by apply (inv_owner _ Hinv).
    - destruct (mode c); [|done]. case_decide as Hemp; [done|].
      destruct (set_choose_L _ Hemp) as [tid' Hin]. exists tid', Shared.
      by apply (inv_sharers _ Hinv). }
  unfold held in Hheld. destruct (ts !! tid') as [[c'|c' p']|] eqn:Hth'; try done.
  by eapply Hinside.
Qed.

(** What is left to do: the calls that wait for the mutex count most, then the
    accesses and the returns of those inside. *)
Definition weight (f : thread St C R → nat) ts : nat :=
  sum_list (f <$> (map_to_list ts).*2).

Definition waits (th : thread St C R) : nat :=
  match th with Waiting _ => 1 | Inside _ _ => 0 end.

Definition work s (th : thread St C R) : nat :=
  match th with Waiting _ => 0 | Inside _ p => S (accesses p s) end.

Definition to_do cfg : nat * nat :=
  (weight waits (threads cfg), weight (work (object cfg)) (threads cfg)).

Lemma weight_take f ts tid th :
  ts !! tid = Some th → weight f ts = f th + weight f (delete tid ts).
Proof.
  intros Hth. unfold weight. rewrite <-(map_to_list_delete ts tid th Hth). done.
Qed.

Lemma weight_insert f ts tid th :
  weight f (<[tid := th]> ts) = f th + weight f (delete tid ts).
Proof.
  rewrite (weight_take f _ tid th) by apply lookup_insert_eq. by rewrite delete_insert_eq.
Qed.

Lemma weight_ext f g ts :
  (∀ tid th, ts !! tid = Some th → f th = g th) → weight f ts = weight g ts.
Proof.
  intros Hfg. unfold weight. f_equal. apply list_fmap_ext. intros i th Hth.
  apply list_elem_of_lookup_2, list_elem_of_fmap in Hth as ([tid th'] & -> & Hin).
  apply elem_of_map_to_list in Hin. by eapply Hfg.
Qed.

Lemma goes_on_lt cfg cfg' :
  inv cfg → (∀ tid c, threads cfg !! tid ≠ Some (Inside c Spin)) → goes_on cfg cfg' →
  slexprod nat nat lt lt (to_do cfg') (to_do cfg).
Proof.
  intros Hinv Hends (evs & Hst & Hnew). destruct Hst as [s m ts tid c Hth|s m m' ts tid c Hth Hacq
    |s m ts tid c A f k Hth|s m ts tid c r Hth|s m ts tid c Hth]; unfold to_do; simpl.
  - by destruct (Hnew tid c).
  - left. rewrite weight_insert, (weight_take _ ts _ _ Hth). simpl. lia.
  - rewrite !weight_insert, !(weight_take _ ts _ _ Hth). right.
    assert (weight (work (f s).2) (delete tid ts) = weight (work s) (delete tid ts)) as ->.
    { apply weight_ext. intros tid' th [Hne Hth']%lookup_delete_Some.
      destruct th as [c'|c' p']; [done|]. simpl. destruct (mode c) eqn:Hm.
      - by destruct Hne; rewrite (inv_excludes _ _ _ _ _ _ _ Hinv Hth Hm Hth').
      - by destruct (inv_reads _ Hinv _ _ _ Hth Hm) as [-> _]. }
    simpl. lia.
  - rewrite !(weight_take _ ts _ _ Hth). right. simpl. lia.
  - by destruct (Hends tid c).
Qed.

End liveness.

Section returning.
  Context {St C R D : Type} `{LockedObjectLaws St C R}.
  Context (spec : C → D → R → D → Prop) (abs : St → D → Prop) (turns : nat).
  Context (code_implements : ∀ c s d, abs s d →
    ∃ r s' d', run_alone (code c) s = Some (r, s') ∧ accesses (code c) s ≤ turns
      ∧ spec c d r d' ∧ abs s' d').
  Implicit Types (cfg : config St C R).

Abbreviation sound_cfg := (sound abs turns).

Lemma sound_no_spin cfg tid c : sound_cfg cfg → threads cfg !! tid ≠ Some (Inside c Spin).
Proof. intros [acfg Hl] Hth. by destruct (linked_ends _ _ _ _ Hl _ _ _ Hth) as [[? ?] _]. Qed.

Lemma goes_on_wf cfg : sound_cfg cfg → Acc (λ cfg2 cfg1, goes_on cfg1 cfg2) cfg.
Proof.
  remember (to_do cfg) as n eqn:Hn. revert cfg Hn.
  induction (wf_slexprod nat nat lt lt lt_wf lt_wf n) as [n _ IH]. intros cfg -> Hsound.
  constructor. intros cfg' Hgo. eapply IH; [|done|].
  - apply goes_on_lt; [by destruct Hsound as [? []]| |done].
    intros tid c. by apply sound_no_spin.
  - destruct Hgo as (evs & Hst & _). by eapply (sound_step spec).
Qed.

(** Left to themselves the calls all return. *)
Lemma all_return cfg : sound_cfg cfg → ∃ cfg', rtc goes_on cfg cfg' ∧ threads cfg' = ∅.
Proof.
  intros Hsound. induction (goes_on_wf cfg Hsound) as [cfg _ IH].
  destruct (decide (threads cfg = ∅)) as [Hnone|Hsome]; [by exists cfg|].
  destruct (can_go_on cfg) as [cfg1 Hgo]; [by destruct Hsound as [? []]|done|].
  destruct (IH cfg1 Hgo) as (cfg' & Hrtc & Hnone).
  { destruct Hgo as (evs & Hst & _). by eapply (sound_step spec). }
  exists cfg'. split; [by eapply rtc_l|done].
Qed.

End returning.
