(* ===== verification/TableLock.v ===== *)
(** * The node table under its mutex, access by access

    src/registry/node_table.cpp once more, at a finer grain than Table.v: [code]
    gives each member function as the sequence of its accesses to the container
    (one look-up, one iterator step, one field assignment at a time), and [mode]
    how it takes [mutex_].  Run alone, the accesses amount to the definitions of
    Table.v ([code_alone]); under the mutex, whatever the threads' interleaving,
    they amount to atomic calls on the abstract directory.  A loop is given as many
    turns as it needs and no more: one that wants another is taken to be endless. *)

From Stdlib Require Import ZArith Lia.
From stdpp Require Import prelude gmap strings list relations.
From S2P Require Import Prelude UnorderedMap Messages NodeDir Table SharedMutex.

Local Open Scope drocm_scope.

(** ** Field assignments *)

Module EntryFields.
Import NodeEntry.
Definition set_last_heartbeat (v : Z) (e : t) : t :=
  mk (info e) (session_id e) v (missed_heartbeats e) (cpu_usage e) (memory_usage e).
Definition set_missed_heartbeats (v : Z) (e : t) : t :=
  mk (info e) (session_id e) (last_heartbeat e) v (cpu_usage e) (memory_usage e).
Definition set_cpu_usage (v : float32) (e : t) : t :=
  mk (info e) (session_id e) (last_heartbeat e) (missed_heartbeats e) v (memory_usage e).
Definition set_memory_usage (v : float32) (e : t) : t :=
  mk (info e) (session_id e) (last_heartbeat e) (missed_heartbeats e) (cpu_usage e) v.
End EntryFields.

Module TableCode.
Import NodeTable EntryFields.

Section code.
  Context `{!HashOrder NodeEntry.t}.

(** An assignment through an iterator: to the entry with its key. *)
Definition assign (id : string) (f : NodeEntry.t → NodeEntry.t) (tb : t) : t :=
  set_nodes (umap_update id f (nodes_ tb)) tb.

Definition erase (id : string) (tb : t) : t := set_nodes (umap_erase id (nodes_ tb)) tb.

Definition try_emplace (id : string) (e : NodeEntry.t) (tb : t) : bool * t :=
  let '(inserted, n) := umap_try_emplace id e (nodes_ tb) in (inserted, set_nodes n tb).

(** The loops go by the iterator's position and end where there is no element.
    They have [n] turns, one for each element and one to see the end; a loop that
    has not ended by then never does. *)

(** [for (const auto& [id, entry] : nodes_) candidates.push_back(entry);] *)
Fixpoint copy_from (n i : nat) (result : list NodeEntry.t)
    (k : list NodeEntry.t → prog t table_reply) : prog t table_reply :=
  match n with
  | O => Spin
  | S n =>
      load (λ tb, nodes_ tb !! i) (λ it,
        match it with
        | None => k result
        | Some (_, entry) => copy_from n (S i) (result ++ [entry]) k
        end)
  end.

(** [for (auto& [id, entry] : nodes_) entry.missed_heartbeats++;], the increment
    as its read and its write. *)
Fixpoint increment_from (n i : nat) : prog t table_reply :=
  match n with
  | O => Spin
  | S n =>
      load (λ tb, nodes_ tb !! i) (λ it,
        match it with
        | None => Ret RUnit
        | Some (id, entry) =>
            store (assign id (set_missed_heartbeats (NodeEntry.missed_heartbeats entry +u32 1)))
              (increment_from n (S i))
        end)
  end.

(** [it = nodes_.erase(it)] leaves the iterator at the next element. *)
Fixpoint remove_from (threshold : Z) (n i : nat) (removed : list string) : prog t table_reply :=
  match n with
  | O => Spin
  | S n =>
      load (λ tb, nodes_ tb !! i) (λ it,
        match it with
        | None => Ret (RRemoved removed)
        | Some (id, entry) =>
            if stale threshold entry then
              store (erase id) (remove_from threshold n i (removed ++ [id]))
            else remove_from threshold n (S i) removed
        end)
  end.

(** From the size read by [reserve], or by the loop's first look at [end()]. *)
Definition with_size (k : nat → prog t table_reply) : prog t table_reply :=
  load (λ tb, length (nodes_ tb)) k.

Definition code (op : table_op) : prog t table_reply :=
  match op with
  | OpRegister info session_id now =>
      load (λ tb, umap_size (nodes_ tb)) (λ size,
      load max_nodes_ (λ max_nodes,
        if (max_nodes <=? size)%Z then Ret (RFlag false)
        else
          Access (try_emplace (NodeInfo.node_id info) (NodeEntry.fresh info session_id now))
            (λ inserted, if negb inserted then Ret (RFlag false) else Ret (RFlag true))))
  | OpDeregister id =>
      load (λ tb, umap_find id (nodes_ tb)) (λ it,
        match it with
        | None => Ret (RFlag false)
        | Some _ => store (erase id) (Ret (RFlag true))
        end)
  | OpHeartbeat id cpu_usage memory_usage active_connections now =>
      load (λ tb, umap_find id (nodes_ tb)) (λ it,
        match it with
        | None => Ret (RFlag false)
        | Some _ =>
            store (assign id (set_last_heartbeat now))
           (store (assign id (set_missed_heartbeats 0))
           (store (assign id (set_cpu_usage cpu_usage))
           (store (assign id (set_memory_usage memory_usage))
           (Ret (RFlag true)))))
        end)
  | OpIncrement => with_size (λ n, increment_from (S n) 0)
  | OpRemoveStale threshold => with_size (λ n, remove_from threshold (S n) 0 [])
  | OpDiscover service_filter =>
      with_size (λ n, copy_from (S n) 0 [] (λ candidates,
        (* the filter works on the copies, with the lock still held *)
        Ret (RNodes (foldl (λ result entry,
               if selected service_filter entry then result ++ [entry] else result)
             [] candidates))))
  | OpAllNodes => with_size (λ n, copy_from (S n) 0 [] (λ result, Ret (RNodes result)))
  | OpNode id =>
      load (λ tb, umap_find id (nodes_ tb)) (λ it,
        match it with
        | None => Ret (REntry None)
        | Some _ => load (λ tb, umap_find id (nodes_ tb)) (λ entry, Ret (REntry entry))
        end)
  | OpCount => load (λ tb, umap_size (nodes_ tb)) (λ size, Ret (RCount (wrap_u32 size)))
  | OpHas id => load (λ tb, umap_contains id (nodes_ tb)) (λ found, Ret (RFlag found))
  end.

(** [std::unique_lock] in the functions that modify the table, [std::shared_lock]
    in the others. *)
Definition mode (op : table_op) : lock_mode :=
  match op with
  | OpRegister _ _ _ | OpDeregister _ | OpHeartbeat _ _ _ _ _ | OpIncrement
  | OpRemoveStale _ => Exclusive
  | OpDiscover _ | OpAllNodes | OpNode _ | OpCount | OpHas _ => Shared
  end.

#[export] Instance table_locked : LockedObject t table_op table_reply := {|
  SharedMutex.mode := mode;
  SharedMutex.code := code;
|}.

Lemma copy_read_only n i result k :
  (∀ l, read_only (k l)) → read_only (copy_from n i result k).
Proof.
  intros Hk. revert i result. induction n as [|n IH]; intros i result; [done|].
  split; [done|]. intros [[id e]|]; [apply IH|apply Hk].
Qed.

#[export] Instance table_locked_laws : LockedObjectLaws t table_op table_reply.
Proof.
  split. intros [] Hm; try done; try (by split; [done|]).
  - split; [done|]. intros n. by apply copy_read_only.
  - split; [done|]. intros n. by apply copy_read_only.
  - split; [done|]. by intros [e|].
Qed.

(** ** Run alone *)

Lemma copy_alone n tb pre suf result k :
  nodes_ tb = pre ++ suf → length suf < n →
  run_alone (copy_from n (length pre) result k) tb = run_alone (k (result ++ suf.*2)) tb.
Proof.
  revert pre suf result. induction n as [|n IH]; intros pre suf result Hn Hlen; [lia|].
  simpl. rewrite Hn. destruct suf as [|[id e] suf].
  - rewrite app_nil_r, lookup_ge_None_2 by done. by rewrite app_nil_r.
  - rewrite list_lookup_middle by done. simpl in Hlen.
    specialize (IH (pre ++ [(id, e)]) suf (result ++ [e])).
    rewrite length_app in IH. simpl in IH. rewrite Nat.add_1_r in IH.
    rewrite IH; [by rewrite <-(assoc_L (++))|by rewrite <-(assoc_L (++))|lia].
Qed.

Lemma update_middle id f (pre suf : umap NodeEntry.t) e :
  id ∉ pre.*1 → umap_update id f (pre ++ (id, e) :: suf) = pre ++ (id, f e) :: suf.
Proof.
  induction pre as [|[id' e'] pre IH]; simpl; [by rewrite decide_True|].
  rewrite not_elem_of_cons. intros [Hne Hpre]. rewrite decide_False by done. by rewrite IH.
Qed.

Lemma erase_middle id (pre suf : umap NodeEntry.t) e :
  id ∉ pre.*1 → umap_erase id (pre ++ (id, e) :: suf) = pre ++ suf.
Proof.
  induction pre as [|[id' e'] pre IH]; simpl; [by rewrite decide_True|].
  rewrite not_elem_of_cons. intros [Hne Hpre]. rewrite decide_False by done. by rewrite IH.
Qed.

Lemma wf_middle (pre suf : umap NodeEntry.t) id e :
  umap_wf (pre ++ (id, e) :: suf) → (id ∉ pre.*1) ∧ umap_wf (pre ++ suf).
Proof.
  intros Hwf. pose proof (NoDup_Permutation_proper _ _ (Permutation_middle pre.*1 suf.*1 id)) as Hp.
  unfold umap_wf in *. rewrite fmap_app in *. simpl in Hwf. apply Hp, NoDup_cons in Hwf as [Hid Hwf].
  rewrite elem_of_app in Hid. split; [by auto|done].
Qed.

Lemma increment_alone n tb pre suf :
  nodes_ tb = pre ++ suf → umap_wf (nodes_ tb) → length suf < n →
  run_alone (increment_from n (length pre)) tb
  = Some (RUnit, set_nodes (pre ++ umap_for_each NodeEntry.miss suf) tb).
Proof.
  revert tb pre suf. induction n as [|n IH]; intros tb pre suf Hn Hwf Hlen; [lia|].
  simpl. rewrite Hn. destruct suf as [|[id e] suf].
  - rewrite !app_nil_r, lookup_ge_None_2 by done. simpl. rewrite app_nil_r in Hn.
    rewrite <-Hn. by destruct tb.
  - rewrite list_lookup_middle by done. simpl in Hlen |- *. rewrite Hn in Hwf.
    destruct (wf_middle pre suf id e Hwf) as [Hid _].
    set (tb' := assign _ _ tb).
    assert (nodes_ tb' = (pre ++ [(id, NodeEntry.miss e)]) ++ suf) as Hn'.
    { unfold tb', assign. simpl. rewrite Hn, update_middle by done. by rewrite <-(assoc_L (++)). }
    specialize (IH tb' _ _ Hn'). rewrite length_app in IH. simpl in IH.
    rewrite Nat.add_1_r in IH. rewrite IH.
    + by rewrite <-(assoc_L (++)).
    + apply umap_update_wf. by rewrite Hn.
    + lia.
Qed.

Lemma remove_alone threshold n tb pre suf removed :
  nodes_ tb = pre ++ suf → umap_wf (nodes_ tb) → length suf < n →
  run_alone (remove_from threshold n (length pre) removed) tb
  = let '(r, rest) := umap_erase_if_loop (stale threshold) suf removed in
    Some (RRemoved r, set_nodes (pre ++ rest) tb).
Proof.
  revert tb pre suf removed. induction n as [|n IH]; intros tb pre suf removed Hn Hwf Hlen; [lia|].
  simpl. rewrite Hn. destruct suf as [|[id e] suf].
  - rewrite !app_nil_r, lookup_ge_None_2 by done. simpl. rewrite app_nil_r in *.
    rewrite <-Hn. by destruct tb.
  - rewrite list_lookup_middle by done. simpl in Hlen |- *. rewrite Hn in Hwf.
    destruct (wf_middle pre suf id e Hwf) as [Hid Hwf'].
    destruct (stale threshold e); simpl.
    + assert (nodes_ (erase id tb) = pre ++ suf) as Hn'
        by (unfold erase; simpl; by rewrite Hn, erase_middle).
      rewrite (IH _ _ _ _ Hn'); [|by rewrite Hn'|lia].
      by destruct (umap_erase_if_loop _ suf _).
    + specialize (IH tb (pre ++ [(id, e)]) suf removed).
      rewrite length_app in IH. simpl in IH. rewrite Nat.add_1_r in IH.
      rewrite IH; [|by rewrite Hn, <-(assoc_L (++))|by rewrite Hn|lia].
      destruct (umap_erase_if_loop _ suf _). by rewrite <-(assoc_L (++)).
Qed.

Lemma update_update id f g (m : umap NodeEntry.t) :
  umap_update id f (umap_update id g m) = umap_update id (λ e, f (g e)) m.
Proof.
  induction m as [|[id' e] m IH]; simpl; [done|].
  destruct (decide (id = id')) as [Heq|Hne] eqn:Hd; simpl; rewrite Hd; [done|by rewrite IH].
Qed.

(** The accesses of a call, one after the other, amount to the call. *)
Lemma code_alone op tb : wf tb → run_alone (code op) tb = Some (exec op tb).
Proof.
  intros Hwf. pose proof (wf_keys tb Hwf) as Hkeys. set (n := S (length (nodes_ tb))).
  assert (length (nodes_ tb) < n) as Hn by (unfold n; lia).
  pose proof (copy_alone n tb [] (nodes_ tb) [] ) as Hcopy.
  destruct op.
  - simpl. unfold register_node, try_emplace.
    destruct (max_nodes_ tb <=? umap_size (nodes_ tb))%Z; [done|].
    simpl. by destruct (umap_try_emplace _ _ _) as [[] m].
  - simpl. unfold deregister_node. by destruct (umap_find id (nodes_ tb)).
  - simpl. unfold update_heartbeat. destruct (umap_find id (nodes_ tb)); [|done]. simpl.
    unfold assign, on_reply. simpl. by rewrite !update_update.
  - exact (increment_alone n tb [] (nodes_ tb) eq_refl Hkeys Hn).
  - etrans; [exact (remove_alone threshold n tb [] (nodes_ tb) [] eq_refl Hkeys Hn)|].
    simpl. unfold remove_stale_nodes. by destruct (umap_erase_if_loop _ _ _).
  - etrans; [exact (Hcopy _ eq_refl Hn)|]. simpl. unfold get_nodes_by_service.
    fold (get_all_nodes tb). by rewrite get_all_nodes_eq.
  - etrans; [exact (Hcopy _ eq_refl Hn)|]. simpl. by rewrite get_all_nodes_eq.
  - simpl. unfold get_node. by destruct (umap_find id (nodes_ tb)) eqn:Hf; simpl; rewrite ?Hf.
  - done.
  - done.
Qed.

(** How many accesses that takes: the loops look at each element, and once at the
    end, and change each element at most once. *)
Lemma copy_turns n i result k tb :
  (∀ l, accesses (k l) tb = 0) → accesses (copy_from n i result k) tb ≤ n.
Proof.
  intros Hk. revert i result. induction n as [|n IH]; intros i result; [done|]. simpl.
  destruct (nodes_ tb !! i) as [[id e]|]; [|rewrite Hk; lia]. specialize (IH (S i) (result ++ [e])). lia.
Qed.

Lemma increment_turns n i tb : accesses (increment_from n i) tb ≤ 2 * n.
Proof.
  revert i tb. induction n as [|n IH]; intros i tb; [done|]. simpl.
  destruct (nodes_ tb !! i) as [[id e]|]; [|simpl; lia]. simpl.
  match goal with |- context [accesses _ ?tb'] => specialize (IH (S i) tb') end. lia.
Qed.

Lemma remove_turns threshold n i removed tb :
  accesses (remove_from threshold n i removed) tb ≤ 2 * n.
Proof.
  revert i removed tb. induction n as [|n IH]; intros i removed tb; [done|]. simpl.
  destruct (nodes_ tb !! i) as [[id e]|]; [|simpl; lia]. destruct (stale threshold e); simpl.
  - specialize (IH i (removed ++ [id]) (erase id tb)). lia.
  - specialize (IH (S i) removed tb). lia.
Qed.

Lemma copying_turns k tb :
  (∀ l, accesses (k l) tb = 0) →
  accesses (with_size (λ n, copy_from (S n) 0 [] k)) tb ≤ 2 * length (nodes_ tb) + 5.
Proof.
  intros Hk. pose proof (copy_turns (S (length (nodes_ tb))) 0 [] k tb Hk). simpl in *. lia.
Qed.

Lemma code_turns op tb : accesses (code op) tb ≤ 2 * length (nodes_ tb) + 5.
Proof.
  destruct op as [info sid now|id|id cpu mem conns now| |threshold|services| |id| |id].
  - simpl. destruct (max_nodes_ tb <=? _)%Z; [simpl; lia|]. simpl.
    destruct (try_emplace _ _ _) as [[] tb']; simpl; lia.
  - simpl. destruct (umap_find id (nodes_ tb)); simpl; lia.
  - simpl. destruct (umap_find id (nodes_ tb)); simpl; lia.
  - pose proof (increment_turns (S (length (nodes_ tb))) 0 tb). simpl in *. lia.
  - pose proof (remove_turns threshold (S (length (nodes_ tb))) 0 [] tb). simpl in *. lia.
  - by apply copying_turns.
  - by apply copying_turns.
  - simpl. destruct (umap_find id (nodes_ tb)); simpl; lia.
  - simpl. lia.
  - simpl. lia.
Qed.

End code.
End TableCode.

Import TableCode.

(** ** What the directory does, as a specification of atomic calls *)

(** Lists are answered in any order. *)
Definition dir_spec (capacity : Z) (op : table_op) (d : Directory.t) (r : table_reply)
    (d' : Directory.t) : Prop :=
  reply_equiv r (dir_exec capacity op d).1 ∧ d' = (dir_exec capacity op d).2.

Section claims.
  Context `{!HashOrder NodeEntry.t}.

(** The table stands for the directory [d]. *)
Definition represents (capacity : Z) (tb : NodeTable.t) (d : Directory.t) : Prop :=
  NodeTable.wf tb ∧ NodeTable.abs tb = d ∧ NodeTable.max_nodes_ tb = capacity.

(** The most accesses a call makes on a table of this capacity. *)
Definition most_accesses (capacity : Z) : nat := 2 * Z.to_nat capacity + 5.

Lemma code_represents capacity op tb d :
  represents capacity tb d →
  ∃ r tb' d', run_alone (SharedMutex.code op) tb = Some (r, tb')
    ∧ accesses (SharedMutex.code op) tb ≤ most_accesses capacity
    ∧ dir_spec capacity op d r d' ∧ represents capacity tb' d'.
Proof.
  intros (Hwf & <- & <-). change (SharedMutex.code op) with (TableCode.code op).
  rewrite code_alone by done. pose proof (exec_refines op tb Hwf) as Hop.
  pose proof (code_turns op tb) as Hturns. pose proof (NodeTable.wf_size tb Hwf) as Hcap.
  destruct (exec op tb) as [r tb']. exists r, tb'. simpl in *. unfold dir_spec.
  destruct (dir_exec _ op (NodeTable.abs tb)) as [r' d'].
  destruct Hop as (Hr & Habs & Hwf' & Hcap'). exists d'. split_and!; [done| |done..].
  unfold most_accesses, umap_size in *. simpl in *. lia.
Qed.

(** What threads that call a new table's functions can do. *)
Definition reaches (capacity : Z) (tr : list (event table_op table_reply))
    (cfg : config NodeTable.t table_op table_reply) : Prop :=
  traces step (idle (NodeTable.NodeTable capacity)) tr cfg.

Lemma new_represents capacity :
  in_u32 capacity → represents capacity (NodeTable.NodeTable capacity) ∅.
Proof. intros. by split_and!; [apply NodeTable.NodeTable_wf| |]. Qed.

(** C1: the table is linearizable.  Threads may call its functions at any time and
    get on with them access by access in any order the mutex allows; what they
    see, every call and every answer in the order they happen, is a trace of atomic
    calls on the abstract directory, each taking effect at one instant between its
    call and its return.  When no call is under way the table is well-formed and
    is the directory that these atomic calls have made. *)
Theorem table_linearizable capacity tr cfg :
  in_u32 capacity → reaches capacity tr cfg →
  ∃ acfg, traces (atomic (dir_spec capacity)) (aidle ∅) tr acfg
    ∧ (threads cfg = ∅ →
         NodeTable.wf (object cfg) ∧ NodeTable.abs (object cfg) = aobject acfg
         ∧ athreads acfg = ∅).
Proof.
  intros Hcap Htr.
  destruct (linearizable (dir_spec capacity) (represents capacity) (most_accesses capacity)
    (code_represents capacity) _ ∅ tr cfg (new_represents capacity Hcap) Htr)
    as (acfg & Hatr & (Hwf & Habs & _) & Hdone).
  exists acfg. split; [done|]. intros Hnone. destruct (Hdone Hnone) as [Heq Hths].
  by rewrite Heq in Hwf, Habs.
Qed.

(** The lock keeps readers and writers apart.  Whenever two threads are inside
    the table's functions, both share the lock and no step of any thread changes
    the table; so no function ever sees an entry that another has half updated,
    and the counter's read and write in an increment are not torn apart. *)
Theorem readers_and_writers_apart capacity tr cfg tid1 op1 p1 tid2 op2 p2 :
  reaches capacity tr cfg →
  threads cfg !! tid1 = Some (Inside op1 p1) → threads cfg !! tid2 = Some (Inside op2 p2) →
  tid1 ≠ tid2 →
  TableCode.mode op1 = Shared ∧ TableCode.mode op2 = Shared
  ∧ ∀ evs cfg', step cfg evs cfg' → object cfg' = object cfg.
Proof.
  intros Htr H1 H2 Hne. pose proof (traces_inv _ _ _ Htr) as Hinv.
  assert (∀ tid op p tid' op' p', threads cfg !! tid = Some (Inside op p) →
            threads cfg !! tid' = Some (Inside op' p') → tid ≠ tid' →
            TableCode.mode op = Shared) as Hshared.
  { intros tid op p tid' op' p' Hth Hth' Hd. destruct (TableCode.mode op) eqn:Hm; [|done].
    by destruct Hd; rewrite (inv_excludes _ _ _ _ _ _ _ Hinv Hth Hm Hth'). }
  split_and!; [by eapply (Hshared tid1 _ _ tid2)|by eapply (Hshared tid2 _ _ tid1)|].
  intros evs cfg' Hst. destruct Hst as [| |s m ts tid op A f k Hth| |]; [done..| |done|done]. simpl.
  assert (TableCode.mode op = Shared) as Hm.
  { destruct (decide (tid = tid1)) as [->|];
      [by eapply (Hshared tid1 _ _ tid2)|by eapply (Hshared tid _ _ tid1)]. }
  by destruct (inv_reads _ Hinv _ _ _ Hth Hm) as [-> _].
Qed.

(** C34: the table's calls all return.  As long as a call is under way some thread can
    go on; there is no endless way to go on without new calls, as none of the loops is
    endless; a call that has the mutex returns after at most two accesses for each
    entry the table may have, and five more; and so all calls can return. *)
Theorem table_calls_return capacity tr cfg :
  in_u32 capacity → reaches capacity tr cfg →
  (threads cfg ≠ ∅ → ∃ cfg', goes_on cfg cfg')
  ∧ Acc (λ cfg2 cfg1, goes_on cfg1 cfg2) cfg
  ∧ (∀ tid op p, threads cfg !! tid = Some (Inside op p) →
       is_Some (run_alone p (object cfg))
       ∧ accesses p (object cfg) ≤ 2 * Z.to_nat capacity + 5)
  ∧ ∃ cfg', rtc goes_on cfg cfg' ∧ threads cfg' = ∅.
Proof.
  intros Hcap Htr. pose proof (traces_inv _ _ _ Htr) as Hinv.
  pose proof (traces_sound _ _ _ (code_represents capacity) _ _ _ _
                (new_represents capacity Hcap) Htr) as Hsound.
  split_and!; [by apply can_go_on|by eapply goes_on_wf, Hsound; apply code_represents| |].
  - destruct Hsound as [acfg Hlinked]. apply (linked_ends _ _ _ _ Hlinked).
  - by eapply all_return, Hsound; apply code_represents.
Qed.

End claims.

(** * Examples *)

#[local] Instance sample_order : HashOrder NodeEntry.t := front_order _.

Definition sample_heartbeat_op : table_op :=
  OpHeartbeat "lidar_01" (float_of_Z 15) (float_of_Z 45) 2 7.

(** Two readers overlap each other while the checker and a heartbeat wait. *)
Definition sample_schedule : list (action table_op) :=
  [Invoke 1 (OpRegister (sample_info "lidar_01" ["lidar"]) "s1" 0); Go 1; Go 1; Go 1; Go 1; Go 1;
   Invoke 2 (OpDiscover []); Invoke 3 OpAllNodes; Invoke 4 OpIncrement; Go 2; Go 2; Go 3; Go 3;
   Invoke 1 sample_heartbeat_op; Go 3; Go 2; Go 3; Go 3; Go 2; Go 2;
   Go 4; Go 4; Go 4; Go 4; Go 4; Go 4; Go 1; Go 1; Go 1; Go 1].

(** Where a part of the schedule leads. *)
Definition sample_after (n : nat) : config NodeTable.t table_op table_reply :=
  default (idle (NodeTable.NodeTable 2))
    (snd <$> run_schedule (take n sample_schedule) [] (idle (NodeTable.NodeTable 2))).

Definition schedule_runs (n : nat) : bool :=
  match run_schedule (R := table_reply) (take n sample_schedule) []
          (idle (NodeTable.NodeTable 2)) with
  | Some _ => true
  | None => false
  end.

Lemma sample_traces n :
  schedule_runs n = true → ∃ tr, traces step (idle (NodeTable.NodeTable 2)) tr (sample_after n).
Proof.
  unfold schedule_runs, sample_after.
  destruct (run_schedule (take n sample_schedule) [] _) as [[tr cfg]|] eqn:Hrun; [|done].
  intros _. exists tr. by eapply run_schedule_traces; [constructor|].
Qed.

(** The heartbeat is half way through its assignments: a torn entry, but with the
    lock held. *)
Lemma table_linearizable_witness :
  ∃ tr acfg,
    traces step (idle (NodeTable.NodeTable 2)) tr (sample_after 30)
    ∧ traces (atomic (dir_spec 2)) (aidle ∅) tr acfg
    ∧ (λ kv, (NodeEntry.last_heartbeat kv.2, NodeEntry.cpu_usage kv.2))
        <$> NodeTable.nodes_ (object (sample_after 30)) = [(7%Z, float_zero)].
Proof.
  destruct (sample_traces 30) as [tr Htr]; [by vm_compute|].
  destruct (table_linearizable 2 tr (sample_after 30)) as (acfg & Hatr & _); [by split|done|].
  exists tr, acfg. split; [exact Htr|]. split; [exact Hatr|]. by vm_compute.
Defined.

(** Threads 2 and 3 are reading. *)
Lemma readers_and_writers_apart_witness :
  SharedMutex.sharers (mutex (sample_after 13)) = {[2; 3]}
  ∧ ∀ evs cfg', step (sample_after 13) evs cfg' → object cfg' = object (sample_after 13).
Proof.
  split; [by vm_compute|]. intros evs cfg'.
  destruct (sample_traces 13) as [tr Htr]; [by vm_compute|].
  destruct (threads (sample_after 13) !! 2) as [[op2|op2 p2]|] eqn:H2;
    [by vm_compute in H2| |by vm_compute in H2].
  destruct (threads (sample_after 13) !! 3) as [[op3|op3 p3]|] eqn:H3;
    [by vm_compute in H3| |by vm_compute in H3].
  by apply (readers_and_writers_apart 2 tr (sample_after 13) 2 op2 p2 3 op3 p3).
Defined.

Lemma table_calls_return_witness :
  size (threads (sample_after 13)) = 3
  ∧ ∃ cfg', rtc goes_on (sample_after 13) cfg' ∧ threads cfg' = ∅.
Proof.
  destruct (sample_traces 13) as [tr Htr]; [by vm_compute|]. split; [by vm_compute|].
  apply (table_calls_return 2 tr (sample_after 13)); [by split|exact Htr].
Defined.
