(* ===== verification/Registry.v ===== *)
(** * The registry service (src/registry/registry_service.h, registry_service.cpp)

    [Module RegistryService] is the class: its state is a node directory and the
    running flag, and each RPC handler is one definition, with the branches and
    the writes to the response of the code.  A handler takes the request, the
    response object gRPC hands it and the readings it takes ([std::rand()], the
    clock) and returns the status, the response as it leaves it and the new
    state.  The service is written against the interface [NodeDirectory], and
    the theorems against its laws. *)

From Stdlib Require Import ZArith Lia Ascii.
From stdpp Require Import prelude gmap strings list.
From S2P Require Import Prelude UnorderedMap Messages Grpc NodeDir Table.

Local Open Scope drocm_scope.

Module RegistryService.

Record t (T : Type) := mk { node_table_ : T; is_running_ : bool }.
Arguments mk {T}.
Arguments node_table_ {T}.
Arguments is_running_ {T}.

Section service.
  Context {T : Type} `{NodeDirectory T} `{G : GrpcStatus}.
  Implicit Types s : t T.

(** The constructor ([max_nodes] is 10000 by default). *)
Definition RegistryServiceImpl (max_nodes : Z) : t T := mk (new_directory max_nodes) true.

Definition set_table (tb : T) s : t T := mk tb (is_running_ s).

(** [info.node_id() + "_" + std::to_string(std::rand())] *)
Definition make_session_id (node_id : string) (rand : Z) : string :=
  node_id +:+ "_" +:+ to_string rand.

(** [Register] from the end of its first [if] on: the rest of a call that has seen
    the running flag set. *)
Definition Register_admitted (request : RegisterRequest.t) (response : RegisterResponse.t)
    (rand now : Z) s : Status * RegisterResponse.t * t T :=
  if negb (RegisterRequest.has_node_info request) then
    (mkStatus INVALID_ARGUMENT "Missing node_info",
     response |> RegisterResponse.set_success false
              |> RegisterResponse.set_error_message "Missing node_info field", s)
  else
    let info := RegisterRequest.get_node_info request in
    if String.eqb (NodeInfo.node_id info) "" then
      (mkStatus INVALID_ARGUMENT "Empty node_id",
       response |> RegisterResponse.set_success false
                |> RegisterResponse.set_error_message "node_id cannot be empty", s)
    else
      let session_id := make_session_id (NodeInfo.node_id info) rand in
      let '(registered, tb) := register_node info session_id now (node_table_ s) in
      if negb registered then
        (mkStatus ALREADY_EXISTS "Duplicate node",
         response |> RegisterResponse.set_success false
                  |> RegisterResponse.set_error_message
                       "Node already registered or table full", set_table tb s)
      else
        (Status_OK,
         response |> RegisterResponse.set_success true
                  |> RegisterResponse.set_session_id session_id
                  |> RegisterResponse.set_heartbeat_interval 1000
                  |> RegisterResponse.set_error_message "", set_table tb s).

Definition Register (request : RegisterRequest.t) (response : RegisterResponse.t)
    (rand now : Z) s : Status * RegisterResponse.t * t T :=
  if negb (is_running_ s) then
    (mkStatus UNAVAILABLE "Service is shutting down", response, s)
  else Register_admitted request response rand now s.

Definition Heartbeat (request : HeartbeatRequest.t) (response : HeartbeatResponse.t)
    (now : Z) s : Status * HeartbeatResponse.t * t T :=
  if String.eqb (HeartbeatRequest.node_id request) "" then
    (mkStatus INVALID_ARGUMENT "Empty node_id",
     response |> HeartbeatResponse.set_success false, s)
  else
    let '(found, tb) :=
      update_heartbeat (HeartbeatRequest.node_id request)
        (HeartbeatRequest.cpu_usage request) (HeartbeatRequest.memory_usage request)
        (HeartbeatRequest.active_connections request) now (node_table_ s) in
    if negb found then
      (mkStatus NOT_FOUND "Node not registered",
       response |> HeartbeatResponse.set_success false
                |> HeartbeatResponse.set_missed_heartbeats 0
                |> HeartbeatResponse.set_should_reconnect true, set_table tb s)
    else
      (Status_OK,
       response |> HeartbeatResponse.set_success true
                |> HeartbeatResponse.set_missed_heartbeats 0
                |> HeartbeatResponse.set_should_reconnect false, set_table tb s).

Definition Deregister (request : DeregisterRequest.t) (response : DeregisterResponse.t)
    s : Status * DeregisterResponse.t * t T :=
  let '(removed, tb) := deregister_node (DeregisterRequest.node_id request) (node_table_ s) in
  if negb removed then
    (mkStatus NOT_FOUND "Node not found",
     response |> DeregisterResponse.set_success false
              |> DeregisterResponse.set_message "Node not found", set_table tb s)
  else
    (Status_OK,
     response |> DeregisterResponse.set_success true
              |> DeregisterResponse.set_message "Node deregistered gracefully",
     set_table tb s).

Definition Discover (request : DiscoverRequest.t) (response : DiscoverResponse.t)
    s : Status * DiscoverResponse.t * t T :=
  let filter :=
    foldl (λ f svc, f ++ [svc]) [] (DiscoverRequest.service_filter request) in
  let nodes := get_nodes_by_service filter (node_table_ s) in
  let response' :=
    foldl (λ r entry, DiscoverResponse.add_nodes (NodeEntry.info entry) r) response nodes in
  (Status_OK, response', s).

Definition get_node_table s : T := node_table_ s.

(** [is_running_.exchange(false)]: a second call changes nothing. *)
Definition Shutdown s : t T :=
  if negb (is_running_ s) then s else mk (node_table_ s) false.

Definition is_running s : bool := is_running_ s.

End service.

(** ** Session ids *)

Lemma make_session_id_inj id1 id2 r1 r2 :
  (0 ≤ r1)%Z → (0 ≤ r2)%Z →
  make_session_id id1 r1 = make_session_id id2 r2 → id1 = id2 ∧ r1 = r2.
Proof.
  intros Hr1 Hr2 Heq. unfold make_session_id in Heq.
  apply (split_at_last "_"%char) in Heq as [-> Heq];
    [|by apply digits_no_underscore, to_string_digits..].
  split; [done|]. by apply to_string_inj.
Qed.

End RegistryService.

Import RegistryService.

(** The directory behind a service, and its invariant. *)
Definition svc_abs `{NodeDirectory T} (s : t T) : Directory.t := dir_abs (node_table_ s).
Definition svc_wf `{NodeDirectory T} (s : t T) : Prop := dir_wf (node_table_ s).
Definition svc_capacity `{NodeDirectory T} (s : t T) : Z := dir_capacity (node_table_ s).

Section properties.
  Context {T : Type} `{NodeDirectoryLaws T} `{G : GrpcStatus}.
  Implicit Types s : t T.

(** Each handler's effect on the directory. *)
Lemma Register_admitted_effect req resp rand now s :
  svc_wf s →
  let '(_, _, s') := Register_admitted req resp rand now s in
  svc_wf s' ∧ svc_capacity s' = svc_capacity s ∧ is_running_ s' = is_running_ s
  ∧ svc_abs s' =
      match RegisterRequest.node_info req with
      | Some info =>
          if negb (String.eqb (NodeInfo.node_id info) "") then
            (Directory.register (svc_capacity s) info
               (make_session_id (NodeInfo.node_id info) rand) now (svc_abs s)).2
          else svc_abs s
      | None => svc_abs s
      end.
Proof.
  intros Hwf. destruct s as [tb run]. unfold svc_wf, svc_abs, svc_capacity in *. simpl in Hwf.
  unfold Register_admitted, RegisterRequest.has_node_info, RegisterRequest.get_node_info. simpl.
  destruct (RegisterRequest.node_info req) as [info|]; simpl; [|done].
  destruct (String.eqb (NodeInfo.node_id info) ""); simpl; [done|].
  destruct (register_node_refines info (make_session_id (NodeInfo.node_id info) rand) now
              tb Hwf) as (Hs & Hw & Hc). cbv beta in Hs.
  destruct (register_node _ _ _ tb) as [registered tb']. simpl in *.
  destruct registered; simpl; by rewrite Hs.
Qed.

Lemma Register_effect req resp rand now s :
  svc_wf s →
  let '(_, _, s') := Register req resp rand now s in
  svc_wf s' ∧ svc_capacity s' = svc_capacity s ∧ is_running_ s' = is_running_ s
  ∧ svc_abs s' =
      match RegisterRequest.node_info req with
      | Some info =>
          if is_running_ s && negb (String.eqb (NodeInfo.node_id info) "") then
            (Directory.register (svc_capacity s) info
               (make_session_id (NodeInfo.node_id info) rand) now (svc_abs s)).2
          else svc_abs s
      | None => svc_abs s
      end.
Proof.
  intros Hwf. pose proof (Register_admitted_effect req resp rand now s Hwf) as Heff.
  unfold Register. destruct (is_running_ s) eqn:Hrun; simpl; [exact Heff|].
  by destruct (RegisterRequest.node_info req).
Qed.

Lemma Heartbeat_effect req resp now s :
  svc_wf s →
  let '(_, _, s') := Heartbeat req resp now s in
  svc_wf s' ∧ svc_capacity s' = svc_capacity s ∧ is_running_ s' = is_running_ s
  ∧ svc_abs s' =
      if String.eqb (HeartbeatRequest.node_id req) "" then svc_abs s
      else alter (NodeEntry.refresh (HeartbeatRequest.cpu_usage req)
                    (HeartbeatRequest.memory_usage req) now)
             (HeartbeatRequest.node_id req) (svc_abs s).
Proof.
  intros Hwf. destruct s as [tb run]. unfold svc_wf, svc_abs, svc_capacity in *. simpl in Hwf.
  unfold Heartbeat. simpl. destruct (String.eqb _ ""); simpl; [done|].
  destruct (update_heartbeat_refines (HeartbeatRequest.node_id req)
              (HeartbeatRequest.cpu_usage req) (HeartbeatRequest.memory_usage req)
              (HeartbeatRequest.active_connections req) now tb Hwf) as (Hs & Hw & Hc).
  cbv beta in Hs. unfold Directory.heartbeat in Hs.
  destruct (update_heartbeat _ _ _ _ _ tb) as [found tb']. simpl in *.
  injection Hs as _ Hs. by destruct found.
Qed.

Lemma Deregister_effect req resp s :
  svc_wf s →
  let '(_, _, s') := Deregister req resp s in
  svc_wf s' ∧ svc_capacity s' = svc_capacity s ∧ is_running_ s' = is_running_ s
  ∧ svc_abs s' = delete (DeregisterRequest.node_id req) (svc_abs s).
Proof.
  intros Hwf. destruct s as [tb run]. unfold svc_wf, svc_abs, svc_capacity in *. simpl in Hwf.
  unfold Deregister. simpl.
  destruct (deregister_node_refines (DeregisterRequest.node_id req) tb Hwf) as (Hs & Hw & Hc).
  cbv beta in Hs. unfold Directory.deregister in Hs.
  destruct (deregister_node _ tb) as [removed tb']. simpl in *.
  injection Hs as _ Hs. by destruct removed.
Qed.

(** What [Discover] adds to the response. *)
Lemma Discover_nodes req resp s :
  DiscoverResponse.nodes (Discover req resp s).1.2
  = DiscoverResponse.nodes resp
    ++ (NodeEntry.info <$> get_nodes_by_service (DiscoverRequest.service_filter req)
                             (node_table_ s)).
Proof.
  unfold Discover. rewrite foldl_push_back_id. simpl.
  generalize (get_nodes_by_service (DiscoverRequest.service_filter req) (node_table_ s)) as l.
  intros l. revert resp. induction l as [|e l IH]; intros r; csimpl.
  - by rewrite app_nil_r.
  - rewrite IH. simpl. by rewrite <-app_assoc.
Qed.

(** Which node infos that is. *)
Lemma found_nodes services info s :
  svc_wf s →
  info ∈ NodeEntry.info <$> get_nodes_by_service services (node_table_ s)
  ↔ ∃ e, svc_abs s !! NodeInfo.node_id info = Some e
         ∧ NodeEntry.info e = info ∧ Directory.healthy services e.
Proof.
  intros Hwf.
  rewrite (get_nodes_by_service_spec services (node_table_ s) Hwf), list_elem_of_fmap.
  unfold svc_abs. split.
  - intros (e & -> & [Hh [[id e'] [-> Hin]]%list_elem_of_fmap]%list_elem_of_filter).
    apply elem_of_map_to_list in Hin. exists e'. simpl.
    by destruct (dir_wf_entry _ _ _ Hwf Hin) as [-> _].
  - intros (e & Hin & <- & Hh). exists e. split; [done|].
    apply list_elem_of_filter. split; [done|]. apply list_elem_of_fmap.
    eexists (_, e). split; [done|]. by apply elem_of_map_to_list.
Qed.

End properties.

(** * Properties *)

Section claims.
  Context {T : Type} `{NodeDirectoryLaws T} `{G : GrpcStatus}.
  Implicit Types s : t T.

(** C28: every branch of [Register], with its status, its response and its effect
    on the directory.  A node is added exactly when the service is running, the
    request carries a node with a non-empty id, the id is free and there is room;
    every refusal leaves the directory as it was. *)
Theorem Register_outcomes req resp rand now s :
  svc_wf s →
  let '(st, resp', s') := Register req resp rand now s in
  match is_running_ s, RegisterRequest.node_info req with
  | false, _ =>
      st = mkStatus UNAVAILABLE "Service is shutting down" ∧ resp' = resp ∧ s' = s
  | true, None =>
      st = mkStatus INVALID_ARGUMENT "Missing node_info"
      ∧ RegisterResponse.success resp' = false ∧ s' = s
  | true, Some info =>
      let id := NodeInfo.node_id info in
      let sid := make_session_id id rand in
      (id = "" →
         st = mkStatus INVALID_ARGUMENT "Empty node_id"
         ∧ RegisterResponse.success resp' = false ∧ s' = s)
      ∧ (id ≠ "" → ¬ Directory.accepts (svc_capacity s) id (svc_abs s) →
           st = mkStatus ALREADY_EXISTS "Duplicate node"
           ∧ RegisterResponse.success resp' = false ∧ svc_abs s' = svc_abs s)
      ∧ (id ≠ "" → Directory.accepts (svc_capacity s) id (svc_abs s) →
           st = Status_OK
           ∧ resp' = RegisterResponse.mk true sid 1000 ""
           ∧ svc_abs s' = <[id := NodeEntry.fresh info sid now]> (svc_abs s))
  end.
Proof.
  intros Hwf. destruct s as [tb run].
  unfold svc_wf, svc_abs, svc_capacity in *. simpl in Hwf.
  unfold Register, Register_admitted, RegisterRequest.has_node_info,
    RegisterRequest.get_node_info. simpl.
  destruct run; simpl; [|done].
  destruct (RegisterRequest.node_info req) as [info|]; simpl; [|done].
  destruct (String.eqb_spec (NodeInfo.node_id info) "") as [Hid|Hid]; simpl; [done|].
  destruct (register_node_refines info (make_session_id (NodeInfo.node_id info) rand) now
              tb Hwf) as (Hs & _ & _). cbv beta in Hs. unfold Directory.register in Hs.
  destruct (register_node _ _ _ tb) as [registered tb']. simpl in *.
  case_decide; injection Hs as <- Habs; simpl; (split_and!; [done|..]); by intros.
Qed.

(** C27: every branch of [Heartbeat].  A heartbeat of a registered node resets
    its missed counter, stores the load and the time and touches no other node;
    an unknown node is told to reconnect, with a [NOT_FOUND] status, and nothing
    changes.  The session id of the request plays no part. *)
Theorem Heartbeat_outcomes req resp now s :
  svc_wf s →
  let id := HeartbeatRequest.node_id req in
  let '(st, resp', s') := Heartbeat req resp now s in
  (id = "" → st = mkStatus INVALID_ARGUMENT "Empty node_id"
             ∧ HeartbeatResponse.success resp' = false ∧ s' = s)
  ∧ (id ≠ "" → svc_abs s !! id = None →
       st = mkStatus NOT_FOUND "Node not registered"
       ∧ resp' = HeartbeatResponse.mk false 0 true ∧ svc_abs s' = svc_abs s)
  ∧ (∀ e, id ≠ "" → svc_abs s !! id = Some e →
       st = Status_OK
       ∧ resp' = HeartbeatResponse.mk true 0 false
       ∧ svc_abs s' =
           <[id := NodeEntry.mk (NodeEntry.info e) (NodeEntry.session_id e) now 0
                     (HeartbeatRequest.cpu_usage req)
                     (HeartbeatRequest.memory_usage req)]> (svc_abs s)).
Proof.
  intros Hwf id. destruct s as [tb run]. unfold svc_wf, svc_abs in *. simpl in Hwf.
  unfold Heartbeat. fold id. simpl.
  destruct (String.eqb_spec id "") as [Hid|Hid]; simpl; [done|].
  destruct (update_heartbeat_refines id
              (HeartbeatRequest.cpu_usage req) (HeartbeatRequest.memory_usage req)
              (HeartbeatRequest.active_connections req) now tb Hwf) as (Hs & _ & _).
  cbv beta in Hs. unfold Directory.heartbeat, Directory.known in Hs.
  destruct (update_heartbeat _ _ _ _ _ tb) as [found tb']. simpl in *.
  injection Hs as <- Habs. destruct (dir_abs tb !! id) as [e|] eqn:He.
  - rewrite bool_decide_eq_true_2 by done. simpl. split_and!; [done..|].
    intros ? _ [= <-]. split_and!; [done|done|]. simpl. rewrite <-Habs.
    apply map_eq. intros i. rewrite lookup_alter, lookup_insert.
    case_decide; [|done]. subst i. by rewrite He.
  - rewrite bool_decide_eq_false_2 by (by intros []). simpl. split_and!; [done| |done].
    intros _ _. split_and!; [done|done|]. simpl. rewrite <-Habs.
    apply map_eq. intros i. rewrite lookup_alter. case_decide; [|done].
    subst i. by rewrite He.
Qed.

(** [Discover] succeeds, leaves the service as it is, and appends to the
    response the node infos of exactly the healthy nodes that offer one of the
    requested services, each node once. *)
Theorem Discover_outcomes req resp s :
  svc_wf s →
  let '(st, resp', s') := Discover req resp s in
  st = Status_OK ∧ s' = s
  ∧ ∃ found, DiscoverResponse.nodes resp' = DiscoverResponse.nodes resp ++ found
     ∧ NoDup (NodeInfo.node_id <$> found)
     ∧ ∀ info, info ∈ found ↔
         ∃ e, svc_abs s !! NodeInfo.node_id info = Some e
              ∧ NodeEntry.info e = info
              ∧ Directory.healthy (DiscoverRequest.service_filter req) e.
Proof.
  intros Hwf. pose proof (Discover_nodes req resp s) as Hnodes.
  unfold Discover in *. split_and!; [done|done|]. cbn [fst] in Hnodes.
  set (filter := DiscoverRequest.service_filter req).
  pose proof (get_nodes_by_service_spec filter (node_table_ s) Hwf) as Hperm.
  set (nodes := get_nodes_by_service filter (node_table_ s)) in *.
  exists (NodeEntry.info <$> nodes). split_and!; [exact Hnodes| |].
  - rewrite Hperm, <-list_fmap_compose.
    eapply sublist_NoDup; [|apply fmap_sublist, filter_sublist_of].
    rewrite <-list_fmap_compose.
    replace (_ <$> map_to_list (dir_abs (node_table_ s)))
      with (map_to_list (dir_abs (node_table_ s))).*1; [apply NoDup_fst_map_to_list|].
    apply list_fmap_ext. intros i [id e] Hie. simpl. symmetry.
    apply (dir_wf_entry (node_table_ s) id e Hwf).
    apply elem_of_map_to_list. by eapply list_elem_of_lookup_2.
  - intros info. apply (found_nodes filter info s Hwf).
Qed.

(** [Deregister] of a registered node removes it and answers OK; of any
    other id (the empty one included) it answers [NOT_FOUND] and changes
    nothing. *)
Theorem Deregister_outcomes req resp s :
  svc_wf s →
  let id := DeregisterRequest.node_id req in
  let '(st, resp', s') := Deregister req resp s in
  svc_abs s' = delete id (svc_abs s)
  ∧ (is_Some (svc_abs s !! id) →
       st = Status_OK
       ∧ resp' = DeregisterResponse.mk true "Node deregistered gracefully")
  ∧ (svc_abs s !! id = None →
       st = mkStatus NOT_FOUND "Node not found"
       ∧ resp' = DeregisterResponse.mk false "Node not found"
       ∧ svc_abs s' = svc_abs s).
Proof.
  intros Hwf id. destruct s as [tb run]. unfold svc_wf, svc_abs in *. simpl in Hwf.
  unfold Deregister. fold id. simpl.
  destruct (deregister_node_refines id tb Hwf) as (Hs & _ & _).
  cbv beta in Hs. unfold Directory.deregister, Directory.known in Hs.
  destruct (deregister_node id tb) as [removed tb']. simpl in *.
  injection Hs as <- Habs. case_bool_decide as Hid; simpl.
  - split_and!; [done|done|]. intros Hn. rewrite Hn in Hid. by destruct Hid.
  - split_and!; [done|done|]. intros Hn. split_and!; [done|done|].
    simpl. rewrite <-Habs. by apply delete_id.
Qed.

(** After [Shutdown], every registration is refused with [UNAVAILABLE] and
    changes nothing, and a second [Shutdown] does nothing; but the flag stops
    registrations only: heartbeats, deregistrations and queries are answered
    exactly as before. *)
Theorem Shutdown_stops_registrations_only s :
  is_running (Shutdown s) = false
  ∧ Shutdown (Shutdown s) = Shutdown s
  ∧ (∀ req resp rand now,
       Register req resp rand now (Shutdown s)
         = (mkStatus UNAVAILABLE "Service is shutting down", resp, Shutdown s))
  ∧ (∀ req resp now,
       (Heartbeat req resp now (Shutdown s)).1 = (Heartbeat req resp now s).1
       ∧ node_table_ (Heartbeat req resp now (Shutdown s)).2
         = node_table_ (Heartbeat req resp now s).2)
  ∧ (∀ req resp,
       (Deregister req resp (Shutdown s)).1 = (Deregister req resp s).1
       ∧ node_table_ (Deregister req resp (Shutdown s)).2
         = node_table_ (Deregister req resp s).2)
  ∧ (∀ req resp, (Discover req resp (Shutdown s)).1 = (Discover req resp s).1).
Proof.
  destruct s as [tb run].
  assert (Shutdown (mk tb run) = mk tb false) as -> by (by destruct run).
  split_and!; [done|done|done| | |done].
  - intros req resp now. unfold Heartbeat. simpl.
    destruct (String.eqb _ ""); [done|].
    destruct (update_heartbeat _ _ _ _ _ tb) as [[] tb']; done.
  - intros req resp. unfold Deregister. simpl.
    destruct (deregister_node _ tb) as [[] tb']; done.
Qed.

End claims.

(** * Examples: the service over the node table, evaluated *)

#[local] Instance sample_order : HashOrder NodeEntry.t := front_order _.
#[local] Instance sample_status : GrpcStatus := concrete_status.

Definition sample_service (max_nodes : Z) : t NodeTable.t := RegistryServiceImpl max_nodes.

Lemma sample_service_wf max_nodes : in_u32 max_nodes → svc_wf (sample_service max_nodes).
Proof. apply NodeTable.NodeTable_wf. Qed.

Definition sample_register (id : string) : RegisterRequest.t :=
  RegisterRequest.mk (Some (sample_info id ["lidar"])) float_zero float_zero.

Definition sample_registered : t NodeTable.t :=
  (Register (sample_register "lidar_01") RegisterResponse.empty 42 7 (sample_service 2)).2.

Lemma sample_registered_wf : svc_wf sample_registered.
Proof.
  pose proof (Register_effect (sample_register "lidar_01") RegisterResponse.empty 42 7
                (sample_service 2)) as Heff.
  unfold sample_registered. destruct (Register _ _ _ _ _) as [[st resp] s'].
  apply Heff, sample_service_wf. unfold in_u32; lia.
Qed.

Lemma Register_outcomes_witness :
  (Register (sample_register "lidar_01") RegisterResponse.empty 42 7 (sample_service 2)).1
    = (None, RegisterResponse.mk true "lidar_01_42" 1000 "")
  ∧ svc_abs sample_registered
    = {[ "lidar_01" := NodeEntry.fresh (sample_info "lidar_01" ["lidar"]) "lidar_01_42" 7 ]}.
Proof.
  destruct (Register_outcomes (sample_register "lidar_01") RegisterResponse.empty 42 7
              (sample_service 2)) as (_ & _ & Hok).
  { apply sample_service_wf. unfold in_u32; lia. }
  destruct Hok as (_ & _ & Habs); [done|split; by vm_compute|]. split; [by vm_compute|exact Habs].
Defined.

Definition sample_heartbeat (id : string) : HeartbeatRequest.t :=
  HeartbeatRequest.mk id "not the session" 0 float_zero float_zero 2.

Lemma Heartbeat_outcomes_witness :
  (Heartbeat (sample_heartbeat "lidar_01") HeartbeatResponse.empty 9 sample_registered).1
    = (None, HeartbeatResponse.mk true 0 false)
  ∧ (Heartbeat (sample_heartbeat "lidar_02") HeartbeatResponse.empty 9 sample_registered).1
    = (Some (NOT_FOUND, "Node not registered"), HeartbeatResponse.mk false 0 true).
Proof.
  pose proof (Heartbeat_outcomes (sample_heartbeat "lidar_01") HeartbeatResponse.empty 9
                sample_registered sample_registered_wf) as H1.
  pose proof (Heartbeat_outcomes (sample_heartbeat "lidar_02") HeartbeatResponse.empty 9
                sample_registered sample_registered_wf) as H2.
  destruct (Heartbeat (sample_heartbeat "lidar_01") _ _ _) as [[st1 r1] s1].
  destruct (Heartbeat (sample_heartbeat "lidar_02") _ _ _) as [[st2 r2] s2].
  split.
  - destruct H1 as (_ & _ & H1).
    destruct (H1 (NodeEntry.fresh (sample_info "lidar_01" ["lidar"]) "lidar_01_42" 7))
      as (-> & -> & _); [done|by vm_compute|done].
  - destruct H2 as (_ & H2 & _). destruct H2 as (-> & -> & _); [done|by vm_compute|done].
Defined.

Lemma Discover_outcomes_witness :
  (Discover (DiscoverRequest.mk ["lidar"]) DiscoverResponse.empty sample_registered).1
    = (None, DiscoverResponse.mk [sample_info "lidar_01" ["lidar"]])
  ∧ (Discover (DiscoverRequest.mk ["lidar"]) DiscoverResponse.empty sample_registered).2
    = sample_registered.
Proof.
  pose proof (Discover_outcomes (DiscoverRequest.mk ["lidar"]) DiscoverResponse.empty
                sample_registered sample_registered_wf) as Hd.
  split; [by vm_compute|]. destruct (Discover _ _ _) as [[st r] s']. by apply Hd.
Defined.

Lemma Deregister_outcomes_witness :
  svc_abs (Deregister (DeregisterRequest.mk "lidar_01" "" "") DeregisterResponse.empty
             sample_registered).2 = ∅.
Proof.
  pose proof (Deregister_outcomes (DeregisterRequest.mk "lidar_01" "" "")
                DeregisterResponse.empty sample_registered sample_registered_wf) as Hd.
  destruct (Deregister _ _ _) as [[st r] s']. destruct Hd as [Hd _]. change (svc_abs s' = ∅). rewrite Hd. by vm_compute.
Defined.
