(* ===== verification/Health.v ===== *)
(** * The health checker (src/registry/health_checker.h, health_checker.cpp)

    [Module HealthChecker] is the class.  Its [std::jthread] member is a small
    record ([JThread.t]: joinable, stop requested).  [run_loop] is the body of
    the background thread over a list of iterations: each iteration carries what
    the thread observes of its stop token and what the other threads do to the
    shared node table while it sleeps and between its own calls.  The list is
    the history of the thread so far; when it ends without an exit the thread is
    still running.  The checker is written against [NodeDirectory]. *)

From Stdlib Require Import ZArith Lia.
From stdpp Require Import prelude gmap strings list.
From S2P Require Import Prelude UnorderedMap Messages NodeDir Table.

Module HealthChecker.

Record t := mk {
  checker_thread_ : JThread.t;
  is_running_ : bool;
  check_interval_ms_ : Z;
  max_missed_heartbeats_ : Z;
}.

(** The constructor; by default every 1000 ms with a threshold of 3. *)
Definition HealthChecker (check_interval_ms max_missed_heartbeats : Z) : t :=
  mk JThread.none false check_interval_ms max_missed_heartbeats.

(** What the member functions do to the thread, in order. *)
Inductive action := Spawn | RequestStop | Join.

Definition start (h : t) : list action * t :=
  if is_running_ h then ([], h)
  else ([Spawn], mk JThread.spawned true (check_interval_ms_ h) (max_missed_heartbeats_ h)).

Definition stop (h : t) : list action * t :=
  if negb (is_running_ h) then ([], h)
  else if JThread.joinable (checker_thread_ h) then
    ([RequestStop; Join],
     mk (JThread.join (JThread.request_stop (checker_thread_ h))) false
        (check_interval_ms_ h) (max_missed_heartbeats_ h))
  else ([], mk (checker_thread_ h) false (check_interval_ms_ h) (max_missed_heartbeats_ h)).

Definition is_running (h : t) : bool := is_running_ h.

(** The destructor. *)
Definition destroy (h : t) : list action * t := stop h.

Section loop.
  Context {T : Type} `{NodeDirectory T}.

(** One iteration of the loop as the thread lives it. *)
Record iteration := {
  stop_at_head : bool;        (* the loop condition sees the stop request *)
  during_sleep : T → T;       (* what the other threads do meanwhile *)
  stop_after_sleep : bool;    (* the second look at the stop token *)
  before_remove : T → T;      (* ... between the two calls on the table *)
  before_count : T → T;       (* ... before the final count *)
}.

(** What the thread does, for the observer: sleeps, table calls and the count
    that it logs. *)
Inductive effect :=
  | Slept (ms : Z)
  | Incremented
  | Removed (ids : list string)
  | Counted (count : Z).

(** One pass through the loop's body from the sleep on; [None] is the [break]. *)
Definition body (h : t) (it : iteration) (tb : T) : list effect * T * bool :=
  let tb := during_sleep it tb in
  let slept := Slept (check_interval_ms_ h) in
  if stop_after_sleep it then ([slept], tb, true)
  else
    let tb := before_remove it (increment_all_missed_heartbeats tb) in
    let '(removed, tb) := remove_stale_nodes (max_missed_heartbeats_ h) tb in
    let tb := before_count it tb in
    ([slept; Incremented; Removed removed; Counted (get_node_count tb)], tb, false).

(** The loop: the effects, the table, and whether the loop has exited. *)
Fixpoint run_loop (h : t) (its : list iteration) (tb : T) : list effect * T * bool :=
  match its with
  | [] => ([], tb, false)
  | it :: its' =>
      if stop_at_head it then ([], tb, true)
      else
        let '(eff, tb, exited) := body h it tb in
        if exited then (eff, tb, true)
        else let '(eff', tb, exited) := run_loop h its' tb in (eff ++ eff', tb, exited)
  end.

End loop.

Arguments iteration : clear implicits.
Arguments Build_iteration {T}.
Arguments stop_at_head {T}.
Arguments stop_after_sleep {T}.

(** Whether an effect touches the table. *)
Definition touches_table (e : effect) : bool :=
  match e with Slept _ => false | _ => true end.

(** ** Facts about the loop *)

Section facts.
  Context {T : Type} `{NodeDirectoryLaws T}.

(** The other threads only run table operations, which keep the table
    well-formed. *)
Definition well_behaved (it : iteration T) : Prop :=
  (∀ tb, dir_wf tb → dir_wf (during_sleep it tb))
  ∧ (∀ tb, dir_wf tb → dir_wf (before_remove it tb))
  ∧ (∀ tb, dir_wf tb → dir_wf (before_count it tb)).

Lemma body_wf h it (tb : T) :
  well_behaved it → dir_wf tb → dir_wf (body h it tb).1.2.
Proof.
  intros (Hsleep & Hrem & Hcnt) Hwf. unfold body.
  destruct (stop_after_sleep it); simpl; [by apply Hsleep|].
  destruct (increment_refines (during_sleep it tb)) as (_ & Hwf1 & _); [by apply Hsleep|].
  apply Hrem in Hwf1.
  destruct (remove_stale_refines (max_missed_heartbeats_ h) _ Hwf1) as (_ & Hwf2 & _).
  simpl in *. destruct (remove_stale_nodes _ _) as [removed tb']. simpl in *. auto.
Qed.

(** A stop request that is visible from some iteration on. *)
Definition stopping (it : iteration T) : Prop :=
  stop_at_head it = true ∨ stop_after_sleep it = true.

End facts.

End HealthChecker.

(** * Properties *)

Section claims.
  Context {T : Type} `{NodeDirectoryLaws T}.
  Import HealthChecker.

Lemma run_loop_app h its1 its2 (tb : T) :
  run_loop h (its1 ++ its2) tb =
    let '(eff1, tb1, ex1) := run_loop h its1 tb in
    if ex1 then (eff1, tb1, true)
    else let '(eff2, tb2, ex2) := run_loop h its2 tb1 in (eff1 ++ eff2, tb2, ex2).
Proof.
  revert tb. induction its1 as [|it its1 IH]; intros tb; simpl.
  - by destruct (run_loop h its2 tb) as [[??]?].
  - destruct (stop_at_head it); [done|].
    destruct (body h it tb) as [[eff tb1] []]; [done|]. rewrite IH.
    destruct (run_loop h its1 tb1) as [[eff1 tb2] []]; [done|].
    destruct (run_loop h its2 tb2) as [[eff2 tb3] ex]. by rewrite app_assoc.
Qed.

Lemma body_exits h it (tb : T) : (body h it tb).2 = stop_after_sleep it.
Proof.
  unfold body. destruct (stop_after_sleep it); [done|].
  by destruct (remove_stale_nodes _ _).
Qed.

Lemma run_loop_exits h its (tb : T) : (run_loop h its tb).2 = true ↔ Exists stopping its.
Proof.
  revert tb. induction its as [|it its IH]; intros tb; simpl.
  - by rewrite Exists_nil.
  - rewrite Exists_cons. unfold stopping at 1.
    destruct (stop_at_head it); simpl; [tauto|].
    pose proof (body_exits h it tb) as Hex.
    destruct (body h it tb) as [[eff tb1] ex]. simpl in Hex. subst ex.
    destruct (stop_after_sleep it); simpl; [tauto|].
    specialize (IH tb1). destruct (run_loop h its tb1) as [[eff1 tb2] ex]. simpl in *.
    rewrite IH. split; [auto|]. by intros [[?|?]|?].
Qed.

(** The background loop stops: it has exited exactly when some iteration
    saw the stop request; the iteration that sees it finishes at most the sleep
    it is in, makes no call on the table, and later iterations never run. *)
Theorem run_loop_stops h its1 it its2 (tb : T) :
  Forall (λ i, ¬ stopping i) its1 → stopping it →
  ∃ tail tb',
    run_loop h (its1 ++ it :: its2) tb = ((run_loop h its1 tb).1.1 ++ tail, tb', true)
    ∧ existsb touches_table tail = false
    ∧ (tb' = (run_loop h its1 tb).1.2 ∨ tb' = during_sleep it (run_loop h its1 tb).1.2).
Proof.
  intros Hits1 Hit. rewrite run_loop_app.
  assert ((run_loop h its1 tb).2 = false) as Hrun.
  { apply not_true_iff_false. rewrite run_loop_exits.
    intros (i & Hi & Hs)%Exists_exists. rewrite Forall_forall in Hits1.
    by eapply Hits1. }
  destruct (run_loop h its1 tb) as [[eff1 tb1] ex1]. simpl in *. subst ex1.
  destruct (stop_at_head it) eqn:Hhead.
  - exists [], tb1. auto.
  - destruct Hit as [Hit|Hit]; [congruence|]. unfold body. rewrite Hit.
    exists [Slept (check_interval_ms_ h)], (during_sleep it tb1). auto.
Qed.

(** An iteration that is not stopped does the tick in the order of the
    code: it sleeps the configured interval, counts one missed heartbeat for
    every node, removes the stale ones, and logs the count; right after the
    removal no node's counter is at the threshold. *)
Theorem body_tick h it (tb : T) :
  well_behaved it → dir_wf tb → stop_after_sleep it = false →
  let before := before_remove it (increment_all_missed_heartbeats (during_sleep it tb)) in
  let threshold := max_missed_heartbeats_ h in
  ∃ removed tb1,
    remove_stale_nodes threshold before = (removed, tb1)
    ∧ body h it tb =
        ([Slept (check_interval_ms_ h); Incremented; Removed removed;
          Counted (get_node_count (before_count it tb1))], before_count it tb1, false)
    ∧ dir_abs tb1 = Directory.sweep threshold (dir_abs before)
    ∧ (∀ id e, dir_abs tb1 !! id = Some e → (NodeEntry.missed_heartbeats e < threshold)%Z).
Proof.
  intros (Hsleep & Hrem & Hcnt) Hwf Hrun before threshold. unfold body. rewrite Hrun.
  fold before threshold.
  assert (dir_wf before) as Hwfb.
  { apply Hrem. destruct (increment_refines (during_sleep it tb)) as (_ & Hw & _);
      [by apply Hsleep|done]. }
  destruct (remove_stale_refines threshold before Hwfb) as ([= Hsw] & _ & _).
  destruct (remove_stale_nodes threshold before) as [removed tb1]. simpl in *.
  exists removed, tb1. split_and!; [done|done|by rewrite Hsw|].
  intros id e He. rewrite <-Hsw in He.
  apply map_lookup_filter_Some in He as [_ Hns]. unfold Directory.is_stale in Hns.
  simpl in Hns. lia.
Qed.

End claims.

Section lifecycle.
  Import HealthChecker.

(** Calls of [start] and [stop] on one checker. *)
Fixpoint run_calls (calls : list bool) (h : t) : list action * t :=
  match calls with
  | [] => ([], h)
  | c :: calls' =>
      let '(acts, h1) := if c then start h else stop h in
      let '(acts', h2) := run_calls calls' h1 in (acts ++ acts', h2)
  end.

(** The thread is joinable exactly while the flag is set, and a joinable thread
    has not been asked to stop. *)
Definition lifecycle_inv (h : t) : Prop :=
  JThread.joinable (checker_thread_ h) = is_running_ h
  ∧ (is_running_ h = true → JThread.stop_requested (checker_thread_ h) = false).

Lemma run_calls_brackets calls h :
  lifecycle_inv h →
  ∃ k, (if is_running_ h then [Spawn] else []) ++ (run_calls calls h).1
         ++ (destroy (run_calls calls h).2).1
       = concat (replicate k [Spawn; RequestStop; Join])
     ∧ lifecycle_inv (run_calls calls h).2.
Proof.
  revert h. induction calls as [|c calls IH]; intros h Hinv; simpl.
  - destruct h as [[j r] run i m], Hinv as [Hj Hr]. simpl in *. subst j.
    unfold destroy, stop. simpl. destruct run; simpl; [by exists 1|by exists 0].
  - destruct h as [[j r] run i m]. pose proof Hinv as [Hj Hr]. simpl in *. subst j.
    destruct c, run; unfold start, stop; simpl.
    + destruct (IH _ Hinv) as [k Hk]. destruct (run_calls calls _) as [acts h2].
      by exists k.
    + destruct (IH (mk JThread.spawned true i m)) as [k Hk]; [by split|].
      destruct (run_calls calls _) as [acts h2]. by exists k.
    + destruct (IH (mk (JThread.join (JThread.request_stop (JThread.mk true r))) false i m))
        as (k & Hk & Hi); [by split|].
      destruct (run_calls calls _) as [acts h2]. exists (S k).
      split; [|done]. simpl in *. by rewrite Hk.
    + destruct (IH _ Hinv) as [k Hk]. destruct (run_calls calls _) as [acts h2].
      by exists k.
Qed.

(** Whatever the sequence of [start] and [stop] calls, the checker never
    runs two threads, never leaves one unjoined and never joins one it has not
    asked to stop: from construction to destruction the thread operations are
    a repetition of spawn, request stop, join. *)
Theorem checker_lifecycle calls interval threshold :
  let '(acts, h) := run_calls calls (HealthChecker interval threshold) in
  (∃ k, acts ++ (destroy h).1 = concat (replicate k [Spawn; RequestStop; Join]))
  ∧ JThread.joinable (checker_thread_ h) = is_running h
  ∧ JThread.joinable (checker_thread_ (destroy h).2) = false.
Proof.
  destruct (run_calls_brackets calls (HealthChecker interval threshold)) as (k & Hk & Hinv);
    [by split|].
  destruct (run_calls _ _) as [acts h]. simpl in *.
  split_and!; [by exists k|apply Hinv|].
  destruct h as [[j r] run i m], Hinv as [Hj _]. simpl in *. subst j.
  unfold destroy, stop. by destruct run.
Qed.

End lifecycle.

(** * Examples *)

#[local] Instance sample_order : HashOrder NodeEntry.t := front_order _.

Definition undisturbed (stop : bool) : HealthChecker.iteration NodeTable.t :=
  HealthChecker.Build_iteration false id stop id id.

Lemma run_loop_stops_witness :
  HealthChecker.run_loop (HealthChecker.HealthChecker 1000 3)
    [undisturbed false; undisturbed true; undisturbed false]
    (sample_run (take 2 sample_ops) 3).2
  = ([HealthChecker.Slept 1000; HealthChecker.Incremented; HealthChecker.Removed [];
      HealthChecker.Counted 2; HealthChecker.Slept 1000],
     (sample_run (take 2 sample_ops ++ [OpIncrement]) 3).2, true)
  ∧ (∃ tail tb',
      HealthChecker.run_loop (HealthChecker.HealthChecker 1000 3)
        ([undisturbed false] ++ undisturbed true :: [undisturbed false])
        (sample_run (take 2 sample_ops) 3).2
      = ((HealthChecker.run_loop (HealthChecker.HealthChecker 1000 3) [undisturbed false]
            (sample_run (take 2 sample_ops) 3).2).1.1 ++ tail, tb', true)).
Proof.
  split; [by vm_compute|].
  destruct (run_loop_stops (HealthChecker.HealthChecker 1000 3) [undisturbed false]
              (undisturbed true) [undisturbed false] (sample_run (take 2 sample_ops) 3).2)
    as (tail & tb' & Heq & _).
  - repeat constructor. by intros [|].
  - by right.
  - by exists tail, tb'.
Defined.

Lemma body_tick_witness :
  let tb := (sample_run (take 5 sample_ops) 3).2 in
  let h := HealthChecker.HealthChecker 1000 2 in
  (HealthChecker.body h (undisturbed false) tb).1.1
    = [HealthChecker.Slept 1000; HealthChecker.Incremented;
       HealthChecker.Removed ["fusion_01"; "camera_01"]; HealthChecker.Counted 1]
  ∧ ∃ removed tb1,
      remove_stale_nodes 2 (increment_all_missed_heartbeats tb) = (removed, tb1)
      ∧ (∀ id e, dir_abs tb1 !! id = Some e → (NodeEntry.missed_heartbeats e < 2)%Z).
Proof.
  intros tb h. split; [by vm_compute|].
  destruct (body_tick h (undisturbed false) tb) as (removed & tb1 & Heq & _ & _ & Hlt).
  - by split_and!.
  - apply sample_run_wf. unfold in_u32; lia.
  - done.
  - exists removed, tb1. split; [exact Heq|exact Hlt].
Defined.
