(* ===== verification/HealthThread.v ===== *)
(** * The health checker, statement by statement

    Health.v takes [start] and [stop] (src/registry/health_checker.cpp) as single
    steps and the background loop as a recursion over its iterations.  Here the loop
    is a step machine, [start] and [stop] run on other threads one statement at a
    time, and everything interleaves: the exchange of the flag, the construction of
    the thread and its assignment to the member are separate steps, and so are
    [request_stop] and [join], which waits.

    With one controlling thread, as in src/examples/registry_server.cpp, the checker
    never has two threads at work, and has none once [stop] has returned, which it
    does.  Two controlling threads can leave a checker at work that says it is not
    running. *)

From Stdlib Require Import ZArith Lia.
From stdpp Require Import prelude gmap strings list.
From S2P Require Import Prelude UnorderedMap Messages NodeDir Table Health.

Import HealthChecker.

(** ** The background thread *)

(** Before the loop condition, in [sleep_for], before each of the three calls on the
    table, and after the loop. *)
Inductive pc := AtHead | Sleeping | Incrementing | Removing | Counting | Exited.

#[global] Instance pc_eq_dec : EqDecision pc.
Proof. solve_decision. Defined.

Section thread.
  Context {T : Type} `{NodeDirectory T}.

(** One step; [stop] is what the stop token says, where it is looked at. *)
Definition thread_step (h : t) (stop : bool) (p : pc) (tb : T) : list effect * pc * T :=
  match p with
  | AtHead => ([], if stop then Exited else Sleeping, tb)
  | Sleeping => ([Slept (check_interval_ms_ h)], if stop then Exited else Incrementing, tb)
  | Incrementing => ([Incremented], Removing, increment_all_missed_heartbeats tb)
  | Removing =>
      let '(removed, tb) := remove_stale_nodes (max_missed_heartbeats_ h) tb in
      ([Removed removed], Counting, tb)
  | Counting => ([Counted (get_node_count tb)], AtHead, tb)
  | Exited => ([], Exited, tb)
  end.

(** A history of the thread: before each of its steps the other threads do something
    to the table. *)
Fixpoint thread_run (h : t) (steps : list ((T → T) * bool)) (p : pc) (tb : T)
    : list effect * pc * T :=
  match steps with
  | [] => ([], p, tb)
  | (others, stop) :: steps =>
      let '(eff, p, tb) := thread_step h stop p (others tb) in
      let '(eff', p, tb) := thread_run h steps p tb in (eff ++ eff', p, tb)
  end.

(** The steps of an iteration. *)
Definition pass (it : iteration T) : list ((T → T) * bool) :=
  if stop_at_head it then [(id, true)]
  else
    (id, false) :: (during_sleep it, stop_after_sleep it)
    :: (if stop_after_sleep it then []
        else [(id, false); (before_remove it, false); (before_count it, false)]).

Lemma checker_run_app h steps1 steps2 p (tb : T) :
  thread_run h (steps1 ++ steps2) p tb =
    let '(eff1, p1, tb1) := thread_run h steps1 p tb in
    let '(eff2, p2, tb2) := thread_run h steps2 p1 tb1 in (eff1 ++ eff2, p2, tb2).
Proof.
  revert p tb. induction steps1 as [|[f stop] steps1 IH]; intros p tb; simpl.
  { by destruct (thread_run _ _ _ _) as [[??]?]. }
  destruct (thread_step h stop p (f tb)) as [[eff p1] tb1]. rewrite IH.
  destruct (thread_run h steps1 p1 tb1) as [[eff1 p2] tb2].
  destruct (thread_run h steps2 p2 tb2) as [[eff2 p3] tb3]. by rewrite app_assoc.
Qed.

Lemma checker_run_pass h it (tb : T) :
  thread_run h (pass it) AtHead tb =
    if stop_at_head it then ([], Exited, tb)
    else let '(eff, tb', exited) := body h it tb in
         (eff, if exited then Exited else AtHead, tb').
Proof.
  unfold pass, body. destruct (stop_at_head it); [done|]. simpl.
  destruct (stop_after_sleep it); simpl; [done|].
  by destruct (remove_stale_nodes _ _) as [removed tb1].
Qed.

(** The steps of a history of iterations, up to the one that ends the loop. *)
Fixpoint loop_steps (its : list (iteration T)) : list ((T → T) * bool) :=
  match its with
  | [] => []
  | it :: its =>
      pass it ++ (if stop_at_head it || stop_after_sleep it then [] else loop_steps its)
  end.

Lemma checker_run_snoc h steps f stop p (tb : T) :
  thread_run h (steps ++ [(f, stop)]) p tb =
    let '(eff1, p1, tb1) := thread_run h steps p tb in
    let '(eff2, p2, tb2) := thread_step h stop p1 (f tb1) in (eff1 ++ eff2, p2, tb2).
Proof.
  rewrite checker_run_app. destruct (thread_run h steps p tb) as [[eff1 p1] tb1]. simpl.
  destruct (thread_step h stop p1 (f tb1)) as [[eff2 p2] tb2]. by rewrite app_nil_r.
Qed.

(** Where a history of the thread is in the history of the loop's iterations. *)
Definition matches (h : t) (tb0 : T) (r : list effect * pc * T) : Prop :=
  let '(eff, p, tb) := r in
  ∃ its eff1 tb1 f, run_loop h its tb0 = (eff1, tb1, bool_decide (p = Exited))
    ∧ match p with
      | AtHead => eff = eff1 ∧ tb = tb1
      | Sleeping | Exited => eff = eff1 ∧ tb = f tb1
      | Incrementing => eff = eff1 ++ [Slept (check_interval_ms_ h)] ∧ tb = f tb1
      | Removing =>
          eff = eff1 ++ [Slept (check_interval_ms_ h); Incremented]
          ∧ tb = increment_all_missed_heartbeats (f tb1)
      | Counting =>
          ∃ g removed,
            eff = eff1 ++ [Slept (check_interval_ms_ h); Incremented; Removed removed]
            ∧ remove_stale_nodes (max_missed_heartbeats_ h)
                (g (increment_all_missed_heartbeats (f tb1))) = (removed, tb)
      end.

End thread.

Section loop.
  Context {T : Type} `{NodeDirectoryLaws T}.

Lemma run_loop_snoc h its it (tb : T) eff1 tb1 :
  run_loop h its tb = (eff1, tb1, false) →
  run_loop h (its ++ [it]) tb =
    if stop_at_head it then (eff1, tb1, true)
    else let '(eff, tb2, exited) := body h it tb1 in (eff1 ++ eff, tb2, exited).
Proof.
  intros Hrun. rewrite run_loop_app, Hrun. simpl.
  destruct (stop_at_head it); [by rewrite app_nil_r|].
  destruct (body h it tb1) as [[eff tb2] []]; [done|]. by rewrite app_nil_r.
Qed.

Lemma checker_step_matches h (tb0 : T) eff p tb f stop :
  matches h tb0 (eff, p, tb) →
  let '(eff', p', tb') := thread_step h stop p (f tb) in matches h tb0 (eff ++ eff', p', tb').
Proof.
  intros (its & eff1 & tb1 & g & Hrun & Hm).
  destruct p; simpl in Hm; rewrite ?bool_decide_eq_false_2 in Hrun by done.
  - destruct Hm as [-> ->]. simpl. rewrite app_nil_r. destruct stop.
    + exists (its ++ [Build_iteration true id false id id]), eff1, tb1, f.
      by rewrite (run_loop_snoc _ _ _ _ _ _ Hrun).
    + by exists its, eff1, tb1, f.
  - destruct Hm as [-> ->]. simpl. destruct stop.
    + exists (its ++ [Build_iteration false (f ∘ g) true id id]),
        (eff1 ++ [Slept (check_interval_ms_ h)]), (f (g tb1)), id.
      by rewrite (run_loop_snoc _ _ _ _ _ _ Hrun).
    + by exists its, eff1, tb1, (f ∘ g).
  - destruct Hm as [-> ->]. simpl. exists its, eff1, tb1, (f ∘ g). by rewrite <-app_assoc.
  - destruct Hm as [-> ->]. simpl. destruct (remove_stale_nodes _ _) as [removed tb2] eqn:Hrem.
    exists its, eff1, tb1, g. split; [done|]. exists f, removed. by rewrite <-app_assoc.
  - destruct Hm as (k & removed & -> & Hrem). simpl.
    exists (its ++ [Build_iteration false g false k f]),
      (eff1 ++ [Slept (check_interval_ms_ h); Incremented; Removed removed;
                Counted (get_node_count (f tb))]), (f tb), id.
    rewrite (run_loop_snoc _ _ _ _ _ _ Hrun). unfold body. simpl. rewrite Hrem.
    by rewrite <-app_assoc.
  - destruct Hm as [-> ->]. simpl. rewrite app_nil_r. by exists its, eff1, tb1, (f ∘ g).
Qed.

(** C31: the checker's thread is its loop.  Stepping through a history of iterations
    does what the loop does, and every history of the thread, whatever the other
    threads do to the table between any two of its steps, is a history of the loop's
    iterations and the beginning of the next. *)
Theorem checker_thread_is_loop h (tb : T) :
  (∀ its, thread_run h (loop_steps its) AtHead tb =
     let '(eff, tb', exited) := run_loop h its tb in
     (eff, if exited then Exited else AtHead, tb'))
  ∧ (∀ steps, matches h tb (thread_run h steps AtHead tb)).
Proof.
  split.
  - intros its. revert tb. induction its as [|it its IH]; intros tb; [done|]. simpl.
    rewrite checker_run_app, checker_run_pass. destruct (stop_at_head it) eqn:Hhead; [done|]. simpl.
    pose proof (body_exits h it tb) as Hex. destruct (body h it tb) as [[eff tb1] ex].
    simpl in Hex. subst ex. destruct (stop_after_sleep it); simpl; [by rewrite app_nil_r|].
    rewrite IH. by destruct (run_loop h its tb1) as [[eff2 tb2] ex2].
  - intros steps. induction steps as [|[f stop] steps IH] using rev_ind.
    { by exists [], [], tb, id. }
    rewrite checker_run_snoc. destruct (thread_run h steps AtHead tb) as [[eff1 p1] tb1].
    pose proof (checker_step_matches h tb eff1 p1 tb1 f stop IH) as Hs.
    by destruct (thread_step h stop p1 (f tb1)) as [[eff2 p2] tb2].
Qed.

End loop.

(** ** The threads that control the checker *)

Inductive op := Start | Stop.

(** Where a controlling thread is: between calls; in [start] before the construction
    of the thread, and before its assignment to the member; in [stop] before each of
    [joinable], [request_stop] and [join]. *)
Inductive cpc := Idle | Spawning | Assigning (tid : nat) | Testing | Requesting | Joining.

Record controller := mk_controller { at_ : cpc; todo : list op }.

Section control.
  Context {T : Type} `{NodeDirectory T}.

(** The flag, the thread that the member holds, all threads ever constructed, each
    with its stop request, the controlling threads, and the node table. *)
Record system := mk_system {
  flag : bool;
  member : option nat;
  threads : list (pc * bool);
  controllers : list controller;
  table : T;
}.

Inductive choice :=
  | Runs (tid : nat)          (* a checker thread *)
  | Controls (cid : nat)      (* a controlling thread *)
  | Others (f : T → T).       (* anybody else, on the table *)

Definition request (tid : nat) (ths : list (pc * bool)) : list (pc * bool) :=
  alter (λ th, (th.1, true)) tid ths.

Definition exited (ths : list (pc * bool)) (tid : nat) : bool :=
  match ths !! tid with Some (Exited, _) => true | _ => false end.

(** One statement of a controlling thread: the flag, the member and the threads
    afterwards, and where it is.  Assigning to a member that holds a thread asks that
    one to stop and waits for it; [join] waits too, and on an empty member throws. *)
Definition control_step (c : controller) (fl : bool) (m : option nat) (ths : list (pc * bool))
    : bool * option nat * list (pc * bool) * controller :=
  let at_place p := (fl, m, ths, mk_controller p (todo c)) in
  match at_ c, todo c with
  | Idle, [] => at_place Idle
  | Idle, Start :: ops => (true, m, ths, mk_controller (if fl then Idle else Spawning) ops)
  | Idle, Stop :: ops => (false, m, ths, mk_controller (if fl then Testing else Idle) ops)
  | Spawning, ops =>
      (fl, m, ths ++ [(AtHead, false)], mk_controller (Assigning (length ths)) ops)
  | Assigning tid, ops =>
      match m with
      | None => (fl, Some tid, ths, mk_controller Idle ops)
      | Some old =>
          if exited ths old then (fl, Some tid, ths, mk_controller Idle ops)
          else (fl, m, request old ths, c)
      end
  | Testing, _ => at_place (match m with Some _ => Requesting | None => Idle end)
  | Requesting, ops =>
      (fl, m, match m with Some tid => request tid ths | None => ths end, mk_controller Joining ops)
  | Joining, ops =>
      match m with
      | Some tid => if exited ths tid then (fl, None, ths, mk_controller Idle ops) else at_place Joining
      | None => at_place Joining
      end
  end.

Definition system_step (h : t) (c : choice) (s : system) : list effect * system :=
  match c with
  | Runs tid =>
      match threads s !! tid with
      | Some (p, stop) =>
          let '(eff, p, tb) := thread_step h stop p (table s) in
          (eff, mk_system (flag s) (member s) (<[tid := (p, stop)]> (threads s)) (controllers s) tb)
      | None => ([], s)
      end
  | Controls cid =>
      match controllers s !! cid with
      | Some c =>
          let '(fl, m, ths, c) := control_step c (flag s) (member s) (threads s) in
          ([], mk_system fl m ths (<[cid := c]> (controllers s)) (table s))
      | None => ([], s)
      end
  | Others f =>
      ([], mk_system (flag s) (member s) (threads s) (controllers s) (f (table s)))
  end.

Fixpoint system_run (h : t) (cs : list choice) (s : system) : list effect * system :=
  match cs with
  | [] => ([], s)
  | c :: cs =>
      let '(eff, s) := system_step h c s in
      let '(eff', s) := system_run h cs s in (eff ++ eff', s)
  end.

(** A checker just constructed, and what its controlling threads will call. *)
Definition constructed (programs : list (list op)) (tb : T) : system :=
  mk_system false None [] (mk_controller Idle <$> programs) tb.

(** ** One controlling thread *)

(** All threads but [keep] have exited. *)
Definition only (keep : option nat) (ths : list (pc * bool)) : Prop :=
  ∀ i p stop, ths !! i = Some (p, stop) → Some i ≠ keep → p = Exited.

(** The thread is there, and has exited only if it was asked to. *)
Definition alive (stop : bool) (ths : list (pc * bool)) (tid : nat) : Prop :=
  ∃ p, ths !! tid = Some (p, stop) ∧ (stop = false → p ≠ Exited).

Definition control_inv (s : system) : Prop :=
  ∃ c, controllers s = [c] ∧
  match at_ c with
  | Idle =>
      if flag s then ∃ tid, member s = Some tid ∧ only (Some tid) (threads s) ∧ alive false (threads s) tid
      else member s = None ∧ only None (threads s)
  | Spawning => flag s = true ∧ member s = None ∧ only None (threads s)
  | Assigning tid =>
      flag s = true ∧ member s = None ∧ only (Some tid) (threads s) ∧ alive false (threads s) tid
  | Testing | Requesting =>
      flag s = false
      ∧ ∃ tid, member s = Some tid ∧ only (Some tid) (threads s) ∧ alive false (threads s) tid
  | Joining =>
      flag s = false
      ∧ ∃ tid, member s = Some tid ∧ only (Some tid) (threads s) ∧ alive true (threads s) tid
  end.

Lemma thread_step_exits h stop p (tb : T) :
  p ≠ Exited → (thread_step h stop p tb).1.2 = Exited → stop = true.
Proof. destruct p, stop; simpl; try done. by destruct (remove_stale_nodes _ _). Qed.

Lemma only_run h ths keep tid p stop (tb : T) :
  ths !! tid = Some (p, stop) → only keep ths →
  only keep (<[tid := ((thread_step h stop p tb).1.2, stop)]> ths).
Proof.
  intros Hi Hon i p' stop' Hp' Hne. apply list_lookup_insert_Some in Hp' as [(-> & [= <- <-] & _)|[_ Hp']].
  - by rewrite (Hon i p stop Hi Hne).
  - by eapply Hon.
Qed.

Lemma alive_run h ths want tid i p stop (tb : T) :
  ths !! i = Some (p, stop) → alive want ths tid →
  alive want (<[i := ((thread_step h stop p tb).1.2, stop)]> ths) tid.
Proof.
  intros Hi (q & Hq & Hne). destruct (decide (i = tid)) as [->|Hd].
  - rewrite Hi in Hq. injection Hq as -> ->.
    exists ((thread_step h want q tb).1.2). split.
    + apply list_lookup_insert_eq. by eapply lookup_lt_Some.
    + intros -> Hex. apply thread_step_exits in Hex; [done|by apply Hne].
  - exists q. split; [|done]. by rewrite list_lookup_insert_ne.
Qed.

Lemma exited_true ths tid : exited ths tid = true → ∃ stop, ths !! tid = Some (Exited, stop).
Proof. unfold exited. destruct (ths !! tid) as [[[] stop]|]; try done. by exists stop. Qed.

Lemma only_weaken ths tid : only None ths → only (Some tid) ths.
Proof. intros Hon i p stop Hi _. by eapply Hon. Qed.

Lemma only_request ths tid : only (Some tid) ths → only (Some tid) (request tid ths).
Proof.
  intros Hon i p stop Hi Hne. unfold request in Hi.
  rewrite list_lookup_alter_ne in Hi by congruence. by eapply Hon.
Qed.

Lemma alive_request ths tid : alive false ths tid → alive true (request tid ths) tid.
Proof.
  intros (p & Hp & _). exists p. split; [|done]. unfold request. by rewrite list_lookup_alter_eq, Hp.
Qed.

Lemma only_spawn ths : only None ths → only (Some (length ths)) (ths ++ [(AtHead, false)]).
Proof.
  intros Hon i p stop Hi Hne. apply lookup_app_Some in Hi as [Hi|[Hge Hi]]; [by eapply Hon|].
  apply list_lookup_singleton_Some in Hi as [Hz _]. exfalso. apply Hne. f_equal. lia.
Qed.

Lemma alive_spawn ths : alive false (ths ++ [(AtHead, false)]) (length ths).
Proof. exists AtHead. split; [|done]. by apply list_lookup_middle. Qed.

Lemma only_exited ths tid : only (Some tid) ths → exited ths tid = true → only None ths.
Proof.
  intros Hon (st & Hex)%exited_true i p stop Hi _. destruct (decide (i = tid)) as [->|Hne].
  - congruence.
  - eapply Hon; [done|congruence].
Qed.

Lemma control_step_inv h c s :
  control_inv s → control_inv (system_step h c s).2.
Proof.
  intros (k & Hk & Hinv). destruct c as [tid|cid|f]; simpl.
  - destruct (threads s !! tid) as [[p stop]|] eqn:Hi; [|by exists k].
    pose proof (λ keep, only_run h (threads s) keep tid p stop (table s) Hi) as Hon.
    pose proof (λ want i, alive_run h (threads s) want i tid p stop (table s) Hi) as Hal.
    destruct (thread_step h stop p (table s)) as [[eff p'] tb].
    simpl in Hon, Hal. exists k. split; [done|]. simpl.
    destruct (at_ k); simpl in *; try (destruct (flag s)); naive_solver.
  - rewrite Hk. destruct cid as [|cid]; [|by exists k]. simpl.
    destruct k as [p ops]. simpl in Hinv. unfold control_step. simpl.
    destruct p as [| |tid| | |]; simpl.
    + destruct ops as [|[|] ops]; simpl; eexists; (split; [done|]); simpl; destruct (flag s); naive_solver.
    + destruct Hinv as (Hf & Hm & Hon). eexists. split; [done|]. simpl.
      split_and!; [done|done|by apply only_spawn|apply alive_spawn].
    + destruct Hinv as (Hf & Hm & Hon & Hal). rewrite Hm. eexists. split; [done|]. simpl.
      rewrite Hf. by exists tid.
    + destruct Hinv as (Hf & tid & Hm & Hon & Hal). rewrite Hm. eexists. split; [done|]. simpl.
      split; [done|]. by exists tid.
    + destruct Hinv as (Hf & tid & Hm & Hon & Hal). rewrite Hm. eexists. split; [done|]. simpl.
      split; [done|]. exists tid. split_and!; [done|by apply only_request|by apply alive_request].
    + destruct Hinv as (Hf & tid & Hm & Hon & Hal). rewrite Hm.
      destruct (exited (threads s) tid) eqn:Hex; simpl; (eexists; split; [done|]); simpl.
      * rewrite Hf. split; [done|]. by eapply only_exited.
      * split; [done|]. by exists tid.
  - by exists k.
Qed.

Lemma control_run_inv h cs s : control_inv s → control_inv (system_run h cs s).2.
Proof.
  revert s. induction cs as [|c cs IH]; intros s Hinv; [done|]. simpl.
  pose proof (control_step_inv h c s Hinv) as Hinv1.
  destruct (system_step h c s) as [eff s1]. specialize (IH s1 Hinv1).
  by destruct (system_run h cs s1) as [eff' s2].
Qed.

Lemma constructed_inv ops (tb : T) : control_inv (constructed [ops] tb).
Proof. exists (mk_controller Idle ops). split; [done|]. simpl. split; [done|]. by intros i p stop Hi. Qed.

End control.

Arguments system : clear implicits.
Arguments choice : clear implicits.

(** * Properties *)

Section claims.
  Context {T : Type} `{NodeDirectory T}.

Definition working (s : system T) (tid : nat) : Prop :=
  ∃ p stop, threads s !! tid = Some (p, stop) ∧ p ≠ Exited.

Definition is_control (c : choice T) : bool :=
  match c with Controls _ => true | _ => false end.

Lemma only_working keep (s : system T) tid : only keep (threads s) → working s tid → keep = Some tid.
Proof.
  intros Hon (p & stop & Hp & Hne). destruct (decide (Some tid = keep)) as [|Hd]; [done|].
  by specialize (Hon tid p stop Hp Hd).
Qed.

(** No thread but [keep]'s works, at any place of the controlling thread. *)
Lemma inv_only (s : system T) : control_inv s → ∃ keep, only keep (threads s).
Proof.
  intros (k & _ & Hinv). destruct (at_ k), (flag s); decompose_hyps; eauto.
Qed.

Lemma all_exited_quiet h cs (s : system T) :
  Forall (λ c, is_control c = false) cs → only None (threads s) →
  let '(eff, s') := system_run h cs s in
  eff = [] ∧ threads s' = threads s.
Proof.
  intros Hcs. revert s. induction Hcs as [|c cs Hc _ IH]; intros s Hon; [done|]. simpl.
  assert ((system_step h c s).1 = [] ∧ threads (system_step h c s).2 = threads s) as [He Hs].
  { destruct c as [tid| |f]; [|done|done]. simpl.
    destruct (threads s !! tid) as [[p stop]|] eqn:Hi; [|done].
    assert (p = Exited) as -> by by eapply Hon.
    simpl. split; [done|]. by apply list_insert_id. }
  destruct (system_step h c s) as [eff s1]. simpl in He, Hs. subst eff.
  specialize (IH s1). rewrite Hs in IH. specialize (IH Hon).
  destruct (system_run h cs s1) as [eff' s2]. destruct IH as [-> Hs2]. split; [done|congruence].
Qed.

(** C10: one controlling thread.  However its statements interleave with the checker's
    threads and everybody else's, at most one checker thread is at work at any time;
    between two of its calls, one is at work exactly when [is_running] says so; and
    after [stop] has returned the checker does nothing more, to the table or
    otherwise, until the next [start]. *)
Theorem one_controller_one_checker h ops cs (tb : T) :
  let s := (system_run h cs (constructed [ops] tb)).2 in
  (∀ i j, working s i → working s j → i = j)
  ∧ ∀ c, controllers s = [c] → at_ c = Idle →
      (flag s = true ↔ ∃ tid, working s tid)
      ∧ (flag s = false → ∀ cs', Forall (λ c, is_control c = false) cs' → (system_run h cs' s).1 = []).
Proof.
  intros s. assert (control_inv s) as Hinv by by apply control_run_inv, constructed_inv.
  split.
  - intros i j Hi Hj. destruct (inv_only s Hinv) as [keep Hon].
    pose proof (only_working keep s i Hon Hi). pose proof (only_working keep s j Hon Hj). congruence.
  - intros c Hc Hidle. destruct Hinv as (k & Hk & Hinv). rewrite Hc in Hk. injection Hk as <-.
    rewrite Hidle in Hinv. destruct (flag s).
    + destruct Hinv as (tid & _ & _ & p & Hp & Hne). split; [|done]. split; [|done].
      intros _. exists tid, p, false. split; [done|by apply Hne].
    + destruct Hinv as [_ Hon]. split.
      * split; [done|]. intros [tid Hw]. by apply (only_working None s tid Hon) in Hw.
      * intros _ cs' Hcs'. pose proof (all_exited_quiet h cs' s Hcs' Hon) as Hq.
        destruct (system_run h cs' s) as [eff s']. by destruct Hq.
Qed.

(** The steps to the end of a thread that was asked to stop. *)
Definition distance (p : pc) : nat :=
  match p with
  | Exited => 0 | AtHead => 1 | Sleeping => 1 | Counting => 2 | Removing => 3 | Incrementing => 4
  end.

Lemma distance_step h p (tb : T) :
  distance (thread_step h true p tb).1.2 = Nat.pred (distance p).
Proof. destruct p; simpl; try done. by destruct (remove_stale_nodes _ _). Qed.

Definition is_run (tid : nat) (c : choice T) : bool :=
  match c with Runs i => bool_decide (i = tid) | _ => false end.

Definition runs (tid : nat) (cs : list (choice T)) : nat :=
  length (filter (λ c, is_run tid c) cs).

Lemma stopping_thread h tid cs (s : system T) p :
  Forall (λ c, is_control c = false) cs → threads s !! tid = Some (p, true) →
  let s' := (system_run h cs s).2 in
  flag s' = flag s ∧ member s' = member s ∧ controllers s' = controllers s
  ∧ ∃ p', threads s' !! tid = Some (p', true) ∧ distance p' = distance p - runs tid cs.
Proof.
  intros Hcs. revert s p. induction Hcs as [|c cs Hc _ IH]; intros s p Hp; simpl.
  { split_and!; [done..|]. exists p. split; [done|]. unfold runs. simpl. lia. }
  assert (∃ p1, threads (system_step h c s).2 !! tid = Some (p1, true)
    ∧ distance p1 = distance p - (if is_run tid c then 1 else 0))
    as (p1 & Hp1 & Hd1).
  { destruct c as [i| |f]; [|done|exists p; split; [done|simpl; lia]]. simpl.
    case_bool_decide as Hi.
    - subst i. rewrite Hp. pose proof (distance_step h p (table s)) as Hd.
      destruct (thread_step h true p (table s)) as [[eff p1] tb]. simpl in *. exists p1.
      split; [|lia]. apply list_lookup_insert_eq. by eapply lookup_lt_Some.
    - exists p. split; [|lia]. destruct (threads s !! i) as [[q stop]|]; [|done].
      destruct (thread_step h stop q (table s)) as [[eff q1] tb]. simpl.
      by rewrite list_lookup_insert_ne. }
  assert (flag (system_step h c s).2 = flag s ∧ member (system_step h c s).2 = member s
    ∧ controllers (system_step h c s).2 = controllers s) as (Hf & Hm & Hcs).
  { destruct c as [i| |f]; [|done|done]. simpl. destruct (threads s !! i) as [[q stop]|]; [|done].
    by destruct (thread_step h stop q (table s)) as [[eff q1] tb]. }
  destruct (system_step h c s) as [eff s1]. simpl in *.
  destruct (IH s1 p1 Hp1) as (Hf' & Hm' & Hcs' & p' & Hp' & Hd').
  destruct (system_run h cs s1) as [eff' s2]. simpl in *.
  split_and!; [congruence..|]. exists p'. split; [done|]. rewrite Hd', Hd1.
  unfold runs. rewrite filter_cons. destruct (is_run tid c); simpl; lia.
Qed.

(** [stop] returns.  Once it has come to [join], four more steps of the checker's
    thread, among which no new sleep, are enough whatever else happens: the next step
    of the controlling thread returns from [stop], with no thread at work. *)
Theorem stop_returns h ops cs0 (tb : T) c tid cs :
  let s := (system_run h cs0 (constructed [ops] tb)).2 in
  controllers s = [c] → at_ c = Joining → member s = Some tid →
  Forall (λ c, is_control c = false) cs → 4 ≤ runs tid cs →
  let s' := (system_run h (cs ++ [Controls 0]) s).2 in
  controllers s' = [mk_controller Idle (todo c)] ∧ flag s' = false ∧ ∀ i, ¬ working s' i.
Proof.
  intros s Hc Hat Hmem Hcs Hruns.
  assert (control_inv s) as Hinv by by apply control_run_inv, constructed_inv.
  assert (∀ cs1 cs2 s1, (system_run h (cs1 ++ cs2) s1).2
    = (system_run h cs2 (system_run h cs1 s1).2).2) as Happ.
  { intros cs1 cs2. induction cs1 as [|c1 cs1 IH]; intros s1; [done|]. simpl.
    destruct (system_step h c1 s1) as [eff s2]. specialize (IH s2).
    destruct (system_run h (cs1 ++ cs2) s2), (system_run h cs1 s2). done. }
  rewrite Happ. pose proof (control_run_inv h cs s Hinv) as Hinv1.
  destruct Hinv as (k & Hk & Hinv). rewrite Hc in Hk. injection Hk as <-. rewrite Hat in Hinv.
  destruct Hinv as (Hf & tid' & Hm' & _ & p & Hp & _).
  rewrite Hmem in Hm'. injection Hm' as <-.
  destruct (stopping_thread h tid cs s p Hcs Hp) as (Hf1 & Hm1 & Hc1 & p' & Hp' & Hd).
  set (s1 := (system_run h cs s).2) in *.
  assert (p' = Exited) as ->.
  { assert (distance p ≤ 4) by (destruct p; simpl; lia).
    assert (distance p' = 0) as Hz by lia. by destruct p'. }
  assert (exited (threads s1) tid = true) as Hex by (unfold exited; by rewrite Hp').
  assert ((system_run h [Controls 0] s1).2
    = mk_system (flag s1) None (threads s1) [mk_controller Idle (todo c)] (table s1)) as ->.
  { simpl. rewrite Hc1, Hc. simpl. unfold control_step. destruct c as [p0 ops0]. simpl in Hat.
    subst p0. simpl. rewrite Hm1, Hmem, Hex. done. }
  simpl. split_and!; [done|congruence|]. intros i Hi.
  destruct Hinv1 as (k & Hk & Hinv1). rewrite Hc1, Hc in Hk. injection Hk as <-.
  rewrite Hat in Hinv1. destruct Hinv1 as (_ & tid' & Hm' & Hon & _).
  rewrite Hm1, Hmem in Hm'. injection Hm' as <-.
  pose proof (only_exited _ _ Hon Hex) as Hall.
  by apply (only_working None s1 i Hall) in Hi.
Qed.

(** Two controlling threads.  [start] sets the flag before it makes the thread, so
    a [stop] that comes in between finds nothing to join and returns; then [start]
    makes the thread after all.  From then on [is_running] is false, every further
    [stop] returns at once, and the checker's thread works on until the object is
    destroyed. *)
Theorem stop_can_miss_start h (tb : T) :
  ∃ cs,
    let s := (system_run h cs (constructed [[Start]; [Stop; Stop]] tb)).2 in
    controllers s = [mk_controller Idle []; mk_controller Idle [Stop]]
    ∧ flag s = false
    ∧ ∀ cs', let s' := (system_run h cs' s).2 in
        flag s' = false ∧ working s' 0.
Proof.
  exists [Controls 0; Controls 1; Controls 1; Controls 0; Controls 0]. simpl.
  split_and!; [done|done|]. intros cs'.
  assert (∀ s : system T,
    (∃ ops, controllers s = [mk_controller Idle []; mk_controller Idle ops] ∧ Start ∉ ops)
    ∧ flag s = false ∧ alive false (threads s) 0 →
    let s' := (system_run h cs' s).2 in flag s' = false ∧ working s' 0) as Hrun.
  2: { apply Hrun. split_and!; [|done|]; [exists [Stop]; split; [done|]; set_solver|by exists AtHead]. }
  induction cs' as [|c cs' IH]; intros s (Hops & Hf & Hal); simpl.
  { split; [done|]. destruct Hal as (p & Hp & Hne). exists p, false. split; [done|by apply Hne]. }
  assert ((∃ ops, controllers (system_step h c s).2 = [mk_controller Idle []; mk_controller Idle ops]
             ∧ Start ∉ ops)
    ∧ flag (system_step h c s).2 = false ∧ alive false (threads (system_step h c s).2) 0) as Hs1.
  { destruct c as [tid|cid|f]; simpl; [| |done].
    - destruct (threads s !! tid) as [[p stop]|] eqn:Hi; [|done].
      pose proof (alive_run h (threads s) false 0 tid p stop (table s) Hi Hal) as Hal'.
      by destruct (thread_step h stop p (table s)) as [[eff p'] tb'].
    - destruct Hops as (ops & Hc & Hno). rewrite Hc. destruct cid as [|[|cid]]; simpl.
      + split_and!; [by exists ops|done|done].
      + destruct ops as [|[|] ops]; simpl.
        * split_and!; [by exists []|done|done].
        * exfalso. set_solver.
        * rewrite Hf. simpl. split_and!; [|done|done]. exists ops. split; [done|set_solver].
      + split_and!; [by exists ops|done|done]. }
  destruct (system_step h c s) as [eff s1]. specialize (IH s1 Hs1).
  by destruct (system_run h cs' s1) as [eff' s2].
Qed.

End claims.

(** * Examples *)

#[local] Instance sample_order : HashOrder NodeEntry.t := front_order _.

Definition sample_checker : t := HealthChecker 1000 3.
Definition sample_table : NodeTable.t := (sample_run (take 5 sample_ops) 3).2.

Lemma checker_thread_is_loop_witness :
  thread_run sample_checker (loop_steps [undisturbed false; undisturbed true]) AtHead sample_table
    = (let '(eff, tb', exited) :=
         run_loop sample_checker [undisturbed false; undisturbed true] sample_table in
       (eff, if exited then Exited else AtHead, tb'))
  ∧ (thread_run sample_checker (loop_steps [undisturbed false; undisturbed true]) AtHead
       sample_table).1.2 = Exited.
Proof.
  pose proof (checker_thread_is_loop sample_checker sample_table) as [Hl _].
  split; [by apply Hl|by vm_compute].
Defined.

(** Started, ticked once, told to stop while it sleeps again. *)
Definition sample_choices : list (choice NodeTable.t) :=
  [Controls 0; Controls 0; Controls 0; Runs 0; Runs 0; Runs 0; Runs 0; Runs 0; Runs 0;
   Controls 0; Controls 0; Controls 0; Controls 0].

Lemma one_controller_one_checker_witness :
  let s := (system_run sample_checker (sample_choices ++ [Runs 0; Controls 0])
              (constructed [[Start; Stop]] sample_table)).2 in
  flag s = false
  ∧ (system_run sample_checker [Runs 0; Others id; Runs 0] s).1 = []
  ∧ (system_run sample_checker sample_choices (constructed [[Start; Stop]] sample_table)).1
    = [Slept 1000; Incremented; Removed []; Counted 3].
Proof.
  intros s. split; [by vm_compute|]. split; [|by vm_compute].
  destruct (one_controller_one_checker sample_checker [Start; Stop]
    (sample_choices ++ [Runs 0; Controls 0]) sample_table) as [_ Hidle].
  destruct (Hidle (mk_controller Idle [])) as [_ Hquiet];
    [by vm_compute|by vm_compute|]. apply Hquiet; [by vm_compute|by repeat constructor].
Defined.

Lemma stop_returns_witness :
  let s := (system_run sample_checker sample_choices (constructed [[Start; Stop]] sample_table)).2 in
  controllers (system_run sample_checker ([Runs 0; Runs 0; Runs 0; Runs 0] ++ [Controls 0]) s).2
  = [mk_controller Idle []].
Proof.
  intros s.
  apply (stop_returns sample_checker [Start; Stop] sample_choices sample_table
           (mk_controller Joining []) 0 [Runs 0; Runs 0; Runs 0; Runs 0]);
    [by vm_compute|done|by vm_compute|by repeat constructor|by vm_compute].
Defined.
