(* ===== verification/RegistrySystem.v ===== *)
(** * The registry process: RPC handlers and health checker on one table

    src/examples/registry_server.cpp runs the service's RPC handlers on gRPC's
    threads and the health checker's loop on its own, all on one node table whose
    mutex makes every table call atomic.  A history of the process is therefore a
    sequence of [event]s: a handler call, or one of the checker's two calls.  The
    checker's tick is two calls, so other events can come between them; and a
    registration checks the running flag before its table call, so [EvAdmitted] is
    the rest of one that has passed the check.

    The theorems follow single nodes through histories: what the missed counter
    of a node means, when a query finds it, when the checker removes it and when it
    does not, and that session ids identify nodes. *)

From Stdlib Require Import ZArith Lia.
From stdpp Require Import prelude gmap strings list.
From S2P Require Import Prelude UnorderedMap Messages Grpc NodeDir Table Registry Health.

Import RegistryService.

Inductive event :=
  | EvRegister (req : RegisterRequest.t) (rand now : Z)
  | EvHeartbeat (req : HeartbeatRequest.t) (now : Z)
  | EvDeregister (req : DeregisterRequest.t)
  | EvDiscover (req : DiscoverRequest.t)
  | EvShutdown
  | EvIncrement
  | EvRemoveStale (threshold : Z)
  | EvAdmitted (req : RegisterRequest.t) (rand now : Z).

Section system.
  Context {T : Type} `{NodeDirectoryLaws T} `{G : GrpcStatus}.
  Implicit Types s : t T.

(** A step of the process: gRPC passes the handlers a fresh response object. *)
Definition step (ev : event) s : t T :=
  match ev with
  | EvRegister req rand now => (Register req RegisterResponse.empty rand now s).2
  | EvHeartbeat req now => (Heartbeat req HeartbeatResponse.empty now s).2
  | EvDeregister req => (Deregister req DeregisterResponse.empty s).2
  | EvDiscover req => (Discover req DiscoverResponse.empty s).2
  | EvShutdown => Shutdown s
  | EvIncrement => set_table (increment_all_missed_heartbeats (node_table_ s)) s
  | EvRemoveStale threshold =>
      set_table (remove_stale_nodes threshold (node_table_ s)).2 s
  | EvAdmitted req rand now => (Register_admitted req RegisterResponse.empty rand now s).2
  end.

Definition run (evs : list event) s : t T := foldl (λ s ev, step ev s) s evs.

Lemma run_app evs1 evs2 s : run (evs1 ++ evs2) s = run evs2 (run evs1 s).
Proof. apply foldl_app. Qed.

(** ** The effect of a step on the directory *)

Definition dir_admit (cap : Z) (req : RegisterRequest.t) (rand now : Z) (d : Directory.t) : Directory.t :=
  match RegisterRequest.node_info req with
  | Some info =>
      if negb (String.eqb (NodeInfo.node_id info) "") then
        (Directory.register cap info (make_session_id (NodeInfo.node_id info) rand) now d).2
      else d
  | None => d
  end.

Definition dir_step (cap : Z) (running : bool) (ev : event) (d : Directory.t) : Directory.t :=
  match ev with
  | EvRegister req rand now => if running then dir_admit cap req rand now d else d
  | EvHeartbeat req now =>
      if String.eqb (HeartbeatRequest.node_id req) "" then d
      else alter (NodeEntry.refresh (HeartbeatRequest.cpu_usage req)
                    (HeartbeatRequest.memory_usage req) now)
             (HeartbeatRequest.node_id req) d
  | EvDeregister req => delete (DeregisterRequest.node_id req) d
  | EvDiscover _ | EvShutdown => d
  | EvIncrement => Directory.tick d
  | EvRemoveStale threshold => Directory.sweep threshold d
  | EvAdmitted req rand now => dir_admit cap req rand now d
  end.

Definition still_running (ev : event) (running : bool) : bool :=
  match ev with EvShutdown => false | _ => running end.

Lemma step_spec ev s :
  svc_wf s →
  svc_wf (step ev s) ∧ svc_capacity (step ev s) = svc_capacity s
  ∧ is_running_ (step ev s) = still_running ev (is_running_ s)
  ∧ svc_abs (step ev s) = dir_step (svc_capacity s) (is_running_ s) ev (svc_abs s).
Proof.
  intros Hwf. destruct ev as [req rand now|req now|req|req| | |threshold|req rand now]; simpl.
  - pose proof (Register_effect req RegisterResponse.empty rand now s Hwf) as Heff.
    unfold dir_admit. destruct (Register _ _ _ _ s) as [[st r] s'].
    destruct Heff as (? & ? & ? & Habs). simpl. rewrite Habs. split_and!; [done..|].
    destruct (RegisterRequest.node_info req), (is_running_ s); done.
  - pose proof (Heartbeat_effect req HeartbeatResponse.empty now s Hwf) as Heff.
    by destruct (Heartbeat _ _ _ s) as [[st r] s'].
  - pose proof (Deregister_effect req DeregisterResponse.empty s Hwf) as Heff.
    by destruct (Deregister _ _ s) as [[st r] s'].
  - done.
  - unfold Shutdown. destruct s as [tb []]; done.
  - destruct (increment_refines (node_table_ s) Hwf) as ([= Heq] & ? & ?). done.
  - destruct (remove_stale_refines threshold (node_table_ s) Hwf) as ([= Heq] & ? & ?). done.
  - pose proof (Register_admitted_effect req RegisterResponse.empty rand now s Hwf) as Heff.
    by destruct (Register_admitted _ _ _ _ s) as [[st r] s'].
Qed.

Lemma admit_entry cap req rand now d id e' :
  dir_admit cap req rand now d !! id = Some e' →
  d !! id = Some e'
  ∨ (∃ info, RegisterRequest.node_info req = Some info ∧ NodeInfo.node_id info = id
       ∧ d !! id = None ∧ e' = NodeEntry.fresh info (make_session_id id rand) now).
Proof.
  unfold dir_admit. destruct (RegisterRequest.node_info req) as [info|]; [|by left].
  destruct (negb _); [|by left]. unfold Directory.register.
  case_decide as Hacc; simpl; [|by left]. rewrite lookup_insert. case_decide as Hid; [|by left].
  intros [= <-]. right. subst id. exists info. split_and!; [done|done|apply Hacc|done].
Qed.

Lemma admit_present cap req rand now d id e :
  d !! id = Some e → dir_admit cap req rand now d !! id = Some e.
Proof.
  intros He. unfold dir_admit. destruct (RegisterRequest.node_info req) as [info|]; [|done].
  destruct (negb _); [|done]. unfold Directory.register.
  case_decide as Hacc; simpl; [|done]. rewrite lookup_insert. case_decide as Heq; [|done].
  destruct Hacc as [_ Hnone]. subst id. congruence.
Qed.

Lemma run_wf evs s : svc_wf s → svc_wf (run evs s).
Proof.
  revert s. induction evs as [|ev evs IH]; intros s Hwf; simpl; [done|].
  apply IH. by apply step_spec.
Qed.

Lemma run_not_running evs s : is_running_ s = false → svc_wf s → is_running_ (run evs s) = false.
Proof.
  revert s. induction evs as [|ev evs IH]; intros s Hrun Hwf; simpl; [done|].
  destruct (step_spec ev s Hwf) as (? & _ & Hr & _). apply IH; [|done].
  rewrite Hr, Hrun. by destruct ev.
Qed.

(** ** One node through one step *)

(** Events that can refresh or create the entry of [id]. *)
Definition heartbeat_of (id : string) (ev : event) : bool :=
  match ev with
  | EvHeartbeat req _ => String.eqb (HeartbeatRequest.node_id req) id
  | _ => false
  end.

Definition register_of (id : string) (ev : event) : bool :=
  match ev with
  | EvRegister req _ _ | EvAdmitted req _ _ =>
      match RegisterRequest.node_info req with
      | Some info => String.eqb (NodeInfo.node_id info) id
      | None => false
      end
  | _ => false
  end.

Definition is_increment (ev : event) : bool :=
  match ev with EvIncrement => true | _ => false end.

(** The time an event took, when it takes one. *)
Definition event_time (ev : event) : option Z :=
  match ev with
  | EvRegister _ _ now | EvHeartbeat _ now | EvAdmitted _ _ now => Some now
  | _ => None
  end.

(** How an entry that is in the directory after a step got its contents. *)
Lemma step_entry ev s id e' :
  svc_wf s → svc_abs (step ev s) !! id = Some e' →
  match ev with
  | EvRegister req rand now | EvAdmitted req rand now =>
      svc_abs s !! id = Some e'
      ∨ register_of id ev = true ∧ svc_abs s !! id = None
        ∧ ∃ info, e' = NodeEntry.fresh info (make_session_id id rand) now
  | EvHeartbeat req now =>
      ∃ e, svc_abs s !! id = Some e
        ∧ e' = (if heartbeat_of id ev && negb (String.eqb id "") then
                  NodeEntry.refresh (HeartbeatRequest.cpu_usage req)
                    (HeartbeatRequest.memory_usage req) now e
                else e)
  | EvIncrement => ∃ e, svc_abs s !! id = Some e ∧ e' = NodeEntry.miss e
  | EvDeregister req =>
      svc_abs s !! id = Some e' ∧ DeregisterRequest.node_id req ≠ id
  | EvRemoveStale threshold =>
      svc_abs s !! id = Some e' ∧ (NodeEntry.missed_heartbeats e' < threshold)%Z
  | EvDiscover _ | EvShutdown => svc_abs s !! id = Some e'
  end.
Proof.
  intros Hwf. destruct (step_spec ev s Hwf) as (_ & _ & _ & ->).
  assert (∀ req rand now, dir_admit (svc_capacity s) req rand now (svc_abs s) !! id = Some e' →
    svc_abs s !! id = Some e'
    ∨ register_of id (EvAdmitted req rand now) = true ∧ svc_abs s !! id = None
      ∧ ∃ info, e' = NodeEntry.fresh info (make_session_id id rand) now) as Hadm.
  { intros req rand now [He|(info & Hinfo & Hid & Hnone & ->)]%admit_entry; [by left|]. right.
    simpl. rewrite Hinfo. split_and!; [by apply String.eqb_eq|done|by exists info]. }
  destruct ev as [req rand now|req now|req|req| | |threshold|req rand now]; simpl; try done.
  - destruct (is_running_ s); [|by left]. by apply Hadm.
  - destruct (String.eqb_spec (HeartbeatRequest.node_id req) "") as [Hemp|Hemp].
    + intros He. exists e'. split; [done|].
      destruct (String.eqb_spec (HeartbeatRequest.node_id req) id) as [<-|]; [|done].
      by rewrite Hemp.
    + rewrite lookup_alter. case_decide as Hid.
      * subst id. intros [e [-> ->]]%fmap_Some. exists e. rewrite String.eqb_refl. simpl.
        by apply String.eqb_neq in Hemp as ->.
      * intros He. exists e'. split; [done|]. by apply String.eqb_neq in Hid as ->.
  - rewrite lookup_delete_Some. tauto.
  - unfold Directory.tick. rewrite lookup_fmap. intros [e [-> ->]]%fmap_Some. by exists e.
  - intros [He Hst]%map_lookup_filter_Some. split; [done|].
    unfold Directory.is_stale in Hst. simpl in Hst. lia.
  - by apply Hadm.
Qed.


(** What becomes of an entry that is in the directory before a step. *)
Lemma step_present ev s id e :
  svc_wf s → id ≠ "" → svc_abs s !! id = Some e →
  svc_abs (step ev s) !! id =
    match ev with
    | EvHeartbeat req now =>
        Some (if heartbeat_of id ev then
                NodeEntry.refresh (HeartbeatRequest.cpu_usage req)
                  (HeartbeatRequest.memory_usage req) now e
              else e)
    | EvDeregister req => if decide (DeregisterRequest.node_id req = id) then None else Some e
    | EvIncrement => Some (NodeEntry.miss e)
    | EvRemoveStale threshold =>
        if decide (threshold ≤ NodeEntry.missed_heartbeats e)%Z then None else Some e
    | EvRegister _ _ _ | EvAdmitted _ _ _ | EvDiscover _ | EvShutdown => Some e
    end.
Proof.
  intros Hwf Hid He. destruct (step_spec ev s Hwf) as (_ & _ & _ & ->).
  destruct ev as [req rand now|req now|req|req| | |threshold|req rand now]; simpl; try done.
  - destruct (is_running_ s); [by apply admit_present|done].
  - destruct (String.eqb_spec (HeartbeatRequest.node_id req) id) as [Heq|Hne].
    + rewrite Heq. apply String.eqb_neq in Hid as ->. rewrite lookup_alter_eq. by rewrite He.
    + destruct (String.eqb _ ""); [done|]. by rewrite lookup_alter_ne.
  - case_decide as Heq.
    + subst id. apply lookup_delete_eq.
    + by rewrite lookup_delete_ne.
  - unfold Directory.tick. by rewrite lookup_fmap, He.
  - unfold Directory.sweep. case_decide as Hst.
    + apply map_lookup_filter_None. right. intros e' He'. naive_solver.
    + by apply map_lookup_filter_Some.
  - by apply admit_present.
Qed.

(** No entry has the empty id: no handler accepts it. *)
Lemma step_no_empty ev s :
  svc_wf s → svc_abs s !! "" = None → svc_abs (step ev s) !! "" = None.
Proof.
  intros Hwf Hnone. destruct (svc_abs (step ev s) !! "") as [e'|] eqn:He'; [|done].
  assert (∀ cap req rand now, dir_admit cap req rand now (svc_abs s) !! "" = None) as Hadm.
  { intros cap req rand now. destruct (dir_admit _ _ _ _ _ !! "") as [e|] eqn:He; [|done].
    pose proof He as Ha. apply admit_entry in Ha as [Ha|(info & Hinfo & Hid & _)]; [congruence|].
    unfold dir_admit in He. rewrite Hinfo, Hid in He. simpl in He. congruence. }
  pose proof (step_spec ev s Hwf) as (_ & _ & _ & Habs). rewrite Habs in He'.
  destruct ev as [req rand now|req now|req|req| | |thr|req rand now]; simpl in He'; try congruence.
  - destruct (is_running_ s); [|congruence]. by rewrite Hadm in He'.
  - destruct (String.eqb_spec (HeartbeatRequest.node_id req) "") as [|Hne]; [congruence|].
    rewrite lookup_alter_ne in He' by done. congruence.
  - apply lookup_delete_Some in He' as [_ He']. congruence.
  - unfold Directory.tick in He'. by rewrite lookup_fmap, Hnone in He'.
  - apply map_lookup_filter_Some in He' as [He' _]. congruence.
Qed.

Lemma run_no_empty evs s :
  svc_wf s → svc_abs s !! "" = None → svc_abs (run evs s) !! "" = None.
Proof.
  revert s. induction evs as [|ev evs IH]; intros s Hwf Hnone; simpl; [done|].
  apply IH; [by apply step_spec|by apply step_no_empty].
Qed.

(** ** Classes of client events *)

Definition is_checker (ev : event) : bool :=
  match ev with EvIncrement | EvRemoveStale _ => true | _ => false end.

Definition deregister_of (id : string) (ev : event) : bool :=
  match ev with
  | EvDeregister req => String.eqb (DeregisterRequest.node_id req) id
  | _ => false
  end.

(** An event of a client, with no heartbeat and no deregistration of [id]. *)
Definition quiet (id : string) (ev : event) : Prop :=
  is_checker ev = false ∧ heartbeat_of id ev = false ∧ deregister_of id ev = false.

(** An event of a client with neither a heartbeat nor a registration of [id]. *)
Definition silent (id : string) (ev : event) : Prop :=
  is_checker ev = false ∧ heartbeat_of id ev = false ∧ register_of id ev = false.

Lemma quiet_present id evs s e :
  svc_wf s → id ≠ "" → Forall (quiet id) evs →
  svc_abs s !! id = Some e → svc_abs (run evs s) !! id = Some e.
Proof.
  intros Hwf Hid Hq. revert s Hwf.
  induction Hq as [|ev evs (Hck & Hhb & Hdr) _ IH]; intros s Hwf He; simpl; [done|].
  apply IH; [by apply step_spec|]. rewrite (step_present ev s id e) by done.
  destruct ev; try done.
  - by rewrite Hhb.
  - simpl in Hdr. apply String.eqb_neq in Hdr. by rewrite decide_False.
Qed.

Lemma silent_step_absent id ev s :
  svc_wf s → register_of id ev = false →
  svc_abs s !! id = None → svc_abs (step ev s) !! id = None.
Proof.
  intros Hwf Hreg Hnone. destruct (svc_abs (step ev s) !! id) as [e'|] eqn:He; [|done].
  apply step_entry in He; [|done]. rewrite Hnone in He.
  destruct ev; decompose_hyps; congruence.
Qed.

Lemma silent_absent id evs s :
  svc_wf s → Forall (λ ev, register_of id ev = false) evs →
  svc_abs s !! id = None → svc_abs (run evs s) !! id = None.
Proof.
  intros Hwf Hs. revert s Hwf.
  induction Hs as [|ev evs Hev _ IH]; intros s Hwf He; simpl; [done|].
  apply IH; [by apply step_spec|by apply silent_step_absent].
Qed.

Lemma silent_entry id evs s e' :
  svc_wf s → Forall (silent id) evs →
  svc_abs (run evs s) !! id = Some e' → svc_abs s !! id = Some e'.
Proof.
  intros Hwf Hs. revert s Hwf.
  induction Hs as [|ev evs (Hck & Hhb & Hreg) _ IH]; intros s Hwf He; simpl; [done|].
  apply IH in He; [|by apply step_spec]. apply step_entry in He; [|done].
  destruct ev; try done.
  - destruct He as [He|(Hr & _)]; [done|congruence].
  - rewrite Hhb in He. decompose_hyps. by subst.
  - by destruct He.
  - destruct He as [He|(Hr & _)]; [done|congruence].
Qed.

(** ** Rounds of the checker

    The checker's ticks alternate the two calls; a round is what happens from
    one removal to the next. *)

Definition round (threshold : Z) (r : list event * list event) : list event :=
  r.1 ++ [EvIncrement] ++ r.2 ++ [EvRemoveStale threshold].

Definition rounds (threshold : Z) (rs : list (list event * list event)) : list event :=
  concat (round threshold <$> rs).

Lemma rounds_cons threshold r rs :
  rounds threshold (r :: rs) = round threshold r ++ rounds threshold rs.
Proof. done. Qed.

Definition both (P : event → Prop) (r : list event * list event) : Prop :=
  Forall P r.1 ∧ Forall P r.2.

Lemma run_round threshold r s :
  run (round threshold r) s =
    step (EvRemoveStale threshold) (run r.2 (step EvIncrement (run r.1 s))).
Proof. unfold round. by rewrite !run_app. Qed.

Lemma miss_exact e threshold :
  (0 ≤ NodeEntry.missed_heartbeats e < threshold)%Z → in_u32 threshold →
  NodeEntry.missed_heartbeats (NodeEntry.miss e) = (NodeEntry.missed_heartbeats e + 1)%Z.
Proof. intros ? [??]. apply wrap_u32_small. unfold in_u32. lia. Qed.

Lemma entry_counter s id e :
  svc_wf s → svc_abs s !! id = Some e → (0 ≤ NodeEntry.missed_heartbeats e)%Z.
Proof. intros Hwf He. by destruct (dir_wf_entry _ _ _ Hwf He) as [_ [??]]. Qed.

(** A node that is there after a silent round was there before, and the round
    counted one missed heartbeat. *)
Lemma silent_round_entry threshold r s id e' :
  svc_wf s → both (silent id) r →
  svc_abs (run (round threshold r) s) !! id = Some e' →
  ∃ e, svc_abs s !! id = Some e ∧ e' = NodeEntry.miss e
       ∧ (NodeEntry.missed_heartbeats e' < threshold)%Z.
Proof.
  intros Hwf [Ha Hb] He. rewrite run_round in He.
  pose proof (run_wf r.1 s Hwf) as Hwf1.
  assert (svc_wf (step EvIncrement (run r.1 s))) as Hwf2 by by apply step_spec.
  apply step_entry in He as [He Hlt]; [|by apply run_wf].
  apply silent_entry in He; [|done..].
  apply step_entry in He as (e & He & ->); [|done].
  apply silent_entry in He; [|done..]. by exists e.
Qed.

(** A node present before a quiet round is swept by it or has one more missed
    heartbeat after it. *)
Lemma quiet_round_present threshold r s id e :
  svc_wf s → id ≠ "" → both (quiet id) r → svc_abs s !! id = Some e →
  svc_abs (run (round threshold r) s) !! id =
    if decide (threshold ≤ NodeEntry.missed_heartbeats (NodeEntry.miss e))%Z
    then None else Some (NodeEntry.miss e).
Proof.
  intros Hwf Hid [Ha Hb] He. rewrite run_round.
  pose proof (run_wf r.1 s Hwf) as Hwf1.
  assert (svc_wf (step EvIncrement (run r.1 s))) as Hwf2 by by apply step_spec.
  rewrite (step_present _ _ id (NodeEntry.miss e)); [done|by apply run_wf|done|].
  apply quiet_present; [done..|].
  rewrite (step_present _ _ id e); [done..|]. by apply quiet_present.
Qed.

End system.

(** * Properties *)

Section claims.
  Context {T : Type} `{NodeDirectoryLaws T} `{G : GrpcStatus}.
  Implicit Types s : t T.

(** The number of checker ticks in a history. *)
Definition increments (evs : list event) : Z :=
  Z.of_nat (length (filter (λ ev, is_increment ev) evs)).

Lemma increments_snoc evs ev :
  increments (evs ++ [ev]) = (increments evs + if is_increment ev then 1 else 0)%Z.
Proof.
  unfold increments. rewrite filter_app, length_app. destruct ev; simpl; lia.
Qed.

(** What an entry remembers: its last refresh, and the ticks since. *)
Definition refreshed_by (id : string) (evs : list event) (e : NodeEntry.t) : Prop :=
  ∃ evs1 ev evs2,
    evs = evs1 ++ ev :: evs2
    ∧ (register_of id ev = true ∨ heartbeat_of id ev = true)
    ∧ event_time ev = Some (NodeEntry.last_heartbeat e)
    ∧ Forall (λ ev, heartbeat_of id ev = false) evs2
    ∧ NodeEntry.missed_heartbeats e = wrap_u32 (increments evs2).

Lemma refreshed_snoc id evs ev e e' :
  refreshed_by id evs e → heartbeat_of id ev = false →
  NodeEntry.last_heartbeat e' = NodeEntry.last_heartbeat e →
  NodeEntry.missed_heartbeats e'
    = wrap_u32 (NodeEntry.missed_heartbeats e + if is_increment ev then 1 else 0) →
  refreshed_by id (evs ++ [ev]) e'.
Proof.
  intros (evs1 & ev0 & evs2 & -> & Hev0 & Ht & Hhb & Hm) Hev Hlast Hmiss.
  exists evs1, ev0, (evs2 ++ [ev]). rewrite <-app_assoc. split_and!; try done.
  - by rewrite Hlast.
  - apply Forall_app; split; [done|]. by repeat constructor.
  - rewrite Hmiss, Hm, wrap_u32_add_l, increments_snoc. done.
Qed.

Lemma refreshed_now id evs ev e :
  register_of id ev = true ∨ heartbeat_of id ev = true →
  event_time ev = Some (NodeEntry.last_heartbeat e) →
  NodeEntry.missed_heartbeats e = 0%Z → refreshed_by id (evs ++ [ev]) e.
Proof. intros Hev Ht Hm. exists evs, ev, []. by rewrite Hm. Qed.

(** C12: what the counters mean.  In any history, the entry of a node that was
    not there at the start records its last registration or heartbeat: its
    timestamp is the time of that event, no heartbeat of the node follows it, and
    [missed_heartbeats] is the number of checker ticks since, as a [uint32_t]. *)
Theorem missed_heartbeats_counts_ticks evs s id e :
  svc_wf s → id ≠ "" → svc_abs s !! id = None →
  svc_abs (run evs s) !! id = Some e → refreshed_by id evs e.
Proof.
  intros Hwf Hid Hnone. revert e. induction evs as [|ev evs IH] using rev_ind; intros e He.
  { simpl in He. congruence. }
  rewrite run_app in He. simpl in He.
  pose proof (run_wf evs s Hwf) as Hwf1.
  assert (∀ e0, svc_abs (run evs s) !! id = Some e0 → e0 = e → heartbeat_of id ev = false →
                is_increment ev = false → refreshed_by id (evs ++ [ev]) e) as Hsame.
  { intros e0 He0 <- Hhb Hinc. eapply refreshed_snoc; eauto. rewrite Hinc, Z.add_0_r.
    symmetry. apply wrap_u32_small. by apply (dir_wf_entry _ _ _ Hwf1 He0). }
  apply step_entry in He; [|done]. destruct ev as [req rand now|req now|req|req| | |thr|req rand now].
  - destruct He as [He|(Hreg & _ & info & ->)]; [by eapply Hsame|].
    apply refreshed_now; [by left|done|done].
  - destruct He as (e0 & He0 & ->). apply String.eqb_neq in Hid. rewrite Hid, andb_true_r in *.
    destruct (heartbeat_of id (EvHeartbeat req now)) eqn:Hhb; [|by eapply Hsame].
    apply refreshed_now; [by right|done|done].
  - destruct He as [He _]. by eapply Hsame.
  - by eapply Hsame.
  - by eapply Hsame.
  - destruct He as (e0 & He0 & ->). eapply refreshed_snoc; eauto.
  - destruct He as [He _]. by eapply Hsame.
  - destruct He as [He|(Hreg & _ & info & ->)]; [by eapply Hsame|].
    apply refreshed_now; [by left|done|done].
Qed.

(** ** Who is found *)

(** An event that refreshes the entry of [id] in the state [s]: a heartbeat of a
    registered node, or a registration that succeeds. *)
Definition refreshes (id : string) (ev : event) s : Prop :=
  heartbeat_of id ev = true ∧ id ≠ "" ∧ is_Some (svc_abs s !! id)
  ∨ register_of id ev = true ∧ svc_abs s !! id = None ∧ is_Some (svc_abs (step ev s) !! id).

(** [id] has been refreshed since the last tick of the checker. *)
Definition refreshed_since_tick (id : string) (evs : list event) s : Prop :=
  ∃ evs1 ev evs2, evs = evs1 ++ ev :: evs2
    ∧ refreshes id ev (run evs1 s) ∧ Forall (λ ev, is_increment ev = false) evs2.

Lemma refreshed_since_snoc id evs ev s :
  refreshed_since_tick id evs s → is_increment ev = false →
  refreshed_since_tick id (evs ++ [ev]) s.
Proof.
  intros (evs1 & ev0 & evs2 & -> & Hr & Hall) Hev. exists evs1, ev0, (evs2 ++ [ev]).
  rewrite <-app_assoc. split_and!; [done|done|]. apply Forall_app. by split; [|constructor].
Qed.

Lemma refreshed_since_last id evs ev s :
  refreshes id ev (run evs s) → refreshed_since_tick id (evs ++ [ev]) s.
Proof. intros Hr. by exists evs, ev, []. Qed.

(** A counter has not seen more ticks than there were. *)
Lemma missed_le_increments evs s id e :
  svc_wf s → svc_abs s !! id = None → svc_abs (run evs s) !! id = Some e →
  (NodeEntry.missed_heartbeats e ≤ increments evs)%Z.
Proof.
  intros Hwf Hnone. revert e. induction evs as [|ev evs IH] using rev_ind; intros e He.
  { simpl in He. congruence. }
  rewrite run_app in He. simpl in He. rewrite increments_snoc.
  assert (0 ≤ increments evs)%Z as Hpos by (unfold increments; lia).
  apply step_entry in He; [|by apply run_wf].
  destruct ev as [req rand now|req now|req|req| | |thr|req rand now]; simpl is_increment; cbn iota.
  - destruct He as [He|(_ & _ & info & ->)]; [specialize (IH _ He)|simpl]; lia.
  - destruct He as (e0 & He0 & ->). specialize (IH _ He0). destruct (_ && _); simpl; lia.
  - destruct He as [He _]. specialize (IH _ He). lia.
  - specialize (IH _ He). lia.
  - specialize (IH _ He). lia.
  - destruct He as (e0 & He0 & ->). specialize (IH _ He0). simpl.
    assert (0 ≤ NodeEntry.missed_heartbeats e0)%Z by (eapply entry_counter; [|done]; by apply run_wf).
    unfold wrap_u32. pose proof (Z.mod_le (NodeEntry.missed_heartbeats e0 + 1) (2 ^ 32)). lia.
  - destruct He as [He _]. specialize (IH _ He). lia.
  - destruct He as [He|(_ & _ & info & ->)]; [specialize (IH _ He)|simpl]; lia.
Qed.

(** No missed heartbeat: a refresh since the last tick. *)
Lemma no_miss_refreshed evs s id e :
  svc_wf s → svc_abs s !! id = None → (increments evs < 2 ^ 32)%Z →
  svc_abs (run evs s) !! id = Some e → NodeEntry.missed_heartbeats e = 0%Z →
  refreshed_since_tick id evs s.
Proof.
  intros Hwf Hnone. revert e. induction evs as [|ev evs IH] using rev_ind; intros e Hinc He Hm.
  { simpl in He. congruence. }
  rewrite increments_snoc in Hinc. rewrite run_app in He. simpl in He.
  assert (increments evs < 2 ^ 32)%Z as Hinc' by (destruct (is_increment ev); lia).
  assert (∀ e0, svc_abs (run evs s) !! id = Some e0 → NodeEntry.missed_heartbeats e0 = 0%Z →
    is_increment ev = false → refreshed_since_tick id (evs ++ [ev]) s) as Hsame.
  { intros e0 He0 Hm0 Hev. apply refreshed_since_snoc; [|done]. by eapply IH. }
  pose proof He as Hstep. apply step_entry in Hstep; [|by apply run_wf].
  destruct ev as [req rand now|req now|req|req| | |thr|req rand now].
  - destruct Hstep as [He0|(Hreg & Hno & _)]; [by eapply Hsame|].
    apply refreshed_since_last. by right.
  - destruct Hstep as (e0 & He0 & ->).
    destruct (heartbeat_of id (EvHeartbeat req now)) eqn:Hhb; [|by eapply Hsame].
    destruct (String.eqb_spec id "") as [Hid|Hid]; [by eapply Hsame|].
    apply refreshed_since_last. by left.
  - destruct Hstep as [He0 _]. by eapply Hsame.
  - by eapply Hsame.
  - by eapply Hsame.
  - destruct Hstep as (e0 & He0 & ->). simpl in Hm. exfalso.
    pose proof (missed_le_increments evs s id e0 Hwf Hnone He0) as Hle.
    assert (0 ≤ NodeEntry.missed_heartbeats e0)%Z by (eapply entry_counter; [|done]; by apply run_wf).
    simpl in Hinc. unfold wrap_u32 in Hm. rewrite Z.mod_small in Hm; lia.
  - destruct Hstep as [He0 _]. by eapply Hsame.
  - destruct Hstep as [He0|(Hreg & Hno & _)]; [by eapply Hsame|].
    apply refreshed_since_last. by right.
Qed.

(** A step other than a tick keeps a node without missed heartbeats. *)
Lemma no_miss_step ev s id :
  svc_wf s → is_increment ev = false →
  (∀ e, svc_abs s !! id = Some e → NodeEntry.missed_heartbeats e = 0%Z) →
  ∀ e, svc_abs (step ev s) !! id = Some e → NodeEntry.missed_heartbeats e = 0%Z.
Proof.
  intros Hwf Hev Hm e He. apply step_entry in He; [|done].
  destruct ev; decompose_hyps; subst; try done; try (by eapply Hm); try (by eauto).
  destruct (_ && _); [done|]. by eapply Hm.
Qed.

Lemma no_miss_run evs s id :
  svc_wf s → Forall (λ ev, is_increment ev = false) evs →
  (∀ e, svc_abs s !! id = Some e → NodeEntry.missed_heartbeats e = 0%Z) →
  ∀ e, svc_abs (run evs s) !! id = Some e → NodeEntry.missed_heartbeats e = 0%Z.
Proof.
  intros Hwf Hevs. revert s Hwf. induction Hevs as [|ev evs Hev _ IH]; intros s Hwf Hm; [done|].
  apply IH; [by apply step_spec|]. by apply no_miss_step.
Qed.

Lemma refreshes_no_miss id ev s e :
  svc_wf s → refreshes id ev s → svc_abs (step ev s) !! id = Some e →
  NodeEntry.missed_heartbeats e = 0%Z.
Proof.
  intros Hwf Hr He. apply step_entry in He; [|done].
  destruct Hr as [(Hhb & Hid & _)|(Hreg & Hno & _)]; destruct ev; simplify_eq; decompose_hyps;
    subst; try done; try congruence.
  - simpl in Hhb. simpl heartbeat_of. rewrite Hhb. apply String.eqb_neq in Hid as ->. done.
Qed.

(** C14: who is found.  After any history of a fresh registry that has seen fewer than
    2^32 checker ticks, a query returns a node exactly when it is registered, offers
    one of the services asked for (or none was asked for), and has registered or sent
    a heartbeat since the checker's last tick.  So a query without services does not
    list all nodes, as node_table.h and registry.proto say it does, but those without
    a miss. *)
Theorem discover_finds_live_nodes evs max_nodes req info :
  in_u32 max_nodes → (increments evs < 2 ^ 32)%Z →
  let s0 := RegistryServiceImpl (T := T) max_nodes in
  let s := run evs s0 in
  let services := DiscoverRequest.service_filter req in
  let id := NodeInfo.node_id info in
  info ∈ DiscoverResponse.nodes (Discover req DiscoverResponse.empty s).1.2
  ↔ NodeEntry.info <$> svc_abs s !! id = Some info
    ∧ (services = [] ∨ Exists (λ sv, sv ∈ services) (NodeInfo.services info))
    ∧ refreshed_since_tick id evs s0.
Proof.
  intros Hmax Hinc s0 s services id.
  destruct (new_directory_spec (T := T) max_nodes Hmax) as (Hwf0 & Hd0 & _).
  assert (svc_wf s0) as Hwf by done. assert (svc_wf s) as Hwfs by by apply run_wf.
  assert (svc_abs s0 !! id = None) as Hnone by (unfold svc_abs; simpl; by rewrite Hd0).
  rewrite Discover_nodes. simpl. fold services. rewrite found_nodes by done. fold id. split.
  - intros (e & He & Hinfo & Hm & Hsv). rewrite He, Hinfo in *. simpl. rewrite Hinfo.
    split_and!; [done|done|]. by eapply no_miss_refreshed.
  - intros ((e & He & Hinfo)%fmap_Some & Hsv & evs1 & ev & evs2 & Hevs & Hr & Hq).
    exists e. split_and!; [done|done|]. rewrite Hinfo in Hsv. split; [|done].
    unfold s in He. rewrite Hevs, run_app in He. simpl in He.
    assert (svc_wf (run evs1 s0)) as Hwf1 by by apply run_wf.
    eapply no_miss_run; [|exact Hq| |exact He]; [by apply step_spec|].
    intros e' He'. by eapply refreshes_no_miss.
Qed.

(** C15: a node that goes silent is gone after as many rounds of the checker as
    the threshold, whatever the other clients do in between. *)
Theorem silent_node_removed threshold rs s id :
  svc_wf s → in_u32 threshold → (threshold ≤ Z.of_nat (length rs))%Z →
  (∀ e, svc_abs s !! id = Some e → NodeEntry.missed_heartbeats e < threshold)%Z →
  Forall (both (silent id)) rs →
  svc_abs (run (rounds threshold rs) s) !! id = None.
Proof.
  intros Hwf Hthr Hlen Hlt Hrs.
  destruct (svc_abs (run (rounds threshold rs) s) !! id) as [e'|] eqn:He'; [|done].
  cut (∀ k, (∀ e, svc_abs s !! id = Some e → (k ≤ NodeEntry.missed_heartbeats e)%Z) →
            (k + Z.of_nat (length rs) ≤ NodeEntry.missed_heartbeats e' < threshold)%Z).
  { intros Hcut. specialize (Hcut 0%Z).
    assert (∀ e, svc_abs s !! id = Some e → (0 ≤ NodeEntry.missed_heartbeats e)%Z)
      as Hpos by (intros; by eapply entry_counter). apply Hcut in Hpos. lia. }
  clear Hlen. revert s Hwf Hlt He'. induction Hrs as [|r rs Hr _ IH]; intros s Hwf Hlt He' k Hk.
  - simpl in *. specialize (Hk _ He'). specialize (Hlt _ He'). lia.
  - rewrite rounds_cons, run_app in He'.
    assert (∀ e, svc_abs (run (round threshold r) s) !! id = Some e →
                 (k + 1 ≤ NodeEntry.missed_heartbeats e < threshold)%Z) as Hround.
    { intros e1 He1. apply silent_round_entry in He1 as (e & He & -> & Hlt1); [|done..].
      pose proof (Hlt e He). specialize (Hk e He).
      pose proof (entry_counter s id e Hwf He).
      rewrite (miss_exact e threshold) in * by (done || lia). lia. }
    rewrite length_cons.
    assert (k + 1 + Z.of_nat (length rs) ≤ NodeEntry.missed_heartbeats e' < threshold)%Z;
      [|lia].
    apply (IH (run (round threshold r) s)); [by apply run_wf| |done|];
      intros e1 He1; apply Hround in He1; lia.
Qed.

(** A node whose owner only retries its registration while the old entry is
    still in the table (what a node does after it lost contact) is swept within
    as many rounds as the threshold: at the end of some round its id is free
    again. *)
Lemma retrying_node_is_swept threshold rs s id :
  svc_wf s → id ≠ "" → in_u32 threshold → (threshold ≤ Z.of_nat (length rs))%Z →
  (∀ e, svc_abs s !! id = Some e → NodeEntry.missed_heartbeats e < threshold)%Z →
  Forall (both (quiet id)) rs →
  ∃ n, n ≤ length rs ∧ svc_abs (run (rounds threshold (take n rs)) s) !! id = None.
Proof.
  intros Hwf Hid Hthr Hlen Hlt Hrs.
  assert (∃ k, (threshold - Z.of_nat (length rs) ≤ k)%Z ∧
          ∀ e, svc_abs s !! id = Some e → (k ≤ NodeEntry.missed_heartbeats e)%Z) as (k & Hk & Hlow).
  { exists 0%Z. split; [lia|]. intros. by eapply entry_counter. }
  clear Hlen. revert s k Hwf Hlt Hk Hlow.
  induction Hrs as [|r rs Hr _ IH]; intros s k Hwf Hlt Hk Hlow.
  - exists 0. split; [done|]. simpl in *. destruct (svc_abs s !! id) as [e|] eqn:He; [|done].
    specialize (Hlt _ eq_refl). specialize (Hlow _ eq_refl). lia.
  - destruct (svc_abs s !! id) as [e|] eqn:He.
    2: { exists 0. split; [lia|]. done. }
    pose proof (quiet_round_present threshold r s id e Hwf Hid Hr He) as Hnext.
    specialize (Hlt _ eq_refl). specialize (Hlow _ eq_refl).
    pose proof (entry_counter s id e Hwf He).
    rewrite (miss_exact e threshold) in Hnext by (done || lia).
    destruct (IH (run (round threshold r) s) (k + 1)%Z) as (n & Hn & Habs).
    + by apply run_wf.
    + intros e1 He1. rewrite Hnext in He1. case_decide; [done|]. injection He1 as <-.
      rewrite (miss_exact e threshold) by (done || lia). lia.
    + rewrite length_cons in Hk. lia.
    + intros e1 He1. rewrite Hnext in He1. case_decide; [done|]. injection He1 as <-.
      rewrite (miss_exact e threshold) by (done || lia). lia.
    + exists (S n). split; [simpl; lia|]. simpl. by rewrite rounds_cons, run_app.
Qed.


(** Whether the owner of [id] keeps up: starting [k] ticks after its last
    refresh, its heartbeats keep the count below every threshold that is
    applied, and nobody deregisters it. *)
Fixpoint keeps_up (id : string) (k : Z) (evs : list event) : bool :=
  match evs with
  | [] => true
  | ev :: evs' =>
      match ev with
      | EvIncrement => keeps_up id (k +u32 1)%drocm evs'
      | EvRemoveStale threshold => (k <? threshold)%Z && keeps_up id k evs'
      | _ =>
          if heartbeat_of id ev then keeps_up id 0 evs'
          else negb (deregister_of id ev) && keeps_up id k evs'
      end
  end.

(** A node whose owner keeps up is never removed, and keeps its node info
    and its session, whatever everybody else does. *)
Theorem alive_node_is_kept evs s id e :
  svc_wf s → id ≠ "" → svc_abs s !! id = Some e →
  keeps_up id (NodeEntry.missed_heartbeats e) evs = true →
  ∃ e', svc_abs (run evs s) !! id = Some e'
        ∧ NodeEntry.info e' = NodeEntry.info e
        ∧ NodeEntry.session_id e' = NodeEntry.session_id e.
Proof.
  intros Hwf Hid. revert s e Hwf. induction evs as [|ev evs IH]; intros s e Hwf He Hk; simpl.
  { by exists e. }
  assert (svc_wf (step ev s)) as Hwf1 by by apply step_spec.
  pose proof (step_present ev s id e Hwf Hid He) as Hstep.
  destruct ev as [req rand now|req now|req|req| | |threshold|req rand now]; cbn [keeps_up] in Hk;
    simpl in Hk, Hstep.
  - by eapply (IH _ e).
  - destruct (String.eqb _ id); [|by eapply (IH _ e)].
    by destruct (IH _ _ Hwf1 Hstep Hk) as (e' & He' & Hi & Hs); exists e'.
  - destruct (String.eqb_spec (DeregisterRequest.node_id req) id) as [|Hne]; [done|].
    rewrite decide_False in Hstep by done. by eapply (IH _ e).
  - by eapply (IH _ e).
  - by eapply (IH _ e).
  - by destruct (IH _ _ Hwf1 Hstep Hk) as (e' & He' & Hi & Hs); exists e'.
  - apply andb_true_iff in Hk as [Hlt Hk]. apply Z.ltb_lt in Hlt.
    rewrite decide_False in Hstep by lia. by eapply (IH _ e).
  - by eapply (IH _ e).
Qed.

(** Every counter is below [k]. *)
Definition counters_below (k : Z) s : Prop :=
  ∀ id e, svc_abs s !! id = Some e → (NodeEntry.missed_heartbeats e < k)%Z.

Lemma client_counters k ev s :
  svc_wf s → (0 < k)%Z → is_checker ev = false →
  counters_below k s → counters_below k (step ev s).
Proof.
  intros Hwf Hk Hck Hb id e He. apply step_entry in He; [|done].
  destruct ev; try done.
  - destruct He as [He|(_ & _ & info & ->)]; [by eapply Hb|done].
  - destruct He as (e0 & He0 & ->). case_match; [done|by eapply Hb].
  - destruct He as [He _]. by eapply Hb.
  - by eapply Hb.
  - by eapply Hb.
  - destruct He as [He|(_ & _ & info & ->)]; [by eapply Hb|done].
Qed.

Lemma clients_counters k evs s :
  svc_wf s → (0 < k)%Z → Forall (λ ev, is_checker ev = false) evs →
  counters_below k s → counters_below k (run evs s).
Proof.
  intros Hwf Hk Hevs. revert s Hwf.
  induction Hevs as [|ev evs Hev _ IH]; intros s Hwf Hb; simpl; [done|].
  apply IH; [by apply step_spec|by apply client_counters].
Qed.

Lemma increment_counters k s :
  svc_wf s → in_u32 k → counters_below k s → counters_below (k + 1) (step EvIncrement s).
Proof.
  intros Hwf Hk Hb id e' He. apply step_entry in He as (e & He & ->); [|done].
  specialize (Hb id e He). rewrite (miss_exact e k);
    [lia|split; [by eapply entry_counter|done]|done].
Qed.

Definition client_round : list event * list event → Prop :=
  both (λ ev, is_checker ev = false).

Lemma round_counters threshold r s :
  svc_wf s → (0 < threshold)%Z → in_u32 threshold → client_round r →
  counters_below threshold s → counters_below threshold (run (round threshold r) s).
Proof.
  intros Hwf Hpos Hthr [Ha Hb] Hc id e He. rewrite run_round in He.
  apply step_entry in He as [_ He]; [done|]. apply run_wf, step_spec, run_wf. done.
Qed.

Lemma rounds_counters threshold rs s :
  svc_wf s → (0 < threshold)%Z → in_u32 threshold → Forall client_round rs →
  counters_below threshold s → counters_below threshold (run (rounds threshold rs) s).
Proof.
  intros Hwf Hpos Hthr Hrs. revert s Hwf.
  induction Hrs as [|r rs Hr _ IH]; intros s Hwf Hc; [done|].
  rewrite rounds_cons, run_app. apply IH; [by apply run_wf|by apply round_counters].
Qed.

(** The counters never overflow.  In a registry started empty and ticked by
    its checker, at every moment between two ticks all counters are below the
    threshold, and between the two calls of a tick they are at most the
    threshold: the [uint32_t] increment never wraps. *)
Theorem counters_never_wrap threshold max_nodes rs a b :
  in_u32 max_nodes → (0 < threshold)%Z → in_u32 threshold →
  Forall client_round rs →
  Forall (λ ev, is_checker ev = false) a → Forall (λ ev, is_checker ev = false) b →
  let s := run (rounds threshold rs ++ a) (RegistryServiceImpl max_nodes) in
  counters_below threshold s
  ∧ counters_below (threshold + 1) (run (EvIncrement :: b) s)
  ∧ (∀ id e, svc_abs s !! id = Some e →
       NodeEntry.missed_heartbeats (NodeEntry.miss e)
       = (NodeEntry.missed_heartbeats e + 1)%Z).
Proof.
  intros Hmax Hpos Hthr Hrs Ha Hb s.
  destruct (new_directory_spec (T := T) max_nodes Hmax) as (Hwf0 & Habs0 & _).
  set (s0 := RegistryServiceImpl max_nodes) in *.
  assert (svc_wf s0) as Hwf by done.
  assert (counters_below threshold s0) as Hs0.
  { intros id e He. unfold svc_abs in He. simpl in He. by rewrite Habs0 in He. }
  assert (counters_below threshold s) as Hs.
  { unfold s. rewrite run_app. apply clients_counters; [by apply run_wf|done|done|].
    by apply rounds_counters. }
  assert (svc_wf s) as Hwfs by by apply run_wf.
  split_and!; [done| |].
  - change (run (EvIncrement :: b) s) with (run b (step EvIncrement s)).
    apply clients_counters; [by apply step_spec|lia|done|].
    by apply increment_counters.
  - intros id e He. apply (miss_exact e threshold); [|done].
    split; [by eapply entry_counter|by eapply Hs].
Qed.

(** ** Sessions *)

Definition good_rand (ev : event) : Prop :=
  match ev with EvRegister _ rand _ | EvAdmitted _ rand _ => (0 ≤ rand)%Z | _ => True end.

Lemma session_of_entry evs s id e :
  svc_wf s → svc_abs s = ∅ → Forall good_rand evs →
  svc_abs (run evs s) !! id = Some e →
  ∃ rand, (0 ≤ rand)%Z ∧ NodeEntry.session_id e = make_session_id id rand.
Proof.
  intros Hwf Hempty. revert e. induction evs as [|ev evs IH] using rev_ind; intros e Hr He.
  { simpl in He. by rewrite Hempty in He. }
  apply Forall_app in Hr as [Hr Hev]. rewrite Forall_singleton in Hev.
  rewrite run_app in He. apply step_entry in He; [|by apply run_wf].
  destruct ev as [req rand now|req now|req|req| | |threshold|req rand now].
  - destruct He as [He|(_ & _ & info & ->)]; [by apply IH|]. by exists rand.
  - destruct He as (e0 & He0 & ->). destruct (IH e0 Hr He0) as (rand & ? & ?).
    exists rand. by case_match.
  - destruct He as [He _]. by apply IH.
  - by apply IH.
  - by apply IH.
  - destruct He as (e0 & He0 & ->). by destruct (IH e0 Hr He0) as (rand & ? & ?); exists rand.
  - destruct He as [He _]. by apply IH.
  - destruct He as [He|(_ & _ & info & ->)]; [by apply IH|]. by exists rand.
Qed.

(** Session ids identify nodes: in any history of a new registry, two
    registered nodes never hold the same session id, whatever [std::rand()]
    returned for them. *)
Theorem sessions_identify_nodes max_nodes evs id1 id2 e1 e2 :
  in_u32 max_nodes → Forall good_rand evs →
  let s := run evs (RegistryServiceImpl max_nodes) in
  svc_abs s !! id1 = Some e1 → svc_abs s !! id2 = Some e2 →
  id1 ≠ id2 → NodeEntry.session_id e1 ≠ NodeEntry.session_id e2.
Proof.
  intros Hmax Hr s He1 He2 Hne Heq.
  destruct (new_directory_spec (T := T) max_nodes Hmax) as (Hwf0 & Habs0 & _).
  destruct (session_of_entry evs (RegistryServiceImpl max_nodes) id1 e1) as (r1 & ? & Hs1);
    [done..|].
  destruct (session_of_entry evs (RegistryServiceImpl max_nodes) id2 e2) as (r2 & ? & Hs2);
    [done..|].
  rewrite Hs1, Hs2 in Heq. by apply make_session_id_inj in Heq as [? _].
Qed.

(** The ids of the registrations that were in flight when the registry was shut
    down. *)
Definition in_flight (evs : list event) : gset string :=
  list_to_set (omap (λ ev, match ev with
                           | EvAdmitted req _ _ => NodeInfo.node_id <$> RegisterRequest.node_info req
                           | _ => None
                           end) evs).

(** A registry that is shutting down only loses nodes: from the call of
    [Shutdown] on, no event adds a node id, but for the registrations that had
    seen the flag before. *)
Lemma shutdown_only_loses_nodes evs s :
  svc_wf s → is_running s = false →
  dom (svc_abs (run evs s)) ⊆ dom (svc_abs s) ∪ in_flight evs.
Proof.
  intros Hwf Hrun id Hid. apply elem_of_dom in Hid.
  rewrite elem_of_union, elem_of_dom. destruct (svc_abs s !! id) as [e|] eqn:Hnone; [by left|right].
  revert s Hwf Hrun Hid Hnone. induction evs as [|ev evs IH]; intros s Hwf Hrun Hin Hnone.
  { simpl in Hin. rewrite Hnone in Hin. by destruct Hin. }
  destruct (step_spec ev s Hwf) as (Hwf1 & _ & Hrun1 & _).
  assert (is_running (step ev s) = false) as Hrun'.
  { unfold is_running in *. rewrite Hrun1, Hrun. by destruct ev. }
  destruct (svc_abs (step ev s) !! id) as [e'|] eqn:He'.
  - pose proof He' as Hev. apply step_entry in Hev; [|done]. rewrite Hnone in Hev.
    destruct ev as [req rand now|req now|req|req| | |thr|req rand now]; try done;
      try by decompose_hyps.
    + unfold is_running in Hrun.
      destruct (step_spec (EvRegister req rand now) s Hwf) as (_ & _ & _ & Habs).
      rewrite Habs, Hrun in He'. simpl in He'. congruence.
    + destruct Hev as [Hev|(Hreg & _)]; [done|]. simpl in Hreg. unfold in_flight. simpl.
      destruct (RegisterRequest.node_info req) as [info|]; [|done]. simpl.
      apply String.eqb_eq in Hreg. set_solver.
  - specialize (IH (step ev s) Hwf1 Hrun' Hin He'). unfold in_flight in *. simpl.
    destruct ev; try done. destruct (RegisterRequest.node_info req); [simpl|done]. set_solver.
Qed.

End claims.

(** ** The checker's loop produces the rounds *)

Section loop.
  Context {T : Type} `{NodeDirectoryLaws T} `{G : GrpcStatus}.
  Import HealthChecker.

Definition no_shutdown (ev : event) : bool :=
  match ev with EvShutdown => false | _ => true end.

Lemma run_keeps_running evs (s : RegistryService.t T) :
  svc_wf s → Forall (λ ev, no_shutdown ev = true) evs →
  RegistryService.is_running_ (run evs s) = RegistryService.is_running_ s.
Proof.
  intros Hwf Hevs. revert s Hwf.
  induction Hevs as [|ev evs Hev _ IH]; intros s Hwf; simpl; [done|].
  destruct (step_spec ev s Hwf) as (? & _ & Hr & _). rewrite IH, Hr by done.
  by destruct ev.
Qed.

(** An iteration during which the other threads run the events of a round. *)
Definition disturbed (running : bool) (r : list event * list event) : iteration T :=
  Build_iteration false
    (λ tb, node_table_ (run r.1 (RegistryService.mk tb running))) false
    (λ tb, node_table_ (run r.2 (RegistryService.mk tb running))) id.

Lemma table_eta (s : RegistryService.t T) running :
  RegistryService.is_running_ s = running →
  s = RegistryService.mk (node_table_ s) running.
Proof. destruct s. by intros <-. Qed.

Lemma body_is_round h running r (tb : T) :
  dir_wf tb → both (λ ev, no_shutdown ev = true) r →
  ∃ eff, body h (disturbed running r) tb =
    (eff, node_table_ (run (round (max_missed_heartbeats_ h) r)
                         (RegistryService.mk tb running)), false).
Proof.
  intros Hwf [Ha Hb]. set (s0 := RegistryService.mk tb running).
  assert (svc_wf s0) as Hs0 by done.
  unfold body. simpl. fold s0. rewrite run_round.
  rewrite (table_eta (run r.1 s0) running) by by rewrite run_keeps_running.
  cbn [step node_table_ set_table RegistryService.is_running_].
  destruct (remove_stale_nodes _ _) as [removed tb2]. by eexists.
Qed.

(** A loop of disturbed iterations runs the rounds. *)
Lemma run_loop_rounds h running rs (tb : T) :
  dir_wf tb → Forall (both (λ ev, no_shutdown ev = true)) rs →
  let '(_, tb', exited) := run_loop h (disturbed running <$> rs) tb in
  tb' = node_table_ (run (rounds (max_missed_heartbeats_ h) rs)
                       (RegistryService.mk tb running))
  ∧ exited = false.
Proof.
  intros Hwf Hrs. revert tb Hwf. induction Hrs as [|r rs Hr _ IH]; intros tb Hwf; [done|].
  cbn [fmap list_fmap run_loop]. simpl (stop_at_head _).
  destruct (body_is_round h running r tb Hwf Hr) as [eff Hbody]. rewrite Hbody.
  rewrite rounds_cons, run_app. set (s0 := RegistryService.mk tb running) in *.
  assert (svc_wf (run (round (max_missed_heartbeats_ h) r) s0)) as Hwf1 by by apply run_wf.
  specialize (IH _ Hwf1). rewrite <-table_eta in IH.
  - change (list_fmap _ _ (disturbed running) rs) with (disturbed running <$> rs).
    by destruct (run_loop h (disturbed running <$> rs) _) as [[eff' tb'] exited].
  - rewrite run_keeps_running; [done..|]. destruct Hr as [Ha Hb]. unfold round.
    rewrite !Forall_app. split_and!; [done|by repeat constructor|done|by repeat constructor].
Qed.

(** The health checker's thread and the RPC threads together run exactly
    the histories studied above: a loop whose iterations are disturbed by the
    client events of each round leaves the table that the event history of the
    rounds leaves, and is still running. *)
Theorem checker_loop_runs_rounds h running rs (tb : T) :
  dir_wf tb → Forall (both (λ ev, no_shutdown ev = true)) rs →
  let '(_, tb', exited) := run_loop h (disturbed running <$> rs) tb in
  tb' = node_table_ (run (rounds (max_missed_heartbeats_ h) rs)
                       (RegistryService.mk tb running))
  ∧ exited = false.
Proof. apply run_loop_rounds. Qed.

End loop.

(** * Examples *)

#[local] Instance sample_order : HashOrder NodeEntry.t := front_order _.
#[local] Instance sample_status : GrpcStatus := concrete_status.

Definition ev_register (id : string) : event := EvRegister (sample_register id) 42 7.
Definition ev_heartbeat (id : string) (now : Z) : event := EvHeartbeat (sample_heartbeat id) now.
Definition ev_deregister (id : string) : event := EvDeregister (DeregisterRequest.mk id "" "").

(** [lidar_01] registered, [camera_01] beating. *)
Definition sample_history : list event :=
  [ev_register "lidar_01"; ev_register "camera_01"; EvIncrement;
   ev_heartbeat "camera_01" 9; EvRemoveStale 3; EvIncrement; EvRemoveStale 3].

Lemma missed_heartbeats_counts_ticks_witness :
  let s := run sample_history (sample_service 5) in
  (∃ e, svc_abs s !! "camera_01" = Some e
        ∧ NodeEntry.missed_heartbeats e = 1%Z ∧ NodeEntry.last_heartbeat e = 9%Z
        ∧ refreshed_by "camera_01" sample_history e).
Proof.
  intros s. destruct (svc_abs s !! "camera_01") as [e|] eqn:He; [|by vm_compute in He].
  exists e. split; [done|]. split; [by vm_compute in He; injection He as <-|].
  split; [by vm_compute in He; injection He as <-|].
  apply (missed_heartbeats_counts_ticks sample_history (sample_service 5));
    [apply sample_service_wf; unfold in_u32; lia|done|by vm_compute|exact He].
Defined.

Definition beating_round (id : string) : list event * list event :=
  ([ev_heartbeat id 9], [EvDiscover (DiscoverRequest.mk [])]).

Lemma sample_below id e :
  svc_abs sample_registered !! id = Some e → (NodeEntry.missed_heartbeats e < 3)%Z.
Proof.
  replace (svc_abs sample_registered)
    with ({[ "lidar_01" := NodeEntry.fresh (sample_info "lidar_01" ["lidar"])
                             "lidar_01_42" 7 ]} : Directory.t) by by vm_compute.
  rewrite lookup_singleton_Some. by intros [_ <-].
Qed.

Lemma discover_finds_live_nodes_witness :
  let s := run sample_history (sample_service 5) in
  DiscoverResponse.nodes (Discover (DiscoverRequest.mk []) DiscoverResponse.empty
    (run (sample_history ++ [ev_heartbeat "camera_01" 11]) (sample_service 5))).1.2
  = [sample_info "camera_01" ["lidar"]]
  ∧ refreshed_since_tick "camera_01" (sample_history ++ [ev_heartbeat "camera_01" 11])
      (sample_service 5).
Proof.
  pose proof (discover_finds_live_nodes (sample_history ++ [ev_heartbeat "camera_01" 11]) 5
    (DiscoverRequest.mk []) (sample_info "camera_01" ["lidar"])) as [Hfound _];
    [by split|by vm_compute|].
  split; [by vm_compute|]. apply Hfound.
  apply (bool_decide_unpack _). by vm_compute.
Defined.

Lemma silent_node_removed_witness :
  svc_abs (run (rounds 3 (replicate 3 (beating_round "camera_01"))) sample_registered)
    !! "lidar_01" = None.
Proof.
  apply silent_node_removed.
  - apply sample_registered_wf.
  - unfold in_u32; lia.
  - by vm_compute.
  - apply sample_below.
  - repeat constructor.
Defined.

Lemma alive_node_is_kept_witness :
  ∃ e, svc_abs (run (rounds 2 (replicate 4 (beating_round "lidar_01"))) sample_registered)
         !! "lidar_01" = Some e
       ∧ NodeEntry.session_id e = "lidar_01_42".
Proof.
  destruct (alive_node_is_kept (rounds 2 (replicate 4 (beating_round "lidar_01")))
              sample_registered "lidar_01"
              (NodeEntry.fresh (sample_info "lidar_01" ["lidar"]) "lidar_01_42" 7))
    as (e & He & _ & Hs).
  - apply sample_registered_wf.
  - done.
  - by vm_compute.
  - by vm_compute.
  - by exists e.
Defined.

Lemma counters_never_wrap_witness :
  counters_below 3
    (run (rounds 3 [([ev_register "lidar_01"], []); ([], [])] ++ [ev_heartbeat "lidar_01" 8])
       (sample_service 5)).
Proof.
  apply (counters_never_wrap 3 5 [([ev_register "lidar_01"], []); ([], [])]
           [ev_heartbeat "lidar_01" 8] []); try (unfold in_u32; lia); repeat constructor.
Defined.

Lemma sessions_identify_nodes_witness :
  match svc_abs (run sample_history (sample_service 5)) !! "lidar_01",
        svc_abs (run sample_history (sample_service 5)) !! "camera_01" with
  | Some e1, Some e2 => NodeEntry.session_id e1 ≠ NodeEntry.session_id e2
  | _, _ => False
  end.
Proof.
  destruct (svc_abs _ !! "lidar_01") as [e1|] eqn:He1; [|by vm_compute in He1].
  destruct (svc_abs _ !! "camera_01") as [e2|] eqn:He2; [|by vm_compute in He2].
  apply (sessions_identify_nodes 5 sample_history "lidar_01" "camera_01" e1 e2);
    [unfold in_u32; lia|by repeat constructor|exact He1|exact He2|done].
Defined.

Lemma checker_loop_runs_rounds_witness :
  (HealthChecker.run_loop (HealthChecker.HealthChecker 1000 3)
     (disturbed true <$> replicate 3 (beating_round "camera_01"))
     (node_table_ sample_registered)).1.2
  = node_table_ (run (rounds 3 (replicate 3 (beating_round "camera_01"))) sample_registered).
Proof.
  pose proof (checker_loop_runs_rounds (HealthChecker.HealthChecker 1000 3) true
                (replicate 3 (beating_round "camera_01"))
                (node_table_ sample_registered)) as Hloop.
  destruct (HealthChecker.run_loop _ _ _) as [[eff tb] exited].
  destruct Hloop as [Htb _]; [apply sample_registered_wf|by repeat constructor|].
  exact Htb.
Defined.
