(* ===== verification/TimedSystem.v ===== *)
(** * The registry process in real time

    RegistrySystem orders the calls on the table but knows no clock.  Here every
    event carries the time at which it happens, and the checker's loop
    (src/registry/health_checker.cpp, [run_loop]) is what spaces its calls: an
    increment comes no sooner than the check interval after the sleep began, the
    removal follows the increment, and the next sleep begins after the removal.
    [tstep] refuses a history in which the checker would have to be faster than
    [sleep_for]; [prompt] adds that it is never late by more than [delta].  A
    history that [tstep] accepts is one of the checker's own loop
    ([timed_history_is_loop]).

    The theorems turn the counters' promises into times: how long a node may be
    silent before it is dropped, how long it may be silent and still be listed,
    and how punctual its heartbeats must be for it to stay. *)

From Stdlib Require Import ZArith Lia.
From stdpp Require Import prelude gmap strings list.
From S2P Require Import Prelude UnorderedMap Messages Grpc NodeDir Table Registry Health RegistrySystem.

Import RegistryService.

(** Where the checker's thread is: in [sleep_for] since some time, or between its
    two calls on the table, of which the first was made at some time. *)
Inductive phase := Asleep (u : Z) | Sweeping (u : Z).

Definition since (p : phase) : Z := match p with Asleep u | Sweeping u => u end.

Section timed.
  Context {T : Type} `{NodeDirectoryLaws T} `{G : GrpcStatus}.

Record config := mk_config {
  clock : Z;                  (* the time of the last event *)
  checker : phase;
  service : RegistryService.t T;
}.

(** The process when its checker starts. *)
Definition boot (max_nodes t0 : Z) : config :=
  mk_config t0 (Asleep t0) (RegistryServiceImpl max_nodes).

Definition interval (h : HealthChecker.t) : Z := HealthChecker.check_interval_ms_ h.
Definition patience (h : HealthChecker.t) : Z := HealthChecker.max_missed_heartbeats_ h.

(** An event at a time; [None] when the checker cannot make that call then. *)
Definition tstep (h : HealthChecker.t) (tev : Z * event) (c : config) : option config :=
  let '(t, ev) := tev in
  if (t <? clock c)%Z then None
  else
    let go p := Some (mk_config t p (step ev (service c))) in
    match ev, checker c with
    | EvIncrement, Asleep u => if (u + interval h <=? t)%Z then go (Sweeping t) else None
    | EvIncrement, Sweeping _ => None
    | EvRemoveStale k, Sweeping _ => if (k =? patience h)%Z then go (Asleep t) else None
    | EvRemoveStale _, Asleep _ => None
    | _, p => go p
    end.

Fixpoint trun (h : HealthChecker.t) (tevs : list (Z * event)) (c : config) : option config :=
  match tevs with
  | [] => Some c
  | tev :: tevs => c' ← tstep h tev c; trun h tevs c'
  end.

(** When the checker's next call is due, if it is at most [delta] late. *)
Definition due (h : HealthChecker.t) (delta : Z) (p : phase) : Z :=
  match p with
  | Asleep u => u + interval h + delta
  | Sweeping u => u + delta
  end%Z.

(** No event, of whatever thread, finds the checker overdue. *)
Fixpoint prompt (h : HealthChecker.t) (delta : Z) (tevs : list (Z * event)) (c : config) : bool :=
  match tevs with
  | [] => true
  | tev :: tevs =>
      (tev.1 <=? due h delta (checker c))%Z
      && match tstep h tev c with Some c' => prompt h delta tevs c' | None => true end
  end.

(** ** When a node was last heard of *)

Definition present (id : string) (s : RegistryService.t T) : bool :=
  match svc_abs s !! id with Some _ => true | None => false end.

(** Whether an event refreshes the entry of [id]: a heartbeat of a registered
    node, or its registration. *)
Definition refreshing (id : string) (ev : event) (s : RegistryService.t T) : bool :=
  (heartbeat_of id ev && present id s)
  || (register_of id ev && negb (present id s) && present id (step ev s)).

(** The time of the last refresh in a history, [r] when it has none. *)
Fixpoint last_refresh (id : string) (r : option Z) (tevs : list (Z * event))
    (s : RegistryService.t T) : option Z :=
  match tevs with
  | [] => r
  | (t, ev) :: tevs =>
      last_refresh id (if refreshing id ev s then Some t else r) tevs (step ev s)
  end.

(** The times of the heartbeats of [id]. *)
Definition beat_times (id : string) (tevs : list (Z * event)) : list Z :=
  omap (λ tev, if heartbeat_of id tev.2 then Some tev.1 else None) tevs.

(** Each time is at most [D] after the one before, the first after [r]. *)
Fixpoint spaced (D r : Z) (ts : list Z) : Prop :=
  match ts with
  | [] => True
  | t :: ts => (t ≤ r + D)%Z ∧ spaced D t ts
  end.

#[local] Arguments tstep : simpl never.
#[local] Arguments beat_times : simpl never.

(** At most [m] failures in a row, [j] of them before the first of the list. *)
Fixpoint streak_ok {A} (ok : A → bool) (m j : Z) (l : list A) : Prop :=
  match l with
  | [] => True
  | a :: l => if ok a then streak_ok ok m 0 l else (j + 1 ≤ m)%Z ∧ streak_ok ok m (j + 1) l
  end.

(** ** Steps *)

Lemma tstep_inv h t ev c c' :
  tstep h (t, ev) c = Some c' →
  (clock c ≤ t)%Z ∧ clock c' = t ∧ service c' = step ev (service c)
  ∧ match ev with
    | EvIncrement => ∃ u, checker c = Asleep u ∧ (u + interval h ≤ t)%Z ∧ checker c' = Sweeping t
    | EvRemoveStale k => k = patience h ∧ ∃ u, checker c = Sweeping u ∧ checker c' = Asleep t
    | _ => checker c' = checker c
    end.
Proof.
  unfold tstep. destruct (Z.ltb_spec t (clock c)); [done|]. intros Hs.
  destruct ev as [| | | | | |k|], (checker c) as [u|u] eqn:Hp; simplify_eq/=; try (by split_and!).
  - destruct (Z.leb_spec (u + interval h) t); simplify_eq/=. split_and!; try done. by exists u.
  - destruct (Z.eqb_spec k (patience h)); simplify_eq/=. split_and!; try done. by exists u.
Qed.

Lemma trun_app h tevs1 tevs2 c :
  trun h (tevs1 ++ tevs2) c = c' ← trun h tevs1 c; trun h tevs2 c'.
Proof.
  revert c. induction tevs1 as [|tev tevs1 IH]; intros c; [done|]. simpl.
  destruct (tstep h tev c) as [c1|]; [apply IH|done].
Qed.

Lemma trun_clock h tevs c c' : trun h tevs c = Some c' → (clock c ≤ clock c')%Z.
Proof.
  revert c. induction tevs as [|[t ev] tevs IH]; intros c Hr; simplify_eq/=; [lia|].
  destruct (tstep h (t, ev) c) as [c1|] eqn:Hs; simplify_eq/=.
  apply tstep_inv in Hs as (? & ? & _). apply IH in Hr. lia.
Qed.

Lemma trun_service h tevs c c' : trun h tevs c = Some c' → service c' = run tevs.*2 (service c).
Proof.
  revert c. induction tevs as [|[t ev] tevs IH]; intros c Hr; simplify_eq/=; [done|].
  destruct (tstep h (t, ev) c) as [c1|] eqn:Hs; simplify_eq/=.
  apply tstep_inv in Hs as (_ & _ & Hsv & _). apply IH in Hr. by rewrite Hr, Hsv.
Qed.

Lemma last_refresh_app id r tevs1 tevs2 s :
  last_refresh id r (tevs1 ++ tevs2) s
  = last_refresh id (last_refresh id r tevs1 s) tevs2 (run tevs1.*2 s).
Proof.
  revert r s. induction tevs1 as [|[t ev] tevs1 IH]; intros r s; [done|]. simpl. apply IH.
Qed.

Lemma present_true id s e : svc_abs s !! id = Some e → present id s = true.
Proof. unfold present. by intros ->. Qed.

Lemma present_false id s : svc_abs s !! id = None → present id s = false.
Proof. unfold present. by intros ->. Qed.

(** What becomes of one node's entry in a step that leaves it there: it is
    refreshed, counted, or as before. *)
Lemma step_refresh ev s id e' :
  svc_wf s → id ≠ "" → svc_abs (step ev s) !! id = Some e' →
  if refreshing id ev s then NodeEntry.missed_heartbeats e' = 0%Z ∧ is_checker ev = false
  else ∃ e, svc_abs s !! id = Some e
    ∧ match ev with
      | EvIncrement => e' = NodeEntry.miss e
      | EvRemoveStale k => e' = e ∧ (NodeEntry.missed_heartbeats e < k)%Z
      | _ => e' = e
      end.
Proof.
  intros Hwf Hid He'. pose proof He' as He. apply step_entry in He; [|done].
  unfold refreshing. rewrite (present_true id (step ev s) e') by done.
  destruct ev as [req rand now|req now|req|req| | |thr|req rand now]; simpl heartbeat_of in *;
    rewrite ?andb_false_l, ?andb_true_r, ?orb_false_l in *.
  - destruct He as [He|(Hreg & Hno & info & ->)].
    + rewrite (present_true _ _ _ He), andb_false_r. by exists e'.
    + by rewrite (present_false _ _ Hno), Hreg.
  - destruct He as (e & He & ->). rewrite (present_true _ _ _ He). simpl in *.
    apply String.eqb_neq in Hid. rewrite Hid. destruct (String.eqb _ id); simpl; [done|].
    by exists e.
  - simpl. exists e'. by destruct He.
  - simpl. by exists e'.
  - simpl. by exists e'.
  - simpl. done.
  - simpl. destruct He. by exists e'.
  - destruct He as [He|(Hreg & Hno & info & ->)].
    + rewrite (present_true _ _ _ He), andb_false_r. by exists e'.
    + by rewrite (present_false _ _ Hno), Hreg.
Qed.

Lemma tstep_clock h t ev c c' : tstep h (t, ev) c = Some c' → (clock c ≤ t)%Z ∧ clock c' = t.
Proof. by intros (? & ? & _)%tstep_inv. Qed.

End timed.

#[global] Arguments tstep : simpl never.
#[local] Arguments step : simpl never.
#[global] Arguments beat_times : simpl never.
Arguments config : clear implicits.

(** ** What a counter says about the time since the last refresh *)

Section ages.
  Context {T : Type} `{NodeDirectoryLaws T} `{G : GrpcStatus}.
  Context (h : HealthChecker.t).
  Implicit Types c : config T.

(** At least [k - 1] intervals lie between the refresh at [r] and the last of the
    [k] ticks that the counter has seen. *)
Definition not_early (r k : Z) c : Prop :=
  (r ≤ clock c ∧ since (checker c) ≤ clock c)%Z
  ∧ (k = 0 ∨ r + (k - 1) * interval h ≤ since (checker c))%Z.

(** At most [k] cycles lie between the refresh and the last call of the checker,
    a cycle being the interval and the lateness of both calls. *)
Definition cycle (delta : Z) : Z := (interval h + 2 * delta)%Z.

Definition not_late (delta r k : Z) c : Prop :=
  match checker c with
  | Asleep u => (k < patience h ∧ u ≤ r + k * cycle delta + delta)%Z
  | Sweeping u => (k ≤ patience h ∧ u ≤ r + k * cycle delta)%Z
  end.

(** An entry that is in the table was refreshed at the time given. *)
Definition tracks (P : Z → Z → config T → Prop) (id : string) (r : option Z) c : Prop :=
  svc_wf (service c) ∧ (since (checker c) ≤ clock c)%Z
  ∧ ∀ e, svc_abs (service c) !! id = Some e →
      ∃ r0, r = Some r0 ∧ P r0 (NodeEntry.missed_heartbeats e) c.

(** How a tracked property is kept: by a refresh, by a tick, by a removal that
    spares the entry, and by what does not touch it. *)
Lemma tracks_step (P : Z → Z → config T → Prop) id r c c' t ev :
  id ≠ "" → tracks P id r c → tstep h (t, ev) c = Some c' →
  (is_checker ev = false → (since (checker c') ≤ t)%Z → P t 0%Z c') →
  (∀ r0 k, P r0 k c →
     match ev with
     | EvIncrement => in_u32 k → P r0 (wrap_u32 (k + 1)) c'
     | EvRemoveStale _ => (k < patience h)%Z → P r0 k c'
     | _ => P r0 k c'
     end) →
  tracks P id (if refreshing id ev (service c) then Some t else r) c'.
Proof.
  intros Hid (Hwf & Hle & Htr) Hstep Hnew Hold.
  apply tstep_inv in Hstep as (Ht & Ht' & Hsv & Hck).
  assert (since (checker c') ≤ clock c')%Z as Hle'.
  { destruct ev; decompose_hyps; rewrite ?Hck; try lia;
      match goal with E : checker ?x = _ |- (since (checker ?x) ≤ _)%Z => rewrite E end;
      simpl; lia. }
  split_and!; [rewrite Hsv; by apply step_spec|done|]. rewrite Hsv. intros e' He'.
  pose proof (step_refresh ev (service c) id e' Hwf Hid He') as Hr.
  destruct (refreshing id ev (service c)).
  - destruct Hr as [-> Hev]. exists t. split; [done|]. apply Hnew; [done|lia].
  - destruct Hr as (e & He & Hcase). destruct (Htr e He) as (r0 & -> & HP). exists r0.
    split; [done|]. specialize (Hold _ _ HP).
    destruct (dir_wf_entry _ _ _ Hwf He) as [_ Hu32].
    destruct ev as [| | | | | |k|]; simplify_eq/=; try done; [by apply Hold|].
    destruct Hck as [-> _], Hcase as [-> Hlt]. by apply Hold.
Qed.

Lemma not_early_step id r c c' t ev :
  (0 ≤ interval h)%Z → id ≠ "" →
  tracks not_early id r c → tstep h (t, ev) c = Some c' →
  tracks not_early id (if refreshing id ev (service c) then Some t else r) c'.
Proof.
  intros Hint Hid Htr Hstep. eapply tracks_step; try done;
    apply tstep_inv in Hstep as (Ht & Ht' & _ & Hck).
  - intros Hev Hle. split; [lia|by left].
  - intros r0 k [[Hr Hs] Hk]. unfold not_early.
    destruct ev as [req rand now|req now|req|req| | |thr|req rand now];
      try (rewrite Hck; split; [lia|destruct Hk; [by left|right; lia]]).
    + destruct Hck as (u & Hu & Hdue & ->). rewrite Hu in Hk. simpl in *. intros Hk32.
      split; [lia|]. right.
      assert (wrap_u32 (k + 1) ≤ k + 1)%Z.
      { unfold wrap_u32, in_u32 in *. apply Z.mod_le; lia. }
      destruct Hk as [->|Hk]; [rewrite wrap_u32_small by (by unfold in_u32); lia|].
      assert ((wrap_u32 (k + 1) - 1) * interval h ≤ k * interval h)%Z; [|lia].
      apply Z.mul_le_mono_nonneg_r; lia.
    + destruct Hck as (_ & u & Hu & ->). rewrite Hu in Hs, Hk. simpl in *. intros _.
      split; [lia|]. destruct Hk; [by left|right; lia].
Qed.

Lemma not_late_step delta id r c c' t ev :
  (0 ≤ interval h)%Z → (0 ≤ delta)%Z → (0 < patience h)%Z → in_u32 (patience h) → id ≠ "" →
  (t ≤ due h delta (checker c))%Z →
  tracks (not_late delta) id r c → tstep h (t, ev) c = Some c' →
  tracks (not_late delta) id (if refreshing id ev (service c) then Some t else r) c'.
Proof.
  intros Hint Hdelta Hpos Hthr Hid Hdue Htr Hstep. eapply tracks_step; try done;
    apply tstep_inv in Hstep as (Ht & Ht' & _ & Hck).
  - intros Hev Hle. unfold not_late. destruct (checker c'); simpl in *; lia.
  - intros r0 k Hk. unfold not_late in *.
    destruct ev as [req rand now|req now|req|req| | |thr|req rand now];
      try by rewrite Hck.
    + destruct Hck as (u & Hu & _ & ->). rewrite Hu in Hk, Hdue. simpl in Hdue. intros Hk32.
      rewrite wrap_u32_small by (unfold in_u32 in *; lia). unfold cycle in *. lia.
    + destruct Hck as (_ & u & Hu & ->). rewrite Hu in Hk, Hdue. simpl in Hdue. intros Hlt. lia.
Qed.

Lemma tracks_run (P : Z → Z → config T → Prop) id tevs r c c' :
  (∀ r c c' t ev, tracks P id r c → tstep h (t, ev) c = Some c' →
     tracks P id (if refreshing id ev (service c) then Some t else r) c') →
  tracks P id r c → trun h tevs c = Some c' →
  tracks P id (last_refresh id r tevs (service c)) c'.
Proof.
  intros Hs. revert r c. induction tevs as [|[t ev] tevs IH]; intros r c Htr Hrun; simplify_eq/=;
    [done|].
  destruct (tstep h (t, ev) c) as [c1|] eqn:Hstep; simplify_eq/=.
  pose proof (tstep_inv _ _ _ _ _ Hstep) as (_ & _ & Hsv & _). rewrite <-Hsv.
  apply IH; [|done]. by eapply Hs.
Qed.

(** Under the checker's promptness too. *)
Lemma not_late_run delta id tevs r c c' :
  (0 ≤ interval h)%Z → (0 ≤ delta)%Z → (0 < patience h)%Z → in_u32 (patience h) → id ≠ "" →
  prompt h delta tevs c = true →
  tracks (not_late delta) id r c → trun h tevs c = Some c' →
  tracks (not_late delta) id (last_refresh id r tevs (service c)) c'.
Proof.
  intros Hint Hdelta Hpos Hthr Hid. revert r c.
  induction tevs as [|[t ev] tevs IH]; intros r c Hpr Htr Hrun; simplify_eq/=; [done|].
  apply andb_true_iff in Hpr as [Hdue%Z.leb_le Hpr].
  destruct (tstep h (t, ev) c) as [c1|] eqn:Hstep; simplify_eq/=.
  pose proof (tstep_inv _ _ _ _ _ Hstep) as (_ & _ & Hsv & _). rewrite <-Hsv.
  apply IH; [done| |done]. by eapply not_late_step.
Qed.

Lemma boot_tracks P id max_nodes t0 : in_u32 max_nodes → tracks P id None (boot max_nodes t0).
Proof.
  intros Hmax. destruct (new_directory_spec (T := T) max_nodes Hmax) as (Hwf & Hd & _).
  split_and!; [done|done|]. intros e He. unfold svc_abs in He. simpl in He.
  by rewrite Hd in He.
Qed.

End ages.

(** * Properties *)

Section claims.
  Context {T : Type} `{NodeDirectoryLaws T} `{G : GrpcStatus}.
  Context (h : HealthChecker.t).
  Implicit Types c : config T.

(** The table of a registry started empty. *)
Lemma booted max_nodes t0 tevs c :
  in_u32 max_nodes → trun h tevs (boot max_nodes t0) = Some c →
  svc_wf (service c) ∧ svc_abs (service c) !! "" = None.
Proof.
  intros Hmax Hrun. rewrite (trun_service h tevs _ c Hrun).
  destruct (new_directory_spec (T := T) max_nodes Hmax) as (Hwf & Hd & _).
  split; [by apply run_wf|]. apply run_no_empty; [done|]. unfold svc_abs. simpl. by rewrite Hd.
Qed.

Lemma booted_id max_nodes t0 tevs c id e :
  in_u32 max_nodes → trun h tevs (boot max_nodes t0) = Some c →
  svc_abs (service c) !! id = Some e → id ≠ "".
Proof.
  intros Hmax Hrun He ->. destruct (booted _ _ _ _ Hmax Hrun) as [_ Hnone]. congruence.
Qed.

Lemma booted_not_early max_nodes t0 tevs c id :
  in_u32 max_nodes → (0 ≤ interval h)%Z → id ≠ "" →
  trun h tevs (boot max_nodes t0) = Some c →
  tracks (not_early h) id (last_refresh id None tevs (service (boot max_nodes t0))) c.
Proof.
  intros Hmax Hint Hid Hrun. eapply tracks_run; [|by apply boot_tracks|exact Hrun].
  intros. by eapply not_early_step.
Qed.

(** C24: nobody is dropped early.  In any history of a registry since it was started,
    however the threads are scheduled, a node that the checker removes was last
    refreshed at least threshold minus one intervals before. *)
Theorem removals_never_early max_nodes t0 tevs id e t k c c' :
  in_u32 max_nodes → (0 ≤ interval h)%Z → (0 < patience h)%Z →
  trun h tevs (boot max_nodes t0) = Some c →
  tstep h (t, EvRemoveStale k) c = Some c' →
  svc_abs (service c) !! id = Some e → svc_abs (service c') !! id = None →
  ∃ r, last_refresh id None tevs (service (boot max_nodes t0)) = Some r
       ∧ (r + (patience h - 1) * interval h ≤ t)%Z.
Proof.
  intros Hmax Hint Hpos Hrun Hstep He Hgone.
  pose proof (booted_id _ _ _ _ _ _ Hmax Hrun He) as Hid.
  destruct (booted_not_early max_nodes t0 tevs c id) as (Hwf & Hle & Htr); [done..|].
  destruct (Htr e He) as (r & Hr & _ & Hk). exists r. split; [exact Hr|].
  apply tstep_inv in Hstep as (Ht & _ & Hsv & -> & _).
  rewrite Hsv, (step_present _ _ id e) in Hgone by done. case_decide as Hstale; [|done].
  destruct Hk as [Hk|Hk]; [lia|].
  assert ((patience h - 1) * interval h ≤ (NodeEntry.missed_heartbeats e - 1) * interval h)%Z;
    [apply Z.mul_le_mono_nonneg_r; lia|lia].
Qed.

Lemma booted_not_late delta max_nodes t0 tevs id e c :
  in_u32 max_nodes → (0 ≤ interval h)%Z → (0 ≤ delta)%Z →
  (0 < patience h)%Z → in_u32 (patience h) →
  trun h tevs (boot max_nodes t0) = Some c → prompt h delta tevs (boot max_nodes t0) = true →
  svc_abs (service c) !! id = Some e →
  ∃ r, last_refresh id None tevs (service (boot max_nodes t0)) = Some r
       ∧ not_late h delta r (NodeEntry.missed_heartbeats e) c.
Proof.
  intros Hmax Hint Hdelta Hpos Hthr Hrun Hpr He.
  pose proof (booted_id _ _ _ _ _ _ Hmax Hrun He) as Hid.
  pose proof (not_late_run h delta id tevs None _ c Hint Hdelta Hpos Hthr
    Hid Hpr (boot_tracks _ id max_nodes t0 Hmax) Hrun) as (_ & _ & Htr). by apply Htr.
Qed.

(** An entry that is still there was refreshed within the checker's patience. *)
Lemma present_bound delta max_nodes t0 tevs id e t c :
  in_u32 max_nodes → (0 ≤ interval h)%Z → (0 ≤ delta)%Z →
  (0 < patience h)%Z → in_u32 (patience h) →
  trun h tevs (boot max_nodes t0) = Some c → prompt h delta tevs (boot max_nodes t0) = true →
  (t ≤ due h delta (checker c))%Z → svc_abs (service c) !! id = Some e →
  ∃ r, last_refresh id None tevs (service (boot max_nodes t0)) = Some r
       ∧ (t ≤ r + patience h * cycle h delta + delta)%Z.
Proof.
  intros Hmax Hint Hdelta Hpos Hthr Hrun Hpr Hdue He.
  destruct (booted_not_late delta max_nodes t0 tevs id e c) as (r & Hr & Hk); [done..|].
  exists r. split; [done|].
  assert (∀ j, (j ≤ patience h)%Z → (j * cycle h delta ≤ patience h * cycle h delta)%Z) as Hmono.
  { intros j Hj. apply Z.mul_le_mono_nonneg_r; unfold cycle; lia. }
  unfold not_late in Hk. destruct (checker c) as [u|u]; simpl in Hdue.
  - specialize (Hmono (NodeEntry.missed_heartbeats e + 1)%Z). unfold cycle in *. lia.
  - specialize (Hmono (NodeEntry.missed_heartbeats e)). lia.
Qed.

(** C2: silence is noticed in time.  If the checker is never late by more than
    [delta], then whenever a node is in the table, its last refresh is at most
    threshold many cycles (and once [delta]) ago; and whenever a query returns it, at
    most one cycle. *)
Theorem silence_noticed_in_time delta max_nodes t0 tevs req t c :
  in_u32 max_nodes → (0 ≤ interval h)%Z → (0 ≤ delta)%Z →
  (0 < patience h)%Z → in_u32 (patience h) →
  trun h tevs (boot max_nodes t0) = Some c → prompt h delta tevs (boot max_nodes t0) = true →
  (clock c ≤ t ≤ due h delta (checker c))%Z →
  let heard id := last_refresh id None tevs (service (boot max_nodes t0)) in
  (∀ id, is_Some (svc_abs (service c) !! id) →
     ∃ r, heard id = Some r ∧ (t ≤ r + patience h * cycle h delta + delta)%Z)
  ∧ (∀ info, info ∈ DiscoverResponse.nodes (Discover req DiscoverResponse.empty (service c)).1.2 →
     ∃ r, heard (NodeInfo.node_id info) = Some r ∧ (t ≤ r + cycle h delta)%Z).
Proof.
  intros Hmax Hint Hdelta Hpos Hthr Hrun Hpr [Ht Hdue] heard. split.
  - intros id [e He]. by eapply present_bound.
  - intros info Hin. rewrite Discover_nodes in Hin. simpl in Hin.
    rewrite found_nodes in Hin by by apply (booted max_nodes t0 tevs).
    destruct Hin as (e & He & _ & Hm & _).
    destruct (booted_not_late delta max_nodes t0 tevs (NodeInfo.node_id info) e c) as (r & Hr & Hk); [done..|].
    exists r. split; [done|]. unfold not_late in Hk. unfold cycle in *. rewrite Hm in Hk.
    destruct (checker c); simpl in Hdue; lia.
Qed.

(** ** Punctual nodes *)

Lemma beat_times_cons id t ev tevs :
  beat_times id ((t, ev) :: tevs)
  = if heartbeat_of id ev then t :: beat_times id tevs else beat_times id tevs.
Proof. unfold beat_times. simpl. by destruct (heartbeat_of id ev). Qed.

(** A node that keeps its distance is not overdue now. *)
Lemma spaced_now id D r tevs c c' :
  trun h tevs c = Some c' → spaced D r (beat_times id tevs ++ [clock c']) → (clock c ≤ r + D)%Z.
Proof.
  revert c. induction tevs as [|[t ev] tevs IH]; intros c Hrun Hsp; simplify_eq/=; [lia|].
  destruct (tstep h (t, ev) c) as [c1|] eqn:Hstep; simplify_eq/=.
  apply tstep_clock in Hstep as [Ht Ht1]. rewrite beat_times_cons in Hsp.
  destruct (heartbeat_of id ev); [simpl in Hsp; lia|]. specialize (IH c1 Hrun Hsp). lia.
Qed.

Lemma refreshing_present id ev (s : RegistryService.t T) e :
  svc_abs s !! id = Some e → refreshing id ev s = heartbeat_of id ev.
Proof.
  intros He. unfold refreshing. rewrite (present_true _ _ _ He), andb_false_r.
  by rewrite orb_false_r, andb_true_r.
Qed.

(** An event that comes while a node is not overdue leaves it in the table, with
    its info and its session. *)
Lemma punctual_step id D r c c1 t ev e :
  (0 ≤ interval h)%Z → (D < (patience h - 1) * interval h)%Z → (0 < patience h)%Z → id ≠ "" →
  tracks (not_early h) id (Some r) c → svc_abs (service c) !! id = Some e →
  tstep h (t, ev) c = Some c1 → deregister_of id ev = false → (clock c ≤ r + D)%Z →
  ∃ e1, svc_abs (service c1) !! id = Some e1
        ∧ NodeEntry.info e1 = NodeEntry.info e ∧ NodeEntry.session_id e1 = NodeEntry.session_id e.
Proof.
  intros Hint HD Hpos Hid (Hwf & Hle & Htr) He Hstep Hdr Hnow.
  destruct (Htr e He) as (r0 & [= <-] & _ & Hk).
  apply tstep_inv in Hstep as (Ht & _ & Hsv & Hck). rewrite Hsv, (step_present _ _ id e) by done.
  destruct ev as [req rand now|req now|req|req| | |thr|req rand now]; try by exists e.
  - eexists; split; [done|]. by destruct (heartbeat_of id _).
  - simpl in Hdr. apply String.eqb_neq in Hdr. rewrite decide_False by done. by exists e.
  - by exists (NodeEntry.miss e).
  - destruct Hck as (-> & u & Hu & _). rewrite Hu in *. simpl in *.
    rewrite decide_False; [by exists e|]. intros Hstale.
    assert ((patience h - 1) * interval h ≤ (NodeEntry.missed_heartbeats e - 1) * interval h)%Z;
      [apply Z.mul_le_mono_nonneg_r; lia|]. destruct Hk as [Hk|Hk]; lia.
Qed.

Lemma punctual_from id D r tevs c c' e :
  (0 ≤ interval h)%Z → (D < (patience h - 1) * interval h)%Z → (0 < patience h)%Z → id ≠ "" →
  tracks (not_early h) id (Some r) c → svc_abs (service c) !! id = Some e →
  trun h tevs c = Some c' → Forall (λ ev, deregister_of id ev = false) tevs.*2 →
  spaced D r (beat_times id tevs ++ [clock c']) →
  ∃ e', svc_abs (service c') !! id = Some e'
        ∧ NodeEntry.info e' = NodeEntry.info e ∧ NodeEntry.session_id e' = NodeEntry.session_id e.
Proof.
  intros Hint HD Hpos Hid. revert r c e.
  induction tevs as [|[t ev] tevs IH]; intros r c e Htr He Hrun Hdr Hsp; simplify_eq/=;
    [by exists e|].
  pose proof Hrun as Hnow.
  eapply (spaced_now id D r ((t, ev) :: tevs)) in Hnow; [|exact Hsp].
  destruct (tstep h (t, ev) c) as [c1|] eqn:Hstep; simplify_eq/=.
  apply Forall_cons in Hdr as [Hdr Hdrs].
  destruct (punctual_step id D r c c1 t ev e) as (e1 & He1 & Hi & Hs); try done.
  eapply not_early_step in Htr; [|done..]. rewrite (refreshing_present _ _ _ e He) in Htr.
  rewrite beat_times_cons in Hsp.
  destruct (IH (if heartbeat_of id ev then t else r) c1 e1) as (e' & He' & Hi' & Hs'); try done.
  - by destruct (heartbeat_of id ev).
  - destruct (heartbeat_of id ev); [by destruct Hsp|done].
  - exists e'. split_and!; [done|congruence|congruence].
Qed.

(** C23: a punctual node stays.  Once in the table, a node whose heartbeats come at
    most [D] apart, [D] shorter than threshold minus one intervals, is in the table
    for as long as it keeps this up and nobody deregisters it, with its session,
    whatever everybody else does and however the threads are scheduled. *)
Theorem punctual_node_stays max_nodes t0 tevs0 tevs id e D r c c' :
  in_u32 max_nodes → (0 ≤ interval h)%Z → (0 < patience h)%Z →
  (D < (patience h - 1) * interval h)%Z →
  trun h tevs0 (boot max_nodes t0) = Some c → svc_abs (service c) !! id = Some e →
  last_refresh id None tevs0 (service (boot max_nodes t0)) = Some r →
  trun h tevs c = Some c' → Forall (λ ev, deregister_of id ev = false) tevs.*2 →
  spaced D r (beat_times id tevs ++ [clock c']) →
  ∃ e', svc_abs (service c') !! id = Some e'
        ∧ NodeEntry.info e' = NodeEntry.info e ∧ NodeEntry.session_id e' = NodeEntry.session_id e.
Proof.
  intros Hmax Hint Hpos HD Hrun0 He Hr Hrun Hdr Hsp.
  pose proof (booted_id _ _ _ _ _ _ Hmax Hrun0 He) as Hid.
  eapply punctual_from; [exact Hint|exact HD|done|done| |done..].
  rewrite <-Hr. by apply booted_not_early.
Qed.

(** ** Last refreshes *)

(** Without a heartbeat or a registration of the node, the last refresh stays. *)
Lemma last_refresh_quiet id r tevs (s : RegistryService.t T) :
  Forall (λ ev, heartbeat_of id ev = false ∧ register_of id ev = false) tevs.*2 →
  last_refresh id r tevs s = r.
Proof.
  revert s. induction tevs as [|[t ev] tevs IH]; intros s Hq; simplify_eq/=; [done|].
  apply Forall_cons in Hq as [[Hh Hr] Hq].
  assert (refreshing id ev s = false) as -> by (unfold refreshing; by rewrite Hh, Hr).
  by apply IH.
Qed.

Lemma last_refresh_past id r tevs c c' r0 :
  trun h tevs c = Some c' → (∀ r1, r = Some r1 → (r1 ≤ clock c)%Z) →
  last_refresh id r tevs (service c) = Some r0 → (r0 ≤ clock c')%Z.
Proof.
  revert r c. induction tevs as [|[t ev] tevs IH]; intros r c Hrun Hr Hlast; simplify_eq/=;
    [by apply Hr|].
  destruct (tstep h (t, ev) c) as [c1|] eqn:Hstep; simplify_eq/=.
  pose proof (tstep_inv _ _ _ _ _ Hstep) as (Ht & Ht1 & Hsv & _). rewrite <-Hsv in Hlast.
  eapply (IH _ c1); [done| |exact Hlast]. intros r1 Hr1. rewrite Ht1.
  destruct (refreshing id ev (service c)); [simplify_eq; lia|]. specialize (Hr _ Hr1). lia.
Qed.

(** A node that has sent nothing since [r] is gone, once the checker's patience and
    its lateness are over. *)
Lemma long_silent_gone delta max_nodes t0 tevs0 tevs1 id r t c0 c :
  in_u32 max_nodes → (0 ≤ interval h)%Z → (0 ≤ delta)%Z →
  (0 < patience h)%Z → in_u32 (patience h) →
  trun h tevs0 (boot max_nodes t0) = Some c0 → (clock c0 ≤ r)%Z →
  trun h tevs1 c0 = Some c → prompt h delta (tevs0 ++ tevs1) (boot max_nodes t0) = true →
  Forall (λ ev, heartbeat_of id ev = false ∧ register_of id ev = false) tevs1.*2 →
  (t ≤ due h delta (checker c))%Z → (r + patience h * cycle h delta + delta < t)%Z →
  svc_abs (service c) !! id = None.
Proof.
  intros Hmax Hint Hdelta Hpos Hthr Hrun0 Hr Hrun1 Hpr Hq Hdue Hlong.
  destruct (svc_abs (service c) !! id) as [e|] eqn:He; [|done]. exfalso.
  assert (trun h (tevs0 ++ tevs1) (boot max_nodes t0) = Some c) as Hrun.
  { rewrite trun_app, Hrun0. done. }
  pose proof (booted_id _ _ _ _ _ _ Hmax Hrun He) as Hid.
  destruct (present_bound delta max_nodes t0 (tevs0 ++ tevs1) id e t c) as (r0 & Hr0 & Hb);
    [done..|].
  rewrite last_refresh_app, last_refresh_quiet in Hr0 by done.
  eapply last_refresh_past in Hr0; [|exact Hrun0|done]. lia.
Qed.

(** ** The histories of the checker's loop *)

Definition clients (evs : list event) : Prop := Forall (λ ev, is_checker ev = false) evs.

(** What has happened since the last full round. *)
Definition unfinished (p : phase) (tail : list event) : Prop :=
  match p with
  | Asleep _ => clients tail
  | Sweeping _ => ∃ a b, tail = a ++ EvIncrement :: b ∧ clients a ∧ clients b
  end.

Lemma unfinished_client p tail ev :
  unfinished p tail → is_checker ev = false → unfinished p (tail ++ [ev]).
Proof.
  intros Hun Hev. destruct p; simpl in *.
  - apply Forall_app. by repeat constructor.
  - destruct Hun as (a & b & -> & Ha & Hb). exists a, (b ++ [ev]).
    rewrite <-app_assoc. split_and!; [done|done|]. apply Forall_app. by repeat constructor.
Qed.

Lemma rounds_snoc k rs r : rounds k (rs ++ [r]) = rounds k rs ++ round k r.
Proof. unfold rounds. rewrite fmap_app, concat_app. simpl. by rewrite app_nil_r. Qed.

(** A history is so many rounds, and the beginning of the next. *)
Lemma history_rounds tevs c c' u :
  checker c = Asleep u → trun h tevs c = Some c' →
  ∃ rs tail, tevs.*2 = rounds (patience h) rs ++ tail
    ∧ Forall client_round rs ∧ unfinished (checker c') tail.
Proof.
  intros Hu. revert c'. induction tevs as [|[t ev] tevs IH] using rev_ind; intros c' Hrun.
  { simplify_eq/=. exists [], []. rewrite Hu. by repeat constructor. }
  rewrite trun_app in Hrun. destruct (trun h tevs c) as [c1|]; simplify_eq/=.
  destruct (tstep h (t, ev) c1) as [c2|] eqn:Hstep; simplify_eq/=.
  destruct (IH c1 eq_refl) as (rs & tail & Htevs & Hrs & Hun).
  apply tstep_inv in Hstep as (_ & _ & _ & Hck). rewrite fmap_app, Htevs. simpl.
  assert (is_checker ev = false → checker c' = checker c1 →
    ∃ rs' tail', (rounds (patience h) rs ++ tail) ++ [ev] = rounds (patience h) rs' ++ tail'
      ∧ Forall client_round rs' ∧ unfinished (checker c') tail') as Hclient.
  { intros Hev ->. exists rs, (tail ++ [ev]). rewrite <-app_assoc.
    split_and!; [done|done|by apply unfinished_client]. }
  destruct ev as [req rand now|req now|req|req| | |thr|req rand now]; try (by apply Hclient).
  - destruct Hck as (u1 & Hu1 & _ & ->). rewrite Hu1 in Hun. exists rs, (tail ++ [EvIncrement]).
    rewrite <-app_assoc. split_and!; [done|done|]. exists tail, []. by repeat constructor.
  - destruct Hck as (-> & u1 & Hu1 & ->). rewrite Hu1 in Hun.
    destruct Hun as (a & b & -> & Ha & Hb). exists (rs ++ [(a, b)]), [].
    rewrite rounds_snoc, app_nil_r. unfold round. simpl. rewrite <-!app_assoc. simpl.
    split_and!; [done| |by constructor]. apply Forall_app. by repeat constructor.
Qed.

(** Clients find the process ready at any time. *)
Lemma clients_run evs t u c :
  clients evs → clock c = t → checker c = u →
  trun h ((t,.) <$> evs) c = Some (mk_config t u (run evs (service c))).
Proof.
  intros Hevs. revert c. induction Hevs as [|ev evs Hev _ IH]; intros c Ht Hu; simpl.
  - destruct c. by subst.
  - assert (tstep h (t, ev) c = Some (mk_config t u (step ev (service c)))) as ->.
    { unfold tstep. rewrite (proj2 (Z.ltb_ge _ _)) by lia. by destruct ev; simplify_eq/=. }
    simpl. by rewrite IH.
Qed.

Lemma clients_prompt delta evs t u c :
  clients evs → clock c = t → checker c = u → (t ≤ due h delta u)%Z →
  prompt h delta ((t,.) <$> evs) c = true.
Proof.
  intros Hevs. revert c. induction Hevs as [|ev evs Hev _ IH]; intros c Ht Hu Hdue; simpl; [done|].
  rewrite Hu, (proj2 (Z.leb_le _ _)) by done. simpl.
  destruct (tstep h (t, ev) c) as [c1|] eqn:Hstep; [|done].
  apply tstep_inv in Hstep as (_ & Hc1 & _ & Hck). apply IH; [done| |done].
  by destruct ev; simplify_eq/=.
Qed.

(** A round with all its client events at the times of the two calls. *)
Definition timed_round (u : Z) (r : list event * list event) : list (Z * event) :=
  let v := (u + interval h)%Z in
  ((u,.) <$> r.1) ++ (v, EvIncrement) :: ((v,.) <$> r.2) ++ [(v, EvRemoveStale (patience h))].

Lemma timed_round_events u r : (timed_round u r).*2 = round (patience h) r.
Proof.
  unfold timed_round, round. rewrite fmap_app. csimpl. rewrite fmap_app. simpl.
  by rewrite <-!list_fmap_compose, !list_fmap_id.
Qed.

Lemma prompt_app delta tevs1 tevs2 c :
  prompt h delta (tevs1 ++ tevs2) c
  = prompt h delta tevs1 c
    && match trun h tevs1 c with Some c' => prompt h delta tevs2 c' | None => true end.
Proof.
  revert c. induction tevs1 as [|tev tevs1 IH]; intros c; [done|]. simpl.
  rewrite <-andb_assoc. f_equal. destruct (tstep h tev c) as [c1|]; [apply IH|done].
Qed.

Lemma timed_round_runs u r c :
  (0 ≤ interval h)%Z → client_round r → clock c = u → checker c = Asleep u →
  trun h (timed_round u r) c
    = Some (mk_config (u + interval h) (Asleep (u + interval h))
              (run (round (patience h) r) (service c)))
  ∧ prompt h 0 (timed_round u r) c = true.
Proof.
  intros Hint [Ha Hb] Hu Hck. unfold timed_round, round. rewrite trun_app, prompt_app, !run_app.
  rewrite (clients_run r.1 u (Asleep u)), (clients_prompt 0 r.1 u (Asleep u)) by (simpl; done || lia).
  simpl. set (v := (u + interval h)%Z). set (s1 := run r.1 (service c)).
  assert (tstep h (v, EvIncrement) (mk_config u (Asleep u) s1)
    = Some (mk_config v (Sweeping v) (step EvIncrement s1))) as ->.
  { unfold tstep, v. simpl. rewrite (proj2 (Z.ltb_ge _ _)), (proj2 (Z.leb_le _ _)) by lia. done. }
  simpl. rewrite trun_app, prompt_app.
  rewrite (clients_run r.2 v (Sweeping v)), (clients_prompt 0 r.2 v (Sweeping v)) by (simpl; done || lia).
  simpl. set (s2 := run r.2 (step EvIncrement s1)).
  assert (tstep h (v, EvRemoveStale (patience h)) (mk_config v (Sweeping v) s2)
    = Some (mk_config v (Asleep v) (step (EvRemoveStale (patience h)) s2))) as ->.
  { unfold tstep. simpl. by rewrite (proj2 (Z.ltb_ge _ _)), Z.eqb_refl by lia. }
  split; [done|]. simpl. rewrite !andb_true_r. apply andb_true_iff.
  split; apply Z.leb_le; unfold v; lia.
Qed.

Lemma rounds_forall (P : event → Prop) k rs : Forall P (rounds k rs) → Forall (both P) rs.
Proof.
  induction rs as [|r rs IH]; intros HP; [done|]. rewrite rounds_cons in HP.
  apply Forall_app in HP as [Hr Hrs]. constructor; [|by apply IH].
  unfold round in Hr. rewrite !Forall_app in Hr. by destruct Hr as (? & _ & ? & _).
Qed.

Lemma rounds_timed rs u c :
  (0 ≤ interval h)%Z → Forall client_round rs → clock c = u → checker c = Asleep u →
  ∃ tevs c', tevs.*2 = rounds (patience h) rs
    ∧ trun h tevs c = Some c' ∧ prompt h 0 tevs c = true.
Proof.
  intros Hint Hrs. revert u c. induction Hrs as [|r rs Hr _ IH]; intros u c Hu Hck.
  { by exists [], c. }
  destruct (timed_round_runs u r c) as [Hrun Hpr]; [done..|].
  destruct (IH _ (mk_config (u + interval h) (Asleep (u + interval h))
                    (run (round (patience h) r) (service c))) eq_refl eq_refl)
    as (tevs & c' & Htevs & Hrun' & Hpr').
  exists (timed_round u r ++ tevs), c'.
  rewrite fmap_app, timed_round_events, Htevs, rounds_cons, trun_app, prompt_app, Hrun, Hpr.
  simpl. by rewrite Hpr'.
Qed.

(** C25: the timed histories are those of the loop.  Whatever history the clock allows
    from where the checker falls asleep consists of rounds of the checker with client
    calls in between, and the beginning of the next round, and the thread's own loop
    with these disturbances leaves the same table and is still running.  Conversely
    any sequence of rounds has a timing that the clock allows, with a checker that is
    never late. *)
Theorem timed_history_is_loop c u :
  svc_wf (service c) → (0 ≤ interval h)%Z → checker c = Asleep u → clock c = u →
  (∀ tevs c', trun h tevs c = Some c' → Forall (λ ev, no_shutdown ev = true) tevs.*2 →
     ∃ rs tail, tevs.*2 = rounds (patience h) rs ++ tail
       ∧ Forall client_round rs ∧ unfinished (checker c') tail
       ∧ let running := RegistryService.is_running_ (service c) in
         let '(_, tb, exited) :=
           HealthChecker.run_loop h (disturbed running <$> rs) (node_table_ (service c)) in
         exited = false
         ∧ service c' = run tail (RegistryService.mk tb running))
  ∧ (∀ rs, Forall client_round rs →
     ∃ tevs c', tevs.*2 = rounds (patience h) rs
       ∧ trun h tevs c = Some c' ∧ prompt h 0 tevs c = true).
Proof.
  intros Hwf Hint Hck Hu. split; [|intros rs Hrs; by eapply rounds_timed].
  intros tevs c' Hrun Hns. destruct (history_rounds tevs c c' u Hck Hrun) as (rs & tail & Ht & Hrs & Hun).
  exists rs, tail. split_and!; [done..|]. intros running.
  rewrite Ht in Hns. apply Forall_app in Hns as [Hns _].
  assert (Forall (both (λ ev, no_shutdown ev = true)) rs) as Hboth.
  { by eapply rounds_forall. }
  pose proof (run_loop_rounds h running rs (node_table_ (service c)) Hwf Hboth) as Hloop.
  destruct (HealthChecker.run_loop _ _ _) as [[eff tb] exited]. destruct Hloop as [-> ->].
  split; [done|]. rewrite (trun_service h tevs c c' Hrun), Ht, run_app.
  f_equal. rewrite <-(table_eta (service c) running) by done. apply table_eta.
  by apply run_keeps_running.
Qed.

End claims.

(** * Examples *)

#[local] Instance sample_order : HashOrder NodeEntry.t := front_order _.
#[local] Instance sample_status : GrpcStatus := concrete_status.

(** The checker of the registry server: every 1000 ms, three misses. *)
Definition sample_checker : HealthChecker.t := HealthChecker.HealthChecker 1000 3.

Definition sample_boot : config NodeTable.t := boot 5 0.

(** A node registers just before a tick, and is never heard of again. *)
Definition silent_history : list (Z * event) :=
  [(990, ev_register "lidar_01"); (1000, EvIncrement); (1000, EvRemoveStale 3);
   (2000, EvIncrement); (2001, EvRemoveStale 3); (3005, EvIncrement)]%Z.

(** The checker that says "3 missed = 3s offline" drops it after 2015 ms. *)
Example dropped_after_two_seconds :
  (λ c : config NodeTable.t, present "lidar_01" (service c))
    <$> trun sample_checker (silent_history ++ [(3005, EvRemoveStale 3)%Z]) sample_boot
  = Some false
  ∧ (λ c : config NodeTable.t, present "lidar_01" (service c))
      <$> trun sample_checker silent_history sample_boot
    = Some true
  ∧ last_refresh "lidar_01" None silent_history (service sample_boot) = Some 990%Z.
Proof. by split_and!; vm_compute. Qed.

Lemma removals_never_early_witness :
  ∃ (c c' : config NodeTable.t),
    trun sample_checker silent_history sample_boot = Some c
    ∧ tstep sample_checker (3005, EvRemoveStale 3)%Z c = Some c'
    ∧ ∃ r, last_refresh "lidar_01" None silent_history (service sample_boot) = Some r
        ∧ (r + (3 - 1) * 1000 ≤ 3005)%Z.
Proof.
  destruct (trun sample_checker silent_history sample_boot) as [c|] eqn:Hc; [|by vm_compute in Hc].
  destruct (tstep sample_checker (3005, EvRemoveStale 3)%Z c) as [c'|] eqn:Hc'.
  - exists c, c'. split; [done|]. split; [done|].
    destruct (svc_abs (service c) !! "lidar_01") as [e|] eqn:He.
    + apply (removals_never_early sample_checker 5 0 silent_history "lidar_01" e 3005 3 c c');
        [by unfold in_u32|done|done|exact Hc|exact Hc'|exact He|].
      vm_compute in Hc. injection Hc as <-. vm_compute in Hc'. injection Hc' as <-. by vm_compute.
    + exfalso. vm_compute in Hc. injection Hc as <-. by vm_compute in He.
  - exfalso. vm_compute in Hc. injection Hc as <-. by vm_compute in Hc'.
Defined.

Lemma silence_noticed_in_time_witness :
  ∃ c : config NodeTable.t,
    trun sample_checker silent_history sample_boot = Some c
    ∧ ∃ r, last_refresh "lidar_01" None silent_history (service sample_boot) = Some r
        ∧ (3010 ≤ r + 3 * cycle sample_checker 5 + 5)%Z.
Proof.
  destruct (trun sample_checker silent_history sample_boot) as [c|] eqn:Hc; [|by vm_compute in Hc].
  exists c. split; [done|].
  destruct (silence_noticed_in_time sample_checker 5 5 0 silent_history (DiscoverRequest.mk [])
              3010 c) as [Hpres _];
    [by unfold in_u32|done|done|done|by unfold in_u32|exact Hc|by vm_compute| |].
  - vm_compute in Hc. injection Hc as <-. by vm_compute.
  - apply Hpres. vm_compute in Hc. injection Hc as <-. vm_compute. by eexists.
Defined.

(** A node that sends its heartbeats every 1500 ms. *)
Definition slow_beats : list (Z * event) :=
  [(1000, EvIncrement); (1000, EvRemoveStale 3); (2000, EvIncrement); (2000, EvRemoveStale 3);
   (2400, ev_heartbeat "lidar_01" 9); (3000, EvIncrement); (3900, ev_heartbeat "lidar_01" 9);
   (3900, EvRemoveStale 3); (4900, EvIncrement); (4901, EvRemoveStale 3)]%Z.

Lemma punctual_node_stays_witness :
  ∃ c c' e' : _,
    trun sample_checker [(990, ev_register "lidar_01")%Z] sample_boot = Some c
    ∧ trun sample_checker slow_beats c = Some c'
    ∧ svc_abs (service c') !! "lidar_01" = Some e' ∧ NodeEntry.session_id e' = "lidar_01_42".
Proof.
  destruct (trun sample_checker [(990, ev_register "lidar_01")%Z] sample_boot) as [c|] eqn:Hc;
    [|by vm_compute in Hc].
  destruct (trun sample_checker slow_beats c) as [c'|] eqn:Hc'.
  2: { exfalso. vm_compute in Hc. injection Hc as <-. by vm_compute in Hc'. }
  destruct (svc_abs (service c) !! "lidar_01") as [e|] eqn:He.
  2: { exfalso. vm_compute in Hc. injection Hc as <-. by vm_compute in He. }
  destruct (punctual_node_stays sample_checker 5 0 [(990, ev_register "lidar_01")%Z] slow_beats
              "lidar_01" e 1500 990 c c') as (e' & He' & _ & Hs);
    [by unfold in_u32|done|done|done|exact Hc|exact He|by vm_compute|exact Hc'
     |by repeat constructor| |].
  - vm_compute in Hc. injection Hc as <-. vm_compute in Hc'. injection Hc' as <-. by vm_compute.
  - exists c, c', e'. split_and!; [done|done|done|]. rewrite Hs.
    vm_compute in Hc. injection Hc as <-. vm_compute in He. by injection He as <-.
Defined.

Lemma timed_history_is_loop_witness :
  (∃ rs tail, silent_history.*2 = rounds 3 rs ++ tail
    ∧ (HealthChecker.run_loop sample_checker (disturbed true <$> rs)
         (node_table_ (service sample_boot))).2 = false)
  ∧ ∃ tevs (c' : config NodeTable.t), tevs.*2 = rounds 3 (replicate 3 (beating_round "camera_01"))
      ∧ trun sample_checker tevs sample_boot = Some c'.
Proof.
  destruct (timed_history_is_loop sample_checker sample_boot 0) as [Hloop Hrounds];
    [|done|done|done|].
  { apply (new_directory_spec (T := NodeTable.t) 5). by unfold in_u32. }
  split.
  - destruct (trun sample_checker silent_history sample_boot) as [c'|] eqn:Hc';
      [|by vm_compute in Hc'].
    destruct (Hloop silent_history c') as (rs & tail & Hrs & _ & _ & Hrun);
      [exact Hc'|by repeat constructor|].
    exists rs, tail. split; [exact Hrs|]. simpl in Hrun.
    destruct (HealthChecker.run_loop _ _ _) as [[eff tb] exited]. by destruct Hrun as [-> _].
  - destruct (Hrounds (replicate 3 (beating_round "camera_01"))) as (tevs & c' & Htevs & Hrun & _);
      [by repeat constructor|]. by exists tevs, c'.
Defined.
