(* ===== verification/Coro.v ===== *)
(** * The coroutine adapter (src/core/coro/coro_adapter.h, .cpp, stream_awaiters.h)

    gRPC's completion queue hands back the [void*] tags the program gave it; a
    tag points to a context, and the poller thread resumes the coroutine whose
    handle the context holds.  The model has the memory of the contexts (a map
    from addresses, so that a use after free or a double free is a [Fault]), the
    coroutine frames with the awaiter each is suspended in, and the operations
    gRPC has been given and not yet returned.

    A coroutine's own code is a parameter: a [program] says, from the results it
    has received so far, which operation it awaits next, if any.

    gRPC's completion queue is a parameter as well: what [AsyncNext] answers is
    an input, and the theorems assume what gRPC documents of it ([cq_answers]):
    a tag comes back once for each operation started with it, and SHUTDOWN only
    once the queue is drained. *)

From Stdlib Require Import ZArith Lia.
From stdpp Require Import prelude gmap strings list.
From S2P Require Import Prelude Grpc.

(** ** Outcomes: a value, or a memory fault *)

Inductive fault :=
  | UseAfterFree
  | DoubleFree
  | NullDeref
  | ResumedWhileRunning.

Inductive outcome (A : Type) :=
  | Ok (a : A)
  | Fault (f : fault).
Arguments Ok {A}.
Arguments Fault {A}.

#[global] Instance outcome_ret : MRet outcome := @Ok.
#[global] Instance outcome_bind : MBind outcome := λ A B f m,
  match m with Ok a => f a | Fault e => Fault e end.

Inductive ContextType := ASYNC_UNARY | STREAM_OP.

(** A coroutine handle is the address of a frame; a tag, of a context. *)
Abbreviation handle := Z.
Abbreviation loc := Z.

Module AsyncContext.
Section record.
  Context `{G : GrpcStatus}.
Record t := mk {
  caller_handle : option handle;
  grpc_status : Status;
  ok : bool;
  timed_out : bool;
}.
(** [grpc::Status]'s default value is OK. *)
Definition new : t := mk None Status_OK false false.
End record.
End AsyncContext.

Module StreamContext.
Record t := mk {
  caller_handle : option handle;
  ok : bool;
}.
Definition new : t := mk None false.
End StreamContext.

Section coro.
  Context `{G : GrpcStatus}.

(** What a tag points to: the two kinds of context, told apart by their first
    byte, or something else that starts with a byte that is neither's. *)
Inductive object :=
  | Async (c : AsyncContext.t)
  | Stream (c : StreamContext.t)
  | Foreign (byte : Z).

Definition type_byte (o : object) : Z :=
  match o with Async _ => 0 | Stream _ => 1 | Foreign b => b end.

Definition type_value (ty : ContextType) : Z :=
  match ty with ASYNC_UNARY => 0 | STREAM_OP => 1 end.

(** The awaiters, with the operation each starts. *)
Inductive operation :=
  | Unary            (* AwaitableOperation *)
  | UnaryThrows      (* ... whose start_fn throws *)
  | Read             (* StreamReadAwaiter *)
  | Write            (* StreamWriteAwaiter *)
  | WritesDone       (* StreamWritesDoneAwaiter *)
  | Finish (status : Status).  (* StreamFinishAwaiter, over the caller's variable *)

(** An awaiter suspended in a frame. *)
Inductive awaiter :=
  | AwaitableOperation (ctx : option loc)
  | StreamAwaiter (ctx : loc)
  | StreamFinishAwaiter (status : Status) (ctx : loc).

(** What [co_await] evaluates to. *)
Inductive result :=
  | RStatus (st : Status)
  | ROk (ok : bool)
  | RThrew.

Definition program := list result → option operation.

Record frame := mk_frame {
  code : program;
  results : list result;
  awaiting : option awaiter;
}.

(** [handle.done()]: a frame that is suspended in no awaiter has finished. *)
Definition done (f : frame) : bool :=
  match awaiting f with None => true | Some _ => false end.

Record world := mk_world {
  heap : gmap loc object;        (* the live contexts *)
  next : Z;                      (* the next fresh address *)
  started : gset loc;            (* tags gRPC has and has not returned *)
  frames : gmap handle frame;
}.

Definition set_heap hp (w : world) : world := mk_world hp (next w) (started w) (frames w).
Definition set_started sd (w : world) : world := mk_world (heap w) (next w) sd (frames w).
Definition set_frames fs (w : world) : world := mk_world (heap w) (next w) (started w) fs.

Definition store (l : loc) (o : object) (w : world) : world := set_heap (<[l := o]> (heap w)) w.

Definition alloc (o : object) (w : world) : loc * world :=
  (next w, mk_world (<[next w := o]> (heap w)) (next w + 1) (started w) (frames w)).

Definition free (l : loc) (w : world) : outcome world :=
  match heap w !! l with
  | Some _ => mret (set_heap (delete l (heap w)) w)
  | None => Fault DoubleFree
  end.

Definition load_async (l : loc) (w : world) : outcome AsyncContext.t :=
  match heap w !! l with Some (Async c) => mret c | _ => Fault UseAfterFree end.

Definition load_stream (l : loc) (w : world) : outcome StreamContext.t :=
  match heap w !! l with Some (Stream c) => mret c | _ => Fault UseAfterFree end.

Definition set_frame (h : handle) (f : frame) (w : world) : world :=
  set_frames (<[h := f]> (frames w)) w.

(** ** Suspending *)

(** gRPC takes the tag. *)
Definition start_tag (l : loc) (w : world) : world := set_started ({[l]} ∪ started w) w.

(** [AwaitableOperation::await_suspend]: the new world and whether [start_fn]
    threw, in which case the context has been deleted. *)
Definition await_suspend (h : handle) (ctx : loc) (throws : bool) (w : world)
    : outcome (world * bool) :=
  c ← load_async ctx w;
  let w := store ctx (Async (AsyncContext.mk (Some h) (AsyncContext.grpc_status c)
                               (AsyncContext.ok c) false)) w in
  if throws then
    w ← free ctx w;
    mret (w, true)
  else mret (start_tag ctx w, false).

(** The stream awaiters' [await_suspend]: they differ in the call they make. *)
Definition stream_await_suspend (h : handle) (ctx : loc) (w : world) : outcome world :=
  c ← load_stream ctx w;
  mret (start_tag ctx (store ctx (Stream (StreamContext.mk (Some h) (StreamContext.ok c))) w)).

(** The coroutine runs on from its results: it finishes, or makes an awaiter and
    suspends in it. *)
Definition run_frame (h : handle) (p : program) (rs : list result) (w : world) : outcome world :=
  match p rs with
  | None => mret (set_frame h (mk_frame p rs None) w)
  | Some Unary =>
      let '(l, w) := alloc (Async AsyncContext.new) w in
      '(w, _) ← await_suspend h l false w;
      mret (set_frame h (mk_frame p rs (Some (AwaitableOperation (Some l)))) w)
  | Some UnaryThrows =>
      let '(l, w) := alloc (Async AsyncContext.new) w in
      '(w, _) ← await_suspend h l true w;
      (* the exception ends the coroutine: its promise keeps it *)
      mret (set_frame h (mk_frame p (rs ++ [RThrew]) None) w)
  | Some (Finish st) =>
      let '(l, w) := alloc (Stream StreamContext.new) w in
      w ← stream_await_suspend h l w;
      mret (set_frame h (mk_frame p rs (Some (StreamFinishAwaiter st l))) w)
  | Some (Read | Write | WritesDone) =>
      let '(l, w) := alloc (Stream StreamContext.new) w in
      w ← stream_await_suspend h l w;
      mret (set_frame h (mk_frame p rs (Some (StreamAwaiter l))) w)
  end.

(** ** Resuming *)

(** [await_resume] of each awaiter: the value, and the awaiter it leaves behind
    ([AwaitableOperation] forgets its context, unless it timed out). *)
Definition await_resume (a : awaiter) (w : world) : outcome (result * awaiter) :=
  match a with
  | AwaitableOperation None => Fault NullDeref
  | AwaitableOperation (Some l) =>
      c ← load_async l w;
      if AsyncContext.timed_out c then
        mret (RStatus (mkStatus DEADLINE_EXCEEDED "Operation timed out"),
              AwaitableOperation (Some l))
      else mret (RStatus (AsyncContext.grpc_status c), AwaitableOperation None)
  | StreamAwaiter l => c ← load_stream l w; mret (ROk (StreamContext.ok c), a)
  | StreamFinishAwaiter st l => mret (RStatus st, a)
  end.

(** At the end of the [co_await] expression the awaiter is destroyed, and a
    stream awaiter's context with it. *)
Definition destroy_awaiter (a : awaiter) (w : world) : outcome world :=
  match a with
  | AwaitableOperation _ => mret w
  | StreamAwaiter l | StreamFinishAwaiter _ l => free l w
  end.

(** [handle.resume()] *)
Definition resume (h : handle) (w : world) : outcome world :=
  match frames w !! h with
  | None => Fault UseAfterFree
  | Some f =>
      match awaiting f with
      | None => Fault ResumedWhileRunning
      | Some a =>
          '(r, a) ← await_resume a w;
          w ← destroy_awaiter a w;
          run_frame h (code f) (results f ++ [r]) w
      end
  end.

(** [if (handle && !handle.done()) handle.resume();] *)
Definition resume_if_suspended (ho : option handle) (w : world) : outcome world :=
  match ho with
  | None => mret w
  | Some h =>
      match frames w !! h with
      | None => Fault UseAfterFree
      | Some f => if done f then mret w else resume h w
      end
  end.

(** ** The poller *)

Definition process_tag (tag : option loc) (ok : bool) (w : world) : outcome world :=
  match tag with
  | None => mret w
  | Some l =>
      match heap w !! l with
      | None => Fault UseAfterFree
      | Some (Async c) =>
          let st := if ok then Status_OK
                    else mkStatus CANCELLED "Async operation failed" in
          let w := store l (Async (AsyncContext.mk (AsyncContext.caller_handle c) st ok
                                     (AsyncContext.timed_out c))) w in
          w ← resume_if_suspended (AsyncContext.caller_handle c) w;
          free l w
      | Some (Stream c) =>
          let w := store l (Stream (StreamContext.mk (StreamContext.caller_handle c) ok)) w in
          resume_if_suspended (StreamContext.caller_handle c) w
      | Some (Foreign _) => mret w
      end
  end.

(** [AwaitableOperation::cancel_with_timeout], called on the awaiter of a
    suspended frame. *)
Definition cancel_with_timeout (a : awaiter) (w : world) : outcome world :=
  match a with
  | AwaitableOperation (Some l) =>
      c ← load_async l w;
      let w := store l (Async (AsyncContext.mk (AsyncContext.caller_handle c)
                                 (mkStatus DEADLINE_EXCEEDED "Timed out")
                                 (AsyncContext.ok c) true)) w in
      resume_if_suspended (AsyncContext.caller_handle c) w
  | _ => mret w
  end.

(** What [AsyncNext] answers.  With a tag, gRPC has written the final status of
    a [Finish] into the caller's variable. *)
Inductive next_status :=
  | GOT_EVENT (tag : option loc) (ok : bool) (final : Status)
  | SHUTDOWN
  | TIMEOUT.

(** gRPC gives a tag back. *)
Definition write_final (l : loc) (final : Status) (f : frame) : frame :=
  match awaiting f with
  | Some (StreamFinishAwaiter _ l') =>
      if decide (l = l') then mk_frame (code f) (results f) (Some (StreamFinishAwaiter final l'))
      else f
  | _ => f
  end.

Definition return_tag (tag : option loc) (final : Status) (w : world) : world :=
  match tag with
  | None => w
  | Some l => set_frames (write_final l final <$> frames w) (set_started (started w ∖ {[l]}) w)
  end.

Definition got_event (tag : option loc) (ok : bool) (final : Status) (w : world) : outcome world :=
  process_tag tag ok (return_tag tag final w).

(** [drain_remaining_tags] over the answers of [AsyncNext]: how many it drained. *)
Fixpoint drain_remaining_tags (answers : list next_status) (w : world) : outcome (nat * world) :=
  match answers with
  | GOT_EVENT tag ok final :: answers =>
      w ← got_event tag ok final w;
      '(n, w) ← drain_remaining_tags answers w;
      mret (S n, w)
  | _ => mret (0, w)
  end.

(** One pass of the loop, as the thread lives it: the look at the stop token,
    the coroutines other threads start meanwhile, the answer of [AsyncNext], and
    the answers to a drain that may follow. *)
Record iteration := mk_iteration {
  stop_seen : bool;
  launched : list program;
  answer : next_status;
  drain_answers : list next_status;
}.

Inductive exit_reason := Running | StopRequested | QueueShutdown (drained : nat).

(** Starting a coroutine: a fresh frame runs to its first suspension. *)
Definition launch1 (p : program) (w : world) : outcome world :=
  run_frame (next w) p [] (mk_world (heap w) (next w + 1) (started w) (frames w)).

Fixpoint launch (ps : list program) (w : world) : outcome world :=
  match ps with
  | [] => mret w
  | p :: ps => w ← launch1 p w; launch ps w
  end.

Fixpoint poll_loop (its : list iteration) (w : world) : outcome (exit_reason * world) :=
  match its with
  | [] => mret (Running, w)
  | it :: its =>
      if stop_seen it then mret (StopRequested, w)
      else
        w ← launch (launched it) w;
        match answer it with
        | GOT_EVENT tag ok final => w ← got_event tag ok final w; poll_loop its w
        | SHUTDOWN =>
            '(n, w) ← drain_remaining_tags (drain_answers it) w;
            mret (QueueShutdown n, w)
        | TIMEOUT => poll_loop its w
        end
  end.

End coro.

(** ** The memory invariant *)

Section invariant.
  Context `{G : GrpcStatus}.
  Implicit Types w : world.

(** The context an awaiter of frame [h] has handed to gRPC. *)
Definition context_of (h : handle) (a : awaiter) (l : loc) (o : object) : Prop :=
  match a, o with
  | AwaitableOperation (Some l'), Async c =>
      l' = l ∧ AsyncContext.caller_handle c = Some h ∧ AsyncContext.timed_out c = false
  | StreamAwaiter l', Stream c | StreamFinishAwaiter _ l', Stream c =>
      l' = l ∧ StreamContext.caller_handle c = Some h
  | _, _ => False
  end.

(** Frame [h] is suspended on an operation gRPC has. *)
Definition waits w (h : handle) (a : awaiter) (l : loc) : Prop :=
  l ∈ started w ∧ ∃ o, heap w !! l = Some o ∧ context_of h a l o.

(** [busy] is the frame that is running, if one is, and [dying] a context that
    has come back and is not yet freed. *)
Record coro_inv (busy : option handle) (dying : option loc) w : Prop := {
  inv_frame h f a :
    Some h ≠ busy → frames w !! h = Some f → awaiting f = Some a → ∃ l, waits w h a l;
  inv_started l :
    l ∈ started w → Some l ≠ dying
    ∧ ∃ h f a, Some h ≠ busy ∧ frames w !! h = Some f ∧ awaiting f = Some a ∧ waits w h a l;
  inv_heap l : is_Some (heap w !! l) → l ∈ started w ∨ Some l = dying;
  inv_heap_fresh l : is_Some (heap w !! l) → (l < next w)%Z;
  inv_frame_fresh h : is_Some (frames w !! h) → (h < next w)%Z;
}.

(** What a coroutine gets from a completion. *)
Definition completion_result (a : awaiter) (ok : bool) (final : Status) : result :=
  match a with
  | AwaitableOperation _ =>
      RStatus (if ok then Status_OK else mkStatus CANCELLED "Async operation failed")
  | StreamAwaiter _ => ROk ok
  | StreamFinishAwaiter _ _ => RStatus final
  end.

(** The results of a frame that has run on to its next suspension. *)
Definition ran_on (p : program) (rs : list result) (f : frame) : Prop :=
  code f = p
  ∧ match p rs with
    | Some UnaryThrows => results f = rs ++ [RThrew] ∧ awaiting f = None
    | Some _ => results f = rs ∧ is_Some (awaiting f)
    | None => results f = rs ∧ awaiting f = None
    end.

Lemma started_bound busy dying w l :
  coro_inv busy dying w → l ∈ started w → (l < next w)%Z.
Proof.
  intros Hinv Hl. destruct (inv_started _ _ _ Hinv l Hl) as (_ & h & f & a & _ & _ & _ & Hw).
  destruct Hw as (_ & o & Ho & _). apply (inv_heap_fresh _ _ _ Hinv). by rewrite Ho.
Qed.

(** A running frame that finishes. *)
Lemma inv_finish h dying w p rs :
  coro_inv (Some h) dying w → (h < next w)%Z →
  coro_inv None dying (set_frame h (mk_frame p rs None) w).
Proof.
  intros Hinv Hh. split; simpl.
  - intros h' f a _ Hf Ha. apply lookup_insert_Some in Hf as [[<- <-]|[Hne Hf]]; [done|].
    eapply (inv_frame _ _ _ Hinv); [|done..]. congruence.
  - intros l Hl. destruct (inv_started _ _ _ Hinv l Hl) as (? & h' & f & a & Hb & Hf & Ha & Hw).
    split; [done|]. exists h', f, a. split_and!; [done| |done|done].
    rewrite lookup_insert_ne by congruence. done.
  - apply (inv_heap _ _ _ Hinv).
  - apply (inv_heap_fresh _ _ _ Hinv).
  - intros h' Hf. destruct (decide (h = h')) as [<-|]; [done|].
    rewrite lookup_insert_ne in Hf by done. by apply (inv_frame_fresh _ _ _ Hinv).
Qed.

(** A running frame that suspends in an awaiter over a new context. *)
Lemma inv_suspend h dying w p rs a o :
  coro_inv (Some h) dying w → (h < next w)%Z →
  (∀ l, dying = Some l → (l < next w)%Z) →
  context_of h a (next w) o →
  coro_inv None dying
    (mk_world (<[next w := o]> (heap w)) (next w + 1) ({[next w]} ∪ started w)
       (<[h := mk_frame p rs (Some a)]> (frames w))).
Proof.
  intros Hinv Hh Hdy Hctx.
  assert (∀ h' a' l, waits w h' a' l →
    waits (mk_world (<[next w := o]> (heap w)) (next w + 1) ({[next w]} ∪ started w)
             (<[h := mk_frame p rs (Some a)]> (frames w))) h' a' l) as Hwaits.
  { intros h' a' l (Hl & o' & Ho & Hc). split; [set_solver|]. exists o'. split; [|done].
    simpl. rewrite lookup_insert_ne; [done|].
    assert (l < next w)%Z by (by eapply started_bound). lia. }
  split; simpl.
  - intros h' f a' _ Hf Ha. apply lookup_insert_Some in Hf as [[<- <-]|[Hne Hf]].
    + injection Ha as <-. exists (next w). split; simpl; [set_solver|].
      exists o. by rewrite lookup_insert_eq.
    + destruct (inv_frame _ _ _ Hinv h' f a') as [l Hw]; [congruence|done..|].
      exists l. by apply Hwaits.
  - intros l [->%elem_of_singleton|Hl]%elem_of_union.
    + split; [intros Heq; specialize (Hdy _ (eq_sym Heq)); lia|].
      exists h, (mk_frame p rs (Some a)), a. split_and!; [done|by rewrite lookup_insert_eq|done|].
      split; simpl; [set_solver|]. exists o. by rewrite lookup_insert_eq.
    + destruct (inv_started _ _ _ Hinv l Hl) as (? & h' & f & a' & Hb & Hf & Ha & Hw).
      split; [done|]. exists h', f, a'. split_and!; [done| |done|by apply Hwaits].
      rewrite lookup_insert_ne by congruence. done.
  - intros l Hl. destruct (decide (l = next w)) as [->|Hne]; [set_solver|].
    rewrite lookup_insert_ne in Hl by done.
    destruct (inv_heap _ _ _ Hinv l Hl); [set_solver|by right].
  - intros l Hl. destruct (decide (l = next w)) as [->|Hne]; [lia|].
    rewrite lookup_insert_ne in Hl by done.
    assert (l < next w)%Z by (by eapply inv_heap_fresh). lia.
  - intros h' Hf. destruct (decide (h = h')) as [<-|]; [lia|].
    rewrite lookup_insert_ne in Hf by done.
    assert (h' < next w)%Z by (by eapply inv_frame_fresh). lia.
Qed.

(** Addresses may be skipped. *)
Lemma inv_skip busy dying w n :
  coro_inv busy dying w → (next w ≤ n)%Z →
  coro_inv busy dying (mk_world (heap w) n (started w) (frames w)).
Proof.
  intros Hinv Hn. split; simpl.
  - apply (inv_frame _ _ _ Hinv).
  - apply (inv_started _ _ _ Hinv).
  - apply (inv_heap _ _ _ Hinv).
  - intros l Hl. assert (l < next w)%Z by (by eapply inv_heap_fresh). lia.
  - intros l Hl. assert (l < next w)%Z by (by eapply inv_frame_fresh). lia.
Qed.

Lemma next_fresh busy dying w : coro_inv busy dying w → heap w !! next w = None.
Proof.
  intros Hinv. apply eq_None_not_Some. intros Hs.
  assert (next w < next w)%Z by (by eapply inv_heap_fresh). lia.
Qed.

(** ** Running, resuming and completing keep the invariant *)

(** What [run_frame] leaves alone: the other frames, and the live contexts. *)
Record frame_step (h : handle) (p : program) (rs : list result) w w' : Prop := {
  fs_frame : ∃ f, frames w' = <[h := f]> (frames w) ∧ ran_on p rs f;
  fs_heap l : (l < next w)%Z → heap w' !! l = heap w !! l;
  fs_next : (next w ≤ next w')%Z;
}.

Lemma free_fresh busy dying w o :
  coro_inv busy dying w → delete (next w) (<[next w := o]> (heap w)) = heap w.
Proof. intros Hinv. apply delete_insert_id. by eapply next_fresh. Qed.

Lemma run_frame_spec h dying p rs w :
  coro_inv (Some h) dying w → (h < next w)%Z →
  (∀ l, dying = Some l → (l < next w)%Z) →
  ∃ w', run_frame h p rs w = Ok w' ∧ coro_inv None dying w' ∧ frame_step h p rs w w'.
Proof.
  intros Hinv Hh Hdy. unfold run_frame, ran_on.
  destruct (p rs) as [[| | | | |st]|] eqn:Hp; simpl;
    unfold await_suspend, stream_await_suspend, load_async, load_stream, free, start_tag, store;
    simpl;
    rewrite ?lookup_insert_eq; simpl; rewrite ?insert_insert_eq, ?lookup_insert_eq; simpl;
    (eexists; split; [reflexivity|]).
  2: { (* start_fn threw: the context is gone and the frame has finished *)
    unfold set_frame, set_frames, set_heap. simpl. erewrite free_fresh by done.
    split.
    - apply (inv_finish h dying (mk_world (heap w) (next w + 1) (started w) (frames w)));
        simpl; [apply inv_skip; [done|lia]|lia].
    - split; simpl; [|done|lia]. eexists. split; [reflexivity|]. unfold ran_on. by rewrite Hp. }
  6: { split; [by apply inv_finish|].
    split; simpl; [|done|lia]. eexists. split; [reflexivity|]. unfold ran_on. by rewrite Hp. }
  all: unfold set_frame, set_frames, set_started, set_heap; simpl;
    rewrite ?insert_insert_eq; split;
    [ apply inv_suspend; try done; by simpl
    | split; simpl;
      [ eexists; split; [reflexivity|]; unfold ran_on; rewrite Hp; done
      | intros l Hl; rewrite lookup_insert_ne by lia; done
      | lia ] ].
Qed.

(** The next address is fresh for a new frame. *)
Lemma launch1_spec p w :
  coro_inv None None w →
  ∃ w', launch1 p w = Ok w' ∧ coro_inv None None w'
        ∧ ∃ f, frames w' = <[next w := f]> (frames w) ∧ ran_on p [] f.
Proof.
  intros Hinv. set (w1 := mk_world (heap w) (next w + 1) (started w) (frames w)).
  assert (coro_inv (Some (next w)) None w1) as Hinv1.
  { assert (coro_inv None None w1) as Hw1 by (apply inv_skip; [done|lia]).
    assert (∀ h f, frames w !! h = Some f → Some h ≠ Some (next w)) as Hne.
    { intros h f Hf [= ->]. assert (next w < next w)%Z; [|lia].
      apply (inv_frame_fresh _ _ _ Hinv). by rewrite Hf. }
    split; try apply Hw1.
    - intros h f a _. apply (inv_frame _ _ _ Hw1). done.
    - intros l Hl. destruct (inv_started _ _ _ Hw1 l Hl) as (? & h & f & a & _ & Hf & Ha & Hw).
      split; [done|]. exists h, f, a. split_and!; [by eapply Hne|done..]. }
  destruct (run_frame_spec (next w) None p [] w1) as (w' & Hrun & Hinv' & Hstep);
    [done|simpl; lia|done|].
  exists w'. split_and!; [done|done|apply Hstep].
Qed.

Lemma launch_inv ps w :
  coro_inv None None w → ∃ w', launch ps w = Ok w' ∧ coro_inv None None w'.
Proof.
  revert w. induction ps as [|p ps IH]; intros w Hinv; simpl; [by eexists|].
  destruct (launch1_spec p w Hinv) as (w1 & -> & Hinv1 & _). by apply IH.
Qed.

Lemma context_owner h h' a a' l l' o :
  context_of h a l o → context_of h' a' l' o → h' = h.
Proof. destruct a as [[]| |], a' as [[]| |], o; simpl; try done; intros; decompose_hyps; congruence. Qed.

Lemma waits_owner w h h' a a' l : waits w h a l → waits w h' a' l → h' = h.
Proof.
  intros (_ & o & Ho & Hc) (_ & o' & Ho' & Hc'). rewrite Ho in Ho'. injection Ho' as <-.
  by eapply context_owner.
Qed.

Lemma waits_context w h a l l' : waits w h a l → waits w h a l' → l' = l.
Proof.
  intros (_ & o & _ & Hc) (_ & o' & _ & Hc').
  destruct a as [[]| |], o, o'; simpl in *; try done; decompose_hyps; congruence.
Qed.

(** gRPC's write to a status variable concerns the owner's frame only. *)
Lemma write_final_other l final w h a h' f' :
  coro_inv None None w → waits w h a l →
  h' ≠ h → frames w !! h' = Some f' → write_final l final f' = f'.
Proof.
  intros Hinv Hw Hne Hf'. unfold write_final.
  destruct (awaiting f') as [a'|] eqn:Ha'; [|done].
  destruct a' as [| |st l']; [done..|]. case_decide as Hl; [|done]. subst l'. exfalso.
  destruct (inv_frame _ _ _ Hinv h' f' _ ltac:(done) Hf' Ha') as [l' Hw'].
  assert (l' = l) as ->.
  { destruct Hw' as (_ & o & _ & Hc). destruct o; simpl in Hc; [done|by destruct Hc|done]. }
  apply Hne. by eapply waits_owner.
Qed.

(** The frame whose tag comes back is about to run. *)
Lemma return_tag_spec l final w h f a :
  coro_inv None None w → frames w !! h = Some f → awaiting f = Some a → waits w h a l →
  let w1 := return_tag (Some l) final w in
  coro_inv (Some h) (Some l) w1 ∧ frames w1 = <[h := write_final l final f]> (frames w).
Proof.
  intros Hinv Hf Ha Hw w1.
  pose proof (λ h' f', write_final_other l final w h a h' f' Hinv Hw) as Hother.
  assert (frames w1 = <[h := write_final l final f]> (frames w)) as Hframes.
  { simpl. apply map_eq. intros h'. rewrite lookup_fmap, lookup_insert. case_decide as Hh.
    - subst h'. by rewrite Hf.
    - destruct (frames w !! h') as [f'|] eqn:Hf'; [|done]. simpl. f_equal. by eapply Hother. }
  split; [|done].
  assert (∀ h' a' l', h' ≠ h → waits w h' a' l' → waits w1 h' a' l' ∧ l' ≠ l) as Hkeep.
  { intros h' a' l' Hne Hw'. assert (l' ≠ l) as Hl.
    { intros ->. apply Hne. by eapply waits_owner. }
    destruct Hw' as (Hs & Ho). split; [|done]. split; [simpl; set_solver|done]. }
  split.
  - intros h' f' a' Hne Hf' Ha'. rewrite Hframes in Hf'.
    rewrite lookup_insert_ne in Hf' by congruence.
    destruct (inv_frame _ _ _ Hinv h' f' a' ltac:(done) Hf' Ha') as [l' Hw'].
    exists l'. apply Hkeep; [congruence|done].
  - intros l' Hl'. simpl in Hl'. apply elem_of_difference in Hl' as [Hl' Hne].
    rewrite elem_of_singleton in Hne.
    destruct (inv_started _ _ _ Hinv l' Hl') as (_ & h' & f' & a' & _ & Hf' & Ha' & Hw').
    split; [congruence|]. assert (h' ≠ h) as Hh.
    { intros ->. simplify_eq. apply Hne. by eapply waits_context. }
    exists h', f', a'. rewrite Hframes, lookup_insert_ne by done.
    split_and!; [congruence|done|done|by apply Hkeep].
  - intros l' Hl'. destruct (inv_heap _ _ _ Hinv l' Hl') as [Hs|]; [|done].
    destruct (decide (l' = l)) as [->|]; [by right|left; simpl; set_solver].
  - apply (inv_heap_fresh _ _ _ Hinv).
  - intros h' Hf'. apply (inv_frame_fresh _ _ _ Hinv). simpl in Hf'. rewrite lookup_fmap in Hf'.
    by apply fmap_is_Some in Hf'.
Qed.

(** Changing the heap at a context that is coming back. *)
Lemma inv_change_dying busy l w hp :
  coro_inv busy (Some l) w → is_Some (heap w !! l) →
  (∀ l', l' ≠ l → hp !! l' = heap w !! l') →
  coro_inv busy (Some l) (set_heap hp w).
Proof.
  intros Hinv Hl Hhp.
  assert (∀ h a l', waits w h a l' → waits (set_heap hp w) h a l') as Hkeep.
  { intros h a l' (Hs & o & Ho & Hc). split; [done|]. exists o. split; [|done]. simpl.
    rewrite Hhp; [done|]. destruct (inv_started _ _ _ Hinv l' Hs) as [Hne _]. congruence. }
  split.
  - intros h f a Hb Hf Ha. destruct (inv_frame _ _ _ Hinv h f a Hb Hf Ha) as [l' Hw].
    exists l'. by apply Hkeep.
  - intros l' Hs. destruct (inv_started _ _ _ Hinv l' Hs) as (? & h & f & a & ? & ? & ? & ?).
    split; [done|]. exists h, f, a. split_and!; [done..|by apply Hkeep].
  - intros l' Hl'. destruct (decide (l' = l)) as [->|Hne]; [by right|].
    simpl in Hl'. rewrite Hhp in Hl' by done. by apply (inv_heap _ _ _ Hinv).
  - intros l' Hl'. apply (inv_heap_fresh _ _ _ Hinv).
    destruct (decide (l' = l)) as [->|Hne]; [done|]. simpl in Hl'. by rewrite Hhp in Hl'.
  - apply (inv_frame_fresh _ _ _ Hinv).
Qed.

Lemma inv_free_dying busy l w :
  coro_inv busy (Some l) w → is_Some (heap w !! l) →
  free l w = Ok (set_heap (delete l (heap w)) w)
  ∧ coro_inv busy None (set_heap (delete l (heap w)) w).
Proof.
  intros Hinv Hl. unfold free. destruct Hl as [o Ho]. rewrite Ho. split; [done|].
  pose proof (inv_change_dying busy l w (delete l (heap w)) Hinv) as Hd.
  destruct Hd as [H1 H2 H3 H4 H5]; [by rewrite Ho|by intros ? ?; apply lookup_delete_ne|].
  split; [done| |..|done|done].
  - intros l' Hs. destruct (H2 l' Hs) as [_ Hr]. by split.
  - intros l' Hl'. destruct (H3 l' Hl') as [|[= ->]]; [by left|].
    simpl in Hl'. rewrite lookup_delete_eq in Hl'. by destruct Hl'.
Qed.

(** What a completion does to the frame of its owner. *)
Definition delivered (h : handle) (f : frame) (r : result) (l : loc) w w' : Prop :=
  (∃ f', frames w' = <[h := f']> (frames w) ∧ ran_on (code f) (results f ++ [r]) f')
  ∧ heap w' !! l = None ∧ l ∉ started w'.

(** A heap-allocated context coming back: the frame resumes with the status the
    poller wrote, runs on, and then the context is deleted. *)
Lemma process_async h f l ok w c :
  coro_inv (Some h) (Some l) w → heap w !! l = Some (Async c) →
  frames w !! h = Some f → awaiting f = Some (AwaitableOperation (Some l)) →
  AsyncContext.caller_handle c = Some h → AsyncContext.timed_out c = false →
  l ∉ started w →
  ∃ w', process_tag (Some l) ok w = Ok w' ∧ coro_inv None None w'
        ∧ delivered h f (completion_result (AwaitableOperation (Some l)) ok Status_OK) l w w'.
Proof.
  intros Hinv Hl Hf Ha Hh Hto Hs. unfold process_tag. rewrite Hl, Hh, Hto.
  set (st := if ok then _ else _). set (c' := AsyncContext.mk _ _ _ _).
  assert (l < next w)%Z as Hlt by (apply (inv_heap_fresh _ _ _ Hinv); by rewrite Hl).
  assert (coro_inv (Some h) (Some l) (store l (Async c') w)) as Hinv1.
  { apply inv_change_dying; [done|by rewrite Hl|].
    intros l' Hne. by rewrite lookup_insert_ne. }
  destruct (run_frame_spec h (Some l) (code f) (results f ++ [RStatus st])
              (store l (Async c') w)) as (w1 & Hrun & Hinv2 & Hstep);
    [done|apply (inv_frame_fresh _ _ _ Hinv); by rewrite Hf|by intros ? [= <-]|].
  unfold resume_if_suspended. change (frames (store l (Async c') w)) with (frames w).
  unfold done, resume. change (frames (store l (Async c') w)) with (frames w).
  rewrite Hf, Ha. simpl. unfold load_async. simpl.
  rewrite lookup_insert_eq. simpl. rewrite Hrun. simpl.
  assert (heap w1 !! l = Some (Async c')) as Hl1.
  { rewrite (fs_heap _ _ _ _ _ Hstep) by done. simpl. by rewrite lookup_insert_eq. }
  destruct (inv_free_dying None l w1 Hinv2) as [Hfree Hinv3]; [by rewrite Hl1|].
  eexists. split; [exact Hfree|]. split; [done|]. split_and!.
  - destruct (fs_frame _ _ _ _ _ Hstep) as (f' & Hf' & Hr). by exists f'.
  - simpl. by rewrite lookup_delete_eq.
  - intros Hs1. by destruct (inv_started _ _ _ Hinv2 l Hs1) as [? _].
Qed.

(** A stream awaiter's context coming back: the frame resumes, the awaiter and
    its context are destroyed, and the frame runs on. *)
Lemma process_stream h f a l ok w c r :
  coro_inv (Some h) (Some l) w → heap w !! l = Some (Stream c) →
  frames w !! h = Some f → awaiting f = Some a →
  (a = StreamAwaiter l ∧ r = ROk ok ∨ ∃ st, a = StreamFinishAwaiter st l ∧ r = RStatus st) →
  StreamContext.caller_handle c = Some h → l ∉ started w →
  ∃ w', process_tag (Some l) ok w = Ok w' ∧ coro_inv None None w' ∧ delivered h f r l w w'.
Proof.
  intros Hinv Hl Hf Ha Hcase Hh Hs. unfold process_tag. rewrite Hl, Hh.
  set (c' := StreamContext.mk _ _).
  assert (l < next w)%Z as Hlt by (apply (inv_heap_fresh _ _ _ Hinv); by rewrite Hl).
  assert (coro_inv (Some h) (Some l) (store l (Stream c') w)) as Hinv1.
  { apply inv_change_dying; [done|by rewrite Hl|].
    intros l' Hne. by rewrite lookup_insert_ne. }
  destruct (inv_free_dying _ l _ Hinv1) as [Hfree Hinv2];
    [simpl; by rewrite lookup_insert_eq|].
  set (w1 := set_heap _ _) in Hfree, Hinv2.
  destruct (run_frame_spec h None (code f) (results f ++ [r]) w1)
    as (w2 & Hrun & Hinv3 & Hstep);
    [done|apply (inv_frame_fresh _ _ _ Hinv); by rewrite Hf|done|].
  unfold resume_if_suspended, done, resume.
  change (frames (store l (Stream c') w)) with (frames w).
  exists w2. split; [|split; [done|split_and!]].
  - rewrite Hf, Ha. simpl.
    destruct Hcase as [[-> ->]|(st & -> & ->)]; simpl.
    + unfold load_stream. simpl. rewrite lookup_insert_eq. simpl. rewrite Hfree. done.
    + rewrite Hfree. done.
  - destruct (fs_frame _ _ _ _ _ Hstep) as (f' & Hf' & Hr). by exists f'.
  - rewrite (fs_heap _ _ _ _ _ Hstep) by done. simpl. by rewrite lookup_delete_eq.
  - intros Hs2. destruct (inv_started _ _ _ Hinv3 l Hs2) as (_ & h' & f' & a' & _ & _ & _ & Hw).
    destruct Hw as (_ & o & Ho & _). rewrite (fs_heap _ _ _ _ _ Hstep) in Ho by done.
    simpl in Ho. by rewrite lookup_delete_eq in Ho.
Qed.

Lemma code_write_final l final f : code (write_final l final f) = code f.
Proof. unfold write_final. by repeat case_match. Qed.

Lemma results_write_final l final f : results (write_final l final f) = results f.
Proof. unfold write_final. by repeat case_match. Qed.

Lemma got_event_spec l ok final w :
  coro_inv None None w → l ∈ started w →
  ∃ h f a w',
    frames w !! h = Some f ∧ awaiting f = Some a ∧ waits w h a l
    ∧ got_event (Some l) ok final w = Ok w' ∧ coro_inv None None w'
    ∧ delivered h f (completion_result a ok final) l w w'.
Proof.
  intros Hinv Hl.
  destruct (inv_started _ _ _ Hinv l Hl) as (_ & h & f & a & _ & Hf & Ha & Hw).
  destruct (return_tag_spec l final w h f a) as [Hinv1 Hframes]; [done..|].
  pose proof Hw as (_ & o & Ho & Hctx).
  exists h, f, a. unfold got_event. set (w1 := return_tag _ _ _) in *.
  assert (heap w1 !! l = Some o) as Ho1 by done.
  assert (l ∉ started w1) as Hs1 by (simpl; set_solver).
  assert (frames w1 !! h = Some (write_final l final f)) as Hf1
    by (by rewrite Hframes, lookup_insert_eq).
  assert (∀ r w', delivered h (write_final l final f) r l w1 w' → delivered h f r l w w') as Hdel.
  { intros r w' ((f' & Hf' & Hr) & Hrest). split; [|done]. exists f'.
    rewrite code_write_final, results_write_final in Hr. split; [|done].
    by rewrite Hf', Hframes, insert_insert_eq. }
  assert (∃ w', process_tag (Some l) ok w1 = Ok w' ∧ coro_inv None None w'
    ∧ delivered h (write_final l final f) (completion_result a ok final) l w1 w') as Hproc.
  { unfold context_of in Hctx.
    destruct a as [[l'|]|l'|st l'], o as [c|c|b]; try done.
    - destruct Hctx as (-> & Hh & Hto).
      apply (process_async h _ l ok w1 c); [done..| |done|done|done].
      unfold write_final. by rewrite Ha.
    - destruct Hctx as (-> & Hh).
      apply (process_stream h _ (StreamAwaiter l) l ok w1 c); [done..| |by left|done|done].
      unfold write_final. by rewrite Ha.
    - destruct Hctx as (-> & Hh).
      apply (process_stream h _ (StreamFinishAwaiter final l) l ok w1 c);
        [done..| |right; by exists final|done|done].
      unfold write_final. rewrite Ha. by rewrite decide_True. }
  destruct Hproc as (w' & Hp & Hinv' & Hd). exists w'. split_and!; auto.
Qed.

End invariant.

(** * Properties *)

Section claims.
  Context `{G : GrpcStatus}.
  Implicit Types w : world.

(** C37: a completion from the queue is handled without a memory fault and
    resumes exactly the coroutine that awaits it: it gets one result (the
    outcome flag of a stream operation, the final status of a [Finish]; for a
    unary call OK or CANCELLED, whatever status the call itself ended with) and
    runs on to its next operation or its end; the context is gone, and every
    other coroutine is as it was. *)
Theorem completion_delivered l ok final w :
  coro_inv None None w → l ∈ started w →
  ∃ h f a w',
    frames w !! h = Some f ∧ awaiting f = Some a ∧ waits w h a l
    ∧ got_event (Some l) ok final w = Ok w' ∧ coro_inv None None w'
    ∧ delivered h f (completion_result a ok final) l w w'.
Proof. apply got_event_spec. Qed.

(** What gRPC documents of the answers of [AsyncNext]: a tag comes back only
    while an operation started with it is pending, and SHUTDOWN means that the
    queue is drained, for good. *)
Fixpoint cq_answers (its : list iteration) w : bool :=
  match its with
  | [] => true
  | it :: its =>
      stop_seen it ||
      match launch (launched it) w with
      | Fault _ => true
      | Ok w1 =>
          match answer it with
          | GOT_EVENT None _ _ => false
          | GOT_EVENT (Some l) ok final =>
              bool_decide (l ∈ started w1)
              && match got_event (Some l) ok final w1 with
                 | Ok w2 => cq_answers its w2
                 | Fault _ => true
                 end
          | SHUTDOWN =>
              bool_decide (started w1 = ∅)
              && forallb (λ a, if a is SHUTDOWN then true else false) (drain_answers it)
          | TIMEOUT => cq_answers its w1
          end
      end
  end.

Lemma inv_nothing_started w :
  coro_inv None None w → started w = ∅ →
  heap w = ∅ ∧ ∀ h f, frames w !! h = Some f → awaiting f = None.
Proof.
  intros Hinv Hs. split.
  - apply map_empty. intros l. apply eq_None_not_Some. intros Hl.
    destruct (inv_heap _ _ _ Hinv l Hl) as [Hl'|]; [|done]. rewrite Hs in Hl'. set_solver.
  - intros h f Hf. destruct (awaiting f) as [a|] eqn:Ha; [|done].
    destruct (inv_frame _ _ _ Hinv h f a) as [l [Hl _]]; [done..|].
    rewrite Hs in Hl. set_solver.
Qed.

(** How the loop ended, given the iterations it lived through.  After a stop
    request the world is the one the earlier iterations left. *)
Definition exit_of (its : list iteration) w (why : exit_reason) w' : Prop :=
  match why with
  | Running => Forall (λ it, stop_seen it = false ∧ answer it ≠ SHUTDOWN) its
  | StopRequested =>
      ∃ its1 it its2, its = its1 ++ it :: its2 ∧ stop_seen it = true
        ∧ poll_loop its1 w = Ok (Running, w')
  | QueueShutdown drained =>
      drained = 0 ∧ heap w' = ∅ ∧ ∀ h f, frames w' !! h = Some f → awaiting f = None
  end.

Lemma exit_of_cons it its w w2 why w' :
  (∀ its', poll_loop (it :: its') w = poll_loop its' w2) →
  stop_seen it = false → answer it ≠ SHUTDOWN →
  exit_of its w2 why w' → exit_of (it :: its) w why w'.
Proof.
  intros Hloop Hstop Hans. destruct why; simpl.
  - by constructor.
  - intros (its1 & it' & its2 & -> & Hs & Hp). exists (it :: its1), it', its2.
    split_and!; [done|done|]. by rewrite Hloop.
  - done.
Qed.

(** C5: the poller never faults, whatever the coroutines await and in whatever
    order operations complete: every context that is alive belongs to exactly one
    pending operation, and no other memory is used.  When the loop ends because
    the queue was shut down, its drain finds nothing left, every context has been
    freed and every coroutine has finished.  When it ends because a stop was
    requested it just leaves: the operations still pending then keep their
    contexts and their coroutines suspended. *)
Theorem poll_loop_safe its w :
  coro_inv None None w → cq_answers its w = true →
  ∃ why w', poll_loop its w = Ok (why, w') ∧ coro_inv None None w' ∧ exit_of its w why w'.
Proof.
  revert w. induction its as [|it its IH]; intros w Hinv Hcq; simpl.
  { exists Running, w. split_and!; [done|done|]. by apply Forall_nil. }
  destruct (stop_seen it) eqn:Hstop.
  { exists StopRequested, w. split_and!; [done|done|].
    by exists [], it, its. }
  destruct (launch_inv (launched it) w Hinv) as (w1 & Hl & Hinv1).
  cbn [cq_answers] in Hcq. rewrite Hstop, Hl in Hcq. cbn [orb] in Hcq. rewrite Hl. simpl.
  destruct (answer it) as [[l|] ok final| |] eqn:Hans.
  - apply andb_true_iff in Hcq as [Hstarted%bool_decide_eq_true Hcq].
    destruct (got_event_spec l ok final w1 Hinv1 Hstarted)
      as (h & f & a & w2 & _ & _ & _ & Hgot & Hinv2 & _).
    rewrite Hgot in Hcq |- *. simpl.
    destruct (IH w2 Hinv2 Hcq) as (why & w' & ? & ? & Hexit).
    exists why, w'. split_and!; [done..|].
    apply (exit_of_cons _ _ _ w2); [|done|by rewrite Hans|done].
    intros its'. simpl. rewrite Hstop, Hl. simpl. by rewrite Hans, Hgot.
  - done.
  - apply andb_true_iff in Hcq as [Hempty%bool_decide_eq_true Hdrain].
    assert (drain_remaining_tags (drain_answers it) w1 = Ok (0, w1)) as ->.
    { by destruct (drain_answers it) as [|[] ?]. }
    simpl. exists (QueueShutdown 0), w1. unfold exit_of.
    destruct (inv_nothing_started w1 Hinv1 Hempty). by split_and!.
  - destruct (IH w1 Hinv1 Hcq) as (why & w' & ? & ? & Hexit).
    exists why, w'. split_and!; [done..|].
    apply (exit_of_cons _ _ _ w1); [|done|by rewrite Hans|done].
    intros its'. simpl. rewrite Hstop, Hl. simpl. by rewrite Hans.
Qed.

(** The result a timed-out [AwaitableOperation] gives its coroutine. *)
Definition timed_out_result : result :=
  RStatus (mkStatus DEADLINE_EXCEEDED "Operation timed out").

(** Timing out the last operation of a coroutine is safe: it resumes at once
    with DEADLINE_EXCEEDED and finishes; when the operation completes later, the
    poller finds the coroutine done, resumes nothing, and deletes the context. *)
Theorem timeout_of_last_operation h f l ok final w :
  coro_inv None None w →
  frames w !! h = Some f → awaiting f = Some (AwaitableOperation (Some l)) →
  code f (results f ++ [timed_out_result]) = None →
  ∃ w1 w2,
    cancel_with_timeout (AwaitableOperation (Some l)) w = Ok w1
    ∧ got_event (Some l) ok final w1 = Ok w2
    ∧ coro_inv None None w2
    ∧ frames w2 = <[h := mk_frame (code f) (results f ++ [timed_out_result]) None]> (frames w)
    ∧ heap w2 = delete l (heap w) ∧ started w2 = started w ∖ {[l]}.
Proof.
  intros Hinv Hf Ha Hcode.
  destruct (inv_frame _ _ _ Hinv h f _ ltac:(done) Hf Ha) as (l' & Hl' & o & Ho & Hctx).
  destruct o as [c|c|b]; try done. destruct Hctx as (<- & Hh & Hto).
  unfold cancel_with_timeout, load_async. rewrite Ho. simpl. rewrite Hh.
  unfold resume_if_suspended, done, resume. simpl. rewrite Hf, Ha. simpl.
  unfold load_async. simpl. rewrite lookup_insert_eq. simpl. fold timed_out_result.
  unfold run_frame. rewrite Hcode.
  eexists _, _. split; [reflexivity|]. split.
  { unfold got_event, process_tag. simpl. rewrite lookup_insert_eq. simpl.
    unfold resume_if_suspended. simpl. rewrite lookup_fmap, lookup_insert_eq. simpl.
    unfold free. simpl. rewrite lookup_insert_eq. reflexivity. }
  simpl. rewrite !delete_insert_eq.
  assert (waits w h (AwaitableOperation (Some l)) l) as Hw by (split; [done|by exists (Async c)]).
  assert (write_final l final <$> <[h := mk_frame (code f) (results f ++ [timed_out_result]) None]>
            (frames w)
          = <[h := mk_frame (code f) (results f ++ [timed_out_result]) None]> (frames w)) as Hfr.
  { rewrite fmap_insert. simpl. apply map_eq. intros h'. rewrite !lookup_insert.
    case_decide as Hh'; [done|]. rewrite lookup_fmap.
    destruct (frames w !! h') as [f'|] eqn:Hf'; [|done]. simpl. f_equal.
    by eapply write_final_other. }
  split_and!; [|exact Hfr|done|done].
  destruct (return_tag_spec l final w h f _ Hinv Hf Ha Hw) as [Hinv1 Hframes].
  apply (inv_finish h (Some l) _ (code f) (results f ++ [timed_out_result])) in Hinv1;
    [|apply (inv_frame_fresh _ _ _ Hinv); by rewrite Hf].
  apply inv_free_dying in Hinv1 as [_ Hinv2]; [|simpl; by rewrite Ho].
  unfold set_frame, set_frames, set_heap in Hinv2. rewrite Hframes in Hinv2. simpl in Hinv2.
  rewrite insert_insert_eq in Hinv2. unfold set_frames, set_heap, set_started. simpl.
  rewrite Hfr. exact Hinv2.
Qed.

(** C38: timing out an operation that the coroutine does not end with is not: the
    timed-out operation stays with gRPC, and its late completion resumes the
    coroutine a second time, inside the operation it awaits by then.  If that is
    a [Read], the read is reported to have failed before it was answered, its
    context dies with its awaiter, and its own completion reads freed memory. *)
Theorem timeout_resumes_next_operation h f l ok final w :
  coro_inv None None w →
  frames w !! h = Some f → awaiting f = Some (AwaitableOperation (Some l)) →
  code f (results f ++ [timed_out_result]) = Some Read →
  code f (results f ++ [timed_out_result; ROk false]) = None →
  ∃ w1 w2,
    cancel_with_timeout (AwaitableOperation (Some l)) w = Ok w1
    ∧ got_event (Some l) ok final w1 = Ok w2
    ∧ frames w2 !! h
      = Some (mk_frame (code f) (results f ++ [timed_out_result; ROk false]) None)
    ∧ next w ∈ started w2
    ∧ ∀ ok' final', got_event (Some (next w)) ok' final' w2 = Fault UseAfterFree.
Proof.
  intros Hinv Hf Ha Hread Hend.
  destruct (inv_frame _ _ _ Hinv h f _ ltac:(done) Hf Ha) as (l' & Hl' & o & Ho & Hctx).
  destruct o as [c|c|b]; try done. destruct Hctx as (<- & Hh & Hto).
  assert (l < next w)%Z as Hlt by (apply (inv_heap_fresh _ _ _ Hinv); by rewrite Ho).
  unfold cancel_with_timeout, load_async. rewrite Ho. simpl. rewrite Hh.
  unfold resume_if_suspended, done, resume. simpl. rewrite Hf, Ha. simpl.
  unfold load_async. simpl. rewrite lookup_insert_eq. simpl. fold timed_out_result.
  unfold run_frame at 1. rewrite Hread. unfold stream_await_suspend, load_stream. simpl.
  rewrite lookup_insert_eq. simpl. 
  eexists _, _. split; [reflexivity|]. split.
  { unfold got_event, process_tag. simpl.
    rewrite !lookup_insert_ne by lia. rewrite lookup_insert_eq. simpl.
    unfold resume_if_suspended. simpl. rewrite lookup_fmap, lookup_insert_eq. simpl.
    unfold load_stream. simpl. rewrite lookup_insert_ne by lia.
    rewrite lookup_insert_eq. simpl.
    unfold free at 2. simpl. rewrite lookup_insert_ne by lia.
    rewrite lookup_insert_eq. simpl.
    unfold run_frame. rewrite <-app_assoc. simpl. rewrite Hend. simpl.
    unfold free. simpl. rewrite lookup_delete_ne by lia. rewrite lookup_insert_eq. reflexivity. }
  simpl. split_and!.
  - by rewrite lookup_insert_eq.
  - assert (next w ≠ l) by lia. set_solver.
  - intros ok' final'. unfold got_event, process_tag. simpl.
    rewrite lookup_delete_ne by lia. by rewrite lookup_delete_eq.
Qed.

End claims.

(** ** The adapter's life

    [shutdown]'s [once_flag] is a static local of a member function: one flag for
    the whole process, not one per adapter. *)

Module CoroAdapter.

Record t := mk {
  cq_shut_down : bool;            (* cq_->Shutdown() has been called *)
  poller_thread_ : JThread.t;
}.

Definition CoroAdapter : t := mk false JThread.spawned.

Definition shutdown (shutdown_flag : bool) (a : t) : bool * t :=
  if shutdown_flag then (shutdown_flag, a) else (true, mk true (poller_thread_ a)).

Definition is_running (a : t) : bool :=
  JThread.joinable (poller_thread_ a) && negb (JThread.stop_requested (poller_thread_ a)).

(** A reference to the queue, of which the model keeps whether it was shut down. *)
Definition get_completion_queue (a : t) : bool := cq_shut_down a.

(** The destructor, and then the destruction of the members: the thread is asked
    to stop and joined, before the queue is destroyed. *)
Definition destroy (shutdown_flag : bool) (a : t) : bool * t :=
  let '(shutdown_flag, a) := shutdown shutdown_flag a in
  (shutdown_flag, mk (cq_shut_down a) (JThread.destroy (poller_thread_ a))).

End CoroAdapter.

Section lifecycle.
  Import CoroAdapter.

(** The process: the flag, and all adapters made so far (a destroyed one stays
    in the list, as it was when its queue was destroyed). *)
Record process := mk_process { shutdown_flag : bool; adapters : list t }.

Inductive call :=
  | Make
  | CallShutdown (i : nat)
  | CallDestroy (i : nat).

Definition on_adapter (op : bool → t → bool * t) (i : nat) (p : process) : process :=
  match adapters p !! i with
  | Some a =>
      let '(flag, a) := op (shutdown_flag p) a in
      mk_process flag (<[i := a]> (adapters p))
  | None => p
  end.

Definition do_call (p : process) (c : call) : process :=
  match c with
  | Make => mk_process (shutdown_flag p) (adapters p ++ [CoroAdapter])
  | CallShutdown i => on_adapter shutdown i p
  | CallDestroy i => on_adapter destroy i p
  end.

Definition do_calls (cs : list call) : process :=
  foldl do_call (mk_process false []) cs.

(** At most one queue has been shut down, and none while the flag is unset. *)
Definition one_shut_down (p : process) : Prop :=
  (∀ i j a b, adapters p !! i = Some a → adapters p !! j = Some b →
     cq_shut_down a = true → cq_shut_down b = true → i = j)
  ∧ (shutdown_flag p = false → ∀ i a, adapters p !! i = Some a → cq_shut_down a = false).

Lemma one_shut_down_on_adapter op i p :
  (∀ flag a, (op flag a).1 = true ∧ cq_shut_down (op flag a).2 = cq_shut_down a || negb flag) →
  one_shut_down p → one_shut_down (on_adapter op i p).
Proof.
  intros Hop [Hone Hnone]. unfold on_adapter. destruct (adapters p !! i) as [a|] eqn:Ha; [|done].
  destruct (Hop (shutdown_flag p) a) as [Hflag Hshut].
  destruct (op (shutdown_flag p) a) as [flag a'] eqn:Hopa. simpl in *. subst flag.
  assert (∀ j b, <[i := a']> (adapters p) !! j = Some b → cq_shut_down b = true →
    if shutdown_flag p then ∃ b', adapters p !! j = Some b' ∧ cq_shut_down b' = true
    else j = i) as Hback.
  { intros j b. rewrite list_lookup_insert. case_decide as Hj.
    - destruct Hj as [<- _]. intros [= <-]. rewrite Hshut.
      destruct (shutdown_flag p); [|done]. rewrite orb_false_r. by exists a.
    - intros Hb Hs. destruct (shutdown_flag p); [by exists b|].
      by rewrite (Hnone eq_refl j b Hb) in Hs. }
  split; [|done]. intros j1 j2 b1 b2 Hb1 Hb2 Hs1 Hs2. simpl in *.
  apply (Hback _ _ Hb1) in Hs1. apply (Hback _ _ Hb2) in Hs2.
  destruct (shutdown_flag p); [|congruence].
  destruct Hs1 as (c1 & ? & ?), Hs2 as (c2 & ? & ?). by eapply (Hone _ _ c1 c2).
Qed.

Lemma one_shut_down_make p : one_shut_down p → one_shut_down (do_call p Make).
Proof.
  intros [Hone Hnone].
  assert (∀ j b, (adapters p ++ [CoroAdapter]) !! j = Some b → cq_shut_down b = true →
    adapters p !! j = Some b) as Hback.
  { intros j b [Hb|[_ Hb]]%lookup_app_Some; [done|].
    apply list_lookup_singleton_Some in Hb as [_ <-]. done. }
  split; simpl.
  - intros i j a b Ha Hb Hsa Hsb. eapply Hone; [by apply Hback|by apply Hback|done|done].
  - intros Hf i a Ha. destruct (cq_shut_down a) eqn:Hs; [|done].
    by rewrite <-(Hnone Hf i a) by by apply Hback.
Qed.

(** However many adapters the process makes, and however it shuts them down
    and destroys them, the completion queue of at most one is ever shut down:
    once one has been, the destruction of any other leaves its queue running. *)
Theorem at_most_one_queue_shut_down cs :
  let p := do_calls cs in
  (∀ i j a b, adapters p !! i = Some a → adapters p !! j = Some b →
     cq_shut_down a = true → cq_shut_down b = true → i = j)
  ∧ (shutdown_flag p = true → ∀ i a, adapters p !! i = Some a →
       cq_shut_down (destroy (shutdown_flag p) a).2 = cq_shut_down a).
Proof.
  assert (one_shut_down (do_calls cs)) as [Hone _].
  { unfold do_calls. assert (one_shut_down (mk_process false [])) as Hq by done.
    revert Hq. generalize (mk_process false []) as q.
    induction cs as [|c cs IH]; intros q Hq; simpl; [done|]. apply IH.
    destruct c as [|i|i]; [by apply one_shut_down_make|..];
      (apply one_shut_down_on_adapter; [|done]); by intros [] [[] th]. }
  intros p. split; [exact Hone|]. by intros ->.
Qed.

(** The second adapter's queue is never shut down. *)
Example second_queue_left_running :
  cq_shut_down <$> adapters (do_calls [Make; CallDestroy 0; Make; CallShutdown 1; CallDestroy 1])
  = [true; false].
Proof. reflexivity. Qed.

End lifecycle.

(** * Examples *)

#[local] Instance sample_status : GrpcStatus := concrete_status.

Definition empty_world : world := mk_world ∅ 0 ∅ ∅.

Lemma empty_world_inv : coro_inv None None empty_world.
Proof. split; simpl; try done; intros ? []; done. Qed.

(** A client that makes one unary call, then reads until a read fails, then
    finishes the stream. *)
Definition sample_program : program := λ rs,
  match rs with
  | [] => Some Unary
  | _ => match last rs with
         | Some (ROk false) => Some (Finish Status_OK)
         | Some (ROk true) => Some Read
         | _ => if decide (length rs = 1) then Some Read else None
         end
  end.

Definition launched_world (p : program) : world :=
  match launch [p] empty_world with Ok w => w | Fault _ => empty_world end.

Lemma launched_world_inv p : coro_inv None None (launched_world p).
Proof.
  unfold launched_world.
  destruct (launch_inv [p] empty_world empty_world_inv) as (w & -> & Hinv). exact Hinv.
Qed.

Lemma completion_delivered_witness :
  ∃ w, got_event (Some 1%Z) true Status_OK (launched_world sample_program) = Ok w
       ∧ results <$> (frames w !! 0%Z) = Some [RStatus Status_OK].
Proof.
  destruct (completion_delivered 1 true Status_OK (launched_world sample_program))
    as (h & f & a & w & _ & _ & _ & Hw & _).
  - apply launched_world_inv.
  - by vm_compute.
  - exists w. split; [exact Hw|]. vm_compute in Hw. injection Hw as <-. by vm_compute.
Defined.

(** One coroutine makes its call, reads once and is answered [false]; then the
    queue is shut down. *)
Definition sample_polls : list iteration :=
  [mk_iteration false [sample_program] TIMEOUT [];
   mk_iteration false [] (GOT_EVENT (Some 1%Z) true Status_OK) [];
   mk_iteration false [] (GOT_EVENT (Some 2%Z) false Status_OK) [];
   mk_iteration false [] (GOT_EVENT (Some 3%Z) true (mkStatus CANCELLED "late")) [];
   mk_iteration false [] SHUTDOWN [SHUTDOWN]].

Lemma poll_loop_safe_witness :
  ∃ w, poll_loop sample_polls empty_world = Ok (QueueShutdown 0, w)
       ∧ heap w = ∅
       ∧ results <$> (frames w !! 0%Z)
         = Some [RStatus Status_OK; ROk false; RStatus (mkStatus CANCELLED "late")].
Proof.
  destruct (poll_loop_safe sample_polls empty_world) as (why & w & Hloop & _ & Hexit).
  - apply empty_world_inv.
  - by vm_compute.
  - exists w. pose proof Hloop as Hw. vm_compute in Hw. injection Hw as <- <-.
    destruct Hexit as (_ & Hheap & _). split_and!; [exact Hloop|exact Hheap|by vm_compute].
Defined.

Lemma timeout_of_last_operation_witness :
  ∃ w1 w2,
    cancel_with_timeout (AwaitableOperation (Some 1%Z))
      (launched_world (λ rs, if rs is [] then Some Unary else None)) = Ok w1
    ∧ got_event (Some 1%Z) true Status_OK w1 = Ok w2 ∧ heap w2 = ∅.
Proof.
  set (p := λ rs : list result, if rs is [] then Some Unary else None).
  destruct (timeout_of_last_operation 0 (mk_frame p [] (Some (AwaitableOperation (Some 1%Z))))
              1 true Status_OK (launched_world p)) as (w1 & w2 & H1 & H2 & _ & _ & H3 & _);
    [apply launched_world_inv|done..|].
  exists w1, w2. split_and!; [exact H1|exact H2|]. rewrite H3. by vm_compute.
Defined.

(** The sample client, timed out: its first read is answered by the late call. *)
Lemma timeout_resumes_next_operation_witness :
  ∃ w1 w2,
    cancel_with_timeout (AwaitableOperation (Some 1%Z))
      (launched_world (λ rs, match length rs with 0 => Some Unary | 1 => Some Read | _ => None end))
      = Ok w1
    ∧ got_event (Some 1%Z) true Status_OK w1 = Ok w2
    ∧ got_event (Some 2%Z) true Status_OK w2 = Fault UseAfterFree.
Proof.
  set (p := λ rs : list result,
              match length rs with 0 => Some Unary | 1 => Some Read | _ => None end).
  destruct (timeout_resumes_next_operation 0
              (mk_frame p [] (Some (AwaitableOperation (Some 1%Z)))) 1 true Status_OK
              (launched_world p)) as (w1 & w2 & H1 & H2 & _ & _ & H3);
    [apply launched_world_inv|done..|].
  exists w1, w2. split_and!; [exact H1|exact H2|]. apply (H3 true Status_OK).
Defined.
