(* ===== verification/NodeBase.v ===== *)
(** * The node base class (src/node/node_base.h, node_base.cpp)

    [Module Node] is the class: identity and session, the coroutine adapter, the
    registry channel and stub (present or reset), the heartbeat thread and the
    flags.  [start], [stop] and the heartbeat loop make RPCs: what the call leaves
    in the caller's hands (the status and the response object) is an input, and
    what is sent is an output ([action]s, in order).  The virtual functions of the
    derived class are inputs (what they return) or actions (that they are called).

    Log statements are left out. *)

From Stdlib Require Import ZArith Lia.
From stdpp Require Import prelude gmap strings list.
From S2P Require Import Prelude UnorderedMap Messages Grpc Coro.

#[local] Open Scope drocm_scope.

Module ReconnectStrategy.
Record t := mk {
  base_delay_ms : Z;
  max_delay_ms : Z;
  max_attempts : Z;
  enable_backoff : bool;
}.
(** The default member initializers. *)
Definition default : t := mk 1000 30000 10 true.
End ReconnectStrategy.

Module Node.

Record t := mk {
  node_id_ : string;
  registry_address_ : string;
  session_id_ : string;
  coro_adapter_ : option CoroAdapter.t;
  registry_channel_ : bool;               (* not null *)
  registry_stub_ : bool;                  (* not null *)
  heartbeat_thread_ : JThread.t;
  is_running_ : bool;
  is_registered_ : bool;
  heartbeat_interval_ms_ : Z;
  reconnect_strategy_ : ReconnectStrategy.t;
}.

(** The constructor makes the adapter; the rest is default-initialized. *)
Definition Node (node_id registry_address : string) : t :=
  mk node_id registry_address "" (Some CoroAdapter.CoroAdapter) false false JThread.none
     false false 1000 ReconnectStrategy.default.

Definition set_registry (present : bool) (n : t) : t :=
  mk (node_id_ n) (registry_address_ n) (session_id_ n) (coro_adapter_ n) present present
     (heartbeat_thread_ n) (is_running_ n) (is_registered_ n) (heartbeat_interval_ms_ n)
     (reconnect_strategy_ n).

Definition set_session (session : string) (interval : Z) (n : t) : t :=
  mk (node_id_ n) (registry_address_ n) session (coro_adapter_ n) (registry_channel_ n)
     (registry_stub_ n) (heartbeat_thread_ n) (is_running_ n) true interval
     (reconnect_strategy_ n).

Definition set_thread (th : JThread.t) (n : t) : t :=
  mk (node_id_ n) (registry_address_ n) (session_id_ n) (coro_adapter_ n) (registry_channel_ n)
     (registry_stub_ n) th (is_running_ n) (is_registered_ n) (heartbeat_interval_ms_ n)
     (reconnect_strategy_ n).

Definition set_running (running : bool) (n : t) : t :=
  mk (node_id_ n) (registry_address_ n) (session_id_ n) (coro_adapter_ n) (registry_channel_ n)
     (registry_stub_ n) (heartbeat_thread_ n) running (is_registered_ n)
     (heartbeat_interval_ms_ n) (reconnect_strategy_ n).

Definition set_registered (registered : bool) (n : t) : t :=
  mk (node_id_ n) (registry_address_ n) (session_id_ n) (coro_adapter_ n) (registry_channel_ n)
     (registry_stub_ n) (heartbeat_thread_ n) (is_running_ n) registered
     (heartbeat_interval_ms_ n) (reconnect_strategy_ n).

Definition set_adapter (a : option CoroAdapter.t) (n : t) : t :=
  mk (node_id_ n) (registry_address_ n) (session_id_ n) a (registry_channel_ n)
     (registry_stub_ n) (heartbeat_thread_ n) (is_running_ n) (is_registered_ n)
     (heartbeat_interval_ms_ n) (reconnect_strategy_ n).

(** What the node does, for the observer. *)
Inductive action :=
  | Slept (ms : Z)
  | SentRegister (req : RegisterRequest.t)
  | SentHeartbeat (req : HeartbeatRequest.t)
  | SentDeregister (req : DeregisterRequest.t)
  | OnReconnectAttempt (attempt delay_ms : Z)
  | OnReconnected
  | SpawnedHeartbeat
  | JoinedHeartbeat          (* an earlier heartbeat thread was stopped and joined *)
  | NullDereference.

Section operations.
  Context `{G : GrpcStatus}.

(** [start]: [info] is what [GetNodeInfo()] returns and [reply] what the Register
    call leaves. *)
Definition start (info : NodeInfo.t) (reply : Status * RegisterResponse.t) (n : t)
    : list action * bool * t :=
  if is_running_ n then ([], true, n)
  else
    let n := set_registry true n in
    let req := RegisterRequest.set_node_info info RegisterRequest.empty in
    let '(status, resp) := reply in
    if negb (status_ok status) || negb (RegisterResponse.success resp) then
      ([SentRegister req], false, n)
    else
      let n := set_session (RegisterResponse.session_id resp)
                 (RegisterResponse.heartbeat_interval resp) n in
      (* the assignment stops and joins a thread the member still held *)
      let joined := if JThread.joinable (heartbeat_thread_ n) then [JoinedHeartbeat] else [] in
      let n := set_thread JThread.spawned n in
      ([SentRegister req; SpawnedHeartbeat] ++ joined, true, set_running true n).

(** [stop]: [reply] is what the Deregister call leaves.  The [if] on the
    thread's [joinable()] has an empty body.  The adapter's [shutdown] goes
    through the process-wide [shutdown_flag]. *)
Definition stop (shutdown_flag : bool) (reply : Status * DeregisterResponse.t) (n : t)
    : list action * bool * t :=
  if negb (is_running_ n) then ([], shutdown_flag, n)
  else
    let n := if JThread.joinable (heartbeat_thread_ n) then n else n in
    let '(acts, n) :=
      if is_registered_ n then
        let req := DeregisterRequest.set_node_id (node_id_ n) DeregisterRequest.empty in
        let '(status, resp) := reply in
        ([SentDeregister req], set_registered false n)
      else ([], n) in
    match coro_adapter_ n with
    | None => (acts ++ [NullDereference], shutdown_flag, n)
    | Some a =>
        let '(shutdown_flag, a) := CoroAdapter.shutdown shutdown_flag a in
        (* reset() destroys the adapter *)
        let '(shutdown_flag, _) := CoroAdapter.destroy shutdown_flag a in
        let n := set_adapter None n in
        let n := set_registry false n in
        (acts, shutdown_flag, set_running false n)
    end.

(** The destructor: [stop], and then the destruction of the members, which stops
    and joins the thread. *)
Definition destroy (shutdown_flag : bool) (reply : Status * DeregisterResponse.t) (n : t)
    : list action * bool * t :=
  let '(acts, shutdown_flag, n) := stop shutdown_flag reply n in
  let joined := if JThread.joinable (heartbeat_thread_ n) then [JoinedHeartbeat] else [] in
  (acts ++ joined, shutdown_flag, set_thread (JThread.destroy (heartbeat_thread_ n)) n).

Definition is_running (n : t) : bool := is_running_ n.

(** The accessors of derived classes; a reference to a null member is [None]. *)
Definition get_coro_adapter (n : t) : option CoroAdapter.t := coro_adapter_ n.
Definition get_registry_channel (n : t) : bool := registry_channel_ n.
Definition get_registry_stub (n : t) : bool := registry_stub_ n.

(** What the heartbeat of a class that does not override it carries: cpu and
    memory usage, and connections. *)
Definition GetHeartbeatPayload : float32 * float32 * Z := (float_zero, float_zero, 0%Z).

(** [calculate_backoff_delay] *)
Definition calculate_backoff_delay (s : ReconnectStrategy.t) (attempt : Z) : Z :=
  if negb (ReconnectStrategy.enable_backoff s) then ReconnectStrategy.base_delay_ms s
  else
    let delay := Nat.iter (Z.to_nat (attempt - 1)) (λ delay, delay *u32 2)
                   (ReconnectStrategy.base_delay_ms s) in
    Z.min delay (ReconnectStrategy.max_delay_ms s).

(** ** The heartbeat loop *)

(** What one pass through the loop sees: the stop token, twice; the clock; the
    derived class's payload; the outcome of the Heartbeat call; and, should it
    re-register, the node info and the outcome of the Register call. *)
Record iteration := mk_iteration {
  stop_at_head : bool;
  stop_after_sleep : bool;
  now : Z;
  payload : float32 * float32 * Z;
  heartbeat_reply : Status * HeartbeatResponse.t;
  node_info : NodeInfo.t;
  register_reply : Status * RegisterResponse.t;
}.

Definition heartbeat_request (n : t) (it : iteration) : HeartbeatRequest.t :=
  let '(cpu, mem, conn) := payload it in
  HeartbeatRequest.empty |> HeartbeatRequest.set_node_id (node_id_ n)
                         |> HeartbeatRequest.set_session_id (session_id_ n)
                         |> HeartbeatRequest.set_timestamp (now it)
                         |> HeartbeatRequest.set_cpu_usage cpu
                         |> HeartbeatRequest.set_memory_usage mem
                         |> HeartbeatRequest.set_active_connections conn.

(** Registering again, after the backoff. *)
Definition reregister (it : iteration) (n : t) : list action * t :=
  let reg_req := RegisterRequest.set_node_info (node_info it) RegisterRequest.empty in
  let '(reg_status, reg_resp) := register_reply it in
  ([SentRegister reg_req],
   if status_ok reg_status && RegisterResponse.success reg_resp then
     set_session (RegisterResponse.session_id reg_resp)
       (RegisterResponse.heartbeat_interval reg_resp) n
   else n).

(** The reconnection attempt: the counter has just been incremented to
    [attempts]. *)
Definition reconnect (it : iteration) (attempts : Z) (n : t) : list action * t :=
  let delay_ms := calculate_backoff_delay (reconnect_strategy_ n) attempts in
  let '(acts, n) := reregister it n in
  ([OnReconnectAttempt attempts delay_ms; Slept delay_ms] ++ acts, n).

(** One pass from the sleep on: the actions, the node, [reconnect_attempts], and
    whether the loop is left by a [break]. *)
Definition body (it : iteration) (n : t) (attempts : Z) : list action * t * Z * bool :=
  let slept := Slept (heartbeat_interval_ms_ n) in
  if stop_after_sleep it then ([slept], n, attempts, true)
  else
    let sent := [slept; SentHeartbeat (heartbeat_request n it)] in
    let '(status, resp) := heartbeat_reply it in
    if status_ok status && HeartbeatResponse.success resp then
      if (0 <? attempts)%Z then (sent ++ [OnReconnected], n, 0%Z, false)
      else (sent, n, attempts, false)
    else if HeartbeatResponse.should_reconnect resp then
      if (attempts <? ReconnectStrategy.max_attempts (reconnect_strategy_ n))%Z then
        let attempts := attempts +u32 1 in
        let '(acts, n) := reconnect it attempts n in
        (sent ++ acts, n, attempts, false)
      else (sent, n, attempts, true)
    else (sent, n, attempts, false).

Fixpoint heartbeat_loop (its : list iteration) (n : t) (attempts : Z)
    : list action * t * Z * bool :=
  match its with
  | [] => ([], n, attempts, false)
  | it :: its =>
      if stop_at_head it then ([], n, attempts, true)
      else
        let '(acts, n, attempts, exited) := body it n attempts in
        if exited then (acts, n, attempts, true)
        else
          let '(acts', n, attempts, exited) := heartbeat_loop its n attempts in
          (acts ++ acts', n, attempts, exited)
  end.

(** The thread starts the loop with no reconnection attempt. *)
Definition run_heartbeat (its : list iteration) (n : t) : list action * t * Z * bool :=
  heartbeat_loop its n 0.

End operations.

End Node.

(** * Properties *)

Section backoff.
  Import Node ReconnectStrategy.

Lemma doubled k base :
  in_u32 base → Nat.iter k (λ d, d *u32 2) base = wrap_u32 (base * 2 ^ Z.of_nat k).
Proof.
  intros Hb. induction k as [|k IH].
  - simpl. rewrite Z.mul_1_r. by rewrite wrap_u32_small.
  - rewrite Nat2Z.inj_succ, Z.pow_succ_r by lia. simpl. rewrite IH, wrap_u32_mul_l.
    f_equal. lia.
Qed.

(** The delay before the [attempt]-th reconnection.  In general it is
    base * 2^(attempt-1) modulo 2^32, capped; as long as the product stays under
    2^32 it is exactly the capped product, so it is positive, never decreases
    with the attempt, and never exceeds the cap. *)
Theorem backoff_delay_exact s attempt :
  in_u32 (base_delay_ms s) → in_u32 attempt → (1 ≤ attempt)%Z →
  let exact := (base_delay_ms s * 2 ^ (attempt - 1))%Z in
  let delay := calculate_backoff_delay s attempt in
  delay = (if enable_backoff s then Z.min (wrap_u32 exact) (max_delay_ms s)
           else base_delay_ms s)
  ∧ (enable_backoff s = true → in_u32 exact →
       delay = Z.min exact (max_delay_ms s)
       ∧ ∀ earlier, (1 ≤ earlier ≤ attempt)%Z →
           (calculate_backoff_delay s earlier ≤ delay)%Z).
Proof.
  intros Hb Ha H1 exact delay.
  assert (∀ a, (1 ≤ a)%Z → calculate_backoff_delay s a =
    if enable_backoff s then Z.min (wrap_u32 (base_delay_ms s * 2 ^ (a - 1))) (max_delay_ms s)
    else base_delay_ms s) as Hdelay.
  { intros a Hpos. unfold calculate_backoff_delay. destruct (enable_backoff s); [|done]. simpl.
    rewrite doubled by done. by rewrite Z2Nat.id by lia. }
  split; [by apply Hdelay|]. intros Hen Hexact. unfold delay. rewrite Hdelay, Hen by lia.
  fold exact. rewrite wrap_u32_small by done. split; [done|].
  intros a [??]. rewrite Hdelay, Hen by lia.
  assert (base_delay_ms s * 2 ^ (a - 1) ≤ exact)%Z.
  { unfold exact, in_u32 in *. apply Z.mul_le_mono_nonneg_l; [lia|].
    apply Z.pow_le_mono_r; lia. }
  rewrite wrap_u32_small; [lia|]. unfold in_u32 in *.
  split; [|lia]. apply Z.mul_nonneg_nonneg; [lia|]. apply Z.pow_nonneg. lia.
Qed.

(** The delays of the default strategy, for all the attempts it makes; a longer
    strategy with the same base would lose its delay to the wrap-around. *)
Example default_delays :
  calculate_backoff_delay ReconnectStrategy.default <$> [1; 2; 3; 4; 5; 6; 10; 30]%Z
  = [1000; 2000; 4000; 8000; 16000; 30000; 30000; 0]%Z.
Proof. vm_compute. reflexivity. Qed.

Lemma backoff_delay_exact_witness :
  calculate_backoff_delay ReconnectStrategy.default 10 = 30000%Z
  ∧ (calculate_backoff_delay ReconnectStrategy.default 4
     ≤ calculate_backoff_delay ReconnectStrategy.default 10)%Z.
Proof.
  destruct (backoff_delay_exact ReconnectStrategy.default 10) as [_ Hx];
    [by split|by split|done|].
  destruct Hx as [Hd Hmono]; [done|by split|].
  split; [exact Hd|]. apply Hmono. lia.
Defined.

End backoff.

Section loop.
  Context `{G : GrpcStatus}.
  Import Node.

(** The reconnection attempts among the actions, with their delays. *)
Definition attempt_of (a : action) : option (Z * Z) :=
  match a with OnReconnectAttempt k d => Some (k, d) | _ => None end.

Definition attempts_of (acts : list action) : list (Z * Z) := omap attempt_of acts.

Lemma attempts_of_app acts1 acts2 :
  attempts_of (acts1 ++ acts2) = attempts_of acts1 ++ attempts_of acts2.
Proof. apply omap_app. Qed.

(** The heartbeat was answered with success. *)
Definition beat_ok (it : iteration) : bool :=
  status_ok (heartbeat_reply it).1 && HeartbeatResponse.success (heartbeat_reply it).2.

(** The heartbeat failed and the response object asks to reconnect. *)
Definition beat_refused (it : iteration) : bool :=
  negb (beat_ok it) && HeartbeatResponse.should_reconnect (heartbeat_reply it).2.

Definition not_stopped (it : iteration) : bool :=
  negb (stop_at_head it) && negb (stop_after_sleep it).

(** What the loop never changes, and what a reconnection leaves. *)
Definition same_identity (n n' : t) : Prop :=
  node_id_ n' = node_id_ n ∧ registry_address_ n' = registry_address_ n
  ∧ reconnect_strategy_ n' = reconnect_strategy_ n ∧ is_running_ n' = is_running_ n
  ∧ registry_stub_ n' = registry_stub_ n ∧ heartbeat_thread_ n' = heartbeat_thread_ n
  ∧ coro_adapter_ n' = coro_adapter_ n.

#[local] Instance same_identity_preorder : PreOrder same_identity.
Proof.
  unfold same_identity. split; [by intros n; split_and!|]. intros n1 n2 n3 H1 H2.
  decompose_hyps. split_and!; congruence.
Qed.

(** Every branch of the body after the sleep. *)
Lemma body_cases it n attempts :
  stop_after_sleep it = false →
  let sent := [Slept (heartbeat_interval_ms_ n); SentHeartbeat (heartbeat_request n it)] in
  let max := ReconnectStrategy.max_attempts (reconnect_strategy_ n) in
  body it n attempts =
    if beat_ok it then
      if decide (0 < attempts)%Z then (sent ++ [OnReconnected], n, 0%Z, false)
      else (sent, n, attempts, false)
    else if beat_refused it then
      if decide (attempts < max)%Z then
        let '(acts, n') := reconnect it (attempts +u32 1) n in
        (sent ++ acts, n', attempts +u32 1, false)
      else (sent, n, attempts, true)
    else (sent, n, attempts, false).
Proof.
  intros Hstop sent max. unfold body, beat_refused, beat_ok. rewrite Hstop.
  destruct (heartbeat_reply it) as [st resp]. simpl.
  destruct (status_ok st && HeartbeatResponse.success resp); simpl.
  - destruct (Z.ltb_spec 0 attempts); [by rewrite decide_True|by rewrite decide_False by lia].
  - destruct (HeartbeatResponse.should_reconnect resp); [|done].
    fold max. destruct (Z.ltb_spec attempts max); [by rewrite decide_True|].
    by rewrite decide_False by lia.
Qed.

Lemma reconnect_spec it k n :
  let '(acts, n') := reconnect it k n in
  same_identity n n'
  ∧ attempts_of acts = [(k, calculate_backoff_delay (reconnect_strategy_ n) k)].
Proof.
  unfold reconnect, reregister. destruct (register_reply it) as [st resp].
  destruct (status_ok st && _); (split; [by split_and!|done]).
Qed.

(** The reconnection attempts that a loop makes when it starts with [attempts]
    behind it. *)
Definition attempts_ok (n : t) (l : list (Z * Z)) : Prop :=
  Forall (λ kd, (1 ≤ kd.1 ≤ ReconnectStrategy.max_attempts (reconnect_strategy_ n))%Z
    ∧ kd.2 = calculate_backoff_delay (reconnect_strategy_ n) kd.1) l.

Lemma body_invariant it n attempts :
  in_u32 (ReconnectStrategy.max_attempts (reconnect_strategy_ n)) →
  (0 ≤ attempts ≤ ReconnectStrategy.max_attempts (reconnect_strategy_ n))%Z →
  let '(acts, n', attempts', exited) := body it n attempts in
  same_identity n n'
  ∧ (0 ≤ attempts' ≤ ReconnectStrategy.max_attempts (reconnect_strategy_ n))%Z
  ∧ attempts_ok n (attempts_of acts).
Proof.
  intros Hmax Hatt. destruct (stop_after_sleep it) eqn:Hstop.
  { unfold body. rewrite Hstop. split_and!; [done|lia|lia|by constructor]. }
  rewrite body_cases by done. unfold in_u32 in Hmax.
  destruct (beat_ok it); [case_decide|destruct (beat_refused it); [case_decide|]].
  - split_and!; [done|lia|lia|by constructor].
  - split_and!; [done|lia|lia|by constructor].
  - rewrite wrap_u32_small by (unfold in_u32; lia).
    pose proof (reconnect_spec it (attempts + 1) n) as Hrec.
    destruct (reconnect it _ n) as [acts n']. destruct Hrec as [Hsame Hacts].
    split_and!; [done|lia|lia|]. rewrite attempts_of_app, Hacts.
    apply Forall_singleton. simpl. split; [lia|done].
  - split_and!; [done|lia|lia|by constructor].
  - split_and!; [done|lia|lia|by constructor].
Qed.

Lemma heartbeat_loop_invariant_from its n attempts :
  in_u32 (ReconnectStrategy.max_attempts (reconnect_strategy_ n)) →
  (0 ≤ attempts ≤ ReconnectStrategy.max_attempts (reconnect_strategy_ n))%Z →
  let '(acts, n', attempts', exited) := heartbeat_loop its n attempts in
  same_identity n n'
  ∧ (0 ≤ attempts' ≤ ReconnectStrategy.max_attempts (reconnect_strategy_ n))%Z
  ∧ attempts_ok n (attempts_of acts).
Proof.
  revert n attempts. induction its as [|it its IH]; intros n attempts Hmax Hatt; simpl;
    [split_and!; [done|lia|lia|by constructor]|].
  destruct (stop_at_head it); [split_and!; [done|lia|lia|by constructor]|].
  pose proof (body_invariant it n attempts Hmax Hatt) as Hbody.
  destruct (body it n attempts) as [[[acts n1] att1] []]; [done|].
  destruct Hbody as (Hsame & Hatt1 & Hacts).
  assert (reconnect_strategy_ n1 = reconnect_strategy_ n) as Hst by apply Hsame.
  specialize (IH n1 att1). rewrite Hst in IH. specialize (IH Hmax Hatt1).
  destruct (heartbeat_loop its n1 att1) as [[[acts2 n2] att2] ex2].
  destruct IH as (Hsame2 & Hatt2 & Hacts2). split_and!; [by etransitivity|lia|lia|].
  rewrite attempts_of_app. apply Forall_app. split; [done|].
  unfold attempts_ok in Hacts2. by rewrite Hst in Hacts2.
Qed.

(** Whatever the registry answers, the loop never has more than
    [max_attempts] reconnection attempts behind it: every attempt is numbered
    between 1 and [max_attempts] and preceded by exactly the backoff delay of its
    number, and the counter never wraps.  The loop never changes who the node is,
    whether it counts as running, or its stub: giving up, too, leaves
    [is_running] as it was. *)
Theorem heartbeat_loop_invariant its n :
  in_u32 (ReconnectStrategy.max_attempts (reconnect_strategy_ n)) →
  let '(acts, n', attempts, exited) := run_heartbeat its n in
  same_identity n n'
  ∧ (0 ≤ attempts ≤ ReconnectStrategy.max_attempts (reconnect_strategy_ n))%Z
  ∧ attempts_ok n (attempts_of acts).
Proof.
  intros Hmax. apply heartbeat_loop_invariant_from; [done|]. unfold in_u32 in Hmax. lia.
Qed.

Lemma gives_up_from its n attempts :
  in_u32 (ReconnectStrategy.max_attempts (reconnect_strategy_ n)) →
  Forall (λ it, not_stopped it && beat_refused it = true) its →
  (0 ≤ attempts ≤ ReconnectStrategy.max_attempts (reconnect_strategy_ n))%Z →
  let room := Z.to_nat (ReconnectStrategy.max_attempts (reconnect_strategy_ n) - attempts) in
  let '(acts, _, attempts', exited) := heartbeat_loop its n attempts in
  attempts_of acts
    = (λ k, (k, calculate_backoff_delay (reconnect_strategy_ n) k))
        <$> seqZ (attempts + 1) (Z.of_nat (length its `min` room))
  ∧ attempts' = (attempts + Z.of_nat (length its `min` room))%Z
  ∧ exited = bool_decide (room < length its).
Proof.
  intros Hmax Hall. revert n attempts Hmax.
  induction Hall as [|it its Hit _ IH]; intros n attempts Hmax Hatt room.
  { cbn [heartbeat_loop length]. rewrite bool_decide_eq_false_2, Nat.min_0_l by lia.
    split_and!; [done|lia|done]. }
  apply andb_true_iff in Hit as [Hrun Href]. apply andb_true_iff in Hrun as [Hhead Hsleep].
  apply negb_true_iff in Hhead, Hsleep.
  cbn [heartbeat_loop length]. rewrite Hhead, body_cases, Href by done.
  assert (beat_ok it = false) as -> by (unfold beat_refused in Href; by destruct (beat_ok it)).
  case_decide as Hlt.
  - unfold in_u32 in Hmax. rewrite wrap_u32_small by (unfold in_u32; lia).
    pose proof (reconnect_spec it (attempts + 1) n) as Hrec.
    destruct (reconnect it (attempts + 1) n) as [acts n1]. destruct Hrec as [Hsame Hacts].
    assert (reconnect_strategy_ n1 = reconnect_strategy_ n) as Hst by apply Hsame.
    specialize (IH n1 (attempts + 1)%Z). rewrite Hst in IH. specialize (IH Hmax ltac:(lia)).
    destruct (heartbeat_loop its n1 (attempts + 1)) as [[[acts2 n2] att2] ex2].
    cbv zeta in IH.
    replace (Z.to_nat (_ - (attempts + 1))) with (pred room) in IH by lia.
    destruct IH as (Hacts2 & -> & ->).
    replace (S (length its) `min` room) with (S (length its `min` pred room)) by lia.
    split_and!; [|lia|apply bool_decide_ext; lia].
    rewrite !attempts_of_app, Hacts, Hacts2, Nat2Z.inj_succ.
    rewrite (seqZ_cons (attempts + 1) (Z.succ _)) by lia. csimpl.
    by rewrite Z.pred_succ, <-Z.add_1_r.
  - replace room with 0 by lia. rewrite Nat.min_0_r.
    split_and!; [done|lia|]. by rewrite bool_decide_eq_true_2 by lia.
Qed.

(** A node whose every heartbeat is refused with a request to reconnect makes
    attempts 1, 2, ... with growing delays, and gives up: after [max_attempts]
    attempts the next refusal ends the loop, and not earlier. *)
Theorem heartbeat_loop_gives_up its n :
  in_u32 (ReconnectStrategy.max_attempts (reconnect_strategy_ n)) →
  Forall (λ it, not_stopped it && beat_refused it = true) its →
  let max := Z.to_nat (ReconnectStrategy.max_attempts (reconnect_strategy_ n)) in
  let '(acts, _, attempts, exited) := run_heartbeat its n in
  attempts_of acts
    = (λ k, (k, calculate_backoff_delay (reconnect_strategy_ n) k))
        <$> seqZ 1 (Z.of_nat (length its `min` max))
  ∧ attempts = Z.of_nat (length its `min` max)
  ∧ exited = bool_decide (max < length its).
Proof.
  intros Hmax Hall max. pose proof (gives_up_from its n 0 Hmax Hall) as Hfrom.
  rewrite Z.sub_0_r in Hfrom. apply Hfrom. unfold in_u32 in Hmax. lia.
Qed.

End loop.

(** * Examples *)

#[local] Instance sample_status : GrpcStatus := concrete_status.

Definition refused_beat : Node.iteration :=
  Node.mk_iteration false false 5 (float_zero, float_zero, 0%Z)
    (Status_OK, HeartbeatResponse.mk false 0 true) NodeInfo.empty
    (mkStatus UNAVAILABLE "", RegisterResponse.empty).

Lemma heartbeat_loop_invariant_witness :
  let '(acts, n', attempts, exited) :=
    Node.run_heartbeat (replicate 4 refused_beat) (Node.Node "lidar_01" "localhost:50051") in
  (0 ≤ attempts ≤ 10)%Z ∧ attempts_ok n' (attempts_of acts).
Proof.
  pose proof (heartbeat_loop_invariant (replicate 4 refused_beat)
                (Node.Node "lidar_01" "localhost:50051")) as Hinv.
  destruct (Node.run_heartbeat _ _) as [[[acts n'] att] ex].
  destruct Hinv as (Hsame & Hatt & Hok); [by split|].
  split; [exact Hatt|]. destruct Hsame as (_ & _ & Hst & _).
  unfold attempts_ok. rewrite Hst. exact Hok.
Defined.

Lemma heartbeat_loop_gives_up_witness :
  let '(acts, _, attempts, exited) :=
    Node.run_heartbeat (replicate 12 refused_beat) (Node.Node "lidar_01" "localhost:50051") in
  attempts_of acts
    = [(1, 1000); (2, 2000); (3, 4000); (4, 8000); (5, 16000); (6, 30000); (7, 30000);
       (8, 30000); (9, 30000); (10, 30000)]%Z
  ∧ attempts = 10%Z ∧ exited = true.
Proof.
  pose proof (heartbeat_loop_gives_up (replicate 12 refused_beat)
                (Node.Node "lidar_01" "localhost:50051")) as Hg.
  destruct (Node.run_heartbeat _ _) as [[[acts n'] att] ex].
  destruct Hg as (Hacts & Hatt & Hex); [by split|by apply Forall_replicate|].
  split_and!; [rewrite Hacts; by vm_compute|exact Hatt|rewrite Hex; by vm_compute].
Defined.
