(* ===== verification/NodeThread.v ===== *)
(** * The node's two threads, step by step

    src/node/node_base.cpp once more, at the grain at which its threads meet: the
    heartbeat thread between two looks at what it shares with the others (the
    stop token, [registry_stub_]), and [stop] and the destructor one statement at
    a time, on a thread of their own.

    [thread_step] refines [Node.heartbeat_loop] and [stopper_step] refines
    [Node.stop], so the theorems about those hold of each thread left alone; the
    interleavings of the two show what [stop] does to a running heartbeat
    thread. *)

From Stdlib Require Import ZArith Lia.
From stdpp Require Import prelude gmap strings list.
From S2P Require Import Prelude UnorderedMap Messages Grpc Coro NodeBase.

#[local] Open Scope drocm_scope.

Section threads.
  Context `{G : GrpcStatus}.
  Import Node.

(** ** The heartbeat thread *)

(** Where the thread is in [heartbeat_loop], with [reconnect_attempts]. *)
Inductive pc :=
  | AtHead (attempts : Z)       (* at the loop condition *)
  | Sleeping (attempts : Z)     (* in the interval's sleep *)
  | Calling (attempts : Z)      (* past the second check: about to send a heartbeat *)
  | BackingOff (attempts : Z)   (* in the backoff's sleep: about to register again *)
  | Exited (attempts : Z)
  | Crashed.                    (* dereferenced a null stub *)

(** What follows the answer to a heartbeat. *)
Definition answered (it : iteration) (n : t) (attempts : Z) : list action * pc :=
  let '(status, resp) := heartbeat_reply it in
  if status_ok status && HeartbeatResponse.success resp then
    if (0 <? attempts)%Z then ([OnReconnected], AtHead 0) else ([], AtHead attempts)
  else if HeartbeatResponse.should_reconnect resp then
    if (attempts <? ReconnectStrategy.max_attempts (reconnect_strategy_ n))%Z then
      let attempts := attempts +u32 1 in
      ([OnReconnectAttempt attempts (calculate_backoff_delay (reconnect_strategy_ n) attempts)],
       BackingOff attempts)
    else ([], Exited attempts)
  else ([], AtHead attempts).

(** One step: what the thread sees of its stop token, what its calls and the
    derived class answer, and the node as it finds it. *)
Definition thread_step (stop_requested : bool) (it : iteration) (n : t) (p : pc)
    : list action * t * pc :=
  match p with
  | AtHead k => ([], n, if stop_requested then Exited k else Sleeping k)
  | Sleeping k =>
      ([Slept (heartbeat_interval_ms_ n)], n, if stop_requested then Exited k else Calling k)
  | Calling k =>
      if registry_stub_ n then
        let '(acts, p) := answered it n k in
        (SentHeartbeat (heartbeat_request n it) :: acts, n, p)
      else ([NullDereference], n, Crashed)
  | BackingOff k =>
      let slept := Slept (calculate_backoff_delay (reconnect_strategy_ n) k) in
      if registry_stub_ n then
        let '(acts, n) := reregister it n in (slept :: acts, n, AtHead k)
      else ([slept; NullDereference], n, Crashed)
  | Exited _ | Crashed => ([], n, p)
  end.

Fixpoint thread_run (steps : list (bool * iteration)) (n : t) (p : pc) : list action * t * pc :=
  match steps with
  | [] => ([], n, p)
  | (stop, it) :: steps =>
      let '(acts, n, p) := thread_step stop it n p in
      let '(acts', n, p) := thread_run steps n p in (acts ++ acts', n, p)
  end.

Lemma thread_run_snoc steps stop it n p :
  thread_run (steps ++ [(stop, it)]) n p =
  let '(acts, n, p) := thread_run steps n p in
  let '(acts', n, p) := thread_step stop it n p in (acts ++ acts', n, p).
Proof.
  revert n p. induction steps as [|[stop' it'] steps IH]; intros n p; simpl.
  - by destruct (thread_step stop it n p) as [[acts' n'] p']; rewrite app_nil_r.
  - destruct (thread_step stop' it' n p) as [[acts n1] p1]. rewrite IH.
    destruct (thread_run steps n1 p1) as [[acts2 n2] p2].
    destruct (thread_step stop it n2 p2) as [[acts3 n3] p3]. by rewrite (assoc_L (++)).
Qed.

(** ** The thread left alone runs the loop *)

Lemma heartbeat_loop_snoc its it n attempts :
  heartbeat_loop (its ++ [it]) n attempts =
  let '(acts, n', k, exited) := heartbeat_loop its n attempts in
  if exited then (acts, n', k, true)
  else if stop_at_head it then (acts, n', k, true)
  else let '(acts', n'', k', exited) := body it n' k in (acts ++ acts', n'', k', exited).
Proof.
  revert n attempts. induction its as [|it0 its IH]; intros n k; simpl.
  - destruct (stop_at_head it); [done|]. destruct (body it n k) as [[[acts n'] k'] []]; [done|].
    by rewrite app_nil_r.
  - destruct (stop_at_head it0); [done|].
    destruct (body it0 n k) as [[[acts1 n1] k1] []]; [done|]. rewrite IH.
    destruct (heartbeat_loop its n1 k1) as [[[acts2 n2] k2] []]; [done|].
    destruct (stop_at_head it); [done|].
    destruct (body it n2 k2) as [[[acts3 n3] k3] ex3]. by rewrite (assoc_L (++)).
Qed.

(** An iteration that looks at the stop token as told. *)
Definition with_stops (at_head after_sleep : bool) (it : iteration) : iteration :=
  mk_iteration at_head after_sleep (now it) (payload it) (heartbeat_reply it) (node_info it)
    (register_reply it).

(** A pass whose heartbeat and whose registration see different things. *)
Definition with_registration (it it' : iteration) : iteration :=
  mk_iteration (stop_at_head it) (stop_after_sleep it) (now it) (payload it) (heartbeat_reply it)
    (node_info it') (register_reply it').

(** What the thread has done at [p], when it has done [acts0] in whole passes that
    left [n0] and [k]. *)
Definition part_way (acts0 : list action) (n0 : t) (k : Z) (acts : list action) (n : t) (p : pc)
    : Prop :=
  n = n0 ∧
  match p with
  | AtHead k' => acts = acts0 ∧ k' = k
  | Sleeping k' => acts = acts0 ∧ k' = k
  | Calling k' => acts = acts0 ++ [Slept (heartbeat_interval_ms_ n)] ∧ k' = k
  | BackingOff k' =>
      ∃ it, stop_at_head it = false ∧ stop_after_sleep it = false
        ∧ ∃ acts1, answered it n k = (acts1, BackingOff k')
        ∧ acts = acts0 ++ [Slept (heartbeat_interval_ms_ n);
                           SentHeartbeat (heartbeat_request n it)] ++ acts1
  | Exited _ | Crashed => False
  end.

Lemma reregister_stub it n : registry_stub_ (reregister it n).2 = registry_stub_ n.
Proof. unfold reregister. destruct (register_reply it) as [st resp]. simpl. by destruct (_ && _). Qed.

(** A pass that ends at the answer to its heartbeat. *)
Lemma body_answered it n k :
  stop_after_sleep it = false →
  let sent := [Slept (heartbeat_interval_ms_ n); SentHeartbeat (heartbeat_request n it)] in
  match answered it n k with
  | (acts, AtHead k') => body it n k = (sent ++ acts, n, k', false)
  | (acts, Exited k') => body it n k = (sent ++ acts, n, k', true)
  | (acts, BackingOff k') =>
      body it n k =
        (sent ++ acts ++ Slept (calculate_backoff_delay (reconnect_strategy_ n) k')
           :: (reregister it n).1, (reregister it n).2, k', false)
  | _ => False
  end.
Proof.
  intros Hstop sent. unfold answered, body. rewrite Hstop.
  destruct (heartbeat_reply it) as [st resp].
  destruct (status_ok st && HeartbeatResponse.success resp).
  { destruct (0 <? k)%Z; [done|]. by rewrite app_nil_r. }
  destruct (HeartbeatResponse.should_reconnect resp); [|by rewrite app_nil_r].
  destruct (k <? _)%Z; [|by rewrite app_nil_r]. unfold reconnect.
  by destruct (reregister it n) as [acts n'].
Qed.

Lemma answered_with_registration it it' n k :
  answered (with_registration it it') n k = answered it n k.
Proof. done. Qed.

Lemma reregister_with_registration it it' n :
  reregister (with_registration it it') n = reregister it' n.
Proof. done. Qed.

(** What the thread has done, set against the loop's passes [its]. *)
Definition matches (n0 : t) (k0 : Z) (its : list iteration) (r : list action * t * pc) : Prop :=
  let '(acts0, n', k, exited) := heartbeat_loop its n0 k0 in
  let '(acts, n, p) := r in
  registry_stub_ n = true
  ∧ (exited = true → acts = acts0 ∧ n = n' ∧ p = Exited k)
  ∧ (exited = false → part_way acts0 n' k acts n p).

Lemma thread_step_matches n0 k0 its acts n p stop it :
  matches n0 k0 its (acts, n, p) →
  ∃ its', matches n0 k0 its' (let '(acts', n', p') := thread_step stop it n p in
                              (acts ++ acts', n', p')).
Proof.
  intros Hm. unfold matches in Hm.
  destruct (heartbeat_loop its n0 k0) as [[[acts0 n'] k] ex] eqn:Hloop.
  destruct Hm as (Hstub & Hex & Hgo). destruct ex.
  { destruct (Hex eq_refl) as (-> & -> & ->). exists its. unfold matches. rewrite Hloop. simpl.
    by rewrite app_nil_r. }
  destruct (Hgo eq_refl) as [-> Hp]. clear Hex Hgo.
  assert (∀ it' r, (let '(acts', n'', k', exited) :=
            (if stop_at_head it' then ([], n', k, true) else body it' n' k) in
            registry_stub_ r.1.2 = true ∧ r = (acts0 ++ acts', n'', if exited then Exited k' else AtHead k')) →
          matches n0 k0 (its ++ [it']) r) as Hpass.
  { intros it' [[acts' n''] p'] Hr. unfold matches. rewrite heartbeat_loop_snoc, Hloop.
    destruct (stop_at_head it').
    - destruct Hr as [? [= -> -> ->]]. rewrite app_nil_r. by split_and!.
    - destruct (body it' n' k) as [[[acts1 n1] k1] ex1]. destruct Hr as [? [= -> -> ->]].
      by destruct ex1; split_and!. }
  assert (∀ acts' p', part_way acts0 n' k acts' n' p' → matches n0 k0 its (acts', n', p')) as Hstay.
  { intros acts' p' Hpart. unfold matches. rewrite Hloop. by split_and!. }
  destruct p as [k'|k'|k'|k'|k'|]; try done; simpl.
  - destruct Hp as [-> ->]. rewrite app_nil_r. destruct stop.
    + exists (its ++ [with_stops true true it]). apply Hpass. simpl. by rewrite app_nil_r.
    + exists its. by apply Hstay.
  - destruct Hp as [-> ->]. destruct stop.
    + exists (its ++ [with_stops false true it]). apply Hpass. unfold body. simpl. done.
    + exists its. by apply Hstay.
  - destruct Hp as [-> ->]. rewrite Hstub.
    pose proof (body_answered (with_stops false false it) n' k eq_refl) as Hbody. cbv zeta in Hbody.
    change (answered (with_stops false false it) n' k) with (answered it n' k) in Hbody.
    destruct (answered it n' k) as [acts1 p1] eqn:Hans.
    rewrite <-(assoc_L (++)). destruct p1 as [k1|k1|k1|k1|k1|]; try done.
    + exists (its ++ [with_stops false false it]). apply Hpass. simpl stop_at_head. cbv iota.
      rewrite Hbody. done.
    + exists its. apply Hstay. split; [done|]. exists (with_stops false false it).
      split_and!; [done|done|]. exists acts1. by split_and!.
    + exists (its ++ [with_stops false false it]). apply Hpass. simpl stop_at_head. cbv iota.
      rewrite Hbody. done.
  - destruct Hp as (it0 & Hhead & Hsleep & acts1 & Hans & ->). rewrite Hstub.
    exists (its ++ [with_registration it0 it]).
    pose proof (body_answered (with_registration it0 it) n' k Hsleep) as Hbody. cbv zeta in Hbody.
    rewrite answered_with_registration, Hans, reregister_with_registration in Hbody.
    pose proof (reregister_stub it n') as Hst.
    destruct (reregister it n') as [acts2 n2]. simpl in Hst. apply Hpass. simpl stop_at_head.
    rewrite Hhead. cbv iota. rewrite Hbody. simpl. split; [congruence|].
    by rewrite <-!(assoc_L (++)).
Qed.

(** The steps of one pass. *)
Definition pass (it : iteration) (n : t) (k : Z) : list (bool * iteration) :=
  [(stop_at_head it, it)]
  ++ (if stop_at_head it then [] else
        [(stop_after_sleep it, it)]
        ++ (if stop_after_sleep it then [] else
              [(false, it)]
              ++ match answered it n k with (_, BackingOff _) => [(false, it)] | _ => [] end)).

Lemma thread_run_pass it n k :
  registry_stub_ n = true →
  thread_run (pass it n k) n (AtHead k) =
  if stop_at_head it then ([], n, Exited k)
  else let '(acts, n', k', exited) := body it n k in
       (acts, n', if exited then Exited k' else AtHead k').
Proof.
  intros Hstub. unfold pass. destruct (stop_at_head it); [done|]. simpl.
  destruct (stop_after_sleep it) eqn:Hsleep; simpl.
  { unfold body. by rewrite Hsleep. }
  rewrite Hstub. pose proof (body_answered it n k Hsleep) as Hbody. cbv zeta in Hbody.
  destruct (answered it n k) as [acts [k'|k'|k'|k'|k'|]]; try done; rewrite Hbody; simpl.
  - by rewrite app_nil_r.
  - rewrite Hstub. destruct (reregister it n) as [acts' n']. by rewrite app_nil_r.
  - by rewrite app_nil_r.
Qed.

Lemma body_stub it n k : registry_stub_ (body it n k).1.1.2 = registry_stub_ n.
Proof.
  unfold body. destruct (stop_after_sleep it); [done|]. destruct (heartbeat_reply it) as [st resp].
  repeat (case_match; try done). pose proof (reregister_stub it n) as Hst.
  unfold reconnect in *. destruct (reregister it n). by simplify_eq/=.
Qed.

Lemma thread_run_app steps1 steps2 n p :
  thread_run (steps1 ++ steps2) n p =
  let '(acts, n, p) := thread_run steps1 n p in
  let '(acts', n, p) := thread_run steps2 n p in (acts ++ acts', n, p).
Proof.
  revert n p. induction steps1 as [|[stop it] steps1 IH]; intros n p; simpl.
  - by destruct (thread_run steps2 n p) as [[acts' n'] p'].
  - destruct (thread_step stop it n p) as [[acts n1] p1]. rewrite IH.
    destruct (thread_run steps1 n1 p1) as [[acts2 n2] p2].
    destruct (thread_run steps2 n2 p2) as [[acts3 n3] p3]. by rewrite (assoc_L (++)).
Qed.

Lemma loop_is_thread_run its n k :
  registry_stub_ n = true →
  ∃ steps, thread_run steps n (AtHead k) =
    let '(acts, n', k', exited) := heartbeat_loop its n k in
    (acts, n', if exited then Exited k' else AtHead k').
Proof.
  revert n k. induction its as [|it its IH]; intros n k Hstub; [by exists []|].
  pose proof (thread_run_pass it n k Hstub) as Hpass. pose proof (body_stub it n k) as Hst.
  simpl. destruct (stop_at_head it); [by exists (pass it n k)|].
  destruct (body it n k) as [[[acts n1] k1] []]; [by exists (pass it n k)|].
  destruct (IH n1 k1) as [steps Hsteps]; [simpl in Hst; congruence|].
  exists (pass it n k ++ steps). rewrite thread_run_app, Hpass, Hsteps.
  by destruct (heartbeat_loop its n1 k1) as [[[acts2 n2] k2] ex2].
Qed.

(** C30: the heartbeat thread, step by step, is the loop.  As long as its stub is
    there, whatever the thread has done after any number of steps is what
    [heartbeat_loop] does in some whole passes, up to the pass it is in: the same
    actions in the same order, the same node and the same number of attempts, and
    it has exited exactly when the loop has.  Conversely, whatever the loop does
    the thread can do. *)
Theorem thread_is_loop n k :
  registry_stub_ n = true →
  (∀ steps, ∃ its, matches n k its (thread_run steps n (AtHead k)))
  ∧ ∀ its, ∃ steps, thread_run steps n (AtHead k) =
      let '(acts, n', k', exited) := heartbeat_loop its n k in
      (acts, n', if exited then Exited k' else AtHead k').
Proof.
  intros Hstub. split; [|intros its; by apply loop_is_thread_run].
  induction steps as [|[stop it] steps IH] using rev_ind.
  - exists []. by split_and!.
  - destruct IH as [its Hits]. rewrite thread_run_snoc.
    destruct (thread_run steps n (AtHead k)) as [[acts n1] p1].
    destruct (thread_step_matches n k its acts n1 p1 stop it Hits) as [its' Hits'].
    exists its'. by destruct (thread_step stop it n1 p1) as [[acts2 n2] p2].
Qed.

(** ** [stop] and the destructor, statement by statement *)

Inductive stop_pc :=
  | StopBegin
  | StopDeregister
  | StopAdapter
  | StopStub
  | StopChannel
  | StopFlag
  | StopDone
  | Joining          (* the destructor, in the join of the thread it has asked to stop *)
  | Destroyed
  | StopCrashed.

Definition set_stub (present : bool) (n : t) : t :=
  mk (node_id_ n) (registry_address_ n) (session_id_ n) (coro_adapter_ n) (registry_channel_ n)
     present (heartbeat_thread_ n) (is_running_ n) (is_registered_ n) (heartbeat_interval_ms_ n)
     (reconnect_strategy_ n).

Definition set_channel (present : bool) (n : t) : t :=
  mk (node_id_ n) (registry_address_ n) (session_id_ n) (coro_adapter_ n) present
     (registry_stub_ n) (heartbeat_thread_ n) (is_running_ n) (is_registered_ n)
     (heartbeat_interval_ms_ n) (reconnect_strategy_ n).

(** One statement: the flag of [CoroAdapter::shutdown], what the Deregister call
    leaves, whether it is the destructor that calls [stop], and whether the
    heartbeat thread has ended. *)
Definition stopper_step (destroying : bool) (reply : Status * DeregisterResponse.t)
    (thread_ended : bool) (flag : bool) (n : t) (q : stop_pc) : list action * bool * t * stop_pc :=
  match q with
  | StopBegin => ([], flag, n, if is_running_ n then StopDeregister else StopDone)
  | StopDeregister =>
      if is_registered_ n then
        if registry_stub_ n then
          ([SentDeregister (DeregisterRequest.set_node_id (node_id_ n) DeregisterRequest.empty)],
           flag, set_registered false n, StopAdapter)
        else ([NullDereference], flag, n, StopCrashed)
      else ([], flag, n, StopAdapter)
  | StopAdapter =>
      match coro_adapter_ n with
      | None => ([NullDereference], flag, n, StopCrashed)
      | Some a =>
          let '(flag, a) := CoroAdapter.shutdown flag a in
          let '(flag, _) := CoroAdapter.destroy flag a in
          ([], flag, set_adapter None n, StopStub)
      end
  | StopStub => ([], flag, set_stub false n, StopChannel)
  | StopChannel => ([], flag, set_channel false n, StopFlag)
  | StopFlag => ([], flag, set_running false n, StopDone)
  | StopDone =>
      if destroying then
        if JThread.joinable (heartbeat_thread_ n) then
          ([], flag, set_thread (JThread.request_stop (heartbeat_thread_ n)) n, Joining)
        else ([], flag, n, Destroyed)
      else ([], flag, n, StopDone)
  | Joining =>
      if thread_ended then
        ([JoinedHeartbeat], flag, set_thread (JThread.join (heartbeat_thread_ n)) n, Destroyed)
      else ([], flag, n, Joining)
  | Destroyed => ([], flag, n, Destroyed)
  | StopCrashed => ([], flag, n, StopCrashed)
  end.

Fixpoint stopper_run (destroying : bool) (reply : Status * DeregisterResponse.t) (steps : nat)
    (flag : bool) (n : t) (q : stop_pc) : list action * bool * t * stop_pc :=
  match steps with
  | O => ([], flag, n, q)
  | S steps =>
      let '(acts, flag, n, q) := stopper_step destroying reply true flag n q in
      let '(acts', flag, n, q) := stopper_run destroying reply steps flag n q in
      (acts ++ acts', flag, n, q)
  end.

(** Left alone, with the heartbeat thread ending when asked, the statements make
    up [stop] and the destructor. *)
Lemma stopper_is_stop destroying reply flag n :
  (is_registered_ n = true → registry_stub_ n = true) →
  (is_running_ n = true → is_Some (coro_adapter_ n)) →
  stopper_run destroying reply 8 flag n StopBegin =
  let '(acts, flag', n') := (if destroying then destroy flag reply n else stop flag reply n) in
  (acts, flag', n', if destroying then Destroyed else StopDone).
Proof.
  intros Hreg Hadapter.
  destruct n as [id addr sid ad chan stub [joinable asked] running reg interval strat], reply.
  simpl in Hreg, Hadapter. destruct running; [destruct (Hadapter eq_refl) as [a ->]|].
  - destruct reg; [rewrite Hreg by done|]; destruct destroying, joinable, flag; reflexivity.
  - destruct destroying, joinable, flag; reflexivity.
Qed.

(** ** Both threads together *)

Record system := mk_system {
  node : t;
  shutdown_flag : bool;
  heartbeat : pc;
  stopper : stop_pc;
}.

Inductive choice :=
  | HeartbeatStep (it : iteration)
  | StopperStep (reply : Status * DeregisterResponse.t).

Definition ended (p : pc) : bool := match p with Exited _ => true | _ => false end.

Definition system_step (destroying : bool) (c : choice) (s : system) : system :=
  match c with
  | HeartbeatStep it =>
      let '(_, n, p) :=
        thread_step (JThread.stop_requested (heartbeat_thread_ (node s))) it (node s) (heartbeat s) in
      mk_system n (shutdown_flag s) p (stopper s)
  | StopperStep reply =>
      let '(_, flag, n, q) :=
        stopper_step destroying reply (ended (heartbeat s)) (shutdown_flag s) (node s) (stopper s) in
      mk_system n flag (heartbeat s) q
  end.

Definition system_run (destroying : bool) (cs : list choice) (s : system) : system :=
  foldl (λ s c, system_step destroying c s) s cs.

Definition is_heartbeat (c : choice) : bool :=
  match c with HeartbeatStep _ => true | StopperStep _ => false end.

Definition heartbeats (cs : list choice) : nat := length (filter (λ c, is_heartbeat c) cs).

(** A node as [start] leaves it. *)
Definition started (n : t) : Prop :=
  is_running_ n = true ∧ is_Some (coro_adapter_ n) ∧ registry_stub_ n = true
  ∧ heartbeat_thread_ n = JThread.spawned.

Definition in_loop (p : pc) : Prop :=
  match p with Exited _ | Crashed => False | _ => True end.

(** What holds of the node at each statement of [stop]. *)
Definition stop_inv (destroying : bool) (n : t) (p : pc) (q : stop_pc) : Prop :=
  match q with
  | StopBegin | StopDeregister => started n
  | StopAdapter =>
      is_Some (coro_adapter_ n) ∧ registry_stub_ n = true ∧ heartbeat_thread_ n = JThread.spawned
  | StopStub => registry_stub_ n = true ∧ heartbeat_thread_ n = JThread.spawned
  | StopChannel | StopFlag | StopDone =>
      registry_stub_ n = false ∧ heartbeat_thread_ n = JThread.spawned
  | Joining =>
      destroying = true ∧ registry_stub_ n = false
      ∧ heartbeat_thread_ n = JThread.request_stop JThread.spawned
  | Destroyed => destroying = true ∧ registry_stub_ n = false ∧ ended p = true
  | StopCrashed => False
  end.

Definition system_inv (destroying : bool) (s : system) : Prop :=
  stop_inv destroying (node s) (heartbeat s) (stopper s)
  ∧ (registry_stub_ (node s) = true → heartbeat s ≠ Crashed).

(** The heartbeat thread leaves alone what [stop] works on. *)
Lemma thread_step_keeps stop it n p :
  let '(_, n', _) := thread_step stop it n p in
  registry_stub_ n' = registry_stub_ n ∧ heartbeat_thread_ n' = heartbeat_thread_ n
  ∧ is_running_ n' = is_running_ n ∧ coro_adapter_ n' = coro_adapter_ n.
Proof.
  destruct p as [k|k|k|k|k|]; simpl; try done.
  - destruct (registry_stub_ n) eqn:Hst; [|by rewrite Hst]. by destruct (answered it n k); rewrite Hst.
  - destruct (registry_stub_ n) eqn:Hst; [|by rewrite Hst]. unfold reregister.
    destruct (register_reply it) as [st resp]. simpl. destruct (_ && _); simpl; by rewrite Hst.
Qed.

Lemma thread_step_sound stop it n p :
  registry_stub_ n = true → p ≠ Crashed → (thread_step stop it n p).2 ≠ Crashed.
Proof.
  intros Hstub Hp. destruct p as [k|k|k|k|k|]; simpl; try (by destruct stop); try done.
  - rewrite Hstub. unfold answered. destruct (heartbeat_reply it) as [st resp].
    by repeat case_match; simplify_eq/=.
  - rewrite Hstub. by destruct (reregister it n).
Qed.

Lemma ended_stays stop it n p :
  ended p = true → thread_step stop it n p = ([], n, p).
Proof. by destruct p. Qed.

Lemma system_step_inv destroying c s :
  system_inv destroying s → system_inv destroying (system_step destroying c s).
Proof.
  destruct s as [n fl p q]. intros [Hq Hp]. simpl in Hq, Hp. destruct c as [it|reply]; simpl.
  - set (stop := JThread.stop_requested (heartbeat_thread_ n)).
    pose proof (thread_step_keeps stop it n p) as Hkeep.
    pose proof (thread_step_sound stop it n p) as Hsound.
    pose proof (ended_stays stop it n p) as Hended.
    destruct (thread_step stop it n p) as [[acts n'] p'].
    destruct Hkeep as (Hstub & Hth & Hrun & Had). unfold system_inv. simpl in *.
    split; [|rewrite Hstub; auto]. destruct q; simpl in *; unfold started in *;
      rewrite ?Hstub, ?Hth, ?Hrun, ?Had; try done.
    destruct Hq as (? & ? & He). by injection (Hended He) as -> -> ->.
  - unfold system_inv. destruct q; simpl in *; try done.
    + pose proof Hq as (Hrun & _). by rewrite Hrun.
    + destruct Hq as (_ & Had & Hst & Hth). rewrite Hst.
      destruct (is_registered_ n); simpl; split_and!; auto.
    + destruct Hq as ([a Ha] & Hst & Hth). rewrite Ha. destruct fl; simpl; split_and!; auto.
    + destruct Hq as [? Hth]. by split_and!.
    + destruct destroying; [|done]. destruct Hq as [? Hth]. rewrite Hth. simpl. by split_and!.
    + destruct (ended p) eqn:He; simpl; [|done]. destruct Hq as (? & ? & Hth). by split_and!.
Qed.

Lemma system_run_inv destroying cs s :
  system_inv destroying s → system_inv destroying (system_run destroying cs s).
Proof.
  revert s. induction cs as [|c cs IH]; intros s Hs; simpl; [done|]. by apply IH, system_step_inv.
Qed.

(** How many steps the thread is from using the stub. *)
Definition distance (p : pc) : nat :=
  match p with
  | AtHead _ => 3
  | Sleeping _ => 2
  | Calling _ | BackingOff _ => 1
  | Exited _ | Crashed => 0
  end.

(** With the stub gone and no request to stop, every step of the thread takes it
    nearer. *)
Lemma doomed it n p :
  registry_stub_ n = false → ended p = false →
  let '(_, _, p') := thread_step false it n p in
  ended p' = false ∧ distance p' = pred (distance p).
Proof. intros Hstub Hp. destruct p; simpl; rewrite ?Hstub; done. Qed.

Lemma doomed_run cs s :
  system_inv false s → stopper s ∈ [StopChannel; StopFlag; StopDone] → ended (heartbeat s) = false →
  let s' := system_run false cs s in
  ended (heartbeat s') = false ∧ distance (heartbeat s') = distance (heartbeat s) - heartbeats cs.
Proof.
  revert s. induction cs as [|c cs IH]; intros s Hinv Hq Hp; simpl.
  { unfold heartbeats. simpl. split; [done|lia]. }
  pose proof (system_step_inv false c s Hinv) as Hinv'.
  assert (registry_stub_ (node s) = false ∧ heartbeat_thread_ (node s) = JThread.spawned)
    as [Hstub Hth].
  { destruct Hinv as [Hi _]. repeat (apply elem_of_cons in Hq as [Hq|Hq]; [by rewrite Hq in Hi|]).
    by apply elem_of_nil in Hq. }
  assert (stopper (system_step false c s) ∈ [StopChannel; StopFlag; StopDone]
    ∧ ended (heartbeat (system_step false c s)) = false
    ∧ distance (heartbeat (system_step false c s))
      = distance (heartbeat s) - (if is_heartbeat c then 1 else 0)) as (Hq' & Hp' & Hd).
  { destruct s as [n fl p q], c as [it|reply]; simpl in *.
    - rewrite Hth. simpl. pose proof (doomed it n p Hstub Hp) as Hdoom.
      destruct (thread_step false it n p) as [[acts n'] p']. simpl.
      destruct Hdoom as [? ->]. split_and!; [done|done|lia].
    - repeat (apply elem_of_cons in Hq as [->|Hq]; [simpl; rewrite !elem_of_cons; split_and!; [auto|done|lia]|]).
      by apply elem_of_nil in Hq. }
  destruct (IH _ Hinv' Hq' Hp') as [Hend Hdist]. split; [done|]. rewrite Hdist, Hd.
  unfold heartbeats. rewrite filter_cons. destruct (is_heartbeat c); simpl; lia.
Qed.

Lemma stub_stays_null destroying c s :
  registry_stub_ (node s) = false → registry_stub_ (node (system_step destroying c s)) = false.
Proof.
  destruct s as [n fl p q], c as [it|reply]; simpl; intros Hstub.
  - set (stop := JThread.stop_requested _). pose proof (thread_step_keeps stop it n p) as Hkeep.
    destruct (thread_step stop it n p) as [[acts n'] p']. simpl. destruct Hkeep. congruence.
  - destruct q; simpl; rewrite ?Hstub; try done; repeat (case_match; simplify_eq/=; try done).
Qed.

(** Past its check, the thread dereferences the null stub whatever happens. *)
Lemma doomed_call destroying cs s :
  registry_stub_ (node s) = false →
  (∃ k, heartbeat s = Calling k ∨ heartbeat s = BackingOff k) → 1 ≤ heartbeats cs →
  heartbeat (system_run destroying cs s) = Crashed.
Proof.
  assert (∀ cs s, heartbeat s = Crashed → heartbeat (system_run destroying cs s) = Crashed) as Hstays.
  { intros cs'. induction cs' as [|c cs' IH]; intros s' Hs'; simpl; [done|]. apply IH.
    destruct s' as [n fl p q], c; simpl in *; subst; simpl; [done|].
    by destruct (stopper_step _ _ _ _ _ _) as [[[? ?] ?] ?]. }
  revert s. induction cs as [|c cs IH]; intros s Hstub Hp Hcs; [unfold heartbeats in Hcs; simpl in Hcs; lia|].
  pose proof (stub_stays_null destroying c s Hstub) as Hstub'. simpl.
  destruct c as [it|reply].
  - apply Hstays. destruct s as [n fl p q]. simpl in *.
    destruct Hp as [k [-> | ->]]; simpl; by rewrite Hstub.
  - apply IH; [done| |done]. destruct s as [n fl p q]. simpl in *.
    by destruct (stopper_step _ _ _ _ _ _) as [[[? ?] ?] ?].
Qed.

(** C29: [stop] does not stop the heartbeat thread, although it takes the stub
    away.  However the statements of [stop] (or of the destructor) and the steps of
    the thread interleave: as long as the stub is there the thread never
    dereferences a null pointer.  Once it is gone and the thread is still in its
    loop, a plain [stop] dooms it: three more of its steps end in the null
    dereference.  Under the destructor, which asks the thread to stop after that,
    a thread that is past its check or in a reconnection's backoff is doomed all
    the same; the destructor only ends when the thread has left its loop. *)
Theorem stop_leaves_heartbeat_thread destroying n flag p cs :
  started n → in_loop p →
  let s := system_run destroying cs (mk_system n flag p StopBegin) in
  (registry_stub_ (node s) = true → heartbeat s ≠ Crashed)
  ∧ (registry_stub_ (node s) = false → ended (heartbeat s) = false →
       (destroying = false → ∀ cs', 3 ≤ heartbeats cs' →
          heartbeat (system_run false cs' s) = Crashed)
       ∧ ((∃ k, heartbeat s = Calling k ∨ heartbeat s = BackingOff k) →
          ∀ cs', 1 ≤ heartbeats cs' → heartbeat (system_run destroying cs' s) = Crashed))
  ∧ (stopper s = Destroyed → ended (heartbeat s) = true).
Proof.
  intros Hn Hp s.
  assert (system_inv destroying s) as Hinv.
  { apply system_run_inv. split; [done|]. intros _. by destruct p. }
  pose proof Hinv as [Hq Hsafe]. split_and!; [done| |intros Hd; rewrite Hd in Hq; apply Hq].
  intros Hstub Hend. split; [|intros Hp' cs'; by apply doomed_call].
  intros -> cs' Hcs'.
  assert (stopper s ∈ [StopChannel; StopFlag; StopDone]) as Hin.
  { rewrite !elem_of_cons. destruct (stopper s); simpl in Hq; unfold started in Hq;
      first [by auto|by destruct Hq|decompose_hyps; congruence]. }
  destruct (doomed_run cs' s Hinv Hin Hend) as [Hend' Hdist].
  assert (distance (heartbeat s) ≤ 3) by (destruct (heartbeat s); simpl; lia).
  assert (distance (heartbeat (system_run false cs' s)) = 0) as H0 by lia.
  by destruct (heartbeat (system_run false cs' s)).
Qed.

(** ** A second start *)

Lemma stop_started flag reply n :
  started n →
  let n' := (stop flag reply n).2 in is_running_ n' = false ∧ coro_adapter_ n' = None.
Proof.
  intros (Hrun & [a Ha] & Hstub & Hth). unfold stop. rewrite Hrun, Hth. simpl.
  destruct (is_registered_ n), reply; simpl; rewrite Ha; destruct flag; done.
Qed.

(** A node that was stopped and started again runs without its coroutine
    adapter, which only the constructor makes; stopping it again dereferences the
    null adapter, before the stub is reset and before it counts as stopped. *)
Theorem second_stop_dereferences_null n flag1 r1 info reg flag2 r2 :
  started n → status_ok reg.1 = true → RegisterResponse.success reg.2 = true →
  let n1 := (stop flag1 r1 n).2 in
  let '(_, ok, n2) := start info reg n1 in
  let '(acts, _, n3) := stop flag2 r2 n2 in
  ok = true ∧ is_running n2 = true ∧ get_coro_adapter n2 = None
  ∧ last acts = Some NullDereference ∧ is_running n3 = true.
Proof.
  intros Hn Hst Hsucc n1.
  destruct (stop_started flag1 r1 n Hn) as (Hrun & Hnone). fold n1 in Hrun, Hnone.
  clearbody n1.
  unfold start. rewrite Hrun. destruct reg as [st resp]. simpl in *. rewrite Hst, Hsucc. simpl.
  unfold stop. simpl. destruct r2, n1. simpl in *. by rewrite Hnone.
Qed.

End threads.

(** * Examples *)

#[local] Instance sample_status : GrpcStatus := concrete_status.

(** A node after its first registration. *)
Definition started_node : Node.t :=
  (Node.start NodeInfo.empty (Status_OK, RegisterResponse.mk true "lidar_01_42" 1000 "")
     (Node.Node "lidar_01" "localhost:50051")).2.

Lemma started_node_started : started started_node.
Proof. split_and!; [done|by eexists|done|done]. Qed.

Definition good_beat : Node.iteration :=
  Node.mk_iteration false false 5 Node.GetHeartbeatPayload
    (Status_OK, HeartbeatResponse.mk true 0 false) NodeInfo.empty
    (Status_OK, RegisterResponse.empty).

Definition dereg_reply : Status * DeregisterResponse.t := (Status_OK, DeregisterResponse.mk true "").

(** Two good heartbeats and a refused one, which is answered with a new session. *)
Lemma thread_is_loop_witness :
  let steps := replicate 6 (false, good_beat) ++ replicate 2 (false, refused_beat)
               ++ [(false, refused_beat); (false, good_beat)] in
  (∃ its, matches started_node 0 its (thread_run steps started_node (AtHead 0)))
  ∧ (thread_run steps started_node (AtHead 0)).2 = AtHead 1
  ∧ length (thread_run steps started_node (AtHead 0)).1.1 = 9.
Proof.
  intros steps. split; [|by split; vm_compute].
  apply (thread_is_loop started_node 0 eq_refl).
Defined.

(** The thread is past its check when [stop] begins; the destructor follows. *)
Lemma stop_leaves_heartbeat_thread_witness :
  let s := system_run true (replicate 5 (StopperStep dereg_reply))
             (mk_system started_node false (Calling 0) StopBegin) in
  stopper s = StopFlag
  ∧ heartbeat (system_run true [StopperStep dereg_reply; StopperStep dereg_reply;
                                HeartbeatStep good_beat] s) = Crashed.
Proof.
  intros s. split; [by vm_compute|].
  destruct (stop_leaves_heartbeat_thread true started_node false (Calling 0)
    (replicate 5 (StopperStep dereg_reply)) started_node_started I) as (_ & Hdoom & _).
  destruct Hdoom as [_ Hcall]; [by vm_compute|by vm_compute|].
  apply Hcall; [exists 0%Z; left; by vm_compute|by vm_compute; lia].
Defined.

Lemma second_stop_dereferences_null_witness :
  let reg := (Status_OK, RegisterResponse.mk true "lidar_01_43" 1000 "") in
  let n1 := (Node.stop false dereg_reply started_node).2 in
  let n2 := (Node.start NodeInfo.empty reg n1).2 in
  last (Node.stop true dereg_reply n2).1.1 = Some Node.NullDereference.
Proof.
  pose proof (second_stop_dereferences_null started_node false dereg_reply NodeInfo.empty
    (Status_OK, RegisterResponse.mk true "lidar_01_43" 1000 "") true dereg_reply
    started_node_started eq_refl eq_refl) as Hs.
  vm_compute in Hs |- *. exact (proj1 (proj2 (proj2 (proj2 Hs)))).
Defined.
