(* ===== verification/NodeSystem.v ===== *)
(** * A node and the registry

    Composes [NodeBase] with [Registry] through gRPC: the replies the node's calls
    leave are computed from the registry's handlers by [unary_call]. *)

From Stdlib Require Import ZArith Lia.
From stdpp Require Import prelude gmap strings list.
From S2P Require Import Prelude UnorderedMap Messages Grpc NodeDir Table Registry Health.
From S2P Require Import RegistrySystem Coro NodeBase.

Section composition.
  Context {T : Type} `{NodeDirectoryLaws T} `{UL : UnaryCallLaws}.
  Implicit Types s : RegistryService.t T.
  Import RegistryService.

(** A blocking call from a node to the registry: what the caller holds, and the
    registry afterwards. *)
Definition rpc_Register (req : RegisterRequest.t) (rand now : Z) s :
    (Status * RegisterResponse.t) * RegistryService.t T :=
  let '(st, resp, s') := Register req RegisterResponse.empty rand now s in
  (unary_call (Some (st, resp)) RegisterResponse.empty, s').

Definition rpc_Heartbeat (req : HeartbeatRequest.t) (now : Z) s :
    (Status * HeartbeatResponse.t) * RegistryService.t T :=
  let '(st, resp, s') := Heartbeat req HeartbeatResponse.empty now s in
  (unary_call (Some (st, resp)) HeartbeatResponse.empty, s').

Definition rpc_Deregister (req : DeregisterRequest.t) s :
    (Status * DeregisterResponse.t) * RegistryService.t T :=
  let '(st, resp, s') := Deregister req DeregisterResponse.empty s in
  (unary_call (Some (st, resp)) DeregisterResponse.empty, s').

(** A Heartbeat call of the node reached some registry in some state, or none. *)
Definition from_registry (it : Node.iteration) : Prop :=
  Node.heartbeat_reply it = unary_call None HeartbeatResponse.empty
  ∨ ∃ req now s, Node.heartbeat_reply it = (rpc_Heartbeat req now s).1.

End composition.

Section claims.
  Context {T : Type} `{NodeDirectoryLaws T} `{GL : !GrpcStatusLaws G}
    `{UL : !@UnaryCallLaws G U}.
  Implicit Types s : RegistryService.t T.
  Import RegistryService.

(** The registry is ready to register [id]. *)
Definition registrable (id : string) s : Prop :=
  is_running s = true ∧ id ≠ "" ∧ Directory.accepts (svc_capacity s) id (svc_abs s).

#[global] Instance registrable_dec id s : Decision (registrable id s).
Proof. unfold registrable. apply _. Defined.

(** Both calls, as the node sees them. *)
Lemma rpc_Register_spec info rand now s :
  svc_wf s →
  let id := NodeInfo.node_id info in
  let '(reply, s1) :=
    rpc_Register (RegisterRequest.set_node_info info RegisterRequest.empty) rand now s in
  svc_wf s1
  ∧ (registrable id s →
       reply = (Status_OK, RegisterResponse.mk true (make_session_id id rand) 1000 "")
       ∧ svc_abs s1 = <[id := NodeEntry.fresh info (make_session_id id rand) now]> (svc_abs s))
  ∧ (¬ registrable id s → status_ok reply.1 = false ∧ svc_abs s1 = svc_abs s).
Proof.
  intros Hwf id. destruct s as [tb run].
  unfold rpc_Register, Register, Register_admitted, registrable, svc_wf, svc_abs, svc_capacity in *.
  simpl in *.
  destruct run; simpl.
  2: { rewrite unary_call_error by apply status_ok_error.
    split_and!; [done|by intros [? _]|intros _; split; [apply status_ok_error|done]]. }
  change (RegisterRequest.get_node_info (RegisterRequest.set_node_info info RegisterRequest.empty))
    with info.
  fold id. destruct (String.eqb_spec id "") as [Hid|Hid]; simpl.
  { rewrite unary_call_error by apply status_ok_error.
    split_and!; [done|tauto|intros _; split; [apply status_ok_error|done]]. }
  destruct (register_node_refines info (make_session_id id rand) now tb Hwf) as (Hs & Hw & _).
  cbv beta in Hs. unfold Directory.register in Hs. fold id in Hs.
  destruct (register_node _ _ _ tb) as [registered tb']. simpl in *.
  case_decide as Hacc; injection Hs as <- Habs; simpl.
  - rewrite unary_call_ok by apply status_ok_OK. split_and!; [done|done|tauto].
  - rewrite unary_call_error by apply status_ok_error.
    split_and!; [done|tauto|intros _; split; [apply status_ok_error|done]].
Qed.

Lemma rpc_Deregister_spec req e s :
  svc_wf s → svc_abs s !! DeregisterRequest.node_id req = Some e →
  let '(reply, s1) := rpc_Deregister req s in
  reply = (Status_OK, DeregisterResponse.mk true "Node deregistered gracefully")
  ∧ svc_abs s1 = delete (DeregisterRequest.node_id req) (svc_abs s).
Proof.
  intros Hwf He. destruct s as [tb run].
  unfold rpc_Deregister, Deregister, svc_wf, svc_abs in *. simpl in *.
  destruct (deregister_node_refines (DeregisterRequest.node_id req) tb Hwf) as (Hs & _ & _).
  cbv beta in Hs. unfold Directory.deregister, Directory.known in Hs.
  destruct (deregister_node _ tb) as [removed tb']. simpl in *.
  injection Hs as <- Habs. rewrite He, bool_decide_eq_true_2 by done. simpl.
  rewrite unary_call_ok by apply status_ok_OK. done.
Qed.

Lemma rpc_Heartbeat_spec req now e s :
  svc_wf s → HeartbeatRequest.node_id req ≠ "" →
  svc_abs s !! HeartbeatRequest.node_id req = Some e →
  let '(reply, s1) := rpc_Heartbeat req now s in
  reply = (Status_OK, HeartbeatResponse.mk true 0 false)
  ∧ svc_abs s1 !! HeartbeatRequest.node_id req
    = Some (NodeEntry.refresh (HeartbeatRequest.cpu_usage req)
              (HeartbeatRequest.memory_usage req) now e).
Proof.
  intros Hwf Hid He. destruct s as [tb run].
  unfold rpc_Heartbeat, Heartbeat, svc_wf, svc_abs in *. simpl in *.
  apply String.eqb_neq in Hid as ->.
  destruct (update_heartbeat_refines (HeartbeatRequest.node_id req)
              (HeartbeatRequest.cpu_usage req) (HeartbeatRequest.memory_usage req)
              (HeartbeatRequest.active_connections req) now tb Hwf) as (Hs & _ & _).
  cbv beta in Hs. unfold Directory.heartbeat, Directory.known in Hs.
  destruct (update_heartbeat _ _ _ _ _ tb) as [found tb']. simpl in *.
  injection Hs as <- Habs. rewrite He, bool_decide_eq_true_2 by done. simpl.
  rewrite unary_call_ok by apply status_ok_OK. split; [done|].
  rewrite <-Habs, lookup_alter_eq, He. done.
Qed.

(** The heartbeat of a node that the registry does not know. *)
Lemma rpc_Heartbeat_unknown req now s :
  svc_wf s → svc_abs s !! HeartbeatRequest.node_id req = None →
  let '(reply, s1) := rpc_Heartbeat req now s in
  status_ok reply.1 = false ∧ svc_abs s1 = svc_abs s.
Proof.
  intros Hwf He. destruct s as [tb run].
  unfold rpc_Heartbeat, Heartbeat, svc_wf, svc_abs in *. simpl in *.
  destruct (String.eqb _ ""); simpl.
  { rewrite unary_call_error by apply status_ok_error. split; [apply status_ok_error|done]. }
  destruct (update_heartbeat_refines (HeartbeatRequest.node_id req)
              (HeartbeatRequest.cpu_usage req) (HeartbeatRequest.memory_usage req)
              (HeartbeatRequest.active_connections req) now tb Hwf) as (Hs & _ & _).
  cbv beta in Hs. unfold Directory.heartbeat, Directory.known in Hs.
  destruct (update_heartbeat _ _ _ _ _ tb) as [found tb']. simpl in *.
  injection Hs as <- Habs. rewrite He, bool_decide_eq_false_2 by (by intros [? ?]). simpl.
  rewrite unary_call_error by apply status_ok_error. split; [apply status_ok_error|].
  rewrite <-Habs. apply map_eq. intros id'. rewrite lookup_alter.
  case_decide; [subst; by rewrite He|done].
Qed.

(** The registry asks for a reconnection only in a response that a non-ok status
    keeps from the node. *)
Lemma registry_never_refuses it :
  from_registry (T := T) it → beat_refused it = false.
Proof.
  intros [Hreply|(req & now & s & Hreply)]; unfold beat_refused, beat_ok; rewrite Hreply.
  - destruct (unary_call_unreachable HeartbeatResponse.empty) as [_ ->].
    simpl. by rewrite andb_false_r.
  - unfold rpc_Heartbeat, Heartbeat. destruct (String.eqb _ ""); simpl.
    { rewrite unary_call_error by apply status_ok_error. simpl. by rewrite andb_false_r. }
    destruct (update_heartbeat _ _ _ _ _ _) as [[] tb]; simpl.
    + rewrite unary_call_ok by apply status_ok_OK. simpl. by rewrite status_ok_OK.
    + rewrite unary_call_error by apply status_ok_error. simpl. by rewrite andb_false_r.
Qed.

(** A pass that is not asked to stop, after a heartbeat that was not refused. *)
Lemma unrefused_body it n :
  Node.stop_after_sleep it = false → beat_refused it = false →
  Node.body it n 0 = ([Node.Slept (Node.heartbeat_interval_ms_ n);
                       Node.SentHeartbeat (Node.heartbeat_request n it)], n, 0%Z, false).
Proof. intros Hsleep Hit. rewrite body_cases by done. rewrite Hit. by destruct (beat_ok it). Qed.

Lemma unrefused_loop its n :
  Forall (λ it, beat_refused it = false) its →
  let '(acts, n', attempts, exited) := Node.heartbeat_loop its n 0 in
  n' = n ∧ attempts = 0%Z
  ∧ Forall (λ a, match a with Node.Slept _ | Node.SentHeartbeat _ => True | _ => False end) acts
  ∧ (exited = true → Exists (λ it, not_stopped it = false) its).
Proof.
  intros Hall. induction Hall as [|it its Hit _ IH]; [by split_and!|].
  cbn [Node.heartbeat_loop]. unfold not_stopped.
  destruct (Node.stop_at_head it) eqn:Hhead.
  { split_and!; [done|done|done|]. intros _. left. by rewrite Hhead. }
  destruct (Node.stop_after_sleep it) eqn:Hsleep.
  { unfold Node.body. rewrite Hsleep. split_and!; [done|done|by repeat constructor|].
    intros _. left. by rewrite Hhead, Hsleep. }
  rewrite unrefused_body by done.
  destruct (Node.heartbeat_loop its n 0) as [[[acts n'] att] ex].
  destruct IH as (-> & -> & Hacts & Hex). split_and!; [done|done| |].
  - simpl. by repeat constructor.
  - intros Hx. right. by apply Hex.
Qed.

(** C13: a node never reconnects.  The registry answers the heartbeat of a node it
    does not know with a NOT_FOUND status and a response that asks to reconnect;
    gRPC does not deliver the response of a call that fails, so the node's
    response object stays at its defaults and its reconnection branch is never
    entered: whatever states of the registry its heartbeats meet, the loop only
    sleeps and sends heartbeats, until it is asked to stop. *)
Theorem node_never_reconnects its n :
  Forall (from_registry (T := T)) its →
  let '(acts, n', attempts, exited) := Node.run_heartbeat its n in
  n' = n ∧ attempts = 0%Z
  ∧ Forall (λ a, match a with Node.Slept _ | Node.SentHeartbeat _ => True | _ => False end) acts
  ∧ (exited = true → Exists (λ it, not_stopped it = false) its).
Proof.
  intros Hall. apply unrefused_loop. eapply Forall_impl; [done|]. apply registry_never_refuses.
Qed.

(** C39: starting a node against a running registry with room and no node of its
    name registers it: [start] returns true, the node runs with the session and
    the interval of the registry, and the registry holds its entry.  Stopping it
    takes exactly that entry out again, and leaves the node neither running nor
    registered.  A refused registration starts no thread and leaves the registry's
    directory as it was; of the node it changes the channel and the stub alone, which
    have been made before the registration is tried and stay. *)
Theorem node_start_stop_roundtrip n info rand now flag s :
  svc_wf s → Node.is_running_ n = false → is_Some (Node.coro_adapter_ n) →
  NodeInfo.node_id info = Node.node_id_ n →
  let req := RegisterRequest.set_node_info info RegisterRequest.empty in
  let '(reg_reply, s1) := rpc_Register req rand now s in
  let '(acts, started, n1) := Node.start info reg_reply n in
  if decide (registrable (Node.node_id_ n) s) then
    started = true ∧ Node.is_running n1 = true
    ∧ Node.session_id_ n1 = make_session_id (Node.node_id_ n) rand
    ∧ Node.heartbeat_interval_ms_ n1 = 1000%Z
    ∧ svc_abs s1 = <[Node.node_id_ n :=
        NodeEntry.fresh info (make_session_id (Node.node_id_ n) rand) now]> (svc_abs s)
    ∧ let dreq := DeregisterRequest.set_node_id (Node.node_id_ n) DeregisterRequest.empty in
      let '(dereg_reply, s2) := rpc_Deregister dreq s1 in
      let '(acts2, _, n2) := Node.stop flag dereg_reply n1 in
      acts2 = [Node.SentDeregister dreq]
      ∧ status_ok dereg_reply.1 = true ∧ DeregisterResponse.success dereg_reply.2 = true
      ∧ svc_abs s2 = svc_abs s
      ∧ Node.is_running n2 = false ∧ Node.is_registered_ n2 = false
  else
    acts = [Node.SentRegister req] ∧ started = false ∧ Node.is_running n1 = false
    ∧ n1 = Node.set_registry true n ∧ svc_abs s1 = svc_abs s.
Proof.
  intros Hwf Hrun [a Ha] Hid req. pose proof (rpc_Register_spec info rand now s Hwf) as Hreg.
  cbv zeta in Hreg. fold req in Hreg. rewrite Hid in Hreg.
  destruct (rpc_Register req rand now s) as [reply s1]. destruct Hreg as (Hwf1 & Hyes & Hno).
  unfold Node.start. rewrite Hrun. case_decide as Hacc.
  - destruct (Hyes Hacc) as [-> Habs1]. simpl. rewrite status_ok_OK. simpl.
    split_and!; [done..|]. set (dreq := DeregisterRequest.set_node_id _ _).
    pose proof (rpc_Deregister_spec dreq
      (NodeEntry.fresh info (make_session_id (Node.node_id_ n) rand) now) s1 Hwf1) as Hd.
    rewrite Habs1 in Hd. specialize (Hd (lookup_insert_eq _ _ _)).
    destruct (rpc_Deregister dreq s1) as [dreply s2]. destruct Hd as [-> Habs2].
    unfold Node.stop. simpl. rewrite Ha. fold dreq.
    assert (svc_abs s2 = svc_abs s) as Hback.
    { rewrite Habs2. apply delete_insert_id. apply Hacc. }
    destruct flag; simpl; rewrite status_ok_OK; by split_and!.
  - destruct (Hno Hacc) as [Hst Habs1]. destruct reply as [st resp]. simpl in *.
    rewrite Hst. by split_and!.
Qed.

End claims.

(** * Examples *)

#[local] Instance sample_order : HashOrder NodeEntry.t := front_order _.
#[local] Instance sample_status : GrpcStatus := concrete_status.
#[local] Instance sample_status_laws : GrpcStatusLaws sample_status := concrete_status_laws.
#[local] Instance sample_call : UnaryCall sample_status := concrete_call.
#[local] Instance sample_call_laws : UnaryCallLaws sample_call := concrete_call_laws.

Definition sample_node : Node.t := Node.Node "lidar_01" "localhost:50051".

Definition sample_hb_req : HeartbeatRequest.t := sample_heartbeat "lidar_01".

(** The registry does not know the node: every heartbeat is answered NOT_FOUND. *)
Definition unknown_beat : Node.iteration :=
  Node.mk_iteration false false 9 (float_zero, float_zero, 0%Z)
    (rpc_Heartbeat sample_hb_req 9 (sample_service 2)).1
    (sample_info "lidar_01" []) (Status_OK, RegisterResponse.empty).

Lemma node_never_reconnects_witness :
  let '(acts, _, attempts, exited) := Node.run_heartbeat (replicate 20 unknown_beat) sample_node in
  attempts = 0%Z ∧ exited = false ∧ length acts = 40
  ∧ Forall (λ a, match a with Node.Slept _ | Node.SentHeartbeat _ => True | _ => False end) acts.
Proof.
  assert (Forall (from_registry (T := NodeTable.t)) (replicate 20 unknown_beat)) as Hall.
  { apply Forall_replicate. right. by exists sample_hb_req, 9%Z, (sample_service 2). }
  pose proof (node_never_reconnects _ sample_node Hall) as Hn.
  destruct (Node.run_heartbeat _ _) as [[[acts n'] att] ex] eqn:Hrun.
  destruct Hn as (_ & Hatt & Hacts & _). vm_compute in Hrun. injection Hrun as <- _ _ <-.
  split_and!; [exact Hatt|done|by vm_compute|exact Hacts].
Defined.

Lemma node_start_stop_roundtrip_witness :
  let req := RegisterRequest.set_node_info (sample_info "lidar_01" ["lidar"])
               RegisterRequest.empty in
  let '(reply, s1) := rpc_Register req 42 7 (sample_service 2) in
  let '(_, started, n1) := Node.start (sample_info "lidar_01" ["lidar"]) reply sample_node in
  started = true ∧ Node.session_id_ n1 = "lidar_01_42".
Proof.
  pose proof (node_start_stop_roundtrip sample_node (sample_info "lidar_01" ["lidar"]) 42 7 false
                (sample_service 2)) as Hrt.
  cbv zeta in Hrt |- *.
  destruct (rpc_Register _ _ _ _) as [reply s1]. destruct (Node.start _ _ _) as [[acts st] n1].
  rewrite decide_True in Hrt.
  - destruct Hrt as (Hst & _ & Hsess & _);
      [apply sample_service_wf; by split|done|by eexists|done|].
    split; [exact Hst|exact Hsess].
  - split; [done|split; [done|]]. by split; vm_compute.
Defined.
