(* ===== verification/NodeTime.v ===== *)
(** * A node's heartbeats in real time

    Composes the heartbeat loop of src/node/node_base.cpp (NodeBase) with the
    registry process in time (TimedSystem), as TimedClient does for the LIDAR
    client.  The loop sleeps the registry's interval before each heartbeat and never
    backs off; and it never registers again (NodeSystem), so a node that the checker
    has dropped stays dropped. *)

From Stdlib Require Import ZArith Lia.
From stdpp Require Import prelude gmap strings list.
From S2P Require Import Prelude UnorderedMap Messages Grpc NodeDir Table Registry Health RegistrySystem Coro NodeBase NodeSystem TimedSystem.

Section node.
  Context `{G : GrpcStatus}.

(** A pass through the loop in time. *)
Record timed_pass := mk_timed_pass {
  begins : Z;                (* when the pass begins, with its sleep *)
  sees : Node.iteration;     (* what it observes *)
  arrives : option Z;        (* when its heartbeat is handled by the registry, if ever *)
}.

Definition slept (acts : list Node.action) : Z :=
  foldr (λ a k, match a with Node.Slept ms => ms + k | _ => k end)%Z 0%Z acts.

(** The passes of a loop that goes on: the heartbeat follows the sleep, and the next
    pass the heartbeat's answer; calls take at most [L], the scheduler adds at most
    [lag]. *)
Fixpoint node_timed (L lag : Z) (n : Node.t) (k : Z) (ps : list timed_pass) : Prop :=
  match ps with
  | [] => True
  | p :: ps' =>
      not_stopped (sees p) = true
      ∧ let '(acts, n', k', _) := Node.body (sees p) n k in
        match arrives p with
        | Some t => (begins p + slept acts ≤ t ≤ begins p + slept acts + lag + L)%Z
        | None => beat_ok (sees p) = false
        end
        ∧ match ps' with
          | [] => True
          | next :: _ =>
              (begins p + slept acts ≤ begins next ≤ begins p + slept acts + lag + L)%Z
              ∧ match arrives p with
                | Some t => beat_ok (sees p) = true → (t ≤ begins next)%Z
                | None => True
                end
          end
        ∧ node_timed L lag n' k' ps'
  end.

(** When the pass with [j] failures behind it begins at the latest, counted from the
    last heartbeat that arrived. *)
Definition latest (n : Node.t) (L lag j : Z) : Z :=
  (lag + L + j * (Node.heartbeat_interval_ms_ n + lag + L))%Z.

End node.

Section spacing.
  Context `{GL : GrpcStatusLaws}.
  Implicit Types n : Node.t.

(** A loop whose heartbeats are never refused sleeps its interval in every pass. *)
Lemma node_timed_cons L lag n p ps :
  beat_refused (sees p) = false → node_timed L lag n 0 (p :: ps) →
  let I := Node.heartbeat_interval_ms_ n in
  match arrives p with
  | Some t => (begins p + I ≤ t ≤ begins p + I + lag + L)%Z
  | None => beat_ok (sees p) = false
  end
  ∧ match ps with
    | [] => True
    | next :: _ =>
        (begins p + I ≤ begins next ≤ begins p + I + lag + L)%Z
        ∧ match arrives p with
          | Some t => beat_ok (sees p) = true → (t ≤ begins next)%Z
          | None => True
          end
    end
  ∧ node_timed L lag n 0 ps.
Proof.
  intros Href (Hgo & Htm). unfold not_stopped in Hgo. apply andb_true_iff in Hgo as [_ Hgo].
  apply negb_true_iff in Hgo. rewrite unrefused_body in Htm by done.
  simpl in Htm. by rewrite Z.add_0_r in Htm.
Qed.

Lemma node_beats_spaced L lag m n r ps j last_pass stop :
  (0 ≤ L)%Z → (0 ≤ lag)%Z → (0 ≤ Node.heartbeat_interval_ms_ n)%Z →
  Forall (λ p, beat_refused (sees p) = false) ps →
  node_timed L lag n 0 ps → streak_ok (λ p, beat_ok (sees p)) m j ps → (0 ≤ j ≤ m)%Z →
  (∀ p, head ps = Some p → begins p ≤ r + latest n L lag j)%Z →
  last ps = Some last_pass →
  (stop ≤ begins last_pass + Node.heartbeat_interval_ms_ n + lag + L)%Z →
  spaced (latest n L lag (m + 1)) r (omap arrives ps ++ [stop]).
Proof.
  intros HL Hlag HI Href. revert r j.
  induction Href as [|p ps Hp _ IH]; intros r j Htm Hst Hj Hhead Hlast Hstop; [done|].
  specialize (Hhead p eq_refl). apply node_timed_cons in Htm as (Harr & Hnext & Htm); [|done].
  set (I := Node.heartbeat_interval_ms_ n) in *.
  assert (∀ a, (0 ≤ a ≤ m + 1)%Z → (latest n L lag a ≤ latest n L lag (m + 1))%Z) as Hmono.
  { intros a Ha. unfold latest. fold I. nia. }
  assert (∀ a, latest n L lag (a + 1) = latest n L lag a + I + lag + L)%Z as Hsucc.
  { intros a. unfold latest. fold I. lia. }
  pose proof (Hmono (j + 1)%Z ltac:(lia)) as Hj1. rewrite Hsucc in Hj1.
  assert (0 ≤ latest n L lag j)%Z as Hpos by (unfold latest; fold I; nia).
  set (r1 := match arrives p with Some t => t | None => r end).
  assert (spaced (latest n L lag (m + 1)) r1 (omap arrives ps ++ [stop])) as Hrest.
  { destruct ps as [|next ps].
    - simplify_eq/=. split; [|done]. unfold r1. destruct (arrives last_pass); lia.
    - destruct Hnext as [Hb Ha]. simpl in Hst.
      apply (IH r1 (if beat_ok (sees p) then 0 else j + 1)%Z); [done| | | | |done].
      + destruct (beat_ok (sees p)); [done|by destruct Hst].
      + destruct (beat_ok (sees p)); lia.
      + intros p' [= ->]. unfold r1. destruct (arrives p) as [t|].
        * assert (latest n L lag 0 = lag + L)%Z as H0 by (unfold latest; lia).
          destruct (beat_ok (sees p)); rewrite ?Hsucc; lia.
        * rewrite Harr. rewrite Hsucc. lia.
      + by rewrite last_cons_cons in Hlast. }
  cbn [omap list_omap]. unfold r1 in Hrest. destruct (arrives p) as [t|]; [|done].
  simpl. split; [lia|done].
Qed.

(** After a heartbeat that arrived at [r], every lost one puts an interval between. *)
Lemma lost_beats L lag n r fails next tail :
  Forall (λ p, beat_refused (sees p) = false) fails →
  node_timed L lag n 0 (fails ++ next :: tail) →
  (∀ p, head (fails ++ next :: tail) = Some p → r ≤ begins p)%Z →
  (r + Z.of_nat (length fails) * Node.heartbeat_interval_ms_ n ≤ begins next)%Z.
Proof.
  intros Href. revert r. induction Href as [|p fails Hp _ IH]; intros r Htm Hhead.
  { specialize (Hhead next eq_refl). simpl. lia. }
  specialize (Hhead p eq_refl). cbn [app] in Htm.
  apply node_timed_cons in Htm as (_ & Hnext & Htm); [|done].
  specialize (IH (r + Node.heartbeat_interval_ms_ n)%Z Htm).
  assert (∀ p', head (fails ++ next :: tail) = Some p' →
    r + Node.heartbeat_interval_ms_ n ≤ begins p')%Z as Hh.
  { intros p' Hp'. destruct (fails ++ next :: tail) as [|p2 l]; simplify_eq/=. lia. }
  specialize (IH Hh). simpl length. lia.
Qed.

End spacing.

(** * Properties *)

Section claims.
  Context {T : Type} `{NodeDirectoryLaws T} `{GL : !GrpcStatusLaws G}
    `{UL : !@UnaryCallLaws G U}.
  Context (h : HealthChecker.t).
  Implicit Types c : config T.

Lemma never_refused ps :
  Forall (λ p, from_registry (T := T) (sees p)) ps → Forall (λ p, beat_refused (sees p) = false) ps.
Proof. intros Hps. eapply Forall_impl; [exact Hps|]. intros p. apply registry_never_refuses. Qed.

(** What a node survives.  If its calls take at most [L] and the scheduler adds at
    most [lag], a registered node whose heartbeats never fail more than [m] times in a
    row stays in the table with its session, provided
    [(m + 1) (I + lag + L) + lag + L], [I] its heartbeat interval, is less than
    threshold minus one check intervals.  With the registry's own numbers that is so
    for no lost heartbeat at all, and calls of less than half a second. *)
Theorem node_stays_registered max_nodes t0 tevs0 tevs id e r c c' L lag m n ps last_pass :
  in_u32 max_nodes → (0 ≤ interval h)%Z → (0 < patience h)%Z →
  (0 ≤ L)%Z → (0 ≤ lag)%Z → (0 ≤ Node.heartbeat_interval_ms_ n)%Z → (0 ≤ m)%Z →
  (latest n L lag (m + 1) < (patience h - 1) * interval h)%Z →
  trun h tevs0 (boot max_nodes t0) = Some c → svc_abs (service c) !! id = Some e →
  last_refresh id None tevs0 (service (boot max_nodes t0)) = Some r →
  Forall (λ p, from_registry (T := T) (sees p)) ps →
  node_timed L lag n 0 ps → streak_ok (λ p, beat_ok (sees p)) m 0 ps →
  (∀ p, head ps = Some p → begins p ≤ r + latest n L lag 0)%Z →
  last ps = Some last_pass →
  trun h tevs c = Some c' → Forall (λ ev, deregister_of id ev = false) tevs.*2 →
  beat_times id tevs = omap arrives ps →
  (clock c' ≤ begins last_pass + Node.heartbeat_interval_ms_ n + lag + L)%Z →
  ∃ e', svc_abs (service c') !! id = Some e'
        ∧ NodeEntry.info e' = NodeEntry.info e ∧ NodeEntry.session_id e' = NodeEntry.session_id e.
Proof.
  intros Hmax Hint Hpos HL Hlag HI Hm Hfast Hrun0 He Hr Hfrom Htm Hst Hhead Hlast Hrun Hdr Hbeats Hend.
  pose proof (booted_id _ _ _ _ _ _ _ Hmax Hrun0 He) as Hid.
  eapply punctual_from; [exact Hint|exact Hfast|done|done| |done..| ].
  - rewrite <-Hr. by apply booted_not_early.
  - rewrite Hbeats. eapply (node_beats_spaced L lag m n r ps 0); try done.
    by apply never_refused.
Qed.

(** C6: lost for good.  A node loses [m] heartbeats in a row after one that arrived at
    [r], so that its next one comes no sooner than [m + 1] of its intervals after [r].
    If that is more than the threshold's cycles of a prompt checker, it is gone from
    the table by then, and although node, registry and network work from there on, it
    never comes back: its loop runs on but only sleeps and sends heartbeats, and
    unless somebody else registers its id the registry has no entry of it again. *)
Theorem node_lost_for_good max_nodes t0 delta tevs0 tevs1 id L lag n r first fails next tail c0 c t :
  in_u32 max_nodes → (0 ≤ interval h)%Z → (0 ≤ delta)%Z →
  (0 < patience h)%Z → in_u32 (patience h) →
  (patience h * cycle h delta + delta
   < (Z.of_nat (length fails) + 1) * Node.heartbeat_interval_ms_ n)%Z →
  Forall (λ p, from_registry (T := T) (sees p)) (first :: fails) →
  node_timed L lag n 0 (first :: fails ++ next :: tail) →
  beat_ok (sees first) = true → arrives first = Some r →
  trun h tevs0 (boot max_nodes t0) = Some c0 → clock c0 = r →
  trun h tevs1 c0 = Some c → prompt h delta (tevs0 ++ tevs1) (boot max_nodes t0) = true →
  Forall (λ ev, heartbeat_of id ev = false ∧ register_of id ev = false) tevs1.*2 →
  (begins next + Node.heartbeat_interval_ms_ n ≤ t ≤ due h delta (checker c))%Z →
  svc_abs (service c) !! id = None
  ∧ (∀ tevs2 c2, trun h tevs2 c = Some c2 → Forall (λ ev, register_of id ev = false) tevs2.*2 →
       svc_abs (service c2) !! id = None)
  ∧ ∀ its, Forall (from_registry (T := T)) its →
      let '(acts, n', _, exited) := Node.heartbeat_loop its n 0 in
      n' = n ∧ (exited = true → Exists (λ it, not_stopped it = false) its)
      ∧ Forall (λ a, match a with Node.Slept _ | Node.SentHeartbeat _ => True | _ => False end) acts.
Proof.
  intros Hmax Hint Hdelta Hpos Hthr Hslow Hfrom Htm Hok Hr Hrun0 Hc0 Hrun1 Hpr Hq [Hnext Hdue].
  apply never_refused in Hfrom. apply Forall_cons in Hfrom as [Href Hrefs].
  apply node_timed_cons in Htm as (_ & Hafter & Htm); [|done].
  assert (∀ p, head (fails ++ next :: tail) = Some p → r ≤ begins p)%Z as Hhead.
  { intros p Hp. destruct (fails ++ next :: tail) as [|p' l]; simplify_eq/=.
    destruct Hafter as [_ Ha]. rewrite Hr in Ha. by apply Ha. }
  pose proof (lost_beats L lag n r fails next tail Hrefs Htm Hhead) as Hlow.
  assert (svc_abs (service c) !! id = None) as Hgone.
  { eapply (long_silent_gone h delta max_nodes t0 tevs0 tevs1 id r t c0); try done; lia. }
  split_and!; [done| |].
  - intros tevs2 c2 Hrun2 Hreg. rewrite (trun_service h tevs2 c c2 Hrun2).
    apply silent_absent; [|done|done].
    apply (booted h max_nodes t0 (tevs0 ++ tevs1)); [done|]. by rewrite trun_app, Hrun0.
  - intros its Hits. pose proof (unrefused_loop its n) as Hloop.
    destruct (Node.heartbeat_loop its n 0) as [[[acts n'] att] ex].
    destruct Hloop as (-> & _ & Hacts & Hex); [|by split_and!].
    eapply Forall_impl; [exact Hits|]. apply registry_never_refuses.
Qed.

End claims.

(** * Examples *)

#[local] Instance sample_order : HashOrder NodeEntry.t := front_order _.
#[local] Instance sample_status : GrpcStatus := concrete_status.
#[local] Instance sample_status_laws : GrpcStatusLaws sample_status := concrete_status_laws.
#[local] Instance sample_call : UnaryCall sample_status := concrete_call.
#[local] Instance sample_call_laws : UnaryCallLaws sample_call := concrete_call_laws.

Definition sample_node : Node.t :=
  Node.set_session "lidar_01_42" 1000 (Node.Node "lidar_01" "localhost:50051").

Definition beat (reply : Status * HeartbeatResponse.t) : Node.iteration :=
  Node.mk_iteration false false 9 Node.GetHeartbeatPayload reply NodeInfo.empty
    (Status_OK, RegisterResponse.empty).

Definition arriving (begins arrives : Z) : timed_pass :=
  mk_timed_pass begins (beat (rpc_Heartbeat (sample_heartbeat "lidar_01") 9 sample_registered).1)
    (Some arrives).

Definition lost (begins : Z) : timed_pass :=
  mk_timed_pass begins (beat (unary_call None HeartbeatResponse.empty)) None.

Lemma arriving_from_registry b a : from_registry (T := NodeTable.t) (sees (arriving b a)).
Proof. right. by eexists _, _, _. Qed.

Lemma lost_from_registry b : from_registry (T := NodeTable.t) (sees (lost b)).
Proof. by left. Qed.

Definition steady : list timed_pass := [arriving 1000 2010; arriving 2020 3030].

Definition steady_history : list (Z * event) :=
  [(1000, EvIncrement); (1000, EvRemoveStale 3); (2000, EvIncrement); (2000, EvRemoveStale 3);
   (2010, ev_heartbeat "lidar_01" 9); (3010, EvIncrement); (3010, EvRemoveStale 3);
   (3030, ev_heartbeat "lidar_01" 9)]%Z.

Lemma node_stays_registered_witness :
  ∃ c c' e' : _,
    trun sample_checker [(990, ev_register "lidar_01")%Z] sample_boot = Some c
    ∧ trun sample_checker steady_history c = Some c'
    ∧ svc_abs (service c') !! "lidar_01" = Some e' ∧ NodeEntry.session_id e' = "lidar_01_42".
Proof.
  destruct (trun sample_checker [(990, ev_register "lidar_01")%Z] sample_boot) as [c|] eqn:Hc;
    [|by vm_compute in Hc].
  destruct (trun sample_checker steady_history c) as [c'|] eqn:Hc'.
  2: { exfalso. vm_compute in Hc. injection Hc as <-. by vm_compute in Hc'. }
  destruct (svc_abs (service c) !! "lidar_01") as [e|] eqn:He.
  2: { exfalso. vm_compute in Hc. injection Hc as <-. by vm_compute in He. }
  destruct (node_stays_registered sample_checker 5 0 [(990, ev_register "lidar_01")%Z] steady_history
              "lidar_01" e 990 c c' 20 10 0 sample_node steady (arriving 2020 3030))
    as (e' & He' & _ & Hs);
    [by unfold in_u32|done..|exact Hc|exact He|by vm_compute
    |by repeat (constructor; [apply arriving_from_registry|])
    |vm_compute; by split_and!|by vm_compute|by intros ? [= <-]|done|exact Hc'
    |by repeat constructor|by vm_compute| |].
  - vm_compute in Hc. injection Hc as <-. vm_compute in Hc'. injection Hc' as <-. by vm_compute.
  - exists c, c', e'. split_and!; [done|done|done|]. rewrite Hs.
    vm_compute in Hc. injection Hc as <-. vm_compute in He. by injection He as <-.
Defined.

(** Three heartbeats lost in a row. *)
Definition lost_history : list (Z * event) :=
  [(2000, EvIncrement); (2000, EvRemoveStale 3); (3000, EvIncrement); (3000, EvRemoveStale 3);
   (4000, EvIncrement); (4000, EvRemoveStale 3)]%Z.

Lemma node_lost_for_good_witness :
  let before := [(990, ev_register "lidar_01"); (1000, EvIncrement); (1000, EvRemoveStale 3);
                 (1010, ev_heartbeat "lidar_01" 9)]%Z in
  ∃ c c' : config NodeTable.t,
    trun sample_checker (before ++ lost_history) sample_boot = Some c
    ∧ trun sample_checker [(5010, ev_heartbeat "lidar_01" 9)]%Z c = Some c'
    ∧ svc_abs (service c') !! "lidar_01" = None.
Proof.
  intros before. destruct (trun sample_checker before sample_boot) as [c0|] eqn:Hc0;
    [|by vm_compute in Hc0].
  destruct (trun sample_checker lost_history c0) as [c|] eqn:Hc.
  2: { exfalso. vm_compute in Hc0. injection Hc0 as <-. by vm_compute in Hc. }
  destruct (trun sample_checker [(5010, ev_heartbeat "lidar_01" 9)]%Z c) as [c'|] eqn:Hc'.
  2: { exfalso. vm_compute in Hc0. injection Hc0 as <-. vm_compute in Hc. injection Hc as <-.
       by vm_compute in Hc'. }
  exists c, c'. split; [by rewrite trun_app, Hc0|]. split; [done|].
  destruct (node_lost_for_good sample_checker 5 0 20 before lost_history "lidar_01" 0 0 sample_node
              1010 (arriving 10 1010) [lost 1010; lost 2010; lost 3010] (lost 4010) [] c0 c 5010)
    as (_ & Hgone & _);
    try done; try (by unfold in_u32); try (by repeat constructor); try (by vm_compute).
  - repeat (constructor; [apply arriving_from_registry || apply lost_from_registry|]). done.
  - vm_compute in Hc0. by injection Hc0 as <-.
  - vm_compute in Hc0. injection Hc0 as <-. vm_compute in Hc. injection Hc as <-. by vm_compute.
  - apply (Hgone [(5010, ev_heartbeat "lidar_01" 9)]%Z); [exact Hc'|by repeat constructor].
Defined.
