(* ===== verification/Double.v ===== *)
(** * Binary64 arithmetic as the sources use it

    A C++ [double] is a [spec_float] of Stdlib, with the operations rounded to
    nearest at precision 53 (Binary64).  The sources convert integers to doubles
    and back, divide and multiply, and print doubles in fixed notation. *)

From Stdlib Require Import ZArith Lia SpecFloat Ascii.
From stdpp Require Import prelude strings pretty.
From S2P Require Import Prelude Messages.

Module Double.

Definition prec : Z := 53.
Definition emax : Z := 1024.

(** The conversion of an integer. *)
Definition of_Z (n : Z) : double := binary_normalize prec emax n 0 false.

Definition mul : double → double → double := SFmul prec emax.
Definition div : double → double → double := SFdiv prec emax.

(** A decimal literal [n / 10^k] whose parts are exact is the rounded quotient. *)
Definition literal (n : Z) (k : Z) : double := div (of_Z n) (of_Z (10 ^ k)).

(** [static_cast<int64_t>]: towards zero; undefined ([None]) when the result is
    not representable. *)
Definition to_int64 (x : double) : option Z :=
  match x with
  | S754_zero _ => Some 0%Z
  | S754_finite s m e =>
      let a := if (0 <=? e)%Z then (Zpos m * 2 ^ e)%Z else (Zpos m / 2 ^ (- e))%Z in
      let z := cond_Zopp s a in
      if decide (in_i64 z) then Some z else None
  | _ => None
  end.

(** [a / b] to the nearest integer, ties to even. *)
Definition round_div (a b : Z) : Z :=
  let q := (a / b)%Z in
  match Z.compare (2 * (a mod b)) b with
  | Lt => q
  | Gt => (q + 1)%Z
  | Eq => if Z.even q then q else (q + 1)%Z
  end.

Fixpoint zeros (n : nat) : string :=
  match n with 0 => "" | S n => String "0"%char (zeros n) end.

(** A non-negative number of units of [10^-p], in fixed notation. *)
Definition fixed_units (p : nat) (n : Z) : string :=
  let r := to_string (n mod 10 ^ Z.of_nat p) in
  to_string (n / 10 ^ Z.of_nat p) +:+ "." +:+ zeros (p - String.length r) +:+ r.

(** [std::fixed << std::setprecision(p)], for [p > 0]; [std::to_string] on a
    double is the same with [p = 6]. *)
Definition fixed (p : nat) (x : double) : string :=
  match x with
  | S754_nan => "nan"
  | S754_infinity s => if s then "-inf" else "inf"
  | S754_zero s => (if s then "-" else "") +:+ fixed_units p 0
  | S754_finite s m e =>
      let scaled := (Zpos m * 10 ^ Z.of_nat p)%Z in
      let n := if (0 <=? e)%Z then (scaled * 2 ^ e)%Z else round_div scaled (2 ^ (- e)) in
      (if s then "-" else "") +:+ fixed_units p n
  end.

(** ** Small integers are exact *)

Lemma digits2_pos_lower m : (2 ^ (Zpos (digits2_pos m) - 1) ≤ Zpos m)%Z.
Proof.
  induction m as [m IH|m IH|]; simpl digits2_pos; [| |done];
    rewrite Pos2Z.inj_succ;
    replace (2 ^ (Z.succ (Zpos (digits2_pos m)) - 1))%Z
      with (2 * 2 ^ (Zpos (digits2_pos m) - 1))%Z
      by (rewrite <-Z.pow_succ_r by lia; f_equal; lia); lia.
Qed.

Lemma digits2_pos_le m k : (0 ≤ k)%Z → (Zpos m < 2 ^ k)%Z → (Zpos (digits2_pos m) ≤ k)%Z.
Proof.
  intros Hk Hm. pose proof (digits2_pos_lower m).
  destruct (Z.le_gt_cases (Zpos (digits2_pos m)) k); [done|].
  assert (2 ^ k ≤ 2 ^ (Zpos (digits2_pos m) - 1))%Z by (apply Z.pow_le_mono_r; lia). lia.
Qed.

Lemma digits2_pos_shift m d :
  Zpos (digits2_pos (Pos.iter xO m d)) = (Zpos (digits2_pos m) + Zpos d)%Z.
Proof.
  revert m. induction d as [|d IH] using Pos.peano_ind; intros m; simpl; [lia|].
  rewrite Pos.iter_succ. simpl. rewrite !Pos2Z.inj_succ, IH. lia.
Qed.

Lemma shift_value m d : Zpos (Pos.iter xO m d) = (Zpos m * 2 ^ Zpos d)%Z.
Proof.
  induction d as [|d IH] using Pos.peano_ind; simpl; [lia|].
  rewrite Pos.iter_succ, Pos2Z.inj_succ, Z.pow_succ_r by lia.
  change (Zpos (xO (Pos.iter xO m d))) with (2 * Zpos (Pos.iter xO m d))%Z. lia.
Qed.

(** A mantissa of full width needs no rounding. *)
Lemma round_full s m e :
  Zpos (digits2_pos m) = prec → (-1074 ≤ e ≤ 971)%Z →
  binary_round_aux prec emax s (Zpos m) e loc_Exact = S754_finite s m e.
Proof.
  intros Hd He. unfold binary_round_aux, shr_fexp. cbn [Zdigits2].
  assert (fexp prec emax (Zpos (digits2_pos m) + e) - e = 0)%Z as Hf.
  { rewrite Hd. unfold fexp, emin, prec, emax. lia. }
  rewrite Hf. simpl. rewrite Hf. simpl.
  destruct (Z.leb_spec e (emax - prec)); [done|]. unfold emax, prec in *. lia.
Qed.

(** The double of a positive integer below 2^53. *)
Lemma round_small s m :
  (Zpos m < 2 ^ 53)%Z →
  ∃ m' k, binary_round prec emax s m 0 = S754_finite s m' (- k)
    ∧ (0 ≤ k)%Z ∧ Zpos m' = (Zpos m * 2 ^ k)%Z.
Proof.
  intros Hm. pose proof (digits2_pos_le m 53 ltac:(lia) Hm) as Hd.
  unfold binary_round, shl_align. rewrite Z.add_0_r, Z.sub_0_r.
  assert (fexp prec emax (Zpos (digits2_pos m)) = Zpos (digits2_pos m) - 53)%Z as ->.
  { unfold fexp, emin, prec, emax. lia. }
  destruct (Zpos (digits2_pos m) - 53)%Z as [|p|d] eqn:Hdiff.
  - exists m, 0%Z. rewrite round_full by (unfold prec; lia). split_and!; [done|done|lia].
  - lia.
  - exists (Pos.iter xO m d), (Zpos d). rewrite round_full.
    + split_and!; [done|lia|apply shift_value].
    + rewrite digits2_pos_shift. unfold prec. lia.
    + lia.
Qed.

(** Converting a small integer to a double and back loses nothing. *)
Lemma to_int64_of_Z n : (Z.abs n < 2 ^ 53)%Z → to_int64 (of_Z n) = Some n.
Proof.
  intros Hn. unfold of_Z, binary_normalize.
  assert (∀ s m, (Zpos m < 2 ^ 53)%Z →
    to_int64 (binary_round prec emax s m 0) = Some (cond_Zopp s (Zpos m))) as Hround.
  { intros s m Hm. destruct (round_small s m Hm) as (m' & k & -> & Hk & Hval).
    unfold to_int64. rewrite Hval, Z.opp_involutive.
    assert ((if 0 <=? (- k) then Zpos m * 2 ^ k * 2 ^ (- k) else Zpos m * 2 ^ k / 2 ^ k)
            = Zpos m)%Z as ->.
    { destruct (Z.leb_spec 0 (- k)).
      - replace k with 0%Z by lia. simpl. lia.
      - apply Z.div_mul. assert (0 < 2 ^ k)%Z by (apply Z.pow_pos_nonneg; lia). lia. }
    rewrite decide_True; [done|]. unfold in_i64. destruct s; simpl; lia. }
  destruct n as [|m|m]; [done|apply (Hround false); lia|apply (Hround true); lia].
Qed.

(** ** Printed doubles are one line *)

Definition printable (c : ascii) : bool := is_not "010"%char c.

Lemma digits_printable s : str_all is_digit s = true → str_all printable s = true.
Proof.
  apply str_all_impl. intros c Hc. unfold printable, is_not.
  destruct (Ascii.eqb_spec "010" c) as [<-|]; [|done]. by vm_compute in Hc.
Qed.

Lemma to_string_printable z : str_all printable (to_string z) = true.
Proof.
  destruct (Z.le_gt_cases 0 z) as [Hz|Hz].
  { apply digits_printable. by apply to_string_digits. }
  destruct z as [|p|p]; [lia|lia|]. unfold to_string.
  change (pretty (Zneg p)) with ("-" +:+ pretty (Zpos p)).
  rewrite str_all_app. apply (digits_printable (pretty (Zpos p))).
  apply (to_string_digits (Zpos p)). lia.
Qed.

Lemma zeros_printable n : str_all printable (zeros n) = true.
Proof. by induction n. Qed.

Lemma fixed_units_printable p n : str_all printable (fixed_units p n) = true.
Proof. unfold fixed_units. by rewrite !str_all_app, !to_string_printable, zeros_printable. Qed.

Lemma fixed_printable p x : str_all printable (fixed p x) = true.
Proof.
  destruct x as [s|s| |s m e]; simpl; [|by destruct s|done|];
    rewrite str_all_app, fixed_units_printable; by destruct s.
Qed.

End Double.

(** ** Examples *)

Example prints :
  (Double.fixed 2 (Double.div (Double.of_Z 10) (Double.of_Z 4)),
   Double.fixed 2 (Double.div (Double.of_Z 1) (Double.of_Z 8)),
   Double.fixed 4 (Double.div (Double.of_Z 2) (Double.of_Z 3)),
   Double.fixed 6 (Double.mul (Double.of_Z 7) (Double.literal 3 1)),
   Double.fixed 6 (Double.mul (Double.of_Z (-3)) (Double.literal 5 1)))
  = ("2.50", "0.12", "0.6667", "2.100000", "-1.500000").
Proof. vm_compute. reflexivity. Qed.

Example casts :
  (Double.to_int64 (Double.mul (Double.literal 25 1) (Double.of_Z 1000)),
   Double.to_int64 (Double.div (Double.of_Z (-7)) (Double.of_Z 2)),
   Double.to_int64 (Double.div (Double.of_Z 1) (Double.of_Z 0)))
  = (Some 2500, Some (-3), None)%Z.
Proof. vm_compute. reflexivity. Qed.
