(* ===== verification/Metrics.v ===== *)
(** * Metrics (src/utils/metrics.h, metrics.cpp)

    [Module Metrics] is the process-wide collector: seven [std::atomic<int64_t>]
    counters, whose [fetch_add] wraps in two's complement, and the Prometheus text
    they are exposed as.  [Module ScopedRpcLatency] is the RAII timer.  A cast of
    a double that does not fit [int64_t] is undefined, here [None]. *)

From Stdlib Require Import ZArith Lia Ascii.
From stdpp Require Import prelude strings list.
From S2P Require Import Prelude Messages Double.

(** ** Lines *)

Definition nl : string := String "010"%char "".

(** What [oss << line << "\n"] for each line writes. *)
Definition unlines (ls : list string) : string := foldr (λ l s, l +:+ nl +:+ s) "" ls.

(** A reader of the text: its lines, and the value of the sample [name]. *)
Fixpoint lines (s : string) : list string :=
  match s with
  | EmptyString => []
  | String c s' =>
      if Ascii.eqb c "010"%char then "" :: lines s'
      else match lines s' with
           | [] => [String c ""]
           | l :: ls => String c l :: ls
           end
  end.

Fixpoint strip_prefix (p s : string) : option string :=
  match p, s with
  | EmptyString, _ => Some s
  | String a p', String b s' => if Ascii.eqb a b then strip_prefix p' s' else None
  | _, _ => None
  end.

Definition scrape (name text : string) : option string :=
  head (omap (strip_prefix (name +:+ " ")) (lines text)).

Lemma lines_cons l s :
  str_all Double.printable l = true → lines (l +:+ nl +:+ s) = l :: lines s.
Proof.
  induction l as [|c l IH]; intros Hl; [done|]. simpl in *.
  apply andb_true_iff in Hl as [Hc Hl]. rewrite (IH Hl).
  unfold Double.printable, is_not in Hc. apply negb_true_iff in Hc.
  by rewrite Ascii.eqb_sym, Hc.
Qed.

Lemma lines_unlines ls :
  Forall (λ l, str_all Double.printable l = true) ls → lines (unlines ls) = ls.
Proof.
  induction 1 as [|l ls Hl _ IH]; [done|]. change (unlines (l :: ls)) with (l +:+ nl +:+ unlines ls).
  by rewrite lines_cons, IH.
Qed.

Module Metrics.

Record t := mk {
  nodes_online_ : Z;
  heartbeat_miss_total_ : Z;
  messages_sent_total_ : Z;
  rpc_latency_sum_us_ : Z;
  rpc_latency_count_ : Z;
  stream_latency_sum_ms_ : Z;
  stream_latency_count_ : Z;
}.

Definition Metrics : t := mk 0 0 0 0 0 0 0.

(** [instance()]: the function's static object, made at the first call. *)
Definition instance (inst : option t) : t := default Metrics inst.

Definition increment_nodes_online (m : t) : t :=
  mk (wrap_i64 (nodes_online_ m + 1)) (heartbeat_miss_total_ m) (messages_sent_total_ m)
     (rpc_latency_sum_us_ m) (rpc_latency_count_ m) (stream_latency_sum_ms_ m)
     (stream_latency_count_ m).

Definition decrement_nodes_online (m : t) : t :=
  mk (wrap_i64 (nodes_online_ m - 1)) (heartbeat_miss_total_ m) (messages_sent_total_ m)
     (rpc_latency_sum_us_ m) (rpc_latency_count_ m) (stream_latency_sum_ms_ m)
     (stream_latency_count_ m).

Definition record_rpc_latency_us (us : double) (m : t) : option t :=
  v ← Double.to_int64 us;
  Some (mk (nodes_online_ m) (heartbeat_miss_total_ m) (messages_sent_total_ m)
          (wrap_i64 (rpc_latency_sum_us_ m + v)) (wrap_i64 (rpc_latency_count_ m + 1))
          (stream_latency_sum_ms_ m) (stream_latency_count_ m)).

Definition increment_heartbeat_miss (m : t) : t :=
  mk (nodes_online_ m) (wrap_i64 (heartbeat_miss_total_ m + 1)) (messages_sent_total_ m)
     (rpc_latency_sum_us_ m) (rpc_latency_count_ m) (stream_latency_sum_ms_ m)
     (stream_latency_count_ m).

Definition increment_messages_sent (m : t) : t :=
  mk (nodes_online_ m) (heartbeat_miss_total_ m) (wrap_i64 (messages_sent_total_ m + 1))
     (rpc_latency_sum_us_ m) (rpc_latency_count_ m) (stream_latency_sum_ms_ m)
     (stream_latency_count_ m).

(** Stored in thousandths of a millisecond. *)
Definition record_stream_latency_ms (ms : double) (m : t) : option t :=
  v ← Double.to_int64 (Double.mul ms (Double.of_Z 1000));
  Some (mk (nodes_online_ m) (heartbeat_miss_total_ m) (messages_sent_total_ m)
          (rpc_latency_sum_us_ m) (rpc_latency_count_ m)
          (wrap_i64 (stream_latency_sum_ms_ m + v)) (wrap_i64 (stream_latency_count_ m + 1))).

Definition avg_us (m : t) : double :=
  Double.div (Double.of_Z (rpc_latency_sum_us_ m)) (Double.of_Z (rpc_latency_count_ m)).

Definition avg_ms (m : t) : double :=
  Double.div
    (Double.div (Double.of_Z (stream_latency_sum_ms_ m)) (Double.of_Z (stream_latency_count_ m)))
    (Double.of_Z 1000).

Definition get_prometheus_text (m : t) : string :=
  unlines (
    ["# HELP drocm_nodes_online Current number of online nodes";
     "# TYPE drocm_nodes_online gauge";
     "drocm_nodes_online " +:+ to_string (nodes_online_ m);
     "# HELP drocm_heartbeat_miss_total Total missed heartbeats";
     "# TYPE drocm_heartbeat_miss_total counter";
     "drocm_heartbeat_miss_total " +:+ to_string (heartbeat_miss_total_ m);
     "# HELP drocm_messages_sent_total Total messages sent via streaming";
     "# TYPE drocm_messages_sent_total counter";
     "drocm_messages_sent_total " +:+ to_string (messages_sent_total_ m)]
    ++ (if (0 <? rpc_latency_count_ m)%Z then
          ["# HELP drocm_rpc_latency_avg_us Average RPC latency in us";
           "# TYPE drocm_rpc_latency_avg_us gauge";
           "drocm_rpc_latency_avg_us " +:+ Double.fixed 2 (avg_us m)]
        else [])
    ++ (if (0 <? stream_latency_count_ m)%Z then
          ["# HELP drocm_stream_latency_avg_ms Average stream latency in ms";
           "# TYPE drocm_stream_latency_avg_ms gauge";
           "drocm_stream_latency_avg_ms " +:+ Double.fixed 4 (avg_ms m)]
        else [])).

(** ** Histories of calls *)

Inductive op :=
  | IncrementNodesOnline
  | DecrementNodesOnline
  | RecordRpcLatency (us : double)
  | IncrementHeartbeatMiss
  | IncrementMessagesSent
  | RecordStreamLatency (ms : double).

Definition apply (o : op) (m : t) : option t :=
  match o with
  | IncrementNodesOnline => Some (increment_nodes_online m)
  | DecrementNodesOnline => Some (decrement_nodes_online m)
  | RecordRpcLatency us => record_rpc_latency_us us m
  | IncrementHeartbeatMiss => Some (increment_heartbeat_miss m)
  | IncrementMessagesSent => Some (increment_messages_sent m)
  | RecordStreamLatency ms => record_stream_latency_ms ms m
  end.

Fixpoint apply_all (ops : list op) (m : t) : option t :=
  match ops with
  | [] => Some m
  | o :: ops => m ← apply o m; apply_all ops m
  end.

(** What one call adds to each counter. *)
Definition amounts (o : op) : option t :=
  match o with
  | IncrementNodesOnline => Some (mk 1 0 0 0 0 0 0)
  | DecrementNodesOnline => Some (mk (-1) 0 0 0 0 0 0)
  | RecordRpcLatency us => v ← Double.to_int64 us; Some (mk 0 0 0 v 1 0 0)
  | IncrementHeartbeatMiss => Some (mk 0 1 0 0 0 0 0)
  | IncrementMessagesSent => Some (mk 0 0 1 0 0 0 0)
  | RecordStreamLatency ms =>
      v ← Double.to_int64 (Double.mul ms (Double.of_Z 1000)); Some (mk 0 0 0 0 0 v 1)
  end.

Definition map2 (f : Z → Z → Z) (a b : t) : t :=
  mk (f (nodes_online_ a) (nodes_online_ b))
     (f (heartbeat_miss_total_ a) (heartbeat_miss_total_ b))
     (f (messages_sent_total_ a) (messages_sent_total_ b))
     (f (rpc_latency_sum_us_ a) (rpc_latency_sum_us_ b))
     (f (rpc_latency_count_ a) (rpc_latency_count_ b))
     (f (stream_latency_sum_ms_ a) (stream_latency_sum_ms_ b))
     (f (stream_latency_count_ a) (stream_latency_count_ b)).

(** Every counter is an [int64_t]. *)
Definition wf (m : t) : Prop := map2 (λ a _, wrap_i64 a) m m = m.

(** The exact sums, with no machine word in sight. *)
Definition exact_totals (ops : list op) : option t :=
  foldr (λ o acc, a ← amounts o; b ← acc; Some (map2 Z.add a b)) (Some Metrics) ops.

End Metrics.

Module ScopedRpcLatency.

(** Times of the steady clock are in nanoseconds. *)
Record t := mk { start_ : Z; stopped_ : bool }.

Definition ScopedRpcLatency (now : Z) : t := mk now false.

Definition stop (now : Z) (timer : t) (m : Metrics.t) : option (t * Metrics.t) :=
  if negb (stopped_ timer) then
    let us := Double.of_Z ((now - start_ timer) ÷ 1000) in
    m ← Metrics.record_rpc_latency_us us m;
    Some (mk (start_ timer) true, m)
  else Some (timer, m).

(** The destructor. *)
Definition destroy (now : Z) (timer : t) (m : Metrics.t) : option (t * Metrics.t) :=
  stop now timer m.

End ScopedRpcLatency.

(** * Properties *)

Section claims.
  Import Metrics.

Lemma apply_amounts o m :
  wf m → apply o m = a ← amounts o; Some (map2 (λ x y, wrap_i64 (x + y)) m a).
Proof.
  destruct m as [m1 m2 m3 m4 m5 m6 m7]. unfold wf, map2. simpl.
  intros [= H1 H2 H3 H4 H5 H6 H7].
  destruct o as [| |us| | |ms]; simpl; unfold increment_nodes_online, decrement_nodes_online,
    increment_heartbeat_miss, increment_messages_sent, record_rpc_latency_us,
    record_stream_latency_ms; simpl;
    try destruct (Double.to_int64 _); simpl; rewrite ?Z.add_0_r, ?H1, ?H2, ?H3, ?H4, ?H5, ?H6, ?H7;
    done.
Qed.

Lemma wrapped_wf f m a : wf (map2 (λ x y, wrap_i64 (f x y)) m a).
Proof.
  unfold wf, map2. simpl.
  by rewrite !(wrap_i64_small (wrap_i64 _)) by apply wrap_i64_range.
Qed.

Lemma map2_add_comm3 a b c : map2 Z.add a (map2 Z.add b c) = map2 Z.add b (map2 Z.add a c).
Proof. unfold map2. simpl. f_equal; lia. Qed.

Lemma exact_totals_perm ops ops' : ops ≡ₚ ops' → exact_totals ops = exact_totals ops'.
Proof.
  induction 1 as [|o ops ops' _ IH|o1 o2 ops|ops1 ops2 ops3 _ IH1 _ IH2]; simpl.
  - done.
  - by rewrite IH.
  - destruct (amounts o1), (amounts o2), (exact_totals ops); simpl; try done.
    by rewrite map2_add_comm3.
  - by rewrite IH1.
Qed.

Lemma apply_all_totals ops m :
  wf m →
  apply_all ops m = tot ← exact_totals ops; Some (map2 (λ x y, wrap_i64 (x + y)) m tot).
Proof.
  revert m. induction ops as [|o ops IH]; intros m Hwf; simpl.
  { f_equal. unfold wf, map2 in *. simpl in *. rewrite !Z.add_0_r. by symmetry. }
  rewrite apply_amounts by done. destruct (amounts o) as [a|]; simpl; [|done].
  rewrite IH by apply wrapped_wf.
  destruct (exact_totals ops) as [b|]; simpl; [|done]. f_equal. unfold map2. simpl.
  rewrite !wrap_i64_add_l. f_equal; f_equal; lia.
Qed.

(** The counters count: after any calls every counter holds its starting
    value plus the exact sum of what was added to it, wrapped to 64 bits; the calls
    are undefined only if some recorded latency does not fit [int64_t]; and the
    order in which the threads' calls came does not matter. *)
Theorem metrics_totals ops m :
  wf m →
  apply_all ops m = (tot ← exact_totals ops; Some (map2 (λ x y, wrap_i64 (x + y)) m tot))
  ∧ (apply_all ops m = None ↔ Exists (λ o, amounts o = None) ops)
  ∧ ∀ ops', ops ≡ₚ ops' → apply_all ops' m = apply_all ops m.
Proof.
  intros Hwf. split_and!.
  - by apply apply_all_totals.
  - rewrite apply_all_totals by done. clear Hwf.
    induction ops as [|o ops IH]; simpl; [by rewrite Exists_nil|].
    rewrite Exists_cons, <-IH.
    destruct (amounts o), (exact_totals ops); simpl; split; try done; auto; by intros [?|?].
  - intros ops' Hperm. rewrite !apply_all_totals by done. by rewrite (exact_totals_perm ops ops').
Qed.

(** Reading the text, sample by sample. *)
Lemma scrape_samples m :
  let text := get_prometheus_text m in
  scrape "drocm_nodes_online" text = Some (to_string (nodes_online_ m))
  ∧ scrape "drocm_heartbeat_miss_total" text = Some (to_string (heartbeat_miss_total_ m))
  ∧ scrape "drocm_messages_sent_total" text = Some (to_string (messages_sent_total_ m))
  ∧ scrape "drocm_rpc_latency_avg_us" text
    = (if (0 <? rpc_latency_count_ m)%Z then Some (Double.fixed 2 (avg_us m)) else None)
  ∧ scrape "drocm_stream_latency_avg_ms" text
    = (if (0 <? stream_latency_count_ m)%Z then Some (Double.fixed 4 (avg_ms m)) else None).
Proof.
  intros text. unfold text, scrape, get_prometheus_text. rewrite lines_unlines.
  - generalize (to_string (nodes_online_ m)), (to_string (heartbeat_miss_total_ m)),
      (to_string (messages_sent_total_ m)), (Double.fixed 2 (avg_us m)),
      (Double.fixed 4 (avg_ms m)).
    intros s1 s2 s3 s4 s5.
    destruct (Z.ltb_spec 0 (rpc_latency_count_ m)), (Z.ltb_spec 0 (stream_latency_count_ m));
      split_and!; reflexivity.
  - repeat apply Forall_app_2; repeat case_match; repeat constructor; try done;
      rewrite str_all_app; rewrite ?Double.to_string_printable, ?Double.fixed_printable; done.
Qed.

(** The Prometheus text reads back: scraping each of the three counters gives
    the decimal numeral of its value, and the averages are there exactly when
    something has been recorded, with the average printed to two and to four
    decimals; the text has no other sample of these names. *)
Theorem prometheus_text_reads_back m :
  let text := get_prometheus_text m in
  scrape "drocm_nodes_online" text = Some (to_string (nodes_online_ m))
  ∧ scrape "drocm_heartbeat_miss_total" text = Some (to_string (heartbeat_miss_total_ m))
  ∧ scrape "drocm_messages_sent_total" text = Some (to_string (messages_sent_total_ m))
  ∧ scrape "drocm_rpc_latency_avg_us" text
    = (if (0 <? rpc_latency_count_ m)%Z then Some (Double.fixed 2 (avg_us m)) else None)
  ∧ scrape "drocm_stream_latency_avg_ms" text
    = (if (0 <? stream_latency_count_ m)%Z then Some (Double.fixed 4 (avg_ms m)) else None).
Proof. apply scrape_samples. Qed.

End claims.

Section timer.
  Import ScopedRpcLatency.

(** A timer records once: however often [stop] is called on it, and with the
    destructor's call after that, exactly one latency is recorded, and below 2^53
    microseconds it is exactly the microseconds from the construction to the first
    [stop]. *)
Theorem timer_records_once start stops last m :
  let first := default last (head stops) in
  (0 ≤ first - start < 1000 * 2 ^ 53)%Z →
  let stop_all := foldl (λ acc now, tm ← acc; stop now tm.1 tm.2)
                    (Some (ScopedRpcLatency start, m)) stops in
  (tm ← stop_all; destroy last tm.1 tm.2)
  = Some (mk start true,
      Metrics.mk (Metrics.nodes_online_ m) (Metrics.heartbeat_miss_total_ m)
        (Metrics.messages_sent_total_ m)
        (wrap_i64 (Metrics.rpc_latency_sum_us_ m + (first - start) / 1000))
        (wrap_i64 (Metrics.rpc_latency_count_ m + 1))
        (Metrics.stream_latency_sum_ms_ m) (Metrics.stream_latency_count_ m)).
Proof.
  intros first Hrange.
  assert (∀ now m, (0 ≤ now - start < 1000 * 2 ^ 53)%Z →
    stop now (ScopedRpcLatency start) m
    = Some (mk start true,
        Metrics.mk (Metrics.nodes_online_ m) (Metrics.heartbeat_miss_total_ m)
          (Metrics.messages_sent_total_ m)
          (wrap_i64 (Metrics.rpc_latency_sum_us_ m + (now - start) / 1000))
          (wrap_i64 (Metrics.rpc_latency_count_ m + 1))
          (Metrics.stream_latency_sum_ms_ m) (Metrics.stream_latency_count_ m))) as Hfirst.
  { intros now m' Hnow. unfold stop, Metrics.record_rpc_latency_us. simpl.
    rewrite Z.quot_div_nonneg by lia.
    rewrite Double.to_int64_of_Z; [done|].
    assert (0 ≤ (now - start) / 1000 < 2 ^ 53)%Z; [|lia].
    split; [apply Z.div_pos; lia|apply Z.div_lt_upper_bound; lia]. }
  assert (∀ nows m', foldl (λ acc now, tm ← acc; stop now tm.1 tm.2)
    (Some (mk start true, m')) nows = Some (mk start true, m')) as Hrest.
  { intros nows m'. induction nows as [|now nows IH]; [done|]. exact IH. }
  destruct stops as [|now nows]; simpl in *.
  - by rewrite Hfirst.
  - rewrite Hfirst by done. by rewrite Hrest.
Qed.

End timer.

(** * Examples *)

Definition sample_ops : list Metrics.op :=
  [Metrics.IncrementNodesOnline; Metrics.IncrementMessagesSent;
   Metrics.RecordRpcLatency (Double.of_Z 10); Metrics.RecordStreamLatency (Double.literal 25 1);
   Metrics.RecordRpcLatency (Double.of_Z 15); Metrics.IncrementHeartbeatMiss].

Example sample_text :
  lines <$> (Metrics.get_prometheus_text <$> Metrics.apply_all sample_ops Metrics.Metrics)
  = Some
     ["# HELP drocm_nodes_online Current number of online nodes";
      "# TYPE drocm_nodes_online gauge";
      "drocm_nodes_online 1";
      "# HELP drocm_heartbeat_miss_total Total missed heartbeats";
      "# TYPE drocm_heartbeat_miss_total counter";
      "drocm_heartbeat_miss_total 1";
      "# HELP drocm_messages_sent_total Total messages sent via streaming";
      "# TYPE drocm_messages_sent_total counter";
      "drocm_messages_sent_total 1";
      "# HELP drocm_rpc_latency_avg_us Average RPC latency in us";
      "# TYPE drocm_rpc_latency_avg_us gauge";
      "drocm_rpc_latency_avg_us 12.50";
      "# HELP drocm_stream_latency_avg_ms Average stream latency in ms";
      "# TYPE drocm_stream_latency_avg_ms gauge";
      "drocm_stream_latency_avg_ms 2.5000"].
Proof. vm_compute. reflexivity. Qed.

Lemma metrics_totals_witness :
  Metrics.apply_all (reverse sample_ops) Metrics.Metrics
  = Metrics.apply_all sample_ops Metrics.Metrics
  ∧ Metrics.apply_all sample_ops Metrics.Metrics = Some (Metrics.mk 1 1 1 25 2 2500 1).
Proof.
  destruct (metrics_totals sample_ops Metrics.Metrics) as (_ & _ & Hperm); [done|].
  split; [apply Hperm; symmetry; apply reverse_Permutation|by vm_compute].
Defined.

Lemma timer_records_once_witness :
  (tm ← ScopedRpcLatency.stop 4500 (ScopedRpcLatency.ScopedRpcLatency 1000) Metrics.Metrics;
   ScopedRpcLatency.destroy 9000 tm.1 tm.2)
  = Some (ScopedRpcLatency.mk 1000 true, Metrics.mk 0 0 0 3 1 0 0).
Proof.
  pose proof (timer_records_once 1000 [4500%Z] 9000 Metrics.Metrics) as Ht.
  apply Ht. simpl. lia.
Defined.
