(* ===== verification/MetricsAtomics.v ===== *)
(** * The metrics under concurrency (src/utils/metrics.cpp)

    The collector has no lock: each counter is an atomic of its own, and the calls
    of Metrics.v are sequences of [fetch_add]s and [load]s, between which any other
    thread may run.  Here a thread is the list of its accesses still to come, a
    schedule says whose access is next, and a scrape is spread out over seven loads.
    Every access itself is sequentially consistent, the default of [std::atomic]. *)

From Stdlib Require Import ZArith Lia.
From stdpp Require Import prelude strings list.
From S2P Require Import Prelude Messages Double Metrics.

(** The two latencies, each with a sum and a count. *)
Inductive latency := Rpc | Stream.

#[global] Instance latency_eq_dec : EqDecision latency.
Proof. solve_decision. Defined.

(** The [fetch_add]s and [fetch_sub]s of the code. *)
Inductive access :=
  | AddNodes (d : Z)
  | AddMiss
  | AddSent
  | AddSum (k : latency) (v : Z)
  | AddCount (k : latency).

Import Metrics.

Definition sum_of (k : latency) (m : t) : Z :=
  match k with Rpc => rpc_latency_sum_us_ m | Stream => stream_latency_sum_ms_ m end.

Definition count_of (k : latency) (m : t) : Z :=
  match k with Rpc => rpc_latency_count_ m | Stream => stream_latency_count_ m end.

(** What an access adds to each counter. *)
Definition delta (a : access) : t :=
  match a with
  | AddNodes d => mk d 0 0 0 0 0 0
  | AddMiss => mk 0 1 0 0 0 0 0
  | AddSent => mk 0 0 1 0 0 0 0
  | AddSum Rpc v => mk 0 0 0 v 0 0 0
  | AddCount Rpc => mk 0 0 0 0 1 0 0
  | AddSum Stream v => mk 0 0 0 0 0 v 0
  | AddCount Stream => mk 0 0 0 0 0 0 1
  end.

Definition fetch_add (a : access) (m : t) : t := map2 (λ x y, wrap_i64 (x + y)) m (delta a).

Definition fetch_adds (l : list access) (m : t) : t := foldl (λ m a, fetch_add a m) m l.

(** The accesses of a call, in the order of the code; a latency's sum comes before
    its count. *)
Definition accesses (o : op) : option (list access) :=
  match o with
  | IncrementNodesOnline => Some [AddNodes 1]
  | DecrementNodesOnline => Some [AddNodes (-1)]
  | RecordRpcLatency us => v ← Double.to_int64 us; Some [AddSum Rpc v; AddCount Rpc]
  | IncrementHeartbeatMiss => Some [AddMiss]
  | IncrementMessagesSent => Some [AddSent]
  | RecordStreamLatency ms =>
      v ← Double.to_int64 (Double.mul ms (Double.of_Z 1000));
      Some [AddSum Stream v; AddCount Stream]
  end.

(** A thread that makes these calls. *)
Fixpoint thread_of (ops : list op) : option (list access) :=
  match ops with
  | [] => Some []
  | o :: ops => l ← accesses o; rest ← thread_of ops; Some (l ++ rest)
  end.

(** ** Threads and schedules *)

(** What is left of each thread, and the counters. *)
Definition state : Type := list (list access) * t.

Definition advance (tid : nat) (st : state) : state :=
  match st.1 !! tid with
  | Some (a :: rest) => (<[tid := rest]> st.1, fetch_add a st.2)
  | _ => st
  end.

Definition run_threads (sch : list nat) (st : state) : state :=
  foldl (λ st tid, advance tid st) st sch.

(** The loads of a scrape, over any system of threads that holds the counters. *)
Section loads.
  Context {S : Type} (run : list nat → S → S) (counters : S → t).

(** A [load], after the accesses that [gap] schedules before it. *)
Definition load_from (c : t → Z) (gap : list nat) (st : S) : Z * S :=
  let st := run gap st in (c (counters st), st).

(** The loads of [get_prometheus_text]: each count first, and its sum only when
    the count is positive. *)
Definition load_counters_from (gap : nat → list nat) (st : S) : t * S :=
  let '(nodes, st) := load_from nodes_online_ (gap 0) st in
  let '(miss, st) := load_from heartbeat_miss_total_ (gap 1) st in
  let '(sent, st) := load_from messages_sent_total_ (gap 2) st in
  let '(rpc_count, st) := load_from rpc_latency_count_ (gap 3) st in
  let '(rpc_sum, st) :=
    if (0 <? rpc_count)%Z then load_from rpc_latency_sum_us_ (gap 4) st else (0%Z, st) in
  let '(stream_count, st) := load_from stream_latency_count_ (gap 5) st in
  let '(stream_sum, st) :=
    if (0 <? stream_count)%Z then load_from stream_latency_sum_ms_ (gap 6) st else (0%Z, st) in
  (mk nodes miss sent rpc_sum rpc_count stream_sum stream_count, st).

End loads.

Definition load_counters : (nat → list nat) → state → t * state :=
  load_counters_from run_threads (λ st, st.2).

Definition prometheus_text_amid (gap : nat → list nat) (st : state) : string * state :=
  let '(m, st) := load_counters gap st in (get_prometheus_text m, st).

(** ** The calls are what Metrics.v says they are *)

Lemma fetch_adds_app l1 l2 m : fetch_adds (l1 ++ l2) m = fetch_adds l2 (fetch_adds l1 m).
Proof. apply foldl_app. Qed.

Lemma fetch_add_wf a m : wf (fetch_add a m).
Proof. apply wrapped_wf. Qed.

Lemma fetch_adds_wf l m : wf m → wf (fetch_adds l m).
Proof. revert m. induction l as [|a l IH]; intros m Hm; [done|]. apply IH, fetch_add_wf. Qed.

Lemma fetch_add_comm a b m : fetch_add a (fetch_add b m) = fetch_add b (fetch_add a m).
Proof.
  unfold fetch_add, map2. simpl. rewrite !wrap_i64_add_l. f_equal; f_equal; lia.
Qed.

Lemma fetch_adds_perm l l' m : l ≡ₚ l' → fetch_adds l m = fetch_adds l' m.
Proof.
  intros Hperm. revert m.
  induction Hperm as [|a l l' _ IH|a b l|l1 l2 l3 _ IH1 _ IH2]; intros m; simpl.
  - done.
  - apply IH.
  - unfold fetch_adds. simpl. by rewrite fetch_add_comm.
  - by rewrite IH1.
Qed.

Lemma apply_accesses o m :
  wf m → apply o m = l ← accesses o; Some (fetch_adds l m).
Proof.
  intros Hwf. rewrite apply_amounts by done.
  destruct m as [m1 m2 m3 m4 m5 m6 m7]. unfold wf, map2 in Hwf. simpl in Hwf.
  injection Hwf as H1 H2 H3 H4 H5 H6 H7.
  destruct o as [| |us| | |ms]; simpl; try done.
  all: destruct (Double.to_int64 _) as [v|]; simpl; [|done].
  all: f_equal; unfold fetch_adds, fetch_add, map2; simpl.
  all: by rewrite ?Z.add_0_r, ?H1, ?H2, ?H3, ?H4, ?H5, ?H6, ?H7, ?(wrap_i64_small (wrap_i64 _))
    by apply wrap_i64_range.
Qed.

Lemma apply_all_accesses ops m :
  wf m → apply_all ops m = l ← thread_of ops; Some (fetch_adds l m).
Proof.
  revert m. induction ops as [|o ops IH]; intros m Hwf; simpl; [done|].
  rewrite apply_accesses by done. destruct (accesses o) as [l|]; simpl; [|done].
  rewrite IH by by apply fetch_adds_wf. destruct (thread_of ops) as [rest|]; simpl; [|done].
  by rewrite fetch_adds_app.
Qed.

(** ** One access at a time *)

Lemma run_threads_app sch1 sch2 st :
  run_threads (sch1 ++ sch2) st = run_threads sch2 (run_threads sch1 st).
Proof. apply foldl_app. Qed.

Lemma run_threads_ind (P : state → Prop) sch st :
  (∀ tid st, P st → P (advance tid st)) → P st → P (run_threads sch st).
Proof.
  intros Hstep. revert st. induction sch as [|tid sch IH]; intros st Hst; [done|].
  by apply IH, Hstep.
Qed.

(** Taking the head of a list in the middle moves it to the front. *)
Lemma concat_insert {A} (ls : list (list A)) i a l :
  ls !! i = Some (a :: l) → concat ls ≡ₚ a :: concat (<[i := l]> ls).
Proof.
  revert i. induction ls as [|l0 ls IH]; intros [|i] Hi; simplify_eq/=; [done|].
  rewrite (IH i Hi). by rewrite Permutation_middle.
Qed.

(** Where the counters will be when all threads are through. *)
Definition finished (st : state) : t := fetch_adds (concat st.1) st.2.

Lemma finished_advance tid st : finished (advance tid st) = finished st.
Proof.
  unfold finished, advance. destruct (st.1 !! tid) as [[|a rest]|] eqn:Hi; simpl; [done| |done].
  symmetry. exact (fetch_adds_perm _ _ _ (concat_insert _ _ _ _ Hi)).
Qed.

Lemma finished_run sch st : finished (run_threads sch st) = finished st.
Proof.
  apply (run_threads_ind (λ st', finished st' = finished st)); [|done].
  intros tid st' <-. apply finished_advance.
Qed.

Lemma threads_concat threads codes :
  mapM thread_of threads = Some codes → thread_of (concat threads) = Some (concat codes).
Proof.
  assert (∀ ops1 ops2 l1 l2, thread_of ops1 = Some l1 → thread_of ops2 = Some l2 →
    thread_of (ops1 ++ ops2) = Some (l1 ++ l2)) as Happ.
  { intros ops1 ops2. induction ops1 as [|o ops1 IH]; intros l1 l2 H1 H2; simplify_eq/=; [done|].
    destruct (accesses o) as [l|], (thread_of ops1) as [rest|]; simplify_eq/=.
    rewrite (IH rest l2) by done. simpl. by rewrite app_assoc. }
  intros Hm%mapM_Some. induction Hm as [|ops l threads codes Hl _ IH]; [done|].
  by apply Happ.
Qed.

(** ** Sums and counts

    Between the two accesses of a recording the sum is ahead of the count. *)

Definition ahead (k : latency) (l : list access) : nat :=
  match l with
  | AddCount k' :: _ => if decide (k = k') then 1 else 0
  | _ => 0
  end.

Definition all_ahead (k : latency) (ls : list (list access)) : nat := sum_list_with (ahead k) ls.

(** What a thread can still have to do: calls, perhaps after the count of a recording
    it has begun. *)
Inductive calls : list access → Prop :=
  | calls_nil : calls []
  | calls_nodes d l : calls l → calls (AddNodes d :: l)
  | calls_miss l : calls l → calls (AddMiss :: l)
  | calls_sent l : calls l → calls (AddSent :: l)
  | calls_record k v l : calls l → calls (AddSum k v :: AddCount k :: l).

Inductive remainder : list access → Prop :=
  | remainder_calls l : calls l → remainder l
  | remainder_count k l : calls l → remainder (AddCount k :: l).

Lemma calls_not_ahead k l : calls l → ahead k l = 0.
Proof. by destruct 1. Qed.

Lemma ahead_le k l : ahead k l ≤ 1.
Proof. destruct l as [|[]]; simpl; try lia. case_decide; lia. Qed.

Lemma all_ahead_le k ls : all_ahead k ls ≤ length ls.
Proof.
  induction ls as [|l ls IH]; [done|]. unfold all_ahead in *. simpl.
  pose proof (ahead_le k l). lia.
Qed.

Lemma all_ahead_insert k ls i l l' :
  ls !! i = Some l → all_ahead k (<[i := l']> ls) + ahead k l = all_ahead k ls + ahead k l'.
Proof.
  unfold all_ahead. revert i. induction ls as [|l0 ls IH]; intros [|i] Hi; simplify_eq/=; [lia|].
  specialize (IH i Hi). lia.
Qed.

(** What an access adds to the sum of [k]: its value, if it is one of those. *)
Definition adding (k : latency) (a : access) : list Z :=
  match a with AddSum k' v => if decide (k = k') then [v] else [] | _ => [] end.

(** The values that are still to be added. *)
Definition pending (k : latency) (l : list access) : list Z := l ≫= adding k.

(** Of the recordings [all] of latency [k], [added] have their sum in, and [c] their
    count too. *)
Record progress (k : latency) (all added : list Z) (st : state) : Prop := {
  progress_threads : Forall remainder st.1;
  progress_added : all ≡ₚ added ++ pending k (concat st.1);
  progress_sum : sum_of k st.2 = wrap_i64 (foldr Z.add 0%Z added);
  progress_count : ∃ c,
    count_of k st.2 = wrap_i64 (Z.of_nat c) ∧ length added = c + all_ahead k st.1;
}.

Lemma sum_fetch_add k a m :
  sum_of k (fetch_add a m)
  = wrap_i64 (sum_of k m + match a with AddSum k' v => if decide (k = k') then v else 0 | _ => 0 end).
Proof. destruct k, a as [d| | |[] v|[]]; simpl; done. Qed.

Lemma count_fetch_add k a m :
  count_of k (fetch_add a m)
  = wrap_i64 (count_of k m + match a with AddCount k' => if decide (k = k') then 1 else 0 | _ => 0 end).
Proof. destruct k, a as [d| | |[] v|[]]; simpl; done. Qed.

Lemma remainder_step a l : remainder (a :: l) → remainder l.
Proof.
  intros Hr. inversion Hr as [l' Hc|k l' Hc]; simplify_eq; [|by constructor].
  inversion Hc; simplify_eq; by constructor.
Qed.

Lemma remainder_adding k a l :
  remainder (a :: l) →
  length (adding k a) + ahead k (a :: l)
  = ahead k l + match a with AddCount k' => if decide (k = k') then 1 else 0 | _ => 0 end.
Proof.
  intros Hr. inversion Hr as [l' Hc|k0 l' Hc]; simplify_eq.
  - inversion Hc as [|d l' Hl|l' Hl|l' Hl|k' v l' Hl]; simplify_eq; simpl;
      try by rewrite (calls_not_ahead k).
    by case_decide.
  - simpl. rewrite (calls_not_ahead k) by done. by case_decide.
Qed.

Lemma progress_advance k all added st tid :
  progress k all added st → ∃ more, progress k all (added ++ more) (advance tid st).
Proof.
  intros [Hthr Hadd Hsum (c & Hc & Hlen)]. unfold advance.
  destruct (st.1 !! tid) as [[|a l]|] eqn:Hi;
    [exists []; rewrite app_nil_r; by split; [..|exists c]| |
     exists []; rewrite app_nil_r; by split; [..|exists c]].
  pose proof (proj1 (Forall_lookup _ _) Hthr _ _ Hi) as Hr.
  pose proof (remainder_adding k a l Hr) as Hahead.
  exists (adding k a). split; simpl.
  - apply Forall_insert; [done|]. by eapply remainder_step.
  - rewrite Hadd, <-app_assoc. apply Permutation_app_head. unfold pending.
    by rewrite (concat_insert _ _ _ _ Hi).
  - rewrite sum_fetch_add, Hsum, wrap_i64_add_l. f_equal. clear.
    induction added as [|v added IH]; simpl; [|lia].
    destruct a as [d| | |k' v|k']; simpl; try done. case_decide; simpl; lia.
  - pose proof (all_ahead_insert k _ _ _ l Hi) as Hins. rewrite count_fetch_add, Hc, wrap_i64_add_l.
    exists (c + match a with AddCount k' => if decide (k = k') then 1 else 0 | _ => 0 end).
    rewrite length_app. split; [|lia]. f_equal. destruct a; try lia. case_decide; lia.
Qed.

Lemma progress_run k all sch added st :
  progress k all added st → ∃ more, progress k all (added ++ more) (run_threads sch st).
Proof.
  intros Hst. apply (run_threads_ind (λ st', ∃ more, progress k all (added ++ more) st')).
  - intros tid st' [more Hmore]. destruct (progress_advance k _ _ _ tid Hmore) as [more' Hm].
    exists (more ++ more'). by rewrite app_assoc.
  - exists []. by rewrite app_nil_r.
Qed.

Lemma run_threads_length sch st : length (run_threads sch st).1 = length st.1.
Proof.
  apply (run_threads_ind (λ st', length st'.1 = length st.1)); [|done].
  intros tid st' <-. unfold advance. destruct (st'.1 !! tid) as [[]|]; [done| |done].
  apply length_insert.
Qed.

(** The value a call records, in the sum's unit. *)
Definition recording (k : latency) (o : op) : option Z :=
  match k, o with
  | Rpc, RecordRpcLatency us => Double.to_int64 us
  | Stream, RecordStreamLatency ms => Double.to_int64 (Double.mul ms (Double.of_Z 1000))
  | _, _ => None
  end.

(** The recordings that calls make, one for each of them. *)
Definition recordings (k : latency) (ops : list op) : list Z := omap (recording k) ops.

Lemma calls_app l1 l2 : calls l1 → calls l2 → calls (l1 ++ l2).
Proof. induction 1; simpl; try done; constructor; auto. Qed.

Lemma thread_calls ops l :
  thread_of ops = Some l → calls l ∧ ∀ k, pending k l = recordings k ops.
Proof.
  revert l. induction ops as [|o ops IH]; intros l Hl; simplify_eq/=.
  { split; [constructor|done]. }
  destruct (accesses o) as [l1|] eqn:Ho, (thread_of ops) as [l2|]; simplify_eq/=.
  destruct (IH l2 eq_refl) as [Hcalls Hrec].
  assert (calls l1 ∧ ∀ k, pending k l1 = option_list (recording k o)) as [Hcalls1 Hrec1].
  { destruct o as [| |us| | |ms]; simplify_eq/=;
      try (by split; [by repeat constructor|intros []]).
    all: destruct (Double.to_int64 _) as [v|] eqn:Hv; simplify_eq/=.
    all: split; [by repeat constructor|]; intros []; unfold pending; simpl; by rewrite ?Hv. }
  split; [by apply calls_app|]. intros k. specialize (Hrec1 k). unfold pending in *.
  rewrite bind_app, Hrec1. unfold recordings. simpl. rewrite Hrec.
  by destruct (recording k o).
Qed.

Lemma progress_start threads codes k :
  mapM thread_of threads = Some codes →
  progress k (recordings k (concat threads)) [] (codes, Metrics).
Proof.
  intros Hm. destruct (thread_calls _ _ (threads_concat _ _ Hm)) as [_ Hrec].
  assert (Forall calls codes) as Hcalls.
  { apply mapM_Some in Hm. apply Forall_lookup. intros i l Hi.
    destruct (Forall2_lookup_r _ _ _ _ _ Hm Hi) as (ops & _ & Hl). by apply (thread_calls ops). }
  split; [|simpl; by rewrite Hrec|by destruct k|].
  - eapply Forall_impl; [exact Hcalls|]. intros l Hl. by constructor.
  - exists 0. split; [by destruct k|]. simpl. unfold all_ahead.
    clear Hm Hrec. induction Hcalls as [|l ls Hl _ IH]; [done|]. simpl.
    rewrite (calls_not_ahead k l Hl). exact IH.
Qed.

(** The loads of one latency: its count after some schedule, and later its sum. *)
Lemma load_counters_pair gap st k :
  let m := (load_counters gap st).1 in
  ∃ sch g, count_of k m = count_of k (run_threads sch st).2
    ∧ g = gap (match k with Rpc => 4 | Stream => 6 end)
    ∧ ((0 < count_of k m)%Z → sum_of k m = sum_of k (run_threads g (run_threads sch st)).2).
Proof.
  intros m. unfold m, load_counters, load_counters_from, load_from. clear m. destruct k.
  - exists (gap 0 ++ gap 1 ++ gap 2 ++ gap 3), (gap 4). rewrite !run_threads_app.
    set (st3 := run_threads (gap 3) _). destruct (Z.ltb_spec 0 (rpc_latency_count_ st3.2)) as [H|H];
      destruct (0 <? stream_latency_count_ _)%Z; (split; [done|]; split; [done|]); simpl; (done || lia).
  - set (st3 := run_threads (gap 3) _).
    destruct (0 <? rpc_latency_count_ st3.2)%Z.
    + exists (gap 0 ++ gap 1 ++ gap 2 ++ gap 3 ++ gap 4 ++ gap 5), (gap 6).
      rewrite !run_threads_app. fold st3.
      set (st5 := run_threads (gap 5) _).
      destruct (Z.ltb_spec 0 (stream_latency_count_ st5.2));
        (split; [done|]; split; [done|]); simpl; (done || lia).
    + exists (gap 0 ++ gap 1 ++ gap 2 ++ gap 3 ++ gap 5), (gap 6).
      rewrite !run_threads_app. fold st3.
      set (st5 := run_threads (gap 5) _).
      destruct (Z.ltb_spec 0 (stream_latency_count_ st5.2));
        (split; [done|]; split; [done|]); simpl; (done || lia).
Qed.

(** * Properties *)

(** C36: no update is lost.  Threads call the metrics' functions, and their accesses
    interleave in any way.  At every moment what is left to do takes the counters to
    where the calls would have taken them, made one after the other; so when all
    threads are through, every counter holds its starting value plus the exact sum of
    what was added to it, wrapped to 64 bits. *)
Theorem interleaving_loses_nothing threads codes sch m :
  wf m → mapM thread_of threads = Some codes →
  let '(rest, m') := run_threads sch (codes, m) in
  apply_all (concat threads) m = Some (fetch_adds (concat rest) m')
  ∧ (Forall (λ l, l = []) rest →
     ∃ total, exact_totals (concat threads) = Some total
       ∧ m' = map2 (λ x y, wrap_i64 (x + y)) m total).
Proof.
  intros Hwf Hm. pose proof (finished_run sch (codes, m)) as Hfin.
  destruct (run_threads sch (codes, m)) as [rest m']. unfold finished in Hfin. simpl in Hfin.
  assert (apply_all (concat threads) m = Some (fetch_adds (concat rest) m')) as Happ.
  { rewrite apply_all_accesses by done. rewrite (threads_concat _ _ Hm). simpl. by rewrite Hfin. }
  split; [done|]. intros Hrest.
  assert (concat rest = []) as Hnil.
  { clear -Hrest. induction Hrest as [|l ls -> _ IH]; [done|exact IH]. }
  rewrite Hnil, apply_all_totals in Happ by done.
  destruct (exact_totals (concat threads)) as [total|]; simplify_eq/=. by exists total.
Qed.

(** C35: what a scrape can see.  Other threads run between its loads, so a latency's
    count and sum need not belong together; but as a recording adds to the sum first
    and the scrape loads the count first, the sum is that of some of the recordings the
    threads make, each taken at most once, and no fewer than the count says; and if
    nothing happens just between the two loads, at most one more per thread. *)
Theorem scrape_sum_covers_count threads codes sch gap k :
  mapM thread_of threads = Some codes →
  let '(m, _) := load_counters gap (run_threads sch (codes, Metrics)) in
  (0 < count_of k m)%Z →
  ∃ added c,
    sum_of k m = wrap_i64 (foldr Z.add 0%Z added) ∧ count_of k m = wrap_i64 (Z.of_nat c)
    ∧ added ⊆+ recordings k (concat threads)
    ∧ c ≤ length added
    ∧ (gap (match k with Rpc => 4 | Stream => 6 end) = [] →
       length added ≤ c + length threads).
Proof.
  intros Hm. pose proof (progress_start threads codes k Hm) as Hstart.
  destruct (load_counters_pair gap (run_threads sch (codes, Metrics)) k)
    as (sch' & g & Hcount & -> & Hsum).
  destruct (load_counters gap _) as [m st]. simpl in *. intros Hpos. specialize (Hsum Hpos).
  rewrite <-(run_threads_app sch sch') in *. set (st1 := run_threads (sch ++ sch') (codes, Metrics)) in *.
  destruct (progress_run k _ (sch ++ sch') [] _ Hstart) as [added1 H1]. fold st1 in H1.
  change ([] ++ added1) with added1 in H1.
  destruct (progress_count _ _ _ _ H1) as (c & Hc & Hlen). simpl in Hlen.
  assert (length st1.1 = length threads) as Hthr.
  { unfold st1. rewrite run_threads_length. simpl. symmetry.
    apply mapM_Some in Hm. by eapply Forall2_length. }
  pose proof (all_ahead_le k st1.1) as Hahead.
  set (g := gap (match k with Rpc => 4 | Stream => 6 end)) in *.
  destruct (decide (g = [])) as [Hg|Hg].
  - rewrite Hg in Hsum. change (run_threads [] st1) with st1 in Hsum. destruct H1 as [_ Hadd Hs _].
    exists added1, c. split_and!; [congruence|congruence|rewrite Hadd; by apply submseteq_inserts_r|lia|lia].
  - destruct (progress_run k _ g _ _ H1) as [added2 [_ Hadd Hs _]].
    exists (added1 ++ added2), c. rewrite length_app.
    split_and!; [congruence|congruence|rewrite Hadd; by apply submseteq_inserts_r|lia|done].
Qed.

(** A scrape between whose two loads another thread records: the average it shows is
    twice the latency of every call there was. *)
Example torn_average :
  let record := RecordRpcLatency (Double.of_Z 10) in
  let gap n := match n with 3 => [0; 0] | 4 => [1] | _ => [] end in
  (codes ← mapM thread_of [[record]; [record]];
   scrape "drocm_rpc_latency_avg_us" (prometheus_text_amid gap (codes, Metrics)).1)
  = Some "20.00".
Proof. vm_compute. reflexivity. Qed.

(** A scrape that nothing comes between shows the counters as they are: a sum that
    it does not load it does not print. *)
Lemma quiet_scrape st :
  prometheus_text_amid (λ _, []) st = (get_prometheus_text st.2, st).
Proof.
  destruct st as [ls [m1 m2 m3 m4 m5 m6 m7]]. unfold prometheus_text_amid.
  assert (load_counters (λ _, []) (ls, mk m1 m2 m3 m4 m5 m6 m7)
    = (mk m1 m2 m3 (if 0 <? m5 then m4 else 0) m5 (if 0 <? m7 then m6 else 0) m7,
       (ls, mk m1 m2 m3 m4 m5 m6 m7))%Z) as ->.
  { unfold load_counters, load_counters_from, load_from. simpl.
    destruct (0 <? m5)%Z; simpl; by destruct (0 <? m7)%Z. }
  f_equal. unfold get_prometheus_text.
  cbn [snd rpc_latency_count_ stream_latency_count_].
  by destruct (0 <? m5)%Z, (0 <? m7)%Z.
Qed.

(** * Examples *)

Definition sample_threads : list (list op) :=
  [[IncrementNodesOnline; RecordRpcLatency (Double.of_Z 10)];
   [RecordRpcLatency (Double.of_Z 15); IncrementMessagesSent]].

Definition sample_codes : list (list access) :=
  [[AddNodes 1; AddSum Rpc 10; AddCount Rpc]; [AddSum Rpc 15; AddCount Rpc; AddSent]].

Lemma interleaving_loses_nothing_witness :
  run_threads [1; 0; 0; 1; 0; 1] (sample_codes, Metrics) = ([[]; []], mk 1 0 1 25 2 0 0)
  ∧ ∃ total, exact_totals (concat sample_threads) = Some total
      ∧ mk 1 0 1 25 2 0 0 = map2 (λ x y, wrap_i64 (x + y)) Metrics total.
Proof.
  pose proof (interleaving_loses_nothing sample_threads sample_codes [1; 0; 0; 1; 0; 1]
    Metrics) as Hl.
  split; [by vm_compute|].
  apply Hl; [done|by vm_compute|by repeat constructor].
Defined.

Lemma scrape_sum_covers_count_witness :
  let m := (load_counters (λ n, if decide (n = 4) then [1] else [])
              (run_threads [0; 0; 0] (sample_codes, Metrics))).1 in
  count_of Rpc m = 1%Z ∧ sum_of Rpc m = 25%Z
  ∧ ∃ added, sum_of Rpc m = wrap_i64 (foldr Z.add 0%Z added) ∧ 1 ≤ length added
             ∧ added ⊆+ [10; 15]%Z.
Proof.
  pose proof (scrape_sum_covers_count sample_threads sample_codes [0; 0; 0]
    (λ n, if decide (n = 4) then [1] else []) Rpc) as Hs.
  split; [by vm_compute|]. split; [by vm_compute|]. cbv zeta.
  destruct (load_counters _ _) as [m st] eqn:Hload. vm_compute in Hload.
  injection Hload as <- _.
  destruct Hs as (added & c & Hsum & Hcount & Hadd & Hle & _); [by vm_compute|done|].
  exists added. split; [exact Hsum|]. split; [destruct c as [|c]; [done|lia]|exact Hadd].
Defined.
