(* ===== verification/Lidar.v ===== *)
(** * The LIDAR node (src/examples/lidar_emulator.cpp)

    [Module LidarNodeService] is the node's own gRPC service; the streams it
    writes to and reads from are inputs (what each [Write] and [Read] returns).
    [try_register_node] and [run_heartbeat] are the self-healing client of the
    registry, over the outcomes of their calls.  [serve_metrics] answers one
    connection of the metrics port, [metrics_thread] is the thread that does, and
    [LidarMain.main] starts and joins the threads.  The last part composes the
    client with the registry. *)

From Stdlib Require Import ZArith Lia Ascii.
From stdpp Require Import prelude gmap strings list.
From S2P Require Import Prelude UnorderedMap Messages Grpc NodeDir Table Registry Health.
From S2P Require Import RegistrySystem Coro NodeBase NodeSystem Double Metrics.

#[local] Open Scope drocm_scope.

Module LidarNodeService.

Section service.
  Context `{G : GrpcStatus}.

Definition GetStatus (resp : GetStatusResponse.t) (now : Z) : Status * GetStatusResponse.t :=
  (Status_OK, GetStatusResponse.set_response_time now resp).

Definition Publish (resp : GetStatusResponse.t) : Status * GetStatusResponse.t :=
  (Status_OK, resp).

(** ** Subscribe *)

(** A turn of the loop: what [g_running] holds, the clock, and what [Write]
    returns. *)
Record turn := mk_turn { running : bool; now : Z; write_ok : bool }.

(** What the handler does: writes, with what came of them, the metrics calls, and
    sleeps. *)
Inductive action :=
  | Wrote (data : TopicData.t) (ok : bool)
  | CountedMessage
  | Slept (ms : Z).

Definition kMaxBackpressureRetries : Z := 3.

Definition quote : string := String "034"%char "".

(** The payload of frame [i]. *)
Definition payload (i : Z) : string :=
  "{" +:+ quote +:+ "x" +:+ quote +:+ ":"
  +:+ Double.fixed 6 (Double.mul (Double.of_Z i) (Double.literal 5 1))
  +:+ "," +:+ quote +:+ "y" +:+ quote +:+ ":"
  +:+ Double.fixed 6 (Double.mul (Double.of_Z i) (Double.literal 3 1)) +:+ "}".

(** The one object of the handler, cleared and filled again for each frame. *)
Definition fill (topic : string) (i now : Z) (data : TopicData.t) : TopicData.t :=
  data |> TopicData.Clear
       |> TopicData.set_topic topic
       |> TopicData.set_timestamp now
       |> TopicData.set_payload_type "RobotStatus"
       |> TopicData.set_payload (payload i).

(** [++i] on an [int] that holds its greatest value is undefined. *)
Definition next_frame (i : Z) : option Z :=
  if decide (i = 2 ^ 31 - 1)%Z then None else Some (i + 1)%Z.

(** The loop over its turns: the actions, and whether it has exited. *)
Fixpoint subscribe_loop (topic : string) (turns : list turn) (data : TopicData.t)
    (i consecutive_failures : Z) : option (list action * bool) :=
  match turns with
  | [] => Some ([], false)
  | t :: turns =>
      if negb (running t) then Some ([], true)
      else
        let data := fill topic i (now t) data in
        if negb (write_ok t) then
          let consecutive_failures := (consecutive_failures + 1)%Z in
          if (kMaxBackpressureRetries <=? consecutive_failures)%Z then
            Some ([Wrote data false], true)
          else
            let backoff := Z.shiftl 10 (consecutive_failures - 1) in
            i ← next_frame i;
            '(acts, exited) ← subscribe_loop topic turns data i consecutive_failures;
            Some ([Wrote data false; Slept backoff] ++ acts, exited)
        else
          i ← next_frame i;
          '(acts, exited) ← subscribe_loop topic turns data i 0;
          Some ([Wrote data true; CountedMessage] ++ acts, exited)
  end.

(** The handler answers OK however it ends. *)
Definition Subscribe (request : SubscribeRequest.t) (turns : list turn)
    : option (list action * bool) :=
  subscribe_loop (SubscribeRequest.topic request) turns TopicData.empty 0 0.

(** ** ControlStream *)

Inductive control_action :=
  | SleptMs (ms : Z)
  | Ignored (req : ControlStreamRequest.t)
  | Responded (resp : ControlStreamResponse.t) (ok : bool).

Definition kMaxPending : Z := 5.

(** The requests that [Read] delivers, each with what the [Write] of its response
    would return; after the last one [Read] returns false. *)
Fixpoint control_loop (reads : list (ControlStreamRequest.t * bool)) (pending : Z)
    : list control_action :=
  match reads with
  | [] => []
  | (req, ok) :: reads =>
      if (kMaxPending <=? pending)%Z then Ignored req :: control_loop reads pending
      else
        let pending := (pending + 1)%Z in
        let resp := ControlStreamResponse.empty
                      |> ControlStreamResponse.set_session_id
                           (ControlStreamRequest.session_id req) in
        [SleptMs 10; Responded resp ok]
        ++ (if negb ok then [] else control_loop reads (pending - 1))
  end.

Definition ControlStream (reads : list (ControlStreamRequest.t * bool))
    : Status * list control_action :=
  (Status_OK, control_loop reads 0).

End service.

(** ** Facts *)

(** The consecutive failed writes at the end of [turns], counted on from [c]. *)
Definition streak (c : Z) (turns : list turn) : Z :=
  foldl (λ c t, if write_ok t then 0 else c + 1)%Z c turns.

Definition written (acts : list action) : list (TopicData.t * bool) :=
  omap (λ a, match a with Wrote d ok => Some (d, ok) | _ => None end) acts.

Definition counted (acts : list action) : nat :=
  length (omap (λ a, match a with CountedMessage => Some tt | _ => None end) acts).

(** The frames of the turns [pre], numbered from [i]. *)
Definition frames_of (topic : string) (i : Z) (pre : list turn) : list (TopicData.t * bool) :=
  imap (λ k t, (TopicData.mk topic (wrap_u64 (now t)) (payload (i + Z.of_nat k)) "RobotStatus", write_ok t))
    pre.

Lemma fill_eq topic i now data :
  fill topic i now data = TopicData.mk topic (wrap_u64 now) (payload i) "RobotStatus".
Proof. done. Qed.

(** How a loop that starts with [c] failures behind it went through [pre], the
    turns in which it wrote. *)
Record went_through (topic : string) (turns : list turn) (i c : Z) (pre : list turn)
    (acts : list action) (exited : bool) : Prop := {
  gt_prefix : pre `prefix_of` turns;
  gt_running : Forall (λ t, running t = true) pre;
  gt_written : written acts = frames_of topic i pre;
  gt_counted : counted acts = length (filter (λ t : turn, write_ok t) pre);
  gt_sleeps ms : Slept ms ∈ acts → ms = 10%Z ∨ ms = 20%Z;
  gt_streak pre' : pre' `prefix_of` pre → pre' ≠ pre → (streak c pre' < 3)%Z;
  gt_exit :
    if exited then
      streak c pre = 3%Z
      ∨ (streak c pre < 3)%Z
        ∧ ∃ t rest, turns = pre ++ t :: rest ∧ running t = false
    else pre = turns ∧ (streak c pre < 3)%Z;
}.

Lemma frames_of_cons topic i t pre :
  frames_of topic i (t :: pre)
  = (TopicData.mk topic (wrap_u64 (now t)) (payload i) "RobotStatus", write_ok t)
      :: frames_of topic (i + 1) pre.
Proof.
  unfold frames_of. csimpl. rewrite Z.add_0_r. f_equal. apply imap_ext. intros k t' _. simpl.
  do 3 f_equal. lia.
Qed.

Lemma went_nothing topic (turns : list turn) i c (exited : bool) :
  (if exited then
     c = 3%Z ∨ (c < 3)%Z ∧ ∃ t rest, turns = t :: rest ∧ running t = false
   else [] = turns ∧ (c < 3)%Z) →
  went_through topic turns i c [] [] exited.
Proof.
  intros Hexit. split; try done.
  - apply prefix_nil.
  - intros ms Hms. by apply elem_of_nil in Hms.
  - intros pre' Hp Hne. by apply prefix_nil_inv in Hp.
Qed.

(** One more turn in front. *)
Lemma went_cons topic t turns i c pre acts exited here :
  running t = true → (0 ≤ c < 3)%Z →
  written here = [(TopicData.mk topic (wrap_u64 (now t)) (payload i) "RobotStatus", write_ok t)] →
  counted here = (if write_ok t then 1 else 0) →
  (∀ ms, Slept ms ∈ here → ms = 10%Z ∨ ms = 20%Z) →
  went_through topic turns (i + 1) (if write_ok t then 0 else c + 1)%Z pre acts exited →
  went_through topic (t :: turns) i c (t :: pre) (here ++ acts) exited.
Proof.
  intros Hrun Hc Hw Hcnt Hsl [Hp Hr Hwr Hct Hs Hst Hex]. split.
  - by apply prefix_cons.
  - by constructor.
  - unfold written in *. by rewrite frames_of_cons, omap_app, Hw, Hwr.
  - unfold counted in *. rewrite omap_app, length_app, Hcnt, Hct.
    rewrite filter_cons. by destruct (write_ok t).
  - intros ms [Hms|Hms]%elem_of_app; [by apply Hsl|by apply Hs].
  - intros pre' Hpre Hne. destruct pre' as [|t' pre']; [simpl; lia|].
    pose proof (prefix_cons_inv_1 _ _ _ _ Hpre) as ->. apply prefix_cons_inv_2 in Hpre.
    simpl. apply Hst; [done|]. congruence.
  - destruct exited; simpl; [|by destruct Hex as [-> ?]].
    destruct Hex as [Hex|(Hlt & t' & rest & -> & Hn)]; [by left|right].
    split; [done|]. by exists t', rest.
Qed.

Lemma subscribe_loop_spec topic turns data i c :
  (0 ≤ c < 3)%Z → (0 ≤ i)%Z → (i + Z.of_nat (length turns) < 2 ^ 31)%Z →
  ∃ pre acts exited,
    subscribe_loop topic turns data i c = Some (acts, exited)
    ∧ went_through topic turns i c pre acts exited.
Proof.
  revert data i c. induction turns as [|t turns IH]; intros data i c Hc Hi Hlen; simpl.
  { exists [], [], false. split; [done|]. apply went_nothing. split; [done|lia]. }
  destruct (running t) eqn:Hrun; simpl.
  2: { exists [], [], true. split; [done|]. apply went_nothing. right. split; [lia|].
    by exists t, turns. }
  simpl in Hlen. rewrite fill_eq. unfold next_frame. rewrite decide_False by lia. simpl.
  unfold kMaxBackpressureRetries.
  destruct (write_ok t) eqn:Hok; simpl.
  - destruct (IH (fill topic i (now t) data) (i + 1)%Z 0%Z) as (pre & acts & exited & Heq & Hgt);
      [lia|lia|lia|].
    rewrite fill_eq in Heq. rewrite Heq. simpl.
    exists (t :: pre), ([Wrote (TopicData.mk topic (wrap_u64 (now t)) (payload i) "RobotStatus") true;
                         CountedMessage] ++ acts), exited.
    split; [done|]. apply went_cons; try done; rewrite ?Hok; try done.
    intros ms Hms. rewrite !elem_of_cons, elem_of_nil in Hms.
    by destruct Hms as [|[|[]]].
  - destruct (Z.leb_spec 3 (c + 1)); simpl.
    + exists [t], ([Wrote (TopicData.mk topic (wrap_u64 (now t)) (payload i) "RobotStatus") false]), true.
      split; [done|]. rewrite <-(app_nil_r [Wrote _ false]).
      apply went_cons; try done; rewrite ?Hok; try done.
      { intros ms Hms%list_elem_of_singleton. done. }
      apply went_nothing. left. lia.
    + destruct (IH (fill topic i (now t) data) (i + 1)%Z (c + 1)%Z)
        as (pre & acts & exited & Heq & Hgt); [lia|lia|lia|].
      rewrite fill_eq in Heq. rewrite Heq. simpl.
      exists (t :: pre), ([Wrote (TopicData.mk topic (wrap_u64 (now t)) (payload i) "RobotStatus") false;
                           Slept (Z.shiftl 10 (c + 1 - 1))] ++ acts), exited.
      split; [done|]. apply went_cons; try done; rewrite ?Hok; try done.
      intros ms Hms. rewrite !elem_of_cons, elem_of_nil in Hms.
      destruct Hms as [|[[= ->]|[]]]; [done|].
      assert (c = 0 ∨ c = 1)%Z as [->| ->] by lia; auto.
Qed.

End LidarNodeService.

(** * The self-healing client *)

Module LidarClient.

Section client.
  Context `{G : GrpcStatus}.

Inductive action :=
  | SentRegister (req : RegisterRequest.t)
  | SentHeartbeat (req : HeartbeatRequest.t)
  | SleptFor (ms : Z).

Definition register_request (node_id : string) (port : Z) : RegisterRequest.t :=
  RegisterRequest.set_node_info
    (NodeInfo.empty |> NodeInfo.set_node_id node_id
                    |> NodeInfo.set_ip_address "127.0.0.1"
                    |> NodeInfo.set_port port
                    |> NodeInfo.add_services "lidar") RegisterRequest.empty.

(** [try_register_node]: what it sends, what it returns, and [session_id]
    afterwards; [reply] is what the Register call leaves. *)
Definition try_register_node (node_id : string) (port : Z) (session_id : string)
    (reply : Status * RegisterResponse.t) : list action * bool * string :=
  let '(status, resp) := reply in
  if status_ok status && RegisterResponse.success resp then
    ([SentRegister (register_request node_id port)], true, RegisterResponse.session_id resp)
  else ([SentRegister (register_request node_id port)], false, session_id).

(** The variables of [run_heartbeat]. *)
Record t := mk {
  session_id : string;
  consecutive_failures : Z;
  needs_reregister : bool;
}.

Definition max_retries : Z := 5.

Definition heartbeat_request (node_id session_id : string) (now : Z) : HeartbeatRequest.t :=
  HeartbeatRequest.empty |> HeartbeatRequest.set_node_id node_id
                         |> HeartbeatRequest.set_session_id session_id
                         |> HeartbeatRequest.set_timestamp now
                         |> HeartbeatRequest.set_cpu_usage (float_of_Z 15)
                         |> HeartbeatRequest.set_memory_usage (float_of_Z 45)
                         |> HeartbeatRequest.set_active_connections 2.

(** What one turn of the loop sees: the two flags, the outcome of the Register
    call should it make one, the clock, and the outcome of the Heartbeat call. *)
Record turn := mk_turn {
  heartbeat_running : bool;
  g_running : bool;
  register_reply : Status * RegisterResponse.t;
  now : Z;
  heartbeat_reply : Status * HeartbeatResponse.t;
}.

Definition backoff_ms (failures : Z) : Z := Z.min (500 * Z.shiftl 1 (failures - 1)) 10000.

(** The second half of the body: the heartbeat. *)
Definition beat (node_id : string) (it : turn) (c : t) : list action * t :=
  let req := heartbeat_request node_id (session_id c) (now it) in
  let '(status, resp) := heartbeat_reply it in
  if status_ok status && HeartbeatResponse.success resp then
    ([SentHeartbeat req; SleptFor 500], mk (session_id c) 0 (needs_reregister c))
  else
    let failures := (consecutive_failures c + 1)%Z in
    ([SentHeartbeat req; SleptFor (backoff_ms failures)],
     mk (session_id c) failures (if (max_retries <=? failures)%Z then true else needs_reregister c)).

(** The body: first the re-registration, if it is due. *)
Definition body (node_id : string) (port : Z) (it : turn) (c : t) : list action * t :=
  if needs_reregister c then
    let '(acts, ok, sid) := try_register_node node_id port (session_id c) (register_reply it) in
    if ok then
      let '(acts', c) := beat node_id it (mk sid 0 false) in (acts ++ acts', c)
    else (acts ++ [SleptFor 2000], c)
  else beat node_id it c.

Fixpoint heartbeat_loop (node_id : string) (port : Z) (its : list turn) (c : t)
    : list action * t * bool :=
  match its with
  | [] => ([], c, false)
  | it :: its =>
      if heartbeat_running it && g_running it then
        let '(acts, c) := body node_id port it c in
        let '(acts', c, exited) := heartbeat_loop node_id port its c in
        (acts ++ acts', c, exited)
      else ([], c, true)
  end.

Definition run_heartbeat (node_id : string) (port : Z) (session_id : string) (its : list turn)
    : list action * t * bool :=
  heartbeat_loop node_id port its (mk session_id 0 false).

(** ** Facts *)

(** Re-registration is due exactly after five failures in a row. *)
Definition client_inv (c : t) : Prop :=
  (0 ≤ consecutive_failures c ≤ 5)%Z
  ∧ (needs_reregister c = true ↔ consecutive_failures c = 5%Z).

Definition beat_ok (it : turn) : bool :=
  status_ok (heartbeat_reply it).1 && HeartbeatResponse.success (heartbeat_reply it).2.

Definition register_ok (it : turn) : bool :=
  status_ok (register_reply it).1 && RegisterResponse.success (register_reply it).2.

(** The sleeps the client ever makes. *)
Definition sleep_ok (a : action) : Prop :=
  match a with SleptFor ms => ms ∈ [500; 1000; 2000; 4000; 8000]%Z | _ => True end.

Lemma backoff_exact k : (1 ≤ k ≤ 5)%Z → backoff_ms k = (500 * 2 ^ (k - 1))%Z.
Proof.
  intros Hk. assert (k = 1 ∨ k = 2 ∨ k = 3 ∨ k = 4 ∨ k = 5)%Z as Hcases by lia.
  by destruct Hcases as [->|[->|[->|[->| ->]]]].
Qed.

Lemma backoff_listed k : (1 ≤ k ≤ 5)%Z → backoff_ms k ∈ [500; 1000; 2000; 4000; 8000]%Z.
Proof.
  intros Hk. assert (k = 1 ∨ k = 2 ∨ k = 3 ∨ k = 4 ∨ k = 5)%Z as Hcases by lia.
  destruct Hcases as [->|[->|[->|[->| ->]]]]; by apply (bool_decide_unpack _).
Qed.

Lemma beat_spec node_id it c :
  client_inv c → needs_reregister c = false →
  let '(acts, c') := beat node_id it c in
  client_inv c' ∧ Forall sleep_ok acts ∧ session_id c' = session_id c
  ∧ if beat_ok it then consecutive_failures c' = 0%Z ∧ needs_reregister c' = false
    else consecutive_failures c' = (consecutive_failures c + 1)%Z
         ∧ acts = [SentHeartbeat (heartbeat_request node_id (session_id c) (now it));
                   SleptFor (500 * 2 ^ consecutive_failures c)].
Proof.
  intros [Hc Hneeds] Hno. rewrite Hno in Hneeds.
  assert (consecutive_failures c < 5)%Z as Hlt.
  { destruct (decide (consecutive_failures c = 5)%Z) as [H5|]; [|lia].
    by apply (proj2 Hneeds) in H5. }
  unfold beat, beat_ok. destruct (heartbeat_reply it) as [st resp]. simpl.
  destruct (status_ok st && _); simpl.
  - split_and!; [|repeat constructor; simpl; set_solver|done|done|done].
    split; simpl; [lia|]. rewrite Hno. split; [done|lia].
  - rewrite Hno. split_and!; [| |done|done|].
    + split; simpl; [lia|]. unfold max_retries.
      destruct (Z.leb_spec 5 (consecutive_failures c + 1)); split; try done; lia.
    + rewrite !Forall_cons, Forall_nil. simpl. split_and!; [done|apply backoff_listed; lia|done].
    + rewrite backoff_exact by lia. by replace (consecutive_failures c + 1 - 1)%Z
        with (consecutive_failures c) by lia.
Qed.

Lemma body_spec node_id port it c :
  client_inv c →
  let '(acts, c') := body node_id port it c in
  client_inv c' ∧ Forall sleep_ok acts
  ∧ (needs_reregister c = true → register_ok it = false →
       c' = c ∧ acts = [SentRegister (register_request node_id port); SleptFor 2000]).
Proof.
  intros Hinv. unfold body. destruct (needs_reregister c) eqn:Hneeds.
  - unfold try_register_node, register_ok. destruct (register_reply it) as [st resp]. simpl.
    destruct (status_ok st && _); simpl.
    + pose proof (beat_spec node_id it (mk (RegisterResponse.session_id resp) 0 false)) as Hbeat.
      destruct (beat _ _ _) as [acts c']. destruct Hbeat as (Hinv' & Hsl & _); [|done|].
      { split; simpl; [lia|]. split; [done|lia]. }
      split_and!; [done|by constructor|done].
    + split_and!; [done|repeat constructor; simpl; set_solver|done].
  - pose proof (beat_spec node_id it c Hinv Hneeds) as Hbeat.
    destruct (beat _ _ _) as [acts c']. by destruct Hbeat as (? & ? & _).
Qed.

End client.
End LidarClient.

(** * The metrics port *)

Definition crlf : string := String "013"%char (String "010"%char "").

(** What one accepted connection is sent. *)
Definition serve_metrics (m : Metrics.t) : string :=
  let body := Metrics.get_prometheus_text m in
  "HTTP/1.1 200 OK" +:+ crlf
  +:+ "Content-Type: text/plain; version=0.0.4; charset=utf-8" +:+ crlf
  +:+ "Content-Length: " +:+ to_string (Z.of_nat (String.length body)) +:+ crlf
  +:+ "Connection: close" +:+ crlf +:+ crlf +:+ body.

Section claims.
  Context `{G : GrpcStatus}.
  Import LidarNodeService.

(** C40: a subscription.  As long as it makes fewer than 2^31 frames, it writes in
    every turn it sees the process running, frame after frame, with the topic asked
    for, the time of the turn and the payload of the frame's number; every
    successful write, and no other, is counted; it never lets three writes in a row
    fail before it leaves, so it only ever sleeps 10 or 20 ms; and it leaves
    exactly when the third write in a row fails or the process is told to stop. *)
Theorem Subscribe_outcomes request turns :
  (Z.of_nat (length turns) < 2 ^ 31)%Z →
  ∃ pre acts exited,
    Subscribe request turns = Some (acts, exited)
    ∧ went_through (SubscribeRequest.topic request) turns 0 0 pre acts exited.
Proof. intros Hlen. apply subscribe_loop_spec; lia. Qed.

(** The requests answered by a control stream: up to the first response that
    cannot be written. *)
Fixpoint answered (reads : list (ControlStreamRequest.t * bool))
    : list (ControlStreamRequest.t * bool) :=
  match reads with
  | [] => []
  | (req, ok) :: reads => (req, ok) :: (if negb ok then [] else answered reads)
  end.

(** The control stream is an echo: it answers the requests one by one, in
    order, each 10 ms after it was read and with its session id and no result,
    until a response cannot be written; it never has more than one request
    pending, so the branch that ignores requests beyond five is never taken. *)
Theorem ControlStream_echoes reads :
  ControlStream reads
  = (Status_OK,
     concat ((λ ro, [SleptMs 10;
                     Responded (ControlStreamResponse.mk
                       (ControlStreamRequest.session_id ro.1) None) ro.2]) <$> answered reads)).
Proof.
  unfold ControlStream. f_equal. induction reads as [|[req ok] reads IH]; [done|].
  cbn [control_loop answered]. change (kMaxPending <=? 0)%Z with false. cbn iota.
  destruct ok; cbn [negb]; [|done]. change (0 + 1 - 1)%Z with 0%Z. by rewrite IH.
Qed.

End claims.

Section client_claims.
  Context `{G : GrpcStatus}.
  Import LidarClient.

(** The turns the loop takes: both flags are set. *)
Definition turn_taken (it : turn) : bool := heartbeat_running it && g_running it.

Lemma heartbeat_loop_inv node_id port its c :
  client_inv c →
  let '(acts, c', exited) := heartbeat_loop node_id port its c in
  client_inv c' ∧ Forall sleep_ok acts.
Proof.
  revert c. induction its as [|it its IH]; intros c Hinv; simpl; [by split|].
  destruct (heartbeat_running it && g_running it); [|by split].
  pose proof (body_spec node_id port it c Hinv) as Hbody.
  destruct (body node_id port it c) as [acts c1]. destruct Hbody as (Hinv1 & Hsl & _).
  specialize (IH c1 Hinv1). destruct (heartbeat_loop node_id port its c1) as [[acts2 c2] ex].
  destruct IH as [Hinv2 Hsl2]. split; [done|]. by apply Forall_app.
Qed.

Lemma heartbeat_loop_app node_id port its1 its2 c :
  Forall (λ it, turn_taken it = true) its1 →
  heartbeat_loop node_id port (its1 ++ its2) c =
    let '(acts1, c1, _) := heartbeat_loop node_id port its1 c in
    let '(acts2, c2, exited) := heartbeat_loop node_id port its2 c1 in
    (acts1 ++ acts2, c2, exited).
Proof.
  intros Hall. revert c. induction Hall as [|it its Hit _ IH]; intros c; simpl.
  { by destruct (heartbeat_loop _ _ its2 c) as [[??]?]. }
  unfold turn_taken in Hit. rewrite Hit. destruct (body _ _ it c) as [acts c1]. rewrite IH.
  destruct (heartbeat_loop _ _ its c1) as [[acts1 c2] ex1].
  destruct (heartbeat_loop _ _ its2 c2) as [[acts2 c3] ex2]. by rewrite app_assoc.
Qed.

(** The failing heartbeats of a client with [k] failures behind it. *)
Definition failing_acts (node_id sid : string) (k : Z) (its : list turn) : list action :=
  concat (imap (λ j it, [SentHeartbeat (heartbeat_request node_id sid (now it));
                         SleptFor (500 * 2 ^ (k + Z.of_nat j))]) its).

Lemma failing_run node_id port its c :
  client_inv c → needs_reregister c = false →
  (consecutive_failures c + Z.of_nat (length its) ≤ 5)%Z →
  Forall (λ it, turn_taken it && negb (beat_ok it) = true) its →
  ∃ c', heartbeat_loop node_id port its c
      = (failing_acts node_id (session_id c) (consecutive_failures c) its, c', false)
    ∧ client_inv c' ∧ session_id c' = session_id c
    ∧ consecutive_failures c' = (consecutive_failures c + Z.of_nat (length its))%Z.
Proof.
  intros Hinv Hno Hlen Hall. revert c Hinv Hno Hlen.
  induction Hall as [|it its Hit _ IH]; intros c Hinv Hno Hlen; simpl.
  { exists c. split_and!; [done|done|done|lia]. }
  apply andb_true_iff in Hit as [Htk Hbeat]. apply negb_true_iff in Hbeat.
  unfold turn_taken in Htk. rewrite Htk. unfold body. rewrite Hno.
  pose proof (beat_spec node_id it c Hinv Hno) as Hspec.
  destruct (beat node_id it c) as [acts c1]. rewrite Hbeat in Hspec.
  destruct Hspec as (Hinv1 & _ & Hsid & Hcf & ->).
  assert (failing_acts node_id (session_id c) (consecutive_failures c) (it :: its)
    = [SentHeartbeat (heartbeat_request node_id (session_id c) (now it));
       SleptFor (500 * 2 ^ consecutive_failures c)]
      ++ failing_acts node_id (session_id c) (consecutive_failures c + 1) its) as ->.
  { unfold failing_acts. csimpl. rewrite Z.add_0_r.
    do 2 apply (f_equal (cons _)). apply (f_equal (@concat _)), imap_ext.
    intros j it' _. unfold compose.
    by replace (consecutive_failures c + Z.of_nat (S j))%Z
      with (consecutive_failures c + 1 + Z.of_nat j)%Z by lia. }
  simpl in Hlen. destruct its as [|it2 its].
  { simpl. exists c1. split_and!; [done|done|done|lia]. }
  assert (needs_reregister c1 = false) as Hno1.
  { apply not_true_iff_false. intros H5. apply Hinv1 in H5. simpl in Hlen. lia. }
  destruct (IH c1 Hinv1 Hno1) as (c2 & -> & Hinv2 & Hsid2 & Hcf2); [lia|].
  exists c2. rewrite Hsid, Hcf. split_and!; [done|done|congruence|lia].
Qed.

(** C32: the backoff of the heartbeat client.  Whatever its calls return, a turn
    ends with a sleep of 500, 1000, 2000, 4000 or 8000 ms: the failure count never
    exceeds five, so the exponent never grows past four, the product stays far from
    overflowing an int and the cap of 10 s is never reached.  Five failures in a row
    take exactly those five sleeps, and from then on no heartbeat is sent: every
    further turn retries the registration, every 2 s, until one succeeds. *)
Theorem client_backs_off node_id port sid its fails retries :
  (let '(acts, c, _) := run_heartbeat node_id port sid its in
   client_inv c ∧ Forall sleep_ok acts)
  ∧ (length fails = 5 →
     Forall (λ it, turn_taken it && negb (beat_ok it) = true) fails →
     Forall (λ it, turn_taken it && negb (register_ok it) = true) retries →
     run_heartbeat node_id port sid (fails ++ retries)
     = (failing_acts node_id sid 0 fails
        ++ concat (replicate (length retries)
             [SentRegister (register_request node_id port); SleptFor 2000]),
        mk sid 5 true, false)).
Proof.
  assert (client_inv (mk sid 0 false)) as Hinit by (split; [simpl; lia|done]).
  split; [by apply heartbeat_loop_inv|]. intros Hlen Hfails Hretries. unfold run_heartbeat.
  destruct (failing_run node_id port fails (mk sid 0 false)) as (c & Hrun & Hinv & Hsid & Hcf);
    [done|done|simpl; lia|done|].
  rewrite heartbeat_loop_app.
  2: { eapply Forall_impl; [exact Hfails|]. by intros it [? _]%andb_true_iff. }
  rewrite Hrun. rewrite Hlen in Hcf. change (consecutive_failures c = 5%Z) in Hcf.
  change (session_id c = sid) in Hsid.
  assert (needs_reregister c = true) as Hneeds by (apply Hinv; lia).
  destruct c as [sid' cf needs]. simpl in Hsid, Hcf, Hneeds. subst sid' cf needs. clear Hrun.
  cbn [session_id consecutive_failures].
  assert (heartbeat_loop node_id port retries (mk sid 5 true)
    = (concat (replicate (length retries)
        [SentRegister (register_request node_id port); SleptFor 2000]), mk sid 5 true, false)) as ->;
    [|done].
  induction Hretries as [|it its' Hit _ IH]; [done|].
  apply andb_true_iff in Hit as [Htk Hreg]. apply negb_true_iff in Hreg.
  unfold turn_taken in Htk. cbn [heartbeat_loop length replicate concat]. rewrite Htk.
  pose proof (body_spec node_id port it (mk sid 5 true) Hinv) as Hbody.
  destruct (body node_id port it (mk sid 5 true)) as [acts c1].
  destruct Hbody as (_ & _ & Hb). destruct Hb as [-> ->]; [done|done|]. by rewrite IH.
Qed.

End client_claims.

(** The metrics thread.  A turn of its loop: what [g_running] holds, what [accept]
    does, and the metrics when a connection is answered; a call of [accept] that
    does not return is the last turn of the history. *)
Inductive accept_result := Blocks | Fails | Connects.

Record metrics_turn := mk_metrics_turn {
  still_running : bool;
  accepted : accept_result;
  metrics : Metrics.t;
}.

(** The responses written, and whether the loop has been left. *)
Fixpoint metrics_loop (turns : list metrics_turn) : list string * bool :=
  match turns with
  | [] => ([], false)
  | t :: turns =>
      if negb (still_running t) then ([], true)
      else
        match accepted t with
        | Blocks => ([], false)
        | Fails => metrics_loop turns
        | Connects =>
            let '(responses, exited) := metrics_loop turns in
            (serve_metrics (metrics t) :: responses, exited)
        end
  end.

(** The thread: whether it finished, given how [socket], [bind] and [listen]
    went. *)
Definition metrics_thread (socket_ok bind_ok listen_ok : bool) (turns : list metrics_turn)
    : list string * bool :=
  if negb socket_ok then ([], true)
  else if negb bind_ok then ([], true)
  else if negb listen_ok then ([], true)
  else metrics_loop turns.

(** * main *)

Module LidarMain.

Inductive action :=
  | InitLogger
  | BuildServer
  | SpawnMetrics
  | TryRegister (acts : list LidarClient.action)
  | SpawnHeartbeat
  | SleepWhileRunning (sleeps : list Z)
  | ServerShutdown
  | NullServer            (* [BuildAndStart] had returned null *)
  | StopHeartbeat
  | JoinHeartbeat
  | JoinMetrics
  | ServerWait
  | ShutdownLogger.

(** The handler of SIGINT and SIGTERM stores false in [g_running]. *)
Definition signal_handler (g_running : bool) : bool := false.

Section main.
  Context `{G : GrpcStatus}.

(** [main] up to where it has got: [server] tells whether the server was built,
    [reply] is the outcome of the initial registration, [loads] what the wait for
    the signal has seen of [g_running], and the two histories are what the threads it joins have done by
    then.  A [join] on a thread that has not finished is where it waits. *)
Definition main (server : bool) (reply : Status * RegisterResponse.t) (loads : list bool)
    (heartbeat : list LidarClient.turn) (socket_ok bind_ok listen_ok : bool)
    (scrapes : list metrics_turn) : list action :=
  let kNodePort := 50052%Z in
  let '(acts, _, session_id) :=
    LidarClient.try_register_node "lidar_01" kNodePort "pending" reply in
  let begun := [InitLogger; BuildServer; SpawnMetrics; TryRegister acts; SpawnHeartbeat;
                SleepWhileRunning (sleep_while 200 loads).1] in
  if negb (sleep_while 200 loads).2 then begun
  else if negb server then begun ++ [NullServer]
  else
    let stopping := begun ++ [ServerShutdown; StopHeartbeat] in
    let '(_, _, heartbeat_done) :=
      LidarClient.run_heartbeat "lidar_01" kNodePort session_id heartbeat in
    let '(_, metrics_done) := metrics_thread socket_ok bind_ok listen_ok scrapes in
    if negb heartbeat_done then stopping
    else if negb metrics_done then stopping ++ [JoinHeartbeat]
    else stopping ++ [JoinHeartbeat; JoinMetrics; ServerWait; ShutdownLogger].

End main.
End LidarMain.

Section main_claims.
  Context `{G : GrpcStatus}.
  Import LidarMain.

Lemma metrics_loop_left turns :
  (metrics_loop turns).2 = true
  ↔ ∃ pre t rest, turns = pre ++ t :: rest ∧ still_running t = false
      ∧ Forall (λ t, still_running t = true ∧ accepted t ≠ Blocks) pre.
Proof.
  induction turns as [|t turns IH]; simpl.
  { split; [done|]. intros (pre & t & rest & Heq & _). by destruct pre. }
  destruct (still_running t) eqn:Hrun; simpl.
  2: { split; [|done]. intros _. exists [], t, turns. by split_and!. }
  assert ((match accepted t with
           | Blocks => ([], false)
           | Fails => metrics_loop turns
           | Connects => let '(responses, exited) := metrics_loop turns in
                         (serve_metrics (metrics t) :: responses, exited)
           end).2 = true ↔ accepted t ≠ Blocks ∧ (metrics_loop turns).2 = true) as ->.
  { destruct (accepted t); simpl; [by split; [|intros [? _]]|by split; [|intros [_ ?]]|].
    destruct (metrics_loop turns). simpl. by split; [|intros [_ ?]]. }
  rewrite IH. split.
  - intros (Ha & pre & t' & rest & -> & Ht' & Hpre). exists (t :: pre), t', rest.
    split_and!; [done|done|by constructor].
  - intros (pre & t' & rest & Heq & Ht' & Hpre). destruct pre as [|t0 pre].
    + injection Heq as <- _. congruence.
    + injection Heq as <- ->. apply Forall_cons in Hpre as [[_ ?] ?].
      split; [done|]. by exists pre, t', rest.
Qed.

(** Clearing [g_running] does not end the process.  When the metrics port is up,
    [main] gets past its join of the metrics thread exactly when the heartbeat
    thread has finished and the metrics thread has come back to its loop condition
    after the flag was cleared: [accept] must have returned from every call
    before, so a process that is in [accept] when the signal comes stays in the
    join until one more client connects to the metrics port. *)
Theorem main_exit_needs_connection reply loads heartbeat scrapes :
  false ∈ loads →
  let acts := main true reply loads heartbeat true true true scrapes in
  ShutdownLogger ∈ acts ↔
    (let '(_, _, session_id) := LidarClient.try_register_node "lidar_01" 50052 "pending" reply in
     (LidarClient.run_heartbeat "lidar_01" 50052 session_id heartbeat).2 = true)
    ∧ ∃ pre t rest, scrapes = pre ++ t :: rest ∧ still_running t = false
        ∧ Forall (λ t, still_running t = true ∧ accepted t ≠ Blocks) pre.
Proof.
  intros Hleft%(sleep_while_left 200) acts. unfold acts, main, metrics_thread. rewrite Hleft.
  rewrite <-metrics_loop_left.
  destruct (LidarClient.try_register_node _ _ _ _) as [[racts rok] sid]. simpl.
  destruct (LidarClient.run_heartbeat _ _ _ _) as [[hacts hc] hdone].
  destruct (metrics_loop scrapes) as [responses mdone].
  destruct hdone, mdone; simpl; split; try by intros [? ?].
  2: { intros _. rewrite !elem_of_cons. auto 20. }
  all: intros Hin; repeat apply elem_of_cons in Hin as [[=]|Hin]; try by apply elem_of_nil in Hin.
  done.
Qed.

End main_claims.

(** * The client and the registry *)

Section healing.
  Context {T : Type} `{NodeDirectoryLaws T} `{GL : !GrpcStatusLaws G}
    `{UL : !@UnaryCallLaws G U}.
  Implicit Types s : RegistryService.t T.
  Import RegistryService.

(** The registry runs and has room. *)
Definition open_registry s : Prop :=
  is_running s = true ∧ (Z.of_nat (size (svc_abs s)) < svc_capacity s)%Z.

(** A retry of the registration that finds the registry running, with room, and
    without an entry of the node: the turn registers a fresh entry, takes over the
    session, has its heartbeat accepted and is back to a beat every 500 ms. *)
Lemma retry_succeeds s id port sid rand now sent received :
  svc_wf s → registrable id s →
  let req := LidarClient.register_request id port in
  let session := make_session_id id rand in
  let beat := LidarClient.heartbeat_request id session sent in
  let '(reply, s1) := rpc_Register req rand now s in
  let '(beat_reply, s2) := rpc_Heartbeat beat received s1 in
  LidarClient.body id port (LidarClient.mk_turn true true reply sent beat_reply)
    (LidarClient.mk sid 5 true)
  = ([LidarClient.SentRegister req; LidarClient.SentHeartbeat beat; LidarClient.SleptFor 500],
     LidarClient.mk session 0 false)
  ∧ ∃ e, svc_abs s2 !! id = Some e
      ∧ NodeEntry.session_id e = session ∧ NodeEntry.missed_heartbeats e = 0%Z
      ∧ NodeEntry.last_heartbeat e = received.
Proof.
  intros Hwf Hopen req session beat. pose proof Hopen as (_ & Hid & _).
  set (info := default NodeInfo.empty (RegisterRequest.node_info req)).
  pose proof (rpc_Register_spec info rand now s Hwf) as Hreg. cbv zeta in Hreg.
  change (RegisterRequest.set_node_info info RegisterRequest.empty) with req in Hreg.
  change (NodeInfo.node_id info) with id in Hreg.
  destruct (rpc_Register req rand now s) as [reply s1].
  destruct Hreg as (Hwf1 & Hyes & _). destruct (Hyes Hopen) as [-> Habs1].
  pose proof (rpc_Heartbeat_spec beat received
    (NodeEntry.fresh info (make_session_id id rand) now) s1 Hwf1 Hid) as Hbeat.
  change (HeartbeatRequest.node_id beat) with id in Hbeat. rewrite Habs1 in Hbeat.
  specialize (Hbeat (lookup_insert_eq _ _ _)).
  destruct (rpc_Heartbeat beat received s1) as [beat_reply s2]. destruct Hbeat as [-> Habs2].
  split.
  - unfold LidarClient.body, LidarClient.try_register_node, LidarClient.beat. simpl.
    by rewrite status_ok_OK.
  - eexists. split; [exact Habs2|]. by split_and!.
Qed.

(** C7: the client heals itself.  A client that lost contact and is down to
    retrying its registration gets back in within as many checker rounds as the
    threshold, whatever the other clients do meanwhile (its own early retries
    included), provided the registry keeps running and keeps room: after some
    round its next turn registers a fresh entry, takes over the new session, has
    its heartbeat accepted, and goes back to one heartbeat every 500 ms with no
    failure behind it. *)
Theorem client_self_heals threshold rs s id port :
  svc_wf s → id ≠ "" → in_u32 threshold → (threshold ≤ Z.of_nat (length rs))%Z →
  (∀ e, svc_abs s !! id = Some e → NodeEntry.missed_heartbeats e < threshold)%Z →
  Forall (both (quiet id)) rs →
  (∀ n, n ≤ length rs → open_registry (run (rounds threshold (take n rs)) s)) →
  ∃ n, n ≤ length rs ∧ ∀ sid rand now sent received,
    let req := LidarClient.register_request id port in
    let session := make_session_id id rand in
    let beat := LidarClient.heartbeat_request id session sent in
    let '(reply, s1) := rpc_Register req rand now (run (rounds threshold (take n rs)) s) in
    let '(beat_reply, s2) := rpc_Heartbeat beat received s1 in
    LidarClient.body id port (LidarClient.mk_turn true true reply sent beat_reply)
      (LidarClient.mk sid 5 true)
    = ([LidarClient.SentRegister req; LidarClient.SentHeartbeat beat; LidarClient.SleptFor 500],
       LidarClient.mk session 0 false)
    ∧ ∃ e, svc_abs s2 !! id = Some e
        ∧ NodeEntry.session_id e = session ∧ NodeEntry.missed_heartbeats e = 0%Z
        ∧ NodeEntry.last_heartbeat e = received.
Proof.
  intros Hwf Hid Hthr Hlen Hlt Hrs Hopen.
  destruct (retrying_node_is_swept threshold rs s id) as (n & Hn & Habs); [done..|].
  exists n. split; [done|]. intros sid rand now sent received.
  destruct (Hopen n Hn) as [Hrun Hroom].
  apply retry_succeeds; [by apply run_wf|by split_and!].
Qed.

End healing.

(** * Examples *)

#[local] Instance sample_order : HashOrder NodeEntry.t := front_order _.
#[local] Instance sample_status : GrpcStatus := concrete_status.
#[local] Instance sample_status_laws : GrpcStatusLaws sample_status := concrete_status_laws.
#[local] Instance sample_call : UnaryCall sample_status := concrete_call.
#[local] Instance sample_call_laws : UnaryCallLaws sample_call := concrete_call_laws.

(** A client that falls behind once, recovers, and then is gone. *)
Definition sample_turns : list LidarNodeService.turn :=
  (λ ok, LidarNodeService.mk_turn true 7 ok)
    <$> [true; false; false; true; false; false; false; true].

Lemma Subscribe_outcomes_witness :
  ∃ acts,
    LidarNodeService.Subscribe (SubscribeRequest.mk "me" "scan" 0) sample_turns = Some (acts, true)
    ∧ LidarNodeService.counted acts = 2
    ∧ TopicData.payload <$> (LidarNodeService.written acts).*1
      = LidarNodeService.payload <$> [0; 1; 2; 3; 4; 5; 6]%Z
    ∧ omap (λ a, match a with LidarNodeService.Slept ms => Some ms | _ => None end) acts
      = [10; 20; 10; 20]%Z.
Proof.
  destruct (Subscribe_outcomes (SubscribeRequest.mk "me" "scan" 0) sample_turns)
    as (pre & acts & exited & Hsub & _); [done|].
  pose proof Hsub as Hv. vm_compute in Hv. injection Hv as Hacts Hexit. subst exited.
  exists acts. split; [exact Hsub|]. rewrite <-Hacts. by split_and!; vm_compute.
Defined.

(** The signal, and then one more client. *)
Lemma main_exit_needs_connection_witness :
  let turn := LidarClient.mk_turn false false (Status_OK, RegisterResponse.empty) 0
                (Status_OK, HeartbeatResponse.empty) in
  LidarMain.ShutdownLogger ∈
    LidarMain.main true (Status_OK, RegisterResponse.mk true "lidar_01_42" 1000 "")
      [true; false] [turn] true true true
      [mk_metrics_turn true Connects Metrics.Metrics; mk_metrics_turn false Blocks Metrics.Metrics].
Proof.
  cbv zeta. apply main_exit_needs_connection; [by apply (bool_decide_unpack _)|].
  split; [by vm_compute|].
  exists [mk_metrics_turn true Connects Metrics.Metrics],
    (mk_metrics_turn false Blocks Metrics.Metrics), [].
  split_and!; [done|done|by repeat constructor].
Defined.

(** One scrape, the signal, and then nobody: the thread stays in [accept]. *)
Example sample_main_waits :
  let turn := LidarClient.mk_turn false false (Status_OK, RegisterResponse.empty) 0
                (Status_OK, HeartbeatResponse.empty) in
  last (LidarMain.main true (Status_OK, RegisterResponse.mk true "lidar_01_42" 1000 "")
          [true; false] [turn] true true true
          [mk_metrics_turn true Connects Metrics.Metrics; mk_metrics_turn true Blocks Metrics.Metrics])
  = Some LidarMain.JoinHeartbeat.
Proof. vm_compute. reflexivity. Qed.

Example sample_payload :
  String.length (LidarNodeService.payload 3) = 27
  ∧ (Double.fixed 6 (Double.mul (Double.of_Z 3) (Double.literal 3 1))) = "0.900000".
Proof. vm_compute. by split. Qed.

Lemma client_self_heals_witness :
  ∃ n, n ≤ 3 ∧
    let s := run (rounds 3 (take n (replicate 3 ([ev_register "lidar_01"], [])))) sample_registered in
    let '(reply, s1) :=
      rpc_Register (LidarClient.register_request "lidar_01" 50052) 43 9 s in
    (let '(beat_reply, _) :=
         rpc_Heartbeat (LidarClient.heartbeat_request "lidar_01" "lidar_01_43" 9) 10 s1 in
       LidarClient.body "lidar_01" 50052 (LidarClient.mk_turn true true reply 9 beat_reply)
         (LidarClient.mk "lidar_01_42" 5 true)).2
      = LidarClient.mk "lidar_01_43" 0 false.
Proof.
  destruct (client_self_heals 3 (replicate 3 ([ev_register "lidar_01"], [])) sample_registered
              "lidar_01" 50052) as (n & Hn & Hheal).
  - apply sample_registered_wf.
  - done.
  - unfold in_u32; lia.
  - by vm_compute.
  - apply sample_below.
  - repeat constructor.
  - intros n Hn. simpl in Hn.
    destruct n as [|[|[|[|n]]]]; [by split; vm_compute..|lia].
  - exists n. split; [exact Hn|].
    specialize (Hheal "lidar_01_42" 43 9 9 10)%Z. cbv zeta in Hheal |- *.
    change (RegistryService.make_session_id "lidar_01" 43) with "lidar_01_43" in Hheal.
    destruct (rpc_Register _ _ _ _) as [reply s1].
    destruct (rpc_Heartbeat _ _ _) as [beat_reply s2]. destruct Hheal as [Hbody _].
    by rewrite Hbody.
Defined.
