(* ===== verification/LidarMetrics.v ===== *)
(** * The LIDAR process: subscriptions, scrapes and one collector

    In src/examples/lidar_emulator.cpp every subscription runs on a gRPC thread of
    its own, all of them count their successful writes in the one [Metrics] object,
    and the metrics thread reads it while they do.  Here the handlers' actions (Lidar,
    [LidarNodeService.Subscribe]) interleave one by one, the count of a message being
    the [fetch_add] of MetricsAtomics, and a scrape is its loads in the midst of them.
    A handler that has not begun is one that has not moved yet. *)

From Stdlib Require Import ZArith Lia.
From stdpp Require Import prelude strings list.
From S2P Require Import Prelude Messages Grpc Double Metrics MetricsAtomics Lidar.

Import LidarNodeService.

(** What is left of each handler, the collector, and what has been done so far. *)
Record process := mk_process {
  left : list (list action);
  collector : Metrics.t;
  trace : list action;
}.

Definition start (handlers : list (list action)) : process :=
  mk_process handlers Metrics.Metrics [].

(** The metrics call among the actions. *)
Definition count_action (a : action) (m : Metrics.t) : Metrics.t :=
  match a with CountedMessage => fetch_add AddSent m | _ => m end.

Definition proceed (tid : nat) (p : process) : process :=
  match left p !! tid with
  | Some (a :: rest) =>
      mk_process (<[tid := rest]> (left p)) (count_action a (collector p)) (trace p ++ [a])
  | _ => p
  end.

Definition proceed_all (sch : list nat) (p : process) : process :=
  foldl (λ p tid, proceed tid p) p sch.

(** A scrape by the metrics thread: [gap] says who moves before each of its loads. *)
Definition scrape_amid (gap : nat → list nat) (p : process) : string * process :=
  let '(m, p) := load_counters_from proceed_all collector gap p in
  (Metrics.get_prometheus_text m, p).

(** The writes that returned true. *)
Definition successes (acts : list action) : nat :=
  length (filter (λ w : TopicData.t * bool, w.2) (written acts)).

(** ** A handler counts each successful write right after it *)

Inductive paired : list action → Prop :=
  | paired_nil : paired []
  | paired_ok d l : paired l → paired (Wrote d true :: CountedMessage :: l)
  | paired_failed d l : paired l → paired (Wrote d false :: l)
  | paired_slept ms l : paired l → paired (Slept ms :: l).

(** What can be left of a handler. *)
Inductive owing : list action → Prop :=
  | owing_nothing l : paired l → owing l
  | owing_count l : paired l → owing (CountedMessage :: l).

Definition owes (acts : list action) : nat :=
  match acts with CountedMessage :: _ => 1 | _ => 0 end.

Lemma subscribe_loop_paired topic turns data i c acts exited :
  subscribe_loop topic turns data i c = Some (acts, exited) → paired acts.
Proof.
  revert data i c acts. induction turns as [|t turns IH]; intros data i c acts Heq; simplify_eq/=;
    [constructor|].
  destruct (running t); simplify_eq/=; [|constructor].
  destruct (write_ok t); simplify_eq/=.
  - destruct (next_frame i) as [i'|]; simplify_eq/=.
    destruct (subscribe_loop _ _ _ _ _) as [[acts' ex]|] eqn:Hrest; simplify_eq/=.
    constructor. by eapply IH.
  - destruct (_ <=? _)%Z; simplify_eq/=; [repeat constructor|].
    destruct (next_frame i) as [i'|]; simplify_eq/=.
    destruct (subscribe_loop _ _ _ _ _) as [[acts' ex]|] eqn:Hrest; simplify_eq/=.
    constructor. constructor. by eapply IH.
Qed.

Lemma paired_owes_nothing l : paired l → owes l = 0.
Proof. by destruct 1. Qed.

Lemma successes_cons a l : successes (a :: l) = successes [a] + successes l.
Proof. destruct a as [d []| |ms]; done. Qed.

Lemma counted_cons a l : counted (a :: l) = counted [a] + counted l.
Proof. by destruct a. Qed.

Lemma successes_app l1 l2 : successes (l1 ++ l2) = successes l1 + successes l2.
Proof. unfold successes, written. by rewrite omap_app, filter_app, length_app. Qed.

Lemma counted_app l1 l2 : counted (l1 ++ l2) = counted l1 + counted l2.
Proof. unfold counted. by rewrite omap_app, length_app. Qed.

(** One action of a handler: the debt it leaves. *)
Lemma owing_step a l :
  owing (a :: l) → owing l ∧ successes [a] + owes (a :: l) = counted [a] + owes l.
Proof.
  intros Ho. inversion Ho as [l' Hp|l' Hp]; simplify_eq.
  - inversion Hp as [|d l' Hl|d l' Hl|ms l' Hl]; simplify_eq.
    + split; [by apply owing_count|done].
    + split; [by apply owing_nothing|]. by rewrite (paired_owes_nothing l).
    + split; [by apply owing_nothing|]. by rewrite (paired_owes_nothing l).
  - split; [by apply owing_nothing|]. by rewrite (paired_owes_nothing l).
Qed.

Definition total (f : list action → nat) (ls : list (list action)) : nat := sum_list_with f ls.

Lemma total_insert f ls i l l' :
  ls !! i = Some l → total f (<[i := l']> ls) + f l = total f ls + f l'.
Proof.
  unfold total. revert i. induction ls as [|l0 ls IH]; intros [|i] Hi; simplify_eq/=; [lia|].
  specialize (IH i Hi). lia.
Qed.

Lemma total_owes_le ls : total owes ls ≤ length ls.
Proof.
  induction ls as [|l ls IH]; [done|]. unfold total in *. simpl.
  assert (owes l ≤ 1) by (by destruct l as [|[]]; simpl; lia). lia.
Qed.

(** ** The invariant of the process *)

Definition only_sent (n : nat) : Metrics.t := Metrics.mk 0 0 (wrap_i64 (Z.of_nat n)) 0 0 0 0.

Record accounts (handlers : list (list action)) (p : process) : Prop := {
  acc_left : Forall owing (left p);
  acc_length : length (left p) = length handlers;
  acc_collector : collector p = only_sent (counted (trace p));
  acc_debt : successes (trace p) = counted (trace p) + total owes (left p);
  acc_total : successes (trace p) + total successes (left p) = total successes handlers;
}.

Lemma count_action_sent a n :
  count_action a (only_sent n) = only_sent (n + counted [a]).
Proof.
  destruct a as [d ok| |ms]; simpl; try by rewrite Nat.add_0_r.
  unfold fetch_add, Metrics.map2, only_sent. simpl. f_equal.
  rewrite wrap_i64_add_l. f_equal. change (counted [CountedMessage]) with 1. lia.
Qed.

Lemma accounts_start handlers : Forall paired handlers → accounts handlers (start handlers).
Proof.
  intros Hp. split; simpl; try done.
  - eapply Forall_impl; [exact Hp|]. intros l Hl. by constructor.
  - unfold total. induction Hp as [|l ls Hl _ IH]; [done|]. simpl.
    by rewrite (paired_owes_nothing l Hl).
Qed.

Lemma accounts_proceed handlers tid p : accounts handlers p → accounts handlers (proceed tid p).
Proof.
  intros Hacc. unfold proceed. destruct (left p !! tid) as [[|a l]|] eqn:Hi; [done| |done].
  destruct Hacc as [Hleft Hlen Hcol Hdebt Htot].
  pose proof (proj1 (Forall_lookup _ _) Hleft _ _ Hi) as Ho.
  destruct (owing_step a l Ho) as [Hl Hstep].
  pose proof (total_insert owes (left p) tid (a :: l) l Hi).
  pose proof (total_insert successes (left p) tid (a :: l) l Hi).
  rewrite (successes_cons a l) in *. split; simpl; rewrite ?successes_app, ?counted_app.
  - by apply Forall_insert.
  - by rewrite length_insert.
  - by rewrite Hcol, count_action_sent.
  - lia.
  - lia.
Qed.

Lemma accounts_run handlers sch p : accounts handlers p → accounts handlers (proceed_all sch p).
Proof.
  revert p. induction sch as [|tid sch IH]; intros p Hp; [done|]. simpl.
  by apply IH, accounts_proceed.
Qed.

(** Time only adds to the trace. *)
Lemma trace_grows sch p : trace p `prefix_of` trace (proceed_all sch p).
Proof.
  revert p. induction sch as [|tid sch IH]; intros p; [done|]. simpl.
  etrans; [|apply IH]. unfold proceed. destruct (left p !! tid) as [[|a l]|]; [done| |done].
  by exists [a].
Qed.

Lemma counted_grows sch p : counted (trace p) ≤ counted (trace (proceed_all sch p)).
Proof. destruct (trace_grows sch p) as [l ->]. rewrite counted_app. lia. Qed.

Lemma proceed_all_app sch1 sch2 p :
  proceed_all (sch1 ++ sch2) p = proceed_all sch2 (proceed_all sch1 p).
Proof. apply foldl_app. Qed.

(** What a scrape loads, in a process that only counts messages: the counter of
    messages as it is at the third load. *)
Lemma scrape_loads handlers gap p :
  accounts handlers p →
  ∃ sch1 sch2,
    load_counters_from proceed_all collector gap p
    = (only_sent (counted (trace (proceed_all sch1 p))), proceed_all (sch1 ++ sch2) p).
Proof.
  intros Hacc. exists (gap 0 ++ gap 1 ++ gap 2), (gap 3 ++ gap 5).
  unfold load_counters_from, load_from.
  rewrite !proceed_all_app.
  set (p0 := proceed_all (gap 0) p). assert (accounts handlers p0) as H0 by by apply accounts_run.
  set (p1 := proceed_all (gap 1) p0). assert (accounts handlers p1) as H1 by by apply accounts_run.
  set (p2 := proceed_all (gap 2) p1). assert (accounts handlers p2) as H2 by by apply accounts_run.
  set (p3 := proceed_all (gap 3) p2). assert (accounts handlers p3) as H3 by by apply accounts_run.
  rewrite (acc_collector _ _ H0), (acc_collector _ _ H1), (acc_collector _ _ H2),
    (acc_collector _ _ H3). simpl.
  set (p5 := proceed_all (gap 5) p3). assert (accounts handlers p5) as H5 by by apply accounts_run.
  by rewrite (acc_collector _ _ H5).
Qed.

(** Nothing but the messages shows in the text. *)
Lemma only_sent_text n name :
  name ∈ ["drocm_backpressure_events_total"; "drocm_rpc_latency_avg_us"; "drocm_stream_latency_avg_ms"] →
  scrape name (Metrics.get_prometheus_text (only_sent n)) = None.
Proof.
  intros Hname. unfold scrape, Metrics.get_prometheus_text. rewrite lines_unlines.
  - cbn [only_sent Metrics.nodes_online_ Metrics.heartbeat_miss_total_ Metrics.messages_sent_total_
         Metrics.rpc_latency_count_ Metrics.stream_latency_count_].
    generalize (to_string (wrap_i64 (Z.of_nat n))). intros s.
    rewrite !elem_of_cons, elem_of_nil in Hname. by destruct Hname as [->|[->|[->|[]]]].
  - repeat apply Forall_app_2; repeat case_match; repeat constructor; try done;
      rewrite str_all_app; rewrite ?Double.to_string_printable, ?Double.fixed_printable; done.
Qed.

(** * Properties *)

Section claims.
  Context `{G : GrpcStatus}.

(** C22: what a scrape of the LIDAR process shows.  Any number of subscriptions run at
    once, their actions interleaved in any way, with each other and with the scrape's
    loads.  The number of messages in the text is at most the number of successful
    writes when the scrape ends, and at least that when it began, less one per
    subscription (a write not yet counted); when all subscriptions are over it is the
    number of their successful writes exactly.  The text has no latencies, and no
    count of backpressure events. *)
Theorem scrape_counts_writes requests handlers sch gap :
  Forall2 (λ rt acts, ∃ exited, Subscribe rt.1 rt.2 = Some (acts, exited)) requests handlers →
  let p := proceed_all sch (start handlers) in
  let '(text, p') := scrape_amid gap p in
  ∃ n, scrape "drocm_messages_sent_total" text = Some (to_string (wrap_i64 (Z.of_nat n)))
    ∧ successes (trace p) ≤ n + length requests
    ∧ n ≤ successes (trace p')
    ∧ (Forall (λ acts, acts = []) (left p) → n = total successes handlers)
    ∧ Forall (λ name, scrape name text = None)
        ["drocm_backpressure_events_total"; "drocm_rpc_latency_avg_us"; "drocm_stream_latency_avg_ms"].
Proof.
  intros Hsub p. assert (Forall paired handlers) as Hpaired.
  { clear -Hsub. induction Hsub as [|rt acts rts hs [ex Hs] _ IH]; constructor; [|done].
    by eapply subscribe_loop_paired. }
  assert (accounts handlers p) as Hacc by by apply accounts_run, accounts_start.
  unfold scrape_amid. destruct (scrape_loads handlers gap p Hacc) as (sch1 & sch2 & ->).
  exists (counted (trace (proceed_all sch1 p))).
  destruct (scrape_samples (only_sent (counted (trace (proceed_all sch1 p))))) as (_ & _ & -> & _).
  pose proof (accounts_run handlers sch1 p Hacc) as Hacc1.
  pose proof (accounts_run handlers (sch1 ++ sch2) p Hacc) as Hacc2.
  pose proof (counted_grows sch1 p). pose proof (counted_grows sch2 (proceed_all sch1 p)).
  rewrite <-proceed_all_app in *. pose proof (total_owes_le (left p)).
  rewrite (acc_length _ _ Hacc) in *. apply Forall2_length in Hsub.
  pose proof (acc_debt _ _ Hacc). pose proof (acc_debt _ _ Hacc2).
  split_and!; [done|lia|lia| |].
  - intros Hdone.
    assert (proceed_all sch1 p = p) as ->.
    { clear -Hdone. induction sch1 as [|tid sch1 IH]; [done|]. simpl.
      assert (proceed tid p = p) as ->; [|exact IH]. unfold proceed.
      destruct (left p !! tid) as [l|] eqn:Hi; [|done].
      by rewrite (proj1 (Forall_lookup _ _) Hdone _ _ Hi). }
    assert (∀ f : list action → nat, f [] = 0 → total f (left p) = 0) as Hzero.
    { intros f Hf. clear -Hdone Hf. unfold total. induction Hdone as [|l ls -> _ IH]; [done|].
      simpl. by rewrite Hf. }
    pose proof (acc_total _ _ Hacc) as Htot. rewrite !Hzero in * by done. lia.
  - apply Forall_forall. intros name. apply only_sent_text.
Qed.

End claims.

(** * Examples *)

#[local] Instance sample_status : GrpcStatus := concrete_status.

Definition sample_turn (ok : bool) : turn := mk_turn true 7 ok.

Definition sample_requests : list (SubscribeRequest.t * list turn) :=
  [(SubscribeRequest.mk "a" "scan" 0, sample_turn <$> [true; true; false]);
   (SubscribeRequest.mk "b" "scan" 0, sample_turn <$> [true; false; false; false])].

Definition sample_handlers : list (list action) :=
  omap (λ rt, fst <$> Subscribe rt.1 rt.2) sample_requests.

(** Both have written once, the second has not counted yet. *)
Lemma scrape_counts_writes_witness :
  let p := proceed_all [0; 1; 0] (start sample_handlers) in
  let text := (scrape_amid (λ n, if decide (n = 1) then [0] else []) p).1 in
  successes (trace p) = 2 ∧ scrape "drocm_messages_sent_total" text = Some "1"
  ∧ ∃ n, scrape "drocm_messages_sent_total" text = Some (to_string (wrap_i64 (Z.of_nat n)))
      ∧ 2 ≤ n + 2.
Proof.
  pose proof (scrape_counts_writes sample_requests sample_handlers [0; 1; 0]
    (λ n, if decide (n = 1) then [0] else [])) as Hscrape.
  cbv zeta in *. split; [by vm_compute|]. split; [by vm_compute|].
  destruct (scrape_amid _ _) as [text p'].
  destruct Hscrape as (n & Hn & Hle & _).
  - repeat constructor; eexists; by vm_compute.
  - exists n. split; [exact Hn|]. by vm_compute in Hle |- *; lia.
Defined.
