(* ===== verification/TimedClient.v ===== *)
(** * The LIDAR node's heartbeats in real time

    Composes the heartbeat client of src/examples/lidar_emulator.cpp (Lidar,
    [Module LidarClient]) with the registry process in time (TimedSystem).  A turn
    of the client's loop gets a time at which it begins and, when its heartbeat
    reaches the registry, a time for that; the turns are as far apart as the sleeps
    that the loop's body makes, and at most the duration of its calls and the
    scheduler's delay further.

    With the backoff doubling from 500 ms and the registry's patience of three
    ticks of a second, the theorems say how many lost heartbeats in a row a node
    survives, and what it costs to lose one more. *)

From Stdlib Require Import ZArith Lia.
From stdpp Require Import prelude gmap strings list.
From S2P Require Import Prelude UnorderedMap Messages Grpc NodeDir Table Registry Health RegistrySystem NodeSystem Lidar TimedSystem.

Section client.
  Context `{G : GrpcStatus}.
  Import LidarClient.

(** A turn of the loop in time. *)
Record timed_turn := mk_timed_turn {
  begins : Z;             (* when the turn begins *)
  sees : turn;            (* what it observes *)
  arrives : option Z;     (* when its heartbeat is handled by the registry, if ever *)
}.

(** How long a turn sleeps. *)
Definition slept (acts : list action) : Z :=
  foldr (λ a k, match a with SleptFor ms => ms + k | _ => k end)%Z 0%Z acts.

(** When a turn can follow another that slept [ms]: not before the sleep is over,
    nor more than the calls' duration [L] and the scheduler's delay [lag] later. *)
Definition follows (L lag ms : Z) (tn next : timed_turn) : Prop :=
  (begins tn + ms ≤ begins next ≤ begins tn + L + ms + lag)%Z
  ∧ match arrives tn with
    | Some t => beat_ok (sees tn) = true → (t + ms ≤ begins next)%Z
    | None => True
    end.

(** The turns of a client that begins in the state [c]. *)
Fixpoint client_timed (L lag : Z) (node_id : string) (port : Z) (c : t) (tns : list timed_turn)
    : Prop :=
  match tns with
  | [] => True
  | tn :: tns' =>
      turn_taken (sees tn) = true
      ∧ match arrives tn with
        | Some t => (begins tn ≤ t ≤ begins tn + L)%Z
        | None => beat_ok (sees tn) = false
        end
      ∧ let '(acts, c') := body node_id port (sees tn) c in
        match tns' with [] => True | next :: _ => follows L lag (slept acts) tn next end
        ∧ client_timed L lag node_id port c' tns'
  end.

(** When the turn with [j] failures behind it begins at the latest, counted from the
    last heartbeat that arrived. *)
Definition latest (L lag j : Z) : Z := ((j + 1) * (L + lag) + 500 * 2 ^ j)%Z.

(** The state after a turn that only beats. *)
Lemma beat_turn node_id port it c :
  client_inv c → needs_reregister c = false →
  let '(acts, c') := body node_id port it c in
  client_inv c' ∧ session_id c' = session_id c
  ∧ if beat_ok it then
      consecutive_failures c' = 0%Z ∧ slept acts = 500%Z ∧ needs_reregister c' = false
    else
      consecutive_failures c' = (consecutive_failures c + 1)%Z
      ∧ slept acts = (500 * 2 ^ consecutive_failures c)%Z.
Proof.
  intros Hinv Hno. unfold body. rewrite Hno.
  pose proof (beat_spec node_id it c Hinv Hno) as Hspec.
  destruct (beat node_id it c) as [acts c'] eqn:Hb. destruct Hspec as (Hinv' & _ & Hsid & Hcase).
  split_and!; [done|done|]. unfold beat in Hb. destruct (beat_ok it) eqn:Hok.
  - unfold beat_ok in Hok. destruct (heartbeat_reply it) as [st resp]. simpl in Hok.
    rewrite Hok in Hb. injection Hb as <- <-. by destruct Hcase.
  - destruct Hcase as [-> ->]. simpl. split; [done|lia].
Qed.

Lemma not_due_yet c : client_inv c → (consecutive_failures c < 5)%Z → needs_reregister c = false.
Proof. intros [_ Hneeds] Hlt. apply not_true_iff_false. intros H5%Hneeds. lia. Qed.

(** [j] failures in a row: the next turn begins within the window that the doubled
    backoffs leave. *)
Lemma failing_window L lag node_id port r fails next c :
  client_inv c → (0 ≤ L)%Z → (0 ≤ lag)%Z →
  (consecutive_failures c + Z.of_nat (length fails) ≤ 5)%Z →
  client_timed L lag node_id port c (fails ++ [next]) →
  Forall (λ tn, beat_ok (sees tn) = false) fails →
  (∀ tn, head (fails ++ [next]) = Some tn →
     r + 500 * 2 ^ consecutive_failures c ≤ begins tn ≤ r + latest L lag (consecutive_failures c))%Z →
  let j := (consecutive_failures c + Z.of_nat (length fails))%Z in
  (r + 500 * 2 ^ j ≤ begins next ≤ r + latest L lag j)%Z
  ∧ ∃ c', client_timed L lag node_id port c' [next] ∧ client_inv c'
      ∧ consecutive_failures c' = j ∧ session_id c' = session_id c.
Proof.
  intros Hinv HL Hlag Hlen Htm Hfails. revert c Hinv Hlen Htm.
  induction Hfails as [|tn fails Hfail _ IH]; intros c Hinv Hlen Htm Hwin.
  { simpl in *. rewrite Z.add_0_r. split; [by apply Hwin|]. by exists c. }
  simpl in Hlen. cbn [app client_timed] in Htm. destruct Htm as (_ & _ & Htm).
  pose proof (beat_turn node_id port (sees tn) c Hinv) as Hturn.
  destruct (body node_id port (sees tn) c) as [acts c1]. rewrite Hfail in Hturn.
  destruct Hturn as (Hinv1 & Hsid1 & Hcf1 & Hslept); [apply not_due_yet; [done|lia]|].
  destruct Htm as [Hnext Htm].
  assert (0 ≤ consecutive_failures c)%Z as Hpos by apply Hinv.
  specialize (Hwin tn eq_refl).
  destruct (IH c1 Hinv1) as [Hw (c' & Hc')]; [lia|done| |].
  - intros tn' Htn'. destruct (fails ++ [next]) as [|tn2 tns]; simplify_eq/=.
    destruct Hnext as [Hb _]. rewrite Hcf1, Hslept in *.
    unfold latest in *. rewrite Z.pow_add_r by lia. simpl (2 ^ 1)%Z. lia.
  - rewrite Hcf1, Hsid1 in *. cbn [length].
    replace (consecutive_failures c + Z.of_nat (S (length fails)))%Z
      with (consecutive_failures c + 1 + Z.of_nat (length fails))%Z by lia.
    split; [done|]. by exists c'.
Qed.

(** A client that never fails more than [m] times in a row spaces its heartbeats. *)
Lemma beats_spaced L lag m node_id port r tns c last_turn stop :
  client_inv c → (0 ≤ L)%Z → (0 ≤ lag)%Z → (m < 5)%Z →
  client_timed L lag node_id port c tns → streak_ok (λ tn, beat_ok (sees tn)) m (consecutive_failures c) tns →
  (consecutive_failures c ≤ m)%Z →
  (∀ tn, head tns = Some tn → begins tn ≤ r + latest L lag (consecutive_failures c))%Z →
  last tns = Some last_turn → (stop ≤ begins last_turn + L)%Z →
  spaced (latest L lag m + L) r (omap arrives tns ++ [stop]).
Proof.
  intros Hinv HL Hlag Hm. revert r c Hinv.
  induction tns as [|tn tns IH]; intros r c Hinv Htm Hst Hle Hhead Hlast Hstop; [done|].
  destruct Htm as (_ & Harr & Htm). specialize (Hhead tn eq_refl).
  pose proof (beat_turn node_id port (sees tn) c Hinv) as Hturn.
  destruct (body node_id port (sees tn) c) as [acts c1].
  destruct Hturn as (Hinv1 & _ & Hcase); [apply not_due_yet; [done|lia]|].
  destruct Htm as [Hnext Htm]. assert (0 ≤ consecutive_failures c)%Z as Hpos by apply Hinv.
  assert (0 ≤ latest L lag (consecutive_failures c) ≤ latest L lag m)%Z as Hmono.
  { unfold latest. pose proof (Z.pow_pos_nonneg 2 (consecutive_failures c)).
    pose proof (Z.pow_le_mono_r 2 (consecutive_failures c) m). nia. }
  set (D := (latest L lag m + L)%Z) in *.
  set (r1 := match arrives tn with Some t => t | None => r end).
  assert (spaced D r1 (omap arrives tns ++ [stop])) as Hrest.
  { destruct tns as [|next tns].
    - simplify_eq/=. split; [|done]. unfold r1, D. destruct (arrives last_turn); lia.
    - apply (IH r1 c1); [done|done| | | |by rewrite last_cons_cons in Hlast|done].
      + simpl in Hst. destruct (beat_ok (sees tn)); destruct Hcase as [-> _]; [done|by destruct Hst].
      + simpl in Hst. destruct (beat_ok (sees tn)); destruct Hcase as [-> _]; lia || by destruct Hst.
      + intros tn' [= ->]. destruct Hnext as [[_ Hnext] _]. unfold r1.
        destruct (beat_ok (sees tn)).
        * destruct Hcase as (-> & Hsl & _). rewrite Hsl in Hnext.
          destruct (arrives tn); [|done]. unfold latest. simpl. lia.
        * destruct Hcase as [-> Hsl]. rewrite Hsl in Hnext. unfold latest in *.
          rewrite Z.pow_add_r by lia. change (2 ^ 1)%Z with 2%Z.
          pose proof (Z.pow_pos_nonneg 2 (consecutive_failures c)).
          destruct (arrives tn); nia. }
  cbn [omap list_omap]. unfold r1 in Hrest. destruct (arrives tn) as [t|]; [|done].
  simpl. split; [unfold D; lia|done].
Qed.

(** A heartbeat that arrived at [r], and then failures only: when the next turn
    begins, and in which state. *)
Lemma lost_window L lag node_id port r sid first fails next :
  (0 ≤ L)%Z → (0 ≤ lag)%Z → length fails ≤ 5 →
  client_timed L lag node_id port (mk sid 0 false) (first :: fails ++ [next]) →
  beat_ok (sees first) = true → arrives first = Some r →
  Forall (λ tn, beat_ok (sees tn) = false) fails →
  let j := Z.of_nat (length fails) in
  (r + 500 * 2 ^ j ≤ begins next ≤ r + latest L lag j)%Z
  ∧ ∃ c', client_timed L lag node_id port c' [next] ∧ client_inv c'
      ∧ consecutive_failures c' = j ∧ session_id c' = sid.
Proof.
  intros HL Hlag Hlen (_ & Harr & Htm) Hok Hr Hfails. rewrite Hr in Harr.
  assert (client_inv (mk sid 0 false)) as Hinit by (split; simpl; [lia|split; [done|lia]]).
  pose proof (beat_turn node_id port (sees first) (mk sid 0 false) Hinit eq_refl) as Hturn.
  destruct (body node_id port (sees first) (mk sid 0 false)) as [acts c1]. rewrite Hok in Hturn.
  destruct Hturn as (Hinv1 & Hsid & Hcf & Hsl & _). destruct Htm as [Hnext Htm].
  pose proof (failing_window L lag node_id port r fails next c1 Hinv1 HL Hlag) as Hwin.
  rewrite Hcf, Hsl, Hsid in *. apply Hwin; [lia|done|done|].
  intros tn Htn. destruct (fails ++ [next]) as [|tn' tns]; simplify_eq/=.
  destruct Hnext as [Hb Ha]. rewrite Hr in Ha. specialize (Ha Hok). unfold latest. simpl. lia.
Qed.


End client.

(** * Properties *)

Section claims.
  Context {T : Type} `{NodeDirectoryLaws T} `{GL : !GrpcStatusLaws G}
    `{UL : !@UnaryCallLaws G U}.
  Context (h : HealthChecker.t).
  Implicit Types c : config T.
  Import LidarClient.

(** C11: what a LIDAR node survives.  If the calls of a turn take at most [L] and the
    scheduler adds at most [lag], a registered node whose heartbeats never fail more
    than [m] times in a row stays in the table with its session, provided
    [(m + 2) L + (m + 1) lag + 500 * 2^m] is less than threshold minus one intervals:
    with the programs' own numbers (a tick a second, three misses) one lost heartbeat
    is harmless when calls take up to 300 ms. *)
Theorem lidar_node_stays max_nodes t0 tevs0 tevs id port e r c c' L lag m sid tns last_turn :
  in_u32 max_nodes → (0 ≤ interval h)%Z → (0 < patience h)%Z →
  (0 ≤ L)%Z → (0 ≤ lag)%Z → (0 ≤ m < 5)%Z →
  (latest L lag m + L < (patience h - 1) * interval h)%Z →
  trun h tevs0 (boot max_nodes t0) = Some c → svc_abs (service c) !! id = Some e →
  last_refresh id None tevs0 (service (boot max_nodes t0)) = Some r →
  client_timed L lag id port (mk sid 0 false) tns → streak_ok (λ tn, beat_ok (sees tn)) m 0 tns →
  (∀ tn, head tns = Some tn → begins tn ≤ r + latest L lag 0)%Z →
  last tns = Some last_turn →
  trun h tevs c = Some c' → Forall (λ ev, deregister_of id ev = false) tevs.*2 →
  beat_times id tevs = omap arrives tns → (clock c' ≤ begins last_turn + L)%Z →
  ∃ e', svc_abs (service c') !! id = Some e'
        ∧ NodeEntry.info e' = NodeEntry.info e ∧ NodeEntry.session_id e' = NodeEntry.session_id e.
Proof.
  intros Hmax Hint Hpos HL Hlag [Hm0 Hm] Hfast Hrun0 He Hr Htm Hst Hhead Hlast Hrun Hdr Hbeats Hend.
  pose proof (booted_id _ _ _ _ _ _ _ Hmax Hrun0 He) as Hid.
  eapply punctual_from; [exact Hint|exact Hfast|done|done| |done..| ].
  - rewrite <-Hr. by apply booted_not_early.
  - rewrite Hbeats. eapply beats_spaced; [|done..]. split; simpl; [lia|]. split; [done|lia].
Qed.

(** The backoff outlives the registry's patience.  A LIDAR node whose heartbeats
    are lost [m] times in a row after one that arrived at [r] tries again no sooner
    than [500 * 2^m] ms after [r].  If that is more than the threshold's cycles of a
    prompt checker, the node is gone from the table by then, though registry and node
    have been up all the time, and its next heartbeat is refused. *)
Theorem backoff_outlives_patience max_nodes t0 delta tevs0 tevs1 id port L lag sid r first fails next
    c0 c t req now :
  in_u32 max_nodes → (0 ≤ interval h)%Z → (0 ≤ delta)%Z →
  (0 < patience h)%Z → in_u32 (patience h) → (0 ≤ L)%Z → (0 ≤ lag)%Z → length fails ≤ 5 →
  (patience h * cycle h delta + delta < 500 * 2 ^ Z.of_nat (length fails))%Z →
  client_timed L lag id port (mk sid 0 false) (first :: fails ++ [next]) →
  beat_ok (sees first) = true → arrives first = Some r →
  Forall (λ tn, beat_ok (sees tn) = false) fails →
  trun h tevs0 (boot max_nodes t0) = Some c0 → clock c0 = r →
  trun h tevs1 c0 = Some c → prompt h delta (tevs0 ++ tevs1) (boot max_nodes t0) = true →
  Forall (λ ev, heartbeat_of id ev = false ∧ register_of id ev = false) tevs1.*2 →
  (begins next ≤ t ≤ due h delta (checker c))%Z → HeartbeatRequest.node_id req = id →
  (r + 500 * 2 ^ Z.of_nat (length fails) ≤ begins next)%Z
  ∧ svc_abs (service c) !! id = None
  ∧ status_ok (rpc_Heartbeat req now (service c)).1.1 = false.
Proof.
  intros Hmax Hint Hdelta Hpos Hthr HL Hlag Hlen Hslow Htm Hok Hr Hfails Hrun0 Hc0 Hrun1 Hpr Hq
    [Hnext Hdue] Hid.
  destruct (lost_window L lag id port r sid first fails next) as [[Hlow _] _]; [done..|].
  assert (svc_abs (service c) !! id = None) as Hgone.
  { eapply (long_silent_gone h delta max_nodes t0 tevs0 tevs1 id r t c0); try done; lia. }
  split_and!; [done|done|].
  assert (svc_wf (service c)) as Hwf.
  { apply (booted h max_nodes t0 (tevs0 ++ tevs1)); [done|]. by rewrite trun_app, Hrun0. }
  pose proof (rpc_Heartbeat_unknown req now (service c) Hwf) as Hun. rewrite Hid in Hun.
  destruct (rpc_Heartbeat req now (service c)) as [reply s1]. by apply Hun.
Qed.



End claims.

(** * Examples *)

#[local] Instance sample_order : HashOrder NodeEntry.t := front_order _.
#[local] Instance sample_status : GrpcStatus := concrete_status.
#[local] Instance sample_status_laws : GrpcStatusLaws sample_status := concrete_status_laws.
#[local] Instance sample_call : UnaryCall sample_status := concrete_call.
#[local] Instance sample_call_laws : UnaryCallLaws sample_call := concrete_call_laws.

(** A turn whose heartbeat arrives and is accepted, and one whose heartbeat is lost. *)
Definition arriving (begins arrives : Z) : timed_turn :=
  mk_timed_turn begins
    (LidarClient.mk_turn true true (Status_OK, RegisterResponse.empty) 9
       (Status_OK, HeartbeatResponse.mk true 0 false)) (Some arrives).

Definition lost (begins : Z) : timed_turn :=
  mk_timed_turn begins
    (LidarClient.mk_turn true true (Status_OK, RegisterResponse.empty) 9
       (unary_call None HeartbeatResponse.empty)) None.

(** One heartbeat lost. *)
Definition one_lost : list timed_turn :=
  [arriving 1000 1010; lost 1520; arriving 2300 2310; arriving 2850 2860].

Definition one_lost_history : list (Z * event) :=
  [(1000, EvIncrement); (1000, EvRemoveStale 3); (1010, ev_heartbeat "lidar_01" 9);
   (2000, EvIncrement); (2001, EvRemoveStale 3); (2310, ev_heartbeat "lidar_01" 9);
   (2860, ev_heartbeat "lidar_01" 9); (3001, EvIncrement); (3001, EvRemoveStale 3)]%Z.

Lemma lidar_node_stays_witness :
  ∃ c c' e' : _,
    trun sample_checker [(990, ev_register "lidar_01")%Z] sample_boot = Some c
    ∧ trun sample_checker one_lost_history c = Some c'
    ∧ svc_abs (service c') !! "lidar_01" = Some e' ∧ NodeEntry.session_id e' = "lidar_01_42".
Proof.
  destruct (trun sample_checker [(990, ev_register "lidar_01")%Z] sample_boot) as [c|] eqn:Hc;
    [|by vm_compute in Hc].
  destruct (trun sample_checker one_lost_history c) as [c'|] eqn:Hc'.
  2: { exfalso. vm_compute in Hc. injection Hc as <-. by vm_compute in Hc'. }
  destruct (svc_abs (service c) !! "lidar_01") as [e|] eqn:He.
  2: { exfalso. vm_compute in Hc. injection Hc as <-. by vm_compute in He. }
  destruct (lidar_node_stays sample_checker 5 0 [(990, ev_register "lidar_01")%Z] one_lost_history
              "lidar_01" 50052 e 990 c c' 300 10 1 "lidar_01_42" one_lost (arriving 2850 2860))
    as (e' & He' & _ & Hs);
    [by unfold in_u32|done..|exact Hc|exact He|by vm_compute
    |vm_compute; by split_and!|by vm_compute|by intros ? [= <-]|done|exact Hc'
    |by repeat constructor|by vm_compute| |].
  - vm_compute in Hc. injection Hc as <-. vm_compute in Hc'. injection Hc' as <-. by vm_compute.
  - exists c, c', e'. split_and!; [done|done|done|]. rewrite Hs.
    vm_compute in Hc. injection Hc as <-. vm_compute in He. by injection He as <-.
Defined.

(** Three heartbeats lost, on a machine without any delay. *)
Definition three_lost : list timed_turn := [lost 1510; lost 2010; lost 3010].

Definition three_lost_history : list (Z * event) :=
  [(2000, EvIncrement); (2000, EvRemoveStale 3); (3000, EvIncrement); (3000, EvRemoveStale 3);
   (4000, EvIncrement); (4000, EvRemoveStale 3)]%Z.

Lemma backoff_outlives_patience_witness :
  let before := [(990, ev_register "lidar_01"); (1000, EvIncrement); (1000, EvRemoveStale 3);
                 (1010, ev_heartbeat "lidar_01" 9)]%Z in
  ∃ c : config NodeTable.t,
    trun sample_checker (before ++ three_lost_history) sample_boot = Some c
    ∧ svc_abs (service c) !! "lidar_01" = None.
Proof.
  intros before. destruct (trun sample_checker before sample_boot) as [c0|] eqn:Hc0;
    [|by vm_compute in Hc0].
  destruct (trun sample_checker three_lost_history c0) as [c|] eqn:Hc.
  2: { exfalso. vm_compute in Hc0. injection Hc0 as <-. by vm_compute in Hc. }
  exists c. split; [by rewrite trun_app, Hc0|].
  apply (backoff_outlives_patience sample_checker 5 0 20 before three_lost_history "lidar_01" 50052
           0 0 "lidar_01_42" 1010 (arriving 1010 1010) three_lost (lost 5010) c0 c 5010
           (sample_heartbeat "lidar_01") 9);
    try done; try (by unfold in_u32); try (by repeat constructor); try (by vm_compute).
  - vm_compute in Hc0. by injection Hc0 as <-.
  - vm_compute in Hc0. injection Hc0 as <-. vm_compute in Hc. injection Hc as <-. by vm_compute.
Defined.



