(* ===== verification/RpcTypes.v ===== *)
(** * The services of src/proto, and what their callers see

    [Module RegistryRpc] and [Module NodeRpc] are the service definitions of
    registry.proto and node.proto: their methods, with the message each takes and
    returns, dispatched to the handlers of Registry.v and Lidar.v.

    [Module DirectoryServer] says what a caller of the registry can rely on: a server
    that answers from the abstract directory, or refuses without a word.  The registry
    behind gRPC refines it.  The rest of the file is about the types of what the clients
    and the node's service send: no value leaves the type of its field. *)

From Stdlib Require Import ZArith Lia SpecFloat.
From stdpp Require Import prelude gmap strings list.
From S2P Require Import Prelude UnorderedMap Messages Grpc NodeDir Table Registry Health.
From S2P Require Import RegistrySystem Coro NodeBase NodeSystem Double Metrics Lidar.

(** ** The registry's service *)

Module RegistryRpc.

Inductive method := Register | Heartbeat | Deregister | Discover.

Definition request (m : method) : Type :=
  match m with
  | Register => RegisterRequest.t
  | Heartbeat => HeartbeatRequest.t
  | Deregister => DeregisterRequest.t
  | Discover => DiscoverRequest.t
  end.

Definition response (m : method) : Type :=
  match m with
  | Register => RegisterResponse.t
  | Heartbeat => HeartbeatResponse.t
  | Deregister => DeregisterResponse.t
  | Discover => DiscoverResponse.t
  end.

(** The response object gRPC hands to a handler, and a client to its call. *)
Definition empty_response (m : method) : response m :=
  match m with
  | Register => RegisterResponse.empty
  | Heartbeat => HeartbeatResponse.empty
  | Deregister => DeregisterResponse.empty
  | Discover => DiscoverResponse.empty
  end.

Section service.
  Context {T : Type} `{NodeDirectory T} `{G : GrpcStatus} `{U : !UnaryCall G}.
  Implicit Types s : RegistryService.t T.

Definition handle (m : method) (req : request m) (rand now : Z) s
    : Status * response m * RegistryService.t T :=
  match m return request m → Status * response m * RegistryService.t T with
  | Register => λ req, RegistryService.Register req (empty_response Register) rand now s
  | Heartbeat => λ req, RegistryService.Heartbeat req (empty_response Heartbeat) now s
  | Deregister => λ req, RegistryService.Deregister req (empty_response Deregister) s
  | Discover => λ req, RegistryService.Discover req (empty_response Discover) s
  end req.

(** The same call as an event of the registry process. *)
Definition event_of (m : method) (req : request m) (rand now : Z) : event :=
  match m return request m → event with
  | Register => λ req, EvRegister req rand now
  | Heartbeat => λ req, EvHeartbeat req now
  | Deregister => λ req, EvDeregister req
  | Discover => λ req, EvDiscover req
  end req.

Lemma handle_step m req rand now s :
  (handle m req rand now s).2 = step (event_of m req rand now) s.
Proof. by destruct m. Qed.

(** A blocking call: what its caller holds, and the registry afterwards. *)
Definition call (m : method) (req : request m) (rand now : Z) s
    : (Status * response m) * RegistryService.t T :=
  let '(st, resp, s') := handle m req rand now s in
  (unary_call (Some (st, resp)) (empty_response m), s').

End service.
End RegistryRpc.

(** ** The node's service *)

Module NodeRpc.

Inductive method := GetStatus | Subscribe | ControlStream | Publish.

Definition request (m : method) : Type :=
  match m with
  | GetStatus => GetStatusRequest.t
  | Subscribe => SubscribeRequest.t
  | ControlStream => ControlStreamRequest.t
  | Publish => TopicData.t
  end.

Definition response (m : method) : Type :=
  match m with
  | GetStatus | Publish => GetStatusResponse.t
  | Subscribe => TopicData.t
  | ControlStream => ControlStreamResponse.t
  end.

Definition client_streaming (m : method) : bool :=
  match m with ControlStream => true | _ => false end.

Definition server_streaming (m : method) : bool :=
  match m with Subscribe | ControlStream => true | _ => false end.

#[global] Instance response_typed m : Typed (response m) :=
  match m with
  | GetStatus | Publish => GetStatusResponse.t_typed
  | Subscribe => TopicData.t_typed
  | ControlStream => ControlStreamResponse.t_typed
  end.

(** What a call gives its handler: one request, or those of the stream with what
    the write that answers each would return; and, for a subscription, its turns. *)
Definition input (m : method) : Type :=
  match m with
  | GetStatus => GetStatusRequest.t * Z
  | Publish => TopicData.t
  | Subscribe => SubscribeRequest.t * list LidarNodeService.turn
  | ControlStream => list (ControlStreamRequest.t * bool)
  end.

(** The responses a call writes, in order; [None]: the handler's behaviour is
    undefined. *)
Definition responses `{GrpcStatus} (m : method) : input m → option (list (response m)) :=
  match m with
  | GetStatus => λ '(_, now),
      Some [(LidarNodeService.GetStatus GetStatusResponse.empty now).2]
  | Publish => λ _, Some [(LidarNodeService.Publish GetStatusResponse.empty).2]
  | Subscribe => λ '(req, turns),
      '(acts, _) ← LidarNodeService.Subscribe req turns;
      Some (LidarNodeService.written acts).*1
  | ControlStream => λ reads,
      Some (omap (λ a, match a with
                       | LidarNodeService.Responded r _ => Some r
                       | _ => None
                       end) (LidarNodeService.ControlStream reads).2)
  end.

End NodeRpc.

(** ** The types of what is sent *)

#[global] Instance strategy_typed : Typed ReconnectStrategy.t :=
  λ r, in_u32 (ReconnectStrategy.base_delay_ms r)
       ∧ in_u32 (ReconnectStrategy.max_delay_ms r)
       ∧ in_u32 (ReconnectStrategy.max_attempts r).

#[global] Instance node_typed : Typed Node.t :=
  λ n, in_u32 (Node.heartbeat_interval_ms_ n) ∧ typed (Node.reconnect_strategy_ n).

#[global] Instance node_action_typed : Typed Node.action :=
  λ a, match a with
  | Node.Slept ms => in_u32 ms
  | Node.SentRegister req => typed req
  | Node.SentHeartbeat req => typed req
  | Node.OnReconnectAttempt attempt delay_ms => in_u32 attempt ∧ in_u32 delay_ms
  | _ => True
  end.

(** What the derived class and the calls give to the loop. *)
#[global] Instance iteration_typed `{GrpcStatus} : Typed Node.iteration :=
  λ it, is_float32 (Node.payload it).1.1 ∧ is_float32 (Node.payload it).1.2
        ∧ typed (Node.node_info it) ∧ typed (Node.register_reply it).2.

#[global] Instance client_action_typed : Typed LidarClient.action :=
  λ a, match a with
  | LidarClient.SentRegister req => typed req
  | LidarClient.SentHeartbeat req => typed req
  | LidarClient.SleptFor ms => True
  end.

(** ** Helper lemmas *)

Lemma in_u32_0 : in_u32 0.
Proof. by split. Qed.

Lemma delay_typed s attempt :
  typed s → in_u32 (Node.calculate_backoff_delay s attempt).
Proof.
  intros (Hbase & Hmax & _). unfold Node.calculate_backoff_delay.
  destruct (ReconnectStrategy.enable_backoff s); [|done]. simpl.
  rewrite doubled by done. pose proof (wrap_u32_range
    (ReconnectStrategy.base_delay_ms s * 2 ^ Z.of_nat (Z.to_nat (attempt - 1)))) as Hw.
  unfold in_u32 in *. lia.
Qed.

(** ** What a caller of the registry can rely on *)

Module DirectoryServer.

(** The answer to a call, if it is granted: [None] is an error status. *)
Definition serve (m : RegistryRpc.method) (req : RegistryRpc.request m) (rand cap : Z)
    (running : bool) (d : Directory.t) : option (RegistryRpc.response m) :=
  match m return RegistryRpc.request m → option (RegistryRpc.response m) with
  | RegistryRpc.Register => λ req,
      info ← RegisterRequest.node_info req;
      let id := NodeInfo.node_id info in
      if decide (running = true ∧ id ≠ "" ∧ Directory.accepts cap id d) then
        Some (RegisterResponse.mk true (RegistryService.make_session_id id rand) 1000 "")
      else None
  | RegistryRpc.Heartbeat => λ req,
      if decide (HeartbeatRequest.node_id req ≠ "" ∧ is_Some (d !! HeartbeatRequest.node_id req))
      then Some (HeartbeatResponse.mk true 0 false) else None
  | RegistryRpc.Deregister => λ req,
      if decide (is_Some (d !! DeregisterRequest.node_id req))
      then Some (DeregisterResponse.mk true "Node deregistered gracefully") else None
  | RegistryRpc.Discover => λ req,
      Some (DiscoverResponse.mk (NodeEntry.info <$>
        base.filter (Directory.healthy (DiscoverRequest.service_filter req)) (map_to_list d).*2))
  end req.

(** The flag and the directory after a history, from a new server on. *)
Definition after (cap : Z) (evs : list event) : bool * Directory.t :=
  foldl (λ st ev, (RegistrySystem.still_running ev st.1, dir_step cap st.1 ev st.2)) (true, ∅) evs.

(** Answers that say the same: the order of a list of nodes does not count. *)
Definition same_answer (m : RegistryRpc.method) : relation (RegistryRpc.response m) :=
  match m with
  | RegistryRpc.Discover => λ r1 r2, DiscoverResponse.nodes r1 ≡ₚ DiscoverResponse.nodes r2
  | _ => eq
  end.

End DirectoryServer.

Section registry.
  Context {T : Type} `{NodeDirectoryLaws T} `{GL : !GrpcStatusLaws G}
    `{UL : !@UnaryCallLaws G U}.
  Implicit Types s : RegistryService.t T.
  Import RegistryService DirectoryServer.

(** What a caller holds, given the answer it should get. *)
Definition receives (m : RegistryRpc.method) (reply : Status * RegistryRpc.response m)
    (answer : option (RegistryRpc.response m)) : Prop :=
  match answer with
  | Some resp => status_ok reply.1 = true ∧ same_answer m reply.2 resp
  | None => status_ok reply.1 = false ∧ reply.2 = RegistryRpc.empty_response m
  end.

(** gRPC's delivery of what a handler returned. *)
Lemma delivered m st (resp : RegistryRpc.response m) answer :
  (if status_ok st then ∃ r, answer = Some r ∧ same_answer m resp r else answer = None) →
  receives m (unary_call (Some (st, resp)) (RegistryRpc.empty_response m)) answer.
Proof.
  unfold receives. destruct (status_ok st) eqn:Hok.
  - intros (r & -> & Hsame). by rewrite unary_call_ok.
  - intros ->. by rewrite unary_call_error.
Qed.

(** Each handler's status and response, by the directory before the call. *)
Lemma handle_answers m req rand now s :
  svc_wf s →
  let '(st, resp, _) := RegistryRpc.handle m req rand now s in
  let answer := serve m req rand (svc_capacity s) (is_running_ s) (svc_abs s) in
  if status_ok st then ∃ r, answer = Some r ∧ same_answer m resp r else answer = None.
Proof.
  intros Hwf. destruct s as [tb run]. unfold svc_wf, svc_abs, svc_capacity in *. simpl in Hwf.
  destruct m; unfold RegistryRpc.handle, serve; cbn [svc_capacity node_table_ is_running_].
  - unfold Register, Register_admitted, RegisterRequest.has_node_info, RegisterRequest.get_node_info.
    cbn [node_table_ is_running_]. destruct (RegisterRequest.node_info req) as [info|].
    2: { by destruct run; simpl; rewrite status_ok_error. }
    cbn [mbind option_bind default from_option id negb].
    destruct (register_node_refines info (make_session_id (NodeInfo.node_id info) rand) now tb Hwf)
      as (Hs & _ & _). cbv beta in Hs. unfold Directory.register in Hs.
    change (svc_capacity (mk tb run)) with (dir_capacity tb). change (svc_abs (mk tb run)) with (dir_abs tb).
    destruct (decide (run = true ∧ NodeInfo.node_id info ≠ ""
      ∧ Directory.accepts (dir_capacity tb) (NodeInfo.node_id info) (dir_abs tb))) as [Hgrant|Hgrant].
    + destruct Hgrant as (-> & Hid & Hacc). apply String.eqb_neq in Hid as ->. simpl.
      rewrite decide_True in Hs by done.
      destruct (register_node _ _ _ tb) as [registered tb']. simpl in *. injection Hs as <- _. simpl.
      rewrite status_ok_OK. by eexists.
    + destruct run; simpl; [|by rewrite status_ok_error].
      destruct (String.eqb_spec (NodeInfo.node_id info) "") as [Hid|Hid]; simpl.
      { by rewrite status_ok_error. }
      rewrite decide_False in Hs by (intros Hacc; by destruct Hgrant).
      destruct (register_node _ _ _ tb) as [registered tb']. simpl in *. injection Hs as <- _. simpl.
      by rewrite status_ok_error.
  - unfold Heartbeat. cbn [node_table_].
    destruct (update_heartbeat_refines (HeartbeatRequest.node_id req) (HeartbeatRequest.cpu_usage req)
      (HeartbeatRequest.memory_usage req) (HeartbeatRequest.active_connections req) now tb Hwf)
      as (Hs & _ & _). cbv beta in Hs. unfold Directory.heartbeat, Directory.known in Hs.
    destruct (update_heartbeat _ _ _ _ _ tb) as [found tb']. simpl in Hs. injection Hs as <- _.
    destruct (String.eqb_spec (HeartbeatRequest.node_id req) "") as [Hid|Hid].
    { rewrite status_ok_error. by rewrite decide_False by tauto. }
    case_bool_decide as Hin; cbn [negb].
    + rewrite status_ok_OK, decide_True by done. by eexists.
    + rewrite status_ok_error. by rewrite decide_False by tauto.
  - unfold Deregister. cbn [node_table_].
    destruct (deregister_node_refines (DeregisterRequest.node_id req) tb Hwf) as (Hs & _ & _).
    cbv beta in Hs. unfold Directory.deregister, Directory.known in Hs.
    destruct (deregister_node _ tb) as [removed tb']. simpl in Hs. injection Hs as <- _.
    case_bool_decide as Hin; cbn [negb].
    + rewrite status_ok_OK, decide_True by done. by eexists.
    + rewrite status_ok_error. by rewrite decide_False.
  - pose proof (Discover_nodes req DiscoverResponse.empty (mk tb run)) as Hnodes.
    unfold Discover in *. simpl in Hnodes |- *. rewrite status_ok_OK. eexists. split; [done|].
    simpl. rewrite Hnodes. by rewrite get_nodes_by_service_spec.
Qed.

(** The registry's own history is that of the directory server. *)
Lemma run_after evs s :
  svc_wf s →
  foldl (λ st ev, (RegistrySystem.still_running ev st.1, dir_step (svc_capacity s) st.1 ev st.2))
    (is_running_ s, svc_abs s) evs
  = (is_running_ (run evs s), svc_abs (run evs s))
  ∧ svc_capacity (run evs s) = svc_capacity s.
Proof.
  revert s. induction evs as [|ev evs IH]; intros s Hwf; [done|]. simpl.
  destruct (step_spec ev s Hwf) as (Hwf' & Hcap & Hrun & Habs).
  rewrite <-Hrun, <-Habs, <-Hcap. by apply IH.
Qed.

(** A call that is not granted changes nothing. *)
Lemma refused_unchanged m req rand now cap running d :
  serve m req rand cap running d = None →
  dir_step cap running (RegistryRpc.event_of m req rand now) d = d.
Proof.
  destruct m; unfold serve; cbn [RegistryRpc.event_of dir_step].
  - unfold dir_admit. destruct (RegisterRequest.node_info req) as [info|]; cbn [mbind option_bind].
    2: { by destruct running. }
    case_decide as Hgrant; [done|]. intros _. destruct running; [|done].
    destruct (String.eqb_spec (NodeInfo.node_id info) "") as [|Hid]; [done|]. simpl.
    unfold Directory.register. rewrite decide_False; [done|]. intros Hacc. by destruct Hgrant.
  - case_decide as Hgrant; [done|]. intros _.
    destruct (String.eqb_spec (HeartbeatRequest.node_id req) "") as [|Hid]; [done|].
    apply map_eq. intros id. rewrite lookup_alter. case_decide as Hreq; [|done]. subst id.
    destruct (d !! HeartbeatRequest.node_id req) as [e|] eqn:He; [|done].
    destruct Hgrant. by split.
  - case_decide as Hgrant; [done|]. intros _. apply delete_id.
    by apply eq_None_not_Some.
  - done.
Qed.

(** C4: what the callers of the registry see.  After any history of calls, checker ticks,
    removals and a shutdown, a call of any of the four methods brings its caller what
    the abstract directory server says: an ok status with the full answer exactly when
    the call is granted (a free, non-empty id, room and a running service to register; a
    known node for a heartbeat or to leave; always for a query, which lists the nodes
    without a miss that offer a service asked for, or all of them if none was asked
    for), and otherwise an error status with an untouched response and an unchanged
    directory: the failure details that the handlers write into their responses reach
    nobody.  And the directory moves on as the server's. *)
Theorem registry_serves_directory max_nodes evs m req rand now :
  in_u32 max_nodes →
  let s := run evs (RegistryServiceImpl (T := T) max_nodes) in
  let '(reply, s') := RegistryRpc.call m req rand now s in
  let '(running, d) := after max_nodes evs in
  let answer := serve m req rand max_nodes running d in
  receives m reply answer
  ∧ svc_abs s' = dir_step max_nodes running (RegistryRpc.event_of m req rand now) d
  ∧ (answer = None → svc_abs s' = d).
Proof.
  intros Hmax s. destruct (new_directory_spec (T := T) max_nodes Hmax) as (Hwf0 & Hd0 & Hcap0).
  assert (svc_wf s) as Hwf by (by apply run_wf).
  destruct (run_after evs (RegistryServiceImpl (T := T) max_nodes) Hwf0) as [Hafter Hcap].
  change (svc_capacity (RegistryServiceImpl (T := T) max_nodes))
    with (dir_capacity (new_directory (T := T) max_nodes)) in *.
  unfold after. unfold svc_abs at 1 in Hafter. simpl in Hafter. rewrite Hd0, Hcap0 in Hafter.
  rewrite Hafter. fold s. fold s in Hcap. rewrite Hcap0 in Hcap.
  pose proof (handle_answers m req rand now s Hwf) as Hreply. rewrite Hcap in Hreply.
  destruct (step_spec (RegistryRpc.event_of m req rand now) s Hwf) as (_ & _ & _ & Habs).
  rewrite <-(RegistryRpc.handle_step (T := T)), Hcap in Habs. unfold RegistryRpc.call.
  destruct (RegistryRpc.handle m req rand now s) as [[st resp] s']. simpl in Habs.
  split_and!; [by apply delivered|done|]. intros Hnone. rewrite Habs. by apply refused_unchanged.
Qed.

End registry.

Section clients.
  Context `{G : GrpcStatus}.

Lemma strategy_default_typed : typed ReconnectStrategy.default.
Proof. by repeat split. Qed.

Lemma register_request_typed info :
  typed info → typed (RegisterRequest.set_node_info info RegisterRequest.empty).
Proof. intros Hinfo. by split; [|split]. Qed.

Lemma heartbeat_request_typed n it :
  typed it → typed (Node.heartbeat_request n it).
Proof.
  intros (Hcpu & Hmem & _). unfold Node.heartbeat_request.
  destruct (Node.payload it) as [[cpu mem] conn]. split; [apply wrap_u64_range|].
  split; [done|]. split; [done|]. apply wrap_u32_range.
Qed.

Lemma start_typed info reply n :
  typed info → typed reply.2 → typed n →
  typed (Node.start info reply n).1.1 ∧ typed (Node.start info reply n).2.
Proof.
  intros Hinfo Hreply [Hint Hstrat]. unfold Node.start. destruct reply as [st resp].
  assert (typed (Node.SentRegister (RegisterRequest.set_node_info info RegisterRequest.empty)))
    as Hreq by (by apply register_request_typed).
  destruct (Node.is_running_ n); [by split; [apply typed_nil|]|].
  destruct (_ || _); simpl; (split; [|done]).
  - auto with drocm.
  - destruct (JThread.joinable _); repeat apply typed_cons; auto with drocm; done.
Qed.

Lemma reregister_typed it n :
  typed it → typed n →
  typed (Node.reregister it n).1 ∧ typed (Node.reregister it n).2.
Proof.
  intros (_ & _ & Hinfo & Hreply) [Hint Hstrat]. unfold Node.reregister.
  destruct (Node.register_reply it) as [st resp]. simpl. split.
  - apply typed_cons; [by apply register_request_typed|apply typed_nil].
  - by destruct (_ && _).
Qed.

Lemma reconnect_typed it attempts n :
  in_u32 attempts → typed it → typed n →
  typed (Node.reconnect it attempts n).1 ∧ typed (Node.reconnect it attempts n).2.
Proof.
  intros Hatt Hit Hn. unfold Node.reconnect.
  destruct (reregister_typed it n Hit Hn) as [Hacts Hn'].
  destruct (Node.reregister it n) as [acts n']. simpl in *. split; [|done].
  pose proof (delay_typed (Node.reconnect_strategy_ n) attempts (proj2 Hn)) as Hdelay.
  apply typed_cons; [by split|]. by apply typed_cons.
Qed.

Lemma body_typed it n attempts :
  in_u32 attempts → typed it → typed n →
  let '(acts, n', attempts', _) := Node.body it n attempts in
  typed acts ∧ typed n' ∧ in_u32 attempts'.
Proof.
  intros Hatt Hit Hn. unfold Node.body.
  assert (typed (Node.Slept (Node.heartbeat_interval_ms_ n))) as Hslept by apply Hn.
  assert (typed (Node.SentHeartbeat (Node.heartbeat_request n it))) as Hsent
    by (by apply heartbeat_request_typed).
  assert (typed Node.OnReconnected) by done.
  destruct (Node.stop_after_sleep it); [by split; [auto with drocm|]|].
  destruct (Node.heartbeat_reply it) as [st resp].
  pose proof (reconnect_typed it (wrap_u32 (attempts + 1)) n (wrap_u32_range _) Hit Hn) as Hrec.
  destruct (Node.reconnect it _ n) as [racts n1]. destruct Hrec as [Hracts Hn1].
  pose proof in_u32_0. pose proof (wrap_u32_range (attempts + 1)).
  repeat case_match; simplify_eq/=; (split; [|done]); auto with drocm.
Qed.

Lemma heartbeat_loop_typed its n attempts :
  in_u32 attempts → typed its → typed n →
  let '(acts, n', attempts', _) := Node.heartbeat_loop its n attempts in
  typed acts ∧ typed n' ∧ in_u32 attempts'.
Proof.
  intros Hatt Hits. revert n attempts Hatt.
  induction Hits as [|it its Hit _ IH]; intros n attempts Hatt Hn; simpl.
  { by split; [apply typed_nil|]. }
  destruct (Node.stop_at_head it); [by split; [apply typed_nil|]|].
  pose proof (body_typed it n attempts Hatt Hit Hn) as Hbody.
  destruct (Node.body it n attempts) as [[[acts n1] att1] []]; [done|].
  destruct Hbody as (Hacts & Hn1 & Hatt1). specialize (IH n1 att1 Hatt1 Hn1).
  destruct (Node.heartbeat_loop its n1 att1) as [[[acts2 n2] att2] ex].
  destruct IH as (Hacts2 & ? & ?). split; [by apply typed_app|done].
Qed.

(** [start], and then the heartbeat loop for the turns [its]: what the node does, the
    node, and its attempts at a reconnection. *)
Definition node_life (info : NodeInfo.t) (reply : Status * RegisterResponse.t)
    (its : list Node.iteration) (n : Node.t) : list Node.action * Node.t * Z :=
  let '(acts, _, n) := Node.start info reply n in
  let '(acts', n, attempts, _) := Node.run_heartbeat its n in
  (acts ++ acts', n, attempts).

(** What a node does over its life -- [start], then its heartbeat loop for any
    number of turns -- stays within the types of the code: every message it sends,
    every delay it sleeps and announces and the number of each attempt, and the
    interval and the strategy it keeps; provided only that the info and the load of
    the derived class and the responses it receives do. *)
Theorem node_sends_typed node_id address info reply its :
  typed info → typed reply.2 → typed its →
  let '(acts, n, attempts) := node_life info reply its (Node.Node node_id address) in
  typed acts ∧ typed n ∧ in_u32 attempts.
Proof.
  intros Hinfo Hreply Hits. unfold node_life.
  destruct (start_typed info reply (Node.Node node_id address) Hinfo Hreply) as [Hacts Hn].
  { by split; [|apply strategy_default_typed]. }
  destruct (Node.start _ _ _) as [[acts ok] n]. simpl in *.
  pose proof (heartbeat_loop_typed its n 0 in_u32_0 Hits Hn) as Hloop.
  unfold Node.run_heartbeat. destruct (Node.heartbeat_loop its n 0) as [[[acts' n'] att] ex].
  destruct Hloop as (Hacts' & ? & ?). split; [by apply typed_app|done].
Qed.

Lemma beat_typed node_id it c : typed (LidarClient.beat node_id it c).1.
Proof.
  unfold LidarClient.beat. destruct (LidarClient.heartbeat_reply it) as [st resp].
  assert (typed (LidarClient.SentHeartbeat (LidarClient.heartbeat_request node_id
    (LidarClient.session_id c) (LidarClient.now it)))) as Hreq.
  { split; [apply wrap_u64_range|]. split; [by vm_compute|]. split; [by vm_compute|].
    by vm_compute. }
  destruct (_ && _); repeat apply typed_cons; auto with drocm; done.
Qed.

Lemma client_body_typed node_id port it c : typed (LidarClient.body node_id port it c).1.
Proof.
  unfold LidarClient.body, LidarClient.try_register_node.
  assert (typed (LidarClient.SentRegister (LidarClient.register_request node_id port))) as Hreq.
  { apply register_request_typed. by split; [apply wrap_u32_range|]. }
  destruct (LidarClient.needs_reregister c); [|apply beat_typed].
  destruct (LidarClient.register_reply it) as [st resp]. destruct (_ && _).
  - pose proof (beat_typed node_id it
      (LidarClient.mk (RegisterResponse.session_id resp) 0 false)) as Hbeat.
    destruct (LidarClient.beat _ _ _) as [acts c']. by apply typed_cons.
  - apply typed_cons; [done|]. by apply typed_cons; [|apply typed_nil].
Qed.

Lemma client_loop_typed node_id port its c :
  typed (LidarClient.heartbeat_loop node_id port its c).1.1.
Proof.
  revert c. induction its as [|it its IH]; intros c; simpl; [apply typed_nil|].
  destruct (_ && _); [|apply typed_nil].
  pose proof (client_body_typed node_id port it c) as Hbody.
  destruct (LidarClient.body _ _ _ c) as [acts c1]. specialize (IH c1).
  destruct (LidarClient.heartbeat_loop _ _ its c1) as [[acts' c'] ex]. by apply typed_app.
Qed.


(** Every integer of a frame goes through a setter. *)
Lemma written_typed topic i pre :
  typed (LidarNodeService.frames_of topic i pre).*1.
Proof.
  revert i. induction pre as [|t pre IH]; intros i; [apply typed_nil|].
  rewrite LidarNodeService.frames_of_cons. apply typed_cons; [apply wrap_u64_range|apply IH].
Qed.

(** The undefined increment of a subscription's frame counter is 2^31 frames away. *)
Definition terminates_defined (m : NodeRpc.method) : NodeRpc.input m → Prop :=
  match m with
  | NodeRpc.Subscribe => λ '(_, turns), (Z.of_nat (length turns) < 2 ^ 31)%Z
  | _ => λ _, True
  end.

Lemma responses_typed m (i : NodeRpc.input m) :
  terminates_defined m i →
  ∃ resps, NodeRpc.responses m i = Some resps ∧ typed resps.
Proof.
  destruct m; simpl; intros Hi.
  - destruct i as [req now]. eexists; split; [done|].
    apply typed_cons; [|apply typed_nil]. split; [done|apply wrap_u64_range].
  - destruct i as [req turns].
    destruct (LidarNodeService.subscribe_loop_spec (SubscribeRequest.topic req) turns
      TopicData.empty 0 0) as (pre & acts & exited & Hsub & Hgt); [lia..|].
    unfold LidarNodeService.Subscribe. rewrite Hsub. eexists; split; [done|].
    rewrite (LidarNodeService.gt_written _ _ _ _ _ _ _ Hgt). apply written_typed.
  - eexists; split; [done|]. generalize 0%Z as pending.
    induction i as [|[req ok] reads IH]; intros pending; simpl; [apply typed_nil|].
    destruct (_ <=? _)%Z; simpl; [by apply IH|]. apply typed_cons; [done|].
    destruct ok; [by apply IH|apply typed_nil].
  - eexists; split; [done|]. apply typed_cons; [|apply typed_nil]. split; [done|by split].
Qed.

(** The LIDAR node sends nothing that does not fit its message: not its client to
    the registry, whatever port it is given, whatever its clock shows and its calls
    return; and not its own service, whose every method, called with any input that
    stops a subscription short of 2^31 frames, has a defined result, all of whose
    responses are values of their types. *)
Theorem lidar_sends_typed :
  (∀ node_id port session_id its,
     typed (LidarClient.run_heartbeat node_id port session_id its).1.1)
  ∧ (∀ m (i : NodeRpc.input m), terminates_defined m i →
       ∃ resps, NodeRpc.responses m i = Some resps ∧ typed resps).
Proof.
  split; [intros; apply client_loop_typed|]. intros m i Hi.
  by apply responses_typed.
Qed.

End clients.

(** * Examples *)

#[local] Instance sample_order : HashOrder NodeEntry.t := front_order _.
#[local] Instance sample_status : GrpcStatus := concrete_status.
#[local] Instance sample_status_laws : GrpcStatusLaws sample_status := concrete_status_laws.
#[local] Instance sample_call : UnaryCall sample_status := concrete_call.
#[local] Instance sample_call_laws : UnaryCallLaws sample_call := concrete_call_laws.

Definition sample_history : list event :=
  [EvRegister (sample_register "lidar_01") 42 7; EvIncrement; EvRemoveStale 3;
   EvHeartbeat (sample_heartbeat "lidar_01") 9].

(** A second node of the same name: its caller gets an error, and not the response
    object that the handler has filled in. *)
Lemma registry_serves_directory_witness :
  let s := run sample_history (sample_service 2) in
  let reply := (RegistryRpc.call RegistryRpc.Register (sample_register "lidar_01") 43 11 s).1 in
  (RegistryRpc.handle RegistryRpc.Register (sample_register "lidar_01") 43 11 s).1.2
  = RegisterResponse.mk false "" 0 "Node already registered or table full"
  ∧ reply.2 = RegisterResponse.empty
  ∧ receives RegistryRpc.Register reply None.
Proof.
  cbv zeta.
  pose proof (registry_serves_directory (T := NodeTable.t) 2 sample_history RegistryRpc.Register
    (sample_register "lidar_01") 43 11) as Hserve. cbv zeta in Hserve.
  split; [by vm_compute|].
  destruct (RegistryRpc.call _ _ _ _ _) as [reply s'].
  destruct (DirectoryServer.after 2 sample_history) as [running d] eqn:Hafter.
  destruct Hserve as [Hreply _]; [by split|].
  assert (DirectoryServer.serve RegistryRpc.Register (sample_register "lidar_01") 43 2 running d = None)
    as Hnone.
  { replace running with (DirectoryServer.after 2 sample_history).1 by by rewrite Hafter.
    replace d with (DirectoryServer.after 2 sample_history).2 by by rewrite Hafter.
    by vm_compute. }
  rewrite Hnone in Hreply. split; [apply Hreply|exact Hreply].
Defined.

Definition sample_turn (success : bool) : Node.iteration :=
  Node.mk_iteration false false (-1) (float_of_Z 15, float_of_Z 45, 2%Z)
    (None, HeartbeatResponse.mk success 0 (negb success)) (sample_info "lidar_01" ["lidar"])
    (None, RegisterResponse.mk true "lidar_01_43" 500 "").

Lemma node_sends_typed_witness :
  let '(acts, n, attempts) :=
    node_life (sample_info "lidar_01" ["lidar"]) (None, RegisterResponse.mk true "lidar_01_42" 1000 "")
      [sample_turn true; sample_turn false] (Node.Node "lidar_01" "localhost:50051") in
  length acts = 9 ∧ Node.heartbeat_interval_ms_ n = 500%Z ∧ attempts = 1%Z
  ∧ typed acts ∧ typed n.
Proof.
  pose proof (node_sends_typed "lidar_01" "localhost:50051" (sample_info "lidar_01" ["lidar"])
    (None, RegisterResponse.mk true "lidar_01_42" 1000 "")
    [sample_turn true; sample_turn false]) as Hn.
  destruct Hn as (Ha & Hn & _); [by repeat split|by split| |].
  { repeat apply typed_cons; try apply typed_nil; by repeat split. }
  split_and!; [done|done|done|exact Ha|exact Hn].
Defined.

Lemma lidar_sends_typed_witness :
  let frame := TopicData.mk "lidar" (2 ^ 64 - 1) (LidarNodeService.payload 0) "RobotStatus" in
  NodeRpc.responses NodeRpc.Subscribe
    (SubscribeRequest.mk "viewer" "lidar" 0, [LidarNodeService.mk_turn true (-1) true])
  = Some [frame] ∧ typed [frame].
Proof.
  destruct (proj2 lidar_sends_typed NodeRpc.Subscribe
    (SubscribeRequest.mk "viewer" "lidar" 0, [LidarNodeService.mk_turn true (-1) true]))
    as (resps & Heq & Ht); [done|].
  split; [reflexivity|].
  change (Some [TopicData.mk "lidar" (2 ^ 64 - 1) (LidarNodeService.payload 0) "RobotStatus"]
          = Some resps) in Heq.
  injection Heq as <-. exact Ht.
Defined.
