(* ===== verification/Programs.v ===== *)
(** * The programs and the small components they start with

    [Module Logger] (src/utils/logger.h, logger.cpp), [Module TransportManager]
    (src/core/transport), [Module VersionInfo] (src/core/version.h, version.cpp),
    and the [main] functions of the middleware (src/main.cpp) and of the registry
    server (src/examples/registry_server.cpp).  A [main] runs in the [outcome]
    monad over the process's state: a log statement before the logger is
    initialized, or after it is shut down, dereferences a null pointer. *)

From Stdlib Require Import ZArith Lia Ascii.
From stdpp Require Import prelude gmap strings list.
From S2P Require Import Prelude UnorderedMap Messages Grpc NodeDir Table Registry Health.
From S2P Require Import RegistrySystem Coro.

Module Logger.

Inductive level := trace | debug | info | warn | error | critical.

(** The configuration the one instance was made with. *)
Record config := mk_config {
  log_file : string;
  queue_size : Z;
  thread_count : Z;
}.

(** The static state: the instance, and spdlog's global state as far as the
    sources use it (the thread pool and the registry of loggers), the directories
    made, and what has been logged. *)
Record t := mk {
  instance_ : option config;
  thread_pool : option (Z * Z);
  registered : list string;
  directories : list string;
  output : list (level * string);
}.

(** The state a process starts in. *)
Definition initial : t := mk None None [] [] [].

Definition init (log_dir : string) (async_queue_size async_thread_count : Z) (l : t) : bool * t :=
  match instance_ l with
  | Some _ => (true, l)
  | None =>
      let log_file := log_dir +:+ "/drocm.log" in
      (true,
       mk (Some (mk_config log_file async_queue_size async_thread_count))
          (Some (async_queue_size, async_thread_count))
          ("drocm" :: registered l) (log_dir :: directories l)
          (output l ++ [(info, "Logger initialized (async mode, queue_size="
                          +:+ to_string async_queue_size +:+ ", sinks=[console, file])")]))
  end.

(** [init] with its default arguments. *)
Definition init_default : t → bool * t := init "logs" 8192 1.

Definition get (l : t) : option config := instance_ l.

Definition shutdown (l : t) : t :=
  match instance_ l with
  | None => l
  | Some _ =>
      (* flush, drop, spdlog::shutdown (which drops every logger and the pool), reset *)
      mk None None [] (directories l) (output l)
  end.

(** The position after the last separator of a file name, as the macros compute
    it: [find_last_of] both separators, one further, or 0. *)
Definition is_separator (c : ascii) : bool :=
  Ascii.eqb c "/"%char || Ascii.eqb c "092"%char.

Fixpoint basename (file : string) : string :=
  match file with
  | EmptyString => EmptyString
  | String c s =>
      if str_all (λ c, negb (is_separator c)) file then file
      else basename s
  end.

(** A log macro, at a place of the source. *)
Definition log (lv : level) (file : string) (line : Z) (message : string) (l : t) : outcome t :=
  match get l with
  | None => Fault NullDeref
  | Some _ =>
      Ok (mk (instance_ l) (thread_pool l) (registered l) (directories l)
            (output l ++ [(lv, "[" +:+ basename file +:+ ":" +:+ to_string line +:+ "] "
                               +:+ message)]))
  end.

(** ** Facts *)

(** The state is consistent: the pool and the registration go with the instance. *)
Definition wf (l : t) : Prop :=
  match instance_ l with
  | Some c => thread_pool l = Some (queue_size c, thread_count c) ∧ registered l = ["drocm"]
  | None => thread_pool l = None ∧ registered l = []
  end.

Definition up (l : t) : Prop := wf l ∧ is_Some (instance_ l).
Definition down (l : t) : Prop := wf l ∧ instance_ l = None.

Lemma init_up dir q n l : wf l → (init dir q n l).1 = true ∧ up (init dir q n l).2.
Proof.
  unfold init, up, wf. destruct (instance_ l) as [c|] eqn:Hi; simpl.
  - rewrite Hi. intros Hwf. split_and!; [done|apply Hwf|apply Hwf|done].
  - intros [_ ->]. by split_and!.
Qed.

Lemma shutdown_down l : wf l → down (shutdown l).
Proof.
  unfold shutdown, down, wf. destruct (instance_ l) as [c|] eqn:Hi; simpl; [done|].
  by rewrite Hi.
Qed.

Lemma log_up lv file line msg l :
  up l → ∃ l', log lv file line msg l = Ok l' ∧ up l'.
Proof.
  unfold up, wf, log, get. intros [Hwf [c Hc]]. rewrite Hc in *. eexists. split; [done|].
  simpl. split; [done|by eexists].
Qed.

Lemma basename_spec file :
  ∃ dir, file = dir +:+ basename file
    ∧ str_all (λ c, negb (is_separator c)) (basename file) = true
    ∧ (dir = "" ∨ ∃ dir' c, dir = dir' +:+ String c "" ∧ is_separator c = true).
Proof.
  induction file as [|c s IH]; [by exists ""; auto|]. cbn [basename].
  destruct (str_all _ (String c s)) eqn:Hall; [exists ""; auto|].
  destruct IH as (dir & Hs & Hb & Hdir). exists (String c dir). split_and!.
  - exact (f_equal (String c) Hs).
  - done.
  - right. destruct Hdir as [->|(dir' & c' & -> & Hc')].
    + exists "", c. split; [done|]. cbn [str_all] in Hall. change (s = basename s) in Hs.
      rewrite <-Hs in Hb.
      rewrite Hb, andb_true_r in Hall. by apply negb_false_iff in Hall.
    + by exists (String c dir'), c'.
Qed.

End Logger.

Module TransportManager.

Record config := mk_config {
  server_address : string;
  server_port : Z;
  connection_timeout_ms : Z;
  request_timeout_ms : Z;
  max_retries : Z;
  retry_backoff_base_ms : Z;
  keepalive_time_ms : Z;
  keepalive_timeout_ms : Z;
}.

Definition default_config : config := mk_config "0.0.0.0" 50051 5000 3000 3 100 10000 5000.

(** [impl_] is never made: it stays null. *)
Record t := mk { impl_ : option unit; config_ : config; is_running_ : bool }.

Definition TransportManager (c : config) : t := mk None c false.
Definition start (m : t) : bool * t := (true, mk (impl_ m) (config_ m) true).
Definition stop (m : t) : t := mk (impl_ m) (config_ m) false.
Definition is_running (m : t) : bool := is_running_ m.
(** [config()], which has the name of the record here. *)
Definition get_config (m : t) : config := config_ m.

(** Whatever is called, the manager keeps its configuration, and runs exactly
    after a [start]. *)
Lemma calls_spec (calls : list bool) c :
  let m := foldl (λ m (call : bool), if call then (start m).2 else stop m)
             (TransportManager c) calls in
  get_config m = c ∧ impl_ m = None ∧ is_running m = default false (last calls).
Proof.
  induction calls as [|call calls IH] using rev_ind; [done|].
  rewrite foldl_app, last_snoc. simpl. destruct IH as (Hc & Hi & _). by destruct call.
Qed.

End TransportManager.

Module VersionInfo.

Definition MAJOR : Z := 0.
Definition MINOR : Z := 1.
Definition PATCH : Z := 0.
Definition toString : string := "D-RoCM v0.1.0".

(** The string says what the constants say. *)
Lemma toString_spec :
  toString = "D-RoCM v" +:+ to_string MAJOR +:+ "." +:+ to_string MINOR +:+ "." +:+ to_string PATCH.
Proof. vm_compute. reflexivity. Qed.

End VersionInfo.

(** * main.cpp *)

Module Main.

(** The process: the logger, the adapter's static flag, the adapter, and the
    number of log statements that threads have made. *)
Record state := mk {
  logger : Logger.t;
  shutdown_flag : bool;
  adapter : option CoroAdapter.t;
}.

Definition log (lv : Logger.level) (line : Z) (message : string) (s : state) : outcome state :=
  l ← Logger.log lv "main.cpp" line message (logger s);
  mret (mk l (shutdown_flag s) (adapter s)).

(** What the poller thread logs while it lives, between two statements of [main]. *)
Fixpoint poller_logs (messages : list string) (s : state) : outcome state :=
  match messages with
  | [] => mret s
  | m :: ms =>
      l ← Logger.log Logger.info "coro_adapter.cpp" 0 m (logger s);
      poller_logs ms (mk l (shutdown_flag s) (adapter s))
  end.

(** The constructor and [shutdown] of the adapter, with what they log. *)
Definition make_adapter (s : state) : outcome state :=
  l ← Logger.log Logger.info "coro_adapter.cpp" 13
        "CoroAdapter initialized, poller thread started" (logger s);
  mret (mk l (shutdown_flag s) (Some CoroAdapter.CoroAdapter)).

Definition shutdown_adapter (s : state) : outcome state :=
  match adapter s with
  | None => Fault NullDeref
  | Some a =>
      l ← (if shutdown_flag s then mret (logger s)
           else Logger.log Logger.info "coro_adapter.cpp" 23
                  "Shutting down CoroAdapter poller thread" (logger s));
      let '(flag, a) := CoroAdapter.shutdown (shutdown_flag s) a in
      mret (mk l flag (Some a))
  end.

(** [reset()]: the destructor calls [shutdown] again and joins the poller. *)
Definition reset_adapter (s : state) : outcome state :=
  match adapter s with
  | None => mret s
  | Some a =>
      s ← shutdown_adapter s;
      mret (mk (logger s) (shutdown_flag s) None)
  end.

(** [main], with what the poller logs at the four points of its life; the exit
    code, and the process at the end. *)
Definition main (logs1 logs2 logs3 logs4 : list string) : outcome (Z * state) :=
  let s := mk (Logger.init_default Logger.initial).2 false None in
  s ← log Logger.info 23 "==========================================" s;
  s ← log Logger.info 24 "  D-RoCM - Distributed Robot Control Middleware" s;
  s ← log Logger.info 25 "==========================================" s;
  let version_str := VersionInfo.toString in
  s ← log Logger.info 28 ("Version: " +:+ version_str) s;
  s ← log Logger.info 29 "Build: C++20 | gRPC | Protobuf" s;
  s ← log Logger.info 30 "==========================================" s;
  s ← log Logger.info 31 (version_str +:+ " starting") s;
  s ← log Logger.debug 32 "Logger initialized with async multi-sink (console + file)" s;
  s ← make_adapter s;
  s ← poller_logs logs1 s;
  s ← log Logger.info 36 "CoroAdapter initialized, poller thread running" s;
  s ← poller_logs logs2 s;
  match adapter s with
  | None => Fault NullDeref
  | Some a =>
      if CoroAdapter.is_running a then
        s ← log Logger.info 40 "CompletionQueue poller thread is active" s;
        s ← log Logger.info 47 "Phase 0.1-0.3 & Phase 1.1/1.2 initialization complete" s;
        s ← log Logger.info 48 "Ready for next phases (registry, node, streaming)" s;
        s ← poller_logs logs3 s;
        s ← shutdown_adapter s;
        s ← poller_logs logs4 s;
        s ← reset_adapter s;
        s ← log Logger.info 54 "D-RoCM exited cleanly" s;
        mret (0%Z, mk (Logger.shutdown (logger s)) (shutdown_flag s) (adapter s))
      else
        s ← log Logger.error 43 "CoroAdapter poller thread failed to start!" s;
        mret (1%Z, s)
  end.

(** ** The program logs only while the logger is up *)

Definition ready (s : state) : Prop := Logger.up (logger s).

Lemma log_ready lv line msg s :
  ready s → ∃ s', log lv line msg s = Ok s' ∧ ready s'
    ∧ adapter s' = adapter s ∧ shutdown_flag s' = shutdown_flag s.
Proof.
  intros Hs. unfold log.
  destruct (Logger.log_up lv "main.cpp" line msg (logger s) Hs) as (l & -> & Hl). simpl.
  eexists. by split_and!.
Qed.

Lemma poller_logs_ready ms s :
  ready s → ∃ s', poller_logs ms s = Ok s' ∧ ready s'
    ∧ adapter s' = adapter s ∧ shutdown_flag s' = shutdown_flag s.
Proof.
  revert s. induction ms as [|m ms IH]; intros s Hs; simpl; [by exists s|].
  destruct (Logger.log_up Logger.info "coro_adapter.cpp" 0 m (logger s) Hs) as (l & -> & Hl).
  simpl. destruct (IH (mk l (shutdown_flag s) (adapter s)) Hl) as (s' & -> & Hs' & Ha & Hf).
  by exists s'.
Qed.

Lemma shutdown_adapter_ready s a :
  ready s → adapter s = Some a →
  ∃ s' a', shutdown_adapter s = Ok s' ∧ ready s' ∧ adapter s' = Some a'
    ∧ shutdown_flag s' = true
    ∧ CoroAdapter.cq_shut_down a' = CoroAdapter.cq_shut_down a || negb (shutdown_flag s).
Proof.
  intros Hs Ha. unfold shutdown_adapter, CoroAdapter.shutdown. rewrite Ha.
  destruct (shutdown_flag s) eqn:Hf; simpl.
  - eexists _, _. split_and!; [reflexivity|done|done|done|]. by rewrite orb_false_r.
  - destruct (Logger.log_up Logger.info "coro_adapter.cpp" 23
      "Shutting down CoroAdapter poller thread" (logger s) Hs) as (l & -> & Hl). simpl.
    eexists _, _. split_and!; [reflexivity|done|done|done|]. by rewrite orb_true_r.
Qed.

(** One statement of [main] after another. *)
Ltac next_log :=
  match goal with
  | |- context [log ?lv ?line ?msg ?s ≫= _] =>
      let s' := fresh "s" in let H := fresh "Hs" in
      destruct (log_ready lv line msg s) as (s' & -> & H & ? & ?); [done|];
      cbn [mbind outcome_bind]
  | |- context [poller_logs ?ms ?s ≫= _] =>
      let s' := fresh "s" in let H := fresh "Hs" in
      destruct (poller_logs_ready ms s) as (s' & -> & H & ? & ?); [done|];
      cbn [mbind outcome_bind]
  end.

(** The program ends with exit code 0: no statement logs through a null logger,
    whatever the poller logs meanwhile; the adapter has been shut down and
    destroyed before the logger is. *)
Theorem main_exits_cleanly logs1 logs2 logs3 logs4 :
  ∃ s, main logs1 logs2 logs3 logs4 = Ok (0%Z, s)
    ∧ Logger.down (logger s) ∧ adapter s = None ∧ shutdown_flag s = true.
Proof.
  unfold main. set (s0 := mk _ false None).
  assert (ready s0) as H0 by by apply Logger.init_up.
  cbv zeta. repeat next_log. unfold make_adapter.
  match goal with |- context [Logger.log ?lv ?f ?ln ?m (logger ?s)] =>
    destruct (Logger.log_up lv f ln m (logger s)) as (l & -> & Hl); [done|] end.
  cbn [mbind outcome_bind mret outcome_ret].
  set (made := mk l _ (Some CoroAdapter.CoroAdapter)).
  assert (ready made) as Hmade by done.
  assert (adapter made = Some CoroAdapter.CoroAdapter) as Hadapter by done.
  clearbody made. repeat next_log.
  match goal with |- context [match adapter ?s with _ => _ end] =>
    replace (adapter s) with (Some CoroAdapter.CoroAdapter) by congruence end.
  change (CoroAdapter.is_running CoroAdapter.CoroAdapter) with true. cbn iota.
  repeat next_log.
  match goal with |- context [shutdown_adapter ?s] =>
    destruct (shutdown_adapter_ready s CoroAdapter.CoroAdapter) as (sd & a & -> & Hsd & Ha & Hf & _);
      [done|congruence|] end.
  cbn [mbind outcome_bind]. next_log. unfold reset_adapter.
  match goal with |- context [match adapter ?s with _ => _ end] =>
    replace (adapter s) with (Some a) by congruence;
    destruct (shutdown_adapter_ready s a) as (sr & a' & -> & Hsr & _ & Hfr & _); [done|congruence|]
  end.
  cbn [mbind outcome_bind mret outcome_ret]. next_log. cbn [mret outcome_ret].
  eexists. split; [reflexivity|]. simpl. split_and!.
  - apply Logger.shutdown_down.
    match goal with H : ready ?s |- Logger.wf (logger ?s) => apply H end.
  - done.
  - simpl in *. congruence.
Qed.

End Main.

(** * registry_server.cpp *)

Module RegistryServer.

Section server.
  Context {T : Type} `{NodeDirectory T} `{G : GrpcStatus}.

Definition log (line : Z) (message : string) (l : Logger.t) : outcome Logger.t :=
  Logger.log Logger.info "registry_server.cpp" line message l.

(** The handler of SIGINT and SIGTERM stores false in [g_running]. *)
Definition signal_handler (g_running : bool) : bool := false.

(** The wait for a signal. *)
Definition wait_loop (loads : list bool) : list Z * bool := sleep_while 500 loads.

(** [main]: [argv1] is the argument, if there is one; [server] tells whether
    [BuildAndStart] gave a server, or null (the address was not free); [loads] is
    what the wait for the signal has seen.  The histories are the events of the
    process at the points where other threads run: after the server was built, while
    it serves, between the service's [Shutdown] and the end of the gRPC server's
    [Wait], and until the checker is stopped.  The result is [None] as long as the
    program waits; in the end, what happened to the checker's thread, the final node
    count, the registry and the logger.  The destructors of the checker and of the
    service run last, after the logger is down: they must not log. *)
Definition main (argv1 : option string) (server : bool) (loads : list bool)
    (built serving closing draining : list event)
    : outcome (option (list HealthChecker.action * Z * RegistryService.t T * Logger.t)) :=
  let l := (Logger.init_default Logger.initial).2 in
  l ← log 32 "==========================================" l;
  l ← log 33 "  D-RoCM Registry Server (Master Node)" l;
  l ← log 34 "==========================================" l;
  let registry_service := RegistryService.RegistryServiceImpl 10000 in
  let health_checker := HealthChecker.HealthChecker 1000 3 in
  let bind_address := default "0.0.0.0:50051" argv1 in
  l ← log 56 ("[Registry] Server listening on " +:+ bind_address) l;
  let registry_service := run built registry_service in
  let '(acts1, health_checker) := HealthChecker.start health_checker in
  let registry_service := run serving registry_service in
  if negb (wait_loop loads).2 then mret None
  else
    l ← log 70 "[Registry] Shutting down..." l;
    let registry_service := RegistryService.Shutdown registry_service in
    if negb server then Fault NullDeref
    else
      let registry_service := run closing registry_service in
      let registry_service := run draining registry_service in
      let '(acts2, health_checker) := HealthChecker.stop health_checker in
      let node_count := get_node_count (RegistryService.get_node_table registry_service) in
      l ← log 85 ("[Registry] Server stopped. Final node count: " +:+ to_string node_count) l;
      let l := Logger.shutdown l in
      let '(acts3, health_checker) := HealthChecker.destroy health_checker in
      l ← (match acts3 with
           | [] => mret l
           | _ => Logger.log Logger.info "health_checker.cpp" 41
                    "[HealthChecker] Shutting down background thread" l
           end);
      mret (Some (acts1 ++ acts2 ++ acts3, node_count, registry_service, l)).

End server.
End RegistryServer.

Section server_claims.
  Context {T : Type} `{NodeDirectoryLaws T} `{G : GrpcStatus}.
  Import RegistryServer.

Lemma log_line line msg l :
  Logger.up l → ∃ l', log line msg l = Ok l' ∧ Logger.up l'.
Proof. apply Logger.log_up. Qed.

Ltac next_line :=
  match goal with
  | |- context [RegistryServer.log ?line ?msg ?l ≫= _] =>
      let l' := fresh "l" in
      destruct (log_line line msg l) as (l' & -> & ?); [done|];
      cbn [mbind outcome_bind]
  end.

Lemma run_capacity evs (s : RegistryService.t T) :
  svc_wf s → svc_capacity (run evs s) = svc_capacity s.
Proof.
  revert s. induction evs as [|ev evs IH]; intros s Hwf; simpl; [done|].
  destruct (step_spec ev s Hwf) as (Hwf1 & Hcap & _). rewrite IH by done. done.
Qed.

(** The logger's and the registry's part of [main], once the signal has come. *)
Lemma server_run argv1 loads built serving closing draining :
  (sleep_while 500 loads).2 = true →
  ∃ count s l,
    main (T := T) argv1 true loads built serving closing draining
    = Ok (Some ([HealthChecker.Spawn; HealthChecker.RequestStop; HealthChecker.Join], count, s, l))
    ∧ Logger.down l
    ∧ count = Z.of_nat (size (svc_abs s)) ∧ (count ≤ 10000)%Z
    ∧ dom (svc_abs s)
      ⊆ dom (svc_abs (run (built ++ serving) (RegistryService.RegistryServiceImpl (T := T) 10000)))
        ∪ in_flight (closing ++ draining).
Proof.
  intros Hleft.
  destruct (new_directory_spec (T := T) 10000) as (Hwf0 & Habs0 & Hcap0); [by split|].
  set (s0 := RegistryService.RegistryServiceImpl (T := T) 10000).
  assert (svc_wf s0) as Hs0 by done.
  set (s1 := RegistryService.Shutdown (run serving (run built s0))).
  assert (svc_wf s1) as Hs1 by by apply (step_spec EvShutdown), run_wf, run_wf.
  assert (svc_wf (run draining (run closing s1))) as Hs2 by by apply run_wf, run_wf.
  assert (Logger.up (Logger.init_default Logger.initial).2) as Hup by by apply Logger.init_up.
  unfold main, wait_loop. cbv zeta. fold s0. rewrite Hleft. repeat next_line.
  cbn [HealthChecker.start HealthChecker.HealthChecker HealthChecker.is_running_ negb].
  repeat next_line.
  cbn [HealthChecker.stop HealthChecker.destroy HealthChecker.is_running_ HealthChecker.checker_thread_
       JThread.joinable JThread.spawned negb]. repeat next_line.
  fold s1. unfold RegistryService.get_node_table.
  eexists _, (run draining (run closing s1)), _. split; [reflexivity|].
  rewrite get_node_count_spec by exact Hs2. split_and!; [|done| |].
  - match goal with H : Logger.up ?l |- Logger.down (Logger.shutdown ?l) =>
      apply Logger.shutdown_down, H end.
  - destruct (dir_wf_capacity _ Hs2) as [Hle _].
    assert (svc_capacity (run draining (run closing s1)) = 10000%Z) as Hcap.
    { rewrite !run_capacity by (done || by apply run_wf).
      transitivity (svc_capacity (run serving (run built s0)));
        [by apply (step_spec EvShutdown), run_wf, run_wf|].
      by rewrite !run_capacity by (done || by apply run_wf). }
    unfold svc_capacity in Hcap. by rewrite Hcap in Hle.
  - rewrite <-run_app.
    assert (svc_abs s1 = svc_abs (run (built ++ serving) s0)) as <-.
    { rewrite run_app. change s1 with (step EvShutdown (run serving (run built s0))).
      by destruct (step_spec EvShutdown (run serving (run built s0)))
        as (_ & _ & _ & ->); [by apply run_wf, run_wf|]. }
    apply shutdown_only_loses_nodes; [done|].
    by destruct (step_spec EvShutdown (run serving (run built s0))) as (_ & _ & Hrun & _);
      [by apply run_wf, run_wf|].
Qed.

(** The registry server's life.  It waits until a signal has cleared [g_running].
    Then, if it has a server at all, however the clients and the checker interleave,
    it exits without logging through a null logger; its checker thread is spawned
    once, and stopped and joined once, before the logger goes down, so that the
    destructor that runs after the logger's shutdown finds nothing to do and logs
    nothing.  The count it reports at the end is the number of registered nodes, at
    most 10000; and none of them was registered after the service's [Shutdown],
    except by a call that was already past its check of the flag.  But if the server
    could not be built, nobody notices until the signal comes, and then the program
    dereferences the null server. *)
Theorem registry_server_exits argv1 server loads built serving closing draining :
  (false ∉ loads → main (T := T) argv1 server loads built serving closing draining = Ok None)
  ∧ (false ∈ loads →
       if server then
         ∃ count s l,
           main (T := T) argv1 server loads built serving closing draining
           = Ok (Some ([HealthChecker.Spawn; HealthChecker.RequestStop; HealthChecker.Join],
                       count, s, l))
           ∧ Logger.down l
           ∧ count = Z.of_nat (size (svc_abs s)) ∧ (count ≤ 10000)%Z
           ∧ dom (svc_abs s)
             ⊆ dom (svc_abs (run (built ++ serving)
                               (RegistryService.RegistryServiceImpl (T := T) 10000)))
               ∪ in_flight (closing ++ draining)
       else main (T := T) argv1 server loads built serving closing draining = Fault NullDeref).
Proof.
  rewrite <-(sleep_while_left 500).
  assert (Logger.up (Logger.init_default Logger.initial).2) as Hup by by apply Logger.init_up.
  split.
  - intros Hleft%not_true_iff_false. unfold main, wait_loop. cbv zeta. rewrite Hleft. by repeat next_line.
  - intros Hleft. destruct server; [by apply server_run|].
    unfold main, wait_loop. cbv zeta. rewrite Hleft. repeat next_line.
    cbn [HealthChecker.start HealthChecker.HealthChecker HealthChecker.is_running_ negb].
    by repeat next_line.
Qed.

End server_claims.

(** * Examples *)

#[local] Instance sample_order : HashOrder NodeEntry.t := front_order _.
#[local] Instance sample_status : GrpcStatus := concrete_status.

Example sample_basename :
  Logger.basename <$> ["src/main.cpp"; "C:\src\a/b.cpp"; "plain.cpp"; "dir/"]
  = ["main.cpp"; "b.cpp"; "plain.cpp"; ""].
Proof. vm_compute. reflexivity. Qed.

Lemma registry_server_exits_witness :
  ∃ s l,
    RegistryServer.main (T := NodeTable.t) None true [true; true; false] []
      [ev_register "lidar_01"; ev_register "camera_01"; EvIncrement; EvRemoveStale 3]
      [ev_register "late_01"; ev_heartbeat "lidar_01" 9] [EvIncrement; EvRemoveStale 3]
    = Ok (Some ([HealthChecker.Spawn; HealthChecker.RequestStop; HealthChecker.Join], 2%Z, s, l))
    ∧ Logger.down l.
Proof.
  destruct (registry_server_exits (T := NodeTable.t) None true [true; true; false] []
      [ev_register "lidar_01"; ev_register "camera_01"; EvIncrement; EvRemoveStale 3]
      [ev_register "late_01"; ev_heartbeat "lidar_01" 9] [EvIncrement; EvRemoveStale 3])
    as [_ Hexit].
  destruct Hexit as (count & s & l & Hmain & Hdown & _); [by apply (bool_decide_unpack _)|].
  assert (count = 2%Z) as ->.
  { vm_compute in Hmain. by injection Hmain as <- _ _. }
  exists s, l. split; [exact Hmain|exact Hdown].
Defined.
