(* ===== verification/Threads.v ===== *)
(** * What the programs' processes share

    The step machines of LidarProcess and RegistryProcess have threads that log, a
    gRPC server, and a schedule.  Here are the parts they share: a thread's place with
    the log statements before it, gRPC's synchronous server as an interface, runs of a
    schedule, and one argument for termination: a program whose rank no step raises,
    and in which somebody whose step lowers it can always move, finishes within as
    many fair rounds as its rank. *)

From Stdlib Require Import ZArith Lia.
From stdpp Require Import prelude gmap strings list.
From S2P Require Import Prelude Coro Programs.

(** ** Log statements *)

(** A log statement: level, file and line of the source, and format string (its
    arguments are not filled in). *)
Definition statement : Type := Logger.level * string * Z * string.

Definition say (s : statement) (l : Logger.t) : outcome Logger.t :=
  let '(lv, file, line, fmt) := s in Logger.log lv file line fmt l.

Lemma say_up s l : Logger.up l → ∃ l', say s l = Ok l' ∧ Logger.up l'.
Proof. destruct s as [[[lv file] line] fmt]. apply Logger.log_up. Qed.

(** Where a thread is: the log statements right before it, then a place. *)
Record thread (P : Type) := at_ { logs : list statement; pc : P }.
Arguments at_ {P}.
Arguments logs {P}.
Arguments pc {P}.

(** The logger is up from [main]'s first stage to [last], and down before and after,
    when [main] has no log statement before it. *)
Definition logger_at (last n : nat) (ss : list statement) (l : Logger.t) : Prop :=
  (1 ≤ n ≤ last → Logger.up l) ∧ (n = 0 ∨ last < n → Logger.down l ∧ ss = []).

Lemma logger_next last n n' ss ss' l :
  logger_at last n ss l → 1 ≤ n ≤ last → 1 ≤ n' ≤ last → logger_at last n' ss' l.
Proof. intros [Hup _] Hn Hn'. split; [by intros _; apply Hup|lia]. Qed.

Lemma logger_logging last n s ss l : logger_at last n (s :: ss) l → 1 ≤ n ≤ last.
Proof.
  intros [_ Hdown]. destruct (decide (1 ≤ n ≤ last)) as [|Hn]; [done|].
  destruct Hdown; [lia|done].
Qed.

Lemma logger_stays last n ss ss' l l' :
  logger_at last n ss l → 1 ≤ n ≤ last → Logger.up l' → logger_at last n ss' l'.
Proof. intros _ Hn Hup. split; [done|lia]. Qed.

(** The steps a thread has to go, given those from each place on. *)
Definition thread_rank {P} (f : P → nat) (th : thread P) : nat := length (logs th) + f (pc th).

Lemma total_rank_insert {P} (f : P → nat) (ths : list (thread P)) i th th' :
  ths !! i = Some th →
  sum_list_with (thread_rank f) (<[i := th']> ths) + thread_rank f th
  = sum_list_with (thread_rank f) ths + thread_rank f th'.
Proof.
  revert i. induction ths as [|th0 ths IH]; intros [|i] Hi; simplify_eq/=; [lia|].
  specialize (IH i Hi). lia.
Qed.

Lemma total_rank_bound {P} (f : P → nat) b (ths : list (thread P)) :
  Forall (λ th, thread_rank f th ≤ b) ths →
  sum_list_with (thread_rank f) ths ≤ b * length ths.
Proof. induction 1; simpl; lia. Qed.

(** The branches of a step that has been taken. *)
Ltac branches H :=
  unfold mret, outcome_ret in H;
  repeat match type of H with
    | context [if ?b then _ else _] => destruct b eqn:?
    | context [match ?o with Some _ => _ | None => _ end] => destruct o eqn:?
    | context [let '(_, _) := ?e in _] => destruct e eqn:?
    end; try discriminate H; injection H as <-; simpl in *.

(** ** gRPC's server *)

(** A synchronous server: calls, by number, begin (or are refused) and end;
    [Shutdown] is called; and whether [Shutdown], and [Wait], would return now. *)
Class SyncServer := {
  Server : Type;
  BuildAndStart : Server;
  call_begins : nat → Server → option Server;
  call_ends : nat → Server → Server;
  server_Shutdown : Server → Server;
  shutdown_returns : Server → bool;
  wait_returns : Server → bool;
}.

(** The documented behaviour: [Shutdown] refuses new calls and waits for all calls
    in progress, without ending them (it is called without a deadline); [Wait]
    waits for the shutdown and for the calls. *)
Class SyncServerLaws `(S : SyncServer) := {
  in_progress : Server → gset nat;
  shut_down : Server → bool;
  built_law : in_progress BuildAndStart = ∅ ∧ shut_down BuildAndStart = false;
  begins_law id s s' :
    call_begins id s = Some s' →
    shut_down s = false ∧ shut_down s' = false ∧ in_progress s' = {[id]} ∪ in_progress s;
  ends_law id s :
    in_progress (call_ends id s) = in_progress s ∖ {[id]}
    ∧ shut_down (call_ends id s) = shut_down s;
  shutdown_law s :
    in_progress (server_Shutdown s) = in_progress s ∧ shut_down (server_Shutdown s) = true;
  shutdown_returns_law s :
    shut_down s = true → shutdown_returns s = true ↔ in_progress s = ∅;
  wait_returns_law s :
    wait_returns s = true ↔ shut_down s = true ∧ in_progress s = ∅;
}.

(** A server that answers as documented: the calls in progress, and whether it is
    shut down. *)
Definition concrete_server : SyncServer := {|
  Server := gset nat * bool;
  BuildAndStart := (∅, false);
  call_begins id s := if s.2 then None else Some ({[id]} ∪ s.1, false);
  call_ends id s := (s.1 ∖ {[id]}, s.2);
  server_Shutdown s := (s.1, true);
  shutdown_returns s := bool_decide (s.1 = ∅);
  wait_returns s := s.2 && bool_decide (s.1 = ∅);
|}.

Definition concrete_server_laws : SyncServerLaws concrete_server.
Proof.
  refine (Build_SyncServerLaws concrete_server
            (λ s : gset nat * bool, s.1) (λ s : gset nat * bool, s.2) _ _ _ _ _ _); simpl.
  - done.
  - intros id [calls []] s' [= <-]. by split_and!.
  - done.
  - done.
  - intros s _. by rewrite bool_decide_eq_true.
  - intros s. by rewrite andb_true_iff, bool_decide_eq_true.
Defined.

(** ** The handlers of a server's calls *)

Section serving.
  Context {P : Type} `{SL : SyncServerLaws} (returned : P).

(** A handler that has begun and not returned. *)
Definition running (ths : list (thread P)) (i : nat) : Prop :=
  ∃ th, ths !! i = Some th ∧ th ≠ at_ [] returned.

(** The server counts the running handlers; it is shut down, and drained, when the
    program says so. *)
Definition serves (closed drained : Prop) (s : Server) (ths : list (thread P)) : Prop :=
  (shut_down s = true ↔ closed) ∧ (drained → in_progress s = ∅)
  ∧ ∀ i, i ∈ in_progress s ↔ running ths i.

Lemma running_insert ths i th th' j :
  ths !! i = Some th →
  running (<[i := th']> ths) j ↔ (j = i ∧ th' ≠ at_ [] returned) ∨ (j ≠ i ∧ running ths j).
Proof.
  intros Hi. unfold running. destruct (decide (j = i)) as [->|Hne].
  - rewrite list_lookup_insert_eq by by eapply lookup_lt_Some. split.
    + intros (x & [= <-] & Hx). by left.
    + intros [[_ Hx]|[[] _]]; [by exists th'|done].
  - rewrite list_lookup_insert_ne by done. split; [by right|].
    by intros [[-> _]|[_ Hx]].
Qed.

Lemma running_snoc ths th i :
  th ≠ at_ [] returned → running (ths ++ [th]) i ↔ i = length ths ∨ running ths i.
Proof.
  intros Hne. unfold running. split.
  - intros (x & Hx & Hr). apply lookup_app_Some in Hx as [Hx|[Hge Hx]]; [right; by exists x|left].
    apply list_lookup_singleton_Some in Hx as [Hz _]. lia.
  - intros [->|(x & Hx & Hr)].
    + exists th. split; [by apply list_lookup_middle|done].
    + exists x. split; [by apply lookup_app_l_Some|done].
Qed.

Lemma serves_iff c d c' d' s ths :
  serves c d s ths → (c ↔ c') → (d' → d) → serves c' d' s ths.
Proof. intros (Hc & Hd & Hin) Hiff Himp. split_and!; [by rewrite Hc|auto|done]. Qed.

Lemma serves_running c d s ths i :
  serves c d s ths → running ths i → i ∈ in_progress s ∧ ¬ d.
Proof.
  intros (_ & Hd & Hin) Hrun. apply Hin in Hrun. split; [done|]. intros Hdr.
  rewrite (Hd Hdr) in Hrun. by apply elem_of_empty in Hrun.
Qed.

Lemma serves_built : serves False False BuildAndStart [].
Proof.
  destruct built_law as [Hnone Hopen]. split_and!; [by rewrite Hopen|done|].
  intros i. rewrite Hnone. split; [intros Hi; by apply elem_of_empty in Hi|].
  by intros (th & Hi & _).
Qed.

Lemma serves_moves c d s ths i th th' :
  serves c d s ths → ths !! i = Some th → th ≠ at_ [] returned → th' ≠ at_ [] returned →
  serves c d s (<[i := th']> ths).
Proof.
  intros (Hc & Hd & Hin) Hi Hne Hne'. split_and!; [done|done|].
  intros j. rewrite Hin, (running_insert _ _ _ _ _ Hi). split.
  - intros Hrun. destruct (decide (j = i)) as [->|]; [by left|by right].
  - intros [[-> _]|[_ Hrun]]; [by exists th|done].
Qed.

Lemma serves_returns c d s ths i th :
  serves c d s ths → ths !! i = Some th → serves c d (call_ends i s) (<[i := at_ [] returned]> ths).
Proof.
  intros (Hc & Hd & Hin) Hi. destruct (ends_law i s) as [Hends Hshut].
  split_and!; [by rewrite Hshut|by intros Hdr; rewrite Hends, (Hd Hdr); apply set_eq; set_solver|].
  intros j. rewrite Hends, elem_of_difference, elem_of_singleton, Hin, (running_insert _ _ _ _ _ Hi).
  split; [by intros [? ?]; right|by intros [[_ []]|[? ?]]].
Qed.

Lemma serves_arrives c d s s' ths th :
  serves c d s ths → (d → c) → call_begins (length ths) s = Some s' → th ≠ at_ [] returned →
  serves c d s' (ths ++ [th]).
Proof.
  intros (Hc & Hd & Hin) Hdc Hbeg Hne. apply begins_law in Hbeg as (Hopen & Hopen' & Hin').
  split_and!; [by rewrite Hopen', <-Hopen| |].
  - intros Hdr%Hdc%Hc. congruence.
  - intros i. by rewrite Hin', elem_of_union, elem_of_singleton, Hin, running_snoc.
Qed.

Lemma serves_closes c d s ths : serves c d s ths → serves True d (server_Shutdown s) ths.
Proof.
  intros (_ & Hd & Hin). destruct (shutdown_law s) as [Hsame Hshut].
  split_and!; [by rewrite Hshut|by rewrite Hsame|by rewrite Hsame].
Qed.

Lemma serves_drains (c d : Prop) s ths :
  serves c d s ths → c → shutdown_returns s = true → serves c True s ths.
Proof.
  intros (Hc & Hd & Hin) Hcl Hret. split_and!; [done| |done].
  intros _. apply shutdown_returns_law; [by apply Hc|done].
Qed.

End serving.

(** ** Schedules *)

Fixpoint run_steps {C P} (step : C → P → outcome P) (cs : list C) (p : P) : outcome P :=
  match cs with
  | [] => mret p
  | c :: cs => p ← step c p; run_steps step cs p
  end.

Lemma run_steps_app {C P} (step : C → P → outcome P) cs1 cs2 p :
  run_steps step (cs1 ++ cs2) p = p ← run_steps step cs1 p; run_steps step cs2 p.
Proof.
  revert p. induction cs1 as [|c cs1 IH]; intros p; [done|]. simpl.
  destruct (step c p); simpl; [apply IH|done].
Qed.

(** An invariant of the allowed steps, none of which faults. *)
Lemma run_steps_inv {C P} (step : C → P → outcome P) (ok : C → Prop) (inv : P → Prop) cs p :
  (∀ c p, inv p → ok c → ∃ p', step c p = Ok p' ∧ inv p') →
  inv p → Forall ok cs → ∃ p', run_steps step cs p = Ok p' ∧ inv p'.
Proof.
  intros Hstep Hinv Hok. revert p Hinv. induction Hok as [|c cs Hc _ IH]; intros p Hinv; [by exists p|].
  destruct (Hstep c p Hinv Hc) as (p1 & Hp1 & Hinv1). simpl. rewrite Hp1. by apply IH.
Qed.

(** What a run ends in, as far as [f] looks. *)
Definition seen {P A} (f : P → A) (r : outcome P) : outcome A := p ← r; mret (f p).

Lemma seen_ok {P A} (f : P → A) r p a : r = Ok p → seen f r = Ok a → f p = a.
Proof. intros ->. by intros [= ?]. Qed.

(** ** Programs that finish under fair schedules *)

(** A program: its threads ([tids], of a population), whom a choice of the schedule
    moves, how many threads it adds, which threads can move, and the rank. *)
Class FairProgram (P C : Type) := {
  tid : Type;
  tid_eq_dec :: EqDecision tid;
  do : C → P → outcome P;
  who : C → option tid;
  arrived : C → nat;
  tids : nat → list tid;
  population : P → nat;
  ready : tid → P → Prop;
  rank : P → nat;
  arrival_rank : nat;
  finished : P → bool;
}.

(** Its laws, for an invariant and the choices of an environment that cooperates. *)
Class FairProgramLaws `(F : FairProgram P C) := {
  holds : P → Prop;
  allowed : C → Prop;
  tids_mono n m : n ≤ m → tids n ⊆ tids m;
  do_allowed c p :
    holds p → allowed c →
    ∃ p', do c p = Ok p' ∧ holds p' ∧ population p' ≤ population p + arrived c
      ∧ rank p' ≤ rank p + arrival_rank * arrived c
      ∧ (finished p = true → finished p' = true)
      ∧ ∀ t, ready t p → if decide (who c = Some t) then rank p' < rank p else ready t p';
  who_arrived c t : who c = Some t → arrived c = 0;
  somebody_ready p :
    holds p → finished p = false → ∃ t, ready t p ∧ t ∈ tids (population p);
  rank_positive p : finished p = false → 0 < rank p;
}.

Section fair.
  Context `{FL : FairProgramLaws P C}.

(** Every thread of a population of [N] moves at least once. *)
Definition fair (N : nat) (round : list C) : Prop :=
  Forall (λ t, Some t ∈ who <$> round) (tids N).

Definition arrivals (cs : list C) : nat := sum_list_with arrived cs.

Lemma arrivals_none cs : Forall (λ c, arrived c = 0) cs → arrivals cs = 0.
Proof. unfold arrivals. induction 1; simpl; lia. Qed.

Lemma arrivals_app cs1 cs2 : arrivals (cs1 ++ cs2) = arrivals cs1 + arrivals cs2.
Proof. apply sum_list_with_app. Qed.

Lemma round_goes_down round p :
  holds p → Forall allowed round →
  ∃ p', run_steps do round p = Ok p' ∧ holds p'
    ∧ population p' ≤ population p + arrivals round
    ∧ rank p' ≤ rank p + arrival_rank * arrivals round
    ∧ (finished p = true → finished p' = true)
    ∧ (∀ t, ready t p → Some t ∈ who <$> round → rank p' < rank p + arrival_rank * arrivals round).
Proof.
  intros Hp Hok. revert p Hp. unfold arrivals. induction Hok as [|c round Hc _ IH]; intros p Hp.
  { exists p. simpl. split_and!; [done|done|lia|lia|done|]. intros t _ Hin. by apply elem_of_nil in Hin. }
  destruct (do_allowed c p Hp Hc) as (p1 & Hdo & Hp1 & Hpop & Hrank & Hfin & Hready).
  destruct (IH p1 Hp1) as (p' & Hrun & Hp' & Hpop' & Hrank' & Hfin' & Hlt).
  exists p'. simpl. rewrite Hdo. simpl. split_and!; [done|done|lia|lia|auto|].
  intros t Ht Hin. specialize (Hready t Ht). case_decide as Hwho.
  - pose proof (who_arrived c t Hwho) as Hnone. rewrite Hnone in *. lia.
  - specialize (Hlt t Hready). apply elem_of_cons in Hin as [Heq|Hin]; [by symmetry in Heq|].
    specialize (Hlt Hin). lia.
Qed.

(** As many fair rounds as the rank, arrivals included, and the program is done. *)
Lemma rounds_finish N rounds p :
  holds p → Forall (λ round, fair N round ∧ Forall allowed round) rounds →
  population p + arrivals (concat rounds) ≤ N →
  rank p + arrival_rank * arrivals (concat rounds) ≤ length rounds →
  ∃ p', run_steps do (concat rounds) p = Ok p' ∧ holds p' ∧ finished p' = true.
Proof.
  intros Hp Hok. revert p Hp.
  induction Hok as [|round rounds [Hfair Hround] Hok IH]; intros p Hp HN Hrank; simpl in *.
  { exists p. split_and!; [done|done|]. destruct (finished p) eqn:Hfin; [done|].
    pose proof (rank_positive p Hfin). lia. }
  rewrite arrivals_app in *. rewrite run_steps_app.
  destruct (round_goes_down round p Hp Hround) as (p1 & Hrun & Hp1 & Hpop & Hle & Hfin & Hlt).
  rewrite Hrun. simpl. destruct (finished p) eqn:Hdone.
  - assert (Forall allowed (concat rounds)) as Hall.
    { apply Forall_concat. eapply Forall_impl; [exact Hok|]. by intros ? [_ ?]. }
    destruct (round_goes_down (concat rounds) p1 Hp1 Hall) as (p2 & Hrun2 & Hp2 & _ & _ & Hfin2 & _).
    exists p2. auto.
  - apply IH; [done|lia|]. destruct (somebody_ready p Hp Hdone) as (t & Ht & Htid).
    assert (Some t ∈ who <$> round) as Hin.
    { unfold fair in Hfair. rewrite Forall_forall in Hfair. apply Hfair.
      eapply tids_mono; [|exact Htid]. lia. }
    specialize (Hlt t Ht Hin). lia.
Qed.

End fair.
