(* ===== verification/LidarProcess.v ===== *)
(** * The LIDAR process: its threads, the signal, and the end

    src/examples/lidar_emulator.cpp runs [main], the heartbeat thread, the metrics
    thread and a thread for every call of a client.  They share two flags, the
    logger, the metrics and the gRPC server.  Here they are step machines under one
    schedule: a step is a log statement, the access to a shared object, or the return
    of a blocking call with what it returned.  A sleep is no step of its own; what the
    frames of a subscription hold is Lidar's.

    [Server::Shutdown] and [Server::Wait] are gRPC's: what the process relies on is
    the class [SyncServer].

    Everything is joined before the logger goes down, so no thread ever logs through
    the null logger; but nothing bounds the wait: one client that keeps a stream open,
    or nobody who connects to the metrics port, and the process stays after the
    signal. *)

From Stdlib Require Import ZArith Lia.
From stdpp Require Import prelude gmap strings list.
From S2P Require Import Prelude Messages Grpc Metrics Lidar Coro Programs Threads.

(** ** The threads *)

(** All log statements are in one file. *)
Definition lidar : string := "lidar_emulator.cpp".

(** [main]: before [Logger::init], [BuildAndStart], the construction of the metrics
    thread, the call of Register, the construction of the heartbeat thread; in the
    wait for the signal; before [Shutdown] and in it; before the flag is cleared; in
    the two [join]s; in [Wait]; before [Logger::shutdown]; after it. *)
Inductive main_pc :=
  | Initializing | Building | SpawningMetrics | Registering | SpawningHeartbeat
  | AwaitingSignal | CallingShutdown | InShutdown | StoppingHeartbeat
  | JoiningHeartbeat | JoiningMetrics | InWait | ShuttingLogger | Exited.

(** [run_heartbeat]: before the loop condition, in the call of Register, in the call
    of Heartbeat, returned. *)
Inductive heartbeat_pc := AtHead | ReRegistering | Beating | HeartbeatDone.

(** The metrics thread: before [socket], [bind], [listen]; before the loop condition;
    in [accept]; before the response; returned. *)
Inductive metrics_pc :=
  | Opening | Binding | Listening | MetricsHead | Accepting | Serving | MetricsDone.

(** A handler: Subscribe before its loop condition and in [Write]; ControlStream in
    [Read] and in [Write]; before the return, and after it. *)
Inductive handler_pc :=
  | SubHead (consecutive_failures : Z)
  | SubWriting (consecutive_failures : Z)
  | CtlReading (pending : Z)
  | CtlWriting (pending : Z)
  | Returning
  | Returned.

#[global] Instance main_pc_eq_dec : EqDecision main_pc.
Proof. solve_decision. Defined.
#[global] Instance handler_pc_eq_dec : EqDecision handler_pc.
Proof. solve_decision. Defined.

Definition heartbeat_done (th : option (thread heartbeat_pc)) : bool :=
  match th with Some (at_ [] HeartbeatDone) => true | _ => false end.
Definition metrics_done (th : option (thread metrics_pc)) : bool :=
  match th with Some (at_ [] MetricsDone) => true | _ => false end.

(** The four calls of the service. *)
Inductive rpc := CallGetStatus | CallPublish | CallSubscribe | CallControlStream.

Definition handler (r : rpc) : thread handler_pc :=
  match r with
  | CallGetStatus | CallPublish => at_ [] Returning
  | CallSubscribe =>
      at_ [(Logger.info, lidar, 61%Z, "[LIDAR] Client subscribed to: {}")] (SubHead 0)
  | CallControlStream =>
      at_ [(Logger.info, lidar, 123%Z, "[LIDAR] Bidirectional stream opened")] (CtlReading 0)
  end.

Section process.
  Context `{G : GrpcStatus} `{S : SyncServer}.

(** The process. [server] is null until it is built, and when it could not be;
    [client] are the variables of [run_heartbeat] and the [session_id] of [main]
    it refers to; [sent] is what that thread has sent and slept; [served] are the responses of the metrics port. *)
Record process := mk_process {
  g_running : bool;
  heartbeat_running : bool;
  logger : Logger.t;
  server : option Server;
  collector : Metrics.t;
  served : list string;
  client : LidarClient.t;
  sent : list LidarClient.action;
  main : thread main_pc;
  heartbeat : option (thread heartbeat_pc);
  metrics : option (thread metrics_pc);
  handlers : list (thread handler_pc);
}.

Definition start : process :=
  mk_process true true Logger.initial None Metrics.Metrics []
    (LidarClient.mk "pending" 0 false) [] (at_ [] Initializing) None None [].

Definition with_logger (l : Logger.t) (p : process) : process :=
  mk_process (g_running p) (heartbeat_running p) l (server p) (collector p) (served p)
    (client p) (sent p) (main p) (heartbeat p) (metrics p) (handlers p).
Definition with_main (th : thread main_pc) (p : process) : process :=
  mk_process (g_running p) (heartbeat_running p) (logger p) (server p) (collector p) (served p)
    (client p) (sent p) th (heartbeat p) (metrics p) (handlers p).
Definition with_server (s : option Server) (p : process) : process :=
  mk_process (g_running p) (heartbeat_running p) (logger p) s (collector p) (served p)
    (client p) (sent p) (main p) (heartbeat p) (metrics p) (handlers p).
Definition with_client (c : LidarClient.t) (p : process) : process :=
  mk_process (g_running p) (heartbeat_running p) (logger p) (server p) (collector p) (served p)
    c (sent p) (main p) (heartbeat p) (metrics p) (handlers p).
(** The heartbeat thread's calls and sleeps. *)
Definition with_sent (acts : list LidarClient.action) (p : process) : process :=
  mk_process (g_running p) (heartbeat_running p) (logger p) (server p) (collector p) (served p)
    (client p) (sent p ++ acts) (main p) (heartbeat p) (metrics p) (handlers p).
Definition with_heartbeat (th : option (thread heartbeat_pc)) (p : process) : process :=
  mk_process (g_running p) (heartbeat_running p) (logger p) (server p) (collector p) (served p)
    (client p) (sent p) (main p) th (metrics p) (handlers p).
Definition with_metrics (th : option (thread metrics_pc)) (p : process) : process :=
  mk_process (g_running p) (heartbeat_running p) (logger p) (server p) (collector p) (served p)
    (client p) (sent p) (main p) (heartbeat p) th (handlers p).
Definition with_handlers (ths : list (thread handler_pc)) (p : process) : process :=
  mk_process (g_running p) (heartbeat_running p) (logger p) (server p) (collector p) (served p)
    (client p) (sent p) (main p) (heartbeat p) (metrics p) ths.

(** A log statement. *)
Definition log (s : statement) (p : process) : outcome process :=
  l ← say s (logger p); mret (with_logger l p).

(** *** main *)

(** A step of [main]; [built] is how [BuildAndStart] goes, [reply] the outcome of the
    initial registration. *)
Definition main_step (built : bool) (reply : Status * RegisterResponse.t) (p : process)
    : outcome process :=
  let goto ss place p := mret (with_main (at_ ss place) p) in
  match main p with
  | at_ (s :: ss) place => p ← log s p; goto ss place p
  | at_ [] Initializing =>
      goto [(Logger.info, lidar, 264%Z, "==========================================");
            (Logger.info, lidar, 265%Z, "  D-RoCM LIDAR Node (Resilient Mode)");
            (Logger.info, lidar, 266%Z, "==========================================")]
        Building (with_logger (Logger.init_default (logger p)).2 p)
  | at_ [] Building =>
      goto [(Logger.info, lidar, 274%Z, "[LIDAR] Node server listening on 0.0.0.0:50052")]
        SpawningMetrics (with_server (if built then Some BuildAndStart else None) p)
  | at_ [] SpawningMetrics => goto [] Registering (with_metrics (Some (at_ [] Opening)) p)
  | at_ [] Registering =>
      let c := client p in
      let '(_, ok, session_id) :=
        LidarClient.try_register_node "lidar_01" 50052 (LidarClient.session_id c) reply in
      let p := with_client (LidarClient.mk session_id (LidarClient.consecutive_failures c)
                              (LidarClient.needs_reregister c)) p in
      if ok then
        goto [(Logger.info, lidar, 175%Z, "[LIDAR] Re-registration success. New session: {}");
              (Logger.info, lidar, 333%Z, "[LIDAR] Initial registration success. Session: {}")]
          SpawningHeartbeat p
      else
        goto [(Logger.warn, lidar, 179%Z, "[LIDAR] Re-registration failed: {}");
              (Logger.error, lidar, 336%Z, "[LIDAR] Initial registration failed. Heartbeat thread will attempt recovery.")]
          SpawningHeartbeat p
  | at_ [] SpawningHeartbeat =>
      goto [(Logger.info, lidar, 345%Z, "[LIDAR] Node is RUNNING. Press Ctrl+C to stop.")]
        AwaitingSignal (with_heartbeat (Some (at_ [] AtHead)) p)
  | at_ [] AwaitingSignal =>
      if g_running p then mret p
      else goto [(Logger.info, lidar, 351%Z, "[LIDAR] Shutdown initiated...")] CallingShutdown p
  | at_ [] CallingShutdown =>
      match server p with
      | None => Fault NullDeref
      | Some s => goto [] InShutdown (with_server (Some (server_Shutdown s)) p)
      end
  | at_ [] InShutdown =>
      match server p with
      | None => Fault NullDeref
      | Some s =>
          if shutdown_returns s then
            goto [(Logger.info, lidar, 355%Z, "[LIDAR] Server stopped accepting new requests.")]
              StoppingHeartbeat p
          else mret p
      end
  | at_ [] StoppingHeartbeat =>
      goto [] JoiningHeartbeat
        (mk_process (g_running p) false (logger p) (server p) (collector p) (served p)
           (client p) (sent p) (main p) (heartbeat p) (metrics p) (handlers p))
  | at_ [] JoiningHeartbeat =>
      if heartbeat_done (heartbeat p) then goto [] JoiningMetrics p else mret p
  | at_ [] JoiningMetrics => if metrics_done (metrics p) then goto [] InWait p else mret p
  | at_ [] InWait =>
      match server p with
      | None => Fault NullDeref
      | Some s =>
          if wait_returns s then
            goto [(Logger.info, lidar, 371%Z, "[LIDAR] Node exited gracefully.")] ShuttingLogger p
          else mret p
      end
  | at_ [] ShuttingLogger => goto [] Exited (with_logger (Logger.shutdown (logger p)) p)
  | at_ [] Exited => mret p
  end.

(** *** The heartbeat thread *)

(** The log statements after a Heartbeat call; [c] and [c'] are the variables before
    and after. *)
Definition beat_logs (ok : bool) (c c' : LidarClient.t) : list statement :=
  if ok then
    (if (0 <? LidarClient.consecutive_failures c)%Z
     then [(Logger.info, lidar, 229%Z, "[LIDAR] Connection recovered after {} failures.")] else [])
    ++ [(Logger.debug, lidar, 232%Z, "[LIDAR] Heartbeat OK (missed={})")]
  else
    (Logger.warn, lidar, 239%Z, "[LIDAR] Heartbeat failed ({}/{}): {}. Retrying in {}ms...")
    :: (if (LidarClient.max_retries <=? LidarClient.consecutive_failures c')%Z
        then [(Logger.error, lidar, 243%Z,
               "[LIDAR] Registry unreachable after {} attempts. Triggering re-registration.")]
        else []).

(** A step of the heartbeat thread; of [it] only the outcomes of the two calls and the
    clock are used, the flags are the process's. *)
Definition heartbeat_step (it : LidarClient.turn) (p : process) : outcome process :=
  let goto ss place p := mret (with_heartbeat (Some (at_ ss place)) p) in
  let c := client p in
  match heartbeat p with
  | None => mret p
  | Some (at_ (s :: ss) place) => p ← log s p; goto ss place p
  | Some (at_ [] AtHead) =>
      if heartbeat_running p && g_running p then
        if LidarClient.needs_reregister c then
          goto [(Logger.info, lidar, 198%Z, "[LIDAR] Attempting to re-register with Registry...")]
            ReRegistering p
        else goto [] Beating p
      else goto [(Logger.info, lidar, 253%Z, "[LIDAR] Heartbeat thread exited safely.")] HeartbeatDone p
  | Some (at_ [] ReRegistering) =>
      let '(acts, ok, session_id) :=
        LidarClient.try_register_node "lidar_01" 50052 (LidarClient.session_id c)
          (LidarClient.register_reply it) in
      if ok then
        goto [(Logger.info, lidar, 175%Z, "[LIDAR] Re-registration success. New session: {}");
              (Logger.info, lidar, 202%Z, "[LIDAR] Re-registration successful, resuming heartbeats.")]
          Beating (with_sent acts (with_client (LidarClient.mk session_id 0 false) p))
      else
        goto [(Logger.warn, lidar, 179%Z, "[LIDAR] Re-registration failed: {}");
              (Logger.warn, lidar, 205%Z, "[LIDAR] Re-registration failed, will retry after backoff.")]
          AtHead (with_sent (acts ++ [LidarClient.SleptFor 2000]) p)
  | Some (at_ [] Beating) =>
      let '(acts, c') := LidarClient.beat "lidar_01" it c in
      goto (beat_logs (LidarClient.beat_ok it) c c') AtHead (with_sent acts (with_client c' p))
  | Some (at_ [] HeartbeatDone) => mret p
  end.

(** *** The metrics thread *)

(** A step of the metrics thread; [ok] is how its system call went. *)
Definition metrics_step (ok : bool) (p : process) : outcome process :=
  let goto ss place p := mret (with_metrics (Some (at_ ss place)) p) in
  match metrics p with
  | None => mret p
  | Some (at_ (s :: ss) place) => p ← log s p; goto ss place p
  | Some (at_ [] Opening) => goto [] (if ok then Binding else MetricsDone) p
  | Some (at_ [] Binding) =>
      if ok then goto [] Listening p
      else goto [(Logger.warn, lidar, 291%Z, "[LIDAR] Failed to bind metrics port 9090")] MetricsDone p
  | Some (at_ [] Listening) =>
      if ok then
        goto [(Logger.info, lidar, 301%Z,
               "[LIDAR] Prometheus metrics exposed at http://localhost:9090/metrics")] MetricsHead p
      else goto [] MetricsDone p
  | Some (at_ [] MetricsHead) => goto [] (if g_running p then Accepting else MetricsDone) p
  | Some (at_ [] Accepting) => goto [] (if ok then Serving else MetricsHead) p
  | Some (at_ [] Serving) =>
      goto [] MetricsHead
        (mk_process (g_running p) (heartbeat_running p) (logger p) (server p) (collector p)
           (served p ++ [serve_metrics (collector p)]) (client p) (sent p) (main p) (heartbeat p)
           (metrics p) (handlers p))
  | Some (at_ [] MetricsDone) => mret p
  end.

(** *** The handlers *)

(** A step of handler [i]; [read] and [write] are what [Read] and [Write] return. *)
Definition handler_step (i : nat) (read write : bool) (p : process) : outcome process :=
  let goto ss place p := mret (with_handlers (<[i := at_ ss place]> (handlers p)) p) in
  match handlers p !! i with
  | None => mret p
  | Some (at_ (s :: ss) place) => p ← log s p; goto ss place p
  | Some (at_ [] (SubHead failures)) =>
      goto [] (if g_running p then SubWriting failures else Returning) p
  | Some (at_ [] (SubWriting failures)) =>
      if write then
        goto [] (SubHead 0)
          (mk_process (g_running p) (heartbeat_running p) (logger p) (server p)
             (Metrics.increment_messages_sent (collector p)) (served p) (client p) (sent p) (main p)
             (heartbeat p) (metrics p) (handlers p))
      else if (LidarNodeService.kMaxBackpressureRetries <=? failures + 1)%Z then
        goto [(Logger.warn, lidar, 96%Z,
               "[LIDAR] Connection dropped due to backpressure ({} consecutive failures)")]
          Returning p
      else
        goto [(Logger.debug, lidar, 102%Z,
               "[LIDAR] Backpressure detected, backing off {}ms (retry {}/{})")]
          (SubHead (failures + 1)) p
  | Some (at_ [] (CtlReading pending)) =>
      if negb read then
        goto [(Logger.info, lidar, 141%Z, "[LIDAR] Bidirectional stream closed")] Returning p
      else if (LidarNodeService.kMaxPending <=? pending)%Z then
        goto [(Logger.warn, lidar, 130%Z, "[LIDAR] Backpressure: too many pending commands")]
          (CtlReading pending) p
      else goto [] (CtlWriting (pending + 1)) p
  | Some (at_ [] (CtlWriting pending)) =>
      if write then goto [] (CtlReading (pending - 1)) p
      else goto [(Logger.info, lidar, 141%Z, "[LIDAR] Bidirectional stream closed")] Returning p
  | Some (at_ [] Returning) => goto [] Returned (with_server (call_ends i <$> server p) p)
  | Some (at_ [] Returned) => mret p
  end.

(** *** The process *)

Inductive choice :=
  | Signal
  | Arrives (r : rpc)
  | MainSteps (built : bool) (reply : Status * RegisterResponse.t)
  | HeartbeatSteps (it : LidarClient.turn)
  | MetricsSteps (ok : bool)
  | HandlerSteps (i : nat) (read write : bool).

(** A signal stores false in [g_running], once [signal] has been called ([main] calls
    it right after [Logger::init]; earlier, the default action ends the process).  A
    call that arrives gets a handler if the server takes it. *)
Definition step (c : choice) (p : process) : outcome process :=
  match c with
  | Signal =>
      mret (match pc (main p) with
            | Initializing => p
            | _ => mk_process (LidarMain.signal_handler (g_running p)) (heartbeat_running p)
                     (logger p) (server p) (collector p) (served p) (client p) (sent p) (main p)
                     (heartbeat p) (metrics p) (handlers p)
            end)
  | Arrives r =>
      mret (match s ← server p; call_begins (length (handlers p)) s with
            | Some s => with_handlers (handlers p ++ [handler r]) (with_server (Some s) p)
            | None => p
            end)
  | MainSteps built reply => main_step built reply p
  | HeartbeatSteps it => heartbeat_step it p
  | MetricsSteps ok => metrics_step ok p
  | HandlerSteps i read write => handler_step i read write p
  end.

End process.

Arguments process {_}.
Arguments choice {_}.

(** A run of a schedule. *)
Abbreviation run := (run_steps step).

(** ** The invariant *)

(** How far [main] is. *)
Definition stage (place : main_pc) : nat :=
  match place with
  | Initializing => 0 | Building => 1 | SpawningMetrics => 2 | Registering => 3
  | SpawningHeartbeat => 4 | AwaitingSignal => 5 | CallingShutdown => 6 | InShutdown => 7
  | StoppingHeartbeat => 8 | JoiningHeartbeat => 9 | JoiningMetrics => 10 | InWait => 11
  | ShuttingLogger => 12 | Exited => 13
  end.

(** The address is free. *)
Definition server_built {G : GrpcStatus} (c : choice) : Prop :=
  match c with MainSteps built _ => built = true | _ => True end.

Section invariant.
  Context `{G : GrpcStatus} `{SL : SyncServerLaws}.

Implicit Type p : process.

Definition at_stage p : nat := stage (pc (main p)).

(** What holds of each part of the process when [main] is at stage [n]. *)
Definition server_at (n : nat) (o : option Server) (ths : list (thread handler_pc)) : Prop :=
  match o with
  | None => n ≤ 1 ∧ ths = []
  | Some s =>
      2 ≤ n ∧ serves Returned (7 ≤ n) (8 ≤ n) s ths
  end.

Definition heartbeat_at (n : nat) (o : option (thread heartbeat_pc)) : Prop :=
  match o with
  | None => n ≤ 4
  | Some th => 5 ≤ n ∧ (10 ≤ n → th = at_ [] HeartbeatDone)
  end.

Definition metrics_at (n : nat) (o : option (thread metrics_pc)) : Prop :=
  match o with
  | None => n ≤ 2
  | Some th => 3 ≤ n ∧ (11 ≤ n → th = at_ [] MetricsDone)
  end.

Record process_inv p : Prop := {
  inv_logger : logger_at 12 (at_stage p) (logs (main p)) (logger p);
  inv_server : server_at (at_stage p) (server p) (handlers p);
  inv_heartbeat : heartbeat_at (at_stage p) (heartbeat p);
  inv_metrics : metrics_at (at_stage p) (metrics p);
  inv_returned : Forall (λ th, pc th = Returned → logs th = []) (handlers p);
}.

Lemma start_inv : process_inv start.
Proof.
  split; unfold at_stage, logger_at; simpl; [|by split; [lia|]|lia|lia|done].
  split; [lia|]. intros _. split; [|done]. repeat split.
Qed.

Lemma logging s p :
  Logger.up (logger p) → ∃ l, log s p = Ok (with_logger l p) ∧ Logger.up l.
Proof.
  intros Hup. unfold log. destruct (say_up s (logger p) Hup) as (l & -> & Hl). by exists l.
Qed.

Lemma inv_up p : process_inv p → 1 ≤ at_stage p ≤ 12 → Logger.up (logger p).
Proof. intros Hinv. apply (inv_logger p Hinv). Qed.

Lemma heartbeat_done_iff o : heartbeat_done o = true ↔ o = Some (at_ [] HeartbeatDone).
Proof. destruct o as [[[|s ss] []]|]; by split. Qed.

Lemma metrics_done_iff o : metrics_done o = true ↔ o = Some (at_ [] MetricsDone).
Proof. destruct o as [[[|s ss] []]|]; by split. Qed.

(** *** The steps of [main] *)

Lemma server_next n n' o ths :
  server_at n o ths → 2 ≤ n ≤ n' → (7 ≤ n' → 7 ≤ n) → (8 ≤ n' → 8 ≤ n) → server_at n' o ths.
Proof.
  unfold server_at. destruct o as [s|]; [|lia]. intros [_ Hs] Hn H7 H8.
  split; [lia|]. eapply serves_iff; [exact Hs| |exact H8]. split; [lia|done].
Qed.

Lemma heartbeat_next n n' o :
  heartbeat_at n o → n ≤ n' → (10 ≤ n' → 10 ≤ n) → (n' ≤ 4 ∨ 5 ≤ n) → heartbeat_at n' o.
Proof.
  unfold heartbeat_at. destruct o as [th|]; [|lia]. intros [H5 Hdone] Hn H10 H4.
  split; [lia|]. by intros ?; apply Hdone, H10.
Qed.

Lemma metrics_next n n' o :
  metrics_at n o → n ≤ n' → (11 ≤ n' → 11 ≤ n) → (n' ≤ 2 ∨ 3 ≤ n) → metrics_at n' o.
Proof.
  unfold metrics_at. destruct o as [th|]; [|lia]. intros [H3 Hdone] Hn H11 H2.
  split; [lia|]. by intros ?; apply Hdone, H11.
Qed.

Lemma main_logging p s ss place :
  process_inv p → main p = at_ (s :: ss) place → 1 ≤ at_stage p ≤ 12.
Proof.
  intros Hinv Hmain. pose proof (inv_logger p Hinv) as Hl. rewrite Hmain in Hl.
  by eapply logger_logging.
Qed.

(** The parts a step of [main] does not touch. *)
Ltac untouched :=
  first [ done
        | eapply logger_next; [eassumption|lia|lia]
        | eapply server_next; [eassumption|lia..]
        | eapply heartbeat_next; [eassumption|lia..]
        | eapply metrics_next; [eassumption|lia..] ].

Lemma main_logs_inv l s ss place p :
  process_inv p → main p = at_ (s :: ss) place → Logger.up l →
  process_inv (with_main (at_ ss place) (with_logger l p)).
Proof.
  intros Hinv Hmain Hup. pose proof (main_logging p s ss place Hinv Hmain) as Hst.
  destruct Hinv as [Hl Hs Hh Hm Hr]. unfold at_stage in *. rewrite Hmain in *. simpl in *.
  split; unfold at_stage; simpl; try done. split; [done|lia].
Qed.

Lemma building_inv p ss :
  process_inv p → main p = at_ [] Building → server p = None →
  process_inv (with_main (at_ ss SpawningMetrics) (with_server (Some BuildAndStart) p)).
Proof.
  intros [Hl Hs Hh Hm Hr] Hmain Hnull. unfold at_stage in *.
  rewrite Hmain, Hnull in *. destruct Hs as [_ Hths].
  split; unfold at_stage; simpl in *; rewrite ?Hths in *; try untouched.
  split; [lia|]. eapply serves_iff; [apply serves_built|by split; [|lia]|lia].
Qed.

Lemma closing_inv s p :
  process_inv p → main p = at_ [] CallingShutdown → server p = Some s →
  process_inv (with_main (at_ [] InShutdown) (with_server (Some (server_Shutdown s)) p)).
Proof.
  intros [Hl Hs Hh Hm Hr] Hmain Hsrv. unfold at_stage in *. rewrite Hmain, Hsrv in *.
  destruct Hs as [_ Hs]. split; unfold at_stage; simpl in *; try untouched.
  split; [lia|]. eapply serves_iff; [by apply serves_closes in Hs|by split; [lia|]|lia].
Qed.

Lemma stopping_inv s p ss :
  process_inv p → main p = at_ [] InShutdown → server p = Some s → shutdown_returns s = true →
  process_inv (with_main (at_ ss StoppingHeartbeat) p).
Proof.
  intros [Hl Hs Hh Hm Hr] Hmain Hsrv Hret. unfold at_stage in *. rewrite Hmain, Hsrv in *.
  destruct Hs as [_ Hs]. apply (serves_drains _ _ _ _ _ Hs) in Hret; [|simpl; lia].
  split; unfold at_stage; simpl in *; try untouched. rewrite Hsrv.
  split; [lia|]. eapply serves_iff; [exact Hret|split; lia|done].
Qed.

Lemma main_step_inv built reply p :
  process_inv p → built = true → ∃ p', main_step built reply p = Ok p' ∧ process_inv p'.
Proof.
  intros Hinv ->. unfold main_step. destruct (main p) as [[|s ss] place] eqn:Hmain.
  2: { destruct (logging s p) as (l & -> & Hup); [by eapply inv_up, main_logging|].
       cbn [mbind outcome_bind]. eexists. split; [done|]. by eapply main_logs_inv. }
  pose proof Hinv as [Hl Hs Hh Hm Hr]. unfold at_stage in *. rewrite Hmain in *. simpl in *.
  destruct place; simpl in *.
  all: repeat case_match; try (destruct Hs; lia); eexists; (split; [done|]); try done.
  all: try (split; unfold at_stage; simpl; untouched).
  - split; unfold at_stage; simpl; try untouched.
    + split; [|lia]. intros _. apply Logger.init_up, Hl. by left.
    + destruct (server p); [destruct Hs; lia|split; [lia|by apply Hs]].
  - apply building_inv; try done. by destruct (server p); [destruct Hs; lia|].
  - split; unfold at_stage; simpl; try untouched. split; lia.
  - split; unfold at_stage; simpl; try untouched. split; lia.
  - by apply closing_inv.
  - by eapply stopping_inv.
  - split; unfold at_stage; simpl; try untouched. destruct (heartbeat p); [|simpl in Hh; lia].
    split; [lia|]. intros _. apply (inj Some). by apply heartbeat_done_iff.
  - split; unfold at_stage; simpl; try untouched. destruct (metrics p); [|simpl in Hm; lia].
    split; [lia|]. intros _. apply (inj Some). by apply metrics_done_iff.
  - rewrite <-H in Hs. split; unfold at_stage; simpl; untouched.
  - split; unfold at_stage; simpl; try untouched. split; [lia|]. intros _.
    split; [|done]. apply Logger.shutdown_down, (proj1 Hl). lia.
Qed.

(** *** The steps of the other threads *)

Lemma heartbeat_step_inv it p :
  process_inv p → ∃ p', heartbeat_step it p = Ok p' ∧ process_inv p' ∧ main p' = main p.
Proof.
  intros Hinv. unfold heartbeat_step. destruct (heartbeat p) as [th|] eqn:Hth; [|by exists p].
  pose proof Hinv as [Hl Hs Hh Hm Hr]. rewrite Hth in Hh. destruct Hh as [H5 Hdone].
  assert (th ≠ at_ [] HeartbeatDone → at_stage p ≤ 9) as Hst.
  { intros Hne. destruct (decide (at_stage p ≤ 9)); [done|]. destruct Hne. apply Hdone. lia. }
  assert (∀ th' p', at_stage p ≤ 9 → main p' = main p → logger_at 12 (at_stage p) (logs (main p)) (logger p') →
            server p' = server p → metrics p' = metrics p → handlers p' = handlers p →
            process_inv (with_heartbeat (Some th') p')) as Hgoto.
  { intros th' p' H9 Hmain Hlog Hsrv Hmet Hhs. split; unfold at_stage in *; simpl;
      rewrite ?Hmain, ?Hsrv, ?Hmet, ?Hhs; try done. split; lia. }
  destruct th as [[|s ss] place].
  - destruct place; repeat case_match; eexists; (split; [done|]); (split; [|done]); try done;
      by apply Hgoto; [apply Hst|..].
  - destruct (logging s p) as (l & -> & Hup); [apply inv_up; [done|]; specialize (Hst ltac:(done)); lia|].
    cbn [mbind outcome_bind]. eexists. split; [done|]. split; [|done].
    apply Hgoto; try done; [by apply Hst|]. split; [done|]. specialize (Hst ltac:(done)). lia.
Qed.

Lemma metrics_step_inv ok p :
  process_inv p → ∃ p', metrics_step ok p = Ok p' ∧ process_inv p' ∧ main p' = main p.
Proof.
  intros Hinv. unfold metrics_step. destruct (metrics p) as [th|] eqn:Hth; [|by exists p].
  pose proof Hinv as [Hl Hs Hh Hm Hr]. rewrite Hth in Hm. destruct Hm as [H3 Hdone].
  assert (th ≠ at_ [] MetricsDone → at_stage p ≤ 10) as Hst.
  { intros Hne. destruct (decide (at_stage p ≤ 10)); [done|]. destruct Hne. apply Hdone. lia. }
  assert (∀ th' p', at_stage p ≤ 10 → main p' = main p → logger_at 12 (at_stage p) (logs (main p)) (logger p') →
            server p' = server p → heartbeat p' = heartbeat p → handlers p' = handlers p →
            process_inv (with_metrics (Some th') p')) as Hgoto.
  { intros th' p' H9 Hmain Hlog Hsrv Hbeat Hhs. split; unfold at_stage in *; simpl;
      rewrite ?Hmain, ?Hsrv, ?Hbeat, ?Hhs; try done. split; lia. }
  destruct th as [[|s ss] place].
  - destruct place; repeat case_match; eexists; (split; [done|]); (split; [|done]); try done;
      by apply Hgoto; [apply Hst|..].
  - destruct (logging s p) as (l & -> & Hup); [apply inv_up; [done|]; specialize (Hst ltac:(done)); lia|].
    cbn [mbind outcome_bind]. eexists. split; [done|]. split; [|done].
    apply Hgoto; try done; [by apply Hst|]. split; [done|]. specialize (Hst ltac:(done)). lia.
Qed.

(** While a handler is running, [main] has not got past the server's [Shutdown]. *)
Lemma running_stage p i :
  process_inv p → running Returned (handlers p) i →
  ∃ s, server p = Some s ∧ i ∈ in_progress s ∧ 2 ≤ at_stage p ≤ 7.
Proof.
  intros [_ Hs _ _ _] Hrun. destruct (server p) as [s|]; simpl in Hs.
  - destruct Hs as [H2 Hs]. destruct (serves_running _ _ _ _ _ _ Hs Hrun) as [Hin H8].
    exists s. split_and!; [done|done|done|lia].
  - destruct Hs as [_ Hths], Hrun as (th & Hi & _). by rewrite Hths in Hi.
Qed.

(** A handler that stays in its call moves. *)
Lemma with_handler_inv p p' i th th' :
  process_inv p → handlers p !! i = Some th → th ≠ at_ [] Returned →
  pc th' ≠ Returned →
  main p' = main p → server p' = server p → heartbeat p' = heartbeat p →
  metrics p' = metrics p → handlers p' = handlers p → Logger.up (logger p') →
  process_inv (with_handlers (<[i := th']> (handlers p')) p').
Proof.
  intros Hinv Hi Hne Hne' Hmain Hsrv Hbeat Hmet Hhs Hup.
  destruct (running_stage p i Hinv) as (s & Hs' & _ & Hst); [by exists th|].
  destruct Hinv as [Hl Hs Hh Hm Hr]. unfold at_stage in *.
  split; unfold at_stage; simpl; rewrite ?Hmain, ?Hsrv, ?Hbeat, ?Hmet, ?Hhs; try done.
  - split; [done|lia].
  - rewrite Hs' in *. destruct Hs as [H2 Hs]. split; [done|].
    eapply serves_moves; [done..|by intros ->].
  - by apply Forall_insert.
Qed.

Lemma handler_returns_inv i p :
  process_inv p → handlers p !! i = Some (at_ [] Returning) →
  process_inv (with_handlers (<[i := at_ [] Returned]> (handlers p))
                 (with_server (call_ends i <$> server p) p)).
Proof.
  intros Hinv Hi.
  destruct (running_stage p i Hinv) as (s & Hsrv & _ & Hst); [by exists (at_ [] Returning)|].
  destruct Hinv as [Hl Hs Hh Hm Hr]. unfold at_stage in *.
  split; unfold at_stage; simpl; try done; [|by apply Forall_insert].
  rewrite Hsrv in *. simpl in *. destruct Hs as [H2 Hs].
  split; [done|]. by eapply serves_returns.
Qed.

Lemma handler_step_inv i read write p :
  process_inv p →
  ∃ p', handler_step i read write p = Ok p' ∧ process_inv p' ∧ main p' = main p.
Proof.
  intros Hinv. unfold handler_step.
  destruct (handlers p !! i) as [th|] eqn:Hi; [|by exists p].
  destruct (decide (pc th = Returned)) as [Hret|Hne].
  { pose proof (inv_returned p Hinv) as Hr. rewrite Forall_lookup in Hr.
    specialize (Hr _ _ Hi Hret). destruct th as [ss place]. simpl in *. subst. by exists p. }
  destruct (running_stage p i Hinv) as (srv & Hsrv & Hin & Hst); [exists th; split; [done|by intros ->]|].
  assert (Logger.up (logger p)) as Hup by (apply inv_up; [done|lia]).
  assert (∀ p' th', main p' = main p → server p' = server p → heartbeat p' = heartbeat p →
            metrics p' = metrics p → handlers p' = handlers p → Logger.up (logger p') →
            pc th' ≠ Returned → process_inv (with_handlers (<[i := th']> (handlers p')) p')) as Hgoto.
  { intros. eapply (with_handler_inv p); try done. by intros ->. }
  destruct th as [[|s ss] place].
  - destruct (decide (place = Returning)) as [->|Hplace].
    { eexists. split; [done|]. split; [exact (handler_returns_inv i p Hinv Hi)|done]. }
    destruct place; try done; repeat case_match; eexists; (split; [done|]); (split; [by apply Hgoto|done]).
  - destruct (logging s p Hup) as (l & -> & Hup'). cbn [mbind outcome_bind].
    eexists. split; [done|]. split; [|done]. by apply (Hgoto (with_logger l p)).
Qed.

Lemma arrival_inv s s' r p :
  process_inv p → server p = Some s → call_begins (length (handlers p)) s = Some s' →
  process_inv (with_handlers (handlers p ++ [handler r]) (with_server (Some s') p)).
Proof.
  intros [Hl Hs Hh Hm Hr] Hsrv Hbeg.
  rewrite Hsrv in Hs. destruct Hs as [H2 Hs]. unfold at_stage in *.
  split; unfold at_stage; simpl; try done.
  - split; [done|]. eapply serves_arrives; [done|lia|done|by destruct r].
  - apply Forall_app. split; [done|]. constructor; [by destruct r|done].
Qed.

(** No step faults, and every step keeps the invariant; only [main] moves [main]. *)
Lemma process_step_inv c p :
  process_inv p → server_built c →
  ∃ p', step c p = Ok p' ∧ process_inv p'
    ∧ match c with MainSteps _ _ => True | _ => main p' = main p end.
Proof.
  intros Hinv Hbuilt. destruct c as [|r|built reply|it|ok|i read write]; simpl.
  - eexists. split; [done|]. destruct Hinv as [Hl Hs Hh Hm Hr]. by destruct (pc (main p)).
  - eexists. split; [done|]. destruct (server p) as [s|] eqn:Hsrv; [|done]. cbn [mbind option_bind].
    destruct (call_begins _ s) as [s'|] eqn:Hbeg; [|done]. split; [|done]. by eapply arrival_inv.
  - destruct (main_step_inv built reply p Hinv Hbuilt) as (p' & ? & ?). by exists p'.
  - by apply heartbeat_step_inv.
  - by apply metrics_step_inv.
  - by apply handler_step_inv.
Qed.

Lemma run_inv cs p :
  process_inv p → Forall server_built cs → ∃ p', run cs p = Ok p' ∧ process_inv p'.
Proof.
  apply run_steps_inv. intros c q Hq Hc.
  destruct (process_step_inv c q Hq Hc) as (q' & Hstep & Hinv & _). by exists q'.
Qed.

End invariant.

(** ** Progress after the signal *)

Inductive lidar_tid := MainThread | HeartbeatThread | MetricsThread | HandlerThread (i : nat).

#[global] Instance lidar_tid_eq_dec : EqDecision lidar_tid.
Proof. solve_decision. Defined.

Section progress.
  Context `{G : GrpcStatus} `{SL : SyncServerLaws}.

Implicit Type p : process.

(** The thread that a choice moves. *)
Definition moved (c : choice) : option lidar_tid :=
  match c with
  | Signal | Arrives _ => None
  | MainSteps _ _ => Some MainThread
  | HeartbeatSteps _ => Some HeartbeatThread
  | MetricsSteps _ => Some MetricsThread
  | HandlerSteps i _ _ => Some (HandlerThread i)
  end.

Definition arrives (c : choice) : nat := match c with Arrives _ => 1 | _ => 0 end.

(** The clients have closed their control streams: [Read] returns false. *)
Definition hung_up (c : choice) : Prop :=
  match c with HandlerSteps _ read _ => read = false | _ => True end.

(** How many steps a thread has to go once [g_running] is false. *)
Definition main_rank (place : main_pc) : nat :=
  match place with
  | Initializing => 30 | Building => 26 | SpawningMetrics => 24 | Registering => 18
  | SpawningHeartbeat => 15 | AwaitingSignal => 11 | CallingShutdown => 9 | InShutdown => 8
  | StoppingHeartbeat => 6 | JoiningHeartbeat => 5 | JoiningMetrics => 4 | InWait => 3
  | ShuttingLogger => 1 | Exited => 0
  end.

Definition heartbeat_rank (place : heartbeat_pc) : nat :=
  match place with AtHead => 2 | ReRegistering => 8 | Beating => 5 | HeartbeatDone => 0 end.

Definition metrics_rank (place : metrics_pc) : nat :=
  match place with
  | Opening => 5 | Binding => 4 | Listening => 3 | MetricsHead => 1 | Accepting => 3
  | Serving => 2 | MetricsDone => 0
  end.

Definition handler_rank (place : handler_pc) : nat :=
  match place with
  | SubHead _ => 2 | SubWriting _ => 4 | CtlReading _ => 3 | CtlWriting _ => 4
  | Returning => 1 | Returned => 0
  end.

Definition process_rank p : nat :=
  thread_rank main_rank (main p)
  + from_option (thread_rank heartbeat_rank) 0 (heartbeat p)
  + from_option (thread_rank metrics_rank) 0 (metrics p)
  + sum_list_with (thread_rank handler_rank) (handlers p).

(** A thread that is not waiting and not done. *)
Definition main_ready p : bool :=
  match main p with
  | at_ (_ :: _) _ => true
  | at_ [] AwaitingSignal => negb (g_running p)
  | at_ [] InShutdown => from_option shutdown_returns false (server p)
  | at_ [] JoiningHeartbeat => heartbeat_done (heartbeat p)
  | at_ [] JoiningMetrics => metrics_done (metrics p)
  | at_ [] InWait => from_option wait_returns false (server p)
  | at_ [] Exited => false
  | at_ [] _ => true
  end.

Definition can_move (t : lidar_tid) p : Prop :=
  match t with
  | MainThread => main_ready p = true
  | HeartbeatThread => is_Some (heartbeat p) ∧ heartbeat_done (heartbeat p) = false
  | MetricsThread => is_Some (metrics p) ∧ metrics_done (metrics p) = false
  | HandlerThread i => running Returned (handlers p) i
  end.

(** What a log statement leaves alone: everything but the logger. *)
Lemma log_inv s p p' : log s p = Ok p' → ∃ l, p' = with_logger l p.
Proof.
  unfold log. destruct (say s (logger p)) as [l|]; simpl; [|done]. intros [= <-]. by exists l.
Qed.

(** *** What each thread's step does to the others *)

Lemma main_step_effect built reply p p' :
  process_inv p → main_step built reply p = Ok p' →
  g_running p' = g_running p ∧ handlers p' = handlers p
  ∧ (heartbeat p' = heartbeat p ∨ heartbeat p = None ∧ heartbeat p' = Some (at_ [] AtHead))
  ∧ (metrics p' = metrics p ∨ metrics p = None ∧ metrics p' = Some (at_ [] Opening)).
Proof.
  intros Hinv. pose proof (inv_heartbeat p Hinv) as Hh. pose proof (inv_metrics p Hinv) as Hm.
  unfold at_stage in *. unfold main_step.
  destruct (main p) as [[|s ss] place] eqn:Hmain; simpl in *.
  2: { destruct (log s p) as [p1|] eqn:Hlog; [|done]. apply log_inv in Hlog as [l ->].
       intros [= <-]. simpl. by auto. }
  destruct place; intros Heq; branches Heq; auto 10.
  - destruct (metrics p); [simpl in Hm; lia|auto 10].
  - destruct (heartbeat p); [simpl in Hh; lia|auto 10].
Qed.

Lemma heartbeat_step_effect it p p' :
  heartbeat_step it p = Ok p' →
  g_running p' = g_running p ∧ handlers p' = handlers p ∧ metrics p' = metrics p
  ∧ server p' = server p
  ∧ (heartbeat_done (heartbeat p) = true ∨ heartbeat p = None → p' = p).
Proof.
  unfold heartbeat_step. destruct (heartbeat p) as [[[|s ss] place]|] eqn:Hth.
  - destruct place; intros Heq; branches Heq; (split_and!; [done..|]); by intros [|].
  - destruct (log s p) as [p1|] eqn:Hlog; [|done]. apply log_inv in Hlog as [l ->].
    intros [= <-]. split_and!; [done..|]. by intros [|].
  - by intros [= <-].
Qed.

Lemma metrics_step_effect ok p p' :
  metrics_step ok p = Ok p' →
  g_running p' = g_running p ∧ handlers p' = handlers p ∧ heartbeat p' = heartbeat p
  ∧ server p' = server p
  ∧ (metrics_done (metrics p) = true ∨ metrics p = None → p' = p).
Proof.
  unfold metrics_step. destruct (metrics p) as [[[|s ss] place]|] eqn:Hth.
  - destruct place; intros Heq; branches Heq; (split_and!; [done..|]); by intros [|].
  - destruct (log s p) as [p1|] eqn:Hlog; [|done]. apply log_inv in Hlog as [l ->].
    intros [= <-]. split_and!; [done..|]. by intros [|].
  - by intros [= <-].
Qed.

Lemma handler_step_effect i read write p p' :
  handler_step i read write p = Ok p' →
  g_running p' = g_running p ∧ heartbeat p' = heartbeat p ∧ metrics p' = metrics p
  ∧ length (handlers p') = length (handlers p)
  ∧ (∀ j, j ≠ i → handlers p' !! j = handlers p !! j)
  ∧ (¬ running Returned (handlers p) i → p' = p).
Proof.
  unfold handler_step. destruct (handlers p !! i) as [[[|s ss] place]|] eqn:Hi.
  - assert (place ≠ Returned → running Returned (handlers p) i) as Hrun.
    { intros Hne. exists (at_ [] place). split; [done|]. by intros [=]. }
    destruct place; intros Heq; branches Heq;
      split_and!; try done; try (by rewrite length_insert);
      try (by intros; rewrite list_lookup_insert_ne); intros Hn; by destruct Hn; apply Hrun.
  - destruct (log s p) as [p1|] eqn:Hlog; [|done]. apply log_inv in Hlog as [l ->].
    intros [= <-]. simpl. split_and!; try done; [by rewrite length_insert|by intros; rewrite list_lookup_insert_ne|].
    intros Hn. destruct Hn. by exists (at_ (s :: ss) place).
  - by intros [= <-].
Qed.

(** *** The ranks *)

Lemma main_step_rank reply p p' :
  process_inv p → g_running p = false → main_step true reply p = Ok p' →
  process_rank p' + (if main_ready p then 1 else 0) ≤ process_rank p.
Proof.
  intros Hinv Hstop Hstep. destruct (main_step_effect _ _ _ _ Hinv Hstep) as (_ & Hhs & Hbeat & Hmet).
  unfold main_step in Hstep. unfold process_rank, main_ready. rewrite Hhs.
  destruct (main p) as [[|s ss] place] eqn:Hmain.
  2: { destruct (log s p) as [p1|] eqn:Hlog; [|done]. apply log_inv in Hlog as [l ->].
       injection Hstep as <-. simpl. unfold thread_rank. simpl. lia. }
  destruct place; branches Hstep; rewrite ?Hmain; unfold thread_rank in *; simpl in *; 
    repeat match goal with H : ?x = _ |- context [?x] => rewrite H end; simpl; try lia.
  all: destruct Hbeat as [Hbeat|[-> Hbeat]], Hmet as [Hmet|[-> Hmet]]; simplify_eq/=; lia.
Qed.

Lemma beat_logs_length ok c c' : length (beat_logs ok c c') ≤ 2.
Proof. unfold beat_logs. destruct ok; case_match; simpl; lia. Qed.

Lemma heartbeat_step_rank it p p' :
  g_running p = false → heartbeat_step it p = Ok p' →
  process_rank p' ≤ process_rank p ∧ (can_move HeartbeatThread p → process_rank p' < process_rank p).
Proof.
  intros Hstop Hstep. unfold heartbeat_step in Hstep. unfold process_rank, can_move.
  destruct (heartbeat p) as [[[|s ss] place]|] eqn:Hth; simpl.
  - destruct place; branches Hstep; rewrite ?Hth; unfold thread_rank; simpl;
      rewrite ?Hstop, ?andb_false_r in *; try done;
      try match goal with |- context [beat_logs ?ok ?c ?c'] => pose proof (beat_logs_length ok c c') end;
      (split; [lia|]); intros [_ Hdone]; (done || lia).
  - destruct (log s p) as [p1|] eqn:Hlog; [|done]. apply log_inv in Hlog as [l ->].
    injection Hstep as <-. unfold thread_rank. simpl. lia.
  - injection Hstep as <-. rewrite Hth. split; [done|]. by intros [[? [=]] _].
Qed.

Lemma metrics_step_rank ok p p' :
  g_running p = false → metrics_step ok p = Ok p' →
  process_rank p' ≤ process_rank p ∧ (can_move MetricsThread p → process_rank p' < process_rank p).
Proof.
  intros Hstop Hstep. unfold metrics_step in Hstep. unfold process_rank, can_move. rewrite Hstop in Hstep.
  destruct (metrics p) as [[[|s ss] place]|] eqn:Hth; simpl.
  - destruct place; branches Hstep; rewrite ?Hth; unfold thread_rank; simpl;
      (split; [lia|]); intros [_ Hdone]; (done || lia).
  - destruct (log s p) as [p1|] eqn:Hlog; [|done]. apply log_inv in Hlog as [l ->].
    injection Hstep as <-. unfold thread_rank. simpl. lia.
  - injection Hstep as <-. rewrite Hth. split; [done|]. by intros [[? [=]] _].
Qed.

Lemma handler_step_rank i write p p' :
  g_running p = false → handler_step i false write p = Ok p' →
  process_rank p' ≤ process_rank p ∧ (can_move (HandlerThread i) p → process_rank p' < process_rank p).
Proof.
  intros Hstop Hstep. unfold handler_step in Hstep. unfold process_rank, can_move. rewrite Hstop in Hstep.
  destruct (handlers p !! i) as [[[|s ss] place]|] eqn:Hi; simpl.
  - pose proof (λ th', total_rank_insert handler_rank _ _ _ th' Hi) as Hsum.
    destruct place; branches Hstep;
      try match goal with |- context [<[i := ?th']> _] => specialize (Hsum th') end;
      unfold thread_rank in *; simpl in *; (split; [lia|]);
      intros (th & Hth & Hne); simplify_eq; (done || lia).
  - destruct (log s p) as [p1|] eqn:Hlog; [|done]. apply log_inv in Hlog as [l ->].
    pose proof (total_rank_insert handler_rank _ _ _ (at_ ss place) Hi).
    injection Hstep as <-. unfold thread_rank in *. simpl in *. lia.
  - injection Hstep as <-. split; [done|]. intros (th & Hth & _). congruence.
Qed.

(** One step, when [g_running] is false and no stream is read from. *)
Lemma step_rank c p p' :
  process_inv p → g_running p = false → server_built c → hung_up c → step c p = Ok p' →
  g_running p' = false ∧ process_rank p' ≤ process_rank p + 4 * arrives c
  ∧ (∀ t, moved c = Some t → can_move t p → process_rank p' < process_rank p).
Proof.
  intros Hinv Hstop Hbuilt Hhung Hstep.
  destruct c as [|r|built reply|it|ok|i read write]; simpl in *.
  - injection Hstep as <-. split_and!; [by destruct (pc (main p))|rewrite Nat.add_0_r|done].
    by destruct (pc (main p)).
  - injection Hstep as <-.
    destruct (s ← server p; call_begins (length (handlers p)) s) as [s'|]; [|by split_and!; [|lia|]].
    split_and!; [done| |done]. unfold process_rank. simpl. rewrite sum_list_with_app.
    destruct r; unfold thread_rank; simpl; lia.
  - subst built. pose proof (main_step_rank _ _ _ Hinv Hstop Hstep) as Hrank.
    destruct (main_step_effect _ _ _ _ Hinv Hstep) as (-> & _).
    split_and!; [done|lia|]. intros t [= <-] Hready. simpl in Hready. rewrite Hready in Hrank. lia.
  - destruct (heartbeat_step_rank _ _ _ Hstop Hstep).
    destruct (heartbeat_step_effect _ _ _ Hstep) as (-> & _).
    split_and!; [done|lia|]. by intros t [= <-].
  - destruct (metrics_step_rank _ _ _ Hstop Hstep).
    destruct (metrics_step_effect _ _ _ Hstep) as (-> & _).
    split_and!; [done|lia|]. by intros t [= <-].
  - subst read. destruct (handler_step_rank _ _ _ _ Hstop Hstep).
    destruct (handler_step_effect _ _ _ _ _ Hstep) as (-> & _).
    split_and!; [done|lia|]. by intros t [= <-].
Qed.

(** *** A thread that can move can move until it does *)

Lemma done_heartbeat_stays c p p' :
  moved c ≠ Some MainThread → step c p = Ok p' →
  heartbeat_done (heartbeat p) = true → heartbeat_done (heartbeat p') = true.
Proof.
  intros Hwho Hstep Hdone. destruct c as [|r|built reply|it|ok|i read write]; simpl in *; try done.
  - injection Hstep as <-. by destruct (pc (main p)).
  - injection Hstep as <-. by destruct (s ← server p; call_begins (length (handlers p)) s).
  - destruct (heartbeat_step_effect _ _ _ Hstep) as (_ & _ & _ & _ & ->); by auto.
  - by destruct (metrics_step_effect _ _ _ Hstep) as (_ & _ & -> & _).
  - by destruct (handler_step_effect _ _ _ _ _ Hstep) as (_ & -> & _).
Qed.

Lemma done_metrics_stays c p p' :
  moved c ≠ Some MainThread → step c p = Ok p' →
  metrics_done (metrics p) = true → metrics_done (metrics p') = true.
Proof.
  intros Hwho Hstep Hdone. destruct c as [|r|built reply|it|ok|i read write]; simpl in *; try done.
  - injection Hstep as <-. by destruct (pc (main p)).
  - injection Hstep as <-. by destruct (s ← server p; call_begins (length (handlers p)) s).
  - by destruct (heartbeat_step_effect _ _ _ Hstep) as (_ & _ & -> & _).
  - destruct (metrics_step_effect _ _ _ Hstep) as (_ & _ & _ & _ & ->); by auto.
  - by destruct (handler_step_effect _ _ _ _ _ Hstep) as (_ & _ & -> & _).
Qed.

(** A server that is shut down, without calls, stays as it is. *)
Lemma drained_server_stays c p p' s :
  process_inv p → moved c ≠ Some MainThread → step c p = Ok p' →
  server p = Some s → shut_down s = true → in_progress s = ∅ → server p' = Some s.
Proof.
  intros Hinv Hwho Hstep Hsrv Hshut Hnone.
  destruct c as [|r|built reply|it|ok|i read write]; simpl in *; try done.
  - injection Hstep as <-. by destruct (pc (main p)).
  - injection Hstep as <-. rewrite Hsrv. cbn [mbind option_bind].
    destruct (call_begins _ s) as [s'|] eqn:Hbeg; [|done].
    apply begins_law in Hbeg as [Hopen _]. congruence.
  - by destruct (heartbeat_step_effect _ _ _ Hstep) as (_ & _ & _ & -> & _).
  - by destruct (metrics_step_effect _ _ _ Hstep) as (_ & _ & _ & -> & _).
  - destruct (handler_step_effect _ _ _ _ _ Hstep) as (_ & _ & _ & _ & _ & ->); [done|].
    intros Hrun. destruct (running_stage p i Hinv Hrun) as (s' & Hs' & Hin & _).
    rewrite Hsrv in Hs'. injection Hs' as <-. rewrite Hnone in Hin. by apply elem_of_empty in Hin.
Qed.

Lemma handler_stays c p p' i th :
  process_inv p → moved c ≠ Some (HandlerThread i) → step c p = Ok p' →
  handlers p !! i = Some th → handlers p' !! i = Some th.
Proof.
  intros Hinv Hwho Hstep Hi. destruct c as [|r|built reply|it|ok|j read write]; simpl in *.
  - injection Hstep as <-. by destruct (pc (main p)).
  - injection Hstep as <-. destruct (s ← server p; call_begins (length (handlers p)) s); [|done].
    by apply lookup_app_l_Some.
  - by destruct (main_step_effect _ _ _ _ Hinv Hstep) as (_ & -> & _).
  - by destruct (heartbeat_step_effect _ _ _ Hstep) as (_ & -> & _).
  - by destruct (metrics_step_effect _ _ _ Hstep) as (_ & -> & _).
  - destruct (handler_step_effect _ _ _ _ _ Hstep) as (_ & _ & _ & _ & Hsame & _).
    rewrite Hsame; [done|]. by intros ->.
Qed.

Lemma main_stays_ready c p p' :
  process_inv p → moved c ≠ Some MainThread → step c p = Ok p' → main p' = main p →
  g_running p' = false → main_ready p = true → main_ready p' = true.
Proof.
  intros Hinv Hwho Hstep Hmain Hstop. unfold main_ready. rewrite Hmain.
  pose proof (inv_server p Hinv) as Hs. unfold at_stage in Hs.
  destruct (main p) as [[|s ss] place]; [|done]. destruct place; try done; simpl in *.
  - by rewrite Hstop.
  - destruct (server p) as [s|] eqn:Hsrv; [|done]. destruct Hs as (_ & Hshut & _). simpl. intros Hret.
    assert (shut_down s = true) as Hs by (apply Hshut; lia).
    rewrite (drained_server_stays c p p' s); try done. by apply shutdown_returns_law.
  - by apply (done_heartbeat_stays c).
  - by apply (done_metrics_stays c).
  - destruct (server p) as [s|] eqn:Hsrv; [|done]. simpl. intros Hret.
    pose proof (proj1 (wait_returns_law s) Hret) as [Hshut Hnone].
    by rewrite (drained_server_stays c p p' s).
Qed.

Lemma stays_ready c t p p' :
  process_inv p → server_built c → moved c ≠ Some t → step c p = Ok p' → g_running p' = false →
  can_move t p → can_move t p'.
Proof.
  intros Hinv Hbuilt Hwho Hstep Hstop. destruct t as [| | |i]; simpl.
  - destruct (process_step_inv c p Hinv Hbuilt) as (p1 & Hp1 & _ & Hmain). rewrite Hstep in Hp1.
    injection Hp1 as <-. intros Hready. eapply main_stays_ready; try done.
    destruct c; try done.
  - intros Hready. destruct c as [|r|built reply|it|ok|j read write]; simpl in *; try done.
    + injection Hstep as <-. by destruct (pc (main p)).
    + injection Hstep as <-. by destruct (s ← server p; call_begins (length (handlers p)) s).
    + destruct (main_step_effect _ _ _ _ Hinv Hstep) as (_ & _ & [->|[_ ->]] & _); [done|].
      by split.
    + by destruct (metrics_step_effect _ _ _ Hstep) as (_ & _ & -> & _).
    + by destruct (handler_step_effect _ _ _ _ _ Hstep) as (_ & -> & _).
  - intros Hready. destruct c as [|r|built reply|it|ok|j read write]; simpl in *; try done.
    + injection Hstep as <-. by destruct (pc (main p)).
    + injection Hstep as <-. by destruct (s ← server p; call_begins (length (handlers p)) s).
    + destruct (main_step_effect _ _ _ _ Hinv Hstep) as (_ & _ & _ & [->|[_ ->]]); [done|].
      by split.
    + by destruct (heartbeat_step_effect _ _ _ Hstep) as (_ & _ & -> & _).
    + by destruct (handler_step_effect _ _ _ _ _ Hstep) as (_ & _ & -> & _).
  - intros (th & Hi & Hne). exists th. split; [by eapply handler_stays|done].
Qed.

(** As long as [main] has not exited, some thread can move. *)
Lemma somebody_can_move p :
  process_inv p → g_running p = false → main p ≠ at_ [] Exited →
  ∃ t, can_move t p ∧ ∀ i, t = HandlerThread i → i < length (handlers p).
Proof.
  intros Hinv Hstop Hne. destruct (main_ready p) eqn:Hready; [by exists MainThread|].
  pose proof (inv_server p Hinv) as Hs. pose proof (inv_heartbeat p Hinv) as Hh.
  pose proof (inv_metrics p Hinv) as Hm. unfold at_stage, main_ready in *.
  destruct (main p) as [[|s ss] place]; [|done]. destruct place; simpl in *; try done.
  - by rewrite Hstop in Hready.
  - destruct (server p) as [s|]; [|simpl in Hs; lia]. destruct Hs as (_ & Hshut & _ & Hin).
    simpl in Hready. destruct (decide (in_progress s = ∅)) as [Hnone|Hsome].
    + apply shutdown_returns_law in Hnone; [congruence|]. apply Hshut. lia.
    + apply set_choose_L in Hsome as [i Hi]. apply Hin in Hi. exists (HandlerThread i).
      split; [done|]. intros j [= <-]. destruct Hi as (th & Hi & _). by eapply lookup_lt_Some.
  - destruct (heartbeat p) as [th|] eqn:Hth; [|simpl in Hh; lia]. exists HeartbeatThread.
    unfold can_move. rewrite Hth. by split_and!.
  - destruct (metrics p) as [th|] eqn:Hth; [|simpl in Hm; lia]. exists MetricsThread.
    unfold can_move. rewrite Hth. by split_and!.
  - destruct (server p) as [s|]; [|simpl in Hs; lia]. destruct Hs as (_ & Hshut & Hnone & _).
    simpl in Hready. rewrite (proj2 (wait_returns_law s)) in Hready; [done|].
    split; [apply Hshut; lia|apply Hnone; lia].
Qed.

(** *** The process as a program that finishes *)

Lemma handlers_grow c p p' :
  process_inv p → step c p = Ok p' →
  length (handlers p) ≤ length (handlers p') ≤ length (handlers p) + arrives c.
Proof.
  intros Hinv Hstep. destruct c as [|r|built reply|it|ok|j read write]; simpl in *.
  - injection Hstep as <-. destruct (pc (main p)); simpl; lia.
  - injection Hstep as <-. destruct (s ← server p; call_begins (length (handlers p)) s); [|lia].
    simpl. rewrite length_app. simpl. lia.
  - destruct (main_step_effect _ _ _ _ Hinv Hstep) as (_ & -> & _). lia.
  - destruct (heartbeat_step_effect _ _ _ Hstep) as (_ & -> & _). lia.
  - destruct (metrics_step_effect _ _ _ Hstep) as (_ & -> & _). lia.
  - destruct (handler_step_effect _ _ _ _ _ Hstep) as (_ & _ & _ & -> & _). lia.
Qed.

Lemma exited_stays c p p' :
  process_inv p → server_built c → step c p = Ok p' → main p = at_ [] Exited → main p' = at_ [] Exited.
Proof.
  intros Hinv Hb Hstep Hmain. destruct (process_step_inv c p Hinv Hb) as (p1 & Hp1 & _ & Hsame).
  rewrite Hstep in Hp1. injection Hp1 as <-.
  destruct c; try by rewrite Hsame. simpl in Hstep. unfold main_step in Hstep.
  rewrite Hmain in Hstep. by injection Hstep as <-.
Qed.

Definition main_exited p : bool := match main p with at_ [] Exited => true | _ => false end.

Lemma main_exited_iff p : main_exited p = true ↔ main p = at_ [] Exited.
Proof. unfold main_exited. by destruct (main p) as [[|s ss] []]. Qed.

#[global] Instance lidar_program : FairProgram process choice := {|
  tid := lidar_tid;
  do := step;
  who := moved;
  arrived := arrives;
  tids N := MainThread :: HeartbeatThread :: MetricsThread :: (HandlerThread <$> seq 0 N);
  population p := length (handlers p);
  ready := can_move;
  rank := process_rank;
  arrival_rank := 4;
  finished := main_exited;
|}.

#[global, refine] Instance lidar_program_laws : FairProgramLaws lidar_program := {|
  holds p := process_inv p ∧ g_running p = false;
  allowed c := hung_up c ∧ server_built c;
|}.
Proof.
  - intros n m Hnm t. simpl. rewrite !elem_of_cons, !list_elem_of_fmap.
    intros [?|[?|[?|(i & -> & Hi)]]]; auto. do 3 right. exists i. split; [done|].
    apply elem_of_seq in Hi. apply elem_of_seq. lia.
  - intros c p [Hinv Hstop] [Hhung Hb].
    destruct (process_step_inv c p Hinv Hb) as (p' & Hstep & Hinv' & _).
    destruct (step_rank c p p') as (Hstop' & Hle & Hlt); try done.
    pose proof (handlers_grow c p p' Hinv Hstep). exists p'. simpl. split_and!; try done; [lia| |].
    + rewrite !main_exited_iff. by apply (exited_stays c).
    + intros t Ht. case_decide as Hwho; [by apply (Hlt t)|by apply (stays_ready c t p)].
  - by intros [].
  - intros p [Hinv Hstop] Hfin.
    destruct (somebody_can_move p) as (t & Ht & Hi); [done|done| |].
    { intros Hex%main_exited_iff. simpl in Hfin. congruence. }
    exists t. split; [done|]. simpl. rewrite !elem_of_cons. destruct t as [| | |i]; auto. do 3 right.
    apply list_elem_of_fmap. exists i. split; [done|]. apply elem_of_seq.
    specialize (Hi i eq_refl). lia.
  - intros p Hfin. simpl in *. unfold process_rank, thread_rank. unfold main_exited in Hfin.
    destruct (main p) as [[|s ss] []]; simpl; (done || lia).
Defined.

(** A round: fair, the server built, and the control streams closed. *)
Definition round_ok (N : nat) (round : list choice) : Prop :=
  fair N round ∧ Forall (λ c, hung_up c ∧ server_built c) round.

(** *** How far the threads can be *)

Record bounded p : Prop := {
  bounded_main : thread_rank main_rank (main p) ≤ 30;
  bounded_heartbeat : from_option (thread_rank heartbeat_rank) 0 (heartbeat p) ≤ 9;
  bounded_metrics : from_option (thread_rank metrics_rank) 0 (metrics p) ≤ 5;
  bounded_handlers : Forall (λ th, thread_rank handler_rank th ≤ 4) (handlers p);
}.

Lemma bounded_rank p : bounded p → process_rank p ≤ 44 + 4 * length (handlers p).
Proof.
  intros [Hmain Hbeat Hmet Hhs]. unfold process_rank.
  pose proof (total_rank_bound handler_rank 4 (handlers p) Hhs). lia.
Qed.

Lemma main_step_bounded built reply p p' :
  process_inv p → bounded p → main_step built reply p = Ok p' → bounded p'.
Proof.
  intros Hinv [Hmain Hbeat Hmet Hhs] Hstep.
  destruct (main_step_effect _ _ _ _ Hinv Hstep) as (_ & Hsame & Hb & Hm).
  split; [|destruct Hb as [->|[_ ->]]; [done|unfold thread_rank; simpl; lia]
          |destruct Hm as [->|[_ ->]]; [done|unfold thread_rank; simpl; lia]|by rewrite Hsame].
  unfold main_step in Hstep. destruct (main p) as [[|s ss] place] eqn:Hpl.
  - destruct place; branches Hstep; rewrite ?Hpl; unfold thread_rank in *; simpl in *; lia.
  - destruct (log s p) as [p1|] eqn:Hlog; [|done]. apply log_inv in Hlog as [l ->].
    injection Hstep as <-. unfold thread_rank in *. simpl in *. lia.
Qed.

Lemma heartbeat_step_bounded it p p' : bounded p → heartbeat_step it p = Ok p' → bounded p'.
Proof.
  intros [Hmain Hbeat Hmet Hhs] Hstep. unfold heartbeat_step in Hstep.
  destruct (heartbeat p) as [[[|s ss] place]|] eqn:Hth.
  - destruct place; branches Hstep; split; rewrite ?Hth; simpl; try done;
      unfold thread_rank in *; simpl in *;
      try match goal with |- context [beat_logs ?ok ?c ?c'] => pose proof (beat_logs_length ok c c') end;
      lia.
  - destruct (log s p) as [p1|] eqn:Hlog; [|done]. apply log_inv in Hlog as [l ->].
    injection Hstep as <-. split; try done. unfold thread_rank in *. simpl in *. lia.
  - injection Hstep as <-. split; try done. rewrite Hth. simpl. lia.
Qed.

Lemma metrics_step_bounded ok p p' : bounded p → metrics_step ok p = Ok p' → bounded p'.
Proof.
  intros [Hmain Hbeat Hmet Hhs] Hstep. unfold metrics_step in Hstep.
  destruct (metrics p) as [[[|s ss] place]|] eqn:Hth.
  - destruct place; branches Hstep; split; rewrite ?Hth; simpl; try done;
      unfold thread_rank in *; simpl in *; lia.
  - destruct (log s p) as [p1|] eqn:Hlog; [|done]. apply log_inv in Hlog as [l ->].
    injection Hstep as <-. split; try done. unfold thread_rank in *. simpl in *. lia.
  - injection Hstep as <-. split; try done. rewrite Hth. simpl. lia.
Qed.

Lemma handler_step_bounded i read write p p' :
  bounded p → handler_step i read write p = Ok p' → bounded p'.
Proof.
  intros [Hmain Hbeat Hmet Hhs] Hstep. unfold handler_step in Hstep.
  destruct (handlers p !! i) as [[[|s ss] place]|] eqn:Hi; [| |by injection Hstep as <-].
  - destruct place; branches Hstep; split; try done; simpl; apply Forall_insert; try done;
      unfold thread_rank; simpl; lia.
  - destruct (log s p) as [p1|] eqn:Hlog; [|done]. apply log_inv in Hlog as [l ->].
    injection Hstep as <-. split; try done. simpl. apply Forall_insert; [done|].
    rewrite Forall_lookup in Hhs. specialize (Hhs _ _ Hi). unfold thread_rank in *. simpl in *. lia.
Qed.

Lemma step_bounded c p p' : process_inv p → bounded p → step c p = Ok p' → bounded p'.
Proof.
  intros Hinv Hb Hstep. destruct c as [|r|built reply|it|ok|j read write]; simpl in Hstep.
  - injection Hstep as <-. destruct Hb. by destruct (pc (main p)).
  - injection Hstep as <-. destruct Hb as [Hmain Hbeat Hmet Hhs].
    destruct (s ← server p; call_begins (length (handlers p)) s); [|done].
    split; try done. apply Forall_app. split; [done|]. constructor; [|done].
    destruct r; unfold thread_rank; simpl; lia.
  - by eapply main_step_bounded.
  - by eapply heartbeat_step_bounded.
  - by eapply metrics_step_bounded.
  - by eapply handler_step_bounded.
Qed.

Lemma reachable cs p :
  Forall server_built cs → run cs start = Ok p → process_inv p ∧ bounded p.
Proof.
  intros Hb. assert (bounded start) as Hb0 by (split; unfold thread_rank; simpl; (done || lia)).
  revert Hb0. generalize start_inv. generalize start as q0.
  induction Hb as [|c cs Hc _ IH]; intros q Hinv Hq Hrun; simpl in Hrun.
  { by injection Hrun as <-. }
  destruct (process_step_inv c q Hinv Hc) as (q1 & Hstep & Hinv1 & _). rewrite Hstep in Hrun.
  eapply (IH q1); [done| |done]. by apply (step_bounded c q q1).
Qed.

(** A handler, and the metrics thread, stay where they are while they are not moved. *)
Lemma handler_stays_run cs p p' i th :
  process_inv p → Forall server_built cs → Forall (λ c, moved c ≠ Some (HandlerThread i)) cs →
  run cs p = Ok p' → handlers p !! i = Some th → handlers p' !! i = Some th.
Proof.
  intros Hinv Hb. revert p Hinv. induction Hb as [|c cs Hc _ IH]; intros p Hinv Hwho Hrun Hi;
    simpl in Hrun; [by injection Hrun as <-|].
  apply Forall_cons in Hwho as [Hwc Hwho].
  destruct (process_step_inv c p Hinv Hc) as (p1 & Hstep & Hinv1 & _). rewrite Hstep in Hrun.
  apply (IH p1); try done. by apply (handler_stays c p).
Qed.

Lemma metrics_stays_run cs p p' th :
  process_inv p → Forall server_built cs → Forall (λ c, moved c ≠ Some MetricsThread) cs →
  run cs p = Ok p' → metrics p = Some th → metrics p' = Some th.
Proof.
  intros Hinv Hb. revert p Hinv. induction Hb as [|c cs Hc _ IH]; intros p Hinv Hwho Hrun Hm;
    simpl in Hrun; [by injection Hrun as <-|].
  apply Forall_cons in Hwho as [Hwc Hwho].
  destruct (process_step_inv c p Hinv Hc) as (p1 & Hstep & Hinv1 & _). rewrite Hstep in Hrun.
  apply (IH p1); try done. rewrite <-Hm. clear IH Hrun.
  destruct c as [|r|built reply|it|ok|j read write]; simpl in *; try done.
  - injection Hstep as <-. by destruct (pc (main p)).
  - injection Hstep as <-. by destruct (s ← server p; call_begins (length (handlers p)) s).
  - destruct (main_step_effect _ _ _ _ Hinv Hstep) as (_ & _ & _ & [?|[? _]]); congruence.
  - by destruct (heartbeat_step_effect _ _ _ Hstep) as (_ & _ & -> & _).
  - by destruct (handler_step_effect _ _ _ _ _ Hstep) as (_ & _ & -> & _).
Qed.

(** *** The heartbeat thread against its loop *)

(** Where the process is in a history of the iterations of [run_heartbeat] (Lidar),
    which begins with the session id that the registration in [main] has left. *)
Definition heartbeat_matches p : Prop :=
  match heartbeat p with
  | None =>
      sent p = [] ∧ ∃ session_id, client p = LidarClient.mk session_id 0 false
      ∧ (at_stage p ≤ 3 → session_id = "pending")
      ∧ (at_stage p = 4 →
           ∃ reply, session_id = (LidarClient.try_register_node "lidar_01" 50052 "pending" reply).2)
  | Some th =>
      ∃ reply its acts c exited,
        LidarClient.run_heartbeat "lidar_01" 50052
          (LidarClient.try_register_node "lidar_01" 50052 "pending" reply).2 its = (acts, c, exited)
        ∧ match pc th with
          | AtHead => exited = false ∧ sent p = acts ∧ client p = c
          | ReRegistering =>
              exited = false ∧ sent p = acts ∧ client p = c ∧ LidarClient.needs_reregister c = true
          | Beating =>
              exited = false
              ∧ (LidarClient.needs_reregister c = false ∧ sent p = acts ∧ client p = c
                 ∨ ∃ reply' acts' session_id', LidarClient.needs_reregister c = true
                   ∧ LidarClient.try_register_node "lidar_01" 50052 (LidarClient.session_id c) reply'
                     = (acts', true, session_id')
                   ∧ sent p = acts ++ acts' ∧ client p = LidarClient.mk session_id' 0 false)
          | HeartbeatDone => exited = true ∧ sent p = acts ∧ client p = c
          end
  end.

Lemma main_step_matches built reply p p' :
  process_inv p → main_step built reply p = Ok p' → heartbeat_matches p → heartbeat_matches p'.
Proof.
  intros Hinv Hstep. pose proof (inv_heartbeat p Hinv) as Hh.
  unfold heartbeat_matches, at_stage, main_step in *.
  destruct (main p) as [[|s ss] place] eqn:Hmain.
  2: { destruct (log s p) as [p1|] eqn:Hlog; [|done]. apply log_inv in Hlog as [l ->].
       by injection Hstep as <-. }
  destruct place; branches Hstep; rewrite ?Hmain; simpl in *; try done.
  all: destruct (heartbeat p) as [th|]; try done; simpl in Hh; try lia.
  all: intros (Hsent & sid & Hc & Hp & Hr).
  all: try (split; [done|]; exists sid; split_and!; [done|by auto|lia]).
  3: { destruct (Hr eq_refl) as [reply' ->]. by exists reply', [], [], (client p), false; rewrite Hc. }
  all: rewrite Hp, Hc in * by lia; simpl in *.
  all: split; [done|]; eexists; split_and!; [done|lia|].
  all: intros _; exists reply; by match goal with H : LidarClient.try_register_node _ _ _ _ = _ |- _ => rewrite H end.
Qed.

Lemma loop_running its c acts c' :
  LidarClient.heartbeat_loop "lidar_01" 50052 its c = (acts, c', false) →
  Forall (λ it, turn_taken it = true) its.
Proof.
  revert c acts. induction its as [|it its IH]; intros c acts; simpl; [done|].
  destruct (_ && _) eqn:Htaken; [|done].
  destruct (LidarClient.body _ _ it c) as [acts1 c1].
  destruct (LidarClient.heartbeat_loop _ _ its c1) as [[acts2 c2] ex] eqn:Hrest.
  intros [= <- <- ->]. constructor; [done|]. by eapply IH.
Qed.

Lemma run_heartbeat_snoc sid its it acts c :
  LidarClient.run_heartbeat "lidar_01" 50052 sid its = (acts, c, false) →
  LidarClient.run_heartbeat "lidar_01" 50052 sid (its ++ [it])
  = if turn_taken it then
      let '(acts', c') := LidarClient.body "lidar_01" 50052 it c in (acts ++ acts', c', false)
    else (acts, c, true).
Proof.
  unfold LidarClient.run_heartbeat. intros Hrun.
  rewrite heartbeat_loop_app by by eapply loop_running. rewrite Hrun. simpl.
  unfold turn_taken. destruct (_ && _); [|by rewrite app_nil_r].
  destruct (LidarClient.body _ _ it c) as [acts' c']. by rewrite app_nil_r.
Qed.

(** A turn of the loop put together from what its two calls returned. *)
Definition turn_of (reply : Status * RegisterResponse.t) (it : LidarClient.turn) : LidarClient.turn :=
  LidarClient.mk_turn true true reply (LidarClient.now it) (LidarClient.heartbeat_reply it).

Lemma beat_turn_of reply it c :
  LidarClient.beat "lidar_01" (turn_of reply it) c = LidarClient.beat "lidar_01" it c.
Proof. done. Qed.

Lemma heartbeat_step_matches it p p' :
  heartbeat_step it p = Ok p' → heartbeat_matches p → heartbeat_matches p'.
Proof.
  intros Hstep. unfold heartbeat_matches, heartbeat_step in *.
  destruct (heartbeat p) as [[[|s ss] place]|] eqn:Hth.
  2: { destruct (log s p) as [p1|] eqn:Hlog; [|done]. apply log_inv in Hlog as [l ->].
       by injection Hstep as <-. }
  2: { injection Hstep as <-. by rewrite Hth. }
  intros (reply & its & acts & c & exited & Hrun & Hm). simpl in Hm.
  destruct place; branches Hstep; rewrite ?Hth; simpl.
  - exists reply, its, acts, c, exited. destruct Hm as (? & ? & ?). subst. by split_and!.
  - exists reply, its, acts, c, exited. destruct Hm as (? & ? & ?). subst. split_and!; [done..|by left].
  - destruct Hm as (? & ? & ?). subst.
    set (it' := LidarClient.mk_turn (heartbeat_running p) (g_running p) reply 0 (Status_OK, HeartbeatResponse.empty)).
    exists reply, (its ++ [it']), (sent p), (client p), true. split; [|done].
    rewrite (run_heartbeat_snoc _ _ _ _ _ Hrun). unfold turn_taken. simpl. by rewrite Heqb.
  - destruct Hm as (? & ? & ? & Hneeds). subst.
    exists reply, its, (sent p), (client p), false. split_and!; [done|done|].
    right. by exists (LidarClient.register_reply it), l, s.
  - destruct Hm as (? & ? & ? & Hneeds). subst.
    exists reply, (its ++ [turn_of (LidarClient.register_reply it) it]).
    eexists _, _, false. rewrite (run_heartbeat_snoc _ _ _ _ _ Hrun). simpl.
    unfold LidarClient.body. rewrite Hneeds. simpl. rewrite Heqp0. by split_and!.
  - destruct Hm as (-> & [(Hneeds & ? & ?)|(reply' & acts' & sid' & Hneeds & Htry & Hsent & Hc)]).
    + subst. exists reply, (its ++ [turn_of (LidarClient.register_reply it) it]).
      eexists _, _, false. rewrite (run_heartbeat_snoc _ _ _ _ _ Hrun). simpl.
      unfold LidarClient.body. rewrite Hneeds. rewrite beat_turn_of, Heqp0. by split_and!.
    + exists reply, (its ++ [turn_of reply' it]).
      eexists _, _, false. rewrite (run_heartbeat_snoc _ _ _ _ _ Hrun). simpl.
      unfold LidarClient.body. rewrite Hneeds. simpl. rewrite Htry. rewrite Hc in Heqp0.
      rewrite beat_turn_of, Heqp0. rewrite Hsent. split_and!; [done|done|by rewrite <-app_assoc|done].
  - by exists reply, its, acts, c, exited.
Qed.

Lemma step_matches c p p' :
  process_inv p → step c p = Ok p' → heartbeat_matches p → heartbeat_matches p'.
Proof.
  intros Hinv Hstep Hm. destruct c as [|r|built reply|it|ok|i read write]; simpl in Hstep.
  - injection Hstep as <-. by destruct (pc (main p)).
  - injection Hstep as <-. by destruct (s ← server p; call_begins (length (handlers p)) s).
  - by eapply main_step_matches.
  - by eapply heartbeat_step_matches.
  - unfold metrics_step in Hstep. destruct (metrics p) as [[[|s ss] place]|]; [|
      destruct (log s p) as [p1|] eqn:Hlog; [|done]; apply log_inv in Hlog as [l ->]|];
      [destruct place|..]; by branches Hstep.
  - unfold handler_step in Hstep. destruct (handlers p !! i) as [[[|s ss] place]|]; [|
      destruct (log s p) as [p1|] eqn:Hlog; [|done]; apply log_inv in Hlog as [l ->]|];
      [destruct place|..]; by branches Hstep.
Qed.


(** * Properties *)

(** C16: no thread logs after the logger is down.  Whatever the schedule of the
    threads, the calls of clients, the outcomes of the calls the process makes and
    the moment of the signal: if the server could be built, no statement of any thread
    dereferences a null pointer, be it the logger's instance or the server; and when
    [main] has shut the logger down, the heartbeat thread, the metrics thread and all
    handlers have returned. *)
Theorem no_log_after_shutdown cs :
  Forall server_built cs →
  ∃ p, run cs start = Ok p
    ∧ (pc (main p) = Exited →
         Logger.down (logger p)
         ∧ heartbeat p = Some (at_ [] HeartbeatDone) ∧ metrics p = Some (at_ [] MetricsDone)
         ∧ ∀ i, ¬ running Returned (handlers p) i).
Proof.
  intros Hb. destruct (run_inv cs start start_inv Hb) as (p & Hrun & Hinv).
  exists p. split; [done|]. intros Hex.
  assert (at_stage p = 13) as Hst by (unfold at_stage; by rewrite Hex).
  split_and!.
  - apply (inv_logger p Hinv). lia.
  - pose proof (inv_heartbeat p Hinv) as Hh. rewrite Hst in Hh.
    destruct (heartbeat p); [|simpl in Hh; lia]. f_equal. apply Hh. lia.
  - pose proof (inv_metrics p Hinv) as Hm. rewrite Hst in Hm.
    destruct (metrics p); [|simpl in Hm; lia]. f_equal. apply Hm. lia.
  - intros i Hrunning. destruct (running_stage p i Hinv Hrunning) as (s & _ & _ & ?). lia.
Qed.

(** C18: the signal does not end the process by itself.  Suppose that from some point
    on a handler's call does not return: a client keeps its control stream open and
    sends nothing, or does not read its subscription.  Then, whatever else happens,
    signals included, [main] never gets past [Server::Shutdown].  And if the metrics
    thread is in [accept] and nobody connects any more, [main] never gets past the join
    of that thread.  The logger stays up in both cases. *)
Theorem exit_waits cs cs' p :
  Forall server_built (cs ++ cs') → run cs start = Ok p →
  ∃ p', run cs' p = Ok p'
    ∧ (∀ i, running Returned (handlers p) i → Forall (λ c, moved c ≠ Some (HandlerThread i)) cs' →
         stage (pc (main p')) ≤ stage InShutdown ∧ Logger.up (logger p'))
    ∧ (metrics p = Some (at_ [] Accepting) → Forall (λ c, moved c ≠ Some MetricsThread) cs' →
         stage (pc (main p')) ≤ stage JoiningMetrics ∧ Logger.up (logger p')).
Proof.
  intros [Hb Hb']%Forall_app Hrun. destruct (reachable cs p Hb Hrun) as [Hinv _].
  destruct (run_inv cs' p Hinv Hb') as (p' & Hrun' & Hinv'). exists p'. split_and!; [done| |].
  - intros i (th & Hi & Hne) Hwho.
    destruct (running_stage p' i Hinv') as (s & _ & _ & Hst).
    { exists th. split; [|done]. by apply (handler_stays_run cs' p). }
    split; [by apply Hst|]. apply inv_up; [done|lia].
  - intros Hm Hwho. pose proof (inv_metrics p' Hinv') as Hm'.
    rewrite (metrics_stays_run cs' p p' (at_ [] Accepting)) in Hm' by done.
    destruct Hm' as [H3 Hdone].
    assert (at_stage p' ≤ 10) as Hst.
    { destruct (decide (at_stage p' ≤ 10)); [done|]. discriminate Hdone. lia. }
    split; [done|]. apply inv_up; [done|lia].
Qed.

(** C17: otherwise it ends, if the server could be built.  From the moment [g_running] is
    false, let the threads move in rounds: in each round every thread moves at least once, in any order and among
    any arrivals of new calls, its blocking call having returned (so somebody connects
    to the metrics port, or [accept] fails), and the control streams have been closed
    by their clients.  If there are never more than [N] calls, then after 44 + 4 N
    rounds [main] has shut the logger down and returned. *)
Theorem exits_after_signal cs p N rounds :
  Forall server_built cs → run cs start = Ok p → g_running p = false →
  Forall (round_ok N) rounds →
  length (handlers p) + arrivals (concat rounds) ≤ N →
  44 + 4 * N ≤ length rounds →
  ∃ p', run (concat rounds) p = Ok p' ∧ main p' = at_ [] Exited ∧ Logger.down (logger p').
Proof.
  intros Hb Hrun Hstop Hok HN Hlen. destruct (reachable cs p Hb Hrun) as [Hinv Hbound].
  apply bounded_rank in Hbound.
  destruct (rounds_finish N rounds p) as (p' & Hrun' & [Hinv' _] & Hmain%main_exited_iff);
    [done|done|done|simpl; lia|].
  exists p'. split_and!; [done|done|]. apply (inv_logger p' Hinv').
  unfold at_stage. rewrite Hmain. simpl. lia.
Qed.

(** C21: the heartbeat thread of the process is the loop of Lidar's [run_heartbeat].  In
    every reachable state of the process, whatever the schedule, what the thread has
    sent and slept and its variables are those of a history of the loop's iterations,
    begun with the session id of the initial registration, up to where the thread is in
    the next; and it has left the loop exactly when that history has.  So what Lidar and
    TimedClient show of the loop holds of the thread in the process. *)
Theorem heartbeat_thread_is_loop cs p :
  Forall server_built cs → run cs start = Ok p → heartbeat_matches p.
Proof.
  intros Hb. assert (heartbeat_matches start) as Hm0.
  { split; [done|]. exists "pending". split_and!; [done|done|]. intros [=]. }
  revert Hm0. generalize start_inv. generalize start as q.
  induction Hb as [|c cs Hc _ IH]; intros q Hinv Hm Hrun; simpl in Hrun; [by injection Hrun as <-|].
  destruct (process_step_inv c q Hinv Hc) as (q1 & Hstep & Hinv1 & _). rewrite Hstep in Hrun.
  apply (IH q1); [done| |done]. by apply (step_matches c q).
Qed.

End progress.

(** * Examples *)

#[local] Instance sample_status : GrpcStatus := concrete_status.
#[local] Instance sample_server : SyncServer := concrete_server.
#[local] Instance sample_server_laws : SyncServerLaws sample_server := concrete_server_laws.

Definition sample_turn : LidarClient.turn :=
  LidarClient.mk_turn true true (Status_OK, RegisterResponse.mk true "lidar_01_42" 1000 "") 7
    (Status_OK, HeartbeatResponse.mk true 0 false).

Definition main_moves : choice :=
  MainSteps true (Status_OK, RegisterResponse.mk true "lidar_01_42" 1000 "").

(** The process comes up, takes a subscription and a control stream, and is told to
    stop; the metrics thread is in [accept]. *)
Definition sample_history : list choice :=
  replicate 12 main_moves ++ [Arrives CallSubscribe; Arrives CallControlStream]
  ++ replicate 2 (HandlerSteps 0 true true) ++ replicate 3 (HandlerSteps 1 true true)
  ++ replicate 5 (MetricsSteps true) ++ replicate 3 (HeartbeatSteps sample_turn) ++ [Signal].

(** A round of the threads, after which another client calls. *)
Definition sample_round : list choice :=
  [HandlerSteps 1 false true; HandlerSteps 0 false true; MetricsSteps true;
   HandlerSteps 2 false true; HeartbeatSteps sample_turn; main_moves].

Definition sample_rounds : list (list choice) :=
  (Arrives CallGetStatus :: sample_round) :: replicate 55 sample_round.

Lemma sample_history_built : Forall server_built sample_history.
Proof. by repeat constructor. Qed.

Lemma sample_rounds_ok : Forall (round_ok 3) sample_rounds.
Proof.
  assert (fair 3 sample_round) as Hfair by (apply (bool_decide_unpack _); by vm_compute).
  assert (Forall (λ c, hung_up c ∧ server_built c) sample_round) as Hround by by repeat constructor.
  constructor; [|by apply Forall_replicate].
  split; [|by constructor].
  eapply Forall_impl; [exact Hfair|]. intros t Ht. by apply elem_of_cons; right.
Qed.

Lemma sample_round_built : Forall server_built (concat sample_rounds).
Proof.
  apply Forall_concat. eapply Forall_impl; [exact sample_rounds_ok|].
  intros ? [_ Hround]. eapply Forall_impl; [exact Hround|]. by intros ? [_ ?].
Qed.

Lemma no_log_after_shutdown_witness :
  ∃ p, run (sample_history ++ concat sample_rounds) start = Ok p
    ∧ pc (main p) = Exited ∧ Logger.down (logger p) ∧ ∀ i, ¬ running Returned (handlers p) i.
Proof.
  destruct (no_log_after_shutdown (sample_history ++ concat sample_rounds)) as (p & Hrun & Hp).
  { apply Forall_app. split; [apply sample_history_built|apply sample_round_built]. }
  exists p. split; [exact Hrun|].
  assert (pc (main p) = Exited) as Hex
    by (apply (seen_ok (λ p, pc (main p)) _ _ _ Hrun); vm_compute; reflexivity).
  destruct (Hp Hex) as (Hdown & _ & _ & Hnone).
  split; [exact Hex|]. split; [exact Hdown|exact Hnone].
Defined.

Definition sample_waiting : list choice :=
  concat (replicate 40 [HandlerSteps 0 false true; MetricsSteps true; main_moves;
                        HeartbeatSteps sample_turn; Signal]).

(** The client of the control stream stays: [main] is in [Shutdown] for good. *)
Lemma exit_waits_witness :
  ∃ p p', run sample_history start = Ok p ∧ run sample_waiting p = Ok p'
    ∧ handlers p !! 1 = Some (at_ [] (CtlReading 0))
    ∧ stage (pc (main p')) ≤ stage InShutdown ∧ Logger.up (logger p').
Proof.
  assert (Forall server_built sample_waiting) as Hb' by by repeat constructor.
  destruct (run_inv sample_history start start_inv sample_history_built) as (p & Hrun & _).
  destruct (exit_waits sample_history sample_waiting p) as (p' & Hrun' & Hhandler & _);
    [apply Forall_app; split; [exact sample_history_built|exact Hb']|exact Hrun|].
  assert (handlers p !! 1 = Some (at_ [] (CtlReading 0))) as Hi
    by (apply (seen_ok (λ p, handlers p !! 1) _ _ _ Hrun); vm_compute; reflexivity).
  exists p, p'. split; [exact Hrun|]. split; [exact Hrun'|]. split; [exact Hi|]. apply (Hhandler 1).
  - exists (at_ [] (CtlReading 0)). split; [exact Hi|discriminate].
  - apply (bool_decide_unpack _); vm_compute; exact I.
Defined.

Lemma exits_after_signal_witness :
  ∃ p p', run sample_history start = Ok p ∧ run (concat sample_rounds) p = Ok p'
    ∧ main p' = at_ [] Exited ∧ Logger.down (logger p').
Proof.
  destruct (run_inv sample_history start start_inv sample_history_built) as (p & Hrun & _).
  destruct (exits_after_signal sample_history p 3 sample_rounds) as (p' & Hrun' & Hmain & Hdown);
    [exact sample_history_built|exact Hrun| |exact sample_rounds_ok| |vm_compute; lia|].
  - apply (seen_ok g_running _ _ _ Hrun). vm_compute. reflexivity.
  - rewrite (seen_ok (λ p, length (handlers p)) _ _ 2 Hrun) by (vm_compute; reflexivity).
    vm_compute. lia.
  - exists p, p'. split; [exact Hrun|]. split; [exact Hrun'|]. split; [exact Hmain|exact Hdown].
Defined.

(** The heartbeat thread does not wait for the calls: it has returned, and the
    registry will drop a node that still serves a stream. *)
Example sample_silent :
  seen (λ p, (pc (main p), heartbeat_done (heartbeat p))) (run (sample_history ++ sample_waiting) start)
  = Ok (InShutdown, true).
Proof. vm_compute. reflexivity. Qed.

(** If nobody connects to the metrics port, [main] stays in the join, the control
    stream closed or not. *)
Example sample_join :
  seen (λ p, pc (main p))
    (run (sample_history
          ++ concat (replicate 40 [HandlerSteps 0 false true; HandlerSteps 1 false true;
                                   main_moves; HeartbeatSteps sample_turn])) start)
  = Ok JoiningMetrics.
Proof. vm_compute. reflexivity. Qed.

(** Two heartbeats that arrive, and the signal: the thread has left its loop. *)
Lemma heartbeat_thread_is_loop_witness :
  ∃ p reply its acts c,
    run (replicate 12 main_moves ++ replicate 6 (HeartbeatSteps sample_turn) ++ [Signal]
         ++ replicate 2 (HeartbeatSteps sample_turn)) start = Ok p
    ∧ LidarClient.run_heartbeat "lidar_01" 50052
        (LidarClient.try_register_node "lidar_01" 50052 "pending" reply).2 its = (acts, c, true)
    ∧ sent p = acts ∧ client p = c ∧ length acts = 4.
Proof.
  set (cs := _ ++ _).
  assert (Forall server_built cs) as Hb by by repeat constructor.
  destruct (run_inv cs start start_inv Hb) as (p & Hrun & _).
  pose proof (heartbeat_thread_is_loop cs p Hb Hrun) as Hm. unfold heartbeat_matches in Hm.
  rewrite (seen_ok heartbeat _ _ (Some (at_ [] HeartbeatDone)) Hrun) in Hm by (vm_compute; reflexivity).
  destruct Hm as (reply & its & acts & c & exited & Hloop & -> & Hsent & Hc).
  exists p, reply, its, acts, c.
  split; [exact Hrun|]. split; [exact Hloop|]. split; [exact Hsent|]. split; [exact Hc|].
  rewrite <-Hsent. apply (seen_ok (λ p, length (sent p)) _ _ _ Hrun). vm_compute. reflexivity.
Defined.
