(* ===== verification/RegistryProcess.v ===== *)
(** * The registry server's process: its threads, the signal, and the end

    src/examples/registry_server.cpp runs [main], the health checker's thread
    (HealthThread's [thread_step]) and a thread of gRPC's for every call of a client,
    all on one registry service.  Here they are step machines under one schedule, with
    every log statement of src/registry and of [main].  A call on the node table is one
    step (TableLock), and so are a look at a flag, a log statement and the return of a
    blocking call; the statements that the table logs under its mutex follow its call.

    Programs' [RegistryServer.main] takes the histories of the process as given, as
    sequences of RegistrySystem's events; here they come out of the schedule.  Whatever
    it is, the registry's state is that of such a history, with the checker's ticks in
    their rounds; nothing logs through the null logger; and, unlike the LIDAR process,
    the server always ends once it is told to: all its calls are unary. *)

From Stdlib Require Import ZArith Lia.
From stdpp Require Import prelude gmap strings list.
From S2P Require Import Prelude UnorderedMap Messages Grpc NodeDir Table Registry Health.
From S2P Require Import HealthThread RegistrySystem Coro Programs Threads.

(** ** The log statements *)

Definition server_cpp : string := "registry_server.cpp".
Definition service_cpp : string := "registry_service.cpp".
Definition table_cpp : string := "node_table.cpp".
Definition checker_cpp : string := "health_checker.cpp".

(** Those of [register_node], given whether it registered and, if not, whether the
    table was full. *)
Definition register_node_logs (registered full : bool) : list statement :=
  if registered then
    [(Logger.info, table_cpp, 38%Z, "[NodeTable] Registered node {} (IP:{}, port:{}, services:{})")]
  else if full then
    [(Logger.warn, table_cpp, 15%Z, "[NodeTable] Table full (max={}), rejecting node {}")]
  else
    [(Logger.warn, table_cpp, 33%Z, "[NodeTable] Node {} already registered (IP:{}, port:{})")].

(** Those of [remove_stale_nodes], given the nodes it removed. *)
Definition remove_stale_logs (removed : list string) : list statement :=
  map (λ _, (Logger.info, table_cpp, 156%Z,
             "[NodeTable] Removing stale node {} (IP:{}, missed_heartbeats={}, last_hb={}s ago)")) removed
  ++ match removed with
     | [] => []
     | _ => [(Logger.warn, table_cpp, 173%Z, "[NodeTable] Removed {} stale nodes (max_missed={})")]
     end.

(** Those of an effect of the checker's thread. *)
Definition effect_logs (e : HealthChecker.effect) : list statement :=
  match e with
  | HealthChecker.Slept _ | HealthChecker.Incremented => []
  | HealthChecker.Removed removed =>
      remove_stale_logs removed
      ++ map (λ _, (Logger.warn, checker_cpp, 75%Z,
                    "[HealthChecker] Node {} timed out, removed from table")) removed
  | HealthChecker.Counted _ =>
      [(Logger.debug, checker_cpp, 81%Z, "[HealthChecker] Tick complete. Online nodes: {}")]
  end.

(** ** The threads *)

(** [main]: before [Logger::init], the two constructors, [BuildAndStart], the exchange
    of the flag in [HealthChecker::start] and the construction of its thread, the
    installation of the signal handlers; in the wait for the signal; before the
    service's [Shutdown] and the server's, in that and in [Wait]; in
    [HealthChecker::stop] before the exchange, [request_stop] and [join]; before the
    node count and [Logger::shutdown]; before the destructors; after them. *)
Inductive main_pc :=
  | Initializing | ConstructingService | ConstructingChecker | Building | StartingChecker
  | SpawningChecker | InstallingHandlers | AwaitingSignal | ClosingService | CallingShutdown
  | InShutdown | InWait | StoppingChecker | RequestingStop | JoiningChecker | CountingNodes
  | ShuttingLogger | Destroying | Done.

(** The calls of the service. *)
Inductive rpc :=
  | CallRegister (req : RegisterRequest.t)
  | CallHeartbeat (req : HeartbeatRequest.t)
  | CallDeregister (req : DeregisterRequest.t)
  | CallDiscover (req : DiscoverRequest.t).

(** A handler: before its first statement; a registration that has seen the flag; before
    the return, and after it. *)
Inductive handler_pc :=
  | Entered (r : rpc)
  | Accepted (req : RegisterRequest.t)
  | Returning
  | Returned.

Section process.
  Context {T : Type} `{NodeDirectory T} `{G : GrpcStatus} `{S : SyncServer}.

(** The process.  [server] is null until it is built; [health] is the checker but for
    its thread, which is [checker] with its stop request; [reported] is the final node
    count that is logged. *)
Record process := mk_process {
  g_running : bool;
  logger : Logger.t;
  service : RegistryService.t T;
  server : option Server;
  health : HealthChecker.t;
  main : thread main_pc;
  checker : option (thread HealthThread.pc * bool);
  handlers : list (thread handler_pc);
  reported : option Z;
}.

Definition start : process :=
  mk_process true Logger.initial (RegistryService.RegistryServiceImpl 10000) None
    (HealthChecker.HealthChecker 1000 3) (at_ [] Initializing) None [] None.

Definition with_logger (l : Logger.t) (p : process) : process :=
  mk_process (g_running p) l (service p) (server p) (health p) (main p) (checker p) (handlers p)
    (reported p).
Definition with_service (s : RegistryService.t T) (p : process) : process :=
  mk_process (g_running p) (logger p) s (server p) (health p) (main p) (checker p) (handlers p)
    (reported p).
Definition with_server (s : option Server) (p : process) : process :=
  mk_process (g_running p) (logger p) (service p) s (health p) (main p) (checker p) (handlers p)
    (reported p).
(** The checker's flag; its members are as the constructor set them. *)
Definition with_flag (b : bool) (p : process) : process :=
  mk_process (g_running p) (logger p) (service p) (server p)
    (HealthChecker.mk (HealthChecker.checker_thread_ (health p)) b
       (HealthChecker.check_interval_ms_ (health p)) (HealthChecker.max_missed_heartbeats_ (health p)))
    (main p) (checker p) (handlers p) (reported p).
Definition with_main (th : thread main_pc) (p : process) : process :=
  mk_process (g_running p) (logger p) (service p) (server p) (health p) th (checker p) (handlers p)
    (reported p).
Definition with_checker (th : option (thread HealthThread.pc * bool)) (p : process) : process :=
  mk_process (g_running p) (logger p) (service p) (server p) (health p) (main p) th (handlers p)
    (reported p).
Definition with_handlers (ths : list (thread handler_pc)) (p : process) : process :=
  mk_process (g_running p) (logger p) (service p) (server p) (health p) (main p) (checker p) ths
    (reported p).
Definition with_reported (n : option Z) (p : process) : process :=
  mk_process (g_running p) (logger p) (service p) (server p) (health p) (main p) (checker p)
    (handlers p) n.

Definition log (s : statement) (p : process) : outcome process :=
  l ← say s (logger p); mret (with_logger l p).

(** Whether the checker's thread has returned, its last log statement included. *)
Definition checker_done (c : option (thread HealthThread.pc * bool)) : bool :=
  match c with Some (at_ [] HealthThread.Exited, _) => true | _ => false end.

(** *** main *)

Definition main_step (built : bool) (p : process) : outcome process :=
  let goto ss place p := mret (with_main (at_ ss place) p) in
  match main p with
  | at_ (s :: ss) place => p ← log s p; goto ss place p
  | at_ [] Initializing =>
      goto [(Logger.info, server_cpp, 32%Z, "==========================================");
            (Logger.info, server_cpp, 33%Z, "  D-RoCM Registry Server (Master Node)");
            (Logger.info, server_cpp, 34%Z, "==========================================")]
        ConstructingService (with_logger (Logger.init_default (logger p)).2 p)
  | at_ [] ConstructingService =>
      goto [(Logger.info, service_cpp, 11%Z, "[Registry] Service initialized (max_nodes={})")]
        ConstructingChecker (with_service (RegistryService.RegistryServiceImpl 10000) p)
  | at_ [] ConstructingChecker =>
      goto [(Logger.info, checker_cpp, 16%Z,
             "[HealthChecker] Initialized (interval={}ms, max_missed={})")] Building p
  | at_ [] Building =>
      goto [(Logger.info, server_cpp, 56%Z, "[Registry] Server listening on {}")]
        StartingChecker (with_server (if built then Some BuildAndStart else None) p)
  | at_ [] StartingChecker =>
      if HealthChecker.is_running_ (health p) then
        goto [(Logger.warn, checker_cpp, 26%Z,
               "[HealthChecker] Already running, ignoring start request")] InstallingHandlers p
      else goto [] SpawningChecker (with_flag true p)
  | at_ [] SpawningChecker =>
      goto [(Logger.info, checker_cpp, 34%Z, "[HealthChecker] Background thread started")]
        InstallingHandlers
        (with_checker
           (Some (at_ [(Logger.info, checker_cpp, 54%Z, "[HealthChecker] Entered monitoring loop")]
                    HealthThread.AtHead, false)) p)
  | at_ [] InstallingHandlers => goto [] AwaitingSignal p
  | at_ [] AwaitingSignal =>
      if g_running p then mret p
      else goto [(Logger.info, server_cpp, 70%Z, "[Registry] Shutting down...")] ClosingService p
  | at_ [] ClosingService =>
      goto (if RegistryService.is_running (service p) then
              [(Logger.info, service_cpp, 144%Z,
                "[Registry] Service shutdown initiated - rejecting new RPC requests")]
            else [(Logger.warn, service_cpp, 141%Z, "[Registry] Shutdown already called, ignoring")])
        CallingShutdown (with_service (RegistryService.Shutdown (service p)) p)
  | at_ [] CallingShutdown =>
      match server p with
      | None => Fault NullDeref
      | Some s => goto [] InShutdown (with_server (Some (server_Shutdown s)) p)
      end
  | at_ [] InShutdown =>
      match server p with
      | None => Fault NullDeref
      | Some s => if shutdown_returns s then goto [] InWait p else mret p
      end
  | at_ [] InWait =>
      match server p with
      | None => Fault NullDeref
      | Some s => if wait_returns s then goto [] StoppingChecker p else mret p
      end
  | at_ [] StoppingChecker =>
      if HealthChecker.is_running_ (health p) then
        goto [(Logger.info, checker_cpp, 41%Z, "[HealthChecker] Shutting down background thread")]
          RequestingStop (with_flag false p)
      else goto [] CountingNodes p
  | at_ [] RequestingStop =>
      match checker p with
      | Some (th, _) => goto [] JoiningChecker (with_checker (Some (th, true)) p)
      | None => goto [] CountingNodes p        (* not joinable *)
      end
  | at_ [] JoiningChecker =>
      if checker_done (checker p) then goto [] CountingNodes p else mret p
  | at_ [] CountingNodes =>
      let node_count := get_node_count (RegistryService.get_node_table (service p)) in
      goto [(Logger.info, server_cpp, 85%Z, "[Registry] Server stopped. Final node count: {}")]
        ShuttingLogger (with_reported (Some node_count) p)
  | at_ [] ShuttingLogger => goto [] Destroying (with_logger (Logger.shutdown (logger p)) p)
  | at_ [] Destroying =>
      (* ~HealthChecker: stop() once more; its log statement would find no logger *)
      if HealthChecker.is_running_ (health p) then
        goto [(Logger.info, checker_cpp, 41%Z, "[HealthChecker] Shutting down background thread")]
          Done (with_flag false p)
      else goto [] Done p
  | at_ [] Done => mret p
  end.

(** *** The checker's thread *)

Definition checker_step (p : process) : outcome process :=
  match checker p with
  | None => mret p
  | Some (at_ (s :: ss) place, stop) =>
      p ← log s p; mret (with_checker (Some (at_ ss place, stop)) p)
  | Some (at_ [] place, stop) =>
      let '(effects, place', tb) :=
        HealthThread.thread_step (health p) stop place (RegistryService.node_table_ (service p)) in
      let exits :=
        match place, place' with
        | HealthThread.Exited, _ => []
        | _, HealthThread.Exited =>
            [(Logger.info, checker_cpp, 84%Z, "[HealthChecker] Monitoring loop exited")]
        | _, _ => []
        end in
      mret (with_checker (Some (at_ (mbind effect_logs effects ++ exits) place', stop))
              (with_service (RegistryService.set_table tb (service p)) p))
  end.

(** *** The handlers *)

(** The statements of [Register] after its look at the flag. *)
Definition register_logs (req : RegisterRequest.t) (ok : bool) (s : RegistryService.t T)
    : list statement :=
  match RegisterRequest.node_info req with
  | None => [(Logger.warn, service_cpp, 27%Z, "[Registry] Register rejected: missing node_info")]
  | Some info =>
      if String.eqb (NodeInfo.node_id info) "" then []
      else
        register_node_logs ok
          (dir_capacity (RegistryService.node_table_ s)
           <=? get_node_count (RegistryService.node_table_ s))%Z
        ++ (if ok then
              [(Logger.info, service_cpp, 55%Z,
                "[Registry] Node {} registered (IP:{}, port:{}, session:{})")]
            else
              [(Logger.warn, service_cpp, 45%Z,
                "[Registry] Register failed for node {} (duplicate/full)")])
  end.

(** A step of handler [i]; [rand] and [now] are what [std::rand] and the clock give. *)
Definition handler_step (i : nat) (rand now : Z) (p : process) : outcome process :=
  let goto ss place p := mret (with_handlers (<[i := at_ ss place]> (handlers p)) p) in
  let s := service p in
  match handlers p !! i with
  | None => mret p
  | Some (at_ (st :: ss) place) => p ← log st p; goto ss place p
  | Some (at_ [] (Entered (CallRegister req))) =>
      if RegistryService.is_running s then goto [] (Accepted req) p
      else
        goto [(Logger.warn, service_cpp, 20%Z,
               "[Registry] Register rejected: service is shutting down")] Returning p
  | Some (at_ [] (Accepted req)) =>
      let '(_, response, s') :=
        RegistryService.Register_admitted req RegisterResponse.empty rand now s in
      goto (register_logs req (RegisterResponse.success response) s) Returning (with_service s' p)
  | Some (at_ [] (Entered (CallHeartbeat req))) =>
      let '(_, response, s') := RegistryService.Heartbeat req HeartbeatResponse.empty now s in
      goto (if HeartbeatResponse.should_reconnect response then
              [(Logger.warn, service_cpp, 82%Z, "[Registry] Heartbeat from unknown node {}")]
            else []) Returning (with_service s' p)
  | Some (at_ [] (Entered (CallDeregister req))) =>
      let '(_, response, s') := RegistryService.Deregister req DeregisterResponse.empty s in
      goto (if DeregisterResponse.success response then
              [(Logger.info, table_cpp, 51%Z, "[NodeTable] Deregistered node {} (IP:{}, port:{})")]
            else []) Returning (with_service s' p)
  | Some (at_ [] (Entered (CallDiscover req))) =>
      let '(_, _, s') := RegistryService.Discover req DiscoverResponse.empty s in
      goto [(Logger.info, service_cpp, 129%Z,
             "[Registry] Discover returned {} nodes (filter_size={})")] Returning (with_service s' p)
  | Some (at_ [] Returning) => goto [] Returned (with_server (call_ends i <$> server p) p)
  | Some (at_ [] Returned) => mret p
  end.

(** *** The process *)

Inductive choice :=
  | Signal
  | Arrives (r : rpc)
  | MainSteps (built : bool)
  | CheckerSteps
  | HandlerSteps (i : nat) (rand now : Z).

(** Whether [main] has called [signal]; before that, a signal ends the process. *)
Definition installed (place : main_pc) : bool :=
  match place with
  | Initializing | ConstructingService | ConstructingChecker | Building | StartingChecker
  | SpawningChecker | InstallingHandlers => false
  | _ => true
  end.

Definition step (c : choice) (p : process) : outcome process :=
  match c with
  | Signal =>
      mret (if installed (pc (main p)) then
              mk_process (RegistryServer.signal_handler (g_running p)) (logger p) (service p)
                (server p) (health p) (main p) (checker p) (handlers p) (reported p)
            else p)
  | Arrives r =>
      mret (match s ← server p; call_begins (length (handlers p)) s with
            | Some s => with_handlers (handlers p ++ [at_ [] (Entered r)]) (with_server (Some s) p)
            | None => p
            end)
  | MainSteps built => main_step built p
  | CheckerSteps => checker_step p
  | HandlerSteps i rand now => handler_step i rand now p
  end.

End process.

Arguments process _ {_}.

(** A run of a schedule. *)
Abbreviation run_process := (run_steps step).

(** ** The invariant *)

(** How far [main] is. *)
Definition stage (place : main_pc) : nat :=
  match place with
  | Initializing => 0 | ConstructingService => 1 | ConstructingChecker => 2 | Building => 3
  | StartingChecker => 4 | SpawningChecker => 5 | InstallingHandlers => 6 | AwaitingSignal => 7
  | ClosingService => 8 | CallingShutdown => 9 | InShutdown => 10 | InWait => 11
  | StoppingChecker => 12 | RequestingStop => 13 | JoiningChecker => 14 | CountingNodes => 15
  | ShuttingLogger => 16 | Destroying => 17 | Done => 18
  end.

(** The address is free. *)
Definition server_built (c : choice) : Prop :=
  match c with MainSteps built => built = true | _ => True end.

Section invariant.
  Context {T : Type} `{NodeDirectoryLaws T} `{G : GrpcStatus} `{SL : SyncServerLaws}.

Implicit Type p : process T.

Definition at_stage p : nat := stage (pc (main p)).

(** What holds of each part of the process when [main] is at stage [n]. *)
Definition server_at (n : nat) (o : option Server) (ths : list (thread handler_pc)) : Prop :=
  match o with
  | None => n ≤ 3 ∧ ths = []
  | Some s => 4 ≤ n ∧ serves Returned (10 ≤ n) (11 ≤ n) s ths
  end.

Definition checker_at (n : nat) (o : option (thread HealthThread.pc * bool)) : Prop :=
  match o with
  | None => n ≤ 5
  | Some (th, stop) => 6 ≤ n ∧ (stop = true ↔ 14 ≤ n) ∧ (15 ≤ n → th = at_ [] HealthThread.Exited)
  end.

Definition health_at (n : nat) (h : HealthChecker.t) : Prop :=
  (HealthChecker.is_running_ h = true ↔ 5 ≤ n ≤ 12)
  ∧ HealthChecker.max_missed_heartbeats_ h = 3%Z.

Definition reported_at (n : nat) (o : option Z) (s : RegistryService.t T) : Prop :=
  16 ≤ n → o = Some (get_node_count (RegistryService.node_table_ s)).

Record process_inv p : Prop := {
  inv_logger : logger_at 16 (at_stage p) (logs (main p)) (logger p);
  inv_server : server_at (at_stage p) (server p) (handlers p);
  inv_checker : checker_at (at_stage p) (checker p);
  inv_health : health_at (at_stage p) (health p);
  inv_reported : reported_at (at_stage p) (reported p) (service p);
  inv_returned : Forall (λ th, pc th = Returned → logs th = []) (handlers p);
}.

Lemma start_process_inv : process_inv start.
Proof.
  split; unfold at_stage; simpl; [| |lia| |by intros ?; lia|done].
  - split; [lia|]. intros _. split; [|done]. repeat split.
  - by split; [lia|].
  - split; [|done]. split; [done|lia].
Qed.

Lemma process_logging s p :
  Logger.up (logger p) → ∃ l, log s p = Ok (with_logger l p) ∧ Logger.up l.
Proof.
  intros Hup. unfold log. destruct (say_up s (logger p) Hup) as (l & -> & Hl). by exists l.
Qed.

Lemma logger_is_up p : process_inv p → 1 ≤ at_stage p ≤ 16 → Logger.up (logger p).
Proof. intros Hinv. apply (inv_logger p Hinv). Qed.

(** *** The steps of [main] *)

Lemma server_goes_on n n' o ths :
  server_at n o ths → 4 ≤ n ≤ n' ∨ n ≤ n' ≤ 3 → (10 ≤ n' → 10 ≤ n) → (11 ≤ n' → 11 ≤ n) →
  server_at n' o ths.
Proof.
  unfold server_at. destruct o as [s|]; [|intros [? ?] ???; split; [lia|done]].
  intros [H4 Hs] Hn H10 H11. split; [lia|]. eapply serves_iff; [exact Hs|split; [lia|done]|exact H11].
Qed.

Lemma checker_goes_on n n' o :
  checker_at n o → n ≤ n' → (14 ≤ n' → 14 ≤ n) → (15 ≤ n' → 15 ≤ n) → (n' ≤ 5 ∨ 6 ≤ n) →
  checker_at n' o.
Proof.
  unfold checker_at. destruct o as [[th stop]|]; [|lia]. intros (H6 & Hstop & Hdone) Hn H14 H15 H5.
  split_and!; [lia|rewrite Hstop; split; [lia|done]|]. by intros ?; apply Hdone, H15.
Qed.

Lemma health_goes_on n n' h : health_at n h → (5 ≤ n ≤ 12 ↔ 5 ≤ n' ≤ 12) → health_at n' h.
Proof. intros [Hrun Hmax] Hiff. split; [by rewrite Hrun|done]. Qed.

Lemma reported_goes_on n n' o s : reported_at n o s → (16 ≤ n' → 16 ≤ n) → reported_at n' o s.
Proof. unfold reported_at. auto. Qed.

(** The parts a step of [main] does not touch. *)
Ltac goes_on :=
  first [ done
        | eapply logger_next; [eassumption|lia|lia]
        | eapply server_goes_on; [eassumption|lia..]
        | eapply checker_goes_on; [eassumption|lia..]
        | eapply health_goes_on; [eassumption|lia]
        | eapply reported_goes_on; [eassumption|lia]
        | intros ?; lia ].

Ltac parts := split; unfold at_stage; simpl; try goes_on.

Lemma main_logs_on l s ss place p :
  process_inv p → main p = at_ (s :: ss) place → Logger.up l →
  process_inv (with_main (at_ ss place) (with_logger l p)).
Proof.
  intros [Hl Hs Hc Hh Hn Hr] Hmain Hup. unfold at_stage in *. rewrite Hmain in *.
  pose proof (logger_logging _ _ _ _ _ Hl). split; unfold at_stage; simpl; try done.
  by eapply logger_stays.
Qed.

Lemma registry_main_step_inv p :
  process_inv p → ∃ p', main_step true p = Ok p' ∧ process_inv p'.
Proof.
  intros Hinv. unfold main_step. destruct (main p) as [[|s ss] place] eqn:Hmain.
  2: { destruct (process_logging s p) as (l & -> & Hup).
       { eapply logger_is_up; [done|]. pose proof (inv_logger p Hinv) as Hl.
         rewrite Hmain in Hl. by eapply logger_logging. }
       cbn [mbind outcome_bind]. eexists. split; [done|]. by eapply main_logs_on. }
  pose proof Hinv as [Hl Hs Hc Hh Hn Hr]. unfold at_stage in *. rewrite Hmain in *. simpl in *.
  assert (∀ Q : Prop, HealthChecker.is_running_ (health p) = true ↔ Q →
            HealthChecker.is_running_ (health p) = false ↔ ¬ Q) as Hoff.
  { intros Q HQ. rewrite <-HQ. by destruct (HealthChecker.is_running_ (health p)). }
  destruct place; simpl in *.
  - eexists; split; [done|]; parts. split; [|lia]. intros _. apply Logger.init_up, Hl. by left.
  - eexists; split; [done|]; parts.
  - eexists; split; [done|]; parts.
  - eexists; split; [done|]; parts. destruct (server p) as [s|]; [destruct Hs; lia|].
    destruct Hs as [_ ->]. split; [lia|]. eapply serves_iff; [apply serves_built|split; lia|lia].
  - destruct Hh as [Hflag Hmax]. rewrite (proj2 (Hoff _ Hflag)) by lia.
    eexists; split; [done|]; parts. by split; [split; [lia|]|].
  - eexists; split; [done|]; parts. split_and!; [lia|split; [done|lia]|lia].
  - eexists; split; [done|]; parts.
  - destruct (g_running p); eexists; (split; [done|]); [done|parts].
  - eexists; split; [done|]; parts.
  - destruct (server p) as [s|] eqn:Hsrv; [|destruct Hs; lia]. eexists; split; [done|]; parts.
    destruct Hs as [_ Hs]. split; [lia|].
    eapply serves_iff; [by apply serves_closes in Hs|split; [lia|done]|lia].
  - destruct (server p) as [s|] eqn:Hsrv; [|destruct Hs; lia].
    destruct (shutdown_returns s) eqn:Hret; eexists; (split; [done|]); [|done]. parts.
    destruct Hs as [_ Hs]. rewrite Hsrv. split; [lia|].
    apply (serves_drains _ _ _ _ _ Hs) in Hret; [|lia].
    eapply serves_iff; [exact Hret|split; lia|done].
  - destruct (server p) as [s|] eqn:Hsrv; [|destruct Hs; lia].
    destruct (wait_returns s); eexists; (split; [done|]); [|done]. rewrite <-Hsrv in Hs. parts.
  - destruct Hh as [Hflag Hmax]. rewrite (proj2 Hflag) by lia.
    eexists; split; [done|]; parts. by split; [split; [|lia]|].
  - destruct (checker p) as [[th stop]|] eqn:Hck; [|simpl in Hc; lia].
    eexists; split; [done|]; parts. split_and!; [lia|split; [lia|done]|lia].
  - destruct (checker_done (checker p)) eqn:Hdone; eexists; (split; [done|]); [|done]. parts.
    destruct (checker p) as [[[[|] []] stop]|]; try done. destruct Hc as (_ & Hstop & _).
    split_and!; [lia|rewrite Hstop; split; lia|done].
  - eexists; split; [done|]; parts.
  - eexists; split; [done|]; parts. split; [lia|]. intros _. split; [|done].
    apply Logger.shutdown_down, (proj1 Hl). lia.
  - destruct Hh as [Hflag Hmax]. rewrite (proj2 (Hoff _ Hflag)) by lia.
    eexists; split; [done|]; parts.
    + split; [lia|]. intros _. split; [|done]. apply Hl. lia.
    + split; [|done]. rewrite Hflag. lia.
  - by exists p.
Qed.

(** *** The steps of the other threads *)

Lemma registry_checker_step_inv p :
  process_inv p →
  ∃ p', checker_step p = Ok p' ∧ process_inv p' ∧ main p' = main p ∧ handlers p' = handlers p
    ∧ g_running p' = g_running p ∧ server p' = server p.
Proof.
  intros Hinv. unfold checker_step.
  destruct (checker p) as [[[[|s ss] place] stop]|] eqn:Hck; [| |by exists p].
  - pose proof Hinv as [Hl Hs Hc Hh Hn Hr]. rewrite Hck in Hc. destruct Hc as (H6 & Hstop & Hdone).
    destruct (HealthThread.thread_step _ _ _ _) as [[effects place'] tb] eqn:Hstep.
    eexists. split; [done|]. split; [|done]. unfold at_stage in *.
    split; unfold at_stage; simpl; try done.
    + split_and!; [done|done|]. intros H15. specialize (Hdone H15).
      injection Hdone as ->. by injection Hstep as <- <- <-.
    + intros H16. specialize (Hn H16). assert (15 ≤ stage (pc (main p))) as H15 by lia.
      specialize (Hdone H15). injection Hdone as ->. by injection Hstep as <- <- <-.
  - assert (at_stage p ≤ 14 ∧ 6 ≤ at_stage p) as [H14 H6].
    { pose proof (inv_checker p Hinv) as Hc. rewrite Hck in Hc. destruct Hc as (H6 & _ & Hdone).
      split; [|done]. destruct (decide (at_stage p ≤ 14)); [done|]. discriminate Hdone. lia. }
    destruct (process_logging s p) as (l & -> & Hup); [apply logger_is_up; [done|lia]|].
    cbn [mbind outcome_bind]. eexists. split; [done|]. split; [|done].
    destruct Hinv as [Hl Hs Hc Hh Hn Hr]. rewrite Hck in Hc. destruct Hc as (_ & Hstop & _).
    unfold at_stage in *. split; unfold at_stage; simpl; try done; [eapply logger_stays; [done|lia|done]|].
    split_and!; [done|done|lia].
Qed.

(** While a handler is running, [main] has not got past the server's [Shutdown]. *)
Lemma handler_stage p i :
  process_inv p → running Returned (handlers p) i →
  ∃ s, server p = Some s ∧ i ∈ in_progress s ∧ 4 ≤ at_stage p ≤ 10.
Proof.
  intros [_ Hs _ _ _ _] Hrun. destruct (server p) as [s|]; simpl in Hs.
  - destruct Hs as [H4 Hs]. destruct (serves_running _ _ _ _ _ _ Hs Hrun) as [Hin H11].
    exists s. split_and!; [done|done|done|lia].
  - destruct Hs as [_ Hths], Hrun as (th & Hi & _). by rewrite Hths in Hi.
Qed.

(** A handler that stays in its call moves, and may change the service. *)
Lemma handler_goes_on p i th th' l s :
  process_inv p → handlers p !! i = Some th → th ≠ at_ [] Returned → pc th' ≠ Returned →
  Logger.up l →
  process_inv (with_handlers (<[i := th']> (handlers p)) (with_service s (with_logger l p))).
Proof.
  intros Hinv Hi Hne Hne' Hup.
  destruct (handler_stage p i Hinv) as (srv & Hsrv & _ & Hst); [by exists th|].
  destruct Hinv as [Hl Hs Hc Hh Hn Hr]. unfold at_stage in *.
  split; unfold at_stage; simpl; try done.
  - eapply logger_stays; [done|lia|done].
  - rewrite Hsrv in *. destruct Hs as [H4 Hs]. split; [done|].
    eapply serves_moves; [done..|by intros ->].
  - intros ?. lia.
  - by apply Forall_insert.
Qed.

Lemma handler_ends p i :
  process_inv p → handlers p !! i = Some (at_ [] Returning) →
  process_inv (with_handlers (<[i := at_ [] Returned]> (handlers p))
                 (with_server (call_ends i <$> server p) p)).
Proof.
  intros Hinv Hi.
  destruct (handler_stage p i Hinv) as (s & Hsrv & _ & Hst); [by exists (at_ [] Returning)|].
  destruct Hinv as [Hl Hs Hc Hh Hn Hr]. unfold at_stage in *.
  split; unfold at_stage; simpl; try done; [|by apply Forall_insert].
  rewrite Hsrv in *. simpl in *. destruct Hs as [H4 Hs]. split; [done|]. by eapply serves_returns.
Qed.

Lemma registry_handler_step_inv i rand now p :
  process_inv p →
  ∃ p', handler_step i rand now p = Ok p' ∧ process_inv p' ∧ main p' = main p
    ∧ checker p' = checker p ∧ g_running p' = g_running p
    ∧ length (handlers p') = length (handlers p)
    ∧ (∀ j, j ≠ i → handlers p' !! j = handlers p !! j)
    ∧ (¬ running Returned (handlers p) i → p' = p).
Proof.
  intros Hinv. unfold handler_step.
  destruct (handlers p !! i) as [th|] eqn:Hi; [|by exists p].
  assert (pc th = Returned ∨ pc th ≠ Returned) as [Hret|Hne] by (destruct (pc th); auto).
  { pose proof (inv_returned p Hinv) as Hr. rewrite Forall_lookup in Hr.
    specialize (Hr _ _ Hi Hret). destruct th as [ss place]. simpl in *. subst. by exists p. }
  assert (running Returned (handlers p) i) as Hrun by (exists th; split; [done|by intros ->]).
  destruct (handler_stage p i Hinv Hrun) as (srv & Hsrv & Hin & Hst).
  assert (Logger.up (logger p)) as Hup by (apply logger_is_up; [done|lia]).
  assert (∀ th' l s p', pc th' ≠ Returned → Logger.up l →
      p' = with_handlers (<[i := th']> (handlers p)) (with_service s (with_logger l p)) →
      process_inv p' ∧ main p' = main p ∧ checker p' = checker p ∧ g_running p' = g_running p
      ∧ length (handlers p') = length (handlers p)
      ∧ (∀ j, j ≠ i → handlers p' !! j = handlers p !! j)
      ∧ (¬ running Returned (handlers p) i → p' = p)) as Hgoes.
  { intros th' l s p' Hth' Hl ->. split_and!; try done.
    - eapply handler_goes_on; [done|done| |done|done]. by intros ->.
    - apply length_insert.
    - intros j Hj. by apply list_lookup_insert_ne. }
  destruct th as [[|st ss] place].
  - destruct place as [[req|req|req|req]|req| |]; try done.
    + destruct (RegistryService.is_running (service p)); eexists; (split; [done|]);
        (eapply (λ th', Hgoes th' (logger p) (service p)); [|done|by destruct p]; done).
    + destruct (RegistryService.Heartbeat _ _ _ _) as [[st response] s'].
      eexists; split; [done|]. eapply (λ th', Hgoes th' (logger p) s'); [|done|reflexivity]; done.
    + destruct (RegistryService.Deregister _ _ _) as [[st response] s'].
      eexists; split; [done|]. eapply (λ th', Hgoes th' (logger p) s'); [|done|reflexivity]; done.
    + destruct (RegistryService.Discover _ _ _) as [[st response] s'].
      eexists; split; [done|]. eapply (λ th', Hgoes th' (logger p) s'); [|done|reflexivity]; done.
    + destruct (RegistryService.Register_admitted _ _ _ _ _) as [[st response] s'].
      eexists; split; [done|]. eapply (λ th', Hgoes th' (logger p) s'); [|done|reflexivity]; done.
    + eexists; split; [done|].
      split_and!; try done; [exact (handler_ends p i Hinv Hi)|simpl; by rewrite length_insert|].
      intros j Hj. by apply list_lookup_insert_ne.
  - destruct (process_logging st p Hup) as (l & -> & Hup'). cbn [mbind outcome_bind].
    eexists. split; [done|]. by eapply (Hgoes (at_ ss place) l (service p)).
Qed.

Lemma registry_arrival_inv s s' r p :
  process_inv p → server p = Some s → call_begins (length (handlers p)) s = Some s' →
  process_inv (with_handlers (handlers p ++ [at_ [] (Entered r)]) (with_server (Some s') p)).
Proof.
  intros [Hl Hs Hc Hh Hn Hr] Hsrv Hbeg.
  rewrite Hsrv in Hs. destruct Hs as [H4 Hs]. unfold at_stage in *.
  split; unfold at_stage; simpl; try done.
  - split; [done|]. eapply serves_arrives; [done|lia|done|done].
  - apply Forall_app. split; [done|]. by constructor.
Qed.

(** No step faults, and every step keeps the invariant; only [main] moves [main]. *)
Lemma registry_step_inv c p :
  process_inv p → server_built c →
  ∃ p', step c p = Ok p' ∧ process_inv p'
    ∧ match c with MainSteps _ => True | _ => main p' = main p end.
Proof.
  intros Hinv Hbuilt. destruct c as [|r|built| |i rand now]; simpl.
  - eexists. split; [done|]. destruct Hinv as [Hl Hs Hc Hh Hn Hr]. by destruct (installed _).
  - eexists. split; [done|]. destruct (server p) as [s|] eqn:Hsrv; [|done]. cbn [mbind option_bind].
    destruct (call_begins _ s) as [s'|] eqn:Hbeg; [|done]. split; [|done].
    by eapply registry_arrival_inv.
  - simpl in Hbuilt. subst built. destruct (registry_main_step_inv p Hinv) as (p' & ? & ?). by exists p'.
  - destruct (registry_checker_step_inv p Hinv) as (p' & ? & ? & ? & _). by exists p'.
  - destruct (registry_handler_step_inv i rand now p Hinv) as (p' & ? & ? & ? & _). by exists p'.
Qed.

Lemma registry_run_inv cs p :
  process_inv p → Forall server_built cs → ∃ p', run_process cs p = Ok p' ∧ process_inv p'.
Proof.
  apply run_steps_inv. intros c q Hq Hc.
  destruct (registry_step_inv c q Hq Hc) as (q' & Hstep & Hinv & _). by exists q'.
Qed.

End invariant.

(** ** The history of the process *)

Section history.
  Context {T : Type} `{NodeDirectoryLaws T} `{G : GrpcStatus} `{SL : SyncServerLaws}.

Implicit Type p : process T.

Definition client_event (ev : event) : Prop := is_checker ev = false.

(** The service is what RegistrySystem's events make of a new one: rounds, each ended
    by the checker's two calls, and the beginning of the next, which has the first of
    the two when the checker's thread is between them. *)
Definition history_at (removing : bool) (s : RegistryService.t T) : Prop :=
  ∃ rs pre post,
    s = RegistrySystem.run (rounds 3 rs ++ if removing then pre ++ [EvIncrement] ++ post else pre)
          (RegistryService.RegistryServiceImpl 10000)
    ∧ Forall (both client_event) rs ∧ Forall client_event pre ∧ Forall client_event post.

(** Whether the checker's thread is between its two calls. *)
Definition removing p : bool :=
  match checker p with
  | Some (th, _) => bool_decide (pc th = HealthThread.Removing)
  | None => false
  end.

Lemma run_event evs ev (s : RegistryService.t T) :
  RegistrySystem.step ev (RegistrySystem.run evs s) = RegistrySystem.run (evs ++ [ev]) s.
Proof. by rewrite run_app. Qed.

Lemma history_client removing ev (s : RegistryService.t T) :
  client_event ev → history_at removing s → history_at removing (RegistrySystem.step ev s).
Proof.
  intros Hev (rs & pre & post & -> & Hrs & Hpre & Hpost). rewrite run_event.
  destruct removing; [exists rs, pre, (post ++ [ev])|exists rs, (pre ++ [ev]), post];
    (split_and!; [by rewrite <-!app_assoc|try done; by apply Forall_snoc..]).
Qed.

Lemma history_increments (s : RegistryService.t T) :
  history_at false s → history_at true (RegistrySystem.step EvIncrement s).
Proof.
  intros (rs & pre & post & -> & Hrs & Hpre & _). rewrite run_event.
  exists rs, pre, []. split_and!; [by rewrite <-app_assoc|done..].
Qed.

Lemma history_removes (s : RegistryService.t T) :
  history_at true s → history_at false (RegistrySystem.step (EvRemoveStale 3) s).
Proof.
  intros (rs & pre & post & -> & Hrs & Hpre & Hpost). rewrite run_event.
  exists (rs ++ [(pre, post)]), [], []. split_and!; [|by apply Forall_snoc|done|done].
  unfold rounds. rewrite fmap_app, concat_app. simpl. unfold round. simpl.
  by rewrite !app_nil_r, <-!app_assoc.
Qed.

Lemma history_wf removing (s : RegistryService.t T) :
  history_at removing s → svc_wf s ∧ svc_capacity s = 10000%Z.
Proof.
  destruct (new_directory_spec (T := T) 10000) as (Hwf0 & _ & Hcap0); [by split|].
  intros (rs & pre & post & -> & _). split; [by apply run_wf|].
  by rewrite run_capacity.
Qed.

(** *** Each step is an event, or none *)

Lemma handler_step_history i rand now p p' :
  handler_step i rand now p = Ok p' →
  history_at (removing p) (service p) → history_at (removing p') (service p').
Proof.
  intros Hstep Hh. unfold handler_step in Hstep.
  destruct (handlers p !! i) as [[[|st ss] place]|]; [| |by injection Hstep as <-].
  - destruct place as [[req|req|req|req]|req| |].
    + destruct (RegistryService.is_running (service p)); by injection Hstep as <-.
    + pose proof (history_client _ (EvHeartbeat req now) _ eq_refl Hh) as Hh'.
      cbn [RegistrySystem.step] in Hh'.
      destruct (RegistryService.Heartbeat _ _ _ _) as [[? ?] s']. by injection Hstep as <-.
    + pose proof (history_client _ (EvDeregister req) _ eq_refl Hh) as Hh'.
      cbn [RegistrySystem.step] in Hh'.
      destruct (RegistryService.Deregister _ _ _) as [[? ?] s']. by injection Hstep as <-.
    + pose proof (history_client _ (EvDiscover req) _ eq_refl Hh) as Hh'.
      cbn [RegistrySystem.step] in Hh'.
      destruct (RegistryService.Discover _ _ _) as [[? ?] s']. by injection Hstep as <-.
    + pose proof (history_client _ (EvAdmitted req rand now) _ eq_refl Hh) as Hh'.
      cbn [RegistrySystem.step] in Hh'.
      destruct (RegistryService.Register_admitted _ _ _ _ _) as [[? ?] s']. by injection Hstep as <-.
    + by injection Hstep as <-.
    + by injection Hstep as <-.
  - unfold log in Hstep. destruct (say st (logger p)) as [l|]; [|done]. by injection Hstep as <-.
Qed.

Lemma set_same_table (s : RegistryService.t T) :
  RegistryService.set_table (RegistryService.node_table_ s) s = s.
Proof. by destruct s. Qed.

Lemma checker_step_history p p' :
  process_inv p → checker_step p = Ok p' →
  history_at (removing p) (service p) → history_at (removing p') (service p').
Proof.
  intros Hinv Hstep Hh. pose proof (inv_health p Hinv) as [_ Hmax]. unfold checker_step, removing in *.
  destruct (checker p) as [[[[|st ss] place] stop]|] eqn:Hck; [| |injection Hstep as <-; by rewrite Hck].
  - destruct place; simpl in Hstep, Hh.
    + injection Hstep as <-. simpl. rewrite set_same_table. by destruct stop.
    + injection Hstep as <-. simpl. rewrite set_same_table. by destruct stop.
    + injection Hstep as <-. by apply (history_increments (service p)).
    + rewrite Hmax in Hstep. apply history_removes in Hh. simpl in Hh.
      destruct (remove_stale_nodes _ _) as [removed tb]. by injection Hstep as <-.
    + injection Hstep as <-. simpl. by rewrite set_same_table.
    + injection Hstep as <-. simpl. by rewrite set_same_table.
  - unfold log in Hstep. destruct (say st (logger p)) as [l|]; [|done]. by injection Hstep as <-.
Qed.

Lemma main_step_history built p p' :
  process_inv p → main_step built p = Ok p' →
  history_at (removing p) (service p) → history_at (removing p') (service p').
Proof.
  intros Hinv Hstep Hh. pose proof (inv_checker p Hinv) as Hc. unfold at_stage in Hc.
  unfold main_step in Hstep. destruct (main p) as [[|st ss] place] eqn:Hmain.
  2: { unfold log in Hstep. destruct (say st (logger p)) as [l|]; [|done]. by injection Hstep as <-. }
  destruct place.
  all: try (repeat case_match; first [discriminate Hstep | injection Hstep as <-; exact Hh]).
  - injection Hstep as <-. unfold removing in *. simpl. destruct (checker p) as [[]|]; [simpl in Hc; lia|].
    by exists [], [], [].
  - injection Hstep as <-. unfold removing in *. simpl. destruct (checker p) as [[]|]; [simpl in Hc; lia|].
    exact Hh.
  - injection Hstep as <-. exact (history_client _ EvShutdown _ eq_refl Hh).
  - unfold removing in *. destruct (checker p) as [[th stop]|] eqn:Hck; injection Hstep as <-; simpl;
      [exact Hh|by rewrite Hck].
Qed.

Lemma start_history : history_at (removing start) (service start).
Proof.
  change (history_at false (service start)). exists [], [], []. split_and!; [reflexivity|constructor..].
Qed.

Lemma registry_step_history c p p' :
  process_inv p → step c p = Ok p' →
  history_at (removing p) (service p) → history_at (removing p') (service p').
Proof.
  intros Hinv Hstep Hh. destruct c as [|r|built| |i rand now]; simpl in Hstep.
  - injection Hstep as <-. by destruct (installed _).
  - injection Hstep as <-. destruct (server p) as [s|]; [|done]. cbn [mbind option_bind].
    by destruct (call_begins _ s).
  - by eapply main_step_history.
  - by eapply checker_step_history.
  - by eapply handler_step_history.
Qed.

Lemma registry_run_history cs :
  Forall server_built cs →
  ∃ p, run_process cs start = Ok p ∧ process_inv p ∧ history_at (removing p) (service p).
Proof.
  intros Hok. apply (run_steps_inv _ server_built (λ p, process_inv p ∧ history_at (removing p) (service p)));
    [| |done].
  - intros c p [Hinv Hh] Hc. destruct (registry_step_inv c p Hinv Hc) as (p' & Hstep & Hinv' & _).
    exists p'. split_and!; [done|done|]. exact (registry_step_history c p p' Hinv Hstep Hh).
  - split; [apply start_process_inv|apply start_history].
Qed.

(** C3: the registry process refines RegistrySystem: under every schedule of its threads
    and of arriving calls, in which the server could be built, no step faults, and the
    service is at all times what a sequence of rounds makes of a new one: the clients'
    calls and the shutdown, each an event, with the checker's two calls, threshold 3, in
    strict alternation, the second outstanding exactly when the checker's thread is
    between them. *)
Theorem registry_process_is_history cs :
  Forall server_built cs →
  ∃ p, run_process cs start = Ok p ∧ history_at (removing p) (service p).
Proof.
  intros Hok. destruct (registry_run_history cs Hok) as (p & Hrun & _ & Hh). by exists p.
Qed.

(** C19: under every schedule in which the server could be built, no thread of the
    registry process logs through a null logger or dereferences the null server; and
    once [main] is past the destructors, the logger is down, the checker's thread has
    been stopped and has returned, every handler that began has returned, and the node
    count [main] logged is that of the table as it is left, at most 10000. *)
Theorem registry_process_safe cs :
  Forall server_built cs →
  ∃ p, run_process cs start = Ok p
    ∧ (pc (main p) = Done →
         Logger.down (logger p)
         ∧ checker p = Some (at_ [] HealthThread.Exited, true)
         ∧ Forall (λ th, th = at_ [] Returned) (handlers p)
         ∧ reported p = Some (Z.of_nat (size (svc_abs (service p))))
         ∧ (Z.of_nat (size (svc_abs (service p))) ≤ 10000)%Z).
Proof.
  intros Hok. destruct (registry_run_history cs Hok) as (p & Hrun & Hinv & Hh).
  exists p. split; [done|]. intros Hdone. destruct (history_wf _ _ Hh) as [Hwf Hcap].
  pose proof Hinv as [Hl Hs Hc _ Hn _]. unfold at_stage in *. rewrite Hdone in *.
  split_and!; [apply Hl; right; simpl; lia| | | |].
  - destruct (checker p) as [[th stop]|]; [|simpl in Hc; lia]. destruct Hc as (_ & Hstop & Hex).
    rewrite Hex by (simpl; lia). rewrite (proj2 Hstop) by (simpl; lia). done.
  - apply Forall_lookup. intros i th Hi.
    assert (¬ running Returned (handlers p) i) as Hnone.
    { intros Hrun'. destruct (handler_stage p i Hinv Hrun') as (s & _ & _ & Hst).
      unfold at_stage in Hst. rewrite Hdone in Hst. simpl in Hst. lia. }
    destruct th as [[|s ss] []]; try done; by (destruct Hnone; eexists; split; [exact Hi|]).
  - rewrite Hn by (simpl; lia). by rewrite get_node_count_spec.
  - destruct (dir_wf_capacity _ Hwf) as [Hle _]. unfold svc_capacity, svc_abs in *. lia.
Qed.

End history.

(** ** Progress after the signal *)

Inductive registry_tid := MainThread | CheckerThread | HandlerThread (i : nat).

#[global] Instance registry_tid_eq_dec : EqDecision registry_tid.
Proof. solve_decision. Defined.

(** The capacity of the table, which bounds what one removal logs. *)
Definition max_nodes : nat := Z.to_nat 10000.

Lemma max_nodes_eq : Z.of_nat max_nodes = 10000%Z.
Proof. by apply Z2Nat.id. Qed.

#[local] Opaque max_nodes.

Section ending.
  Context {T : Type} `{NodeDirectoryLaws T} `{G : GrpcStatus} `{SL : SyncServerLaws}.

Implicit Type p : process T.

(** The thread that a choice moves. *)
Definition moved (c : choice) : option registry_tid :=
  match c with
  | Signal | Arrives _ => None
  | MainSteps _ => Some MainThread
  | CheckerSteps => Some CheckerThread
  | HandlerSteps i _ _ => Some (HandlerThread i)
  end.

Definition arrives (c : choice) : nat := match c with Arrives _ => 1 | _ => 0 end.

(** How many steps a thread has to go: [main] once it has the signal, the checker once
    it is told to stop.  [main] pays for the checker's steps when it tells it to. *)
Definition main_rank (place : main_pc) : nat :=
  match place with
  | Initializing => 2 * max_nodes + 37 | ConstructingService => 2 * max_nodes + 33
  | ConstructingChecker => 2 * max_nodes + 31 | Building => 2 * max_nodes + 29
  | StartingChecker => 2 * max_nodes + 27 | SpawningChecker => 2 * max_nodes + 26
  | InstallingHandlers => 2 * max_nodes + 24 | AwaitingSignal => 2 * max_nodes + 23
  | ClosingService => 2 * max_nodes + 21 | CallingShutdown => 2 * max_nodes + 19
  | InShutdown => 2 * max_nodes + 18 | InWait => 2 * max_nodes + 17
  | StoppingChecker => 2 * max_nodes + 16 | RequestingStop => 2 * max_nodes + 14
  | JoiningChecker => 6 | CountingNodes => 5 | ShuttingLogger => 3 | Destroying => 2 | Done => 0
  end.

Definition checker_rank (place : HealthThread.pc) : nat :=
  match place with
  | HealthThread.AtHead | HealthThread.Sleeping => 2
  | HealthThread.Incrementing => 2 * max_nodes + 7 | HealthThread.Removing => 2 * max_nodes + 6
  | HealthThread.Counting => 4 | HealthThread.Exited => 0
  end.

Definition handler_rank (place : handler_pc) : nat :=
  match place with Entered _ => 5 | Accepted _ => 4 | Returning => 1 | Returned => 0 end.

Definition stopping_rank (o : option (thread HealthThread.pc * bool)) : nat :=
  match o with Some (th, true) => thread_rank checker_rank th | _ => 0 end.

Definition own_rank p : nat := thread_rank main_rank (main p) + stopping_rank (checker p).

Definition process_rank p : nat :=
  own_rank p + sum_list_with (thread_rank handler_rank) (handlers p).

(** A thread that is not waiting and not done. *)
Definition main_ready p : bool :=
  match main p with
  | at_ (_ :: _) _ => true
  | at_ [] AwaitingSignal => negb (g_running p)
  | at_ [] InShutdown => from_option shutdown_returns false (server p)
  | at_ [] InWait => from_option wait_returns false (server p)
  | at_ [] JoiningChecker => checker_done (checker p)
  | at_ [] Done => false
  | at_ [] _ => true
  end.

Definition can_move (t : registry_tid) p : Prop :=
  match t with
  | MainThread => main_ready p = true
  | CheckerThread => ∃ th, checker p = Some (th, true) ∧ th ≠ at_ [] HealthThread.Exited
  | HandlerThread i => running Returned (handlers p) i
  end.

(** The checker's thread is never further from its end than right before a tick. *)
Definition checker_bounded p : Prop :=
  match checker p with
  | Some (th, _) => thread_rank checker_rank th ≤ 2 * max_nodes + 7
  | None => True
  end.

Lemma registry_log_inv s p p' : log s p = Ok p' → ∃ l, p' = with_logger l p.
Proof.
  unfold log. destruct (say s (logger p)) as [l|]; simpl; [|done]. intros [= <-]. by exists l.
Qed.

(** *** The ranks *)

Lemma registry_main_rank built p p' :
  checker_bounded p → main_step built p = Ok p' →
  checker_bounded p' ∧ g_running p' = g_running p ∧ handlers p' = handlers p
  ∧ own_rank p' + (if main_ready p then 1 else 0) ≤ own_rank p.
Proof.
  unfold main_step, own_rank, checker_bounded, main_ready. intros Hb Hstep.
  destruct (main p) as [[|s ss] place] eqn:Hmain.
  2: { destruct (log s p) as [p1|] eqn:Hlog; [|done]. apply registry_log_inv in Hlog as [l ->].
       injection Hstep as <-. simpl. split_and!; [done..|]. unfold thread_rank. simpl. lia. }
  destruct place; branches Hstep; rewrite ?Hmain;
    repeat match goal with H : ?x = _ |- context [?x] => rewrite H end;
    simpl; (split_and!; [|done|done|]); unfold thread_rank in *; simpl in *; try done; try lia.
Qed.

(** What a removal logs: for each node two statements, and one for all. *)
Lemma removed_logs_length removed :
  length (effect_logs (HealthChecker.Removed removed)) ≤ 2 * length removed + 1.
Proof.
  simpl. unfold remove_stale_logs. rewrite !length_app, !length_map.
  destruct removed; simpl; lia.
Qed.

Lemma removed_at_most threshold (s : RegistryService.t T) :
  svc_wf s → svc_capacity s = 10000%Z →
  length (remove_stale_nodes threshold (RegistryService.node_table_ s)).1 ≤ max_nodes.
Proof.
  intros Hwf Hcap. rewrite (remove_stale_removed threshold _ Hwf).
  destruct (dir_wf_capacity _ Hwf) as [Hle _]. unfold svc_capacity in Hcap. rewrite Hcap in Hle.
  pose proof (map_size_filter (Directory.is_stale threshold) (dir_abs (RegistryService.node_table_ s))).
  change (length (elements ?X)) with (size X). unfold Directory.stale_ids. rewrite size_dom.
  pose proof max_nodes_eq. lia.
Qed.

Lemma checker_step_rank p p' :
  HealthChecker.max_missed_heartbeats_ (health p) = 3%Z →
  svc_wf (service p) → svc_capacity (service p) = 10000%Z → checker_bounded p →
  checker_step p = Ok p' →
  checker_bounded p' ∧ own_rank p' ≤ own_rank p
  ∧ (can_move CheckerThread p → own_rank p' < own_rank p)
  ∧ (checker_done (checker p) = true → p' = p).
Proof.
  intros Hmax Hwf Hcap Hb Hstep. unfold checker_step, own_rank, checker_bounded, can_move in *.
  destruct (checker p) as [[[[|s ss] place] stop]|] eqn:Hck.
  - pose proof (removed_at_most 3 _ Hwf Hcap) as Hmany. unfold HealthThread.thread_step in Hstep.
    rewrite Hmax in Hstep. destruct (remove_stale_nodes 3 _) as [removed tb]. simpl in Hmany.
    pose proof (removed_logs_length removed) as Hlogs.
    cbn [effect_logs] in Hlogs.
    destruct place; injection Hstep as <-; simpl mbind; rewrite ?app_nil_r;
      cbn [checker with_checker with_service main own_rank stopping_rank];
      unfold thread_rank in *; cbn [logs pc checker_rank] in *;
      destruct stop; cbn [length app checker_rank pc logs stopping_rank] in *;
      (split_and!; [lia|lia| |]);
      try done; try (intros (? & [= <-] & ?); (done || lia)).
    all: intros _; destruct p as [? ? sv ? ? ? ? ? ?]; destruct sv; simpl in *; by rewrite Hck.
  - destruct (log s p) as [p1|] eqn:Hlog; [|done]. apply registry_log_inv in Hlog as [l ->].
    injection Hstep as <-. unfold thread_rank in *. simpl in *.
    destruct stop; unfold thread_rank; simpl; (split_and!; [lia|lia| |done]); [lia|by intros (? & [=] & _)].
  - injection Hstep as <-. rewrite Hck. split_and!; [done|done| |done]. by intros (? & [=] & _).
Qed.

Lemma register_logs_length req ok (s : RegistryService.t T) : length (register_logs req ok s) ≤ 2.
Proof.
  unfold register_logs, register_node_logs. destruct (RegisterRequest.node_info req); [|simpl; lia].
  destruct (String.eqb _ ""); [simpl; lia|]. rewrite length_app.
  destruct ok; [simpl; lia|]. destruct (_ <=? _)%Z; simpl; lia.
Qed.

Lemma registry_handler_rank i rand now p p' :
  handler_step i rand now p = Ok p' →
  process_rank p' ≤ process_rank p ∧ (can_move (HandlerThread i) p → process_rank p' < process_rank p).
Proof.
  unfold handler_step, process_rank, own_rank, can_move. intros Hstep.
  destruct (handlers p !! i) as [[[|s ss] place]|] eqn:Hi.
  - pose proof (λ th', total_rank_insert handler_rank _ _ _ th' Hi) as Hsum.
    destruct place as [[req|req|req|req]|req| |]; branches Hstep;
      try match goal with |- context [<[i := ?th']> _] => specialize (Hsum th') end;
      try match goal with |- context [register_logs ?req ?ok ?s] =>
            pose proof (register_logs_length req ok s) end;
      unfold thread_rank in *; simpl in *;
      repeat match goal with H : context [if ?b then _ else _] |- _ => destruct b; simpl in * end;
      (split; [lia|]); intros (th & Hth & Hne); simplify_eq; (done || lia).
  - destruct (log s p) as [p1|] eqn:Hlog; [|done]. apply registry_log_inv in Hlog as [l ->].
    pose proof (total_rank_insert handler_rank _ _ _ (at_ ss place) Hi).
    injection Hstep as <-. unfold thread_rank in *. simpl in *. lia.
  - injection Hstep as <-. split; [done|]. intros (th & Hth & _). congruence.
Qed.

(** *** The invariant of a reachable process, and one step *)

Definition reachable_inv p : Prop :=
  process_inv p ∧ history_at (removing p) (service p) ∧ checker_bounded p.

Lemma registry_step_rank c p :
  reachable_inv p → server_built c →
  ∃ p', step c p = Ok p' ∧ reachable_inv p' ∧ (g_running p = false → g_running p' = false)
    ∧ length (handlers p) ≤ length (handlers p') ≤ length (handlers p) + arrives c
    ∧ process_rank p' + 5 * length (handlers p) ≤ process_rank p + 5 * length (handlers p')
    ∧ (∀ t, moved c = Some t → can_move t p → process_rank p' < process_rank p).
Proof.
  intros (Hinv & Hh & Hb) Hc. destruct (registry_step_inv c p Hinv Hc) as (p' & Hstep & Hinv' & _).
  pose proof (registry_step_history c p p' Hinv Hstep Hh) as Hh'.
  destruct (history_wf _ _ Hh) as [Hwf Hcap].
  exists p'. split; [done|].
  destruct c as [|r|built| |i rand now]; cbn [step moved arrives] in Hstep |- *.
  - injection Hstep as <-. destruct (installed _); (split_and!; try done; cbn [handlers]; lia).
  - injection Hstep as <-. unfold process_rank in *.
    destruct (s ← server p; call_begins (length (handlers p)) s) as [s'|]; (split_and!; try done); try lia.
    + simpl. rewrite length_app. simpl. lia.
    + simpl. rewrite length_app. simpl. lia.
    + cbn [handlers with_handlers]. rewrite sum_list_with_app, length_app. unfold own_rank, thread_rank. simpl. lia.
  - destruct (registry_main_rank _ _ _ Hb Hstep) as (Hb' & Hg & Hhs & Hrank). unfold process_rank.
    rewrite Hg, Hhs. split_and!; try done; try lia. intros t [= <-] Hready. simpl in Hready.
    rewrite Hready in Hrank. lia.
  - destruct (checker_step_rank p p') as (Hb' & Hle & Hlt & _); try done; [apply Hinv|].
    destruct (registry_checker_step_inv p Hinv) as (p1 & Hp1 & _ & _ & Hhs & Hg & _).
    rewrite Hstep in Hp1. injection Hp1 as <-. unfold process_rank. rewrite Hhs, Hg.
    split_and!; try done; try lia. intros t [= <-] Hready. specialize (Hlt Hready). lia.
  - destruct (registry_handler_rank _ _ _ _ _ Hstep) as [Hle Hlt].
    destruct (registry_handler_step_inv i rand now p Hinv) as (p1 & Hp1 & _ & _ & Hck & Hg & Hlen & _).
    rewrite Hstep in Hp1. injection Hp1 as <-. unfold reachable_inv, checker_bounded. rewrite Hck, Hg, Hlen.
    split_and!; try done; try lia. by intros t [= <-].
Qed.

(** *** A thread that can move can move until it does *)

Lemma registry_drained_stays c p p' s :
  process_inv p → moved c ≠ Some MainThread → step c p = Ok p' →
  server p = Some s → shut_down s = true → in_progress s = ∅ → server p' = Some s.
Proof.
  intros Hinv Hwho Hstep Hsrv Hshut Hnone. destruct c as [|r|built| |i rand now]; simpl in *; try done.
  - injection Hstep as <-. by destruct (installed _).
  - injection Hstep as <-. rewrite Hsrv. cbn [mbind option_bind].
    destruct (call_begins _ s) as [s'|] eqn:Hbeg; [|done].
    apply begins_law in Hbeg as [Hopen _]. congruence.
  - destruct (registry_checker_step_inv p Hinv) as (p1 & Hp1 & _ & _ & _ & _ & Hsame). congruence.
  - destruct (registry_handler_step_inv i rand now p Hinv) as (p1 & Hp1 & _ & _ & _ & _ & _ & _ & Hnop).
    rewrite Hstep in Hp1. injection Hp1 as <-. rewrite Hnop; [done|].
    intros Hrun. destruct (handler_stage p i Hinv Hrun) as (s' & Hs' & Hin & _).
    rewrite Hsrv in Hs'. injection Hs' as <-. rewrite Hnone in Hin. by apply elem_of_empty in Hin.
Qed.

(** What the others do to the checker's thread: nothing, once it is told to stop. *)
Lemma stopping_checker_stays c p p' th :
  reachable_inv p → moved c ≠ Some CheckerThread → step c p = Ok p' →
  checker p = Some (th, true) → checker p' = Some (th, true).
Proof.
  intros (Hinv & _ & _) Hwho Hstep Hck. destruct c as [|r|built| |i rand now]; simpl in *; try done.
  - injection Hstep as <-. by destruct (installed _).
  - injection Hstep as <-. by destruct (s ← server p; call_begins (length (handlers p)) s).
  - pose proof (inv_checker p Hinv) as Hc. rewrite Hck in Hc. destruct Hc as (_ & [Hlate _] & _).
    specialize (Hlate eq_refl). unfold at_stage in Hlate. unfold main_step in Hstep.
    destruct (main p) as [[|s ss] place]; simpl in Hlate.
    + destruct place; simpl in Hlate; try lia; branches Hstep; done.
    + destruct (log s p) as [p1|] eqn:Hlog; [|done]. apply registry_log_inv in Hlog as [l ->].
      by injection Hstep as <-.
  - destruct (registry_handler_step_inv i rand now p Hinv) as (p1 & Hp1 & _ & _ & Hsame & _). congruence.
Qed.

Lemma registry_main_stays_ready c p p' :
  reachable_inv p → moved c ≠ Some MainThread → step c p = Ok p' → main p' = main p →
  g_running p' = false → main_ready p = true → main_ready p' = true.
Proof.
  intros Hreach Hwho Hstep Hmain Hstop. pose proof Hreach as (Hinv & _ & _).
  unfold main_ready. rewrite Hmain. pose proof (inv_server p Hinv) as Hs.
  pose proof (inv_checker p Hinv) as Hc. unfold at_stage in *.
  destruct (main p) as [[|s ss] place]; [|done]. destruct place; try done; simpl in *.
  - by rewrite Hstop.
  - destruct (server p) as [s|] eqn:Hsrv; [|done]. destruct Hs as (_ & Hshut & _). simpl. intros Hret.
    assert (shut_down s = true) as Hs by (apply Hshut; lia).
    rewrite (registry_drained_stays c p p' s); try done. by apply shutdown_returns_law.
  - destruct (server p) as [s|] eqn:Hsrv; [|done]. simpl. intros Hret.
    pose proof (proj1 (wait_returns_law s) Hret) as [Hshut Hnone].
    by rewrite (registry_drained_stays c p p' s).
  - intros Hdone. destruct (decide (moved c = Some CheckerThread)) as [Heq|Hne].
    + destruct c; try done. destruct Hreach as (_ & Hh & Hb). destruct (history_wf _ _ Hh) as [Hwf Hcap].
      destruct (checker_step_rank p p') as (_ & _ & _ & Hsame); [apply Hinv|done..|].
      by rewrite Hsame.
    + destruct (checker p) as [[th stop]|] eqn:Hck; [|done]. destruct Hc as (_ & Hst & _).
      rewrite (proj2 Hst) in Hck by lia. by rewrite (stopping_checker_stays c p p' th).
Qed.

Lemma registry_stays_ready c t p p' :
  reachable_inv p → server_built c → moved c ≠ Some t → step c p = Ok p' → g_running p' = false →
  can_move t p → can_move t p'.
Proof.
  intros Hreach Hbuilt Hwho Hstep Hstop. pose proof Hreach as (Hinv & _ & _). destruct t as [| |i]; simpl.
  - destruct (registry_step_inv c p Hinv Hbuilt) as (p1 & Hp1 & _ & Hmain). rewrite Hstep in Hp1.
    injection Hp1 as <-. intros Hready. eapply registry_main_stays_ready; try done. by destruct c.
  - intros (th & Hck & Hne). exists th. split; [|done]. by apply (stopping_checker_stays c p).
  - intros (th & Hi & Hne). exists th. split; [|done].
    destruct c as [|r|built| |j rand now]; simpl in *.
    + injection Hstep as <-. by destruct (installed _).
    + injection Hstep as <-. destruct (s ← server p; call_begins (length (handlers p)) s); [|done].
      by apply lookup_app_l_Some.
    + destruct Hreach as (_ & _ & Hb). by destruct (registry_main_rank _ _ _ Hb Hstep) as (_ & _ & -> & _).
    + destruct (registry_checker_step_inv p Hinv) as (p1 & Hp1 & _ & _ & Hsame & _). congruence.
    + destruct (registry_handler_step_inv j rand now p Hinv) as (p1 & Hp1 & _ & _ & _ & _ & _ & Hsame & _).
      rewrite Hstep in Hp1. injection Hp1 as <-. rewrite Hsame; [done|]. by intros ->.
Qed.

(** As long as [main] is not past its end, some thread can move. *)
Lemma registry_somebody_moves p :
  process_inv p → g_running p = false → main p ≠ at_ [] Done →
  ∃ t, can_move t p ∧ ∀ i, t = HandlerThread i → i < length (handlers p).
Proof.
  intros Hinv Hstop Hne. destruct (main_ready p) eqn:Hready; [by exists MainThread|].
  pose proof (inv_server p Hinv) as Hs. pose proof (inv_checker p Hinv) as Hc.
  unfold at_stage, main_ready in *.
  destruct (main p) as [[|s ss] place]; [|done]. destruct place; simpl in *; try done.
  - by rewrite Hstop in Hready.
  - destruct (server p) as [s|]; [|simpl in Hs; lia]. destruct Hs as (_ & Hshut & _ & Hin).
    simpl in Hready. destruct (decide (in_progress s = ∅)) as [Hnone|Hsome].
    + apply shutdown_returns_law in Hnone; [congruence|]. apply Hshut. lia.
    + apply set_choose_L in Hsome as [i Hi]. apply Hin in Hi. exists (HandlerThread i).
      split; [done|]. intros j [= <-]. destruct Hi as (th & Hi & _). by eapply lookup_lt_Some.
  - destruct (server p) as [s|]; [|simpl in Hs; lia]. destruct Hs as (_ & Hshut & Hnone & _).
    simpl in Hready. rewrite (proj2 (wait_returns_law s)) in Hready; [done|].
    split; [apply Hshut; lia|apply Hnone; lia].
  - destruct (checker p) as [[th stop]|] eqn:Hck; [|simpl in Hc; lia]. destruct Hc as (_ & Hst & _).
    exists CheckerThread. split; [|done]. simpl. exists th. rewrite Hck, (proj2 Hst) by lia.
    split; [done|]. by intros ->.
Qed.

(** *** The process as a program that finishes *)

Definition main_done p : bool := match main p with at_ [] Done => true | _ => false end.

Lemma main_done_iff p : main_done p = true ↔ main p = at_ [] Done.
Proof. unfold main_done. by destruct (main p) as [[|s ss] []]. Qed.

Lemma done_stays c p p' :
  process_inv p → server_built c → step c p = Ok p' → main_done p = true → main_done p' = true.
Proof.
  intros Hinv Hc Hstep. rewrite !main_done_iff. intros Hmain.
  destruct (registry_step_inv c p Hinv Hc) as (p1 & Hp1 & _ & Hsame).
  rewrite Hstep in Hp1. injection Hp1 as <-. destruct c; try by rewrite Hsame.
  simpl in Hstep. unfold main_step in Hstep. rewrite Hmain in Hstep. by injection Hstep as <-.
Qed.

#[global] Instance registry_program : FairProgram (process T) choice := {|
  tid := registry_tid;
  do := step;
  who := moved;
  arrived := arrives;
  tids N := MainThread :: CheckerThread :: (HandlerThread <$> seq 0 N);
  population p := length (handlers p);
  ready := can_move;
  rank := process_rank;
  arrival_rank := 5;
  finished := main_done;
|}.

#[global, refine] Instance registry_program_laws : FairProgramLaws registry_program := {|
  holds p := reachable_inv p ∧ g_running p = false;
  allowed := server_built;
|}.
Proof.
  - intros n m Hnm t. simpl. rewrite !elem_of_cons, !list_elem_of_fmap.
    intros [?|[?|(i & -> & Hi)]]; auto. do 2 right. exists i. split; [done|].
    apply elem_of_seq in Hi. apply elem_of_seq. lia.
  - intros c p [Hreach Hstop] Hc.
    destruct (registry_step_rank c p Hreach Hc) as (p' & Hstep & Hreach' & Hg & Hlen & Hle & Hlt).
    exists p'. simpl. split_and!; try done; auto; [lia|lia|by apply (done_stays c); [apply Hreach|..]|].
    intros t Ht. case_decide as Hwho; [by apply (Hlt t)|by apply (registry_stays_ready c t p); auto].
  - by intros [].
  - intros p [[Hinv _] Hstop] Hfin.
    destruct (registry_somebody_moves p) as (t & Ht & Hi); [done|done| |].
    { intros Hex%main_done_iff. simpl in Hfin. congruence. }
    exists t. split; [done|]. simpl. rewrite !elem_of_cons. destruct t as [| |i]; auto. do 2 right.
    apply list_elem_of_fmap. exists i. split; [done|]. apply elem_of_seq.
    specialize (Hi i eq_refl). lia.
  - intros p Hfin. simpl in *. unfold process_rank, own_rank, thread_rank. unfold main_done in Hfin.
    destruct (main p) as [[|s ss] []]; simpl; (done || lia).
Defined.

Lemma registry_reachable cs p :
  Forall server_built cs → run_process cs start = Ok p →
  reachable_inv p ∧ process_rank p ≤ 2 * max_nodes + 37 + 5 * length (handlers p).
Proof.
  intros Hok Hrun.
  destruct (run_steps_inv step server_built
              (λ p, reachable_inv p ∧ process_rank p ≤ 2 * max_nodes + 37 + 5 * length (handlers p))
              cs start) as (p' & Hp' & Hreach & Hrank); [| |done|].
  - intros c q [Hq Hqr] Hc.
    destruct (registry_step_rank c q Hq Hc) as (q' & Hstep & Hq' & _ & _ & Hle & _).
    exists q'. split_and!; [done|done|lia].
  - split; [|unfold process_rank, own_rank, thread_rank; simpl; lia].
    split_and!; [apply start_process_inv|apply start_history|done].
  - rewrite Hrun in Hp'. injection Hp' as <-. split; [done|lia].
Qed.

(** C20: the registry server ends, if the server could be built (otherwise it dereferences
    null).  From the moment [g_running] is false, let the threads move in rounds: in each round every thread moves at least once, in any order and
    among any arrivals of new calls.  If there are never more than [N] calls, then
    after 20037 + 5 N rounds (the table's capacity is 10000) [main] is past its
    destructors and the logger is down.  Nothing is asked of the clients; 20001 of the
    rounds are for what the checker's last removal may log. *)
Theorem registry_process_exits cs p N rounds :
  Forall server_built cs → run_process cs start = Ok p → g_running p = false →
  Forall (λ round, fair N round ∧ Forall server_built round) rounds →
  length (handlers p) + arrivals (concat rounds) ≤ N →
  2 * max_nodes + 37 + 5 * N ≤ length rounds →
  ∃ p', run_process (concat rounds) p = Ok p' ∧ main p' = at_ [] Done ∧ Logger.down (logger p').
Proof.
  intros Hb Hrun Hstop Hok HN Hlen. destruct (registry_reachable cs p Hb Hrun) as [Hreach Hbound].
  destruct (rounds_finish N rounds p) as (p' & Hrun' & [(Hinv' & _) _] & Hmain%main_done_iff);
    [done|done|done|simpl; lia|].
  exists p'. split_and!; [done|done|]. apply (inv_logger p' Hinv').
  unfold at_stage. rewrite Hmain. simpl. lia.
Qed.

End ending.

(** * Examples *)

#[local] Instance sample_order : HashOrder NodeEntry.t := front_order _.
#[local] Instance sample_status : GrpcStatus := concrete_status.
#[local] Instance sample_server : SyncServer := concrete_server.
#[local] Instance sample_server_laws : SyncServerLaws sample_server := concrete_server_laws.

Definition sample_start : process NodeTable.t := start.

Definition sample_registration (id : string) : rpc :=
  CallRegister (RegisterRequest.mk (Some (sample_info id ["lidar"])) float_zero float_zero).

Definition sample_heartbeat (id : string) : rpc :=
  CallHeartbeat (HeartbeatRequest.mk id "" 0 float_zero float_zero 0).

(** A handler of one call, from its arrival to its return. *)
Definition sample_call (i : nat) (r : rpc) : list choice :=
  Arrives r :: replicate 6 (HandlerSteps i 7 100).

(** The server comes up, two nodes register, one sends a heartbeat between the two
    calls of the checker's first tick. *)
Definition sample_up : list choice :=
  replicate 14 (MainSteps true) ++ sample_call 0 (sample_registration "lidar_01")
  ++ sample_call 1 (sample_registration "camera_01") ++ replicate 4 CheckerSteps
  ++ sample_call 2 (sample_heartbeat "lidar_01").

(** Two more ticks: the other node is removed.  A query has begun, and the server is told
    to stop. *)
Definition sample_down : list choice :=
  sample_up ++ replicate 16 CheckerSteps ++ [Arrives (CallDiscover (DiscoverRequest.mk [])); Signal].

Lemma sample_up_built : Forall server_built sample_up.
Proof. by repeat constructor. Qed.

Lemma sample_down_built : Forall server_built sample_down.
Proof. by repeat constructor. Qed.

(** Between the checker's two calls: its second is outstanding. *)
Lemma registry_process_is_history_witness :
  ∃ p rs pre post,
    run_process sample_up sample_start = Ok p
    ∧ service p = RegistrySystem.run (rounds 3 rs ++ pre ++ [EvIncrement] ++ post)
                    (RegistryService.RegistryServiceImpl 10000).
Proof.
  destruct (registry_process_is_history (T := NodeTable.t) sample_up) as (p & Hrun & Hh);
    [exact sample_up_built|].
  assert (removing p = true) as Hrem
    by (apply (seen_ok removing _ _ _ Hrun); vm_compute; reflexivity).
  rewrite Hrem in Hh. destruct Hh as (rs & pre & post & Hs & _).
  exists p, rs, pre, post. split; [exact Hrun|exact Hs].
Defined.

(** A round of the threads. *)
Definition sample_round : list choice :=
  [MainSteps true; CheckerSteps; HandlerSteps 0 7 100; HandlerSteps 1 7 100; HandlerSteps 2 7 100;
   HandlerSteps 3 7 100; HandlerSteps 4 7 100].

Lemma sample_round_ok :
  fair (F := registry_program (T := NodeTable.t)) 5 sample_round ∧ Forall server_built sample_round.
Proof. split; [apply (bool_decide_unpack _); by vm_compute|by repeat constructor]. Qed.

(** [main] gets to the join before the checker moves again. *)
Definition sample_end : list choice :=
  concat (replicate 10 [MainSteps true; HandlerSteps 3 7 100]) ++ concat (replicate 30 sample_round).

Lemma registry_process_safe_witness :
  ∃ p, run_process (sample_down ++ sample_end) sample_start = Ok p
    ∧ pc (main p) = Done ∧ Logger.down (logger p) ∧ reported p = Some 1%Z.
Proof.
  destruct (registry_process_safe (T := NodeTable.t) (sample_down ++ sample_end))
    as (p & Hrun & Hp).
  { apply Forall_app. split; [exact sample_down_built|]. by repeat constructor. }
  exists p. split; [exact Hrun|].
  assert (pc (main p) = Done) as Hdone
    by (apply (seen_ok (λ p, pc (main p)) _ _ _ Hrun); vm_compute; reflexivity).
  destruct (Hp Hdone) as (Hdown & _).
  split; [exact Hdone|]. split; [exact Hdown|].
  apply (seen_ok reported _ _ _ Hrun). vm_compute. reflexivity.
Defined.

(** Another call arrives in the first of [n] + 1 rounds. *)
Definition sample_rounds (n : nat) : list (list choice) :=
  (Arrives (sample_heartbeat "camera_01") :: sample_round) :: replicate n sample_round.

Lemma registry_rounds_ok n :
  Forall (λ round, fair (F := registry_program (T := NodeTable.t)) 5 round ∧ Forall server_built round)
    (sample_rounds n).
Proof.
  destruct sample_round_ok as [Hfair Hbuilt]. constructor; [split|].
  - eapply Forall_impl; [exact Hfair|]. intros t Ht. by apply elem_of_cons; right.
  - by constructor.
  - apply Forall_replicate. exact sample_round_ok.
Qed.

Lemma sample_rounds_arrivals n :
  arrivals (F := registry_program (T := NodeTable.t)) (concat (sample_rounds n)) = 1.
Proof.
  simpl. rewrite (arrivals_none (concat (replicate n sample_round))); [done|].
  apply Forall_concat, Forall_replicate. by repeat constructor.
Qed.

Lemma registry_process_exits_witness :
  ∃ p p', run_process sample_down sample_start = Ok p
    ∧ run_process (concat (sample_rounds (2 * max_nodes + 62))) p = Ok p'
    ∧ main p' = at_ [] Done ∧ Logger.down (logger p').
Proof.
  destruct (registry_run_inv (T := NodeTable.t) sample_down start start_process_inv sample_down_built)
    as (p & Hrun & _).
  destruct (registry_process_exits sample_down p 5 (sample_rounds (2 * max_nodes + 62)))
    as (p' & Hrun' & Hmain & Hdown); [exact sample_down_built|exact Hrun| |apply registry_rounds_ok| | |].
  - apply (seen_ok g_running _ _ _ Hrun). vm_compute. reflexivity.
  - rewrite (seen_ok (λ p, length (handlers p)) _ _ 4 Hrun) by (vm_compute; reflexivity).
    rewrite sample_rounds_arrivals. lia.
  - cbn [sample_rounds length]. rewrite length_replicate. lia.
  - exists p, p'. split; [exact Hrun|]. split; [exact Hrun'|]. split; [exact Hmain|exact Hdown].
Defined.
