(* ===== verification/TableTests.v ===== *)
(** * The unit tests of the node table (src/tests/test_node_table.cpp)

    Each test of the suite, run on the model: a test is a function of the hash
    table's order that returns the conjunction of its expectations.  The last test
    runs two threads, so it is a function of their schedule too.  The suite passes
    for every order and every schedule; its fixture has the logger up while the
    tests run. *)

From Stdlib Require Import ZArith Lia.
From stdpp Require Import prelude gmap strings list pretty.
From S2P Require Import Prelude UnorderedMap Messages NodeDir Table Programs.

#[local] Open Scope drocm_scope.

Section tests.
  Context `{!HashOrder NodeEntry.t}.
  Import NodeTable.

Definition make_node_info (node_id ip : string) (port : Z) (services : list string) : NodeInfo.t :=
  foldl (λ info svc, NodeInfo.add_services svc info)
    (NodeInfo.empty |> NodeInfo.set_node_id node_id
                    |> NodeInfo.set_ip_address ip
                    |> NodeInfo.set_port port) services.

(** With the default arguments. *)
Definition make_node (node_id : string) : NodeInfo.t :=
  make_node_info node_id "127.0.0.1" 50052 ["lidar"].

(** A call whose result the test ignores. *)
Definition registered (node_id session : string) (table : t) : t :=
  (register_node (make_node node_id) session 0 table).2.

Definition beaten (node_id : string) (cpu memory connections : Z) (table : t) : t :=
  (update_heartbeat node_id (float_of_Z cpu) (float_of_Z memory) connections 0 table).2.

Definition missed_of (node_id : string) (table : t) : option Z :=
  NodeEntry.missed_heartbeats <$> get_node node_id table.

Definition RegisterAndDeregisterNode : bool :=
  let table := NodeTable 100 in
  let info := make_node "node_01" in
  let '(r1, table) := register_node info "session_01" 0 table in
  let '(r2, table') := deregister_node "node_01" table in
  r1 && has_node "node_01" table && (get_node_count table =? 1)%Z
  && r2 && negb (has_node "node_01" table') && (get_node_count table' =? 0)%Z.

Definition RejectDuplicateRegistration : bool :=
  let table := NodeTable 100 in
  let info := make_node "node_01" in
  let '(r1, table) := register_node info "session_01" 0 table in
  let '(r2, table) := register_node info "session_02" 0 table in
  r1 && negb r2.

Definition RejectRegistrationWhenTableFull : bool :=
  let table := NodeTable 1 in
  let '(r1, table) := register_node (make_node "node_01") "session_01" 0 table in
  let '(r2, table) := register_node (make_node "node_02") "session_02" 0 table in
  r1 && negb r2.

Definition UpdateHeartbeatResetsMissedCounter : bool :=
  let table := registered "node_01" "session_01" (NodeTable 100) in
  let table := increment_all_missed_heartbeats table in
  let before := missed_of "node_01" table in
  let table := beaten "node_01" 15 45 2 table in
  bool_decide (before = Some 1%Z) && bool_decide (missed_of "node_01" table = Some 0%Z).

Definition DiscoverReturnsOnlyHealthyNodes : bool :=
  let table := NodeTable 100 in
  let table := registered "healthy_lidar" "session_01" table in
  let table := registered "unhealthy_lidar" "session_02" table in
  let table := registered "another_healthy_lidar" "session_03" table in
  let table := increment_all_missed_heartbeats table in
  let table := beaten "healthy_lidar" 10 40 1 table in
  let table := beaten "another_healthy_lidar" 12 42 1 table in
  let nodes := get_nodes_by_service [] table in
  bool_decide (length nodes = 2)
  && forallb (λ e, negb (String.eqb (NodeInfo.node_id (NodeEntry.info e)) "unhealthy_lidar")) nodes.

Definition DiscoverFiltersByServiceName : bool :=
  let table := NodeTable 100 in
  let add id port services session table :=
    (register_node (make_node_info id "127.0.0.1" port services) session 0 table).2 in
  let table := add "lidar_01" 50052%Z ["lidar"] "s1" table in
  let table := add "camera_01" 50053%Z ["camera"] "s2" table in
  let table := add "fusion_01" 50054%Z ["lidar"; "camera"] "s3" table in
  bool_decide (length (get_nodes_by_service ["lidar"] table) = 2)
  && bool_decide (length (get_nodes_by_service ["camera"] table) = 2)
  && bool_decide (length (get_nodes_by_service ["lidar"; "camera"] table) = 3).

Definition DiscoverReturnsEmptyWhenNoHealthyNodes : bool :=
  let table := registered "node_02" "s2" (registered "node_01" "s1" (NodeTable 100)) in
  let table := Nat.iter 3 increment_all_missed_heartbeats table in
  bool_decide (length (get_nodes_by_service [] table) = 0).

Definition DiscoverWithEmptyFilterReturnsAllHealthy : bool :=
  let table := registered "node_01" "s1" (NodeTable 100) in
  let table :=
    (register_node (make_node_info "node_02" "127.0.0.1" 50053 ["camera"]) "s2" 0 table).2 in
  bool_decide (length (get_nodes_by_service [] table) = 2).

Definition RemoveStaleNodesRemovesUnhealthyNodes : bool :=
  let table := registered "stale_node" "s2" (registered "healthy_node" "s1" (NodeTable 100)) in
  let table := Nat.iter 3 increment_all_missed_heartbeats table in
  let table := beaten "healthy_node" 10 40 1 table in
  let '(removed, table) := remove_stale_nodes 3 table in
  bool_decide (removed = ["stale_node"])
  && (get_node_count table =? 1)%Z && has_node "healthy_node" table.

(** ** The concurrent test

    A schedule says which thread makes the next call: the writer ([true]), which
    registers node [i], or the reader, which keeps the size of what it got. *)

Definition node_name (i : nat) : string := "node_" +:+ to_string (Z.of_nat i).
Definition session_name (i : nat) : string := "s_" +:+ to_string (Z.of_nat i).

Definition register_nth (table : t) (i : nat) : t := registered (node_name i) (session_name i) table.

Fixpoint concurrent (schedule : list bool) (i : nat) (table : t) : list nat * t :=
  match schedule with
  | [] => ([], table)
  | true :: schedule => concurrent schedule (S i) (register_nth table i)
  | false :: schedule =>
      let nodes := get_nodes_by_service [] table in
      let '(sizes, table) := concurrent schedule i table in (length nodes :: sizes, table)
  end.

Definition ConcurrentRegisterAndDiscover (schedule : list bool) : list nat * t :=
  concurrent schedule 10 (foldl register_nth (NodeTable 1000) (seq 0 10)).

(** Its expectations: on each query, and on the count at the end. *)
Definition concurrent_expectations (schedule : list bool) : bool :=
  let '(sizes, table) := ConcurrentRegisterAndDiscover schedule in
  forallb (λ n, bool_decide (n ≤ 20)) sizes && (get_node_count table =? 20)%Z.

(** ** The suite

    The fixture's functions, and the program: it sets the suite up, runs the
    tests and tears it down. *)

Definition SetUpTestSuite (l : Logger.t) : Logger.t := (Logger.init_default l).2.

Definition TearDownTestSuite (l : Logger.t) : Logger.t := Logger.shutdown l.

Definition suite : list bool :=
  [RegisterAndDeregisterNode; RejectDuplicateRegistration; RejectRegistrationWhenTableFull;
   UpdateHeartbeatResetsMissedCounter; DiscoverReturnsOnlyHealthyNodes;
   DiscoverFiltersByServiceName; DiscoverReturnsEmptyWhenNoHealthyNodes;
   DiscoverWithEmptyFilterReturnsAllHealthy; RemoveStaleNodesRemovesUnhealthyNodes].

(** The logger the tests run with, their results, and the logger afterwards. *)
Definition test_program (schedule : list bool) (l : Logger.t)
    : Logger.t * list bool * Logger.t :=
  let l := SetUpTestSuite l in
  (l, suite ++ [concurrent_expectations schedule], TearDownTestSuite l).

(** ** A table and the directory behind it *)

Record behind (cap : Z) (d : Directory.t) (table : t) : Prop := {
  behind_wf : wf table;
  behind_cap : max_nodes_ table = cap;
  behind_abs : abs table = d;
}.

Lemma behind_new cap : in_u32 cap → behind cap ∅ (NodeTable cap).
Proof. intros Hcap. split; [by apply NodeTable_wf|done|apply abs_NodeTable]. Qed.

(** What an operation answers, and the directory it leaves, from what was behind
    the table. *)
Lemma behind_op {A} (op : t → A * t) (spec : Z → Directory.t → A * Directory.t) cap d table :
  refines op spec → behind cap d table →
  ∃ table', op table = ((spec cap d).1, table') ∧ behind cap (spec cap d).2 table'.
Proof.
  intros Hop [Hwf <- <-]. destruct (Hop table Hwf) as (Hs & Hwf' & Hcap').
  change (spec (max_nodes_ table) (abs table) = ((op table).1, abs (op table).2)) in Hs.
  rewrite Hs. destruct (op table) as [a table']. by exists table'.
Qed.

Lemma behind_register info sid now cap d table :
  behind cap d table →
  ∃ table', register_node info sid now table = ((Directory.register cap info sid now d).1, table')
  ∧ behind cap (Directory.register cap info sid now d).2 table'.
Proof. exact (behind_op _ _ cap d table (register_node_refines info sid now)). Qed.

Lemma behind_added info sid now cap d table :
  behind cap d table →
  behind cap (Directory.register cap info sid now d).2 (register_node info sid now table).2.
Proof. intros (table' & Heq & Hb)%(behind_register info sid now). by rewrite Heq. Qed.

Lemma behind_deregister id cap d table :
  behind cap d table →
  ∃ table', deregister_node id table = (Directory.known id d, table')
  ∧ behind cap (delete id d) table'.
Proof. exact (behind_op _ _ cap d table (deregister_node_refines id)). Qed.

Lemma behind_registered id sid cap d table :
  behind cap d table →
  behind cap (Directory.register cap (make_node id) sid 0 d).2 (registered id sid table).
Proof. apply behind_added. Qed.

Lemma behind_beaten id cpu mem conns cap d table :
  behind cap d table →
  behind cap (Directory.heartbeat id (float_of_Z cpu) (float_of_Z mem) 0 d).2
    (beaten id cpu mem conns table).
Proof.
  intros Hb. destruct (behind_op _ _ cap d table
    (update_heartbeat_refines id (float_of_Z cpu) (float_of_Z mem) conns 0) Hb)
    as (t' & Heq & Hb').
  unfold beaten. simpl in Heq. by rewrite Heq.
Qed.

Lemma behind_increment cap d table :
  behind cap d table → behind cap (Directory.tick d) (increment_all_missed_heartbeats table).
Proof.
  intros Hb. by destruct (behind_op _ _ cap d table increment_refines Hb) as (t' & [= <-] & Hb').
Qed.

Lemma behind_remove threshold cap d table :
  behind cap d table →
  ∃ removed table', remove_stale_nodes threshold table = (removed, table')
  ∧ removed ≡ₚ elements (Directory.stale_ids threshold d)
  ∧ behind cap (Directory.sweep threshold d) table'.
Proof.
  intros Hb. pose proof Hb as [Hwf _ Habs].
  destruct (behind_op _ _ cap d table (remove_stale_refines threshold) Hb)
    as (t' & [= <-] & Hb').
  pose proof (remove_stale_removed threshold table Hwf) as Hrem.
  change (dir_abs table) with (abs table) in Hrem. rewrite Habs in Hrem. simpl in *.
  destruct (remove_stale_nodes threshold table) as [removed table']. by exists removed, table'.
Qed.

Lemma behind_has id cap d table : behind cap d table → has_node id table = Directory.known id d.
Proof. intros [Hwf _ <-]. by rewrite has_node_abs, get_node_abs. Qed.

Lemma behind_count cap d table :
  behind cap d table → get_node_count table = Z.of_nat (size d).
Proof. intros [Hwf _ <-]. by apply node_count_size. Qed.

Lemma behind_missed id cap d table :
  behind cap d table → missed_of id table = NodeEntry.missed_heartbeats <$> d !! id.
Proof. intros [_ _ <-]. unfold missed_of. by rewrite get_node_abs. Qed.

Lemma behind_nodes services cap d table :
  behind cap d table →
  get_nodes_by_service services table
    ≡ₚ filter (Directory.healthy services) (map_to_list d).*2.
Proof.
  intros [Hwf _ <-]. rewrite get_nodes_by_service_eq by done. by rewrite values_perm.
Qed.

(** The table holds the first [n] nodes. *)
Definition holds (n : nat) (table : t) : Prop :=
  wf table ∧ max_nodes_ table = 1000%Z
  ∧ dom (abs table) = list_to_set (node_name <$> seq 0 n).

Lemma node_name_inj i j : node_name i = node_name j → i = j.
Proof.
  unfold node_name. intros Heq. apply (inj (String.append "node_")) in Heq.
  apply to_string_inj in Heq. lia.
Qed.

Lemma holds_size n table : holds n table → size (abs table) = n.
Proof.
  intros (_ & _ & Hdom). rewrite <-size_dom, Hdom, size_list_to_set.
  - by rewrite length_fmap, length_seq.
  - apply NoDup_fmap_2_strong; [|apply NoDup_seq]. intros i j _ _. apply node_name_inj.
Qed.

Lemma holds_register n table :
  holds n table → n < 1000 → holds (S n) (register_nth table n).
Proof.
  intros Hh Hn. pose proof (holds_size n table Hh) as Hsize.
  destruct Hh as (Hwf & Hmax & Hdom). unfold register_nth, registered.
  destruct (register_refines (make_node (node_name n)) (session_name n) 0 table Hwf)
    as (Hs & Hwf' & Hcap).
  cbv beta in Hs. unfold Directory.register in Hs. rewrite Hmax in Hs.
  change (NodeInfo.node_id (make_node (node_name n))) with (node_name n) in Hs.
  rewrite decide_True in Hs.
  2: { split; [rewrite Hsize; lia|]. apply not_elem_of_dom. rewrite Hdom.
    rewrite elem_of_list_to_set, list_elem_of_fmap. intros (i & Heq & Hi).
    apply node_name_inj in Heq. apply elem_of_seq in Hi. lia. }
  destruct (register_node _ _ _ table) as [ok table']. simpl in *. injection Hs as _ Habs.
  split_and!; [done|congruence|].
  rewrite <-Habs, dom_insert_L, Hdom, seq_S, fmap_app, list_to_set_app_L. csimpl.
  rewrite union_empty_r_L. apply (comm_L (∪)).
Qed.

Lemma holds_read n table : holds n table → length (get_nodes_by_service [] table) ≤ n.
Proof.
  intros Hh. rewrite <-(holds_size n table Hh). destruct Hh as (Hwf & _).
  rewrite get_nodes_by_service_eq by done. etransitivity; [apply length_filter|].
  rewrite (values_perm table Hwf), length_fmap. by rewrite length_map_to_list.
Qed.

Lemma holds_registers n m table :
  holds n table → n + m ≤ 1000 → holds (n + m) (foldl register_nth table (seq n m)).
Proof.
  revert n table. induction m as [|m IH]; intros n table Hh Hle; simpl.
  { by rewrite Nat.add_0_r. }
  rewrite <-Nat.add_succ_comm. apply IH; [|lia]. apply holds_register; [done|lia].
Qed.

Lemma concurrent_spec schedule n table :
  holds n table → n + length (filter (λ b : bool, b) schedule) ≤ 1000 →
  let '(sizes, table') := concurrent schedule n table in
  holds (n + length (filter (λ b : bool, b) schedule)) table'
  ∧ Forall (λ k, k ≤ n + length (filter (λ b : bool, b) schedule)) sizes.
Proof.
  revert n table. induction schedule as [|[] schedule IH]; intros n table Hh Hle; simpl.
  - by rewrite Nat.add_0_r.
  - simpl in Hle. rewrite <-Nat.add_succ_comm in Hle |- *. apply IH; [|lia]. apply holds_register; [done|lia].
  - simpl in Hle. specialize (IH n table Hh Hle). destruct (concurrent schedule n table) as [sizes table'].
    destruct IH as [Hh' Hsizes]. split; [done|]. constructor; [|done].
    pose proof (holds_read n table Hh). lia.
Qed.

Lemma concurrent_test_passes schedule :
  length (filter (λ b : bool, b) schedule) = 10 →
  concurrent_expectations schedule = true.
Proof.
  intros Hlen.
  assert (holds 0 (NodeTable 1000)) as H0.
  { split_and!; [apply NodeTable_wf; by split|done|]. by rewrite abs_NodeTable. }
  assert (holds 10 (foldl register_nth (NodeTable 1000) (seq 0 10))) as H10
    by (apply (holds_registers 0 10); [done|lia]).
  pose proof (concurrent_spec schedule 10 _ H10) as Hspec. rewrite Hlen in Hspec.
  unfold concurrent_expectations, ConcurrentRegisterAndDiscover.
  destruct (concurrent _ _ _) as [sizes table]. destruct Hspec as [Hh Hsizes]; [lia|].
  pose proof (holds_size 20 table Hh) as Hsize. destruct Hh as (Hwf & _).
  rewrite node_count_size, Hsize by done. apply andb_true_iff. split; [|done].
  apply Is_true_true, forallb_True. eapply Forall_impl; [exact Hsizes|].
  intros n Hn. by apply bool_decide_pack.
Qed.

(** ** The sequential tests

    One more operation of a test: its answer is the directory's, and the directory
    behind the table is the directory's next.  Once the table is gone, the
    directories are closed and compute. *)

Lemma length_nodes services cap d table :
  behind cap d table →
  length (get_nodes_by_service services table)
  = length (filter (Directory.healthy services) (map_to_list d).*2).
Proof. intros Hb. by rewrite (behind_nodes services cap d table Hb). Qed.

Lemma forallb_nodes P services cap d table :
  behind cap d table →
  forallb P (get_nodes_by_service services table)
  = forallb P (filter (Directory.healthy services) (map_to_list d).*2).
Proof.
  intros Hb. apply eq_bool_prop_intro. rewrite !forallb_True.
  by rewrite (behind_nodes services cap d table Hb).
Qed.

Lemma registration_tests :
  RegisterAndDeregisterNode = true ∧ RejectDuplicateRegistration = true
  ∧ RejectRegistrationWhenTableFull = true.
Proof.
  pose proof (behind_new 100 ltac:(by split)) as H0.
  destruct (behind_register (make_node "node_01") "session_01" 0 _ _ _ H0) as (t1 & Heq1 & H1).
  split_and!.
  - unfold RegisterAndDeregisterNode. rewrite Heq1.
    destruct (behind_deregister "node_01" _ _ _ H1) as (t2 & Heq2 & H2). rewrite Heq2.
    rewrite (behind_has _ _ _ _ H1), (behind_has _ _ _ _ H2).
    by rewrite (behind_count _ _ _ H1), (behind_count _ _ _ H2).
  - unfold RejectDuplicateRegistration. rewrite Heq1.
    destruct (behind_register (make_node "node_01") "session_02" 0 _ _ _ H1) as (t2 & Heq2 & _).
    by rewrite Heq2.
  - unfold RejectRegistrationWhenTableFull.
    pose proof (behind_new 1 ltac:(by split)) as I0.
    destruct (behind_register (make_node "node_01") "session_01" 0 _ _ _ I0) as (u1 & Eq1 & I1).
    destruct (behind_register (make_node "node_02") "session_02" 0 _ _ _ I1) as (u2 & Eq2 & _).
    by rewrite Eq1, Eq2.
Qed.

(** Finds the directory behind a table that a test has built. *)
Ltac follow :=
  repeat first [apply behind_beaten | apply behind_increment | apply behind_registered
               | apply behind_added | apply behind_new; by split].

(** Names the directory behind the table [tb], as [Hb]. *)
Ltac directory_behind cap tb :=
  eassert (behind cap _ tb) as Hb by follow.

Lemma query_tests :
  DiscoverReturnsOnlyHealthyNodes = true ∧ DiscoverFiltersByServiceName = true
  ∧ DiscoverReturnsEmptyWhenNoHealthyNodes = true
  ∧ DiscoverWithEmptyFilterReturnsAllHealthy = true.
Proof.
  split_and!.
  - unfold DiscoverReturnsOnlyHealthyNodes. cbv zeta.
    match goal with |- context [get_nodes_by_service [] ?tb] => directory_behind 100%Z tb end.
    rewrite (length_nodes _ _ _ _ Hb), (forallb_nodes _ _ _ _ _ Hb). by vm_compute.
  - unfold DiscoverFiltersByServiceName. cbv beta zeta.
    match goal with |- context [get_nodes_by_service ["camera"] ?tb] =>
      directory_behind 100%Z tb end.
    rewrite !(length_nodes _ _ _ _ Hb). by vm_compute.
  - unfold DiscoverReturnsEmptyWhenNoHealthyNodes. cbn [Nat.iter].
    match goal with |- context [get_nodes_by_service [] ?tb] => directory_behind 100%Z tb end.
    rewrite (length_nodes _ _ _ _ Hb). by vm_compute.
  - unfold DiscoverWithEmptyFilterReturnsAllHealthy. cbv zeta.
    match goal with |- context [get_nodes_by_service [] ?tb] => directory_behind 100%Z tb end.
    rewrite (length_nodes _ _ _ _ Hb). by vm_compute.
Qed.

Lemma heartbeat_tests :
  UpdateHeartbeatResetsMissedCounter = true ∧ RemoveStaleNodesRemovesUnhealthyNodes = true.
Proof.
  split.
  - unfold UpdateHeartbeatResetsMissedCounter. cbv zeta.
    match goal with |- context [beaten _ _ _ _ ?tb] => directory_behind 100%Z tb end.
    rewrite (behind_missed _ _ _ _ Hb).
    rewrite (behind_missed _ _ _ _ (behind_beaten "node_01" 15 45 2 _ _ _ Hb)).
    by vm_compute.
  - unfold RemoveStaleNodesRemovesUnhealthyNodes. cbn [Nat.iter].
    match goal with |- context [remove_stale_nodes 3 ?tb] => directory_behind 100%Z tb end.
    destruct (behind_remove 3 _ _ _ Hb) as (removed & table' & -> & Hrem & Hb').
    rewrite (behind_count _ _ _ Hb'), (behind_has _ _ _ _ Hb').
    assert (removed = ["stale_node"]) as ->; [|by vm_compute].
    apply Permutation_singleton_r. rewrite Hrem. by vm_compute.
Qed.

(** The test program passes.  However the hash table orders its nodes, and under
    every interleaving of the concurrent test's ten registrations with any number of
    queries (it makes a hundred), every expectation of the ten tests holds; the
    fixture has initialized the logger when they run, and has shut it down at the
    end. *)
Theorem test_program_passes schedule l :
  Logger.wf l →
  length (filter (λ b : bool, b) schedule) = 10 →
  let '(l1, results, l2) := test_program schedule l in
  Logger.up l1 ∧ Forall (λ r, r = true) results ∧ length results = 10 ∧ Logger.down l2.
Proof.
  intros Hl Hlen. unfold test_program.
  destruct (Logger.init_up "logs" 8192 1 l Hl) as [_ Hup].
  destruct registration_tests as (? & ? & ?), query_tests as (? & ? & ? & ?), heartbeat_tests.
  split_and!; [exact Hup| |done|apply Logger.shutdown_down, Hup].
  repeat (apply Forall_cons_2; [done|]). apply Forall_singleton. by apply concurrent_test_passes.
Qed.

End tests.

#[local] Instance sample_order : HashOrder NodeEntry.t := front_order _.

Lemma test_program_passes_witness :
  let schedule := [true; false; true; true; false] ++ replicate 7 true ++ replicate 98 false in
  (test_program schedule Logger.initial).1.2 = replicate 10 true
  ∧ Logger.instance_ (test_program schedule Logger.initial).2 = None.
Proof.
  pose proof (test_program_passes
    ([true; false; true; true; false] ++ replicate 7 true ++ replicate 98 false)
    Logger.initial ltac:(by split) eq_refl) as Ht.
  split; [by vm_compute|]. cbv zeta.
  destruct (test_program _ _) as [[l1 results] l2]. by apply Ht.
Defined.
